(* ===== verification/_CoqProject ===== *)
-Q . S2P
Prelude.v
Float.v
Job.v
Utf8.v
Fmt.v
Net.v
Base64.v
Json.v
GoTime.v
Strconv.v
Flags.v
Proto.v
Store.v
Timeline.v
MemStore.v
MemStoreFacts.v
Redis.v
RedisModel.v
RedisStore.v
RedisCodec.v
RedisUpdate.v
Telemetry.v
Registry.v
Prog.v
Memory.v
JsonGrammar.v
Billet.v
Handler.v
Pump.v
Samples.v
PumpFacts.v
ControlPlane.v
Admission.v
RunConfigs.v
RunConfigFacts.v
Config.v
Launcher.v
TokenIssuer.v
Service.v
Watch.v
Reaper.v
WatchFacts.v
ReaperFacts.v
LauncherFacts.v
TokenIssuerFacts.v
ServiceFacts.v
Lifecycle.v
RedisLink.v
RedisRefines.v
RedisWatch.v
Recorder.v
Pools.v
Labels.v
Settles.v
Journey.v
Announce.v
Api.v
ApiFacts.v
View.v
Sse.v
Web.v
WebFacts.v
Mux.v
Pipeline.v
Collector.v
Serve.v
ServeFacts.v
