(* ===== verification/Prelude.v ===== *)
(** * Hairpin: a verification development

    Hairpin is the control plane of the stirrup agent harness.  A caller submits a
    task; hairpin stores a job, starts a harness for it (a Kubernetes Job), and waits
    for the harness to dial back.  The harness correlates its stream to the job with a
    session string, is assigned the run config, and streams events that hairpin pumps
    into the job's timeline until the job is settled.  Beside the streams run the
    caller-facing operations (cancel, answer a permission request, watch) and a reaper
    that fails jobs whose harness never came and deletes old ones.

    ** Parts and files

    Shared ground.
    - [Prelude]: scopes, errors ([errors.Is] over wrapped errors), tactics and the list,
      string and option lemmas the files share.
    - [Float], [Utf8], [Fmt], [Net], [Base64], [Json], [GoTime], [Strconv], [Flags]: the
      parts of Go's standard library whose results decide what hairpin does (binary64
      seconds, rune decoding, [Sscanf]/[%q], [SplitHostPort]/[Atoi], base64url, the JSON
      scanner, string literals and struct decoding, RFC 3339 times and durations as text,
      [ParseInt]/[ParseFloat]/[ParseDuration], flag sets).
    - [Prog]: the effects.  An operation is a tree of atomic actions (a store call, a
      registry call, one [Send], a clock reading, a call to another system).  [run]
      executes it alone, [trace] lets every answer be given, [step] interleaves a pool
      of operations and the goroutines they start over one [World].

    State.
    - [Job] ([internal/job/job.go]): the record, statuses, IDs, session strings, tokens.
    - [Store] ([internal/store/store.go]): the interface [Store] as a class of state
      transformers and [StoreLaws], what its clients rely on.  Clients are proved
      against the laws wherever they need no more than them.
    - [MemStore], [MemStoreFacts] ([internal/store/memstore.go]): the in-memory store,
      with watchers as heap objects; its invariant, and the instance of the laws.
    - [Redis], [RedisModel]: the commands of a Redis client as actions, what the server
      is documented to do with each as the laws of a class ([RedisLaws]), programs of
      commands with other clients in between, and an executable server that keeps the
      laws.  [RedisStore] ([internal/store/redisstore]): every method as such a program.
      [RedisCodec]: what is written reads back; [RedisUpdate]: updates under contention;
      [RedisLink]: the whole of hairpin linked to these programs call by call;
      [RedisRefines]: the refinement of an abstract store; [RedisWatch]: watching.
    - [Registry] ([internal/registry/registry.go]): live sessions by job.
    - [Proto] ([gen/harness/v1]): the messages, by the fields hairpin reads; the
      protobuf-JSON codec is the class [ProtoJSON].
    - [Telemetry] ([internal/telemetry/recorder.go], [attrs.go]): the data points;
      [Recorder] ([recorder.go]): the instruments they go to, the calls on spans, the
      trace context a job carries; [Pipeline] ([telemetry.go]): the set-up and shutdown
      of what exports them; [Collector] ([telemetrytest]): how tests read them back.

    Streams ([internal/controlplane], [internal/memory]).
    - [Handler]: constants, options, sessions and helpers; [ControlPlane]: [runTask];
      [Pump]: the event pump with its memory-call goroutines; [Memory]: [Fulfil];
      [Billet] ([memory.go]): the client of the memory service.  [JsonGrammar]: a grammar
      of JSON documents, which the scanner of [Json] decides.
    - [Admission], [PumpFacts], [Settles]: who is admitted, what a harness can cause,
      and how the job ends.

    Callers ([internal/service], [internal/api]).
    - [RunConfigs], [RunConfigFacts]: profiles, defaults, preflight checks.
    - [Service], [ServiceFacts]: submit, launch, cancel, answer, read; [Watch],
      [WatchFacts]: replay and live watching; [Timeline]: [status_change] events.
    - [Api], [ApiFacts]: the RPC handlers, conversions and error codes.
    - [View], [Sse], [Web], [WebFacts] ([internal/web]): view models; the event feed and
      the browser's reader of it; response writers as a class, whose instances are the
      plain response and the error rewriter, handlers over any of them, routing and the
      same-origin check.

    Around them.
    - [Reaper], [ReaperFacts] ([internal/reaper/reaper.go]); [Launcher],
      [LauncherFacts] ([internal/launcher]); [TokenIssuer], [TokenIssuerFacts]
      ([internal/tokenissuer]); [Config] ([internal/config], telemetry options).
    - [Serve], [ServeFacts] ([cmd/hairpin]): flags, the assembly of the server from the
      parts, the order of start and shutdown, [keygen], [run] and [main]; [Mux]: the routes
      of its listener, with the generated handlers, clients and stubs ([gen]).
    - [Journey]: the parts put together along the life of one run.
    - [Lifecycle], [Pools], [Labels] and [Announce]: invariants of the whole process, of
      the jobs, of what is counted, of what is measured, and of what timelines announce.
    - [Samples]: a concrete world on which witnesses evaluate the definitions.

    ** What the theorems show

    - Every interleaving: the status of a job only advances, a settled outcome and the
      job's identity are final ([Lifecycle]); metric labels stay in bounded sets and every
      data point is well typed ([Labels]).  The wait groups of launches and of memory
      calls, the gauge of active sessions and the slots of each pump's semaphore are the
      sum of what the goroutines hold ([Pools]): a wait of the shutdown returns only when
      nothing it waits for is left, and returns then, and memory calls in flight keep
      within their limit.  These are invariants of [step] over any pool of operations.
    - Timelines and records agree, over the in-memory store ([Announce]): the terminal
      status on a timeline is the one the job has and keeps, whatever a harness puts in its
      events, and a terminal job has been announced or a goroutine is bound to announce it.
      Its proof is a judgement on programs: what each knows of the jobs from the answers it
      got, and what it owes for the updates it made.
    - The Redis store: run alone, every method refines the abstract store
      ([RedisRefines]).  Under contention an update acts in one call on the current
      record or not at all, makes at most 150 calls, and reports a conflict only when
      thirty other writers got through ([RedisUpdate]).  With every store call of every
      operation replaced by its Redis calls, interleaved one by one and with replies lost
      at any point, the lifecycle of jobs is what it was ([RedisLink]); its proof is a
      rely-guarantee argument over the linked programs.  A watch hands over the events
      after its cursor in order, without a gap or a duplicate ([RedisWatch]).
    - The whole way: a submission that passes its checks is stored and launched, and a
      harness that presents the session it was launched with is assigned the config that
      was accepted and settles the job ([Journey]).
    - Every behaviour of the environment (all traces): a stream without the token
      touches no job, and one with it only an open job, or a cancelled one to settle it
      ([Admission]); a pump and its memory calls stay on their job, session and stream, it
      mints at most eight tokens and admits a memory request once, with a slot ([PumpFacts]);
      a memory call sends the service what its input says, within bounds, and tells the
      model no more of a failure than it may ([Memory]); [Submit] validates,
      then persists, then starts the launch; [AnswerPermission] records, delivers and
      takes back what it could not deliver ([ServiceFacts]); a sweep acts on nothing its
      snapshot does not justify ([ReaperFacts]).
    - Function and refinement: the pump terminates and leaves the record a reference
      account of the stream prescribes ([Settles]); a sweep fails and deletes exactly
      the due jobs ([ReaperFacts]); a replay ends, and is exact where event IDs increase,
      and a live watch that keeps up loses nothing ([WatchFacts]); checks
      are equivalent to declarative readings ([RunConfigFacts], [Config]); the command lines
      the server accepts are assignments to its flags, of which the last to each counts
      ([Flags], [ServeFacts]).  The parser of tool inputs accepts exactly the
      documents of a grammar without fuel, and every input is decoded or refused for what
      it is ([JsonGrammar]).
    - Telemetry: a set-up that is not asked for touches nothing, one that fails leaves no
      exporter behind, and one that succeeds can be taken down ([Pipeline]); the recorder
      has all its instruments or none ([Recorder]); the span of a stream is linked to the
      submission that created its job ([Recorder]).
    - The web UI: requests from elsewhere only read, responses are hardened ([WebFacts]), and
      nothing else on the listener but an RPC on its own path changes state, where a
      generated client sends it ([Mux]);
      the event feed shows a browser exactly the recorded events ([Sse]); prompts are cut
      between characters ([View]).  A shutdown reaches every live run, the store closes
      last, key generation never overwrites a file, and the key it leaves is one the
      server loads, under the document it handed out ([ServeFacts]).
    - Tokens: what a minted token claims, and no more ([TokenIssuerFacts]).
    - Data structures: well-formedness of every reachable [memStore], sorted and
      resumable timelines, exact deletion ([MemStoreFacts]).
    - Non-interference: no response but that of a submission depends on a bearer token
      ([ApiFacts]).
    - Round trips: session strings ([Job]), status events ([Timeline]), key coordinates
      ([TokenIssuerFacts]), records, events and permission requests in Redis
      ([RedisCodec]).
    - Flaws the code has are theorems too: a page token outside the listing panics the
      in-memory store ([MemStoreFacts]); two concurrent answers to one request are both
      delivered ([ServiceFacts]); a sweep that loses a race announces the failure of a
      running job ([RedisLink]); a replay delivers late text twice ([WatchFacts]); a sample
      ratio that is no number is accepted ([ServeFacts]); an append that races a deletion leaves a timeline without
      a job ([RedisRefines]); the page of an unknown job never shows ([WebFacts]).

    ** Bounds and fuel

    Integers that overflow are wrapped at their width (durations and deadlines at 64
    bits, sequence numbers at 64 bits); others are bounded by the code's own limits.
    The loops over a stream, over pages and over replayed events take fuel, one unit
    each turn; the theorems on them hold for every fuel above the number of events (of
    the stream, or still to be delivered) or of jobs, which suffices because each turn
    consumes at least one.  The loop of [ListJobs] gets one more turn than its
    decreasing index can take.  The JSON parser gets two
    units for each byte and two more, which is never exhausted: it accepts every document
    of the grammar of [JsonGrammar] ([parser_complete]).  The limit of ten
    thousand nested levels is the one [encoding/json] sets itself.  The thirty attempts of an
    update are the code's own bound.  The polling loop of [WatchEvents] on Redis has no
    bound in the code; its fuel cuts it after that many reads.  The loop of [ParseDuration]
    gets one turn more than its text has bytes, each of which a turn uses up; flags are
    parsed by recursion on the arguments.

    ** Modelling decisions

    - A goroutine is a program of the pool; [Go] starts one.  A name given to it serves
      statements about traces only.
    - A clock reading or random value inside an [UpdateJob] closure is taken just before
      the call; a closure is a function of the variables it captures, so a store that
      calls it again passes the captured state through.
    - What lies outside hairpin answers from an environment: clocks and random bytes by
      the tick, Billet, the API server and the transports by their arguments.
    - [Watch] is given what the store's [WatchEvents] answers when it is called, its channel
      or its error; opening a watch changes no record.  The watchers themselves, and what
      their channels hold, are part of [MemStore].
    - A panic is an [outcome] where the code recovers it or where a claim is about it.
    - [ListPermissions] leaves the order of records with equal times unspecified, as the
      map iteration of the code does.
    - A Redis transaction is its watch and its [EXEC]; a call may be served, or answered
      with an error of the transport whether or not the server acted.  The client library
      retries no call.  The laws cover keys of the types the store uses; stream IDs are
      unbounded naturals, and their numbers come from the server.
    - A time is printed and read in the zone the environment gives it.  The theorems on
      records assume zones of whole minutes less than a day from UTC and years of four
      digits, which is what the format can express, and job IDs without a colon, which
      [ValidID] implies ([ValidID_noColon]).
    - A page is its template with its data.  The host that [url.Parse] reads off an origin,
      and the embedded files are parameters.
    - A memory score is the text the JSON encoder prints for it; number formatting,
      hashing, elliptic curves, PEM, DER and JWT signing are parameters.
    - A [nil] [Recorder] records nothing, as a recorder whose points are ignored.
    - A timer tick and the end of a context are inputs: the reaper's [Run] is told how many
      ticks it sees.
    - The OpenTelemetry, Kubernetes and memory-service libraries answer from records of
      functions; what is asked of them is recorded in order where it matters.
    - That no job ID is issued twice is a condition on the steps of a pool
      ([Announce.issuing]), which carries the IDs issued; IDs are ULIDs.  What [protojson]
      prints of a harness event is an object of that message's fields
      ([Announce.HarnessEventObjects]), whatever type the harness gave the event.
    - A flag is bound to a part of a record of all the variables of its set ([Flags.variable]).
      Boolean flags, of which hairpin has none, and what a failed parse prints to standard
      error besides its error are left out.  [int] has 64 bits.
    - A counter of a wait group or semaphore is compared with what a program still has to
      give back on every path, goroutines it starts included ([Pools.holds]).

    ** Not modelled

    Contexts and their cancellation (but for deadlines of memory calls), logging, where
    spans begin and end, HTTP servers and gRPC transports are I/O around the modelled
    operations; so are the text of the web pages and the parsing of templates.
    The code under [gen] is generated: messages are records of the fields hairpin reads, and
    of the handlers and clients the routing is modelled.  The providers of the OpenTelemetry
    SDK and the OTLP exporters are outside, and so is what they read from the
    environment. *)

From stdpp Require Import base gmap list strings pretty sorting.
From Stdlib Require Import Ascii.

(** ** Scopes and hint databases of the development *)

Declare Scope go_scope.
Delimit Scope go_scope with go.
Open Scope go_scope.

Create HintDb hairpin discriminated.

(** Go's [==] on strings and other comparable values, as a boolean. *)
Notation "a ==? b" := (bool_decide (a = b)) (at level 70, no associativity) : go_scope.
Notation "a !=? b" := (negb (bool_decide (a = b))) (at level 70, no associativity) : go_scope.

(** ** Errors

    Go errors are values carrying a message and, when built with [%w], the
    error they wrap.  The sentinels compared with [errors.Is] are constructors;
    [ErrNew] is any other leaf error (one made by [errors.New], or returned by a
    library, or [fmt.Errorf] without [%w]); [Errorf msg w] is [fmt.Errorf] with
    the rendered message and the wrapped error; [ConnectError c u] is
    [connect.NewError(c, u)]. *)

(** The status codes of connect errors. *)
Inductive Code :=
  | CodeCanceled | CodeUnknown | CodeInvalidArgument | CodeDeadlineExceeded | CodeNotFound
  | CodeAlreadyExists | CodePermissionDenied | CodeResourceExhausted | CodeFailedPrecondition
  | CodeAborted | CodeOutOfRange | CodeUnimplemented | CodeInternal | CodeUnavailable
  | CodeDataLoss | CodeUnauthenticated.

#[export] Instance Code_eq_dec : EqDecision Code.
Proof. solve_decision. Defined.

Definition codeString (c : Code) : string :=
  match c with
  | CodeCanceled => "canceled" | CodeUnknown => "unknown"
  | CodeInvalidArgument => "invalid_argument" | CodeDeadlineExceeded => "deadline_exceeded"
  | CodeNotFound => "not_found" | CodeAlreadyExists => "already_exists"
  | CodePermissionDenied => "permission_denied" | CodeResourceExhausted => "resource_exhausted"
  | CodeFailedPrecondition => "failed_precondition" | CodeAborted => "aborted"
  | CodeOutOfRange => "out_of_range" | CodeUnimplemented => "unimplemented"
  | CodeInternal => "internal" | CodeUnavailable => "unavailable"
  | CodeDataLoss => "data_loss" | CodeUnauthenticated => "unauthenticated"
  end.

Inductive error :=
  | ErrNotFound
  | ErrConflict
  | ErrInvalidArgument
  | ErrNotConnected
  | ErrAlreadyConnected
  | errNoUpdate
  | EOF
  | Canceled
  | DeadlineExceeded
  | RedisNil
  | TxFailedErr
  | ErrNew (msg : string)
  | Errorf (msg : string) (wrapped : error)
  | ConnectError (code : Code) (under : error).

#[export] Instance error_eq_dec : EqDecision error.
Proof. solve_decision. Defined.

(** The text of an error, [err.Error()]. *)
Fixpoint Error (e : error) : string :=
  match e with
  | ErrNotFound => "not found"
  | ErrConflict => "conflict"
  | ErrInvalidArgument => "invalid argument"
  | ErrNotConnected => "no live harness session for job"
  | ErrAlreadyConnected => "harness session already registered for job"
  | errNoUpdate => "no update required"
  | EOF => "EOF"
  | Canceled => "context canceled"
  | DeadlineExceeded => "context deadline exceeded"
  | RedisNil => "redis: nil"
  | TxFailedErr => "redis: transaction failed"
  | ErrNew m => m
  | Errorf m _ => m
  | ConnectError c u =>
      if Error u ==? "" then codeString c else codeString c +:+ ": " +:+ Error u
  end.

(** The error and those it wraps, outermost first: what [errors.Is] and
    [errors.As] walk through. *)
Fixpoint chain (e : error) : list error :=
  e :: match e with
       | Errorf _ w => chain w
       | ConnectError _ u => chain u
       | _ => []
       end.

Definition errorsIs (e target : error) : bool := bool_decide (target ∈ chain e).

(** [errors.As(err, &connectErr)]: the code and message of the first connect error. *)
Definition asConnectError (e : error) : option (Code * string) :=
  head (omap (λ x, match x with ConnectError c u => Some (c, Error u) | _ => None end) (chain e)).

(** [connect.CodeOf]. *)
Definition CodeOf (e : error) : Code := default CodeUnknown (fst <$> asConnectError e).

(** [fmt.Errorf("<ctx>: %w", w)]. *)
Definition wrapf (ctx : string) (w : error) : error :=
  Errorf (ctx +:+ ": " +:+ Error w) w.

Lemma errorsIs_refl e : errorsIs e e = true.
Proof. apply bool_decide_eq_true_2. destruct e; apply list_elem_of_here. Qed.

Lemma errorsIs_wrapf ctx w t :
  (∀ m o, t ≠ Errorf m o) → errorsIs (wrapf ctx w) t = errorsIs w t.
Proof.
  intros Ht. apply bool_decide_ext. unfold wrapf. cbn [chain]. rewrite elem_of_cons.
  naive_solver.
Qed.

(** A call that returns a value or an error. *)
Inductive res (A : Type) :=
  | Ok (a : A)
  | Err (e : error).
Arguments Ok {A} a.
Arguments Err {A} e.

(** A call that may instead end in a Go panic. *)
Inductive outcome (A : Type) :=
  | Returned (a : A)
  | Panicked.
Arguments Returned {A} a.
Arguments Panicked {A}.

#[export] Instance res_ret : MRet res := @Ok.
#[export] Instance res_bind : MBind res :=
  λ A B f r, match r with Ok a => f a | Err e => Err e end.

#[export] Instance res_eq_dec {A} `{EqDecision A} : EqDecision (res A).
Proof. solve_decision. Defined.

Definition is_Ok {A} (r : res A) : bool := match r with Ok _ => true | Err _ => false end.

(** ** Time

    A [time.Time] is the number of nanoseconds since Go's zero time
    (0001-01-01 00:00 UTC), so [IsZero] is equality with 0; the wall clock only,
    without locations.  Durations are [int64] nanoseconds. *)

Abbreviation Time := Z (only parsing).
Abbreviation Duration := Z (only parsing).

Definition Millisecond : Duration := 1000000.
Definition Second : Duration := 1000000000.
Definition Minute : Duration := 60 * Second.
Definition Hour : Duration := 60 * Minute.

Definition IsZero (t : Time) : bool := Z.eqb t 0.

(** The Unix epoch, in nanoseconds since the zero time. *)
Definition unixEpoch : Time := 62135596800 * Second.

Definition Unix (t : Time) : Z := (t - unixEpoch) `div` Second.
Definition UnixMilli (t : Time) : Z := (t - unixEpoch) `div` Millisecond.

Definition minInt64 : Z := - 2 ^ 63.
Definition maxInt64 : Z := 2 ^ 63 - 1.

(** [t.Sub(u)] saturates at the ends of the [int64] range. *)
Definition Sub (t u : Time) : Duration := Z.max minInt64 (Z.min maxInt64 (t - u)).

(** Wrap-around of [int64] arithmetic. *)
Definition wrap64 (z : Z) : Z := (z + 2 ^ 63) `mod` 2 ^ 64 - 2 ^ 63.

Lemma wrap64_id z : (minInt64 ≤ z ≤ maxInt64)%Z → wrap64 z = z.
Proof.
  unfold minInt64, maxInt64, wrap64. intros. rewrite Z.mod_small; lia.
Qed.

Lemma wrap64_range z : (minInt64 ≤ wrap64 z ≤ maxInt64)%Z.
Proof.
  unfold minInt64, maxInt64, wrap64.
  pose proof (Z.mod_pos_bound (z + 2 ^ 63) (2 ^ 64)). lia.
Qed.

Lemma Sub_exact t u :
  (minInt64 ≤ t - u ≤ maxInt64)%Z → Sub t u = (t - u)%Z.
Proof. unfold Sub. lia. Qed.

Lemma Sub_lt_iff t u d :
  (minInt64 < d ≤ maxInt64)%Z → (Sub t u < d ↔ t - u < d)%Z.
Proof. unfold Sub, minInt64, maxInt64. lia. Qed.

(** ** Strings

    A Go string is a sequence of bytes, as [String.string] is. *)

Abbreviation len := String.length (only parsing).

(** [strings.Cut] at the first occurrence of a one-byte separator. *)
Fixpoint Cut (s : string) (sep : ascii) : string * string * bool :=
  match s with
  | EmptyString => (EmptyString, EmptyString, false)
  | String c s' =>
      if c ==? sep then (EmptyString, s', true)
      else let '(a, b, found) := Cut s' sep in (String c a, b, found)
  end.

(** All bytes of a string satisfy a predicate. *)
Fixpoint all_bytes (P : ascii → bool) (s : string) : bool :=
  match s with
  | EmptyString => true
  | String c s' => P c && all_bytes P s'
  end.

Definition in_range (lo hi c : ascii) : bool :=
  (N_of_ascii lo <=? N_of_ascii c)%N && (N_of_ascii c <=? N_of_ascii hi)%N.

Lemma string_app_cons c s t : String c s +:+ t = String c (s +:+ t).
Proof. done. Qed.

Lemma all_bytes_app P s t : all_bytes P (s +:+ t) = all_bytes P s && all_bytes P t.
Proof. induction s as [|c s IH]; simpl; [done|]. by rewrite IH, andb_assoc. Qed.

Lemma all_bytes_impl P Q s :
  (∀ c, P c = true → Q c = true) → all_bytes P s = true → all_bytes Q s = true.
Proof.
  intros HPQ. induction s as [|c s IH]; simpl; [done|].
  rewrite !andb_true_iff. naive_solver.
Qed.

(** A prefix free of the separator is cut off exactly. *)
Lemma Cut_app a b sep :
  all_bytes (λ c, c !=? sep) a = true → Cut (a +:+ String sep b) sep = (a, b, true).
Proof.
  induction a as [|c a IH]; simpl; intros Ha.
  - by rewrite bool_decide_eq_true_2.
  - apply andb_true_iff in Ha as [Hc Ha]. rewrite IH by done.
    by destruct (bool_decide (c = sep)).
Qed.

Lemma Cut_absent a sep :
  all_bytes (λ c, c !=? sep) a = true → Cut a sep = (a, EmptyString, false).
Proof.
  induction a as [|c a IH]; simpl; intros Ha; [done|].
  apply andb_true_iff in Ha as [Hc Ha]. rewrite IH by done.
  by destruct (bool_decide (c = sep)).
Qed.

Lemma Cut_found s sep a b : Cut s sep = (a, b, true) → s = a +:+ String sep b.
Proof.
  revert a. induction s as [|c s IH]; intros a; simpl; [done|].
  case_bool_decide as Hc; [intros [= <- <-]; by subst|].
  destruct (Cut s sep) as [[a' b'] f] eqn:E. intros [= <- -> ->].
  rewrite string_app_cons. f_equal. by apply IH.
Qed.

Lemma string_app_nil_l s : "" +:+ s = s.
Proof. done. Qed.

Lemma string_app_nil_r s : s +:+ "" = s.
Proof. induction s as [|c s IH]; [done|]. by rewrite string_app_cons, IH. Qed.

Lemma string_app_assoc a b c : a +:+ b +:+ c = (a +:+ b) +:+ c.
Proof. induction a as [|x a IH]; [done|]. by rewrite !string_app_cons, IH. Qed.

Lemma len_app a b : len (a +:+ b) = len a + len b.
Proof. induction a as [|x a IH]; [done|]. rewrite string_app_cons. simpl. by rewrite IH. Qed.

(** The first [n] bytes of a string, [s[:n]] for [n <= len(s)]. *)
Fixpoint stake (n : nat) (s : string) : string :=
  match n, s with
  | S n', String c s' => String c (stake n' s')
  | _, _ => EmptyString
  end.

Lemma len_stake n s : len (stake n s) = Nat.min n (len s).
Proof. revert s; induction n as [|n IH]; intros [|c s]; simpl; auto. Qed.

Lemma stake_ge n s : len s ≤ n → stake n s = s.
Proof.
  revert s; induction n as [|n IH]; intros [|c s]; simpl; intros; try done; [lia|].
  f_equal. apply IH. lia.
Qed.

Lemma stake_app n s t :
  stake n (s +:+ t) = stake n s +:+ stake (n - len s) t.
Proof.
  revert s; induction n as [|n IH]; intros [|c s]; rewrite ?string_app_cons; simpl; try done.
  by rewrite string_app_cons, IH.
Qed.

(** ** Tactics *)

(** A chain of checks passes when every one of them does. *)
Lemma guard_None {A} (b : bool) (x : A) (o : option A) :
  (if b then Some x else o) = None ↔ b = false ∧ o = None.
Proof. destruct b; naive_solver. Qed.

(** Split every conditional and match of the goal, discharging the impossible
    branches. *)
Ltac split_cases :=
  repeat (simplify_eq/=; first [case_bool_decide | case_match]); simplify_eq/=.

(** Turn boolean facts of the context into propositions. *)
Ltac boolify :=
  repeat match goal with
  | H : _ && _ = true |- _ => apply andb_true_iff in H as [? ?]
  | H : _ || _ = false |- _ => apply orb_false_iff in H as [? ?]
  | H : negb _ = true |- _ => apply negb_true_iff in H
  | H : negb _ = false |- _ => apply negb_false_iff in H
  | H : bool_decide _ = true |- _ => apply bool_decide_eq_true in H
  | H : bool_decide _ = false |- _ => apply bool_decide_eq_false in H
  | H : (_ =? _)%Z = true |- _ => apply Z.eqb_eq in H
  | H : (_ =? _)%Z = false |- _ => apply Z.eqb_neq in H
  | H : (_ <? _)%Z = true |- _ => apply Z.ltb_lt in H
  | H : (_ <? _)%Z = false |- _ => apply Z.ltb_ge in H
  | H : (_ <=? _)%Z = true |- _ => apply Z.leb_le in H
  | H : (_ <=? _)%Z = false |- _ => apply Z.leb_gt in H
  end.
