(* ===== verification/Float.v ===== *)
(** * Binary64 arithmetic

    The little floating-point arithmetic hairpin's own code does, on the
    specification of IEEE 754 binary64 ([SpecFloat]): conversions from and to
    integers and [time.Duration.Seconds]. *)

From stdpp Require Import base numbers.
From Stdlib Require Import SpecFloat.
From S2P Require Import Prelude.

Definition prec : Z := 53.
Definition emax : Z := 1024.

(** [float64(z)] of an [int64]. *)
Definition ofInt (z : Z) : spec_float := binary_normalize prec emax z 0 false.

(** [int64(f)]: truncation towards zero.  What Go makes of a NaN or of a value out
    of range is up to the implementation; durations in seconds are in range. *)
Definition truncate (f : spec_float) : Z :=
  match f with
  | S754_finite s m e => cond_Zopp s (Z.shiftl (Zpos m) e)
  | _ => 0
  end.

(** [d.Seconds()]. *)
Definition Seconds (d : Duration) : spec_float :=
  let sec := Z.quot d Second in
  let nsec := Z.rem d Second in
  SFadd prec emax (ofInt sec) (SFdiv prec emax (ofInt nsec) (ofInt 1000000000)).

(** ** Integers below 2^53 are exact *)

Lemma digits2_bounds p : (2 ^ (Zpos (digits2_pos p) - 1) ≤ Zpos p < 2 ^ Zpos (digits2_pos p))%Z.
Proof.
  induction p as [p IH|p IH|]; cbn [digits2_pos]; [| |done].
  all: rewrite Pos2Z.inj_succ; rewrite Z.sub_1_r, Z.pred_succ.
  all: set (d := Zpos (digits2_pos p)) in *; assert (0 < d)%Z by done.
  all: replace d with (1 + (d - 1))%Z at 1 by lia.
  all: rewrite Z.pow_add_r, Z.pow_succ_r by lia; lia.
Qed.

Lemma digits2_le p n : (Zpos p < 2 ^ n)%Z → (0 ≤ n)%Z → (Zpos (digits2_pos p) ≤ n)%Z.
Proof.
  intros Hp Hn. destruct (digits2_bounds p) as [Hlo _].
  destruct (Z.le_gt_cases (Zpos (digits2_pos p)) n) as [|Hgt]; [done|].
  pose proof (Z.pow_le_mono_r 2 n (Zpos (digits2_pos p) - 1)). lia.
Qed.

Lemma digits2_shift p k : digits2_pos (Pos.iter xO p k) = (digits2_pos p + k)%positive.
Proof.
  induction k using Pos.peano_ind; [cbn; lia|].
  rewrite Pos.iter_succ. cbn [digits2_pos]. rewrite IHk. lia.
Qed.

Lemma iter_xO p k : Zpos (Pos.iter xO p k) = (Zpos p * 2 ^ Zpos k)%Z.
Proof.
  induction k using Pos.peano_ind; [cbn; lia|].
  rewrite Pos.iter_succ, Pos2Z.inj_xO, IHk, Pos2Z.inj_succ, Z.pow_succ_r by lia. lia.
Qed.

(** A mantissa of full width is kept as it is. *)
Lemma round_aux_exact m e :
  Zpos (digits2_pos m) = 53%Z → (-52 ≤ e ≤ 0)%Z →
  binary_round_aux prec emax false (Zpos m) e loc_Exact = S754_finite false m e.
Proof.
  intros Hd He. unfold binary_round_aux, shr_fexp. cbn [Zdigits2]. rewrite Hd.
  assert (fexp prec emax (53 + e) - e = 0)%Z as Hz
    by (unfold fexp, emin, prec, emax; lia).
  rewrite Hz. cbn [shr shr_record_of_loc shr_m loc_of_shr_record round_nearest_even Zdigits2].
  rewrite Hd, Hz. cbn [shr shr_record_of_loc shr_m].
  rewrite (proj2 (Z.leb_le _ _)) by (unfold prec, emax; lia). done.
Qed.

Lemma truncate_ofInt z : (0 ≤ z < 2 ^ 53)%Z → truncate (ofInt z) = z.
Proof.
  intros [H0 Hz]. destruct z as [|p|p]; [done| |lia].
  pose proof (digits2_le p 53 Hz ltac:(lia)) as Hd. unfold ofInt, binary_normalize, binary_round.
  set (d := digits2_pos p) in *.
  assert (fexp prec emax (Zpos d + 0) = Zpos d - 53)%Z as -> by (unfold fexp, emin, prec, emax; lia).
  unfold shl_align. rewrite Z.sub_0_r. destruct (Zpos d - 53)%Z as [|k|k] eqn:E; [|lia|].
  - rewrite round_aux_exact by (fold d; lia). cbn. done.
  - rewrite round_aux_exact.
    + cbn [truncate cond_Zopp]. rewrite iter_xO, Z.shiftl_div_pow2 by lia.
      cbn [Z.opp]. rewrite Z.div_mul; [done|]. apply Z.pow_nonzero; lia.
    + rewrite digits2_shift. fold d. lia.
    + lia.
Qed.

(** A whole number of seconds reads back. *)
Lemma Seconds_whole s : (0 ≤ s < 2 ^ 53)%Z → truncate (Seconds (s * Second)) = s.
Proof.
  intros Hs. unfold Seconds. rewrite Z.quot_mul, Z.rem_mul by done.
  destruct (Z.eq_dec s 0%Z) as [->|Hn]; [done|].
  change (SFdiv prec emax (ofInt 0%Z) (ofInt 1000000000%Z)) with (S754_zero false).
  rewrite <-(truncate_ofInt s Hs) at 2. by destruct (ofInt s) as [[]| | |].
Qed.
