(* ===== verification/Job.v ===== *)
(** * The job model ([src/internal/job/job.go])

    The record of one submitted task, its lifecycle statuses, the shape of job
    IDs, and the session credential "<job id>.<token>" a harness presents. *)

From stdpp Require Import base gmap list strings.
From Stdlib Require Import Ascii.
From S2P Require Import Prelude.

(** ** Statuses

    [type Status string] with its constants: a status read back from a store is
    any string. *)

Abbreviation Status := string (only parsing).

Definition StatusQueued : Status := "queued".
Definition StatusLaunching : Status := "launching".
Definition StatusAwaitingHarness : Status := "awaiting_harness".
Definition StatusRunning : Status := "running".
Definition StatusSucceeded : Status := "succeeded".
Definition StatusFailed : Status := "failed".
Definition StatusCancelled : Status := "cancelled".

Definition Terminal (s : Status) : bool :=
  if s ==? StatusSucceeded then true
  else if s ==? StatusFailed then true
  else if s ==? StatusCancelled then true
  else false.

(** ** The record *)

Record Job := mkJob {
  j_ID : string;
  j_Status : Status;
  j_Prompt : string;
  j_Profile : string;
  j_RunConfigJSON : string;
  j_StopReason : string;
  j_Error : string;
  j_FinalText : string;
  j_CreatedAt : Time;
  j_StartedAt : Time;
  j_FinishedAt : Time;
  j_LastEventAt : Time;
  j_CancelRequested : bool;
  j_TraceParent : string;
  j_HarnessToken : string;
  j_RepoScope : list string;
}.

#[export] Instance Job_eq_dec : EqDecision Job.
Proof. solve_decision. Defined.

(** Field assignments, [j.F = v]. *)

Definition set_Status (v : Status) (j : Job) : Job :=
  let 'mkJob a _ c d e f g h i k l m n o p q := j in mkJob a v c d e f g h i k l m n o p q.
Definition set_StopReason (v : string) (j : Job) : Job :=
  let 'mkJob a b c d e _ g h i k l m n o p q := j in mkJob a b c d e v g h i k l m n o p q.
Definition set_Error (v : string) (j : Job) : Job :=
  let 'mkJob a b c d e f _ h i k l m n o p q := j in mkJob a b c d e f v h i k l m n o p q.
Definition set_FinalText (v : string) (j : Job) : Job :=
  let 'mkJob a b c d e f g _ i k l m n o p q := j in mkJob a b c d e f g v i k l m n o p q.
Definition set_StartedAt (v : Time) (j : Job) : Job :=
  let 'mkJob a b c d e f g h i _ l m n o p q := j in mkJob a b c d e f g h i v l m n o p q.
Definition set_FinishedAt (v : Time) (j : Job) : Job :=
  let 'mkJob a b c d e f g h i k _ m n o p q := j in mkJob a b c d e f g h i k v m n o p q.
Definition set_LastEventAt (v : Time) (j : Job) : Job :=
  let 'mkJob a b c d e f g h i k l _ n o p q := j in mkJob a b c d e f g h i k l v n o p q.
Definition set_CancelRequested (v : bool) (j : Job) : Job :=
  let 'mkJob a b c d e f g h i k l m _ o p q := j in mkJob a b c d e f g h i k l m v o p q.

Definition MaxFinalTextBytes : nat := N.to_nat (128 * 1024).

(** ** Identifiers and credentials *)

Definition lower_byte (c : ascii) : ascii :=
  if in_range "A" "Z" c then ascii_of_N (N_of_ascii c + 32) else c.

(** [strings.ToLower] on an ASCII string. *)
Fixpoint ToLower (s : string) : string :=
  match s with
  | EmptyString => EmptyString
  | String c s' => String (lower_byte c) (ToLower s')
  end.

(** [NewID], of the ULID text drawn from [github.com/oklog/ulid]. *)
Definition NewID (ulid : string) : string := "hp-" +:+ ToLower ulid.

Definition id_byte (c : ascii) : bool := in_range "0" "9" c || in_range "a" "z" c.

(** [ValidID]: the anchored pattern [^hp-[0-9a-z]{26}$]. *)
Definition ValidID (id : string) : bool :=
  match id with
  | String h (String p (String d rest)) =>
      (h ==? "h"%char) && (p ==? "p"%char) && (d ==? "-"%char)
      && all_bytes id_byte rest && (len rest ==? 26)
  | _ => false
  end.

Definition hex_digit (n : N) : ascii :=
  if (n <? 10)%N then ascii_of_N (48 + n) else ascii_of_N (87 + n).

(** [hex.EncodeToString]. *)
Fixpoint hexEncode (bs : list N) : string :=
  match bs with
  | [] => EmptyString
  | b :: bs' => String (hex_digit (b `div` 16)) (String (hex_digit (b `mod` 16)) (hexEncode bs'))
  end.

(** [NewHarnessToken], of the 16 bytes read from [crypto/rand]. *)
Definition NewHarnessToken (rnd : list N) : string := hexEncode rnd.

Definition SessionString (j : Job) : string :=
  if j_HarnessToken j ==? "" then j_ID j
  else j_ID j +:+ "." +:+ j_HarnessToken j.

Definition ParseSession (s : string) : string * string :=
  let '(id, token, _) := Cut s "." in (id, token).

(** [subtle.ConstantTimeCompare]: unequal lengths give 0; otherwise the bytewise
    differences are accumulated and the result is whether they are all zero. *)
Fixpoint ct_diff (v : N) (x y : string) : N :=
  match x, y with
  | String a x', String b y' =>
      ct_diff (N.lor v (N.lxor (N_of_ascii a) (N_of_ascii b))) x' y'
  | _, _ => v
  end.

Definition ConstantTimeCompare (x y : string) : Z :=
  if len x ==? len y then (if (ct_diff 0 x y =? 0)%N then 1 else 0) else 0.

Definition AcceptsToken (j : Job) (token : string) : bool :=
  (ConstantTimeCompare (j_HarnessToken j) token =? 1)%Z.

Definition StatusForStopReason (stopReason : string) : Status :=
  if stopReason ==? "success" then StatusSucceeded
  else if stopReason ==? "cancelled" then StatusCancelled
  else StatusFailed.

(** ** Lemmas *)

Lemma Terminal_spec s :
  Terminal s = true ↔ s = StatusSucceeded ∨ s = StatusFailed ∨ s = StatusCancelled.
Proof. unfold Terminal. repeat case_bool_decide; naive_solver. Qed.

Lemma StatusForStopReason_terminal r : Terminal (StatusForStopReason r) = true.
Proof. unfold StatusForStopReason. by repeat case_bool_decide. Qed.

#[export] Hint Resolve StatusForStopReason_terminal : hairpin.

Lemma id_byte_no_dot c : id_byte c = true → (c !=? "."%char) = true.
Proof. intros Hc. case_bool_decide; [subst; by vm_compute in Hc | done]. Qed.

Lemma ValidID_no_dot id : ValidID id = true → all_bytes (λ c, c !=? "."%char) id = true.
Proof.
  destruct id as [|h [|p [|d rest]]]; simpl; try done. intros H. boolify. subst. simpl.
  eapply all_bytes_impl; [|eassumption]. apply id_byte_no_dot.
Qed.

Lemma ValidID_nonempty id : ValidID id = true → id ≠ "".
Proof. by destruct id. Qed.

Lemma ct_diff_zero v x y :
  len x = len y → ct_diff v x y = 0%N ↔ v = 0%N ∧ x = y.
Proof.
  revert v y. induction x as [|a x IH]; intros v [|b y] Hlen; simplify_eq/=; [naive_solver|].
  rewrite IH by done. rewrite N.lor_eq_0_iff, N.lxor_eq_0_iff.
  split; [|naive_solver]. intros [[-> Hab] ->]. split; [done|]. f_equal.
  by rewrite <-(ascii_N_embedding a), <-(ascii_N_embedding b), Hab.
Qed.

Lemma ConstantTimeCompare_spec x y : ConstantTimeCompare x y = 1%Z ↔ x = y.
Proof.
  unfold ConstantTimeCompare. case_bool_decide as Hl; [|naive_solver].
  destruct (N.eqb_spec (ct_diff 0 x y) 0) as [Hd|Hd];
    rewrite ct_diff_zero in Hd by done; naive_solver.
Qed.

Lemma AcceptsToken_spec j t : AcceptsToken j t = true ↔ j_HarnessToken j = t.
Proof. unfold AcceptsToken. by rewrite Z.eqb_eq, ConstantTimeCompare_spec. Qed.

(** The documented output of the ULID library: 26 Crockford base-32 digits. *)
Definition crockford (c : ascii) : bool := in_range "0" "9" c || in_range "A" "Z" c.

Lemma crockford_lower c : crockford c = true → id_byte (lower_byte c) = true.
Proof. by destruct c as [[] [] [] [] [] [] [] []]; vm_compute. Qed.

Lemma ToLower_valid s :
  all_bytes crockford s = true → all_bytes id_byte (ToLower s) = true.
Proof.
  induction s as [|c s IH]; simpl; [done|]. rewrite !andb_true_iff.
  intros [??]. auto using crockford_lower.
Qed.

Lemma len_ToLower s : len (ToLower s) = len s.
Proof. induction s; simpl; auto. Qed.

Lemma len_hexEncode bs : len (hexEncode bs) = 2 * length bs.
Proof. induction bs; simpl; lia. Qed.

(** ** Properties *)

Section properties.

(** The job IDs [NewID] makes pass [ValidID], whatever 26-digit ULID is
    drawn: every ID hairpin issues is accepted at its own API boundary. *)
Theorem NewID_valid (ulid : string)
  (Hdigits : all_bytes crockford ulid = true) (Hlen : len ulid = 26) :
  ValidID (NewID ulid) = true.
Proof.
  change (NewID ulid) with (String "h" (String "p" (String "-" (ToLower ulid)))).
  cbn [ValidID]. rewrite ToLower_valid, len_ToLower, Hlen by done. done.
Qed.

Lemma NewID_valid_witness :
  ValidID (NewID "01ARZ3NDEKTSV4RRFFQ69G5FAV") = true.
Proof. apply (NewID_valid "01ARZ3NDEKTSV4RRFFQ69G5FAV"); reflexivity. Defined.

(** The session string of a job splits back into its ID and token. *)
Lemma ParseSession_SessionString j :
  ValidID (j_ID j) = true → ParseSession (SessionString j) = (j_ID j, j_HarnessToken j).
Proof.
  intros Hid. unfold ParseSession, SessionString. apply ValidID_no_dot in Hid.
  case_bool_decide as Ht; [by rewrite Cut_absent, Ht|].
  pose proof (Cut_app (j_ID j) (j_HarnessToken j) "." Hid) as E.
  change (String "." (j_HarnessToken j)) with ("." +:+ j_HarnessToken j) in E. by rewrite E.
Qed.

(** A session string splits back into the job ID and the bearer token it was
    made from, for every job whose ID hairpin issued: the harness that echoes
    [CONTROL_PLANE_SESSION_ID] is correlated to exactly that job and accepted. *)
Theorem session_roundtrip (j : Job) (Hid : ValidID (j_ID j) = true) :
  ParseSession (SessionString j) = (j_ID j, j_HarnessToken j)
  ∧ AcceptsToken j (snd (ParseSession (SessionString j))) = true.
Proof.
  rewrite ParseSession_SessionString by done. split; [done|]. by apply AcceptsToken_spec.
Qed.

Definition sample_id : string := "hp-01arz3ndektsv4rrffq69g5fav".

Definition sample_job : Job :=
  mkJob sample_id StatusAwaitingHarness "say hello" "default" "{}" "" "" ""
    (unixEpoch + 1700000000 * Second) 0 0 0 false "" "00ff00ff00ff00ff00ff00ff00ff00ff" [].

Lemma session_roundtrip_witness :
  ParseSession (SessionString sample_job) = (sample_id, "00ff00ff00ff00ff00ff00ff00ff00ff")
  ∧ AcceptsToken sample_job (snd (ParseSession (SessionString sample_job))) = true.
Proof. apply (session_roundtrip sample_job). reflexivity. Defined.

End properties.
