(* ===== verification/Utf8.v ===== *)
(** * UTF-8 ([unicode/utf8] as the sources use it)

    Decoding of one rune with Go's treatment of malformed input: a byte that
    starts no well-formed sequence decodes as [RuneError] of width 1. *)

From stdpp Require Import base list strings.
From Stdlib Require Import Ascii.
From S2P Require Import Prelude.

Abbreviation rune := N (only parsing).

Definition RuneError : rune := 65533.

Definition byte_in (lo hi b : N) : bool := (lo <=? b)%N && (b <=? hi)%N.

(** The lower and upper bound of the second byte after the leading byte [b0] of
    a multi-byte sequence, and the length of the sequence. *)
Definition lead (b0 : N) : option (N * N * nat) :=
  if byte_in 194 223 b0 then Some (128%N, 191%N, 2%nat)
  else if byte_in 224 224 b0 then Some (160%N, 191%N, 3%nat)
  else if byte_in 237 237 b0 then Some (128%N, 159%N, 3%nat)
  else if byte_in 225 239 b0 then Some (128%N, 191%N, 3%nat)
  else if byte_in 240 240 b0 then Some (144%N, 191%N, 4%nat)
  else if byte_in 241 243 b0 then Some (128%N, 191%N, 4%nat)
  else if byte_in 244 244 b0 then Some (128%N, 143%N, 4%nat)
  else None.

(** [utf8.DecodeRuneInString]: the rune and its width in bytes; width 0 for the
    empty string. *)
Definition decodeRune (s : string) : rune * nat :=
  match s with
  | EmptyString => (RuneError, 0)
  | String c0 s1 =>
      let b0 := N_of_ascii c0 in
      if (b0 <? 128)%N then (b0, 1)
      else
        match lead b0, s1 with
        | Some (lo, hi, n), String c1 s2 =>
            let b1 := N_of_ascii c1 in
            if negb (byte_in lo hi b1) then (RuneError, 1)
            else
              match n, s2 with
              | 2, _ => (((b0 - 192) * 64 + (b1 - 128))%N, 2)
              | 3, String c2 _ =>
                  let b2 := N_of_ascii c2 in
                  if byte_in 128 191 b2
                  then (((b0 - 224) * 4096 + (b1 - 128) * 64 + (b2 - 128))%N, 3)
                  else (RuneError, 1)
              | 4, String c2 (String c3 _) =>
                  let b2 := N_of_ascii c2 in
                  let b3 := N_of_ascii c3 in
                  if byte_in 128 191 b2 && byte_in 128 191 b3
                  then (((b0 - 240) * 262144 + (b1 - 128) * 4096 + (b2 - 128) * 64 + (b3 - 128))%N,
                        4)
                  else (RuneError, 1)
              | _, _ => (RuneError, 1)
              end
        | _, _ => (RuneError, 1)
        end
  end.

(** [s[n:]]. *)
Fixpoint sdrop (n : nat) (s : string) : string :=
  match n, s with
  | S n', String _ s' => sdrop n' s'
  | _, _ => s
  end.

Lemma len_sdrop n s : len (sdrop n s) = len s - n.
Proof. revert s; induction n as [|n IH]; intros [|c s]; simpl; auto. Qed.

Lemma stake_sdrop n s : stake n s +:+ sdrop n s = s.
Proof.
  revert s; induction n as [|n IH]; intros [|c s]; simpl; try done.
  by rewrite string_app_cons, IH.
Qed.

(** [[]rune(s)], by decoding repeatedly; the fuel [len s] is enough since a rune
    of a non-empty string is at least one byte wide. *)
Fixpoint runes_fuel (fuel : nat) (s : string) : list rune :=
  match fuel with
  | 0 => []
  | S f =>
      match s with
      | EmptyString => []
      | _ => let '(r, n) := decodeRune s in r :: runes_fuel f (sdrop n s)
      end
  end.

Definition runes (s : string) : list rune := runes_fuel (len s) s.

Lemma decodeRune_width c s :
  1 ≤ snd (decodeRune (String c s)) ≤ len (String c s).
Proof.
  unfold decodeRune. destruct (_ <? _)%N; [simpl; lia|].
  destruct (lead _) as [[[lo hi] n]|]; [|simpl; lia].
  destruct s as [|c1 s2]; [simpl; lia|].
  destruct (negb _); [simpl; lia|].
  destruct n as [|[|[|[|[|n]]]]]; simpl; try lia; repeat case_match; simpl; lia.
Qed.

Lemma runes_fuel_enough n m s :
  len s ≤ n → len s ≤ m → runes_fuel n s = runes_fuel m s.
Proof.
  revert m s. induction n as [|n IH]; intros [|m] [|c s] Hn Hm; try (simpl in *; lia); try done.
  cbn [runes_fuel]. destruct (decodeRune (String c s)) as [r k] eqn:E.
  pose proof (decodeRune_width c s) as Hw. rewrite E in Hw. cbn [snd] in Hw.
  f_equal. apply IH; rewrite len_sdrop; lia.
Qed.

(** One step of the decoding of a non-empty string. *)
Lemma runes_cons c s :
  let '(r, n) := decodeRune (String c s) in
  runes (String c s) = r :: runes (sdrop n (String c s)).
Proof.
  pose proof (decodeRune_width c s) as Hw.
  destruct (decodeRune (String c s)) as [r n] eqn:E. cbn [snd] in Hw.
  unfold runes at 1. cbn [len runes_fuel]. rewrite E. f_equal.
  apply runes_fuel_enough; rewrite len_sdrop; simpl in *; lia.
Qed.

Lemma runes_ascii c s :
  (N_of_ascii c < 128)%N → runes (String c s) = N_of_ascii c :: runes s.
Proof.
  intros Hc. pose proof (runes_cons c s) as H.
  destruct (decodeRune (String c s)) as [r n] eqn:E.
  unfold decodeRune in E. apply N.ltb_lt in Hc. rewrite Hc in E. injection E as <- <-. done.
Qed.

(** A multi-byte rune, spelled out. *)
Lemma decodeRune_multi c s r n :
  decodeRune (String c s) = (r, n) → n ≠ 1 →
  (128 ≤ N_of_ascii c)%N ∧ ∃ raw t, s = raw +:+ t ∧ len raw = n - 1
    ∧ ∀ t', decodeRune (String c (raw +:+ t')) = (r, n).
Proof.
  unfold decodeRune. destruct (N.ltb_spec (N_of_ascii c) 128); [intros [= _ <-]; done|].
  intros H1 Hn. split; [done|]. revert H1.
  destruct (lead _) as [[[lo hi] k]|]; [|intros [= _ <-]; done].
  destruct s as [|c1 s2]; [intros [= _ <-]; done|].
  destruct (negb _) eqn:E1; [intros [= _ <-]; done|].
  destruct k as [|[|[|[|[|k]]]]]; try (intros [= _ <-]; done).
  - intros [= <- <-]. exists (String c1 ""), s2. rewrite string_app_cons. split; [done|].
    split; [done|]. intros t'. rewrite string_app_cons. by rewrite E1.
  - destruct s2 as [|c2 s3]; [intros [= _ <-]; done|].
    destruct (byte_in _ _ (N_of_ascii c2)) eqn:E2; [|intros [= _ <-]; done].
    intros [= <- <-]. exists (String c1 (String c2 "")), s3. rewrite !string_app_cons.
    split; [done|]. split; [done|]. intros t'. rewrite !string_app_cons. by rewrite E1, E2.
  - destruct s2 as [|c2 [|c3 s4]]; try (intros [= _ <-]; done).
    destruct (byte_in _ _ (N_of_ascii c2) && _) eqn:E2; [|intros [= _ <-]; done].
    intros [= <- <-]. exists (String c1 (String c2 (String c3 ""))), s4. rewrite !string_app_cons.
    split; [done|]. split; [done|]. intros t'. rewrite !string_app_cons. by rewrite E1, E2.
Qed.

Lemma stake_app_len s t : stake (len s) (s +:+ t) = s.
Proof. rewrite stake_app, Nat.sub_diag, stake_ge by done. apply string_app_nil_r. Qed.

Lemma sdrop_app_len s t : sdrop (len s) (s +:+ t) = t.
Proof. induction s as [|c s IH]; [done|]. by rewrite string_app_cons. Qed.

(** A rune of one byte is ASCII or malformed. *)
Lemma decodeRune_single c s r :
  decodeRune (String c s) = (r, 1) → (N_of_ascii c < 128)%N ∧ r = N_of_ascii c ∨ r = RuneError.
Proof.
  unfold decodeRune. destruct (N.ltb_spec (N_of_ascii c) 128); [naive_solver|].
  destruct (lead _) as [[[lo hi] k]|]; [|naive_solver].
  repeat case_match; naive_solver.
Qed.
