(* ===== verification/Fmt.v ===== *)
(** * Formatting and scanning ([fmt] as the sources use it)

    [fmt.Sprintf] with [%d] is stdpp's [pretty]; this file models
    [fmt.Sscanf] with the formats ["%d"] into an [int] and ["%d-%d"] into two
    [uint64]s, the two formats hairpin scans with, [%q] ([strconv.Quote]) and
    [strings.TrimSpace].
    Which runes above U+00FF are printable is a table of the Unicode version Go
    was built with, the parameter [UnicodeTables]. *)

From stdpp Require Import base list strings pretty.
From Stdlib Require Import Ascii.
From S2P Require Import Prelude Utf8.

(** The white-space table of [fmt]'s scanner. *)
Definition isSpace (r : rune) : bool :=
  byte_in 9 13 r || (r =? 32)%N || (r =? 133)%N || (r =? 160)%N || (r =? 5760)%N
  || byte_in 8192 8202 r || byte_in 8232 8233 r || (r =? 8239)%N || (r =? 8287)%N
  || (r =? 12288)%N.

(** [ss.SkipSpace] with [nlIsSpace] false: [None] is the "unexpected newline"
    error. *)
Fixpoint skipSpace (fuel : nat) (s : string) : option string :=
  match fuel, s with
  | S f, String _ _ =>
      let '(r, n) := decodeRune s in
      if (r =? 10)%N then None
      else if isSpace r then skipSpace f (sdrop n s)
      else Some s
  | _, _ => Some s
  end.

Definition concatStrings (l : list string) : string := foldr String.append "" l.

(** The runes of a string with the bytes of each. *)
Fixpoint chunks_fuel (fuel : nat) (s : string) : list (rune * string) :=
  match fuel, s with
  | S f, String _ _ => let '(r, n) := decodeRune s in (r, stake n s) :: chunks_fuel f (sdrop n s)
  | _, _ => []
  end.

Definition chunks (s : string) : list (rune * string) := chunks_fuel (len s) s.

Fixpoint dropSpaces (l : list (rune * string)) : list (rune * string) :=
  match l with
  | (r, raw) :: l' => if isSpace r then dropSpaces l' else l
  | [] => []
  end.

(** [strings.TrimSpace]. *)
Definition TrimSpace (s : string) : string :=
  concatStrings (snd <$> reverse (dropSpaces (reverse (dropSpaces (chunks s))))).

(** [unicode.IsPrint] above Latin-1, by the tables of package [unicode]. *)
Class UnicodeTables := { isPrintAbove : rune → bool }.

(** A table for concrete evaluations: nothing above Latin-1 is printable. *)
Definition sample_tables : UnicodeTables := {| isPrintAbove := λ _, false |}.

(** [unicode.IsPrint] (and [strconv.IsPrint], which agrees with it). *)
Definition IsPrint `{UnicodeTables} (r : rune) : bool :=
  if (r <=? 255)%N then byte_in 32 126 r || (byte_in 161 255 r && negb (r =? 173)%N)
  else isPrintAbove r.

Definition lowerhex (n : N) : ascii :=
  if (n <? 10)%N then ascii_of_N (48 + n) else ascii_of_N (87 + n).

(** The low [k] hexadecimal digits of [n], most significant first. *)
Fixpoint hexDigits (k : nat) (n : N) : string :=
  match k with
  | 0 => ""
  | S k' => String (lowerhex (N.shiftr n (4 * N.of_nat k') `mod` 16)) (hexDigits k' n)
  end.

Definition dquote : ascii := "034".
Definition backslash : ascii := "092".

(** One rune of [strconv.Quote]; [raw] is the text it was decoded from. *)
Definition escapeRune `{UnicodeTables} (r : rune) (raw : string) : string :=
  if (r =? 34)%N || (r =? 92)%N then String backslash raw
  else if IsPrint r then raw
  else if (r =? 7)%N then "\a"
  else if (r =? 8)%N then "\b"
  else if (r =? 12)%N then "\f"
  else if (r =? 10)%N then "\n"
  else if (r =? 13)%N then "\r"
  else if (r =? 9)%N then "\t"
  else if (r =? 11)%N then "\v"
  else if (r <? 32)%N || (r =? 127)%N then "\x" +:+ hexDigits 2 r
  else if (r <? 65536)%N then "\u" +:+ hexDigits 4 r
  else "\U" +:+ hexDigits 8 r.

Fixpoint quoteBody `{UnicodeTables} (fuel : nat) (s : string) : string :=
  match fuel, s with
  | S f, String c _ =>
      let '(r, n) := decodeRune s in
      (if (n =? 1)%nat && (r =? RuneError)%N then "\x" +:+ hexDigits 2 (N_of_ascii c)
       else escapeRune r (stake n s)) +:+ quoteBody f (sdrop n s)
  | _, _ => ""
  end.

(** [fmt.Sprintf("%q", s)]: every rune is at least one byte, so [len s] rounds
    are enough. *)
Definition Quote `{UnicodeTables} (s : string) : string :=
  String dquote (quoteBody (len s) s +:+ String dquote "").

Definition isDigit (c : ascii) : bool := in_range "0" "9" c.

Definition digit_val (c : ascii) : N := N_of_ascii c - 48.

(** The longest run of decimal digits: its value and the rest of the input. *)
Fixpoint scanDigits (acc : N) (s : string) : N * string :=
  match s with
  | String c s' => if isDigit c then scanDigits (acc * 10 + digit_val c) s' else (acc, s)
  | EmptyString => (acc, s)
  end.

(** [ss.scanNumber] followed by a range check; [None] is any scan error. *)
Definition scanNumber (s : string) : option (N * string) :=
  match s with
  | String c _ => if isDigit c then Some (scanDigits 0 s) else None
  | EmptyString => None
  end.

(** [%d] into an [int] (64 bits): leading space, an optional sign, digits. *)
Definition scanInt (s : string) : option (Z * string) :=
  s ← skipSpace (len s) s;
  let '(neg, s) :=
    match s with
    | String "+" s' => (false, s')
    | String "-" s' => (true, s')
    | _ => (false, s)
    end in
  '(n, s) ← scanNumber s;
  let z := if neg : bool then (- Z.of_N n)%Z else Z.of_N n in
  if (minInt64 <=? z)%Z && (z <=? maxInt64)%Z then Some (z, s) else None.

(** [%d] into a [uint64]: leading space, digits, no sign. *)
Definition scanUint64 (s : string) : option (N * string) :=
  s ← skipSpace (len s) s;
  '(n, s) ← scanNumber s;
  if (n <? 2 ^ 64)%N then Some (n, s) else None.

(** [fmt.Sscanf(s, "%d", &idx)]: the scanned integer, or the error. *)
Definition Sscanf_d (s : string) : option Z := fst <$> scanInt s.

(** [fmt.Sscanf(s, "%d-%d", &m, &q)] with the error ignored: the variables keep
    their zero values from the first failure on. *)
Definition Sscanf_d_d (s : string) : N * N :=
  match scanUint64 s with
  | None => (0, 0)%N
  | Some (m, rest) =>
      match rest with
      | String "-" rest' =>
          match scanUint64 rest' with
          | None => (m, 0%N)
          | Some (q, _) => (m, q)
          end
      | _ => (m, 0%N)
      end
  end.

(** ** Scanning what was printed *)

(** The bytes at the head of [s] end a run of digits. *)
Definition no_digit (s : string) : Prop :=
  match s with String c _ => isDigit c = false | EmptyString => True end.

Lemma pretty_N_char_digit n : isDigit (pretty_N_char n) = true.
Proof. unfold pretty_N_char. by repeat case_match. Qed.

Lemma pretty_N_char_val n : (n < 10)%N → digit_val (pretty_N_char n) = n.
Proof.
  intros. assert (n = 0 ∨ n = 1 ∨ n = 2 ∨ n = 3 ∨ n = 4 ∨ n = 5 ∨ n = 6 ∨ n = 7
    ∨ n = 8 ∨ n = 9)%N by lia. naive_solver.
Qed.

Lemma scanDigits_stop acc s : no_digit s → scanDigits acc s = (acc, s).
Proof. destruct s as [|c s]; simpl; [done|]. by intros ->. Qed.

(** Scanning a printed number from an accumulator that is a multiple of nothing
    yet: the digits of [n] push the accumulator up by a power of ten. *)
Lemma scanDigits_go n acc s :
  ∃ k, scanDigits acc (pretty_N_go n s) = scanDigits (acc * 10 ^ k + n) s.
Proof.
  revert acc s. induction (N.lt_wf_0 n) as [n _ IH]; intros acc s.
  destruct (decide (n = 0)%N) as [->|Hn].
  { exists 0%N. rewrite pretty_N_go_0. f_equal. lia. }
  rewrite pretty_N_go_step by lia.
  destruct (IH (n `div` 10)%N ltac:(apply N.div_lt; lia) acc
              (String (pretty_N_char (n `mod` 10)) s)) as [k Hk].
  exists (N.succ k). rewrite Hk. cbn [scanDigits]. rewrite pretty_N_char_digit.
  rewrite pretty_N_char_val by (apply N.mod_lt; lia). f_equal.
  rewrite N.pow_succ_r'. pose proof (N.div_mod n 10 ltac:(lia)). lia.
Qed.

Lemma scanDigits_pretty (n : N) s :
  no_digit s → scanDigits 0 (pretty n +:+ s) = (n, s).
Proof.
  intros Hs. assert (∀ x t, pretty_N_go x t = pretty_N_go x "" +:+ t) as Happ.
  { intros x. induction (N.lt_wf_0 x) as [x _ IH]; intros t.
    destruct (decide (x = 0)%N) as [->|Hx]; [done|].
    rewrite !(pretty_N_go_step x) by lia.
    rewrite (IH (x `div` 10)%N ltac:(apply N.div_lt; lia) (String _ t)).
    rewrite (IH (x `div` 10)%N ltac:(apply N.div_lt; lia) (String _ "")) at 1.
    by rewrite <-string_app_assoc. }
  unfold pretty, pretty_N. case_decide as Hn.
  - subst. change ("0" +:+ s) with (String "0" s). cbn. by apply scanDigits_stop.
  - rewrite <-Happ. destruct (scanDigits_go n 0 s) as [k ->].
    rewrite scanDigits_stop by done. f_equal; lia.
Qed.

Lemma pretty_N_head (n : N) : ∃ c s, pretty n = String c s ∧ isDigit c = true.
Proof.
  unfold pretty, pretty_N. case_decide as Hn; [by eexists _, _|].
  assert (∀ x t, (0 < x)%N → ∃ c s, pretty_N_go x t = String c s ∧ isDigit c = true) as Hgo.
  { intros x. induction (N.lt_wf_0 x) as [x _ IH]; intros t Hx.
    rewrite pretty_N_go_step by lia.
    destruct (decide (x `div` 10 = 0)%N) as [->|].
    - rewrite pretty_N_go_0. eexists _, _. split; [done|]. apply pretty_N_char_digit.
    - apply IH; [apply N.div_lt; lia|]. by apply N.neq_0_lt_0. }
  apply Hgo. lia.
Qed.

(** A digit is neither white space nor a sign. *)
Lemma skipSpace_digit c s f :
  isDigit c = true → skipSpace f (String c s) = Some (String c s).
Proof.
  intros Hc. destruct f as [|f]; [done|]. cbn [skipSpace].
  assert (decodeRune (String c s) = (N_of_ascii c, 1)) as ->.
  { destruct c as [[] [] [] [] [] [] [] []]; (done || by vm_compute in Hc). }
  destruct c as [[] [] [] [] [] [] [] []]; (done || by vm_compute in Hc).
Qed.

Lemma scanUint64_pretty (n : N) s :
  no_digit s → (n < 2 ^ 64)%N → scanUint64 (pretty n +:+ s) = Some (n, s).
Proof.
  intros Hs Hn. unfold scanUint64. destruct (pretty_N_head n) as (c & t & Hp & Hc).
  pose proof (scanDigits_pretty n s Hs) as Hd. rewrite Hp in *.
  rewrite string_app_cons in *. rewrite skipSpace_digit by done. cbn -[scanDigits].
  rewrite Hc. cbn -[scanDigits]. rewrite Hd. cbn. apply N.ltb_lt in Hn. by rewrite Hn.
Qed.

(** An ID printed from two [uint64]s is scanned back. *)
Lemma Sscanf_d_d_print (m q : N) :
  (m < 2 ^ 64)%N → (q < 2 ^ 64)%N →
  Sscanf_d_d (pretty m +:+ "-" +:+ pretty q) = (m, q).
Proof.
  intros Hm Hq. unfold Sscanf_d_d.
  change ("-" +:+ pretty q) with (String "-" (pretty q)).
  rewrite scanUint64_pretty by done.
  pose proof (scanUint64_pretty q "" I Hq) as E. rewrite string_app_nil_r in E. by rewrite E.
Qed.

Lemma Sscanf_d_print (n : N) :
  (Z.of_N n ≤ maxInt64)%Z → Sscanf_d (pretty n) = Some (Z.of_N n).
Proof.
  intros Hn. unfold Sscanf_d, scanInt. destruct (pretty_N_head n) as (c & t & Hp & Hc).
  pose proof (scanDigits_pretty n "" I) as Hd. rewrite string_app_nil_r in Hd. rewrite Hp in *.
  rewrite skipSpace_digit by done.
  assert ((minInt64 <=? Z.of_N n)%Z && (Z.of_N n <=? maxInt64)%Z = true) as Hr.
  { apply andb_true_iff. rewrite !Z.leb_le. unfold minInt64. lia. }
  destruct c as [[] [] [] [] [] [] [] []]; try (by vm_compute in Hc);
    cbn -[scanDigits minInt64 maxInt64 Z.leb Z.of_N andb isDigit]; rewrite Hd, Hc;
    cbn -[minInt64 maxInt64 Z.leb Z.of_N andb]; by rewrite Hr.
Qed.
