(* ===== verification/Net.v ===== *)
(** * Host and port strings

    [net.SplitHostPort] and [strconv.Atoi], as [src/internal/config/config.go] uses
    them, with an exact description of what they accept. *)

From stdpp Require Import base list strings pretty.
From Stdlib Require Import Ascii.
From S2P Require Import Prelude Utf8 Fmt.

(** [strings.IndexByte] and [strings.LastIndexByte]; [None] is [-1]. *)
Fixpoint IndexByte (s : string) (c : ascii) : option nat :=
  match s with
  | EmptyString => None
  | String b s' => if b ==? c then Some 0 else S <$> IndexByte s' c
  end.

Fixpoint LastIndexByte (s : string) (c : ascii) : option nat :=
  match s with
  | EmptyString => None
  | String b s' =>
      match LastIndexByte s' c with
      | Some i => Some (S i)
      | None => if b ==? c then Some 0 else None
      end
  end.

Definition addrErr (addr why : string) : res (string * string) :=
  Err (ErrNew (if addr !=? "" then "address " +:+ addr +:+ ": " +:+ why else why)).

Definition missingPort : string := "missing port in address".
Definition tooManyColons : string := "too many colons in address".

(** The checks shared by both forms, from the positions [j] and [k] on. *)
Definition checkBrackets (hostport : string) (j k i : nat) (host : string) : res (string * string) :=
  if bool_decide (is_Some (IndexByte (sdrop j hostport) "["%char)) then
    addrErr hostport "unexpected '[' in address"
  else if bool_decide (is_Some (IndexByte (sdrop k hostport) "]"%char)) then
    addrErr hostport "unexpected ']' in address"
  else Ok (host, sdrop (S i) hostport).

Definition SplitHostPort (hostport : string) : res (string * string) :=
  match LastIndexByte hostport ":"%char with
  | None => addrErr hostport missingPort
  | Some i =>
      if stake 1 hostport ==? "[" then
        match IndexByte hostport "]"%char with
        | None => addrErr hostport "missing ']' in address"
        | Some end_ =>
            if S end_ =? len hostport then addrErr hostport missingPort
            else if S end_ =? i then
              checkBrackets hostport 1 (S end_) i (sdrop 1 (stake end_ hostport))
            else if stake 1 (sdrop (S end_) hostport) ==? ":" then addrErr hostport tooManyColons
            else addrErr hostport missingPort
        end
      else
        let host := stake i hostport in
        if bool_decide (is_Some (IndexByte host ":"%char)) then addrErr hostport tooManyColons
        else checkBrackets hostport 0 0 i host
  end.

(** [strconv.Atoi]: an optional sign and decimal digits, within [int64]. *)
Definition Atoi (s : string) : option Z :=
  let '(neg, body) :=
    match s with
    | String "-" s' => (true, s')
    | String "+" s' => (false, s')
    | _ => (false, s)
    end in
  if (body !=? "") && all_bytes isDigit body then
    let v := Z.of_N (fst (scanDigits 0 body)) in
    let n := if neg : bool then (- v)%Z else v in
    if (minInt64 <=? n)%Z && (n <=? maxInt64)%Z then Some n else None
  else None.

(** ** What is accepted *)

(** A string without the byte. *)
Definition lacks (c : ascii) (s : string) : Prop := IndexByte s c = None.

(** The two forms of an address: a host without colons or brackets, or any host
    without brackets, in brackets. *)
Definition joins (hostport host port : string) : Prop :=
  lacks ":"%char port ∧ lacks "["%char port ∧ lacks "]"%char port
  ∧ lacks "["%char host ∧ lacks "]"%char host
  ∧ (hostport = host +:+ ":" +:+ port ∧ lacks ":"%char host
     ∨ hostport = "[" +:+ host +:+ "]:" +:+ port).

Lemma lacks_app c s t : lacks c (s +:+ t) ↔ lacks c s ∧ lacks c t.
Proof.
  unfold lacks. induction s as [|b s IH].
  - change ("" +:+ t) with t. cbn. split; [done|]. by intros [_ ?].
  - rewrite string_app_cons. cbn. case_bool_decide; [split; [done|by intros [? _]]|]. by rewrite !fmap_None.
Qed.

Lemma lacks_cons c b s : lacks c (String b s) ↔ b ≠ c ∧ lacks c s.
Proof.
  unfold lacks. cbn. case_bool_decide; [split; [done|by intros [? _]]|]. rewrite fmap_None.
  split; [done|by intros [_ ?]].
Qed.

Lemma IndexByte_app s c t : lacks c s → IndexByte (s +:+ String c t) c = Some (len s).
Proof.
  induction s as [|b s IH]; intros Hs.
  - change ("" +:+ String c t) with (String c t). cbn. by rewrite bool_decide_eq_true_2.
  - apply lacks_cons in Hs as [Hb Hs]. rewrite string_app_cons. cbn. rewrite bool_decide_eq_false_2 by done.
    by rewrite IH.
Qed.

Lemma LastIndexByte_None s c : LastIndexByte s c = None ↔ lacks c s.
Proof.
  unfold lacks. induction s as [|b s IH]; cbn; [done|].
  destruct (LastIndexByte s c) as [j|]; case_bool_decide; rewrite ?fmap_None, <-?IH; done.
Qed.

Lemma LastIndexByte_app s c t : lacks c t → LastIndexByte (s +:+ String c t) c = Some (len s).
Proof.
  intros Ht. apply LastIndexByte_None in Ht. induction s as [|b s IH].
  - change ("" +:+ String c t) with (String c t). cbn. by rewrite Ht, bool_decide_eq_true_2.
  - rewrite string_app_cons. cbn. by rewrite IH.
Qed.

Lemma split_at (s t : string) c :
  stake (len s) (s +:+ String c t) = s ∧ sdrop (S (len s)) (s +:+ String c t) = t.
Proof.
  induction s as [|b s [IH1 IH2]]; [by destruct t|]. rewrite string_app_cons.
  split; [|exact IH2]. cbn. by rewrite IH1.
Qed.

(** The first and the last occurrence of a byte. *)
Lemma IndexByte_split s c i :
  IndexByte s c = Some i → ∃ a b, s = a +:+ String c b ∧ len a = i ∧ lacks c a.
Proof.
  revert i. induction s as [|b s IH]; intros i; cbn; [done|].
  case_bool_decide as Hb.
  - intros [= <-]. subst. by exists "", s.
  - intros (j & Hj & ->)%fmap_Some. destruct (IH j Hj) as (x & y & -> & <- & Hl).
    exists (String b x), y. split_and!; [done|done|]. by apply lacks_cons.
Qed.

Lemma LastIndexByte_split s c i :
  LastIndexByte s c = Some i → ∃ a b, s = a +:+ String c b ∧ len a = i ∧ lacks c b.
Proof.
  revert i. induction s as [|b s IH]; intros i; cbn; [done|].
  destruct (LastIndexByte s c) as [j|] eqn:E.
  - intros [= <-]. destruct (IH j eq_refl) as (x & y & -> & <- & Hl). by exists (String b x), y.
  - case_bool_decide; intros [= <-]. subst. exists "", s. split_and!; [done|done|].
    by apply LastIndexByte_None.
Qed.

Lemma checkBrackets_Ok hp j k i h host port :
  checkBrackets hp j k i h = Ok (host, port) ↔
  lacks "["%char (sdrop j hp) ∧ lacks "]"%char (sdrop k hp) ∧ host = h ∧ port = sdrop (S i) hp.
Proof.
  unfold checkBrackets, lacks.
  destruct (IndexByte (sdrop j hp) "["%char).
  { rewrite bool_decide_eq_true_2 by done. unfold addrErr. naive_solver. }
  rewrite bool_decide_eq_false_2 by (by intros [? [=]]).
  destruct (IndexByte (sdrop k hp) "]"%char).
  { rewrite bool_decide_eq_true_2 by done. unfold addrErr. naive_solver. }
  rewrite bool_decide_eq_false_2 by (by intros [? [=]]). naive_solver.
Qed.

Lemma string_app_inj_len (a b x y : string) :
  a +:+ b = x +:+ y → len a = len x → a = x ∧ b = y.
Proof.
  revert x. induction a as [|c a IH]; intros [|d x]; try done.
  rewrite !string_app_cons. intros [= -> E] [= Hl]. by destruct (IH x E Hl) as [-> ->].
Qed.

(** The address a pair is joined from, in the form [JoinHostPort] would write. *)
Definition bracketed (host port : string) : string :=
  (String "["%char host +:+ "]") +:+ String ":"%char port.

Lemma bracketed_eq host port : "[" +:+ host +:+ "]:" +:+ port = bracketed host port.
Proof.
  unfold bracketed. rewrite string_app_cons, <-string_app_assoc.
  by rewrite <-string_app_cons.
Qed.

Lemma SplitHostPort_plain host port :
  lacks ":"%char port → lacks "["%char port → lacks "]"%char port →
  lacks ":"%char host → lacks "["%char host → lacks "]"%char host →
  SplitHostPort (host +:+ String ":"%char port) = Ok (host, port).
Proof.
  intros Hp1 Hp2 Hp3 Hh1 Hh2 Hh3. unfold SplitHostPort. rewrite LastIndexByte_app by done.
  rewrite bool_decide_eq_false_2.
  - destruct (split_at host port ":"%char) as [E1 E2]. cbn zeta. rewrite E1.
    rewrite bool_decide_eq_false_2 by (rewrite Hh1; by intros [? [=]]).
    apply checkBrackets_Ok. rewrite E2.
    split_and!; [| |done|done]; apply lacks_app; (split; [done|]); by apply lacks_cons.
  - destruct host as [|c host]; [done|]. rewrite string_app_cons.
    intros [= ->]. by apply lacks_cons in Hh2 as [? _].
Qed.

Lemma SplitHostPort_bracketed host port :
  lacks ":"%char port → lacks "["%char port → lacks "]"%char port →
  lacks "["%char host → lacks "]"%char host →
  SplitHostPort (bracketed host port) = Ok (host, port).
Proof.
  intros Hp1 Hp2 Hp3 Hh2 Hh3. unfold SplitHostPort.
  assert (IndexByte (bracketed host port) "]"%char = Some (S (len host))) as Hi.
  { unfold bracketed. rewrite <-string_app_assoc. change ("]" +:+ ?t) with (String "]"%char t).
    apply (IndexByte_app (String "["%char host)). by apply lacks_cons. }
  rewrite Hi. unfold bracketed. rewrite LastIndexByte_app by done. rewrite len_app. cbn [len].
  rewrite bool_decide_eq_true_2 by done.
  rewrite (proj2 (Nat.eqb_neq _ _)) by (rewrite !len_app; cbn; lia).
  assert (len (String "["%char host +:+ "]") = S (S (len host))) as Hlen
    by (rewrite len_app; cbn; lia).
  rewrite Hlen, Nat.eqb_refl. apply checkBrackets_Ok. rewrite <-Hlen.
  rewrite (proj2 (split_at (String "["%char host +:+ "]") port ":"%char)).
  rewrite <-string_app_assoc. change ("]" +:+ ?t) with (String "]"%char t).
  destruct (split_at (String "["%char host) (String ":"%char port) "]"%char) as [E1 E2].
  cbn [len] in E1, E2. rewrite E1. rewrite Hlen, E2. rewrite string_app_cons.
  split_and!; [|by apply lacks_cons|done|done].
  change (lacks "["%char (host +:+ String "]"%char (String ":"%char port))).
  apply lacks_app. split; [done|]. by repeat (apply lacks_cons; split).
Qed.

(** [SplitHostPort] accepts exactly the two forms, and takes them apart. *)
Lemma SplitHostPort_Ok hp host port : SplitHostPort hp = Ok (host, port) ↔ joins hp host port.
Proof.
  unfold joins. rewrite bracketed_eq. change (":" +:+ port) with (String ":"%char port). split.
  - unfold SplitHostPort. destruct (LastIndexByte hp ":"%char) as [i|] eqn:El; [|done].
    apply LastIndexByte_split in El as (a & b & -> & <- & Hb).
    destruct (split_at a b ":"%char) as [Ea Eb]. case_bool_decide as Hbr.
    + destruct (IndexByte _ "]"%char) as [e|] eqn:Ee; [|done].
      apply IndexByte_split in Ee as (x & y & Hxy & <- & Hx).
      case_match; [done|]. destruct (Nat.eqb_spec (S (len x)) (len a)) as [Hlen|]; [|by case_bool_decide].
      rewrite checkBrackets_Ok, Eb. intros (H1 & H2 & -> & ->).
      destruct (string_app_inj_len a (String ":"%char b) (x +:+ "]") y) as [-> <-];
        [by rewrite <-string_app_assoc|by rewrite len_app, Nat.add_comm|].
      rewrite <-string_app_assoc in *. change ("]" +:+ ?t) with (String "]"%char t) in *.
      destruct (split_at x (String ":"%char b) "]"%char) as [Ex Ey]. rewrite Ex. rewrite Ey in H2.
      destruct x as [|c x]; [done|]. rewrite string_app_cons in Hbr. injection Hbr as ->.
      change (sdrop 1 _) with (x +:+ String "]"%char (String ":"%char b)) in H1.
      change (sdrop 1 (String _ x)) with x. apply lacks_app in H1 as [? [_ [_ ?]%lacks_cons]%lacks_cons].
      apply lacks_cons in H2 as [_ ?], Hx as [_ ?]. split_and!; try done. right.
      unfold bracketed. by rewrite <-string_app_assoc.
    + cbn zeta. rewrite Ea. case_bool_decide as Hc; [done|]. rewrite checkBrackets_Ok, Eb.
      intros (H1 & H2 & -> & ->). change (sdrop 0 ?s) with s in *.
      apply lacks_app in H1 as [? [_ ?]%lacks_cons]. apply lacks_app in H2 as [? [_ ?]%lacks_cons].
      apply eq_None_not_Some in Hc. split_and!; try done. by left.
  - intros (? & ? & ? & ? & ? & [[-> ?]| ->]);
      [by apply SplitHostPort_plain|by apply SplitHostPort_bracketed].
Qed.
