(* ===== verification/Base64.v ===== *)
(** * Unpadded base64url

    [base64.RawURLEncoding.EncodeToString], as the token issuer uses it for key
    coordinates and thumbprints, and a decoder that inverts it. *)

From stdpp Require Import base list strings numbers.
From Stdlib Require Import Ascii.
From S2P Require Import Prelude.

(** The letter of a six-bit value. *)
Definition letter (n : N) : ascii :=
  if (n <? 26)%N then ascii_of_N (65 + n)
  else if (n <? 52)%N then ascii_of_N (71 + n)
  else if (n <? 62)%N then ascii_of_N (n - 4)
  else if (n =? 62)%N then "-"%char else "_"%char.

Fixpoint EncodeToString (bs : list N) : string :=
  match bs with
  | a :: b :: c :: bs' =>
      String (letter (a `div` 4)) (String (letter (a `mod` 4 * 16 + b `div` 16))
        (String (letter (b `mod` 16 * 4 + c `div` 64)) (String (letter (c `mod` 64))
          (EncodeToString bs'))))
  | [a; b] =>
      String (letter (a `div` 4)) (String (letter (a `mod` 4 * 16 + b `div` 16))
        (String (letter (b `mod` 16 * 4)) ""))
  | [a] => String (letter (a `div` 4)) (String (letter (a `mod` 4 * 16)) "")
  | [] => ""
  end%N.

(** The value of a letter. *)
Definition unletter (c : ascii) : option N :=
  let n := N_of_ascii c in
  if in_range "A" "Z" c then Some (n - 65)%N
  else if in_range "a" "z" c then Some (n - 71)%N
  else if in_range "0" "9" c then Some (n + 4)%N
  else if c ==? "-"%char then Some 62%N
  else if c ==? "_"%char then Some 63%N
  else None.

Fixpoint DecodeString (s : string) : option (list N) :=
  match s with
  | String a (String b (String c (String d s'))) =>
      x ← unletter a; y ← unletter b; z ← unletter c; w ← unletter d;
      r ← DecodeString s';
      Some (x * 4 + y `div` 16 :: y `mod` 16 * 16 + z `div` 4 :: z `mod` 4 * 64 + w :: r)%N
  | String a (String b (String c "")) =>
      x ← unletter a; y ← unletter b; z ← unletter c;
      Some [x * 4 + y `div` 16; y `mod` 16 * 16 + z `div` 4]%N
  | String a (String b "") =>
      x ← unletter a; y ← unletter b; Some [x * 4 + y `div` 16]%N
  | "" => Some []
  | _ => None
  end.

Definition isByte (n : N) : Prop := (n < 256)%N.

(** Six-bit values are few enough to try. *)
Lemma letter_table :
  forallb (λ n, bool_decide (unletter (letter n) = Some n)
                && (N_of_ascii (letter n) <? 128)%N) (N.of_nat <$> seq 0 64) = true.
Proof. vm_compute. reflexivity. Qed.

Lemma letter_spec n :
  (n < 64)%N → unletter (letter n) = Some n ∧ (N_of_ascii (letter n) <? 128)%N = true.
Proof.
  intros Hn. pose proof letter_table as Ht. rewrite List.forallb_forall in Ht.
  assert (List.In n (N.of_nat <$> seq 0 64)) as Hin.
  { apply list_elem_of_In, list_elem_of_fmap. exists (N.to_nat n).
    split; [lia|]. apply elem_of_seq. lia. }
  apply Ht, andb_true_iff in Hin as [?%bool_decide_eq_true_1 ?]. done.
Qed.

(** Induction three bytes at a time. *)
Lemma bytes_ind (P : list N → Prop) :
  P [] → (∀ a, P [a]) → (∀ a b, P [a; b]) → (∀ a b c l, P l → P (a :: b :: c :: l)) → ∀ l, P l.
Proof.
  intros H0 H1 H2 H3. fix IH 1. intros [|a [|b [|c l]]]; [done..|]. apply H3, IH.
Qed.

(** Quotients and remainders by constants. *)
#[local] Ltac Zify.zify_post_hook ::= Z.to_euclidean_division_equations.

(** Encoding loses nothing: the letters decode back to the bytes. *)
Lemma Decode_Encode bs : Forall isByte bs → DecodeString (EncodeToString bs) = Some bs.
Proof.
  induction bs as [|a|a b|a b c bs IH] using bytes_ind; intros Hb; [done|..];
    repeat match goal with
    | Hf : Forall _ (_ :: _) |- _ => apply Forall_cons_1 in Hf as [? ?]
    end; unfold isByte in *; cbn [EncodeToString DecodeString].
  - destruct (letter_spec (a `div` 4)) as [-> _]; [lia|].
    destruct (letter_spec (a `mod` 4 * 16)) as [-> _]; [lia|]. cbn. do 2 f_equal. lia.
  - destruct (letter_spec (a `div` 4)) as [-> _]; [lia|].
    destruct (letter_spec (a `mod` 4 * 16 + b `div` 16)) as [-> _]; [lia|].
    destruct (letter_spec (b `mod` 16 * 4)) as [-> _]; [lia|]. cbn. do 2 f_equal; [lia|].
    f_equal. lia.
  - destruct (letter_spec (a `div` 4)) as [-> _]; [lia|].
    destruct (letter_spec (a `mod` 4 * 16 + b `div` 16)) as [-> _]; [lia|].
    destruct (letter_spec (b `mod` 16 * 4 + c `div` 64)) as [-> _]; [lia|].
    destruct (letter_spec (c `mod` 64)) as [-> _]; [lia|]. cbn.
    rewrite IH by done. cbn. do 2 f_equal; [lia|]. f_equal; [lia|]. f_equal. lia.
Qed.

Lemma Encode_ascii bs :
  Forall isByte bs → all_bytes (λ c, (N_of_ascii c <? 128)%N) (EncodeToString bs) = true.
Proof.
  induction bs as [|a|a b|a b c bs IH] using bytes_ind; intros Hb; [done|..];
    repeat match goal with
    | Hf : Forall _ (_ :: _) |- _ => apply Forall_cons_1 in Hf as [? ?]
    end; unfold isByte in *; cbn [EncodeToString all_bytes];
    rewrite !andb_true_iff; split_and?; try done; try (apply letter_spec; lia).
  by apply IH.
Qed.
