(* ===== verification/Json.v ===== *)
(** * JSON ([encoding/json] as the sources use it)

    Hairpin decodes two kinds of documents with [encoding/json]: the payload of
    its own [status_change] events and the input of a memory tool call; it encodes
    the same payload and the answers of the memory tools.  This file has the
    document grammar (the scanner that validates the whole input before anything
    is decoded), string literals both ways, and decoding into a struct whose
    fields are matched by name.  A string that is not valid UTF-8 loses its
    malformed bytes to U+FFFD both ways, which [sanitize] states. *)

From stdpp Require Import base list strings.
From Stdlib Require Import Ascii.
From S2P Require Import Prelude Utf8 Fmt.

(** ** Documents *)

Inductive value :=
  | JNull
  | JBool (b : bool)
  | JNum (lit : string)
  | JStr (s : string)
  | JArr (vs : list value)
  | JObj (kvs : list (string * value)).

(** ** String literals *)

(** U+FFFD in UTF-8. *)
Definition replacement : string := String "239" (String "191" (String "189" "")).

Definition byte_of (n : N) : ascii := ascii_of_N n.

(** [utf8.EncodeRune]: surrogates and out-of-range values encode as U+FFFD. *)
Definition encodeRune (r : rune) : string :=
  if (r <? 128)%N then String (byte_of r) ""
  else if (r <? 2048)%N then String (byte_of (192 + r / 64)) (String (byte_of (128 + r `mod` 64)) "")
  else if byte_in 55296 57343 r || (1114111 <? r)%N then replacement
  else if (r <? 65536)%N then
    String (byte_of (224 + r / 4096)) (String (byte_of (128 + (r / 64) `mod` 64))
      (String (byte_of (128 + r `mod` 64)) ""))
  else
    String (byte_of (240 + r / 262144)) (String (byte_of (128 + (r / 4096) `mod` 64))
      (String (byte_of (128 + (r / 64) `mod` 64)) (String (byte_of (128 + r `mod` 64)) ""))).

(** The rune at the head of [s] could not be decoded. *)
Definition malformed (r : rune) (n : nat) : bool := (n =? 1)%nat && (r =? RuneError)%N.

(** The escapes [appendString] writes for a single byte below 0x80, with HTML
    escaping on as [json.Marshal] has it. *)
Definition escapeByte (c : ascii) : option string :=
  let b := N_of_ascii c in
  if (b =? 34)%N || (b =? 92)%N then Some (String backslash (String c ""))
  else if (b =? 8)%N then Some "\b"
  else if (b =? 12)%N then Some "\f"
  else if (b =? 10)%N then Some "\n"
  else if (b =? 13)%N then Some "\r"
  else if (b =? 9)%N then Some "\t"
  else if (b <? 32)%N || (b =? 60)%N || (b =? 62)%N || (b =? 38)%N
  then Some ("\u" +:+ hexDigits 4 b)
  else None.

(** One rune of [appendString]. *)
Definition escapeChunk (r : rune) (raw : string) (n : nat) : string :=
  if malformed r n then "\ufffd"
  else if (r =? 8232)%N || (r =? 8233)%N then "\u" +:+ hexDigits 4 r
  else match raw with
       | String c "" => default raw (escapeByte c)
       | _ => raw
       end.

Fixpoint appendBody (fuel : nat) (s : string) : string :=
  match fuel, s with
  | S f, String _ _ =>
      let '(r, n) := decodeRune s in
      escapeChunk r (stake n s) n +:+ appendBody f (sdrop n s)
  | _, _ => ""
  end.

(** [appendString]: the quoted literal. *)
Definition quoteString (s : string) : string :=
  String dquote (appendBody (len s) s +:+ String dquote "").

(** A string with its malformed bytes replaced. *)
Fixpoint sanitizeFuel (fuel : nat) (s : string) : string :=
  match fuel, s with
  | S f, String _ _ =>
      let '(r, n) := decodeRune s in
      (if malformed r n then replacement else stake n s) +:+ sanitizeFuel f (sdrop n s)
  | _, _ => ""
  end.

Definition sanitize (s : string) : string := sanitizeFuel (len s) s.

Definition hexVal (c : ascii) : option N :=
  let b := N_of_ascii c in
  if byte_in 48 57 b then Some (b - 48)%N
  else if byte_in 97 102 b then Some (b - 87)%N
  else if byte_in 65 70 b then Some (b - 55)%N
  else None.

(** Four hexadecimal digits. *)
Definition hex4 (s : string) : option (N * string) :=
  match s with
  | String a (String b (String c (String d s'))) =>
      a ← hexVal a; b ← hexVal b; c ← hexVal c; d ← hexVal d;
      Some ((((a * 16 + b) * 16 + c) * 16 + d)%N, s')
  | _ => None
  end.

(** [getu4]: a [\uXXXX] escape at the head of the input. *)
Definition getu4 (s : string) : option (N * string) :=
  match s with
  | String c0 (String c1 s') =>
      if (c0 ==? backslash) && (c1 ==? "u"%char) then hex4 s' else None
  | _ => None
  end.

(** [utf16.DecodeRune] on two surrogates. *)
Definition surrogatePair (hi lo : N) : option rune :=
  if byte_in 55296 56319 hi && byte_in 56320 57343 lo
  then Some ((hi - 55296) * 1024 + (lo - 56320) + 65536)%N else None.

(** The text a [\u] escape of value [r] stands for, and what is left. *)
Definition unescapeU (r : N) (s : string) : string * string :=
  if byte_in 55296 57343 r then
    match getu4 s with
    | Some (r1, s') =>
        match surrogatePair r r1 with
        | Some dec => (encodeRune dec, s')
        | None => (replacement, s)
        end
    | None => (replacement, s)
    end
  else (encodeRune r, s).

(** The escape after a backslash: [None] is a syntax error. *)
Definition unescape (s : string) : option (string * string) :=
  match s with
  | EmptyString => None
  | String c s' =>
      let b := N_of_ascii c in
      if (b =? 34)%N || (b =? 92)%N || (b =? 47)%N then Some (String c "", s')
      else if (b =? 98)%N then Some (String (byte_of 8) "", s')
      else if (b =? 102)%N then Some (String (byte_of 12) "", s')
      else if (b =? 110)%N then Some (String (byte_of 10) "", s')
      else if (b =? 114)%N then Some (String (byte_of 13) "", s')
      else if (b =? 116)%N then Some (String (byte_of 9) "", s')
      else if (b =? 117)%N then '(r, s'') ← hex4 s'; Some (unescapeU r s'')
      else None
  end.

(** The rest of a string literal after its opening quote: the text, and what
    follows the closing quote. *)
Fixpoint unquote (fuel : nat) (s : string) : option (string * string) :=
  match fuel, s with
  | S f, String c s' =>
      if (N_of_ascii c =? 34)%N then Some ("", s')
      else if (N_of_ascii c =? 92)%N then
        '(t, s'') ← unescape s'; '(rest, tl) ← unquote f s''; Some (t +:+ rest, tl)
      else if (N_of_ascii c <? 32)%N then None
      else
        let '(r, n) := decodeRune s in
        '(rest, tl) ← unquote f (sdrop n s);
        Some ((if malformed r n then replacement else stake n s) +:+ rest, tl)
  | _, _ => None
  end.

(** ** The grammar *)

Definition isWs (c : ascii) : bool :=
  (c ==? " "%char) || (c ==? "009"%char) || (c ==? "010"%char) || (c ==? "013"%char).

Fixpoint skipWs (s : string) : string :=
  match s with
  | String c s' => if isWs c then skipWs s' else s
  | EmptyString => s
  end.

(** The longest run of digits. *)
Fixpoint digits (s : string) : string * string :=
  match s with
  | String c s' =>
      if isDigit c then let '(d, r) := digits s' in (String c d, r) else ("", s)
  | EmptyString => ("", s)
  end.

(** One or more digits. *)
Definition digits1 (s : string) : option (string * string) :=
  let '(d, r) := digits s in if d ==? "" then None else Some (d, r).

Definition number (s : string) : option (string * string) :=
  let '(sign, s) := match s with String "-" s' => ("-", s') | _ => ("", s) end in
  '(int, s) ← match s with
              | String "0" s' => Some ("0", s')
              | _ => digits1 s
              end;
  '(frac, s) ← match s with
               | String "." s' => '(d, r) ← digits1 s'; Some ("." +:+ d, r)
               | _ => Some ("", s)
               end;
  '(exp, s) ← match s with
              | String c s' =>
                  if (c ==? "e"%char) || (c ==? "E"%char) then
                    let '(sg, s'') := match s' with
                                      | String "+" t => ("+", t)
                                      | String "-" t => ("-", t)
                                      | _ => ("", s')
                                      end in
                    '(d, r) ← digits1 s''; Some (String c (sg +:+ d), r)
                  else Some ("", s)
              | EmptyString => Some ("", s)
              end;
  Some (sign +:+ int +:+ frac +:+ exp, s).

(** Strip a keyword. *)
Fixpoint keyword (k s : string) : option string :=
  match k, s with
  | EmptyString, _ => Some s
  | String a k', String b s' => if a ==? b then keyword k' s' else None
  | _, _ => None
  end.

(** Values, the elements of an array and the members of an object; [depth] is the
    nesting the scanner still allows. *)
Fixpoint parseValue (fuel depth : nat) (s : string) : option (value * string) :=
  match fuel with
  | 0 => None
  | S f =>
      match skipWs s with
      | EmptyString => None
      | String c s1 =>
          if (c ==? "{"%char) then
            match depth with
            | 0 => None
            | S d =>
                match skipWs s1 with
                | String "}" r => Some (JObj [], r)
                | s2 => '(kvs, r) ← parseMembers f d s2; Some (JObj kvs, r)
                end
            end
          else if (c ==? "["%char) then
            match depth with
            | 0 => None
            | S d =>
                match skipWs s1 with
                | String "]" r => Some (JArr [], r)
                | s2 => '(vs, r) ← parseElements f d s2; Some (JArr vs, r)
                end
            end
          else if (c ==? dquote) then
            '(t, r) ← unquote (len s1) s1; Some (JStr t, r)
          else if (c ==? "t"%char) then r ← keyword "rue" s1; Some (JBool true, r)
          else if (c ==? "f"%char) then r ← keyword "alse" s1; Some (JBool false, r)
          else if (c ==? "n"%char) then r ← keyword "ull" s1; Some (JNull, r)
          else '(lit, r) ← number (String c s1); Some (JNum lit, r)
      end
  end
with parseMembers (fuel depth : nat) (s : string) : option (list (string * value) * string) :=
  match fuel with
  | 0 => None
  | S f =>
      match skipWs s with
      | String c s1 =>
          if (c ==? dquote) then
            '(k, s2) ← unquote (len s1) s1;
            match skipWs s2 with
            | String ":" s3 =>
                '(v, s4) ← parseValue f depth s3;
                match skipWs s4 with
                | String "," s5 =>
                    '(kvs, r) ← parseMembers f depth s5; Some ((k, v) :: kvs, r)
                | String "}" r => Some ([(k, v)], r)
                | _ => None
                end
            | _ => None
            end
          else None
      | EmptyString => None
      end
  end
with parseElements (fuel depth : nat) (s : string) : option (list value * string) :=
  match fuel with
  | 0 => None
  | S f =>
      '(v, s1) ← parseValue f depth s;
      match skipWs s1 with
      | String "," s2 => '(vs, r) ← parseElements f depth s2; Some (v :: vs, r)
      | String "]" r => Some ([v], r)
      | _ => None
      end
  end.

Definition maxNestingDepth : nat := N.to_nat 10000.

(** A whole document: one value and nothing but white space after it.  Every
    recursive call of the parser has consumed a byte or is the first one of its
    object or array, so twice the length is enough fuel. *)
Definition parse (s : string) : option value :=
  match parseValue (2 * len s + 2) maxNestingDepth s with
  | Some (v, r) => if skipWs r ==? "" then Some v else None
  | None => None
  end.

(** ** Decoding into a struct *)

(** What [json.Unmarshal] reports: the input is no JSON, or a value does not fit
    the Go type it is decoded into ([Field] is empty for the document itself). *)
Inductive decodeError :=
  | SyntaxError
  | UnmarshalTypeError (Field Value : string).

(** [foldName]'s folding of a rune, exact on every rune that folds to ASCII. *)
Definition foldRune (r : rune) : rune :=
  if byte_in 97 122 r then (r - 32)%N
  else if (r =? 383)%N then 83%N
  else if (r =? 8490)%N then 75%N
  else r.

Definition foldName (s : string) : list rune := foldRune <$> runes s.

(** A field: its JSON name, and how a value is stored into it; [inr v] is the
    description of a value that does not fit. *)
Definition field (T : Type) : Type := string * (value → T → T + string).

(** The field a key selects: by exact name, else by folded name. *)
Definition findField {T} (fs : list (field T)) (k : string) : option (field T) :=
  match list_find (λ f : field T, fst f = k) fs with
  | Some (_, f) => Some f
  | None => snd <$> list_find (λ f : field T, foldName (fst f) = foldName k) fs
  end.

(** The members in order; the first type error is kept and decoding goes on. *)
Fixpoint decodeMembers {T} (fs : list (field T)) (kvs : list (string * value)) (x : T)
  (err : option decodeError) : T * option decodeError :=
  match kvs with
  | [] => (x, err)
  | (k, v) :: kvs' =>
      match findField fs k with
      | None => decodeMembers fs kvs' x err
      | Some (name, set) =>
          match set v x with
          | inl x' => decodeMembers fs kvs' x' err
          | inr got =>
              decodeMembers fs kvs' x
                (match err with None => Some (UnmarshalTypeError name got) | _ => err end)
          end
      end
  end.

(** The kind of a value, as [UnmarshalTypeError.Value] names it. *)
Definition kindOf (v : value) : string :=
  match v with
  | JNull => "null"
  | JBool _ => "bool"
  | JNum _ => "number"
  | JStr _ => "string"
  | JArr _ => "array"
  | JObj _ => "object"
  end.

(** [json.Unmarshal(input, &x)] into a struct with the given fields. *)
Definition Unmarshal {T} (fs : list (field T)) (x : T) (input : string)
  : T * option decodeError :=
  match parse input with
  | None => (x, Some SyntaxError)
  | Some (JObj kvs) => decodeMembers fs kvs x None
  | Some JNull => (x, None)
  | Some v => (x, Some (UnmarshalTypeError "" (kindOf v)))
  end.

(** A [string] field: [null] leaves it alone. *)
Definition stringField {T} (name : string) (set : string → T → T) : field T :=
  (name, λ v x, match v with
                | JStr s => inl (set s x)
                | JNull => inl x
                | _ => inr (kindOf v)
                end).

(** [strconv.ParseInt(lit, 10, 64)] on a JSON number literal: a fraction or an
    exponent is refused. *)
Definition parseInt (lit : string) : option Z :=
  let '(neg, s) := match lit with String "-" s' => (true, s') | _ => (false, lit) end in
  if (s !=? "") && all_bytes isDigit s
  then let n := Z.of_N (fst (scanDigits 0 s)) in Some (if neg : bool then - n else n)%Z
  else None.

(** An [int32] field: a literal that is no integer of 32 bits does not fit. *)
Definition int32Field {T} (name : string) (set : Z → T → T) : field T :=
  (name, λ v x, match v with
                | JNum lit =>
                    match parseInt lit with
                    | Some n =>
                        if (- 2 ^ 31 <=? n)%Z && (n <? 2 ^ 31)%Z then inl (set n x)
                        else inr ("number " +:+ lit)
                    | None => inr ("number " +:+ lit)
                    end
                | JNull => inl x
                | _ => inr (kindOf v)
                end).

(** An object with string members, as [json.Marshal] writes a struct of strings. *)
Fixpoint marshalMembers (kvs : list (string * string)) : string :=
  match kvs with
  | [] => ""
  | [(k, v)] => quoteString k +:+ ":" +:+ quoteString v
  | (k, v) :: kvs' => quoteString k +:+ ":" +:+ quoteString v +:+ "," +:+ marshalMembers kvs'
  end.

Definition marshalObject (kvs : list (string * string)) : string :=
  "{" +:+ marshalMembers kvs +:+ "}".

(** A slice of strings. *)
Fixpoint marshalElements (vs : list string) : string :=
  match vs with
  | [] => ""
  | [v] => quoteString v
  | v :: vs' => quoteString v +:+ "," +:+ marshalElements vs'
  end.

Definition marshalStrings (vs : list string) : string := "[" +:+ marshalElements vs +:+ "]".

(** [json.Unmarshal(input, &x)] into a [[]string]: [null] gives a nil slice as a
    document and an empty string as an element. *)
Definition elementString (v : value) : option string :=
  match v with JStr s => Some s | JNull => Some "" | _ => None end.

Definition UnmarshalStrings (input : string) : list string + decodeError :=
  match parse input with
  | None => inr SyntaxError
  | Some JNull => inl []
  | Some (JArr vs) =>
      match mapM elementString vs with
      | Some l => inl l
      | None => inr (UnmarshalTypeError "" "string")
      end
  | Some v => inr (UnmarshalTypeError "" (kindOf v))
  end.

(** ** Lemmas *)

(** The fuel of the loops over a string may be any bound on its length. *)
Lemma sanitizeFuel_enough n m s :
  len s ≤ n → len s ≤ m → sanitizeFuel n s = sanitizeFuel m s.
Proof.
  revert m s. induction n as [|n IH]; intros [|m] [|c s] Hn Hm; try (simpl in *; lia); try done.
  cbn [sanitizeFuel]. destruct (decodeRune (String c s)) as [r k] eqn:E.
  pose proof (decodeRune_width c s) as Hw. rewrite E in Hw. cbn [snd] in Hw.
  f_equal. apply IH; rewrite len_sdrop; lia.
Qed.

Lemma unquote_mono n m s x :
  n ≤ m → unquote n s = Some x → unquote m s = Some x.
Proof.
  revert m s x. induction n as [|n IH]; intros [|m] s x Hle; try done; [lia|].
  destruct s as [|c s]; [done|]. cbn [unquote].
  destruct (_ =? 34)%N; [done|]. destruct (_ =? 92)%N; [|destruct (_ <? 32)%N; [done|]].
  - destruct (unescape s) as [[t s']|]; [|done]. cbn.
    destruct (unquote n s') as [[a b]|] eqn:E; [|done]. cbn.
    rewrite (IH m s' (a, b)) by (done || lia). done.
  - destruct (decodeRune (String c s)) as [r k]. cbn.
    destruct (unquote n (sdrop k (String c s))) as [[a b]|] eqn:E; [|done]. cbn.
    rewrite (IH m _ (a, b)) by (done || lia). done.
Qed.

(** Replace the text read first in a partial result. *)
Definition prepend (t : string) (o : option (string * string)) : option (string * string) :=
  '(rest, tl) ← o; Some (t +:+ rest, tl).

(** What one escaped byte is read back as. *)
Lemma unquote_byte f c T :
  (N_of_ascii c < 128)%N →
  unquote (S f) (default (String c "") (escapeByte c) +:+ T) = prepend (String c "") (unquote f T).
Proof.
  intros Hc. destruct c as [[] [] [] [] [] [] [] []]; try (by vm_compute in Hc);
    cbn -[unquote String.app]; rewrite ?string_app_cons; reflexivity.
Qed.

(** A byte is determined by its code. *)
Lemma ascii_code c n : N_of_ascii c = n → c = ascii_of_N n.
Proof. intros <-. by rewrite ascii_N_embedding. Qed.

(** The two separators [appendString] always escapes encode as they were read. *)
Lemma line_separators c s r n :
  decodeRune (String c s) = (r, n) → (r =? 8232)%N || (r =? 8233)%N = true →
  encodeRune r = stake n (String c s).
Proof.
  intros H Hr. assert (r = 8232 ∨ r = 8233)%N as Hr'.
  { apply orb_true_iff in Hr. rewrite !N.eqb_eq in Hr. done. }
  clear Hr. revert H. unfold decodeRune.
  destruct (N.ltb_spec (N_of_ascii c) 128); [intros [= <- <-]; lia|].
  unfold lead, byte_in.
  repeat (case_match; simplify_eq/=; try (intros [= <- <-]; unfold RuneError in *; lia));
    boolify;
    repeat match goal with H : (_ <=? _)%N = true |- _ => apply N.leb_le in H end;
    intros [= Er <-]; try lia; destruct Hr' as [-> | ->].
  all: match goal with
       | |- encodeRune ?v = stake 3 (String ?x (String ?y (String ?z _))) =>
           assert (N_of_ascii x = 226 ∧ N_of_ascii y = 128 ∧ N_of_ascii z = v - 8192 + 128)%N
             as (Ex & Ey & Ez) by lia;
           apply ascii_code in Ex, Ey, Ez; subst; reflexivity
       end.
Qed.

(** One rune, escaped or not, is read back as itself, or as U+FFFD. *)
Lemma unquote_chunk f c s r n T :
  decodeRune (String c s) = (r, n) →
  unquote (S f) (escapeChunk r (stake n (String c s)) n +:+ T)
  = prepend (if malformed r n then replacement else stake n (String c s)) (unquote f T).
Proof.
  intros E. unfold escapeChunk. destruct (malformed r n) eqn:Em; [reflexivity|].
  destruct ((r =? 8232)%N || (r =? 8233)%N) eqn:Els.
  { rewrite <-(line_separators _ _ _ _ E Els). apply orb_true_iff in Els.
    rewrite !N.eqb_eq in Els. destruct Els as [-> | ->]; reflexivity. }
  destruct (decide (n = 1)) as [->|Hn].
  - apply decodeRune_single in E as [[Hc _]| ->]; [|done]. by apply unquote_byte.
  - destruct (decodeRune_multi _ _ _ _ E Hn) as (Hc & raw & t & -> & Hl & Hd).
    assert (stake n (String c (raw +:+ t)) = String c raw) as ->.
    { pose proof (decodeRune_width c (raw +:+ t)) as Hw. rewrite E in Hw. cbn [snd] in Hw.
      rewrite <-string_app_cons. replace n with (len (String c raw)) by (simpl; lia).
      apply stake_app_len. }
    destruct raw as [|c1 raw]; [simpl in Hl|].
    { pose proof (decodeRune_width c ("" +:+ t)) as Hw. rewrite E in Hw. cbn [snd] in Hw. lia. }
    rewrite string_app_cons. cbn [unquote].
    destruct (N.eqb_spec (N_of_ascii c) 34); [lia|]. destruct (N.eqb_spec (N_of_ascii c) 92); [lia|].
    destruct (N.ltb_spec (N_of_ascii c) 32); [lia|]. rewrite Hd, Em.
    rewrite <-string_app_cons. replace n with (len (String c (String c1 raw))) by (simpl in *; lia).
    by rewrite sdrop_app_len, stake_app_len.
Qed.

(** A quoted literal is read back exactly, whatever follows it: decoding is the
    left inverse of encoding up to the replacement of malformed bytes. *)
Lemma unquote_appendBody m f s T :
  len s ≤ m → len s < f →
  unquote f (appendBody m s +:+ String dquote T) = Some (sanitizeFuel m s, T).
Proof.
  revert f s. induction m as [|m IH]; intros [|f] [|c s] Hm Hf; try (simpl in *; lia); try done.
  cbn [appendBody sanitizeFuel]. destruct (decodeRune (String c s)) as [r n] eqn:E.
  pose proof (decodeRune_width c s) as Hw. rewrite E in Hw. cbn [snd] in Hw.
  rewrite <-string_app_assoc, (unquote_chunk _ _ _ _ _ _ E).
  rewrite IH by (rewrite len_sdrop; simpl in *; lia). done.
Qed.

Lemma unquote_quoteString s T :
  ∃ f, ∀ f', f ≤ f' →
    unquote f' (appendBody (len s) s +:+ String dquote T) = Some (sanitize s, T).
Proof. exists (S (len s)). intros f' Hf. apply unquote_appendBody; lia. Qed.

(** Text without malformed bytes is its own sanitised form; ASCII is such text. *)
Lemma sanitize_ascii s : all_bytes (λ c, (N_of_ascii c <? 128)%N) s = true → sanitize s = s.
Proof.
  unfold sanitize. induction s as [|c s IH]; [done|]. cbn [all_bytes len sanitizeFuel].
  intros [Hc Hs]%andb_true_iff.
  assert (decodeRune (String c s) = (N_of_ascii c, 1)) as -> by (unfold decodeRune; by rewrite Hc).
  apply N.ltb_lt in Hc. unfold malformed, RuneError.
  destruct (N.eqb_spec (N_of_ascii c) 65533); [lia|]. cbn [andb Nat.eqb stake sdrop].
  by rewrite IH.
Qed.

Lemma sanitize_cons c s r n :
  decodeRune (String c s) = (r, n) →
  sanitize (String c s)
  = (if malformed r n then replacement else stake n (String c s)) +:+ sanitize (sdrop n (String c s)).
Proof.
  intros E. pose proof (decodeRune_width c s) as Hw. rewrite E in Hw. cbn [snd] in Hw.
  unfold sanitize. cbn [len sanitizeFuel]. rewrite E. f_equal.
  apply sanitizeFuel_enough; rewrite len_sdrop; simpl in *; lia.
Qed.

(** A well-formed rune at the head is kept, whatever follows it. *)
Lemma sanitize_rune c s r n T :
  decodeRune (String c s) = (r, n) → malformed r n = false →
  sanitize (stake n (String c s) +:+ T) = stake n (String c s) +:+ sanitize T.
Proof.
  intros E Em. pose proof (decodeRune_width c s) as Hw. rewrite E in Hw. cbn [snd] in Hw.
  destruct (decide (n = 1)) as [->|Hn].
  - cbn [stake]. rewrite string_app_cons, string_app_nil_l.
    apply decodeRune_single in E as [[Hc Hr]| ->]; [|done].
    assert (decodeRune (String c T) = (r, 1)) as E'.
    { unfold decodeRune. subst r. apply N.ltb_lt in Hc. by rewrite Hc. }
    rewrite (sanitize_cons _ _ _ _ E'), Em. cbn [stake sdrop]. done.
  - destruct (decodeRune_multi _ _ _ _ E Hn) as (Hc & raw & t & -> & Hl & Hd).
    assert (∀ u, stake n (String c (raw +:+ u)) = String c raw) as Hst.
    { intros u. rewrite <-string_app_cons. replace n with (len (String c raw)) by (simpl; lia).
      apply stake_app_len. }
    rewrite Hst, string_app_cons, (sanitize_cons _ _ _ _ (Hd T)), Em, Hst. f_equal.
    rewrite <-string_app_cons. replace n with (len (String c raw)) by (simpl; lia).
    by rewrite sdrop_app_len.
Qed.

Lemma sanitize_replacement T : sanitize (replacement +:+ T) = replacement +:+ sanitize T.
Proof.
  pose proof (sanitize_rune "239" (String "191" (String "189" "")) RuneError 3 T) as Hs.
  by apply Hs.
Qed.

(** Sanitised text is its own sanitised form. *)
Lemma sanitize_idem s : sanitize (sanitize s) = sanitize s.
Proof.
  remember (len s) as k eqn:Hk. revert s Hk. induction (lt_wf k) as [k _ IH]. intros [|c s] ->; [done|].
  destruct (decodeRune (String c s)) as [r n] eqn:E.
  pose proof (decodeRune_width c s) as Hw. rewrite E in Hw. cbn [snd] in Hw.
  rewrite (sanitize_cons _ _ _ _ E).
  assert (sanitize (sanitize (sdrop n (String c s))) = sanitize (sdrop n (String c s))) as IH'.
  { eapply IH; [|done]. rewrite len_sdrop. simpl in *. lia. }
  destruct (malformed r n) eqn:Em; [by rewrite sanitize_replacement, IH'|].
  by rewrite (sanitize_rune _ _ _ _ _ E Em), IH'.
Qed.

Lemma len_escapeChunk c s r n :
  decodeRune (String c s) = (r, n) → n ≤ len (escapeChunk r (stake n (String c s)) n).
Proof.
  intros E. pose proof (decodeRune_width c s) as Hw. rewrite E in Hw. cbn [snd] in Hw.
  unfold escapeChunk. destruct (malformed r n) eqn:Em.
  { unfold malformed in Em. boolify. apply Nat.eqb_eq in H. subst. simpl. lia. }
  destruct (_ || _) eqn:Els.
  { pose proof (line_separators _ _ _ _ E Els) as Hs.
    assert (len (encodeRune r) = n) as Hl by (rewrite Hs, len_stake; lia).
    apply orb_true_iff in Els. rewrite !N.eqb_eq in Els.
    destruct Els as [-> | ->]; vm_compute in Hl; subst; vm_compute; lia. }
  destruct (stake n (String c s)) as [|d [|d' t]] eqn:Es; cycle 1.
  - assert (n = 1) as -> by (apply (f_equal len) in Es; rewrite len_stake in Es; simpl in *; lia).
    unfold escapeByte. repeat case_match; simpl; lia.
  - apply (f_equal len) in Es. rewrite len_stake in Es. lia.
  - apply (f_equal len) in Es. rewrite len_stake in Es. simpl in *; lia.
Qed.

Lemma len_appendBody m s : len s ≤ m → len s ≤ len (appendBody m s).
Proof.
  revert s. induction m as [|m IH]; intros [|c s] Hm; simpl in Hm; try (simpl; lia).
  cbn [appendBody]. destruct (decodeRune (String c s)) as [r n] eqn:E.
  pose proof (decodeRune_width c s) as Hw. rewrite E in Hw. cbn [snd] in Hw.
  rewrite len_app. pose proof (len_escapeChunk _ _ _ _ E).
  specialize (IH (sdrop n (String c s))). rewrite len_sdrop in IH. simpl in *. lia.
Qed.

(** The literal as the parser meets it: its fuel is what follows the quote. *)
Lemma unquote_literal s T :
  unquote (len (appendBody (len s) s +:+ String dquote T))
    (appendBody (len s) s +:+ String dquote T) = Some (sanitize s, T).
Proof.
  apply unquote_appendBody; [done|]. pose proof (len_appendBody (len s) s (le_n _)).
  rewrite len_app. simpl. lia.
Qed.

Lemma quoteString_app s T :
  quoteString s +:+ T = String dquote (appendBody (len s) s +:+ String dquote T).
Proof. unfold quoteString. by rewrite string_app_cons, <-string_app_assoc, string_app_cons. Qed.

(** The parser at an opening quote. *)
Lemma parseValue_dquote f d u :
  parseValue (S f) d (String dquote u) = '(t, r) ← unquote (len u) u; Some (JStr t, r).
Proof. reflexivity. Qed.

Lemma parseMembers_dquote f d u :
  parseMembers (S f) d (String dquote u)
  = '(k, s2) ← unquote (len u) u;
    match skipWs s2 with
    | String ":" s3 =>
        '(v, s4) ← parseValue f d s3;
        match skipWs s4 with
        | String "," s5 => '(kvs, r) ← parseMembers f d s5; Some ((k, v) :: kvs, r)
        | String "}" r => Some ([(k, v)], r)
        | _ => None
        end
    | _ => None
    end.
Proof. reflexivity. Qed.

(** A literal as a value. *)
Lemma parseValue_literal f d s T :
  parseValue (S f) d (quoteString s +:+ T) = Some (JStr (sanitize s), T).
Proof. rewrite quoteString_app, parseValue_dquote. by rewrite unquote_literal. Qed.

(** A member of an object, key and value literals. *)
Lemma parseMembers_literal f d k v T :
  parseMembers (S (S f)) d (quoteString k +:+ ":" +:+ quoteString v +:+ T)
  = match skipWs T with
    | String "," s5 =>
        '(kvs, r) ← parseMembers (S f) d s5; Some ((sanitize k, JStr (sanitize v)) :: kvs, r)
    | String "}" r => Some ([(sanitize k, JStr (sanitize v))], r)
    | _ => None
    end.
Proof.
  rewrite quoteString_app, parseMembers_dquote, unquote_literal. cbn [mbind option_bind].
  change (skipWs (":" +:+ quoteString v +:+ T)) with (String ":" (quoteString v +:+ T)).
  cbv beta iota. by rewrite parseValue_literal.
Qed.

(** ** Reading back an object of strings *)

Definition sanitized (kv : string * string) : string * value :=
  (sanitize (fst kv), JStr (sanitize (snd kv))).

Lemma parseMembers_marshal kvs f d T :
  kvs ≠ [] → length kvs ≤ f →
  parseMembers (S (S f)) d (marshalMembers kvs +:+ String "}" T) = Some (sanitized <$> kvs, T).
Proof.
  revert f. induction kvs as [|[k v] kvs IH]; intros f Hne Hf; [done|].
  destruct kvs as [|kv kvs].
  - cbn [marshalMembers]. rewrite <-!string_app_assoc. by rewrite parseMembers_literal.
  - change (marshalMembers ((k, v) :: kv :: kvs))
      with (quoteString k +:+ ":" +:+ quoteString v +:+ "," +:+ marshalMembers (kv :: kvs)).
    rewrite <-!string_app_assoc, parseMembers_literal.
    change (skipWs ("," +:+ ?t)) with (String "," t). cbv beta iota.
    destruct f as [|f]; [cbn in Hf; lia|]. rewrite IH; [done|done|cbn in *; lia].
Qed.

Lemma parseValue_object_of f d u :
  parseValue (S f) (S d) (String "{" (String dquote u))
  = '(kvs, r) ← parseMembers f d (String dquote u); Some (JObj kvs, r).
Proof. reflexivity. Qed.

Lemma parseValue_array_of f d u :
  parseValue (S f) (S d) (String "[" (String "{" u))
  = '(vs, r) ← parseElements f d (String "{" u); Some (JArr vs, r).
Proof. reflexivity. Qed.

Lemma marshalMembers_dquote k v kvs T :
  ∃ u, marshalMembers ((k, v) :: kvs) +:+ T = String dquote u.
Proof.
  destruct kvs as [|kv kvs]; cbn [marshalMembers]; rewrite <-!string_app_assoc, quoteString_app;
    by eexists.
Qed.

Lemma len_marshalMembers kvs : length kvs ≤ len (marshalMembers kvs).
Proof.
  induction kvs as [|[k v] kvs IH]; [done|]. destruct kvs as [|kv kvs].
  - cbn [marshalMembers length]. rewrite quoteString_app. cbn. lia.
  - change (marshalMembers ((k, v) :: kv :: kvs))
      with (quoteString k +:+ ":" +:+ quoteString v +:+ "," +:+ marshalMembers (kv :: kvs)).
    rewrite !len_app. cbn [len length] in *. lia.
Qed.

(** An object of strings is read back as such. *)
Lemma parse_marshalObject k v kvs :
  parse (marshalObject ((k, v) :: kvs)) = Some (JObj (sanitized <$> (k, v) :: kvs)).
Proof.
  pose proof (len_marshalMembers ((k, v) :: kvs)) as Hlen.
  unfold parse, marshalObject. set (M := marshalMembers ((k, v) :: kvs)) in *.
  assert (∃ u, M +:+ "}" = String dquote u) as [u Hu] by apply marshalMembers_dquote.
  assert (∃ f, 2 * len ("{" +:+ M +:+ "}") + 2 = S (S (S f)) ∧ S (length kvs) ≤ f) as (f & -> & Hf).
  { exists (2 * len ("{" +:+ M +:+ "}") - 1). rewrite !len_app. cbn [len length] in *. lia. }
  change maxNestingDepth with (S (pred maxNestingDepth)).
  generalize (pred maxNestingDepth). intros d.
  change ("{" +:+ M +:+ "}") with (String "{" (M +:+ "}")).
  rewrite Hu, parseValue_object_of, <-Hu.
  change (M +:+ "}") with (M +:+ String "}" ""). unfold M.
  by rewrite parseMembers_marshal.
Qed.

Lemma parseElements_step f d s :
  parseElements (S f) d s
  = '(v, s1) ← parseValue f d s;
    match skipWs s1 with
    | String "," s2 => '(vs, r) ← parseElements f d s2; Some (v :: vs, r)
    | String "]" r => Some ([v], r)
    | _ => None
    end.
Proof. reflexivity. Qed.

Lemma parseElements_marshal vs f d T :
  vs ≠ [] → length vs ≤ f →
  parseElements (S (S f)) d (marshalElements vs +:+ String "]" T)
  = Some ((JStr ∘ sanitize) <$> vs, T).
Proof.
  revert f. induction vs as [|v vs IH]; intros f Hne Hf; [done|].
  destruct vs as [|v' vs]; rewrite parseElements_step.
  - cbn [marshalElements]. by rewrite parseValue_literal.
  - change (marshalElements (v :: v' :: vs))
      with (quoteString v +:+ "," +:+ marshalElements (v' :: vs)).
    rewrite <-!string_app_assoc, parseValue_literal. cbn [mbind option_bind].
    change (skipWs ("," +:+ ?t)) with (String "," t). cbv beta iota.
    destruct f as [|f]; [cbn in Hf; lia|].
    rewrite IH; [done|done|cbn in *; lia].
Qed.

Lemma parseValue_array_quote f d u :
  parseValue (S f) (S d) (String "[" (String dquote u))
  = '(vs, r) ← parseElements f d (String dquote u); Some (JArr vs, r).
Proof. reflexivity. Qed.

Lemma len_marshalElements vs : length vs ≤ len (marshalElements vs).
Proof.
  induction vs as [|v vs IH]; [done|]. destruct vs as [|v' vs].
  - cbn. lia.
  - change (marshalElements (v :: v' :: vs))
      with (quoteString v +:+ "," +:+ marshalElements (v' :: vs)).
    rewrite !len_app. cbn [len length] in *. lia.
Qed.

(** A slice of strings is read back, its strings sanitised. *)
Lemma UnmarshalStrings_marshal vs :
  vs ≠ [] → UnmarshalStrings (marshalStrings vs) = inl (sanitize <$> vs).
Proof.
  intros Hne. pose proof (len_marshalElements vs) as Hlen.
  unfold UnmarshalStrings, parse, marshalStrings. set (M := marshalElements vs) in *.
  assert (∃ u, M +:+ "]" = String dquote u) as [u Hu].
  { unfold M. destruct vs as [|v [|v' vs]]; [done|..]; cbn [marshalElements];
      rewrite <-?string_app_assoc, quoteString_app; by eexists. }
  assert (∃ f, 2 * len ("[" +:+ M +:+ "]") + 2 = S (S (S f)) ∧ length vs ≤ f) as (f & -> & Hf).
  { exists (2 * len ("[" +:+ M +:+ "]") - 1). rewrite !len_app. cbn [len length] in *. lia. }
  change maxNestingDepth with (S (pred maxNestingDepth)).
  generalize (pred maxNestingDepth). intros d.
  change ("[" +:+ M +:+ "]") with (String "[" (M +:+ "]")).
  rewrite Hu, parseValue_array_quote, <-Hu.
  change (M +:+ "]") with (M +:+ String "]" ""). unfold M.
  rewrite parseElements_marshal by done. cbn [mbind option_bind skipWs].
  rewrite bool_decide_eq_true_2 by done.
  assert (mapM elementString ((JStr ∘ sanitize) <$> vs) = Some (sanitize <$> vs)) as ->; [|done].
  clear. induction vs as [|v vs IH]; [done|]. cbn. by rewrite IH.
Qed.
