(* ===== verification/GoTime.v ===== *)
(** * Dates and times as text ([time] as the sources use it)

    The proleptic Gregorian calendar, [Time.Format] and [time.Parse] with the layout
    [RFC3339Nano], the strict variants [encoding/json] uses for a [time.Time],
    [Time.Format] with the layout of the web UI, and [Duration.Round] and
    [Duration.String].

    The location a [time.Time] carries is no part of the model, which keeps the
    instant; the offset an instant is printed with is the parameter [zoneOffset],
    in seconds east of UTC.  The text of a parse error is one too. *)

From stdpp Require Import base list strings pretty.
From Stdlib Require Import Ascii.
From S2P Require Import Prelude Utf8 Fmt Json.

Class TimeEnv := {
  zoneOffset : Time → Z;
  parseErrorText : string → string;
}.

Local Open Scope Z_scope.

(** ** The calendar *)

Definition isLeap (y : Z) : bool :=
  (y `mod` 4 =? 0) && (negb (y `mod` 100 =? 0) || (y `mod` 400 =? 0)).

(** The days of the years before [y], counted from January 1 of year 1. *)
Definition daysBeforeYear (y : Z) : Z :=
  let p := y - 1 in 365 * p + p `div` 4 - p `div` 100 + p `div` 400.

Definition monthLengths (leap : bool) : list Z :=
  [31; if leap then 29 else 28; 31; 30; 31; 30; 31; 31; 30; 31; 30; 31].

(** The year of a day and the day's place in it, by cycles of 400, 100, 4 and 1
    years; the last year of a cycle may be a day longer than the others. *)
Definition yearOf (d : Z) : Z * Z :=
  let n400 := d `div` 146097 in
  let r := d `mod` 146097 in
  let n100 := Z.min 3 (r `div` 36524) in
  let r := r - 36524 * n100 in
  let n4 := r `div` 1461 in
  let r := r - 1461 * n4 in
  let n1 := Z.min 3 (r `div` 365) in
  (1 + 400 * n400 + 100 * n100 + 4 * n4 + n1, r - 365 * n1).

(** The month (from [m] on) and the day of the month of the [d]-th day. *)
Fixpoint monthOf (lens : list Z) (m d : Z) : Z * Z :=
  match lens with
  | l :: lens' => if d <? l then (m, d + 1) else monthOf lens' (m + 1) (d - l)
  | [] => (m, d + 1)
  end.

Fixpoint sumZ (l : list Z) : Z := match l with [] => 0 | x :: l' => x + sumZ l' end.

(** [Date]: year, month and day of a day number, and back. *)
Definition dateOf (d : Z) : Z * Z * Z :=
  let '(y, yday) := yearOf d in
  let '(m, md) := monthOf (monthLengths (isLeap y)) 1 yday in (y, m, md).

Definition daysOf (y m d : Z) : Z :=
  daysBeforeYear y + sumZ (take (Z.to_nat (m - 1)) (monthLengths (isLeap y))) + (d - 1).

Definition daysIn (m y : Z) : Z := default 0 (monthLengths (isLeap y) !! Z.to_nat (m - 1)).

(** Linear arithmetic with division and remainder by constants. *)
Ltac divlia := Z.div_mod_to_equations; lia.

Lemma daysBeforeYear_cycles a b c e :
  0 ≤ b ≤ 3 → 0 ≤ c ≤ 24 → 0 ≤ e ≤ 3 →
  daysBeforeYear (1 + 400 * a + 100 * b + 4 * c + e) = 146097 * a + 36524 * b + 1461 * c + 365 * e.
Proof.
  intros. unfold daysBeforeYear.
  replace (1 + 400 * a + 100 * b + 4 * c + e - 1) with (400 * a + 100 * b + 4 * c + e) by lia.
  assert ((400 * a + 100 * b + 4 * c + e) `div` 4 = 100 * a + 25 * b + c) as -> by divlia.
  assert ((400 * a + 100 * b + 4 * c + e) `div` 100 = 4 * a + b) as -> by divlia.
  assert ((400 * a + 100 * b + 4 * c + e) `div` 400 = a) as -> by divlia.
  lia.
Qed.

Lemma isLeap_cycles a b c e :
  0 ≤ b ≤ 3 → 0 ≤ c ≤ 24 → 0 ≤ e ≤ 3 →
  isLeap (1 + 400 * a + 100 * b + 4 * c + e) = (e =? 3) && ((c <? 24) || (b =? 3)).
Proof.
  intros. unfold isLeap. apply eq_true_iff_eq.
  rewrite !andb_true_iff, !orb_true_iff, negb_true_iff, !Z.eqb_eq, Z.eqb_neq, Z.ltb_lt. divlia.
Qed.

(** The year is the one the day lies in. *)
Lemma yearOf_spec d y yday :
  yearOf d = (y, yday) →
  daysBeforeYear y + yday = d ∧ 0 ≤ yday < 365 + (if isLeap y then 1 else 0).
Proof.
  unfold yearOf. intros [= <- <-].
  set (a := d `div` 146097). set (r := d `mod` 146097).
  assert (d = 146097 * a + r ∧ 0 ≤ r < 146097) as [Hd Hr] by (unfold a, r; divlia). clearbody a r.
  set (b := Z.min 3 (r `div` 36524)). set (r1 := r - 36524 * b).
  assert (0 ≤ b ≤ 3 ∧ 0 ≤ r1 ∧ (r1 < 36524 ∨ b = 3 ∧ r1 = 36524)) as (Hb & Hr1 & Hr1') by (unfold b, r1; divlia).
  assert (r = 36524 * b + r1) as Er by lia. clearbody b r1.
  set (c := r1 `div` 1461). set (r2 := r1 - 1461 * c).
  assert (r1 = 1461 * c + r2 ∧ 0 ≤ r2 < 1461) as [Er1 Hr2] by (unfold c, r2; divlia). clearbody c r2.
  set (e := Z.min 3 (r2 `div` 365)). set (r3 := r2 - 365 * e).
  assert (0 ≤ e ≤ 3 ∧ 0 ≤ r3 ∧ (r3 < 365 ∨ e = 3 ∧ r3 = 365)) as (He & Hr3 & Hr3') by (unfold e, r3; divlia).
  assert (r2 = 365 * e + r3) as Er2 by lia. clearbody e r3.
  assert (0 ≤ c ≤ 24) as Hc by lia.
  rewrite daysBeforeYear_cycles, isLeap_cycles by lia. split; [lia|].
  destruct (Z.eqb_spec e 3), (Z.ltb_spec c 24), (Z.eqb_spec b 3); cbn; lia.
Qed.

Lemma monthOf_spec lens m d :
  Forall (λ l, 0 < l) lens → 0 ≤ d < sumZ lens →
  ∃ k l, monthOf lens m d = (m + Z.of_nat k, d - sumZ (take k lens) + 1)
    ∧ lens !! k = Some l ∧ 0 ≤ d - sumZ (take k lens) < l.
Proof.
  intros Hl. revert m d. induction Hl as [|l lens Hl Hls IH]; intros m d; [simpl; lia|].
  cbn [sumZ monthOf]. intros Hd. destruct (Z.ltb_spec d l).
  - exists 0%nat, l. cbn. split; [f_equal; lia|]. split; [done|lia].
  - destruct (IH (m + 1) (d - l)) as (k & l' & E & Hk & Hr); [lia|].
    exists (S k), l'. rewrite E. cbn. split; [f_equal; lia|]. split; [done|lia].
Qed.

(** A date names its day, and is one the calendar has. *)
Lemma dateOf_spec d y m md :
  dateOf d = (y, m, md) →
  daysOf y m md = d ∧ 1 ≤ m ≤ 12 ∧ 1 ≤ md ≤ daysIn m y.
Proof.
  unfold dateOf. destruct (yearOf d) as [y' yday] eqn:Ey.
  destruct (yearOf_spec _ _ _ Ey) as [Hd Hy].
  destruct (monthOf_spec (monthLengths (isLeap y')) 1 yday) as (k & l & E & Hk & Hr).
  { unfold monthLengths. repeat constructor; by destruct (isLeap y'). }
  { destruct (isLeap y'); cbn; lia. }
  rewrite E. intros [= <- <- <-]. unfold daysOf, daysIn.
  replace (Z.to_nat (1 + Z.of_nat k - 1)) with k by lia. rewrite Hk. cbn [default].
  pose proof (lookup_lt_Some _ _ _ Hk). destruct (isLeap y'); cbn in *; lia.
Qed.

(** ** Format *)

(** [w] decimal digits of [n]. *)
Fixpoint appendDigits (w : nat) (n : Z) : string :=
  match w with
  | O => ""
  | S w' => appendDigits w' (n `div` 10) +:+ String (pretty_N_char (Z.to_N (n `mod` 10))) ""
  end.

(** [appendInt]: at least [w] digits, zeros in front. *)
Definition appendInt (n : Z) (w : nat) : string :=
  if n <? 0 then
    "-" +:+ (if - n <? 10 ^ Z.of_nat w then appendDigits w (- n) else pretty (- n))
  else if n <? 10 ^ Z.of_nat w then appendDigits w n else pretty n.

(** The string without the zeros at its end. *)
Fixpoint trimZeros (s : string) : string :=
  match s with
  | EmptyString => ""
  | String c s' =>
      match trimZeros s' with
      | EmptyString => if c ==? "0"%char then "" else String c ""
      | t => String c t
      end
  end.

(** [.999999999]: no fraction at all when the nanoseconds are zero. *)
Definition fraction (ns : Z) : string :=
  if ns =? 0 then "" else String "." (trimZeros (appendDigits 9 ns)).

(** [Z07:00]: whole minutes of the offset. *)
Definition zoneText (off : Z) : string :=
  if off =? 0 then "Z"
  else
    let zone := Z.quot off 60 in
    let '(sign, zone) := if zone <? 0 then ("-", - zone) else ("+", zone) in
    sign +:+ appendInt (zone `div` 60) 2 +:+ ":" +:+ appendInt (zone `mod` 60) 2.

(** The date and the time of day of a count of nanoseconds since the zero time. *)
Definition dateText (loc : Z) : string :=
  let '(y, m, d) := dateOf (loc `div` (86400 * Second)) in
  appendInt y 4 +:+ "-" +:+ appendInt m 2 +:+ "-" +:+ appendInt d 2.

Definition clockText (loc : Z) : string :=
  let s := (loc `div` Second) `mod` 86400 in
  appendInt (s `div` 3600) 2 +:+ ":" +:+ appendInt ((s `div` 60) `mod` 60) 2 +:+ ":"
  +:+ appendInt (s `mod` 60) 2.

Section zoned.
Context `{TimeEnv}.

Definition local (t : Time) : Z := t + zoneOffset t * Second.

(** [t.Format(time.RFC3339Nano)]. *)
Definition FormatRFC3339Nano (t : Time) : string :=
  dateText (local t) +:+ "T" +:+ clockText (local t) +:+ fraction (local t `mod` Second)
  +:+ zoneText (zoneOffset t).

(** [t.Format("2006-01-02 15:04:05")]. *)
Definition FormatDateTime (t : Time) : string := dateText (local t) +:+ " " +:+ clockText (local t).

End zoned.

(** ** Parse *)

Definition digitZ (c : ascii) : Z := Z.of_N (digit_val c).

(** [getnum]: one or two digits, exactly two if [fixed]. *)
Definition getnum (fixed : bool) (s : string) : option (Z * string) :=
  match s with
  | String a s1 =>
      if isDigit a then
        match s1 with
        | String b s2 =>
            if isDigit b then Some (10 * digitZ a + digitZ b, s2)
            else if fixed then None else Some (digitZ a, s1)
        | EmptyString => if fixed then None else Some (digitZ a, s1)
        end
      else None
  | EmptyString => None
  end.

(** A two-digit field with its range. *)
Definition field2 (fixed : bool) (lo hi : Z) (s : string) : option (Z * string) :=
  '(n, s) ← getnum fixed s; if (lo <=? n) && (n <=? hi) then Some (n, s) else None.

Definition year4 (s : string) : option (Z * string) :=
  match s with
  | String a (String b (String c (String d s'))) =>
      if isDigit a && isDigit b && isDigit c && isDigit d
      then Some (1000 * digitZ a + 100 * digitZ b + 10 * digitZ c + digitZ d, s') else None
  | _ => None
  end.

Definition numeral (s : string) : Z := Z.of_N (fst (scanDigits 0 s)).

(** [parseNanoseconds] on the digits of a fraction: those past the ninth are cut. *)
Definition nanos (ds : string) : Z :=
  let ds := stake 9 ds in numeral ds * 10 ^ (9 - Z.of_nat (len ds)).

(** An optional fraction, after a period or a comma. *)
Definition parseFraction (s : string) : Z * string :=
  match s with
  | String c s' =>
      if (c ==? "."%char) || (c ==? ","%char) then
        match digits1 s' with Some (ds, r) => (nanos ds, r) | None => (0, s) end
      else (0, s)
  | EmptyString => (0, s)
  end.

(** [Z], or a sign, hours and minutes: the offset in seconds. *)
Definition parseZone (s : string) : option (Z * string) :=
  match s with
  | String c s' =>
      if c ==? "Z"%char then Some (0, s')
      else if (c ==? "+"%char) || (c ==? "-"%char) then
        '(hh, s) ← field2 true 0 24 s';
        s ← keyword ":" s;
        '(mm, s) ← field2 true 0 60 s;
        Some ((if c ==? "-"%char then -1 else 1) * (hh * 3600 + mm * 60), s)
      else None
  | EmptyString => None
  end.

(** [time.Parse(time.RFC3339Nano, v)], as the layout is interpreted: the hour may
    have one digit, a comma may introduce the fraction. *)
Definition ParseRFC3339Nano (v : string) : option Time :=
  '(y, s) ← year4 v; s ← keyword "-" s;
  '(m, s) ← field2 true 1 12 s; s ← keyword "-" s;
  '(d, s) ← getnum true s; s ← keyword "T" s;
  '(hh, s) ← field2 false 0 23 s; s ← keyword ":" s;
  '(mm, s) ← field2 true 0 59 s; s ← keyword ":" s;
  '(ss, s) ← field2 true 0 59 s;
  let '(ns, s) := parseFraction s in
  '(off, s) ← parseZone s;
  if (s ==? "") && (1 <=? d) && (d <=? daysIn m y) then
    Some ((daysOf y m d * 86400 + hh * 3600 + mm * 60 + ss - off) * Second + ns)
  else None.

(** ** Strict RFC 3339, for JSON *)

(** The byte at a position. *)
Definition byteAt (s : string) (i : nat) : option ascii := String.get i s.

(** The last [n] bytes. *)
Definition lastBytes (n : nat) (s : string) : string := sdrop (len s - n) s.

(** [num2]: the value of two bytes, digits or not. *)
Definition num2 (s : string) : Z :=
  match s with
  | String a (String b _) => 10 * (Z.of_N (N_of_ascii a) - 48) + (Z.of_N (N_of_ascii b) - 48)
  | _ => 0
  end.

Definition yearRangeText : string := "year outside of range [0,9999]".
Definition zoneRangeText : string := "timezone hour outside of range [0,23]".

(** [appendStrictRFC3339]: four-digit years and zone hours below 24 only. *)
Definition appendStrictRFC3339 `{TimeEnv} (t : Time) : res string :=
  let b := FormatRFC3339Nano t in
  if byteAt b 4 !=? Some "-"%char then Err (ErrNew yearRangeText)
  else if lastBytes 1 b !=? "Z" then
    if match byteAt (lastBytes 6 b) 0 with Some c => isDigit c | None => false end
       || (24 <=? num2 (lastBytes 5 b))
    then Err (ErrNew zoneRangeText) else Ok b
  else Ok b.

(** [parseStrictRFC3339]: what the layout accepts, less one-digit hours, commas and
    zones out of range. *)
Definition parseStrictRFC3339 (v : string) : option Time :=
  t ← ParseRFC3339Nano v;
  if byteAt v 12 ==? Some ":"%char then None
  else if byteAt v 19 ==? Some ","%char then None
  else if lastBytes 1 v !=? "Z" then
    if (24 <=? num2 (lastBytes 5 v)) || (60 <=? num2 (lastBytes 2 v)) then None else Some t
  else Some t.

(** ** Durations as text *)

(** [d.Round(time.Second)]: half a second rounds away from zero; a result that
    overflows is the end of the range. *)
Definition RoundSecond (d : Duration) : Duration :=
  let r := Z.rem d Second in
  if d <? 0 then
    let r := - r in
    if r + r <? Second then d + r
    else let d1 := wrap64 (d - Second + r) in if d1 <? d then d1 else minInt64
  else
    if r + r <? Second then d - r
    else let d1 := wrap64 (d + Second - r) in if d <? d1 then d1 else maxInt64.

(** The unit of a duration below a second: its text and the digits after the point. *)
Definition subSecond (u : Z) : string * nat :=
  if u <? 1000 then ("ns", 0%nat)
  else if u <? 1000000 then ("µs", 3%nat)
  else ("ms", 6%nat).

(** A count of [10^-prec] units, without the zeros at the end of the fraction. *)
Definition decimal (v : Z) (prec : nat) : string :=
  let p := 10 ^ Z.of_nat prec in
  let f := trimZeros (appendDigits prec (v `mod` p)) in
  pretty (v `div` p) +:+ (if f ==? "" then "" else String "." f).

(** [d.String()]. *)
Definition DurationString (d : Duration) : string :=
  let u := Z.abs d in
  let body :=
    if u =? 0 then "0s"
    else if u <? Second then let '(unit_, prec) := subSecond u in decimal u prec +:+ unit_
    else
      let secs := u `div` Second in
      let s := decimal (u `mod` (60 * Second)) 9 +:+ "s" in
      if secs <? 60 then s
      else if secs <? 3600 then pretty (secs `div` 60) +:+ "m" +:+ s
      else pretty (secs `div` 3600) +:+ "h" +:+ pretty ((secs `div` 60) `mod` 60) +:+ "m" +:+ s in
  if d <? 0 then "-" +:+ body else body.

(** ** Reading back what was printed *)

Lemma digitZ_char k : 0 ≤ k < 10 → digitZ (pretty_N_char (Z.to_N k)) = k.
Proof. intros. unfold digitZ. rewrite pretty_N_char_val; lia. Qed.

Lemma len_appendDigits w n : len (appendDigits w n) = w.
Proof. revert n. induction w as [|w IH]; intros n; [done|]. cbn. rewrite len_app, IH. cbn. lia. Qed.

Lemma digits_appendDigits w n : all_bytes isDigit (appendDigits w n) = true.
Proof.
  revert n. induction w as [|w IH]; intros n; [done|]. cbn.
  by rewrite all_bytes_app, IH; cbn; rewrite pretty_N_char_digit.
Qed.

Lemma scan_appendDigits w n acc T :
  0 ≤ n → scanDigits acc (appendDigits w n +:+ T)
  = scanDigits (acc * 10 ^ N.of_nat w + Z.to_N (n `mod` 10 ^ Z.of_nat w)) T.
Proof.
  revert n acc T. induction w as [|w IH]; intros n acc T Hn.
  { cbn [appendDigits]. change ("" +:+ T) with T. f_equal. rewrite Z.mod_1_r. lia. }
  cbn [appendDigits]. rewrite <-string_app_assoc, string_app_cons. change ("" +:+ T) with T.
  rewrite IH by (apply Z.div_pos; lia). cbn [scanDigits].
  rewrite pretty_N_char_digit, pretty_N_char_val by (pose proof (Z.mod_pos_bound n 10); lia).
  f_equal. rewrite Nat2N.inj_succ, N.pow_succ_r', Nat2Z.inj_succ, Z.pow_succ_r by lia.
  assert (0 < 10 ^ Z.of_nat w) by (apply Z.pow_pos_nonneg; lia).
  rewrite (Z.rem_mul_r n 10 (10 ^ Z.of_nat w)) by lia.
  pose proof (Z.mod_pos_bound n 10). pose proof (Z.mod_pos_bound (n `div` 10) (10 ^ Z.of_nat w)).
  lia.
Qed.

Lemma appendInt_small n w : 0 ≤ n < 10 ^ Z.of_nat w → appendInt n w = appendDigits w n.
Proof.
  intros. unfold appendInt. destruct (Z.ltb_spec n 0); [lia|]. by rewrite (proj2 (Z.ltb_lt _ _)) by lia.
Qed.

Lemma getnum_print fixed n T : 0 ≤ n < 100 → getnum fixed (appendInt n 2 +:+ T) = Some (n, T).
Proof.
  intros Hn. rewrite appendInt_small by (cbn; lia). cbn [appendDigits].
  rewrite <-!string_app_assoc, !string_app_nil_l, !string_app_cons, !string_app_nil_l. cbn -[isDigit digitZ pretty_N_char Z.mul Z.div Z.modulo Z.to_N].
  rewrite !pretty_N_char_digit, !digitZ_char by divlia. do 2 f_equal. divlia.
Qed.

Lemma field2_print fixed lo hi n T :
  0 ≤ lo → hi < 100 → lo ≤ n ≤ hi → field2 fixed lo hi (appendInt n 2 +:+ T) = Some (n, T).
Proof.
  intros. unfold field2. rewrite getnum_print by lia. cbn.
  by rewrite !(proj2 (Z.leb_le _ _)) by lia.
Qed.

Lemma year4_print y T : 0 ≤ y ≤ 9999 → year4 (appendInt y 4 +:+ T) = Some (y, T).
Proof.
  intros Hn. rewrite appendInt_small by (cbn; lia). cbn [appendDigits].
  rewrite <-!string_app_assoc, !string_app_nil_l, !string_app_cons, !string_app_nil_l. cbn -[isDigit digitZ pretty_N_char Z.mul Z.div Z.modulo Z.to_N].
  rewrite !pretty_N_char_digit, !digitZ_char by divlia. cbn [andb]. do 2 f_equal. divlia.
Qed.

Lemma digits_app s T : all_bytes isDigit s = true → no_digit T → digits (s +:+ T) = (s, T).
Proof.
  intros Hs HT. induction s as [|c s IH].
  - change ("" +:+ T) with T. destruct T as [|c T]; [done|]. cbn in *. by rewrite HT.
  - rewrite string_app_cons. cbn in *. apply andb_true_iff in Hs as [-> Hs]. by rewrite IH.
Qed.

Lemma digits_trimZeros s : all_bytes isDigit s = true → all_bytes isDigit (trimZeros s) = true.
Proof.
  induction s as [|c s IH]; [done|]. cbn. intros [Hc Hs]%andb_true_iff.
  specialize (IH Hs). destruct (trimZeros s) as [|d t]; [case_bool_decide; [done|]; cbn; by rewrite Hc|].
  cbn. cbn in IH. by rewrite Hc, IH.
Qed.

Lemma len_trimZeros s : (len (trimZeros s) ≤ len s)%nat.
Proof.
  induction s as [|c s IH]; [done|]. cbn. destruct (trimZeros s); [case_bool_decide|]; cbn in *; lia.
Qed.

(** The zeros cut off are made up for by a power of ten. *)
Lemma scan_trimZeros s acc :
  all_bytes isDigit s = true →
  fst (scanDigits acc s)
  = (fst (scanDigits acc (trimZeros s)) * 10 ^ N.of_nat (len s - len (trimZeros s)))%N.
Proof.
  revert acc. induction s as [|c s IH]; intros acc; cbn [all_bytes]; [cbn; lia|].
  intros [Hc Hs]%andb_true_iff. cbn [scanDigits trimZeros len]. rewrite Hc, IH by done.
  pose proof (len_trimZeros s) as Hl.
  destruct (trimZeros s) as [|d t] eqn:E; [case_bool_decide as E0|].
  - subst c. cbn [scanDigits fst len]. change (digit_val "0") with 0%N.
    rewrite !Nat.sub_0_r, Nat2N.inj_succ, N.pow_succ_r'. lia.
  - cbn [scanDigits fst len]. rewrite Hc. cbn [fst]. do 3 f_equal; lia.
  - cbn [scanDigits len]. rewrite Hc. do 3 f_equal. 
Qed.

Lemma fraction_print ns T :
  0 ≤ ns < Second → no_digit T →
  match T with String c _ => c ≠ "."%char ∧ c ≠ ","%char | EmptyString => True end →
  parseFraction (fraction ns +:+ T) = (ns, T).
Proof.
  intros Hns HT Hsep. unfold fraction. destruct (Z.eqb_spec ns 0) as [->|Hz].
  { change ("" +:+ T) with T. destruct T as [|c T]; [done|]. cbn.
    by rewrite !bool_decide_eq_false_2 by naive_solver. }
  rewrite string_app_cons. cbn [parseFraction]. rewrite bool_decide_eq_true_2 by done. cbn [orb].
  set (ds := appendDigits 9 ns).
  assert (fst (scanDigits 0 ds) = Z.to_N ns) as Hv.
  { rewrite <-(string_app_nil_r ds). unfold ds. rewrite scan_appendDigits by lia. cbn [scanDigits fst].
    rewrite Z.mod_small by (unfold Second in *; cbn; lia). lia. }
  pose proof (digits_appendDigits 9 ns) as Hd. pose proof (len_appendDigits 9 ns) as Hl.
  fold ds in Hd, Hl. rewrite (scan_trimZeros _ _ Hd) in Hv. pose proof (len_trimZeros ds) as Ht.
  unfold digits1. rewrite digits_app by (by try apply digits_trimZeros).
  destruct (decide (trimZeros ds = "")) as [E|E].
  { rewrite E in Hv. cbn in Hv. lia. }
  rewrite bool_decide_eq_false_2 by done. cbv zeta. f_equal. unfold nanos, numeral.
  rewrite stake_ge by lia. rewrite Hl in Hv.
  replace (9 - Z.of_nat (len (trimZeros ds))) with (Z.of_N (N.of_nat (9 - len (trimZeros ds)))) by lia.
  change 10 with (Z.of_N 10) at 1. rewrite <-N2Z.inj_pow, <-N2Z.inj_mul, Hv. lia.
Qed.

(** ** The round trip *)

Lemma no_digit_zone off T : no_digit (zoneText off +:+ T)
  ∧ match zoneText off +:+ T with
    | String c _ => c ≠ "."%char ∧ c ≠ ","%char | EmptyString => True end.
Proof.
  unfold zoneText. destruct (off =? 0); [done|]. by destruct (Z.quot off 60 <? 0).
Qed.

(** A sign and the hours and minutes of [k] minutes. *)
Lemma signed_print (c : ascii) k :
  c ≠ "Z"%char → (c ==? "+"%char) || (c ==? "-"%char) = true → 0 ≤ k < 1440 →
  parseZone (String c "" +:+ appendInt (k `div` 60) 2 +:+ ":" +:+ appendInt (k `mod` 60) 2)
  = Some ((if c ==? "-"%char then -1 else 1) * (60 * k), "").
Proof.
  intros Hz Hc Hk. rewrite string_app_cons, string_app_nil_l. cbn [parseZone].
  rewrite (bool_decide_eq_false_2 (c = "Z"%char)), Hc by done. cbn [mbind option_bind].
  rewrite field2_print by divlia. cbn [mbind option_bind].
  rewrite string_app_cons, string_app_nil_l. cbn [keyword mbind option_bind].
  rewrite (bool_decide_eq_true_2 (":"%char = ":"%char)) by done. cbn [mbind option_bind].
  rewrite <-(string_app_nil_r (appendInt _ _)), field2_print by divlia. cbn [mbind option_bind].
  do 3 f_equal. divlia.
Qed.

Lemma zone_print off :
  off `mod` 60 = 0 → -86400 < off < 86400 → parseZone (zoneText off) = Some (off, "").
Proof.
  intros Hm Hr. unfold zoneText. destruct (Z.eqb_spec off 0) as [->|Hz]; [done|].
  assert (∃ k, off = k * 60) as [k ->] by (exists (off `div` 60); divlia).
  rewrite Z.quot_mul by lia.
  destruct (Z.ltb_spec k 0).
  - rewrite (signed_print "-") by (done || lia). do 2 f_equal.
    rewrite bool_decide_eq_true_2 by done. lia.
  - rewrite (signed_print "+") by (done || lia). do 2 f_equal.
    rewrite bool_decide_eq_false_2 by done. lia.
Qed.

Section roundtrip.
Context `{TimeEnv}.

(** A time RFC 3339 can express: a four-digit year where it is printed, in a zone of
    whole minutes less than a day away from UTC. *)
Definition representable (t : Time) : Prop :=
  0 ≤ fst (fst (dateOf (local t `div` (86400 * Second)))) ≤ 9999
  ∧ zoneOffset t `mod` 60 = 0 ∧ -86400 < zoneOffset t < 86400.

Lemma daysIn_le m y : daysIn m y ≤ 31.
Proof.
  unfold daysIn. destruct (monthLengths (isLeap y) !! _) as [l|] eqn:El; cbn; [|lia].
  assert (Forall (λ l, l ≤ 31) (monthLengths (isLeap y))) as Hall
    by (unfold monthLengths; repeat constructor; destruct (isLeap y); lia).
  exact (Forall_lookup_1 _ _ _ _ Hall El).
Qed.

Lemma keyword1 c T : keyword (String c "") (String c "" +:+ T) = Some T.
Proof. rewrite string_app_cons, string_app_nil_l. cbn [keyword]. by rewrite bool_decide_eq_true_2. Qed.

Lemma Parse_Format t : representable t → ParseRFC3339Nano (FormatRFC3339Nano t) = Some t.
Proof.
  intros (Hy & Hm & Ho). unfold FormatRFC3339Nano, dateText, clockText.
  destruct (dateOf _) as [[y m] d] eqn:E. cbn [fst] in Hy.
  destruct (dateOf_spec _ _ _ _ E) as (Hd & Hmo & Hda).
  pose proof (daysIn_le m y) as H31.
  set (s := (local t `div` Second) `mod` 86400).
  assert (0 ≤ s < 86400) as Hs by (unfold s; divlia).
  rewrite <-!string_app_assoc. unfold ParseRFC3339Nano.
  rewrite year4_print by lia. cbn [mbind option_bind]. rewrite keyword1. cbn [mbind option_bind].
  rewrite field2_print by lia. cbn [mbind option_bind]. rewrite keyword1. cbn [mbind option_bind].
  rewrite getnum_print by lia. cbn [mbind option_bind]. rewrite keyword1. cbn [mbind option_bind].
  rewrite field2_print by divlia. cbn [mbind option_bind]. rewrite keyword1. cbn [mbind option_bind].
  rewrite field2_print by divlia. cbn [mbind option_bind]. rewrite keyword1. cbn [mbind option_bind].
  rewrite field2_print by divlia. cbn [mbind option_bind].
  destruct (no_digit_zone (zoneOffset t) "") as [Hn1 Hn2]. rewrite string_app_nil_r in Hn1, Hn2.
  rewrite fraction_print by (done || (unfold Second; divlia)).
  rewrite zone_print by done. cbn [mbind option_bind].
  rewrite !(proj2 (Z.leb_le _ _)) by lia. cbn [andb]. rewrite bool_decide_eq_true_2 by done.
  cbn [andb]. f_equal. rewrite Hd, (Z.mul_comm 86400), <-Z.div_div by (unfold Second; lia).
  assert (local t `div` Second
    = (local t `div` Second) `div` 86400 * 86400 + s `div` 3600 * 3600
      + (s `div` 60) `mod` 60 * 60 + s `mod` 60) as <- by (unfold s; clear; divlia).
  pose proof (Z.div_mod (local t) Second). unfold local, Second in *. lia.
Qed.

(** Four digits and a dash make a number below ten thousand. *)
Lemma year4_dash v y s s' :
  year4 v = Some (y, s) → keyword "-" s = Some s' →
  ∃ n r, scanDigits 0 v = (n, r) ∧ (n < 10000)%N.
Proof.
  destruct v as [|a [|b [|c [|d v]]]]; try done. cbn [year4].
  destruct (isDigit a && isDigit b && isDigit c && isDigit d) eqn:Hd; [|done].
  intros [= _ ->]. destruct s as [|e s]; [done|]. cbn [keyword]. case_bool_decide as He; [|done].
  subst e. intros _. boolify.
  assert (∀ x, isDigit x = true → digit_val x ≤ 9)%N as Hdig.
  { intros x. unfold isDigit, in_range, digit_val. cbn. intros [_ Hx]%andb_true_iff.
    apply N.leb_le in Hx. lia. }
  pose proof (Hdig a ltac:(done)). pose proof (Hdig b ltac:(done)).
  pose proof (Hdig c ltac:(done)). pose proof (Hdig d ltac:(done)).
  eexists _, _. cbn [scanDigits]. repeat match goal with H : isDigit _ = true |- _ => rewrite H end.
  split; [done|]. lia.
Qed.

(** In zones of whole minutes a printed time is read back exactly or, when its year has
    not four digits, refused. *)
Lemma Parse_Format_exact t t' :
  zoneOffset t `mod` 60 = 0 → -86400 < zoneOffset t < 86400 →
  ParseRFC3339Nano (FormatRFC3339Nano t) = Some t' → t' = t.
Proof.
  intros Hm Ho Hp.
  destruct (decide (0 ≤ fst (fst (dateOf (local t `div` (86400 * Second)))) ≤ 9999)) as [Hy|Hy].
  { rewrite Parse_Format in Hp by done. congruence. }
  exfalso. revert Hp. unfold FormatRFC3339Nano, dateText.
  destruct (dateOf _) as [[y m] d]. cbn [fst] in Hy. rewrite <-!string_app_assoc.
  set (T := appendInt m 2 +:+ _). unfold ParseRFC3339Nano.
  destruct (year4 (appendInt y 4 +:+ "-" +:+ T)) as [[y' s1]|] eqn:E1; [|done].
  cbn [mbind option_bind]. destruct (keyword "-" s1) as [s2|] eqn:E2; [|done]. intros _.
  destruct (year4_dash _ _ _ _ E1 E2) as (n & r & Es & Hn). revert E1 Es.
  unfold appendInt. destruct (Z.ltb_spec y 0).
  { intros E1 _. rewrite <-string_app_assoc, string_app_cons in E1. revert E1.
    match goal with |- year4 (String _ ?u) = _ → _ => generalize u end.
    intros [|b1 [|b2 [|b3 u]]]; done. }
  destruct (Z.ltb_spec y (10 ^ Z.of_nat 4)); [cbn in *; lia|]. intros _.
  rewrite <-(Z2N.id y) by lia. unfold pretty, pretty_Z. destruct (Z.of_N (Z.to_N y)) as [|p|p] eqn:Ep; [cbn in *; lia| |lia].
  change (pretty p) with (pretty (N.pos p)).
  rewrite scanDigits_pretty by done. intros [= <- <-]. cbn in *. lia.
Qed.

(** ** The strict variants *)

(** Two digits, and their value. *)
Lemma appendInt_2 n :
  0 ≤ n < 100 →
  ∃ a b, appendInt n 2 = String a (String b "") ∧ isDigit a = true ∧ isDigit b = true
    ∧ num2 (String a (String b "")) = n.
Proof.
  intros Hn. rewrite appendInt_small by (cbn; lia). cbn [appendDigits].
  rewrite string_app_nil_l, string_app_cons, string_app_nil_l.
  eexists _, _. split; [done|]. rewrite !pretty_N_char_digit. split_and!; [done..|].
  assert (∀ k, 0 ≤ k < 10 → Z.of_N (N_of_ascii (pretty_N_char (Z.to_N k))) - 48 = k) as Hv.
  { intros k Hk. destruct k as [|p|p]; [done| |lia].
    do 4 (destruct p as [p|p|]; try done; try lia). }
  cbn [num2]. rewrite !Hv by divlia. divlia.
Qed.

Lemma appendInt_4 y : 0 ≤ y ≤ 9999 →
  ∃ a b c d, appendInt y 4 = String a (String b (String c (String d ""))).
Proof.
  intros Hy. rewrite appendInt_small by (cbn; lia). pose proof (len_appendDigits 4 y) as Hl.
  destruct (appendDigits 4 y) as [|a [|b [|c [|d [|]]]]]; try done. by eexists _, _, _, _.
Qed.

Lemma lastBytes_app a b : lastBytes (len b) (a +:+ b) = b.
Proof. unfold lastBytes. rewrite len_app, Nat.add_sub. apply sdrop_app_len. Qed.

(** The zone of a printed time, and what the strict checks see of it. *)
Lemma zoneText_strict off P :
  off `mod` 60 = 0 → -86400 < off < 86400 →
  let b := P +:+ zoneText off in
  lastBytes 1 b = "Z"
  ∨ byteAt (lastBytes 6 b) 0 ≠ None ∧ (∀ c, byteAt (lastBytes 6 b) 0 = Some c → isDigit c = false)
    ∧ num2 (lastBytes 5 b) < 24 ∧ num2 (lastBytes 2 b) < 60.
Proof.
  intros Hm Hr. cbv zeta. unfold zoneText. destruct (Z.eqb_spec off 0) as [->|Hz].
  { left. apply (lastBytes_app P "Z"). }
  assert (∃ k, off = k * 60) as [k ->] by (exists (off `div` 60); divlia).
  rewrite Z.quot_mul by lia. right.
  assert (∃ sg j, (if k <? 0 then ("-", - k) else ("+", k)) = (String sg "", j)
    ∧ isDigit sg = false ∧ 0 ≤ j < 1440) as (sg & j & -> & Hsg & Hj)
    by (destruct (Z.ltb_spec k 0); eexists _, _; (split; [done|]); (split; [done|]); lia).
  destruct (appendInt_2 (j `div` 60) ltac:(divlia)) as (a & b & -> & _ & _ & Hab).
  destruct (appendInt_2 (j `mod` 60) ltac:(divlia)) as (c & d & -> & _ & _ & Hcd).
  repeat rewrite ?string_app_cons, ?string_app_nil_l.
  set (z := String sg (String a (String b (String ":" (String c (String d "")))))).
  rewrite (lastBytes_app P z : lastBytes 6 _ = _).
  assert (P +:+ z = (P +:+ String sg "") +:+ String a (String b (String ":" (String c (String d "")))))
    as E5 by (by rewrite <-string_app_assoc, string_app_cons, string_app_nil_l).
  assert (P +:+ z = (P +:+ String sg (String a (String b ":"))) +:+ String c (String d ""))
    as E2 by (by rewrite <-string_app_assoc, !string_app_cons, string_app_nil_l).
  rewrite E5 at 1. rewrite (lastBytes_app _ (String a (String b (String ":" (String c (String d ""))))) : lastBytes 5 _ = _).
  rewrite E2, (lastBytes_app _ (String c (String d "")) : lastBytes 2 _ = _).
  cbn [num2] in *. split_and!; [done|by intros ? [= <-]|divlia|divlia].
Qed.

(** The date and time of day of a printed time are 19 bytes; none of those the strict
    checks look at is out of place. *)
Lemma Format_strict t :
  representable t →
  ∃ P, FormatRFC3339Nano t = P +:+ zoneText (zoneOffset t)
    ∧ byteAt (FormatRFC3339Nano t) 4 = Some "-"%char
    ∧ byteAt (FormatRFC3339Nano t) 12 ≠ Some ":"%char
    ∧ byteAt (FormatRFC3339Nano t) 19 ≠ Some ","%char.
Proof.
  intros (Hy & Hm & Ho). unfold FormatRFC3339Nano, dateText, clockText.
  destruct (dateOf _) as [[y m] d] eqn:E. cbn [fst] in Hy.
  destruct (dateOf_spec _ _ _ _ E) as (_ & Hmo & Hda).
  assert (1 ≤ d ≤ 31) as Hd31 by (split; [lia|]; etrans; [apply Hda|apply daysIn_le]).
  set (s := (local t `div` Second) `mod` 86400).
  assert (0 ≤ s < 86400) as Hs by (unfold s; divlia).
  destruct (appendInt_4 y ltac:(lia)) as (y1 & y2 & y3 & y4 & ->).
  destruct (appendInt_2 m ltac:(lia)) as (m1 & m2 & -> & _).
  destruct (appendInt_2 d ltac:(lia)) as (d1 & d2 & -> & _).
  destruct (appendInt_2 (s `div` 3600) ltac:(divlia)) as (h1 & h2 & -> & _ & Hh2 & _).
  destruct (appendInt_2 ((s `div` 60) `mod` 60) ltac:(divlia)) as (n1 & n2 & -> & _).
  destruct (appendInt_2 (s `mod` 60) ltac:(divlia)) as (s1 & s2 & -> & _).
  eexists. split; [by rewrite !string_app_assoc|].
  repeat rewrite ?string_app_cons, ?string_app_nil_l. split_and!; [done| |].
  - cbn. intros [= ->]. done.
  - cbn. unfold fraction. destruct (_ =? 0).
    + rewrite string_app_nil_l. pose proof (no_digit_zone (zoneOffset t) "") as [_ Hn].
      rewrite string_app_nil_r in Hn. destruct (zoneText _); [done|]. cbn. naive_solver.
    + by rewrite string_app_cons.
Qed.

Lemma appendStrict_representable t :
  representable t → appendStrictRFC3339 t = Ok (FormatRFC3339Nano t).
Proof.
  intros Hr. destruct (Format_strict t Hr) as (P & HP & H4 & _). destruct Hr as (_ & Hm & Ho).
  unfold appendStrictRFC3339. rewrite H4. rewrite bool_decide_eq_true_2 by done. cbn [negb].
  rewrite HP. destruct (zoneText_strict _ P Hm Ho) as [->|(Hn & Hd & H5 & _)]; [done|].
  rewrite (proj2 (Z.leb_gt _ _)) by lia. destruct (byteAt (lastBytes 6 _) 0) as [c|]; [|done].
  rewrite (Hd c eq_refl). by case_match.
Qed.

Lemma parseStrict_Format t : representable t → parseStrictRFC3339 (FormatRFC3339Nano t) = Some t.
Proof.
  intros Hr. unfold parseStrictRFC3339. rewrite Parse_Format by done. cbn [mbind option_bind].
  destruct (Format_strict t Hr) as (P & HP & _ & H12 & H19). destruct Hr as (_ & Hm & Ho).
  rewrite !(bool_decide_eq_false_2 (byteAt _ _ = _)) by done. rewrite HP.
  destruct (zoneText_strict _ P Hm Ho) as [->|(_ & _ & H5 & H2)]; [done|].
  rewrite !(proj2 (Z.leb_gt _ _)) by lia. by case_match.
Qed.

End roundtrip.

(** A process in UTC. *)
Definition sample_time : TimeEnv := {| zoneOffset := λ _, 0; parseErrorText := λ v, v |}.
