(* ===== verification/Strconv.v ===== *)
(** * Reading numbers

    [strconv.ParseInt] in base 0, [strconv.ParseFloat] and [time.ParseDuration], which
    the [flag] package reads the values of hairpin's flags with. *)

From stdpp Require Import base list strings.
From Stdlib Require Import Ascii SpecFloat.
From S2P Require Import Prelude Float Utf8 Fmt Net.

(** [strconv.ErrSyntax] and [strconv.ErrRange]. *)
Inductive numError := ErrSyntax | ErrRange.

(** [lower(c)]: the bit that makes an ASCII letter lower case is set. *)
Definition lowerByte (c : ascii) : N := N.lor (N_of_ascii c) 32.

Definition isByte (c : ascii) (d : ascii) : bool := (lowerByte c =? N_of_ascii d)%N.

(** ** Underscores

    Underscores separate digits; a base prefix counts as a digit. *)

Inductive underscoreState := usStart | usDigit | usUnderscore | usOther.

Fixpoint underscoreLoop (hex : bool) (st : underscoreState) (s : string) : bool :=
  match s with
  | EmptyString => match st with usUnderscore => false | _ => true end
  | String c s' =>
      if isDigit c || (hex && in_range "a" "f" (ascii_of_N (lowerByte c)))
      then underscoreLoop hex usDigit s'
      else if c ==? "_"%char then
        match st with usDigit => underscoreLoop hex usUnderscore s' | _ => false end
      else match st with usUnderscore => false | _ => underscoreLoop hex usOther s' end
  end.

(** A leading sign. *)
Definition takeSign (s : string) : bool * string :=
  match s with
  | String "-" s' => (true, s')
  | String "+" s' => (false, s')
  | _ => (false, s)
  end.

Definition underscoreOK (s : string) : bool :=
  let s := snd (takeSign s) in
  match s with
  | String "0" (String b s') =>
      if isByte b "b" || isByte b "o" || isByte b "x"
      then underscoreLoop (isByte b "x") usDigit s'
      else underscoreLoop false usStart s
  | _ => underscoreLoop false usStart s
  end.

(** ** Integers *)

Definition maxUint64 : N := 2 ^ 64 - 1.

(** The value of a digit in bases up to 36. *)
Definition digitValue (c : ascii) : option N :=
  if isDigit c then Some (digit_val c)
  else if (97 <=? lowerByte c)%N && (lowerByte c <=? 122)%N then Some (lowerByte c - 97 + 10)%N
  else None.

(** The loop of [ParseUint] in base 0: the number so far, in [uint64], and whether an
    underscore was seen. *)
Fixpoint uintLoop (base n : N) (underscores : bool) (s : string) : numError + N * bool :=
  match s with
  | EmptyString => inr (n, underscores)
  | String c s' =>
      if c ==? "_"%char then uintLoop base n true s'
      else
        match digitValue c with
        | None => inl ErrSyntax
        | Some d =>
            if (base <=? d)%N then inl ErrSyntax
            else if (maxUint64 / base + 1 <=? n)%N then inl ErrRange
            else
              let n := (n * base)%N in
              let n1 := ((n + d) `mod` 2 ^ 64)%N in
              if (n1 <? n)%N then inl ErrRange else uintLoop base n1 underscores s'
        end
  end.

(** The base a literal's prefix stands for, and its digits. *)
Definition basePrefix (s : string) : N * string :=
  match s with
  | String "0" s1 =>
      match s1 with
      | String b (String c s2) =>
          if isByte b "b" then (2%N, String c s2)
          else if isByte b "o" then (8%N, String c s2)
          else if isByte b "x" then (16%N, String c s2)
          else (8%N, s1)
      | _ => (8%N, s1)
      end
  | _ => (10%N, s)
  end.

(** [strconv.ParseUint(s, 0, 64)]. *)
Definition ParseUint (s : string) : numError + N :=
  if s ==? "" then inl ErrSyntax
  else
    let '(base, digits) := basePrefix s in
    match uintLoop base 0 false digits with
    | inl e => inl e
    | inr (n, underscores) => if underscores && negb (underscoreOK s) then inl ErrSyntax else inr n
    end.

(** [strconv.ParseInt(s, 0, 64)]. *)
Definition ParseInt (s : string) : numError + Z :=
  if s ==? "" then inl ErrSyntax
  else
    let '(neg, s) := takeSign s in
    match ParseUint s with
    | inl e => inl e
    | inr un =>
        if negb neg && (2 ^ 63 <=? un)%N then inl ErrRange
        else if neg && (2 ^ 63 <? un)%N then inl ErrRange
        else inr (if neg then - Z.of_N un else Z.of_N un)%Z
    end.

(** ** Floating-point numbers *)

(** [c] in lower case, of an ASCII letter only. *)
Definition toLower (c : ascii) : ascii :=
  if in_range "A" "Z" c then ascii_of_N (N_of_ascii c + 32) else c.

Fixpoint lowercase (s : string) : string :=
  match s with EmptyString => "" | String c s' => String (toLower c) (lowercase s') end.

(** The values that are no numerals, of a whole string. *)
Definition specialFloat (s : string) : option spec_float :=
  let '(neg, body) := takeSign s in
  let l := lowercase body in
  if (l ==? "inf") || (l ==? "infinity") then Some (S754_infinity neg)
  else if lowercase s ==? "nan" then Some S754_nan
  else None.

(** The mantissa's digits: their value, how many followed the point, whether there was any
    and an underscore among them, and the rest. *)
Record mantissa := mkMantissa {
  mt_value : N;
  mt_frac : Z;
  mt_dot : bool;
  mt_digits : bool;
  mt_underscores : bool;
}.

Fixpoint readMantissa (base : N) (m : mantissa) (s : string) : mantissa * string :=
  let 'mkMantissa v f dot ds us := m in
  match s with
  | EmptyString => (m, "")
  | String c s' =>
      if c ==? "_"%char then readMantissa base (mkMantissa v f dot ds true) s'
      else if c ==? "."%char then
        if dot then (m, s) else readMantissa base (mkMantissa v f true ds us) s'
      else
        match digitValue c with
        | Some d =>
            if (d <? base)%N
            then readMantissa base (mkMantissa (v * base + d) (if dot then f + 1 else f)%Z dot true us) s'
            else (m, s)
        | None => (m, s)
        end
  end.

(** The exponent's digits: large ones are cut short. *)
Fixpoint readExponent (e : Z) (underscores : bool) (s : string) : Z * bool * string :=
  match s with
  | EmptyString => (e, underscores, "")
  | String c s' =>
      if c ==? "_"%char then readExponent e true s'
      else if isDigit c then
        readExponent (if (e <? 10000)%Z then e * 10 + Z.of_N (digit_val c) else e)%Z underscores s'
      else (e, underscores, s)
  end.

(** The float nearest to [m * 10^e] and to [m * 2^e]. *)
Definition ofDecimal (neg : bool) (m : N) (e : Z) : spec_float :=
  match m with
  | N0 => S754_zero neg
  | Npos p =>
      if (0 <=? e)%Z then binary_normalize prec emax (cond_Zopp neg (Zpos p * 10 ^ e)) 0 neg
      else SFdiv prec emax (S754_finite neg p 0) (S754_finite false (Z.to_pos (10 ^ (- e))) 0)
  end.

Definition ofBinary (neg : bool) (m : N) (e : Z) : spec_float :=
  binary_normalize prec emax (cond_Zopp neg (Z.of_N m)) e neg.

(** [strconv.ParseFloat(s, 64)]. *)
Definition ParseFloat (s : string) : numError + spec_float :=
  match specialFloat s with
  | Some f => inr f
  | None =>
      let '(neg, body) := takeSign s in
      let '(hex, digits) :=
        match body with
        | String "0" (String x (String c s')) =>
            if isByte x "x" then (true, String c s') else (false, body)
        | _ => (false, body)
        end in
      let '(m, rest) :=
        readMantissa (if hex : bool then 16 else 10)%N (mkMantissa 0 0 false false false) digits in
      if negb (mt_digits m) then inl ErrSyntax
      else
        let finish (e : Z) (underscores : bool) :=
          if underscores && negb (underscoreOK s) then inl ErrSyntax
          else
            let f := if hex then ofBinary neg (mt_value m) (e - 4 * mt_frac m)
                     else ofDecimal neg (mt_value m) (e - mt_frac m) in
            match f with S754_infinity _ => inl ErrRange | _ => inr f end in
        match rest with
        | EmptyString => if hex then inl ErrSyntax else finish 0%Z (mt_underscores m)
        | String c rest' =>
            if isByte c (if hex then "p" else "e")%char then
              let '(eneg, es) := takeSign rest' in
              match es with
              | String d _ =>
                  if isDigit d then
                    let '(e, us, rest'') := readExponent 0 (mt_underscores m) es in
                    if rest'' ==? "" then finish (if eneg then - e else e)%Z us else inl ErrSyntax
                  else inl ErrSyntax
              | EmptyString => inl ErrSyntax
              end
            else inl ErrSyntax
        end
  end.

(** ** Durations *)

(** [leadingInt]: the digits at the front, unless they pass [2^63]. *)
Fixpoint leadingInt (x : Z) (s : string) : option (Z * string) :=
  match s with
  | EmptyString => Some (x, "")
  | String c s' =>
      if isDigit c then
        if (2 ^ 63 / 10 <? x)%Z then None
        else
          let x := (x * 10 + Z.of_N (digit_val c))%Z in
          if (2 ^ 63 <? x)%Z then None else leadingInt x s'
      else Some (x, s)
  end.

(** [leadingFraction]: digits that no longer fit are dropped. *)
Fixpoint leadingFraction (x : Z) (scale : spec_float) (overflow : bool) (s : string)
  : Z * spec_float * string :=
  match s with
  | EmptyString => (x, scale, "")
  | String c s' =>
      if isDigit c then
        if overflow then leadingFraction x scale true s'
        else if ((2 ^ 63 - 1) / 10 <? x)%Z then leadingFraction x scale true s'
        else
          let y := (x * 10 + Z.of_N (digit_val c))%Z in
          if (2 ^ 63 <? y)%Z then leadingFraction x scale true s'
          else leadingFraction y (SFmul prec emax scale (ofInt 10)) false s'
      else (x, scale, s)
  end.

(** [unitMap]; the micro sign comes as U+00B5 or U+03BC. *)
Definition unitOf (u : string) : option Z :=
  if u ==? "ns" then Some 1%Z
  else if (u ==? "us") || (u ==? String "194" (String "181" "s")) || (u ==? String "206" (String "188" "s"))
  then Some 1000%Z
  else if u ==? "ms" then Some Millisecond
  else if u ==? "s" then Some Second
  else if u ==? "m" then Some Minute
  else if u ==? "h" then Some Hour
  else None.

(** The bytes up to the next digit or point. *)
Fixpoint spanUnit (s : string) : string * string :=
  match s with
  | EmptyString => ("", "")
  | String c s' =>
      if (c ==? "."%char) || isDigit c then ("", s)
      else let '(u, r) := spanUnit s' in (String c u, r)
  end.

(** One number with its unit, in nanoseconds. *)
Definition durationTerm (s : string) : option (Z * string) :=
  match s with
  | EmptyString => None
  | String c _ =>
      if negb ((c ==? "."%char) || isDigit c) then None
      else
        '(v, s1) ← leadingInt 0 s;
        let pre := negb (len s1 =? len s) in
        let '(f, scale, post, s2) :=
          match s1 with
          | String "." s1' =>
              let '(f, scale, s2) := leadingFraction 0 (ofInt 1) false s1' in
              (f, scale, negb (len s2 =? len s1'), s2)
          | _ => (0%Z, ofInt 1, false, s1)
          end in
        if negb pre && negb post then None
        else
          let '(u, s3) := spanUnit s2 in
          if u ==? "" then None
          else
            unit ← unitOf u;
            if (2 ^ 63 / unit <? v)%Z then None
            else
              let v := (v * unit)%Z in
              if (0 <? f)%Z then
                let v := (v + truncate (SFmul prec emax (ofInt f) (SFdiv prec emax (ofInt unit) scale)))%Z in
                if (2 ^ 63 <? v)%Z then None else Some (v, s3)
              else Some (v, s3)
  end.

(** The loop, its sum in [uint64]: every round takes at least a byte. *)
Fixpoint durationLoop (fuel : nat) (d : Z) (s : string) : option Z :=
  match fuel with
  | 0 => None
  | S fuel' =>
      if s ==? "" then Some d
      else
        '(v, s') ← durationTerm s;
        let d := ((d + v) `mod` 2 ^ 64)%Z in
        if (2 ^ 63 <? d)%Z then None else durationLoop fuel' d s'
  end.

(** [time.ParseDuration]; every error is the same to the [flag] package. *)
Definition ParseDuration (s : string) : option Duration :=
  let '(neg, body) := takeSign s in
  if body ==? "0" then Some 0%Z
  else if body ==? "" then None
  else
    d ← durationLoop (S (len body)) 0 body;
    if neg : bool then Some (- d)%Z
    else if (2 ^ 63 - 1 <? d)%Z then None else Some d.

(** ** Examples *)

Example ParseInt_forms :
  ParseInt <$> ["3600"; "0x10"; "0o17"; "-0b101"; "017"; "1_000"; "0_7"; "_1"; "9223372036854775808"; "08"; ""]
  = [inr 3600; inr 16; inr 15; inr (-5); inr 15; inr 1000; inr 7; inl ErrSyntax; inl ErrRange;
     inl ErrSyntax; inl ErrSyntax]%Z.
Proof. vm_compute. reflexivity. Qed.

Example ParseFloat_forms :
  ParseFloat <$> ["1"; "0.25"; "1e-1"; "0x1p-2"; "1e400"; ".5."; "Inf"; "-0"]
  = [inr (ofInt 1); inr (S754_finite false 4503599627370496 (-54));
     inr (S754_finite false 7205759403792794 (-56)); inr (S754_finite false 4503599627370496 (-54));
     inl ErrRange; inl ErrSyntax; inr (S754_infinity false); inr (S754_zero true)].
Proof. vm_compute. reflexivity. Qed.

Example ParseDuration_forms :
  ParseDuration <$> ["0"; "15m"; "1h2m3.5s"; "-1.5ms"; "1"; "10x"; ".s"; "2562047h47m16.854775807s";
    "2562047h47m16.854775808s"; "-2562047h47m16.854775808s"]
  = [Some 0; Some (15 * Minute); Some (Hour + 2 * Minute + 3500 * Millisecond); Some (-1500000);
     None; None; None; Some (2 ^ 63 - 1); None; Some (- 2 ^ 63)]%Z.
Proof. vm_compute. reflexivity. Qed.
