(* ===== verification/Flags.v ===== *)
(** * Flag sets

    The [flag] package as [src/cmd/hairpin/] uses it: sets of string, [int], duration and
    [float64] flags bound to variables, parsed with [ContinueOnError].  A flag is bound
    to a part of a record of all the variables.  What a failed parse prints besides its error
    is not modelled. *)

From stdpp Require Import base list strings.
From Stdlib Require Import Ascii SpecFloat.
From S2P Require Import Prelude Float Utf8 Fmt Net Strconv.

(** ** Flags *)

(** A variable: a part of the record that can be read and assigned. *)
Record variable (T A : Type) := mkVariable { var_get : T → A; var_set : A → T → T }.
Arguments mkVariable {T A}.
Arguments var_get {T A}.
Arguments var_set {T A}.

(** The [Value] of a flag: its kind, with the variable it is bound to. *)
Inductive Value (T : Type) :=
  | stringValue (v : variable T string)
  | intValue (v : variable T Z)
  | durationValue (v : variable T Duration)
  | float64Value (v : variable T spec_float).
Arguments stringValue {T}.
Arguments intValue {T}.
Arguments durationValue {T}.
Arguments float64Value {T}.

(** What a flag can hold. *)
Inductive setting :=
  | SString (s : string)
  | SInt (z : Z)
  | SDuration (d : Duration)
  | SFloat (f : spec_float).

Record Flag (T : Type) := mkFlag { fl_name : string; fl_value : Value T }.
Arguments mkFlag {T}.
Arguments fl_name {T}.
Arguments fl_value {T}.

Definition errParse : error := ErrNew "parse error".
Definition errRange : error := ErrNew "value out of range".
Definition ErrHelp : error := ErrNew "flag: help requested".

(** [numError]. *)
Definition numErr {A} (r : numError + A) : res A :=
  match r with
  | inl ErrSyntax => Err errParse
  | inl ErrRange => Err errRange
  | inr a => Ok a
  end.

Section flagset.
Context `{UnicodeTables} {T : Type}.
Implicit Types (t : T) (fs : list (Flag T)).

(** The text of a value, read by the kind of the flag. *)
Definition readSetting (v : Value T) (s : string) : res setting :=
  match v with
  | stringValue _ => Ok (SString s)
  | intValue _ => z ← numErr (ParseInt s); Ok (SInt z)
  | durationValue _ => match ParseDuration s with Some d => Ok (SDuration d) | None => Err errParse end
  | float64Value _ => f ← numErr (ParseFloat s); Ok (SFloat f)
  end.

Definition assign (v : Value T) (x : setting) t : T :=
  match v, x with
  | stringValue v, SString s => var_set v s t
  | intValue v, SInt z => var_set v z t
  | durationValue v, SDuration d => var_set v d t
  | float64Value v, SFloat f => var_set v f t
  | _, _ => t
  end.

Definition holding (v : Value T) t : setting :=
  match v with
  | stringValue v => SString (var_get v t)
  | intValue v => SInt (var_get v t)
  | durationValue v => SDuration (var_get v t)
  | float64Value v => SFloat (var_get v t)
  end.

(** [f.formal[name]]. *)
Definition formal fs (name : string) : option (Flag T) := snd <$> list_find (λ f, fl_name f = name) fs.

(** [flag.Value.Set(value)], and the error of the parse if it fails. *)
Definition setFlag (f : Flag T) (name value : string) t : res T :=
  match readSetting (fl_value f) value with
  | Ok x => Ok (assign (fl_value f) x t)
  | Err e => Err (ErrNew ("invalid value " +:+ Quote value +:+ " for flag -" +:+ name +:+ ": " +:+ Error e))
  end.

(** ** Parsing *)

(** What one argument is. *)
Inductive argument :=
  | Positional                                       (** not a flag: parsing stops before it *)
  | Terminator                                       (** [--]: parsing stops after it *)
  | BadSyntax
  | Named (name : string) (value : option string).   (** with what follows an equals sign *)

(** The name up to the first equals sign that is not its first byte. *)
Definition splitName (s : string) : argument :=
  match s with
  | EmptyString => BadSyntax
  | String c s' =>
      if (c ==? "-"%char) || (c ==? "="%char) then BadSyntax
      else
        match IndexByte s' "="%char with
        | None => Named s None
        | Some i => Named (String c (stake i s')) (Some (sdrop (S i) s'))
        end
  end.

Definition classify (s : string) : argument :=
  match s with
  | String "-" (String c s') =>
      if c ==? "-"%char then if s' ==? "" then Terminator else splitName s'
      else splitName (String c s')
  | _ => Positional
  end.

(** [fs.Parse]: the variables and the arguments left. *)
Fixpoint Parse fs t (args : list string) : res (T * list string) :=
  match args with
  | [] => Ok (t, [])
  | s :: rest =>
      match classify s with
      | Positional => Ok (t, args)
      | Terminator => Ok (t, rest)
      | BadSyntax => Err (ErrNew ("bad flag syntax: " +:+ s))
      | Named name value =>
          match formal fs name with
          | None =>
              if (name ==? "help") || (name ==? "h") then Err ErrHelp
              else Err (ErrNew ("flag provided but not defined: -" +:+ name))
          | Some f =>
              match value, rest with
              | Some v, _ => t ← setFlag f name v t; Parse fs t rest
              | None, v :: rest' => t ← setFlag f name v t; Parse fs t rest'
              | None, [] => Err (ErrNew ("flag needs an argument: -" +:+ name))
              end
          end
      end
  end.

(** ** What a command line says

    A command line is a list of assignments, each written in one of four ways, and what
    ends them. *)

Record assignment := mkAssignment {
  asg_dashes : bool;      (** two dashes *)
  asg_name : string;
  asg_inline : bool;      (** with an equals sign *)
  asg_value : string;
}.

Definition written (a : assignment) : list string :=
  let dashes := if asg_dashes a then "--" else "-" in
  if asg_inline a then [dashes +:+ asg_name a +:+ "=" +:+ asg_value a]
  else [dashes +:+ asg_name a; asg_value a].

(** The end of the flags, and the arguments left after them. *)
Inductive ends : list string → list string → Prop :=
  | ends_nothing : ends [] []
  | ends_positional s rest : classify s = Positional → ends (s :: rest) (s :: rest)
  | ends_terminator rest : ends ("--" :: rest) rest.

(** A name that can be written: what [flag] would read back as a name. *)
Definition writable (name : string) : Prop :=
  match name with
  | EmptyString => False
  | String c s => c ≠ "-"%char ∧ c ≠ "="%char ∧ lacks "="%char s
  end.

(** The assignments, one after the other. *)
Fixpoint performAll fs t (l : list assignment) : option T :=
  match l with
  | [] => Some t
  | a :: l' =>
      f ← formal fs (asg_name a);
      match readSetting (fl_value f) (asg_value a) with
      | Ok x => performAll fs (assign (fl_value f) x t) l'
      | Err _ => None
      end
  end.

End flagset.

(** ** Lemmas *)

Lemma splitName_plain s : writable s → splitName s = Named s None.
Proof.
  destruct s as [|c s]; [done|]. intros (Hd & He & Hl). cbn.
  rewrite !bool_decide_eq_false_2 by done. by rewrite Hl.
Qed.

Lemma splitName_inline s v : writable s → splitName (s +:+ "=" +:+ v) = Named s (Some v).
Proof.
  destruct s as [|c s]; [done|]. intros (Hd & He & Hl). rewrite string_app_cons. cbn [splitName].
  rewrite !bool_decide_eq_false_2 by done. cbn [orb].
  change ("=" +:+ v) with (String "=" v). rewrite IndexByte_app by done.
  by destruct (split_at s v "="%char) as [-> ->].
Qed.

Lemma classify_written (d : bool) s x :
  writable s → classify ((if d then "--" else "-") +:+ s +:+ x) = splitName (s +:+ x).
Proof.
  destruct s as [|c s]; [done|]. intros (Hd & _). rewrite string_app_cons.
  destruct d; [done|]. change ("-" +:+ ?u) with (String "-" u). cbn [classify].
  by rewrite bool_decide_eq_false_2.
Qed.

Lemma splitName_Named s name v :
  splitName s = Named name v →
  writable name ∧ s = name +:+ match v with Some v => "=" +:+ v | None => "" end.
Proof.
  destruct s as [|c s]; [done|]. cbn [splitName]. destruct (c ==? "-"%char) eqn:Hd; [done|].
  destruct (c ==? "="%char) eqn:He; [done|]. apply bool_decide_eq_false in Hd, He. cbn [orb].
  destruct (IndexByte s "="%char) as [i|] eqn:Hi; intros [= <- <-].
  - destruct (IndexByte_split _ _ _ Hi) as (a & b & -> & <- & Hl).
    destruct (split_at a b "="%char) as [E1 E2]. cbn [sdrop] in E2. rewrite E1, E2.
    split; [done|]. by rewrite string_app_cons.
  - split; [done|]. by rewrite string_app_nil_r.
Qed.

Lemma classify_Named s name v :
  classify s = Named name v →
  writable name ∧ ∃ d : bool,
    s = (if d then "--" else "-") +:+ name +:+ match v with Some v => "=" +:+ v | None => "" end.
Proof.
  destruct s as [|c0 [|c s]]; [done| |].
  { cbn. destruct (decide (c0 = "-"%char)) as [->|]; [done|]. by destruct c0 as [[] [] [] [] [] [] [] []]. }
  destruct (decide (c0 = "-"%char)) as [->|]; [|by destruct c0 as [[] [] [] [] [] [] [] []]].
  cbn [classify]. destruct (c ==? "-"%char) eqn:Hc.
  - apply bool_decide_eq_true in Hc as ->. case_bool_decide; [done|].
    intros [Hw ->]%splitName_Named. split; [done|]. by exists true.
  - intros [Hw E]%splitName_Named. split; [done|]. exists false. by rewrite E.
Qed.

Lemma classify_Terminator s : classify s = Terminator → s = "--".
Proof.
  destruct s as [|c0 [|c s]]; [done| |].
  { cbn. destruct (decide (c0 = "-"%char)) as [->|]; [done|]. by destruct c0 as [[] [] [] [] [] [] [] []]. }
  destruct (decide (c0 = "-"%char)) as [->|]; [|by destruct c0 as [[] [] [] [] [] [] [] []]].
  assert (∀ u, splitName u ≠ Terminator) as Hn.
  { intros [|b u]; cbn; [done|]. by repeat case_match. }
  cbn [classify]. case_bool_decide as Hc; [|by intros ?%Hn]. subst.
  case_bool_decide; [by subst|by intros ?%Hn].
Qed.

Section lemmas.
Context `{UnicodeTables} {T : Type}.
Implicit Types (t : T) (fs : list (Flag T)).

Lemma formal_name fs name f : formal fs name = Some f → fl_name f = name ∧ f ∈ fs.
Proof.
  unfold formal. intros ([i f'] & Hf & ->)%fmap_Some. apply list_find_Some in Hf as (Hi & Hn & _).
  split; [done|]. by eapply list_elem_of_lookup_2.
Qed.

(** The parse of one assignment. *)
Lemma Parse_written fs t a args :
  Forall (λ f, writable (fl_name f)) fs →
  Parse fs t (written a ++ args)
  = match formal fs (asg_name a) with
    | None => Parse fs t (written a ++ args)
    | Some f => t ← setFlag f (asg_name a) (asg_value a) t; Parse fs t args
    end.
Proof.
  intros Hfs. destruct (formal fs (asg_name a)) as [f|] eqn:Hf; [|done].
  destruct (formal_name _ _ _ Hf) as [Hn Hin]. pose proof (proj1 (Forall_forall _ _) Hfs f Hin) as Hw.
  cbn in Hw. rewrite Hn in Hw. unfold written. destruct (asg_inline a); cbn [app Parse].
  - rewrite classify_written, splitName_inline by done. by rewrite Hf.
  - rewrite <-(string_app_nil_r (asg_name a)) at 1.
    by rewrite classify_written, string_app_nil_r, splitName_plain, Hf by done.
Qed.

Lemma Parse_ends fs t tail rest : ends tail rest → Parse fs t tail = Ok (t, rest).
Proof. destruct 1 as [|s rest Hs|]; cbn [Parse]; [done|by rewrite Hs|done]. Qed.

(** Parsing succeeds exactly on the command lines that are assignments to flags of the set,
    with values their kinds read, and leaves the variables as those assignments, one
    after the other, do. *)
Lemma Parse_decided fs t args t' rest :
  Forall (λ f, writable (fl_name f)) fs →
  Parse fs t args = Ok (t', rest) ↔
  ∃ l tail, args = concat (written <$> l) ++ tail ∧ ends tail rest ∧ performAll fs t l = Some t'.
Proof.
  intros Hfs. split.
  - remember (length args) as n eqn:Hn. revert t args Hn.
    induction (lt_wf n) as [n _ IH]. intros t args -> HP.
    destruct args as [|s args]; [injection HP as <- <-; exists [], []; split_and!; [done|by constructor|done]|]. cbn [Parse] in HP.
    destruct (classify s) as [| | |name value] eqn:Hc; [..|].
    + injection HP as <- <-. exists [], (s :: args). split_and!; [done|by constructor|done].
    + injection HP as <- <-. apply classify_Terminator in Hc as ->. exists [], ("--" :: args).
      split_and!; [done|by constructor|done].
    + done.
    + destruct (classify_Named _ _ _ Hc) as (Hw & d & Es).
      destruct (formal fs name) as [f|] eqn:Hf; [|by destruct (_ || _)].
      assert (∀ v t1 args', setFlag f name v t = Ok t1 → length args' < length (s :: args) →
        (∃ inline, s :: args = written (mkAssignment d name inline v) ++ args') →
        Parse fs t1 args' = Ok (t', rest) →
        ∃ l tail, s :: args = concat (written <$> l) ++ tail ∧ ends tail rest
          ∧ performAll fs t l = Some t') as Hstep.
      { intros v t1 args' Hset Hlen (inline & Ha) HP'.
        destruct (IH _ Hlen _ _ eq_refl HP') as (l & tail & -> & He & Hl).
        exists (mkAssignment d name inline v :: l), tail. rewrite Ha, app_assoc. split_and!; [done..|].
        cbn. rewrite Hf. cbn. unfold setFlag in Hset. destruct (readSetting (fl_value f) v); [|done].
        by injection Hset as ->. }
      destruct value as [v|].
      * destruct (setFlag f name v t) as [t1|] eqn:Hset; [|done].
        apply (Hstep v t1 args); [done|cbn; lia| |done]. exists true. by rewrite Es.
      * destruct args as [|v args]; [done|].
        destruct (setFlag f name v t) as [t1|] eqn:Hset; [|done].
        apply (Hstep v t1 args); [done|cbn; lia| |done]. exists false.
        by rewrite Es, string_app_nil_r.
  - intros (l & tail & -> & Ht & Hl). revert t Hl. induction l as [|a l IHl]; intros t Hl; cbn in Hl.
    + injection Hl as <-. by apply Parse_ends.
    + destruct (formal fs (asg_name a)) as [f|] eqn:Hf; [|done]. cbn in Hl.
      change (concat (written <$> a :: l)) with (written a ++ concat (written <$> l)).
      rewrite <-app_assoc, Parse_written, Hf by done. unfold setFlag.
      destruct (readSetting (fl_value f) (asg_value a)); [|done]. cbn. by apply IHl.
Qed.

(** A setting of the kind of a value. *)
Definition fits (v : Value T) (x : setting) : Prop :=
  match v, x with
  | stringValue _, SString _ | intValue _, SInt _ | durationValue _, SDuration _
  | float64Value _, SFloat _ => True
  | _, _ => False
  end.

Lemma readSetting_fits v s x : readSetting v s = Ok x → fits v x.
Proof.
  destruct v; cbn; [by intros [= <-]| | |].
  - by destruct (numErr (ParseInt s)); intros [= <-].
  - by destruct (ParseDuration s); intros [= <-].
  - by destruct (numErr (ParseFloat s)); intros [= <-].
Qed.

(** Every flag has a variable of its own, which reads as it was assigned. *)
Definition independent fs : Prop :=
  Forall (λ f, Forall (λ g, ∀ x t, fits (fl_value f) x →
    holding (fl_value g) (assign (fl_value f) x t)
    = if fl_name f ==? fl_name g then x else holding (fl_value g) t) fs) fs.

(** The values a command line gives a flag, in order. *)
Definition valuesOf (name : string) (l : list assignment) : list string :=
  asg_value <$> filter (λ a, asg_name a = name) l.

Lemma performAll_last fs t l t' g :
  independent fs → performAll fs t l = Some t' → g ∈ fs →
  Ok (holding (fl_value g) t')
  = match last (valuesOf (fl_name g) l) with
    | Some v => match formal fs (fl_name g) with
                | Some f => readSetting (fl_value f) v
                | None => Err ErrHelp
                end
    | None => Ok (holding (fl_value g) t)
    end.
Proof.
  intros Hind Hl Hg. revert t Hl. induction l as [|a l IH]; intros t Hl; cbn in Hl.
  { by injection Hl as <-. }
  destruct (formal fs (asg_name a)) as [f|] eqn:Hf; [|done]. cbn in Hl.
  destruct (readSetting (fl_value f) (asg_value a)) as [x|e] eqn:Hx; [|done].
  rewrite (IH _ Hl). destruct (formal_name _ _ _ Hf) as [Hn Hin].
  pose proof (proj1 (Forall_forall _ _) (proj1 (Forall_forall _ _) Hind f Hin) g Hg x t
    (readSetting_fits _ _ _ Hx)) as Hh. cbn in Hh. rewrite Hn in Hh.
  unfold valuesOf. destruct (decide (asg_name a = fl_name g)) as [Hd|Hd].
  - rewrite filter_cons_True, <-Hd, fmap_cons, last_cons by done. fold (valuesOf (asg_name a) l).
    destruct (last (valuesOf (asg_name a) l)) as [v|]; [done|].
    rewrite Hf, Hx, Hh. by rewrite bool_decide_eq_true_2.
  - rewrite filter_cons_False by done. fold (valuesOf (fl_name g) l).
    destruct (last (valuesOf (fl_name g) l)); [done|]. rewrite Hh. by rewrite bool_decide_eq_false_2.
Qed.

End lemmas.
