(* ===== verification/Proto.v ===== *)
(** * The harness protocol ([src/gen/harness/v1/harness.pb.go])

    The messages hairpin reads and writes, with the fields its own code touches;
    the fields it only carries along are one opaque component ([..._Rest]).  The
    protobuf-JSON codec is a third-party library: the class [ProtoJSON] names the
    functions hairpin calls, and [ProtoJSONLaws] the documented round trip. *)

From stdpp Require Import base list strings.
From S2P Require Import Prelude.

Record HarnessEvent := mkHarnessEvent {
  he_Type : string;
  he_Text : string;
  he_Id : string;
  he_Name : string;
  he_Input : string;
  he_ToolUseId : string;
  he_Content : string;
  he_StopReason : string;
  he_Message : string;
  he_Trace : option string;
  he_RequestId : string;
  he_ToolName : string;
  he_HarnessVersion : string;
  he_Audience : string;
}.

(** An event with only its type set. *)
Definition event_of_type (t : string) : HarnessEvent :=
  mkHarnessEvent t "" "" "" "" "" "" "" "" None "" "" "" "".

Record ProviderConfig := mkProviderConfig {
  pc_Type : string;
  pc_Rest : string;
}.

Record NetworkConfig := mkNetworkConfig {
  nc_Mode : string;
  nc_Allowlist : list string;
}.

Record SandboxIdentityConfig := mkSandboxIdentityConfig {
  si_Source : string;
  si_Audience : string;
  si_EnvVar : string;
}.

Record ExecutorConfig := mkExecutorConfig {
  ex_Type : string;
  ex_Workspace : string;
  ex_Image : string;
  ex_Network : option NetworkConfig;
  ex_Runtime : string;
  ex_K8SNamespace : string;
  ex_K8SServiceAccount : string;
  ex_K8SEgressProxyUrl : string;
  ex_SandboxIdentity : option SandboxIdentityConfig;
  ex_Rest : string;
}.

Record ControlPlaneToolConfig := mkControlPlaneToolConfig {
  ct_Name : string;
  ct_Description : string;
  ct_TimeoutSeconds : Z;
  ct_RequiresApproval : bool;
  ct_Rest : string;
}.

Record ToolsConfig := mkToolsConfig {
  tc_ControlPlane : list ControlPlaneToolConfig;
  tc_Rest : string;
}.

Record TraceEmitterConfig := mkTraceEmitterConfig {
  te_Type : string;
  te_Endpoint : string;
  te_Rest : string;
}.

Record RunConfig := mkRunConfig {
  rc_RunId : string;
  rc_Mode : string;
  rc_Prompt : string;
  rc_Provider : option ProviderConfig;
  rc_Providers : list (string * ProviderConfig);
  rc_Executor : option ExecutorConfig;
  rc_TraceEmitter : option TraceEmitterConfig;
  rc_Tools : option ToolsConfig;
  rc_MaxTurns : Z;
  rc_Timeout : option Z;
  rc_Rest : string;
}.

Record ControlEvent := mkControlEvent {
  ce_Type : string;
  ce_Task : option RunConfig;
  ce_UserResponse : string;
  ce_RequestId : string;
  ce_Allowed : option bool;
  ce_Reason : string;
  ce_Content : string;
  ce_IsError : option bool;
  ce_Token : string;
  ce_ExpiresAt : option Z;
}.

#[export] Instance HarnessEvent_eq_dec : EqDecision HarnessEvent.
Proof. solve_decision. Defined.
#[export] Instance ProviderConfig_eq_dec : EqDecision ProviderConfig.
Proof. solve_decision. Defined.
#[export] Instance NetworkConfig_eq_dec : EqDecision NetworkConfig.
Proof. solve_decision. Defined.
#[export] Instance SandboxIdentityConfig_eq_dec : EqDecision SandboxIdentityConfig.
Proof. solve_decision. Defined.
#[export] Instance ExecutorConfig_eq_dec : EqDecision ExecutorConfig.
Proof. solve_decision. Defined.
#[export] Instance ControlPlaneToolConfig_eq_dec : EqDecision ControlPlaneToolConfig.
Proof. solve_decision. Defined.
#[export] Instance ToolsConfig_eq_dec : EqDecision ToolsConfig.
Proof. solve_decision. Defined.
#[export] Instance TraceEmitterConfig_eq_dec : EqDecision TraceEmitterConfig.
Proof. solve_decision. Defined.
#[export] Instance RunConfig_eq_dec : EqDecision RunConfig.
Proof. solve_decision. Defined.
#[export] Instance ControlEvent_eq_dec : EqDecision ControlEvent.
Proof. solve_decision. Defined.

(** ** Nil-safe getters *)

Definition GetProviderType (cfg : RunConfig) : string :=
  match rc_Provider cfg with Some p => pc_Type p | None => "" end.

Definition GetExecutorType (cfg : RunConfig) : string :=
  match rc_Executor cfg with Some e => ex_Type e | None => "" end.

Definition GetControlPlane (cfg : RunConfig) : list ControlPlaneToolConfig :=
  match rc_Tools cfg with Some t => tc_ControlPlane t | None => [] end.

(** [cfg.GetExecutor().GetSandboxIdentity() != nil]. *)
Definition declaresSandboxIdentity (cfg : RunConfig) : bool :=
  match rc_Executor cfg with
  | Some e => match ex_SandboxIdentity e with Some _ => true | None => false end
  | None => false
  end.

(** ** The codec *)

Class ProtoJSON := {
  MarshalHarnessEvent : HarnessEvent → res string;
  MarshalControlEvent : ControlEvent → res string;
  MarshalRunConfig : RunConfig → res string;
  (** [UnmarshalRunConfig discard s]: [discard] is the [DiscardUnknown] option. *)
  UnmarshalRunConfig : bool → string → res RunConfig;
}.

Class ProtoJSONLaws `{ProtoJSON} := {
  RunConfig_roundtrip : ∀ discard cfg s,
    MarshalRunConfig cfg = Ok s → UnmarshalRunConfig discard s = Ok cfg;
  (** the text of a message is a JSON object *)
  RunConfig_object : ∀ cfg s, MarshalRunConfig cfg = Ok s → ∃ r : string, s = "{" +:+ r;
}.

(** ** A codec for concrete evaluations

    It knows one run config, and encodes events by their type and one field. *)

Definition sample_config : RunConfig :=
  mkRunConfig "hp-01arz3ndektsv4rrffq69g5fav" "execution" "say hello"
    (Some (mkProviderConfig "anthropic" "")) []
    (Some (mkExecutorConfig "local" "" "" None "" "" "" ""
       (Some (mkSandboxIdentityConfig "control-plane" "haybale" "TOKEN")) ""))
    None
    (Some (mkToolsConfig [mkControlPlaneToolConfig "search_memory" "" 0 false ""] ""))
    10 (Some 600%Z) "".

Definition sample_codec : ProtoJSON := {|
  MarshalHarnessEvent := λ ev, Ok (he_Type ev +:+ ":" +:+ he_Text ev);
  MarshalControlEvent := λ ev, Ok (ce_Type ev +:+ ":" +:+ ce_Content ev);
  MarshalRunConfig := λ cfg,
    if cfg ==? sample_config then Ok "{run}" else Err (ErrNew "unknown config");
  UnmarshalRunConfig := λ _ s,
    if s ==? "{run}" then Ok sample_config else Err (ErrNew "not a run config");
|}.

Lemma sample_codec_laws : @ProtoJSONLaws sample_codec.
Proof.
  constructor; [intros discard|]; intros cfg s; cbn; case_bool_decide; intros [= <-]; subst;
    [done|by eexists].
Qed.
