(* ===== verification/Store.v ===== *)
(** * The persistence contract ([src/internal/store/store.go])

    The data a store keeps and the interface [Store] as a class of state-passing
    operations.  [fn] of [UpdateJob] is a Go closure: it may write variables it
    captures, so it is a function of the captured state [C], which the call
    threads through every attempt and returns. *)

From stdpp Require Import base gmap list strings.
From S2P Require Import Prelude Job.

Record Event := mkEvent {
  ev_ID : string;
  ev_Type : string;
  ev_PayloadJSON : string;
  ev_At : Time;
}.

#[export] Instance Event_eq_dec : EqDecision Event.
Proof. solve_decision. Defined.

(** [type PermissionState string]. *)
Abbreviation PermissionState := string (only parsing).

Definition PermissionPending : PermissionState := "pending".
Definition PermissionAllowed : PermissionState := "allowed".
Definition PermissionDenied : PermissionState := "denied".

Record PermissionRequest := mkPermissionRequest {
  pr_RequestID : string;
  pr_ToolName : string;
  pr_InputJSON : string;
  pr_State : PermissionState;
  pr_Reason : string;
  pr_RequestedAt : Time;
  pr_AnsweredAt : Time;
}.

#[export] Instance PermissionRequest_eq_dec : EqDecision PermissionRequest.
Proof. solve_decision. Defined.

(** The closure argument of [UpdateJob]: the captured state and the record in,
    the captured state and the new record (or the error that aborts) out. *)
Definition updater (C : Type) : Type := C → Job → C * res Job.

(** A closure that captures nothing. *)
Definition pureUpdater (f : Job → res Job) : updater unit := λ _ j, (tt, f j).

(** The operations; [now] is the reading of [time.Now()] an append may take. *)
Class Store (St : Type) := {
  CreateJob : Job → St → St * res unit;
  GetJob : string → St → res Job;
  ListJobs : Z → string → St → outcome (res (list Job * string));
  UpdateJob : ∀ {C : Type}, string → updater C → C → St → St * (C * res Job);
  DeleteJob : string → St → St * res unit;
  AppendEvent : Time → string → Event → St → St * res string;
  ReadEvents : string → string → Z → St → res (list Event);
  PutPermission : string → PermissionRequest → St → St * res unit;
  GetPermission : string → string → St → res PermissionRequest;
  ListPermissions : string → St → res (list PermissionRequest);
}.

(** What every client relies on, whatever the implementation: the job records
    are a map, only the operations on jobs touch it, an update writes the result
    of its closure on the current record or nothing, and errors leave the records
    alone. *)
Class StoreLaws (St : Type) `{Store St} := {
  job_of : St → gmap string Job;
  law_CreateJob : ∀ j s,
    (∃ e, CreateJob j s = (s, Err e) ∧ is_Some (job_of s !! j_ID j))
    ∨ (∃ s', CreateJob j s = (s', Ok tt) ∧ job_of s !! j_ID j = None
        ∧ job_of s' = <[j_ID j := j]> (job_of s));
  law_GetJob : ∀ id s,
    match job_of s !! id with
    | Some j => GetJob id s = Ok j
    | None => ∃ e, GetJob id s = Err e ∧ errorsIs e ErrNotFound = true
    end;
  law_UpdateJob : ∀ C id (fn : updater C) c s,
    match job_of s !! id with
    | Some j =>
        match fn c j with
        | (c', Ok j') => ∃ s', UpdateJob id fn c s = (s', (c', Ok j'))
            ∧ job_of s' = <[id := j']> (job_of s)
        | (c', Err e) => UpdateJob id fn c s = (s, (c', Err e))
        end
    | None => ∃ e, UpdateJob id fn c s = (s, (c, Err e)) ∧ errorsIs e ErrNotFound = true
    end;
  law_DeleteJob : ∀ id s,
    (∃ e, DeleteJob id s = (s, Err e) ∧ job_of s !! id = None)
    ∨ (∃ s', DeleteJob id s = (s', Ok tt) ∧ job_of s' = delete id (job_of s));
  law_AppendEvent : ∀ now id ev s, job_of (fst (AppendEvent now id ev s)) = job_of s;
  law_PutPermission : ∀ id p s, job_of (fst (PutPermission id p s)) = job_of s;
}.
