(* ===== verification/Timeline.v ===== *)
(** * Status changes on the timeline

    Every move of a job between statuses is announced by a synthetic
    [status_change] event.  Three packages write it ([appendStatusEvent] of
    [internal/service] and of [internal/reaper], [appendStatus] of
    [internal/controlplane], which formats the payload by hand) and one reads it
    back: [isTerminalStatusEvent] of [internal/service/watch.go] ends a watch. *)

From stdpp Require Import base list strings.
From Stdlib Require Import Ascii.
From S2P Require Import Prelude Utf8 Fmt Json Job Store.

(** [EventTypeStatusChange] of the service, [EventStatusChange] of the control
    plane, [eventStatusChange] of the reaper. *)
Definition EventStatusChange : string := "status_change".

Record statusPayload := mkStatusPayload {
  sp_Status : string;
  sp_Error : string;
}.

(** [json.Marshal(statusPayload{...})]: [Error] is omitted when empty. *)
Definition marshalStatus (p : statusPayload) : string :=
  "{" +:+ quoteString "status" +:+ ":" +:+ quoteString (sp_Status p)
  +:+ (if sp_Error p ==? "" then "}"
       else "," +:+ quoteString "error" +:+ ":" +:+ quoteString (sp_Error p) +:+ "}").

(** The object with the one member [status] that [fmt.Sprintf] formats with [%q]. *)
Definition formatStatus `{UnicodeTables} (status : Status) : string :=
  "{" +:+ quoteString "status" +:+ ":" +:+ Quote status +:+ "}".

Definition statusFields : list (field statusPayload) :=
  [stringField "status" (λ v p, mkStatusPayload v (sp_Error p));
   stringField "error" (λ v p, mkStatusPayload (sp_Status p) v)].

Definition isTerminalStatusEvent (ev : Event) : bool :=
  if ev_Type ev !=? EventStatusChange then false
  else
    match Unmarshal statusFields (mkStatusPayload "" "") (ev_PayloadJSON ev) with
    | (_, Some _) => false
    | (p, None) => Terminal (sp_Status p)
    end.

(** ** Lemmas *)

(** The statuses hairpin ever writes. *)
Definition statuses : list Status :=
  [StatusQueued; StatusLaunching; StatusAwaitingHarness; StatusRunning;
   StatusSucceeded; StatusFailed; StatusCancelled].

(** The parser at an object whose first member is a pair of literals. *)
Lemma parseValue_object f d k v T :
  parseValue (S (S (S f))) (S d) ("{" +:+ quoteString k +:+ ":" +:+ quoteString v +:+ T)
  = '(kvs, r) ← parseMembers (S (S f)) d (quoteString k +:+ ":" +:+ quoteString v +:+ T);
    Some (JObj kvs, r).
Proof. reflexivity. Qed.

(** A payload is read back, its strings sanitised. *)
Lemma parse_marshalStatus p :
  parse (marshalStatus p)
  = Some (JObj (("status", JStr (sanitize (sp_Status p)))
      :: if sp_Error p ==? "" then [] else [("error", JStr (sanitize (sp_Error p)))])).
Proof.
  unfold parse, marshalStatus.
  change maxNestingDepth with (S (pred maxNestingDepth)).
  match goal with |- context [parseValue (2 * ?l + 2)] =>
    assert (∃ f, 2 * l + 2 = S (S (S (S f)))) as [f ->]
  end.
  { exists (2 * len ("" +:+ quoteString "status" +:+ ":" +:+ quoteString (sp_Status p)
      +:+ (if sp_Error p ==? "" then "}"
           else "," +:+ quoteString "error" +:+ ":" +:+ quoteString (sp_Error p) +:+ "}"))).
    rewrite !string_app_cons. cbn [len]. lia. }
  rewrite parseValue_object, parseMembers_literal.
  change (sanitize "status") with "status". case_bool_decide; [reflexivity|].
  change (skipWs ("," +:+ ?x)) with (String "," x). cbv beta iota.
  rewrite parseMembers_literal. reflexivity.
Qed.

Lemma Unmarshal_marshalStatus p :
  Unmarshal statusFields (mkStatusPayload "" "") (marshalStatus p)
  = (mkStatusPayload (sanitize (sp_Status p)) (sanitize (sp_Error p)), None).
Proof.
  unfold Unmarshal. rewrite parse_marshalStatus.
  case_bool_decide as He; [|reflexivity]. by rewrite He.
Qed.

Lemma formatStatus_statuses `{UnicodeTables} st :
  st ∈ statuses → formatStatus st = marshalStatus (mkStatusPayload st "").
Proof.
  unfold statuses. rewrite !elem_of_cons, elem_of_nil. intros Hin.
  repeat (destruct Hin as [-> | Hin]; [vm_compute; reflexivity|]). done.
Qed.

Lemma sanitize_statuses st : st ∈ statuses → sanitize st = st.
Proof.
  unfold statuses. rewrite !elem_of_cons, elem_of_nil. intros Hin.
  repeat (destruct Hin as [-> | Hin]; [vm_compute; reflexivity|]). done.
Qed.

Lemma isTerminalStatusEvent_marshal id p at_ :
  isTerminalStatusEvent (mkEvent id EventStatusChange (marshalStatus p) at_)
  = Terminal (sanitize (sp_Status p)).
Proof.
  unfold isTerminalStatusEvent. cbn [ev_Type ev_PayloadJSON].
  rewrite bool_decide_eq_true_2 by done. cbn [negb]. by rewrite Unmarshal_marshalStatus.
Qed.

(** ** Properties *)

(** The status events the three writers append are understood by the reader:
    for every status hairpin writes, whatever error text accompanies it, the
    event announces a terminal status exactly when the status is terminal. A watch
    therefore ends on, and only on, a terminal status change. *)
Theorem status_events_announce `{UnicodeTables} (st : Status) (errText id : string) (at_ : Time)
  (Hst : st ∈ statuses) :
  isTerminalStatusEvent
    (mkEvent id EventStatusChange (marshalStatus (mkStatusPayload st errText)) at_) = Terminal st
  ∧ isTerminalStatusEvent (mkEvent id EventStatusChange (formatStatus st) at_) = Terminal st.
Proof.
  rewrite formatStatus_statuses by done. rewrite !isTerminalStatusEvent_marshal.
  by rewrite !sanitize_statuses.
Qed.

Lemma status_events_announce_witness :
  isTerminalStatusEvent (mkEvent "1-1" EventStatusChange
    (marshalStatus (mkStatusPayload StatusFailed "launch <pod>: refused & gone")) 7) = true
  ∧ isTerminalStatusEvent
      (mkEvent "1-1" EventStatusChange (@formatStatus sample_tables StatusFailed) 7) = true.
Proof.
  apply (status_events_announce (H := sample_tables) StatusFailed
    "launch <pod>: refused & gone" "1-1" 7).
  unfold statuses. rewrite !elem_of_cons. tauto.
Defined.
