(* ===== verification/MemStore.v ===== *)
(** * The in-memory store ([src/internal/store/memstore.go])

    [memStore] with its maps, its creation order and its watchers.  Every method
    runs under the store's mutex, so each is one state transformer.  A watcher is
    a heap object (the map of watchers holds pointers to it), with the buffered
    channel it is fed through. *)

From stdpp Require Import base gmap list strings pretty sorting.
From Stdlib Require Import Ascii.
From S2P Require Import Prelude Job Fmt Store.

(** ** State *)

Record memWatcher := mkWatcher {
  w_jobID : string;
  w_ch : list Event;        (** buffered, oldest first *)
  w_done : bool;            (** the [done] channel is closed *)
}.

Record memStore := mkMemStore {
  m_jobs : gmap string Job;
  m_order : list string;
  m_events : gmap string (list Event);
  m_perms : gmap string (gmap string PermissionRequest);
  m_watchers : gmap string (list nat);
  m_seq : N;
  m_maxLen : nat;
  m_heap : gmap nat memWatcher;   (** the watcher objects, by address *)
  m_next : nat;                   (** the next free address *)
}.

Definition NewMemStore (maxEvents : Z) : memStore :=
  mkMemStore ∅ [] ∅ ∅ ∅ 0
    (if (maxEvents <=? 0)%Z then N.to_nat 10000 else Z.to_nat maxEvents) ∅ 0.

(** Assignments to one field of the store. *)
Definition set_jobs v m := let 'mkMemStore _ b c d e f g h i := m in mkMemStore v b c d e f g h i.
Definition set_order v m := let 'mkMemStore a _ c d e f g h i := m in mkMemStore a v c d e f g h i.
Definition set_events v m := let 'mkMemStore a b _ d e f g h i := m in mkMemStore a b v d e f g h i.
Definition set_perms v m := let 'mkMemStore a b c _ e f g h i := m in mkMemStore a b c v e f g h i.
Definition set_watchers v m := let 'mkMemStore a b c d _ f g h i := m in mkMemStore a b c d v f g h i.
Definition set_seq v m := let 'mkMemStore a b c d e _ g h i := m in mkMemStore a b c d e v g h i.
Definition set_heap v m := let 'mkMemStore a b c d e f g _ i := m in mkMemStore a b c d e f g v i.
Definition set_next v m := let 'mkMemStore a b c d e f g h _ := m in mkMemStore a b c d e f g h v.

(** A missing key of a map of slices reads as the nil slice. *)
Definition slice_at {A} (m : gmap string (list A)) (k : string) : list A := default [] (m !! k).

Definition notFound (id : string) : error := wrapf ("job " +:+ id) ErrNotFound.

(** ** Jobs *)

Definition memCreateJob (j : Job) (m : memStore) : memStore * res unit :=
  match m_jobs m !! j_ID j with
  | Some _ => (m, Err (wrapf ("job " +:+ j_ID j) ErrConflict))
  | None =>
      (set_order (m_order m ++ [j_ID j]) (set_jobs (<[j_ID j := j]> (m_jobs m)) m), Ok tt)
  end.

Definition memGetJob (id : string) (m : memStore) : res Job :=
  match m_jobs m !! id with
  | None => Err (notFound id)
  | Some j => Ok j
  end.

(** The loop of [ListJobs], from index [i] downwards: [Panicked] is the
    out-of-range index of [m.order[i]]. The result carries the final [i]. *)
Fixpoint listLoop (fuel : nat) (m : memStore) (limit : nat) (i : Z) (out : list Job)
  : outcome (list Job * Z) :=
  match fuel with
  | 0 => Returned (out, i)
  | S f =>
      if (0 <=? i)%Z && (length out <? limit) then
        match m_order m !! Z.to_nat i with
        | None => Panicked
        | Some id =>
            match m_jobs m !! id with
            | Some j => listLoop f m limit (i - 1) (out ++ [j])
            | None => listLoop f m limit (i - 1) out
            end
        end
      else Returned (out, i)
  end.

(** Walking down from [start] needs at most [start + 1] iterations, plus the one
    that leaves the loop. *)
Definition memListJobs `{UnicodeTables} (limit : Z) (pageToken : string) (m : memStore)
  : outcome (res (list Job * string)) :=
  let limit := if (limit <=? 0)%Z then 50%Z else limit in
  let start :=
    if pageToken ==? "" then Some (Z.of_nat (length (m_order m)) - 1)%Z
    else Sscanf_d pageToken in
  match start with
  | None => Returned (Err (ErrNew ("bad page token " +:+ Quote pageToken)))
  | Some start =>
      match listLoop (Z.to_nat (start + 2)) m (Z.to_nat limit) start [] with
      | Panicked => Panicked
      | Returned (out, i) =>
          Returned (Ok (out, if (0 <=? i)%Z then pretty i else ""))
      end
  end.

Definition memUpdateJob {C} (id : string) (fn : updater C) (c : C) (m : memStore)
  : memStore * (C * res Job) :=
  match m_jobs m !! id with
  | None => (m, (c, Err (notFound id)))
  | Some j =>
      match fn c j with
      | (c', Err e) => (m, (c', Err e))
      | (c', Ok cp) => (set_jobs (<[id := cp]> (m_jobs m)) m, (c', Ok cp))
      end
  end.

(** Remove the first occurrence, as the loops over [m.order] and the watchers do. *)
Fixpoint remove_one {A} `{EqDecision A} (x : A) (l : list A) : list A :=
  match l with
  | [] => []
  | y :: l' => if y ==? x then l' else y :: remove_one x l'
  end.

Definition close_done (w : memWatcher) : memWatcher :=
  mkWatcher (w_jobID w) (w_ch w) true.

(** [close(w.done)] on the objects at the given addresses. *)
Definition close_all (ws : list nat) (heap : gmap nat memWatcher) : gmap nat memWatcher :=
  foldr (λ a h, alter close_done a h) heap ws.

Definition memDeleteJob (id : string) (m : memStore) : memStore * res unit :=
  match m_jobs m !! id with
  | None => (m, Err (notFound id))
  | Some _ =>
      let m := set_jobs (delete id (m_jobs m)) m in
      let m := set_events (delete id (m_events m)) m in
      let m := set_perms (delete id (m_perms m)) m in
      let m := set_heap (close_all (slice_at (m_watchers m) id) (m_heap m)) m in
      let m := set_watchers (delete id (m_watchers m)) m in
      (set_order (remove_one id (m_order m)) m, Ok tt)
  end.

(** ** Events *)

(** [fmt.Sprintf("%d-%d", ev.At.UnixMilli(), m.seq)]. *)
Definition streamID (millis : Z) (seq : N) : string :=
  pretty millis +:+ "-" +:+ pretty seq.

(** Keep the last [n] elements. *)
Definition last_n {A} (n : nat) (l : list A) : list A := drop (length l - n) l.

(** The channel of a watcher is buffered with room for the whole timeline. *)
Definition watchCap (m : memStore) : nat := m_maxLen m + 64.

(** [select { case w.ch <- ev: default: }]. *)
Definition offer (cap : nat) (ev : Event) (w : memWatcher) : memWatcher :=
  if length (w_ch w) <? cap then mkWatcher (w_jobID w) (w_ch w ++ [ev]) (w_done w) else w.

Definition offer_all (cap : nat) (ev : Event) (ws : list nat) (heap : gmap nat memWatcher)
  : gmap nat memWatcher :=
  foldr (λ a h, alter (offer cap ev) a h) heap ws.

Definition memAppendEvent (now : Time) (jobID : string) (ev : Event) (m : memStore)
  : memStore * res string :=
  match m_jobs m !! jobID with
  | None => (m, Err (notFound jobID))
  | Some _ =>
      let seq := ((m_seq m + 1) `mod` 2 ^ 64)%N in
      let m := set_seq seq m in
      let at_ := if IsZero (ev_At ev) then now else ev_At ev in
      let ev := mkEvent (streamID (UnixMilli at_) seq) (ev_Type ev) (ev_PayloadJSON ev) at_ in
      let evs := slice_at (m_events m) jobID ++ [ev] in
      let evs := if m_maxLen m <? length evs then last_n (m_maxLen m) evs else evs in
      let m := set_events (<[jobID := evs]> (m_events m)) m in
      let m := set_heap (offer_all (watchCap m) ev (slice_at (m_watchers m) jobID) (m_heap m)) m in
      (m, Ok (ev_ID ev))
  end.

Definition streamIDLess (a b : string) : bool :=
  let '(am, as_) := Sscanf_d_d a in
  let '(bm, bs) := Sscanf_d_d b in
  if negb (am =? bm)%N then (am <? bm)%N else (as_ <? bs)%N.

(** The condition [afterID != "" && !streamIDLess(afterID, ev.ID)] of the
    [continue] in the read and watch loops, negated. *)
Definition after (afterID : string) (ev : Event) : bool :=
  negb ((afterID !=? "") && negb (streamIDLess afterID (ev_ID ev))).

(** The loop of [ReadEvents]; [room] is [limit - len(out)]. *)
Fixpoint readLoop (afterID : string) (room : nat) (evs : list Event) : list Event :=
  match evs with
  | [] => []
  | ev :: evs' =>
      if after afterID ev then
        match room with
        | 0 | 1 => [ev]
        | S room' => ev :: readLoop afterID room' evs'
        end
      else readLoop afterID room evs'
  end.

Definition memReadEvents (jobID afterID : string) (limit : Z) (m : memStore) : res (list Event) :=
  let limit := if (limit <=? 0)%Z then 1000%Z else limit in
  match m_jobs m !! jobID with
  | None => Err (notFound jobID)
  | Some _ => Ok (readLoop afterID (Z.to_nat limit) (slice_at (m_events m) jobID))
  end.

(** [WatchEvents]: the history is sent on the new channel while the mutex is
    held, so a full channel would block for ever: [Panicked] stands for that
    deadlock. The result is the address of the watcher. *)
Definition memWatchEvents (jobID afterID : string) (m : memStore)
  : memStore * outcome (res nat) :=
  match m_jobs m !! jobID with
  | None => (m, Returned (Err (notFound jobID)))
  | Some _ =>
      let hist := filter (λ ev, after afterID ev = true) (slice_at (m_events m) jobID) in
      if watchCap m <? length hist then (m, Panicked)
      else
        let a := m_next m in
        let m := set_next (S a) m in
        let m := set_heap (<[a := mkWatcher jobID hist false]> (m_heap m)) m in
        let m := set_watchers
          (<[jobID := slice_at (m_watchers m) jobID ++ [a]]> (m_watchers m)) m in
        (m, Returned (Ok a))
  end.

Definition memRemoveWatcher (a : nat) (m : memStore) : memStore :=
  match m_heap m !! a with
  | None => m
  | Some w =>
      let ws := slice_at (m_watchers m) (w_jobID w) in
      if bool_decide (a ∈ ws)
      then set_watchers (<[w_jobID w := remove_one a ws]> (m_watchers m)) m
      else m
  end.

(** One receive of the forwarding goroutine of [WatchEvents]. *)
Definition memWatcherRecv (a : nat) (m : memStore) : memStore * option Event :=
  match m_heap m !! a with
  | Some (mkWatcher id (ev :: ch) d) =>
      (set_heap (<[a := mkWatcher id ch d]> (m_heap m)) m, Some ev)
  | _ => (m, None)
  end.

(** ** Permissions *)

Definition memPutPermission (jobID : string) (p : PermissionRequest) (m : memStore)
  : memStore * res unit :=
  match m_jobs m !! jobID with
  | None => (m, Err (notFound jobID))
  | Some _ =>
      let ps := default ∅ (m_perms m !! jobID) in
      (set_perms (<[jobID := <[pr_RequestID p := p]> ps]> (m_perms m)) m, Ok tt)
  end.

Definition memGetPermission (jobID requestID : string) (m : memStore) : res PermissionRequest :=
  match default ∅ (m_perms m !! jobID) !! requestID with
  | None => Err (wrapf ("permission " +:+ jobID +:+ "/" +:+ requestID) ErrNotFound)
  | Some p => Ok p
  end.

Definition isPending (p : PermissionRequest) : bool := pr_State p ==? PermissionPending.

(** The [less] function of [sort.Slice]. *)
Definition permLess (a b : PermissionRequest) : bool :=
  if negb (Bool.eqb (isPending a) (isPending b)) then isPending a
  else (pr_RequestedAt a <? pr_RequestedAt b)%Z.

(** [permLess b a] fails: [a] may stand before [b]. *)
Definition permLe (a b : PermissionRequest) : Prop := permLess b a = false.

#[export] Instance permLe_dec : RelDecision permLe.
Proof. intros a b. unfold permLe. apply _. Defined.

(** Go visits the map in an unspecified order and [sort.Slice] is not stable, so
    requests that compare equal come in an unspecified order; this is one of the
    possible results. *)
Definition memListPermissions (jobID : string) (m : memStore) : res (list PermissionRequest) :=
  Ok (merge_sort permLe (snd <$> map_to_list (default ∅ (m_perms m !! jobID)))).

#[export] Instance memStore_Store `{UnicodeTables} : Store memStore := {
  CreateJob := memCreateJob;
  GetJob := memGetJob;
  ListJobs := memListJobs;
  UpdateJob := @memUpdateJob;
  DeleteJob := memDeleteJob;
  AppendEvent := memAppendEvent;
  ReadEvents := memReadEvents;
  PutPermission := memPutPermission;
  GetPermission := memGetPermission;
  ListPermissions := memListPermissions;
}.
