(* ===== verification/MemStoreFacts.v ===== *)
(** * Correctness of the in-memory store

    The well-formedness invariant of [memStore] and its preservation by every
    operation; the store laws the rest of hairpin relies on; listing by pages;
    the event timeline, its bound and its resume cursors. *)

From stdpp Require Import base gmap list strings pretty sorting.
From S2P Require Import Prelude Job Fmt Store MemStore.

(** ** The store laws *)

#[export] Program Instance memStore_StoreLaws `{UnicodeTables} : StoreLaws memStore := {
  job_of := m_jobs;
}.
Next Obligation.
  intros ? j m. cbn. unfold memCreateJob. destruct (m_jobs m !! j_ID j) eqn:E.
  - left. by eexists.
  - right. destruct m. by eexists.
Qed.
Next Obligation.
  intros ? id m. cbn. unfold memGetJob. destruct (m_jobs m !! id); [done|].
  eexists. split; [done|]. unfold notFound. by rewrite errorsIs_wrapf.
Qed.
Next Obligation.
  intros ? C id fn c m. cbn. unfold memUpdateJob. destruct (m_jobs m !! id) as [j|]; cycle 1.
  { eexists. split; [done|]. unfold notFound. by rewrite errorsIs_wrapf. }
  destruct (fn c j) as [c' [j'|e]]; [|done]. destruct m. by eexists.
Qed.
Next Obligation.
  intros ? id m. cbn. unfold memDeleteJob. destruct (m_jobs m !! id) eqn:E.
  - right. destruct m. by eexists.
  - left. by eexists.
Qed.
Next Obligation.
  intros ? now id ev m. cbn. unfold memAppendEvent. destruct (m_jobs m !! id); [|done].
  by destruct m.
Qed.
Next Obligation.
  intros ? id p m. cbn. unfold memPutPermission. destruct (m_jobs m !! id); [|done].
  by destruct m.
Qed.

(** ** The invariant *)

Record wf (m : memStore) : Prop := {
  wf_order_nodup : NoDup (m_order m);
  wf_order_jobs : ∀ id, id ∈ m_order m ↔ is_Some (m_jobs m !! id);
  wf_job_ids : ∀ id j, m_jobs m !! id = Some j → j_ID j = id;
  wf_events_dom : ∀ id, is_Some (m_events m !! id) → is_Some (m_jobs m !! id);
  wf_events_len : ∀ id evs, m_events m !! id = Some evs → length evs ≤ m_maxLen m;
  wf_perms_dom : ∀ id, is_Some (m_perms m !! id) → is_Some (m_jobs m !! id);
  wf_perms_key : ∀ id ps r p,
    m_perms m !! id = Some ps → ps !! r = Some p → pr_RequestID p = r;
  wf_watchers_job : ∀ id, slice_at (m_watchers m) id ≠ [] → is_Some (m_jobs m !! id);
  wf_watchers_nodup : ∀ id, NoDup (slice_at (m_watchers m) id);
  wf_watchers_heap : ∀ id a, a ∈ slice_at (m_watchers m) id →
    ∃ w, m_heap m !! a = Some w ∧ w_jobID w = id ∧ w_done w = false;
  wf_heap_next : ∀ a, is_Some (m_heap m !! a) → a < m_next m;
  wf_heap_buf : ∀ a w, m_heap m !! a = Some w → length (w_ch w) ≤ watchCap m;
}.

#[export] Hint Resolve wf_order_nodup wf_job_ids wf_events_dom wf_events_len wf_perms_dom
  wf_perms_key wf_watchers_job wf_watchers_nodup wf_watchers_heap wf_heap_next wf_heap_buf
  : hairpin.

Lemma wf_NewMemStore n : wf (NewMemStore n).
Proof.
  split; cbn; unfold slice_at; cbn; intros;
    repeat match goal with H : is_Some _ |- _ => destruct H end;
    rewrite ?lookup_empty in *; try (done || set_solver || constructor).
Qed.

(** ** Helpers *)

Lemma slice_at_insert {A} (m : gmap string (list A)) k k' v :
  slice_at (<[k := v]> m) k' = if decide (k = k') then v else slice_at m k'.
Proof. unfold slice_at. rewrite lookup_insert. by case_decide. Qed.

Lemma slice_at_delete {A} (m : gmap string (list A)) k k' :
  slice_at (delete k m) k' = if decide (k = k') then [] else slice_at m k'.
Proof. unfold slice_at. rewrite lookup_delete. by case_decide. Qed.

Lemma elem_of_remove_one {A} `{EqDecision A} (x y : A) l :
  NoDup l → y ∈ remove_one x l ↔ y ∈ l ∧ y ≠ x.
Proof.
  induction l as [|z l IH]; simpl; [set_solver|]. intros [Hz Hl]%NoDup_cons.
  case_bool_decide as Hzx; [subst; set_solver|].
  rewrite !elem_of_cons, IH by done. naive_solver.
Qed.

Lemma NoDup_remove_one {A} `{EqDecision A} (x : A) l : NoDup l → NoDup (remove_one x l).
Proof.
  induction l as [|z l IH]; simpl; [done|]. intros Hd. pose proof Hd as [Hz Hl]%NoDup_cons.
  case_bool_decide; [done|]. apply NoDup_cons. split; [|auto].
  rewrite elem_of_remove_one by done. naive_solver.
Qed.

Lemma lookup_foldr_alter {A} (f : A → A) (ws : list nat) (h : gmap nat A) a :
  NoDup ws →
  foldr (λ a h, alter f a h) h ws !! a = if decide (a ∈ ws) then f <$> h !! a else h !! a.
Proof.
  induction ws as [|b ws IH]; intros Hd.
  { by rewrite decide_False by set_solver. }
  apply NoDup_cons in Hd as [Hb Hd]. cbn [foldr]. rewrite lookup_alter, IH by done.
  destruct (decide (b = a)) as [->|Hne].
  - by rewrite IH, (decide_False (P := a ∈ ws)), decide_True by set_solver.
  - destruct (decide (a ∈ ws)); [rewrite decide_True by set_solver | rewrite decide_False by set_solver]; done.
Qed.

Lemma last_n_length {A} n (l : list A) : n ≤ length l → length (last_n n l) = n.
Proof. intros. unfold last_n. rewrite length_drop. lia. Qed.

Lemma offer_facts cap ev w :
  length (w_ch w) ≤ cap →
  w_jobID (offer cap ev w) = w_jobID w ∧ w_done (offer cap ev w) = w_done w
  ∧ length (w_ch (offer cap ev w)) ≤ cap.
Proof.
  intros. unfold offer. destruct (Nat.ltb_spec (length (w_ch w)) cap); simpl; [|done].
  rewrite length_app. simpl. split_and!; (done || lia).
Qed.

(** Unfold the invariant of a store given by its components. *)
Ltac wf_cases :=
  match goal with
  | H : wf ?m |- _ => destruct H; destruct m; cbn in *
  end.

(** ** Preservation of the invariant *)

Lemma wf_CreateJob j m : wf m → wf (fst (memCreateJob j m)).
Proof.
  intros Hwf. unfold memCreateJob. destruct (m_jobs m !! j_ID j) eqn:E; [done|].
  wf_cases. split; cbn; try done.
  - apply NoDup_app. split_and!; [done| |apply NoDup_singleton].
    intros x Hx ->%list_elem_of_singleton. apply wf_order_jobs0 in Hx as [? ?]. congruence.
  - intros id. rewrite elem_of_app, list_elem_of_singleton, wf_order_jobs0, lookup_insert.
    case_decide; subst; naive_solver.
  - intros id j'. rewrite lookup_insert. case_decide; naive_solver.
  - intros id Hid. rewrite lookup_insert. case_decide; [done|eauto].
  - intros id Hid. rewrite lookup_insert. case_decide; [done|eauto].
  - intros id Hid. rewrite lookup_insert. case_decide; [done|eauto].
Qed.

(** A closure that never changes the ID of the record. *)
Definition keeps_ID {C} (fn : updater C) : Prop :=
  ∀ c j c' j', fn c j = (c', Ok j') → j_ID j' = j_ID j.

Lemma wf_UpdateJob {C} id (fn : updater C) c m :
  keeps_ID fn → wf m → wf (fst (memUpdateJob id fn c m)).
Proof.
  intros Hfn Hwf. unfold memUpdateJob. destruct (m_jobs m !! id) as [j|] eqn:E; [|done].
  destruct (fn c j) as [c' [j'|e]] eqn:F; [|done]. apply Hfn in F.
  wf_cases. split; cbn; try done.
  - intros id'. rewrite wf_order_jobs0, lookup_insert. case_decide; subst; naive_solver.
  - intros id' jj. rewrite lookup_insert. case_decide; subst; [|eauto].
    intros [= <-]. rewrite F. eauto.
  - intros id' Hid. rewrite lookup_insert. case_decide; [done|eauto].
  - intros id' Hid. rewrite lookup_insert. case_decide; [done|eauto].
  - intros id' Hid. rewrite lookup_insert. case_decide; [done|eauto].
Qed.

Lemma wf_DeleteJob id m : wf m → wf (fst (memDeleteJob id m)).
Proof.
  intros Hwf. unfold memDeleteJob. destruct (m_jobs m !! id) eqn:E; [|done].
  wf_cases. split; cbn.
  - by apply NoDup_remove_one.
  - intros id'. rewrite elem_of_remove_one, wf_order_jobs0, lookup_delete by done.
    case_decide; subst; split; intros; destruct_and?; try done; by destruct H.
  - intros id' j'. rewrite lookup_delete. case_decide; [done|eauto].
  - intros id'. rewrite !lookup_delete. case_decide; [by intros [? ?]|eauto].
  - intros id' evs. rewrite lookup_delete. case_decide; [done|eauto].
  - intros id'. rewrite !lookup_delete. case_decide; [by intros [? ?]|eauto].
  - intros id' ps r p. rewrite lookup_delete. case_decide; [done|eauto].
  - intros id'. rewrite slice_at_delete, lookup_delete. case_decide; [done|eauto].
  - intros id'. rewrite slice_at_delete. case_decide; [constructor|eauto].
  - intros id' a. rewrite slice_at_delete. case_decide; [set_solver|]. intros Ha.
    destruct (wf_watchers_heap0 _ _ Ha) as (w & Hw & <- & ?). exists w.
    unfold close_all. rewrite lookup_foldr_alter by done. case_decide as Hin; [|done].
    destruct (wf_watchers_heap0 _ _ Hin) as (w' & ? & ? & ?). naive_solver.
  - intros a. unfold close_all. rewrite lookup_foldr_alter by done.
    case_decide; [rewrite fmap_is_Some|]; eauto.
  - intros a w. unfold close_all. rewrite lookup_foldr_alter by done.
    case_decide; [|eauto]. intros (w' & ? & ->)%fmap_Some. simpl. eauto.
Qed.

Lemma wf_AppendEvent now id ev m : wf m → wf (fst (memAppendEvent now id ev m)).
Proof.
  intros Hwf. unfold memAppendEvent. destruct (m_jobs m !! id) eqn:E; [|done].
  wf_cases. split; cbn; try done.
  - intros id'. rewrite lookup_insert. case_decide; subst; [by eexists|eauto].
  - intros id' evs. rewrite lookup_insert. case_decide; subst; [|eauto]. intros [= <-].
    case_match eqn:L; [apply Nat.ltb_lt in L | apply Nat.ltb_ge in L; done].
    rewrite last_n_length; lia.
  - intros id' a Ha. destruct (wf_watchers_heap0 _ _ Ha) as (w & Hw & <- & Hd).
    unfold offer_all. rewrite lookup_foldr_alter, Hw by done.
    case_decide; [|by eauto]. eexists. split; [done|].
    rewrite <-Hd. split; eapply offer_facts; eauto.
  - intros a. unfold offer_all. rewrite lookup_foldr_alter by done.
    case_decide; [rewrite fmap_is_Some|]; eauto.
  - intros a w. unfold offer_all. rewrite lookup_foldr_alter by done.
    case_decide; [|eauto]. intros (w' & Hw' & ->)%fmap_Some.
    apply offer_facts. by eapply wf_heap_buf0.
Qed.

Lemma wf_PutPermission id p m : wf m → wf (fst (memPutPermission id p m)).
Proof.
  intros Hwf. unfold memPutPermission. destruct (m_jobs m !! id) eqn:E; [|done].
  wf_cases. split; cbn; try done.
  - intros id'. rewrite lookup_insert. case_decide; subst; [by eexists|eauto].
  - intros id' ps r q. rewrite lookup_insert. case_decide; subst; [|eauto]. intros [= <-].
    rewrite lookup_insert. case_decide; [naive_solver|].
    destruct (m_perms !! id') eqn:P; simpl; [eauto|]. by rewrite lookup_empty.
Qed.

Lemma wf_WatchEvents id afterID m : wf m → wf (fst (memWatchEvents id afterID m)).
Proof.
  intros Hwf. unfold memWatchEvents. destruct (m_jobs m !! id) eqn:E; [|done].
  case_match eqn:L; [done|]. apply Nat.ltb_ge in L. wf_cases. split; cbn; try done.
  - intros id'. rewrite slice_at_insert. case_decide; subst; [by eexists|eauto].
  - intros id'. rewrite slice_at_insert. case_decide; subst; [|eauto].
    apply NoDup_app. split_and!; [done| |apply NoDup_singleton].
    intros a Ha ->%list_elem_of_singleton.
    destruct (wf_watchers_heap0 _ _ Ha) as (w & Hw & _).
    specialize (wf_heap_next0 m_next ltac:(by eexists)). lia.
  - intros id' a. rewrite slice_at_insert. case_decide; subst.
    + rewrite elem_of_app, list_elem_of_singleton, lookup_insert.
      case_decide; [subst; eauto|]. intros [?| ->]; [eauto|done].
    + intros Ha. rewrite lookup_insert. case_decide; [|eauto]. subst.
      destruct (wf_watchers_heap0 _ _ Ha) as (w & Hw & _).
      specialize (wf_heap_next0 a ltac:(by eexists)). lia.
  - intros a. rewrite lookup_insert. case_decide; [intros; lia|].
    intros Ha. specialize (wf_heap_next0 a Ha). lia.
  - intros a w. rewrite lookup_insert. case_decide; [|eauto]. by intros [= <-].
Qed.

Lemma wf_RemoveWatcher a m : wf m → wf (memRemoveWatcher a m).
Proof.
  intros Hwf. unfold memRemoveWatcher. destruct (m_heap m !! a) as [w|] eqn:E; [|done].
  case_bool_decide as Hin; [|done]. wf_cases. split; cbn; try done.
  - intros id. rewrite slice_at_insert. case_decide; subst; [|eauto]. intros _.
    apply wf_watchers_job0. intros Hnil. rewrite Hnil in Hin. set_solver.
  - intros id. rewrite slice_at_insert. case_decide; [|eauto]. by apply NoDup_remove_one.
  - intros id b. rewrite slice_at_insert. case_decide; subst; [|eauto].
    rewrite elem_of_remove_one by done. intros [? ?]. eauto.
Qed.

Lemma wf_WatcherRecv a m : wf m → wf (fst (memWatcherRecv a m)).
Proof.
  intros Hwf. unfold memWatcherRecv. destruct (m_heap m !! a) as [[id [|ev ch] d]|] eqn:E; try done.
  wf_cases. split; cbn; try done.
  - intros id' b Hb. destruct (wf_watchers_heap0 _ _ Hb) as (w & Hw & ? & ?).
    rewrite lookup_insert. case_decide; [|eauto]. simplify_eq/=. eauto.
  - intros b. rewrite lookup_insert. case_decide; [|eauto]. subst. intros _. eauto.
  - intros b w. rewrite lookup_insert. case_decide; [|eauto]. intros [= <-].
    apply wf_heap_buf0 in E. simpl in *. lia.
Qed.

(** ** Listing by pages *)

(** The jobs of the first [n] entries of the creation order, newest first. *)
Definition newest (m : memStore) (n : nat) : list Job :=
  omap (λ id, m_jobs m !! id) (reverse (take n (m_order m))).

(** All jobs, newest first. *)
Definition allJobs (m : memStore) : list Job := newest m (length (m_order m)).

Lemma newest_0 m : newest m 0 = [].
Proof. done. Qed.

Lemma newest_S m n id j :
  m_order m !! n = Some id → m_jobs m !! id = Some j → newest m (S n) = j :: newest m n.
Proof.
  intros Hid Hj. unfold newest. rewrite (take_S_r _ _ _ Hid), reverse_snoc. simpl. by rewrite Hj.
Qed.

Lemma order_has_job m n :
  wf m → n < length (m_order m) →
  ∃ id j, m_order m !! n = Some id ∧ m_jobs m !! id = Some j.
Proof.
  intros Hwf [id Hid]%lookup_lt_is_Some_2.
  destruct (proj1 (wf_order_jobs _ Hwf id)) as [j Hj]; [by eapply list_elem_of_lookup_2|].
  eauto.
Qed.

Lemma length_newest m n : wf m → n ≤ length (m_order m) → length (newest m n) = n.
Proof.
  intros Hwf. induction n as [|n IH]; intros Hn; [done|].
  destruct (order_has_job m n) as (id & j & ? & ?); [done|lia|].
  erewrite newest_S by done. simpl. rewrite IH; lia.
Qed.

(** The loop collects the next [room] jobs and stops [room] positions lower, or
    below the start of the list. *)
Lemma listLoop_spec m limit n f out :
  wf m → n ≤ length (m_order m) → n < f → length out ≤ limit →
  let room := limit - length out in
  listLoop f m limit (Z.of_nat n - 1) out
  = Returned (out ++ take room (newest m n), (Z.of_nat n - 1 - Z.of_nat (Nat.min room n))%Z).
Proof.
  intros Hwf. revert f out. induction n as [|n IH]; intros f out Hn Hf Hout; cbn zeta;
    (destruct f as [|f]; [lia|]); cbn [listLoop].
  - destruct (Z.leb_spec 0 (Z.of_nat 0 - 1)); [lia|]. simpl.
    rewrite Nat.min_0_r. by rewrite newest_0, take_nil, app_nil_r.
  - destruct (Z.leb_spec 0 (Z.of_nat (S n) - 1)); [|lia]. simpl andb.
    destruct (Nat.ltb_spec (length out) limit) as [Hlt|Hge]; cycle 1.
    { replace (limit - length out) with 0 by lia. rewrite take_0, app_nil_r.
      f_equal. f_equal. lia. }
    destruct (order_has_job m n) as (id & j & Hid & Hj); [done|lia|].
    replace (Z.to_nat (Z.of_nat (S n) - 1)) with n by lia. rewrite Hid, Hj.
    replace (Z.of_nat (S n) - 1 - 1)%Z with (Z.of_nat n - 1)%Z by lia.
    rewrite IH; [|lia..|rewrite length_app; simpl; lia].
    erewrite newest_S by done. rewrite length_app. simpl length.
    replace (limit - length out) with (S (limit - (length out + 1))) by lia.
    rewrite <-app_assoc. simpl. f_equal. f_equal. lia.
Qed.

(** The token naming the page that starts below the first [n] entries. *)
Definition pageTokenOf (n : nat) : string := if n ==? 0 then "" else pretty (Z.of_nat n - 1)%Z.

Lemma pretty_Z_of_nat n : pretty (Z.of_nat n) = pretty (N.of_nat n).
Proof. by destruct n. Qed.

Lemma pretty_Z_nonempty n : pretty (Z.of_nat n) ≠ "".
Proof. rewrite pretty_Z_of_nat. by destruct (pretty_N_head (N.of_nat n)) as (? & ? & -> & _). Qed.

Lemma Sscanf_d_pageToken n :
  n ≠ 0 → (Z.of_nat n ≤ maxInt64)%Z → Sscanf_d (pageTokenOf n) = Some (Z.of_nat n - 1)%Z.
Proof.
  intros Hn Hmax. unfold pageTokenOf. rewrite bool_decide_eq_false_2 by done.
  replace (Z.of_nat n - 1)%Z with (Z.of_nat (pred n)) by lia.
  rewrite pretty_Z_of_nat, Sscanf_d_print; [f_equal|]; lia.
Qed.

(** One page: from a token for position [n] (the empty token means the newest
    job), the next [limit] jobs and the token of the position below them. *)
Lemma memListJobs_page `{UnicodeTables} m limit n tok :
  wf m → (Z.of_nat (length (m_order m)) ≤ maxInt64)%Z → (0 < limit)%Z →
  (tok = "" ∧ n = length (m_order m) ∨ tok = pageTokenOf n ∧ 0 < n ≤ length (m_order m)) →
  memListJobs limit tok m
  = Returned (Ok (take (Z.to_nat limit) (newest m n), pageTokenOf (n - Z.to_nat limit))).
Proof.
  intros Hwf Hmax Hlim Htok. unfold memListJobs.
  destruct (Z.leb_spec limit 0) as [|_]; [lia|].
  assert ((if tok ==? "" then Some (Z.of_nat (length (m_order m)) - 1)%Z else Sscanf_d tok)
          = Some (Z.of_nat n - 1)%Z ∧ n ≤ length (m_order m)) as [-> Hn].
  { destruct Htok as [[-> ->]|[-> Hn]]; [done|]. rewrite bool_decide_eq_false_2.
    - rewrite Sscanf_d_pageToken; [split; [done|]|..]; lia.
    - unfold pageTokenOf. rewrite bool_decide_eq_false_2 by lia.
      replace (Z.of_nat n - 1)%Z with (Z.of_nat (pred n)) by lia. apply pretty_Z_nonempty. }
  cbn iota beta. rewrite (listLoop_spec m (Z.to_nat limit) n (Z.to_nat (Z.of_nat n - 1 + 2)) []);
    [|done|done|lia|simpl; lia].
  cbn [app length]. rewrite Nat.sub_0_r. cbn zeta iota beta. do 3 f_equal. unfold pageTokenOf.
  destruct (Z.leb_spec 0 (Z.of_nat n - 1 - Z.of_nat (Nat.min (Z.to_nat limit) n))) as [Hle|Hlt].
  - rewrite bool_decide_eq_false_2 by lia. f_equal. lia.
  - rewrite bool_decide_eq_true_2 by lia. done.
Qed.

Lemma newest_split m n k :
  wf m → n ≤ length (m_order m) →
  newest m n = take k (newest m n) ++ newest m (n - k).
Proof.
  intros Hwf. revert k. induction n as [|n IH]; intros k Hn.
  - by rewrite newest_0, take_nil, newest_0.
  - destruct k as [|k]; [by rewrite Nat.sub_0_r|].
    destruct (order_has_job m n) as (id & j & ? & ?); [done|lia|].
    erewrite newest_S by done.
    simpl. f_equal. apply IH. lia.
Qed.

(** Every job of the store is listed, once. *)
Lemma elem_of_allJobs m j : wf m → j ∈ allJobs m ↔ m_jobs m !! j_ID j = Some j.
Proof.
  intros Hwf. unfold allJobs, newest. rewrite take_ge by done.
  rewrite list_elem_of_omap. split.
  - intros (id & _ & Hj). by rewrite (wf_job_ids _ Hwf _ _ Hj).
  - intros Hj. exists (j_ID j). split; [|done]. rewrite elem_of_reverse.
    apply (wf_order_jobs _ Hwf). by eexists.
Qed.

Lemma NoDup_allJobs m : wf m → NoDup (j_ID <$> allJobs m).
Proof.
  intros Hwf. unfold allJobs, newest. rewrite take_ge by done.
  assert (j_ID <$> omap (λ id, m_jobs m !! id) (reverse (m_order m)) = reverse (m_order m)) as ->.
  { assert (Forall (λ id, is_Some (m_jobs m !! id)) (reverse (m_order m))) as Hall.
    { apply Forall_forall. intros id. rewrite elem_of_reverse.
      apply (wf_order_jobs _ Hwf). }
    induction Hall as [|id l [j Hj] _ IH]; [done|]. csimpl. rewrite Hj. csimpl. rewrite IH.
    f_equal. by eapply wf_job_ids. }
  rewrite (reverse_Permutation (m_order m)). apply Hwf.
Qed.

(** ** Reading the timeline *)

(** [streamIDLess] orders IDs by the two numbers in them. *)
Definition idKey (ev : Event) : N * N := Sscanf_d_d (ev_ID ev).

Definition keyLt (a b : N * N) : Prop := (fst a < fst b ∨ fst a = fst b ∧ snd a < snd b)%N.

Lemma streamIDLess_spec a b :
  streamIDLess a b = true ↔ keyLt (Sscanf_d_d a) (Sscanf_d_d b).
Proof.
  unfold streamIDLess, keyLt. destruct (Sscanf_d_d a) as [am as_], (Sscanf_d_d b) as [bm bs].
  simpl. destruct (N.eqb_spec am bm); simpl; rewrite N.ltb_lt; lia.
Qed.

#[export] Instance keyLt_trans : Transitive keyLt.
Proof. intros [] [] []. unfold keyLt. simpl. lia. Qed.

#[export] Instance keyLt_irrefl : Irreflexive keyLt.
Proof. intros []. unfold complement, keyLt. simpl. lia. Qed.

(** The timeline is in strictly increasing ID order. *)
Definition timelineSorted (evs : list Event) : Prop :=
  StronglySorted (λ a b, keyLt (idKey a) (idKey b)) evs.

Lemma after_spec a ev :
  after a ev = true ↔ a = "" ∨ keyLt (Sscanf_d_d a) (idKey ev).
Proof.
  unfold after. rewrite negb_true_iff, andb_false_iff, !negb_false_iff.
  rewrite bool_decide_eq_true, streamIDLess_spec. done.
Qed.

Lemma readLoop_all a n evs :
  Forall (λ ev, after a ev = true) evs → readLoop a (S n) evs = take (S n) evs.
Proof.
  intros Hall. revert n. induction Hall as [|ev evs Hev _ IH]; intros n; [done|].
  cbn [readLoop take]. rewrite Hev. destruct n; [by rewrite take_0|]. by rewrite IH.
Qed.

Lemma readLoop_skip a n l1 l2 :
  Forall (λ ev, after a ev = false) l1 → readLoop a n (l1 ++ l2) = readLoop a n l2.
Proof. induction 1 as [|ev l1 Hev _ IH]; simpl; [done|]. by rewrite Hev. Qed.

(** Every event returned lies after the cursor. *)
Lemma readLoop_after a n evs : Forall (λ ev, after a ev = true) (readLoop a n evs).
Proof.
  revert n. induction evs as [|ev evs IH]; intros n; simpl; [done|].
  destruct (after a ev) eqn:E; [|done]. destruct n as [|[|n]]; repeat constructor; done.
Qed.

Lemma readLoop_sublist a n evs : readLoop a n evs `sublist_of` evs.
Proof.
  revert n. induction evs as [|ev evs IH]; intros n; simpl; [done|].
  destruct (after a ev); [|by constructor].
  destruct n as [|[|n]]; constructor; try apply sublist_nil_l; done.
Qed.

Lemma streamID_nonempty ms q : streamID ms q ≠ "".
Proof.
  unfold streamID. destruct (pretty ms); [|done]. done.
Qed.

(** Resuming a sorted timeline from the ID of one of its events gives exactly
    what follows it. *)
Lemma readLoop_resume n l1 ev l2 :
  timelineSorted (l1 ++ ev :: l2) → ev_ID ev ≠ "" →
  readLoop (ev_ID ev) (S n) (l1 ++ ev :: l2) = take (S n) l2.
Proof.
  intros Hs Hne. unfold timelineSorted in Hs.
  apply StronglySorted_app in Hs as (Hcross & _ & Hs2).
  apply StronglySorted_cons in Hs2 as [Hafter _].
  rewrite (cons_middle ev l1 l2), app_assoc, readLoop_skip, readLoop_all; [done|..].
  - eapply Forall_impl; [exact Hafter|]. intros e He. apply after_spec. by right.
  - apply Forall_forall. intros e He. apply not_true_iff_false. rewrite after_spec.
    intros [|Hk]; [done|]. apply (irreflexivity keyLt (idKey ev)).
    apply elem_of_app in He as [He| ->%list_elem_of_singleton]; [|done].
    etransitivity; [exact Hk|]. apply Hcross; [done|]. by left.
Qed.

(** ** Runs of the store *)

(** One call on the store, with any arguments (and, for updates, any closure that
    leaves the record's ID alone, as all of hairpin's do). *)
Inductive memStep (m : memStore) : memStore → Prop :=
  | step_CreateJob j : memStep m (fst (memCreateJob j m))
  | step_UpdateJob {C : Type} id (fn : updater C) c :
      keeps_ID fn → memStep m (fst (memUpdateJob id fn c m))
  | step_DeleteJob id : memStep m (fst (memDeleteJob id m))
  | step_AppendEvent now id ev : memStep m (fst (memAppendEvent now id ev m))
  | step_PutPermission id p : memStep m (fst (memPutPermission id p m))
  | step_WatchEvents id a : memStep m (fst (memWatchEvents id a m))
  | step_RemoveWatcher a : memStep m (memRemoveWatcher a m)
  | step_WatcherRecv a : memStep m (fst (memWatcherRecv a m)).

#[export] Hint Constructors memStep : hairpin.

Lemma wf_memStep m m' : wf m → memStep m m' → wf m'.
Proof.
  destruct 2; auto using wf_CreateJob, wf_UpdateJob, wf_DeleteJob, wf_AppendEvent,
    wf_PutPermission, wf_WatchEvents, wf_RemoveWatcher, wf_WatcherRecv.
Qed.

Lemma wf_reachable n m : rtc memStep (NewMemStore n) m → wf m.
Proof.
  intros Hr. assert (∀ m1, rtc memStep m1 m → wf m1 → wf m) as H.
  { induction 1; eauto using wf_memStep. }
  eapply H; [done|]. apply wf_NewMemStore.
Qed.

(** The timeline after one append: the event, stamped, at the end, with the oldest
    dropped past the cap. *)
Lemma memAppendEvent_events now id ev m j :
  m_jobs m !! id = Some j →
  let at_ := if IsZero (ev_At ev) then now else ev_At ev in
  let seq := ((m_seq m + 1) `mod` 2 ^ 64)%N in
  let ev' := mkEvent (streamID (UnixMilli at_) seq) (ev_Type ev) (ev_PayloadJSON ev) at_ in
  let m' := fst (memAppendEvent now id ev m) in
  snd (memAppendEvent now id ev m) = Ok (ev_ID ev')
  ∧ slice_at (m_events m') id = last_n (m_maxLen m) (slice_at (m_events m) id ++ [ev'])
  ∧ (∀ id', id' ≠ id → m_events m' !! id' = m_events m !! id')
  ∧ m_seq m' = seq ∧ m_maxLen m' = m_maxLen m.
Proof.
  intros Hj. cbn zeta. unfold memAppendEvent. rewrite Hj. destruct m. cbn in *.
  split_and!; try done.
  - rewrite slice_at_insert, decide_True by done. case_match eqn:L; [done|].
    apply Nat.ltb_ge, Nat.sub_0_le in L. unfold last_n. by rewrite L.
  - intros id' Hne. by rewrite lookup_insert_ne.
Qed.

(** ** Properties *)

(** A stamped ID: the two numbers scan back. *)
Lemma idKey_stamped ev ms q :
  ev_ID ev = streamID (Z.of_N ms) q → (ms < 2 ^ 64)%N → (q < 2 ^ 64)%N → idKey ev = (ms, q).
Proof.
  intros E Hms Hq. unfold idKey. rewrite E. unfold streamID.
  replace (pretty (Z.of_N ms)) with (pretty ms) by by destruct ms.
  by apply Sscanf_d_d_print.
Qed.

Lemma timelineSorted_last_n k evs : timelineSorted evs → timelineSorted (last_n k evs).
Proof.
  unfold timelineSorted, last_n. intros Hs.
  rewrite <-(take_drop (length evs - k) evs) in Hs.
  by apply StronglySorted_app in Hs as (_ & _ & ?).
Qed.

(** C29. In every store reached from an empty one by any sequence of calls, the
    creation order lists exactly the stored jobs, once each; timelines and
    permission sets belong to stored jobs and timelines respect the cap; and the
    watchers of a job are live objects of that job whose [done] channel is still
    open, so [DeleteJob] never closes a closed channel, and whose history fits
    their channel, so [WatchEvents] never blocks while it holds the mutex. *)
Theorem memstore_reachable_wf (n : Z) (m : memStore)
  (Hreach : rtc memStep (NewMemStore n) m) :
  wf m ∧ ∀ id afterID, snd (memWatchEvents id afterID m) ≠ Panicked.
Proof.
  apply wf_reachable in Hreach as Hwf. split; [done|]. intros id afterID.
  unfold memWatchEvents. destruct (m_jobs m !! id); [|done].
  case_match eqn:L; [|done]. apply Nat.ltb_lt in L. exfalso.
  pose proof (length_filter (λ ev, after afterID ev = true) (slice_at (m_events m) id)).
  unfold slice_at in *. destruct (m_events m !! id) eqn:E; simpl in *; [|lia].
  apply (wf_events_len _ Hwf) in E. unfold watchCap in L. lia.
Qed.

Lemma memstore_reachable_wf_witness :
  let m := fst (memAppendEvent 7 sample_id (mkEvent "" "ready" "" 5)
                  (fst (memCreateJob sample_job (NewMemStore 0)))) in
  wf m ∧ ∀ id afterID, snd (memWatchEvents id afterID m) ≠ Panicked.
Proof.
  apply (memstore_reachable_wf 0).
  eapply rtc_l; [apply (step_CreateJob _ sample_job)|].
  eapply rtc_l; [apply (step_AppendEvent _ 7 sample_id (mkEvent "" "ready" "" 5))|].
  apply rtc_refl.
Defined.

(** Appending in time order keeps a timeline in strictly increasing ID order:
    when the new event is stamped no earlier (in milliseconds) than those already
    recorded for the job, and the store's counter has not wrapped, the new ID is
    above every ID of the timeline, and the counter invariant is kept. *)
Theorem append_keeps_timeline_sorted (m : memStore) (id : string) (j : Job) (ev : Event)
  (now : Time) (ms : N)
  (Hjob : m_jobs m !! id = Some j)
  (Hms : UnixMilli (if IsZero (ev_At ev) then now else ev_At ev) = Z.of_N ms)
  (Hms64 : (ms < 2 ^ 64)%N)
  (Hseq : (m_seq m + 1 < 2 ^ 64)%N)
  (Hsorted : timelineSorted (slice_at (m_events m) id))
  (Hpast : Forall (λ e, fst (idKey e) ≤ ms ∧ snd (idKey e) ≤ m_seq m)%N
             (slice_at (m_events m) id)) :
  let m' := fst (memAppendEvent now id ev m) in
  timelineSorted (slice_at (m_events m') id)
  ∧ Forall (λ e, fst (idKey e) ≤ ms ∧ snd (idKey e) ≤ m_seq m')%N (slice_at (m_events m') id).
Proof.
  cbn zeta. destruct (memAppendEvent_events now id ev m j Hjob) as (_ & Hev & _ & Hs & _).
  rewrite Hev, Hs, Hms, N.mod_small by done.
  set (e := mkEvent _ _ _ _).
  assert (idKey e = (ms, m_seq m + 1)%N) as Hk by (by apply idKey_stamped).
  split.
  - apply timelineSorted_last_n, StronglySorted_app. split_and!; [|done|repeat constructor].
    intros x y Hx ->%list_elem_of_singleton. rewrite Hk.
    rewrite Forall_forall in Hpast. destruct (Hpast _ Hx). unfold keyLt. simpl. lia.
  - unfold last_n. apply Forall_drop, Forall_app. split.
    + eapply Forall_impl; [exact Hpast|]. simpl. lia.
    + repeat constructor; rewrite Hk; simpl; lia.
Qed.

Definition sample_store : memStore := fst (memCreateJob sample_job (NewMemStore 0)).

Lemma append_keeps_timeline_sorted_witness :
  let m' := fst (memAppendEvent 0 sample_id (mkEvent "" "ready" "" (unixEpoch + Second))
                   sample_store) in
  timelineSorted (slice_at (m_events m') sample_id)
  ∧ Forall (λ e, fst (idKey e) ≤ 1000 ∧ snd (idKey e) ≤ m_seq m')%N
      (slice_at (m_events m') sample_id).
Proof.
  apply (append_keeps_timeline_sorted sample_store sample_id sample_job
           (mkEvent "" "ready" "" (unixEpoch + Second)) 0 1000);
    [reflexivity|reflexivity|reflexivity|reflexivity|constructor|constructor].
Defined.

(** On a timeline in ID order, the ID of a recorded event is an exact resume
    cursor: [ReadEvents] after it returns the next events, in order, none skipped
    and none repeated, up to the limit (1000 when the caller gives none). *)
Theorem ReadEvents_resumes_exactly (m : memStore) (id : string) (j : Job) (limit : Z)
  (before : list Event) (ev : Event) (rest : list Event)
  (Hjob : m_jobs m !! id = Some j)
  (Hsorted : timelineSorted (slice_at (m_events m) id))
  (Hsplit : slice_at (m_events m) id = before ++ ev :: rest)
  (Hid : ev_ID ev ≠ "") :
  memReadEvents id (ev_ID ev) limit m
  = Ok (take (Z.to_nat (if (limit <=? 0)%Z then 1000 else limit)) rest).
Proof.
  unfold memReadEvents. rewrite Hjob, Hsplit. rewrite Hsplit in Hsorted. f_equal.
  destruct (Z.to_nat (if (limit <=? 0)%Z then 1000 else limit)) eqn:E;
    [destruct (Z.leb_spec limit 0); lia|].
  by apply readLoop_resume.
Qed.

Definition two_event_store : memStore :=
  fst (memAppendEvent 0 sample_id (mkEvent "" "heartbeat" "" (unixEpoch + 2 * Second))
    (fst (memAppendEvent 0 sample_id (mkEvent "" "ready" "" (unixEpoch + Second)) sample_store))).

Lemma ReadEvents_resumes_exactly_witness :
  memReadEvents sample_id "1000-1" 10 two_event_store
  = Ok [mkEvent "2000-2" "heartbeat" "" (unixEpoch + 2 * Second)].
Proof.
  apply (ReadEvents_resumes_exactly two_event_store sample_id sample_job 10 []
           (mkEvent "1000-1" "ready" "" (unixEpoch + Second))
           [mkEvent "2000-2" "heartbeat" "" (unixEpoch + 2 * Second)]);
    [reflexivity| |reflexivity|discriminate].
  repeat constructor.
Defined.

(** A page token at or past the end of the creation order crashes the
    in-memory [ListJobs] with an index out of range instead of being refused: any
    caller-chosen number does it, and so does a token the store itself issued once
    enough jobs have been deleted behind it. *)
Theorem ListJobs_token_out_of_range_panics `{UnicodeTables} (m : memStore) (limit : Z) (tok : string) (i : Z)
  (Htok : tok ≠ "") (Hscan : Sscanf_d tok = Some i)
  (Hrange : (0 ≤ i)%Z ∧ (Z.of_nat (length (m_order m)) ≤ i)%Z) :
  memListJobs limit tok m = Panicked.
Proof.
  unfold memListJobs. rewrite bool_decide_eq_false_2, Hscan by done.
  destruct (Z.to_nat (i + 2)) as [|f] eqn:E; [lia|]. cbn [listLoop].
  destruct (Z.leb_spec 0 i); [|lia]. simpl andb.
  set (l := if (limit <=? 0)%Z then 50%Z else limit).
  cbn [length]. destruct (Nat.ltb_spec 0 (Z.to_nat l)) as [_|Hl]; cycle 1.
  { unfold l in Hl. destruct (Z.leb_spec limit 0); lia. }
  by rewrite (proj2 (lookup_ge_None (m_order m) (Z.to_nat i))) by lia.
Qed.

(** Three jobs, a page of one, and then two of them deleted. *)
Definition job_named (id : string) : Job :=
  mkJob id StatusQueued "p" "" "{}" "" "" "" 1 0 0 0 false "" "t" [].

Definition three_jobs : memStore :=
  fst (memCreateJob (job_named "c") (fst (memCreateJob (job_named "b")
    (fst (memCreateJob (job_named "a") (NewMemStore 0)))))).

Definition one_left : memStore := fst (memDeleteJob "a" (fst (memDeleteJob "b" three_jobs))).

Lemma ListJobs_token_out_of_range_panics_witness :
  @memListJobs sample_tables 1 "" three_jobs = Returned (Ok ([job_named "c"], "1"))
  ∧ @memListJobs sample_tables 1 "1" one_left = Panicked.
Proof.
  split; [reflexivity|].
  apply (ListJobs_token_out_of_range_panics (H := sample_tables) one_left 1 "1" 1);
    [discriminate|reflexivity|split; vm_compute; discriminate].
Defined.

Lemma omap_remove_one (js : gmap string Job) id (l : list string) :
  (∀ x j, js !! x = Some j → j_ID j = x) → NoDup l →
  omap (λ x, delete id js !! x) (remove_one id l)
  = filter (λ j, j_ID j ≠ id) (omap (λ x, js !! x) l).
Proof.
  intros Hids. induction l as [|x l IH]; intros Hd; [done|].
  apply NoDup_cons in Hd as [Hx Hd]. csimpl.
  assert (id ∉ l → omap (λ x, delete id js !! x) l
    = filter (λ j, j_ID j ≠ id) (omap (λ x, js !! x) l)) as Habs.
  { clear -Hids. induction l as [|y l IH]; intros Hn; [done|]. csimpl.
    rewrite not_elem_of_cons in Hn. destruct Hn as [Hy Hn]. rewrite lookup_delete_ne by done.
    destruct (js !! y) as [j|] eqn:Ej; [|auto]. rewrite filter_cons_True, IH; [done|done|].
    by rewrite (Hids _ _ Ej). }
  case_bool_decide as Hxi.
  - subst. rewrite Habs by done. destruct (js !! id) as [j|] eqn:Ej; [|done].
    rewrite filter_cons_False; [done|]. rewrite (Hids _ _ Ej). tauto.
  - csimpl. rewrite lookup_delete_ne by done. rewrite IH by done.
    destruct (js !! x) as [j|] eqn:Ej; [|done].
    rewrite filter_cons_True; [done|]. by rewrite (Hids _ _ Ej).
Qed.

Lemma omap_reverse {A B} (f : A → option B) l : omap f (reverse l) = reverse (omap f l).
Proof.
  induction l as [|x l IH]; [done|]. rewrite reverse_cons, omap_app, IH. csimpl.
  destruct (f x); [by rewrite reverse_cons | by rewrite app_nil_r].
Qed.

Lemma filter_reverse {A} (P : A → Prop) `{∀ x, Decision (P x)} (l : list A) :
  filter P (reverse l) = reverse (filter P l).
Proof.
  induction l as [|x l IH]; [done|]. rewrite reverse_cons, filter_app, IH, !filter_cons.
  case_decide; [by rewrite reverse_cons | by rewrite app_nil_r].
Qed.

Lemma allJobs_delete m id j :
  wf m → m_jobs m !! id = Some j →
  allJobs (fst (memDeleteJob id m)) = filter (λ j, j_ID j ≠ id) (allJobs m).
Proof.
  intros Hwf Hj. unfold allJobs, newest. rewrite !take_ge, !omap_reverse, filter_reverse by done.
  rewrite <-omap_remove_one by apply Hwf.
  unfold memDeleteJob. rewrite Hj. by destruct m.
Qed.

(** [DeleteJob] of a stored job removes its record, its timeline, its
    permission requests, its place in the listing and ends its watchers, and
    touches nothing of any other job; deleting an unknown job is [ErrNotFound] and
    changes nothing. *)
Theorem DeleteJob_removes_exactly (m : memStore) (id : string) (Hwf : wf m) :
  let '(m', r) := memDeleteJob id m in
  match m_jobs m !! id with
  | None => m' = m ∧ ∃ e, r = Err e ∧ errorsIs e ErrNotFound = true
  | Some _ =>
      r = Ok tt
      ∧ memGetJob id m' = Err (notFound id)
      ∧ memReadEvents id "" 0 m' = Err (notFound id)
      ∧ (∀ q, is_Ok (memGetPermission id q m') = false)
      ∧ allJobs m' = filter (λ j, j_ID j ≠ id) (allJobs m)
      ∧ (∀ a, a ∈ slice_at (m_watchers m) id → ∃ w, m_heap m' !! a = Some w ∧ w_done w = true)
      ∧ (∀ id', id' ≠ id →
           m_jobs m' !! id' = m_jobs m !! id' ∧ m_events m' !! id' = m_events m !! id'
           ∧ m_perms m' !! id' = m_perms m !! id'
           ∧ m_watchers m' !! id' = m_watchers m !! id')
  end.
Proof.
  pose proof (allJobs_delete m id) as Hall. unfold memDeleteJob in *.
  destruct (m_jobs m !! id) as [j|] eqn:E; cycle 1.
  { split; [done|]. eexists. split; [done|]. unfold notFound. by rewrite errorsIs_wrapf. }
  split_and!; [done| | | | | |].
  - unfold memGetJob. destruct m; cbn. by rewrite lookup_delete_eq.
  - unfold memReadEvents. destruct m; cbn. by rewrite lookup_delete_eq.
  - intros q. unfold memGetPermission. destruct m; cbn. by rewrite lookup_delete_eq.
  - by apply (Hall j).
  - intros a Ha. destruct (wf_watchers_heap _ Hwf _ _ Ha) as (w & Hw & _ & _).
    pose proof (wf_watchers_nodup _ Hwf id). destruct m; cbn in *. unfold close_all.
    rewrite lookup_foldr_alter, decide_True, Hw by done. by eexists.
  - intros id' Hne. destruct m; cbn. by rewrite !lookup_delete_ne.
Qed.

Lemma DeleteJob_removes_exactly_witness :
  memDeleteJob "b" three_jobs =
    (fst (memDeleteJob "b" three_jobs), Ok tt)
  ∧ allJobs (fst (memDeleteJob "b" three_jobs)) = [job_named "c"; job_named "a"].
Proof.
  pose proof (DeleteJob_removes_exactly three_jobs "b"
    (wf_CreateJob _ _ (wf_CreateJob _ _ (wf_CreateJob _ _ (wf_NewMemStore 0))))) as H.
  destruct (memDeleteJob "b" three_jobs) as [m' r] eqn:E.
  destruct H as (-> & _ & _ & _ & Hall & _). split; [reflexivity|].
  cbn [fst]. rewrite Hall. reflexivity.
Defined.
