(* ===== verification/Redis.v ===== *)
(** * Redis as the store uses it

    The Redis store talks to a server this development does not contain, so the
    server is a parameter: a state, and a function that serves one command
    ([Redis]).  [RedisLaws] states the documented behaviour of the commands the
    store issues, over the keyspace they act on, and of [WATCH]: every change of a
    key moves its modification count, and [EXEC] is refused when the count of a
    watched key is not what it was.

    A store operation is a tree of commands ([rprog]).  [exec] runs it while other
    clients act on the server between any two of its commands; [rstep] interleaves
    a pool of operations. *)

From stdpp Require Import base gmap list strings pretty sorting relations.
From Stdlib Require Import Ascii.
From S2P Require Import Prelude Job Store.

(** ** The keyspace *)

(** An entry of a stream: its ID (milliseconds and sequence number) and its fields. *)
Record entry := mkEntry {
  x_ms : N;
  x_seq : N;
  x_values : gmap string string;
}.

#[export] Instance entry_eq_dec : EqDecision entry.
Proof. solve_decision. Defined.

Definition entryLt (a b : N * N) : Prop := (a.1 < b.1)%N ∨ a.1 = b.1 ∧ (a.2 < b.2)%N.

#[export] Instance entryLt_dec : RelDecision entryLt.
Proof. intros a b. unfold entryLt. apply _. Defined.

Definition x_key (x : entry) : N * N := (x_ms x, x_seq x).

Definition idText (i : N * N) : string := pretty i.1 +:+ "-" +:+ pretty i.2.

(** The values the store keeps: hashes, sets of members with equal scores, streams. *)
Inductive rvalue :=
  | RHash (h : gmap string string)
  | RZSet (X : gset string)
  | RStream (xs : list entry).

#[export] Instance rvalue_eq_dec : EqDecision rvalue.
Proof. solve_decision. Defined.

Abbreviation keyspace := (gmap string rvalue) (only parsing).

(** ** Commands *)

(** The commands of a transaction. *)
Inductive wcmd :=
  | HSet (key : string) (fields : list (string * string))
  | HDel (key : string) (fields : list string)
  | Del (keys : list string)
  | ZAdd (key member : string)
  | ZRem (key member : string).

(** One message of a stream, as the client hands it over. *)
Record XMessage := mkXMessage {
  xm_ID : string;
  xm_Values : gmap string string;
}.

(** One call of the client library.  [CWatch] opens a transaction on a key and answers
    the watch; [CExec] is [TxPipelined] inside it, [CTx] outside of any.  The last ones
    are the client's own: clock, randomness, sleeping, and in the goroutine of
    [WatchEvents] the hand-over of an event and the pause between polls, which answer
    whether the context is still live. *)
Inductive rcmd : Type → Type :=
  | CExists (key : string) : rcmd (res Z)
  | CHGetAll (key : string) : rcmd (res (gmap string string))
  | CHGet (key field : string) : rcmd (res string)
  | CHSet (key field value : string) : rcmd (res unit)
  | CZRangeRevLex (key start : string) (count : Z) : rcmd (res (list string))
  | CXAdd (key : string) (maxLen : Z) (values : gmap string string) : rcmd (res string)
  | CXRangeN (key start : string) (count : Z) : rcmd (res (list XMessage))
  | CTx (cmds : list wcmd) : rcmd (res unit)
  | CWatch (key : string) : rcmd (res nat)
  | CExec (key : string) (watch : nat) (cmds : list wcmd) : rcmd (res unit)
  | CNow : rcmd Time
  | CRand (n : Z) : rcmd Z
  | CSleep (d : Duration) : rcmd unit
  | CDeliver (ev : Event) : rcmd bool
  | CPoll (d : Duration) : rcmd bool.

(** ** Documented effects *)

Definition wrongType : error :=
  ErrNew "WRONGTYPE Operation against a key holding the wrong kind of value".

(** The value of a key as a hash, a set or a stream; an absent key is an empty one. *)
Definition asHash (v : option rvalue) : option (gmap string string) :=
  match v with None => Some ∅ | Some (RHash h) => Some h | _ => None end.
Definition asZSet (v : option rvalue) : option (gset string) :=
  match v with None => Some ∅ | Some (RZSet X) => Some X | _ => None end.
Definition asStream (v : option rvalue) : option (list entry) :=
  match v with None => Some [] | Some (RStream xs) => Some xs | _ => None end.

(** A hash or a set without elements does not exist. *)
Definition putHash (k : string) (h : gmap string string) (m : keyspace) : keyspace :=
  if bool_decide (h = ∅) then delete k m else <[k := RHash h]> m.
Definition putZSet (k : string) (X : gset string) (m : keyspace) : keyspace :=
  if bool_decide (X = ∅) then delete k m else <[k := RZSet X]> m.

(** Field-value pairs written from left to right. *)
Definition hset (fields : list (string * string)) (h : gmap string string) : gmap string string :=
  foldl (λ h '(f, v), <[f := v]> h) h fields.
Definition hdel (fields : list string) (h : gmap string string) : gmap string string :=
  foldl (λ h f, delete f h) h fields.

Definition applyCmd (c : wcmd) (m : keyspace) : keyspace * option error :=
  match c with
  | HSet k fs =>
      match asHash (m !! k) with
      | Some h => (putHash k (hset fs h) m, None) | None => (m, Some wrongType) end
  | HDel k fs =>
      match asHash (m !! k) with
      | Some h => (putHash k (hdel fs h) m, None) | None => (m, Some wrongType) end
  | Del ks => (foldl (λ m k, delete k m) m ks, None)
  | ZAdd k x =>
      match asZSet (m !! k) with
      | Some X => (putZSet k ({[x]} ∪ X) m, None) | None => (m, Some wrongType) end
  | ZRem k x =>
      match asZSet (m !! k) with
      | Some X => (putZSet k (X ∖ {[x]}) m, None) | None => (m, Some wrongType) end
  end.

(** All the commands run, whatever becomes of each; the first error is answered. *)
Fixpoint applyCmds (cs : list wcmd) (m : keyspace) : keyspace * option error :=
  match cs with
  | [] => (m, None)
  | c :: cs' =>
      let '(m1, e1) := applyCmd c m in
      let '(m2, e2) := applyCmds cs' m1 in
      (m2, match e1 with Some e => Some e | None => e2 end)
  end.

Definition replyOf (e : option error) : res unit :=
  match e with Some e => Err e | None => Ok tt end.

(** Members by descending byte order. *)
Definition lexGe (a b : string) : Prop := String.leb b a = true.

#[export] Instance lexGe_dec : RelDecision lexGe.
Proof. intros a b. unfold lexGe. apply _. Defined.

Definition descending (X : gset string) : list string := merge_sort lexGe (elements X).

(** [ZRANGE key start - BYLEX REV LIMIT 0 count]: from the top, or from below the
    member after the parenthesis. *)
Definition revLex (start : string) (X : gset string) : option (list string) :=
  match start with
  | String "+" EmptyString => Some (descending X)
  | String "(" t => Some (filter (λ x, String.ltb x t = true) (descending X))
  | _ => None
  end.

Definition messageOf (x : entry) : XMessage := mkXMessage (idText (x_key x)) (x_values x).

(** What the server may leave of a stream after an append with an approximate limit:
    the newest entries, at least as many as the limit. *)
Definition trimmed (maxLen : Z) (xs kept : list entry) : Prop :=
  suffix kept xs ∧ (Z.min maxLen (Z.of_nat (length xs)) ≤ Z.of_nat (length kept))%Z.

(** The keys a command may modify. *)
Definition touches (c : wcmd) : list string :=
  match c with
  | HSet k _ | HDel k _ | ZAdd k _ | ZRem k _ => [k]
  | Del ks => ks
  end.

(** ** The server *)

(** [serve c n s]: the server's state and the answer; [n] is the moment. *)
Class Redis (R : Type) := serve : ∀ {X : Type}, rcmd X → nat → R → R * X.

(** Whether a command only reads. *)
Definition readOnly {X} (c : rcmd X) : bool :=
  match c with
  | CHSet _ _ _ | CXAdd _ _ _ | CTx _ | CExec _ _ _ => false
  | _ => true
  end.

Class RedisLaws (R : Type) `{Redis R} := {
  keys : R → keyspace;
  version : R → string → nat;
  (* any command: a key that changes has been modified *)
  law_version : ∀ X (c : rcmd X) n s k,
    version s k ≤ version (fst (serve c n s)) k
    ∧ (keys (fst (serve c n s)) !! k ≠ keys s !! k →
       version s k < version (fst (serve c n s)) k);
  law_read : ∀ X (c : rcmd X) n s,
    readOnly c = true →
    keys (fst (serve c n s)) = keys s ∧ version (fst (serve c n s)) = version s;
  law_exists : ∀ k n s,
    snd (serve (CExists k) n s) = Ok (if bool_decide (is_Some (keys s !! k)) then 1 else 0)%Z;
  law_hgetall : ∀ k n s,
    snd (serve (CHGetAll k) n s)
    = match asHash (keys s !! k) with Some h => Ok h | None => Err wrongType end;
  law_hget : ∀ k f n s,
    snd (serve (CHGet k f) n s)
    = match asHash (keys s !! k) with
      | Some h => match h !! f with Some v => Ok v | None => Err RedisNil end
      | None => Err wrongType
      end;
  law_zrange : ∀ k start count n s X l,
    asZSet (keys s !! k) = Some X → revLex start X = Some l → (0 ≤ count)%Z →
    snd (serve (CZRangeRevLex k start count) n s) = Ok (take (Z.to_nat count) l);
  law_xrange : ∀ k count n s xs, asStream (keys s !! k) = Some xs → (0 ≤ count)%Z →
    snd (serve (CXRangeN k "-" count) n s) = Ok (messageOf <$> take (Z.to_nat count) xs)
    ∧ ∀ i, snd (serve (CXRangeN k ("(" +:+ idText i) count) n s)
           = Ok (messageOf <$> take (Z.to_nat count) (filter (λ x, entryLt i (x_key x)) xs));
  law_hset : ∀ k f v n s,
    let '(m', e) := applyCmd (HSet k [(f, v)]) (keys s) in
    serve (CHSet k f v) n s = (fst (serve (CHSet k f v) n s), replyOf e)
    ∧ keys (fst (serve (CHSet k f v) n s)) = m'
    ∧ ∀ k', k' ≠ k → version (fst (serve (CHSet k f v) n s)) k' = version s k';
  law_xadd : ∀ k maxLen vs n s xs, asStream (keys s !! k) = Some xs →
    ∃ s' i kept, serve (CXAdd k maxLen vs) n s = (s', Ok (idText i))
      ∧ Forall (λ x, entryLt (x_key x) i) xs
      ∧ trimmed maxLen (xs ++ [mkEntry i.1 i.2 vs]) kept
      ∧ keys s' = <[k := RStream kept]> (keys s)
      ∧ ∀ k', k' ≠ k → version s' k' = version s k';
  law_xadd_wrong : ∀ k maxLen vs n s, asStream (keys s !! k) = None →
    snd (serve (CXAdd k maxLen vs) n s) = Err wrongType
    ∧ keys (fst (serve (CXAdd k maxLen vs) n s)) = keys s;
  law_tx : ∀ cs n s,
    keys (fst (serve (CTx cs) n s)) = (applyCmds cs (keys s)).1
    ∧ snd (serve (CTx cs) n s) = replyOf (applyCmds cs (keys s)).2
    ∧ ∀ k, k ∉ cs ≫= touches → version (fst (serve (CTx cs) n s)) k = version s k;
  law_watch : ∀ k n s, snd (serve (CWatch k) n s) = Ok (version s k);
  law_exec : ∀ k w cs n s,
    if decide (version s k = w) then
      keys (fst (serve (CExec k w cs) n s)) = (applyCmds cs (keys s)).1
      ∧ snd (serve (CExec k w cs) n s) = replyOf (applyCmds cs (keys s)).2
      ∧ ∀ k', k' ∉ cs ≫= touches → version (fst (serve (CExec k w cs) n s)) k' = version s k'
    else
      snd (serve (CExec k w cs) n s) = Err TxFailedErr
      ∧ keys (fst (serve (CExec k w cs) n s)) = keys s
      ∧ version (fst (serve (CExec k w cs) n s)) = version s;
}.

(** ** Operations *)

Inductive rprog (A : Type) : Type :=
  | RRet (a : A)
  | RAct {X : Type} (c : rcmd X) (k : X → rprog A)
  | RCut.
Arguments RRet {A} a.
Arguments RAct {A X} c k.
Arguments RCut {A}.

Fixpoint rbind {A B : Type} (p : rprog A) (f : A → rprog B) : rprog B :=
  match p with
  | RRet a => f a
  | RAct c k => RAct c (λ x, rbind (k x) f)
  | RCut => RCut
  end.

#[export] Instance rprog_ret : MRet rprog := @RRet.
#[export] Instance rprog_bind : MBind rprog := λ A B f p, rbind p f.

Definition call {X} (c : rcmd X) : rprog X := RAct c RRet.

(** A call whose error ends the operation. *)
Definition try {X A} (c : rcmd (res X)) (fail : error → A) (k : X → rprog A) : rprog A :=
  r ← call c; match r with Ok x => k x | Err e => mret (fail e) end.

(** ** Executions *)

(** A call to the server that fails in transport: the answer is some error of the
    connection, and nobody knows whether the server acted. *)
Definition lostReply {X} (c : rcmd X) (msg : string) : option X :=
  match c with
  | CExists _ | CHGetAll _ | CHGet _ _ | CHSet _ _ _ | CZRangeRevLex _ _ _ | CXAdd _ _ _
  | CXRangeN _ _ _ | CTx _ | CWatch _ | CExec _ _ _ => Some (Err (ErrNew msg))
  | CNow | CRand _ | CSleep _ | CDeliver _ | CPoll _ => None
  end.

Section executions.
Context {R : Type} `{Redis R}.

Inductive answered {X} (c : rcmd X) (n : nat) (s s' : R) (x : X) : Prop :=
  | answered_served : serve c n s = (s', x) → answered c n s s' x
  | answered_lost (msg : string) (applied : bool) :
      lostReply c msg = Some x → s' = (if applied then fst (serve c n s) else s) →
      answered c n s s' x.

(** Other clients act on the server: any commands, any number of them. *)
Definition interferes : relation R :=
  rtc (λ s s', ∃ X (c : rcmd X) n, s' = fst (serve c n s)).

(** One call of an operation, with the server before and after it. *)
Inductive logged :=
  | Logged {X : Type} (c : rcmd X) (s s' : R) (x : X) : logged.

(** [exec p s log s' a]: started on the server [s], the operation makes the calls of
    [log], others acting before each of them, and returns [a] leaving [s']. *)
Fixpoint exec {A} (p : rprog A) (s : R) (log : list logged) (s' : R) (a : A) : Prop :=
  match p with
  | RRet b => log = [] ∧ s' = s ∧ b = a
  | RAct c k =>
      ∃ s1 s2 n x log', interferes s s1 ∧ answered c n s1 s2 x
        ∧ log = Logged c s1 s2 x :: log' ∧ exec (k x) s2 log' s' a
  | RCut => False
  end.

(** The operation alone, from the moment [n] on, with every call served. *)
Fixpoint runAlone {A} (p : rprog A) (n : nat) (s : R) : R * option A :=
  match p with
  | RRet a => (s, Some a)
  | RAct c k => let '(s', x) := serve c n s in runAlone (k x) (S n) s'
  | RCut => (s, None)
  end.

(** A pool of operations, one call at a time. *)
Inductive rstep {A} : R * list (rprog A) → R * list (rprog A) → Prop :=
  | rstep_call s ts i X (c : rcmd X) k n s' x :
      ts !! i = Some (RAct c k) → answered c n s s' x →
      rstep (s, ts) (s', <[i := k x]> ts).

(** ** Concrete executions *)

(** A command of another client. *)
Definition someCmd : Type := { X : Type & rcmd X }.

Definition served (n : nat) (cs : list someCmd) (s : R) : R :=
  foldl (λ s c, fst (serve (projT2 c) n s)) s cs.

(** The operation with the commands [others n] served just before its [n]-th call. *)
Fixpoint record {A} (others : nat → list someCmd) (p : rprog A) (n : nat) (s : R)
  : list logged * R * option A :=
  match p with
  | RRet a => ([], s, Some a)
  | RAct c k =>
      let s1 := served n (others n) s in
      let '(s2, x) := serve c n s1 in
      let '(log, s', r) := record others (k x) (S n) s2 in
      (Logged c s1 s2 x :: log, s', r)
  | RCut => ([], s, None)
  end.

(** The next call of the [i]-th operation of a pool, and a schedule of such. *)
Definition rexecOne {A} (n i : nat) (c : R * list (rprog A)) : R * list (rprog A) :=
  let '(s, ts) := c in
  match ts !! i with
  | Some (RAct cmd k) => let '(s', x) := serve cmd n s in (s', <[i := k x]> ts)
  | _ => c
  end.

Fixpoint rexec {A} (sched : list nat) (n : nat) (c : R * list (rprog A)) : R * list (rprog A) :=
  match sched with
  | [] => c
  | i :: sched' => rexec sched' (S n) (rexecOne n i c)
  end.

Lemma served_interferes n cs s : interferes s (served n cs s).
Proof.
  unfold served. revert s. induction cs as [|[X c] cs IH]; intros s; [done|]. cbn.
  eapply rtc_l; [by exists X, c, n|apply IH].
Qed.

Lemma record_exec {A} others (p : rprog A) n s log s' a :
  record others p n s = (log, s', Some a) → exec p s log s' a.
Proof.
  revert n s log. induction p as [b|X c k IH|]; intros n s log; cbn.
  - intros [= <- <- <-]. done.
  - destruct (serve c n (served n (others n) s)) as [s2 x] eqn:Es.
    destruct (record others (k x) (S n) s2) as [[log' s3] r] eqn:Er. intros [= <- <- ->].
    exists (served n (others n) s), s2, n, x, log'. split_and!; [apply served_interferes| |done|].
    + by constructor.
    + by eapply IH.
  - done.
Qed.

Lemma record_result {A} others (p : rprog A) n s a :
  snd (record others p n s) = Some a →
  exec p s (fst (fst (record others p n s))) (snd (fst (record others p n s))) a.
Proof.
  intros Hr. destruct (record others p n s) as [[log s'] r] eqn:E. cbn in *. subst.
  by eapply record_exec.
Qed.

Lemma rexec_steps {A} sched n (c : R * list (rprog A)) : rtc rstep c (rexec sched n c).
Proof.
  revert n c. induction sched as [|i sched IH]; intros n c; [done|]. cbn.
  enough (rexecOne n i c = c ∨ rstep c (rexecOne n i c)) as [->|Hs]; [apply IH| |].
  { eapply rtc_l; [exact Hs|apply IH]. }
  destruct c as [s ts]. cbn. destruct (ts !! i) as [[a|X cmd k|]|] eqn:Ei; auto. right.
  destruct (serve cmd n s) as [s' x] eqn:Es. econstructor; [exact Ei|]. by constructor.
Qed.

End executions.

(** Every path through the operation makes at most [n] calls and then returns. *)
Fixpoint callsAtMost {A} (n : nat) (p : rprog A) {struct p} : Prop :=
  match p with
  | RRet _ => True
  | RAct c k => match n with 0 => False | S n' => ∀ x, callsAtMost n' (k x) end
  | RCut => False
  end.

(** ** Lemmas *)

Section lemmas.
Context {R : Type} `{RedisLaws R}.
Implicit Types s : R.

Lemma exec_bind {A B} (p : rprog A) (f : A → rprog B) s log s' b :
  exec (p ≫= f) s log s' b ↔
  ∃ a s1 l1 l2, exec p s l1 s1 a ∧ log = l1 ++ l2 ∧ exec (f a) s1 l2 s' b.
Proof.
  revert s log. induction p as [a|X c k IH|]; intros s log.
  - cbn. split; [intros; by exists a, s, [], log|]. intros (a' & s1 & l1 & l2 & (-> & -> & ->) & -> & E).
    done.
  - change (RAct c k ≫= f) with (RAct c (λ x, k x ≫= f)). cbn [exec]. split.
    + intros (s1 & s2 & n & x & log' & Hi & Ha & -> & (a & s3 & l1 & l2 & E1 & -> & E2)%IH).
      exists a, s3, (Logged c s1 s2 x :: l1), l2. split; [|done]. by exists s1, s2, n, x, l1.
    + intros (a & s3 & l1 & l2 & (s1 & s2 & n & x & log' & Hi & Ha & -> & E1) & -> & E2).
      exists s1, s2, n, x, (log' ++ l2). split_and!; try done. apply IH. by exists a, s3, log', l2.
  - cbn. naive_solver.
Qed.

Lemma exec_try {X A} (c : rcmd (res X)) (fail : error → A) k s log s' a :
  exec (try c fail k) s log s' a ↔
  ∃ s1 s2 n x log', interferes s s1 ∧ answered c n s1 s2 x ∧ log = Logged c s1 s2 x :: log'
    ∧ match x with
      | Ok v => exec (k v) s2 log' s' a
      | Err e => log' = [] ∧ s' = s2 ∧ fail e = a
      end.
Proof.
  split; intros (s1 & s2 & n & x & log' & Hi & Ha & -> & E); exists s1, s2, n, x, log';
    (split_and!; [done..|]); by destruct x.
Qed.

Lemma exec_call {X} (c : rcmd X) s log s' x :
  exec (call c) s log s' x ↔
  ∃ s1 n, interferes s s1 ∧ answered c n s1 s' x ∧ log = [Logged c s1 s' x].
Proof.
  split.
  - intros (s1 & s2 & n & y & log' & Hi & Ha & -> & -> & -> & ->). by exists s1, n.
  - intros (s1 & n & Hi & Ha & ->). by exists s1, s', n, x, [].
Qed.

Lemma callsAtMost_mono {A} n m (p : rprog A) : n ≤ m → callsAtMost n p → callsAtMost m p.
Proof.
  revert n m. induction p as [a|X c k IH|]; intros [|n] [|m] Hle; cbn; try done; [lia|].
  intros Hp x. eapply IH; [|apply Hp]. lia.
Qed.

Lemma callsAtMost_bind {A B} n m (p : rprog A) (f : A → rprog B) :
  callsAtMost n p → (∀ a, callsAtMost m (f a)) → callsAtMost (n + m) (p ≫= f).
Proof.
  revert n. induction p as [a|X c k IH|]; intros n Hp Hf; cbn in *; [|destruct n; [done|]|done].
  - eapply callsAtMost_mono; [|apply Hf]. lia.
  - cbn. intros x. by apply IH.
Qed.

Lemma runAlone_bind {A B} (p : rprog A) (f : A → rprog B) n s :
  ∃ m, runAlone (p ≫= f) n s
  = match runAlone p n s with
    | (s', Some a) => runAlone (f a) m s'
    | (s', None) => (s', None)
    end.
Proof.
  revert n s. induction p as [a|X c k IH|]; intros n s.
  - by exists n.
  - change (RAct c k ≫= f) with (RAct c (λ x, k x ≫= f)). cbn [runAlone].
    destruct (serve c n s) as [s' x]. apply IH.
  - by exists n.
Qed.

(** What the count of a key tells: a key whose count has not moved has not changed. *)
Definition later (k : string) (s s' : R) : Prop :=
  version s k ≤ version s' k ∧ (version s' k = version s k → keys s' !! k = keys s !! k).

#[export] Instance later_preorder k : PreOrder (later k).
Proof.
  split; [by intros s; split|]. intros s1 s2 s3 [H1 H1'] [H2 H2']. split; [lia|].
  intros Hv. rewrite H2', H1'; [done|lia..].
Qed.

Lemma later_serve {X} (c : rcmd X) n s k : later k s (fst (serve c n s)).
Proof.
  destruct (law_version X c n s k) as [Hle Hlt]. split; [done|]. intros Hv.
  destruct (decide (keys (fst (serve c n s)) !! k = keys s !! k)) as [|Hne]; [done|].
  apply Hlt in Hne. lia.
Qed.

Lemma later_answered {X} (c : rcmd X) n s s' x k : answered c n s s' x → later k s s'.
Proof.
  intros [E|msg [] _ ->]; [|apply later_serve|done]. pose proof (later_serve c n s k) as Hl.
  by rewrite E in Hl.
Qed.

Lemma later_interferes s s' k : interferes s s' → later k s s'.
Proof.
  induction 1 as [s|s1 s2 s3 (X & c & n & ->) _ IH]; [done|]. exact (transitivity (later_serve c n s1 k) IH).
Qed.

(** A lost reply or a read leaves no trace a reader could see, or the same one. *)
Lemma answered_read {X} (c : rcmd X) n s s' x :
  readOnly c = true → answered c n s s' x → keys s' = keys s ∧ version s' = version s.
Proof.
  intros Hc. destruct (law_read X c n s Hc) as [Hk Hv].
  intros [E|msg [] _ ->]; [|done..]. by rewrite E in Hk, Hv.
Qed.

Lemma steps_rinvariant {A} (I : R * list (rprog A) → Prop) x y :
  (∀ a b, I a → rstep a b → I b) → rtc rstep x y → I x → I y.
Proof. intros HI Hr. induction Hr as [|a b c Hs _ IH]; naive_solver. Qed.

End lemmas.
