(* ===== verification/RedisModel.v ===== *)
(** * A server that keeps the laws

    An executable keyspace with modification counts.  It shows that the laws of
    [RedisLaws] can hold together, and concrete evaluations of the store run on it. *)

From stdpp Require Import base gmap list strings pretty sorting.
From Stdlib Require Import Ascii.
From S2P Require Import Prelude Fmt Job Store Redis.

Record server := mkServer {
  sv_keys : gmap string rvalue;
  sv_version : gmap string nat;
}.

Definition versionOf (s : server) (k : string) : nat := default 0 (sv_version s !! k).

(** Count a modification of each of the keys. *)
Definition bump (ks : list string) (v : gmap string nat) : gmap string nat :=
  foldr (λ k v, <[k := S (default 0 (v !! k))]> v) v ks.

(** Keep the newest [n] entries. *)
Definition newestEntries (n : nat) (xs : list entry) : list entry := drop (length xs - n) xs.

Definition topMs (xs : list entry) : N := foldr (λ x m, N.max (x_ms x) m) 0%N xs.

Definition nextID (n : nat) (xs : list entry) : N * N := (N.max (N.of_nat n) (topMs xs + 1), 0)%N.

(** The ID a text such as [7-0] names. *)
Definition readID (t : string) : N * N :=
  let '(a, r) := scanDigits 0 t in
  match r with String "-" r' => (a, fst (scanDigits 0 r')) | _ => (a, 0%N) end.

Definition write (cs : list wcmd) (s : server) : server * res unit :=
  let '(m, e) := applyCmds cs (sv_keys s) in
  (mkServer m (bump (cs ≫= touches) (sv_version s)), replyOf e).

(** The context of a watch is done at the 64th moment. *)
Definition serverServe {X} (c : rcmd X) (n : nat) (s : server) : server * X :=
  match c in rcmd X return server * X with
  | CExists k => (s, Ok (if bool_decide (is_Some (sv_keys s !! k)) then 1 else 0)%Z)
  | CHGetAll k => (s, match asHash (sv_keys s !! k) with Some h => Ok h | None => Err wrongType end)
  | CHGet k f =>
      (s, match asHash (sv_keys s !! k) with
          | Some h => match h !! f with Some v => Ok v | None => Err RedisNil end
          | None => Err wrongType
          end)
  | CHSet k f v => write [HSet k [(f, v)]] s
  | CZRangeRevLex k start count =>
      (s, match asZSet (sv_keys s !! k) with
          | Some X =>
              match revLex start X with
              | Some l => Ok (take (Z.to_nat count) l)
              | None => Err (ErrNew "ERR min or max not valid string range item")
              end
          | None => Err wrongType
          end)
  | CXAdd k maxLen vs =>
      match asStream (sv_keys s !! k) with
      | Some xs =>
          let i := nextID n xs in
          (mkServer (<[k := RStream (newestEntries (Z.to_nat maxLen) (xs ++ [mkEntry i.1 i.2 vs]))]>
                       (sv_keys s)) (bump [k] (sv_version s)), Ok (idText i))
      | None => (s, Err wrongType)
      end
  | CXRangeN k start count =>
      (s, match asStream (sv_keys s !! k) with
          | Some xs =>
              match start with
              | String "-" EmptyString => Ok (messageOf <$> take (Z.to_nat count) xs)
              | String "(" t =>
                  let i := readID t in
                  Ok (messageOf <$> take (Z.to_nat count) (filter (λ x, entryLt i (x_key x)) xs))
              | _ => Err (ErrNew "ERR Invalid stream ID specified as stream command argument")
              end
          | None => Err wrongType
          end)
  | CTx cs => write cs s
  | CWatch k => (s, Ok (versionOf s k))
  | CExec k w cs => if decide (versionOf s k = w) then write cs s else (s, Err TxFailedErr)
  | CNow => (s, unixEpoch + Z.of_nat n `mod` Second)%Z
  | CRand m => (s, (Z.of_nat n `mod` m)%Z)
  | CSleep _ => (s, tt)
  | CDeliver _ | CPoll _ => (s, n <? 64)
  end.

#[export] Instance server_Redis : Redis server := @serverServe.

(** ** The laws *)

Lemma readID_idText i : readID (idText i) = i.
Proof.
  destruct i as [a b]. unfold readID, idText. cbn [fst snd].
  rewrite scanDigits_pretty by done. cbv iota beta.
  change ("-" +:+ pretty b) with (String "-" (pretty b)). cbv iota beta.
  rewrite <-(string_app_nil_r (pretty b)), scanDigits_pretty by done. done.
Qed.

Lemma versionOf_bump ks v k :
  default 0 (v !! k) ≤ default 0 (bump ks v !! k)
  ∧ (k ∈ ks → default 0 (v !! k) < default 0 (bump ks v !! k))
  ∧ (k ∉ ks → default 0 (bump ks v !! k) = default 0 (v !! k)).
Proof.
  induction ks as [|k' ks (IH1 & IH2 & IH3)]; [cbn; rewrite elem_of_nil; naive_solver|].
  cbn [bump foldr]. fold (bump ks v). rewrite elem_of_cons.
  destruct (decide (k = k')) as [->|Hne].
  - rewrite lookup_insert_eq. cbn [default]. change (id (S ?x)) with (S x).
    split_and!; [lia|intros _; lia|naive_solver].
  - rewrite lookup_insert_ne by done. naive_solver.
Qed.

Lemma applyCmd_untouched c m k : k ∉ touches c → (applyCmd c m).1 !! k = m !! k.
Proof.
  destruct c; cbn; rewrite ?elem_of_cons, ?elem_of_nil; intros Hk;
    try (case_match; [|done]; cbn; unfold putHash, putZSet; case_bool_decide;
         rewrite ?lookup_delete_ne, ?lookup_insert_ne by naive_solver; done).
  revert m. induction keys as [|k' ks IH]; intros m; [done|]. cbn [foldl].
  apply not_elem_of_cons in Hk as [??]. rewrite IH by done. by rewrite lookup_delete_ne.
Qed.

Lemma applyCmds_untouched cs m k : k ∉ cs ≫= touches → (applyCmds cs m).1 !! k = m !! k.
Proof.
  revert m. induction cs as [|c cs IH]; intros m Hk; [done|]. cbn [applyCmds].
  rewrite bind_cons, elem_of_app in Hk. pose proof (applyCmd_untouched c m k) as H1.
  destruct (applyCmd c m) as [m1 e1]. specialize (IH m1). destruct (applyCmds cs m1) as [m2 e2].
  cbn in *. rewrite IH, H1 by naive_solver. done.
Qed.

Lemma write_version cs s k :
  versionOf s k ≤ versionOf (write cs s).1 k
  ∧ (sv_keys (write cs s).1 !! k ≠ sv_keys s !! k → versionOf s k < versionOf (write cs s).1 k).
Proof.
  unfold write. pose proof (applyCmds_untouched cs (sv_keys s) k) as Hu.
  destruct (applyCmds cs (sv_keys s)) as [m e]. cbn in *. unfold versionOf. cbn.
  destruct (versionOf_bump (cs ≫= touches) (sv_version s) k) as (H1 & H2 & _).
  split; [done|]. intros Hne. apply H2. destruct (decide (k ∈ cs ≫= touches)); naive_solver.
Qed.

Lemma nextID_above n xs : Forall (λ x, entryLt (x_key x) (nextID n xs)) xs.
Proof.
  apply Forall_forall. intros x Hx. left. cbn.
  assert (x_ms x ≤ topMs xs)%N; [|lia].
  induction xs as [|y xs IH]; [by apply elem_of_nil in Hx|].
  change (topMs (y :: xs)) with (N.max (x_ms y) (topMs xs)).
  apply elem_of_cons in Hx as [->|Hx]; [lia|]. specialize (IH Hx). lia.
Qed.

Lemma newestEntries_trimmed maxLen xs : trimmed maxLen xs (newestEntries (Z.to_nat maxLen) xs).
Proof.
  unfold newestEntries. split; [|rewrite length_drop; lia].
  exists (take (length xs - Z.to_nat maxLen) xs). by rewrite take_drop.
Qed.

Lemma write_tx cs s :
  sv_keys (write cs s).1 = (applyCmds cs (sv_keys s)).1
  ∧ (write cs s).2 = replyOf (applyCmds cs (sv_keys s)).2
  ∧ ∀ k, k ∉ cs ≫= touches → versionOf (write cs s).1 k = versionOf s k.
Proof.
  unfold write. destruct (applyCmds cs (sv_keys s)) as [m e]. split_and!; [done..|].
  intros k Hk. unfold versionOf. cbn. by apply versionOf_bump.
Qed.

#[export] Program Instance server_RedisLaws : RedisLaws server := {
  keys := sv_keys;
  version := versionOf;
}.
Next Obligation.
  intros X c n s k. unfold serve, server_Redis.
  destruct c; cbn [serverServe fst]; try (by split); try apply write_version.
  - destruct (asStream _) as [xs|]; [|by split]. cbn. unfold versionOf. cbn.
    destruct (versionOf_bump [key] (sv_version s) k) as (H1 & H2 & _). split; [done|].
    intros Hne. apply H2. destruct (decide (k = key)) as [->|]; [by apply list_elem_of_singleton|].
    by rewrite lookup_insert_ne in Hne by done.
  - case_decide; [apply write_version|by split].
Qed.
Next Obligation. intros X c n s. by destruct c. Qed.
Next Obligation. done. Qed.
Next Obligation. done. Qed.
Next Obligation. done. Qed.
Next Obligation. intros k start count n s X l HX Hl Hc. cbn. by rewrite HX, Hl. Qed.
Next Obligation.
  intros k count n s xs Hxs Hc. cbn. rewrite Hxs. split; [done|]. intros i.
  change ("(" +:+ idText i) with (String "(" (idText i)). cbv iota. by rewrite readID_idText.
Qed.
Next Obligation.
  intros k f v n s. pose proof (write_tx [HSet k [(f, v)]] s) as (Hk & Hr & Hv).
  unfold serve, server_Redis. cbn [serverServe]. cbn [applyCmds] in Hk, Hr.
  destruct (applyCmd _ (sv_keys s)) as [m' e]. cbn in Hk, Hr.
  split_and!; [|by rewrite Hk|].
  - rewrite (surjective_pairing (write _ s)) at 1. f_equal. rewrite Hr. by destruct e.
  - intros k' Hne. apply Hv. cbn. by apply not_elem_of_cons; split; [|apply not_elem_of_nil].
Qed.
Next Obligation.
  intros k maxLen vs n s xs Hxs. cbn. rewrite Hxs.
  eexists _, (nextID n xs), _. split; [done|]. split; [apply nextID_above|].
  split; [apply newestEntries_trimmed|]. split; [done|].
  intros k' Hne. unfold versionOf. cbn. rewrite lookup_insert_ne; done.
Qed.
Next Obligation. intros k maxLen vs n s Hxs. cbn. by rewrite Hxs. Qed.
Next Obligation. intros cs n s. apply write_tx. Qed.
Next Obligation. done. Qed.
Next Obligation.
  intros k w cs n s. unfold serve, server_Redis. cbn [serverServe]. case_decide; [apply write_tx|done].
Qed.
