(* ===== verification/RedisStore.v ===== *)
(** * The Redis store ([src/internal/store/redisstore/])

    Jobs are hashes, timelines capped streams, permission requests a hash of JSON
    documents, and the index of jobs a set ordered by ID.  Each method is the program
    of the calls it makes; nothing but [WATCH] protects one call from the next. *)

From stdpp Require Import base gmap list strings pretty sorting.
From Stdlib Require Import Ascii.
From S2P Require Import Prelude Utf8 Fmt Json GoTime Job Store MemStore Redis.

(** The text of a JSON decoding error. *)
Class JsonText := decodeErrorText : decodeError → string.

(** ** Keys and options ([redisstore.go]) *)

Definition DefaultMaxEvents : Z := 10000.

Record redisStore := mkRedisStore { rs_maxEvents : Z }.

Definition New (maxEvents : Z) : redisStore :=
  mkRedisStore (if (maxEvents <=? 0)%Z then DefaultMaxEvents else maxEvents).

Definition jobsIndexKey : string := "hairpin:jobs".
Definition jobKey (id : string) : string := "hairpin:job:" +:+ id.
Definition eventsKey (id : string) : string := jobKey id +:+ ":events".
Definition permsKey (id : string) : string := jobKey id +:+ ":perms".

Definition notFoundf (ctx : string) : error := wrapf ctx ErrNotFound.
Definition conflictf (ctx : string) : error := wrapf ctx ErrConflict.

(** ** The record codec ([jobs.go]) *)

Definition boolField (b : bool) : string := if b then "1" else "0".

Definition repoScopeField (scope : list string) : string :=
  if bool_decide (length scope = 0) then "" else marshalStrings scope.

Section codec.
Context `{TimeEnv} `{JsonText}.

(** A time field is set when it is not zero, and cleared when it is. *)
Definition timeField (name : string) (t : Time) : list (string * string) :=
  if IsZero t then [] else [(name, FormatRFC3339Nano t)].
Definition zeroField (name : string) (t : Time) : list string := if IsZero t then [name] else [].

Definition jobSetFields (j : Job) : list (string * string) :=
  [("id", j_ID j); ("status", j_Status j); ("prompt", j_Prompt j); ("profile", j_Profile j);
   ("run_config_json", j_RunConfigJSON j); ("stop_reason", j_StopReason j); ("error", j_Error j);
   ("final_text", j_FinalText j); ("cancel_requested", boolField (j_CancelRequested j));
   ("harness_token", j_HarnessToken j); ("trace_parent", j_TraceParent j);
   ("repo_scope", repoScopeField (j_RepoScope j))]
  ++ timeField "created_at" (j_CreatedAt j) ++ timeField "started_at" (j_StartedAt j)
  ++ timeField "finished_at" (j_FinishedAt j) ++ timeField "last_event_at" (j_LastEventAt j).

Definition jobClearFields (j : Job) : list string :=
  zeroField "created_at" (j_CreatedAt j) ++ zeroField "started_at" (j_StartedAt j)
  ++ zeroField "finished_at" (j_FinishedAt j) ++ zeroField "last_event_at" (j_LastEventAt j).

(** A missing field reads as the empty string. *)
Definition fieldOf (fields : gmap string string) (name : string) : string :=
  default "" (fields !! name).

Definition parseTimeField (fields : gmap string string) (name : string) : res Time :=
  let v := fieldOf fields name in
  if v ==? "" then Ok 0%Z
  else match ParseRFC3339Nano v with
       | Some t => Ok t
       | None => Err (wrapf ("field " +:+ name) (ErrNew (parseErrorText v)))
       end.

Definition parseRepoScope (v : string) : res (list string) :=
  if v ==? "" then Ok []
  else match UnmarshalStrings v with
       | inl scope => Ok scope
       | inr e => Err (wrapf "field repo_scope" (ErrNew (decodeErrorText e)))
       end.

(** Go reads the time fields in the order of a map, so which of two malformed ones is
    reported is unspecified. *)
Definition jobFromFields (fields : gmap string string) : res Job :=
  scope ← parseRepoScope (fieldOf fields "repo_scope");
  created ← parseTimeField fields "created_at";
  started ← parseTimeField fields "started_at";
  finished ← parseTimeField fields "finished_at";
  last ← parseTimeField fields "last_event_at";
  Ok (mkJob (fieldOf fields "id") (fieldOf fields "status") (fieldOf fields "prompt")
    (fieldOf fields "profile") (fieldOf fields "run_config_json") (fieldOf fields "stop_reason")
    (fieldOf fields "error") (fieldOf fields "final_text") created started finished last
    (fieldOf fields "cancel_requested" ==? "1") (fieldOf fields "trace_parent")
    (fieldOf fields "harness_token") scope).

(** ** Jobs *)

Definition maxUpdateRetries : nat := 30.
Definition casBackoff : Duration := 2 * Millisecond.

(** The body of the transaction of [CreateJob], and what it makes of its error. *)
Definition createTx (j : Job) : rprog (res unit) :=
  let key := jobKey (j_ID j) in
  try (CWatch key) Err (λ watch,
  try (CExists key) Err (λ n,
  if negb (n =? 0)%Z then mret (Err ErrConflict)
  else call (CExec key watch [HSet key (jobSetFields j); ZAdd jobsIndexKey (j_ID j)]))).

Definition CreateJob (j : Job) : rprog (res unit) :=
  txErr ← createTx j;
  mret match txErr with
       | Ok _ => Ok tt
       | Err e =>
           if errorsIs e ErrConflict || errorsIs e TxFailedErr
           then Err (conflictf ("job " +:+ j_ID j))
           else Err (wrapf ("create job " +:+ j_ID j) e)
       end.

Definition GetJob (id : string) : rprog (res Job) :=
  try (CHGetAll (jobKey id)) (λ e, Err (wrapf ("job " +:+ id) e)) (λ fields,
  mret (if bool_decide (fields = ∅) then Err (notFoundf ("job " +:+ id)) else jobFromFields fields)).

(** The loop of [ListJobs] over a page of the index. *)
Fixpoint getJobs (ids : list string) (out : list Job) : rprog (res (list Job)) :=
  match ids with
  | [] => mret (Ok out)
  | id :: ids' =>
      r ← GetJob id;
      match r with
      | Ok j => getJobs ids' (out ++ [j])
      | Err e =>
          if errorsIs e ErrNotFound then getJobs ids' out
          else mret (Err (wrapf "list jobs" e))
      end
  end.

(** [int64(limit) + 1] and [ids[:limit]]; the page is not empty when there is more. *)
Definition ListJobs (limit : Z) (pageToken : string) : rprog (res (list Job * string)) :=
  let limit := if (limit <=? 0)%Z then 50%Z else limit in
  let start := if pageToken ==? "" then "+" else "(" +:+ pageToken in
  try (CZRangeRevLex jobsIndexKey start (wrap64 (limit + 1)))
    (λ e, Err (wrapf "list jobs" e)) (λ ids,
  let hasMore := (limit <? Z.of_nat (length ids))%Z in
  let ids := if hasMore then take (Z.to_nat limit) ids else ids in
  r ← getJobs ids [];
  mret match r with
       | Err e => Err e
       | Ok out => Ok (out, if hasMore then default "" (last ids) else "")
       end).

(** One transaction of [UpdateJob]; the closure's captured state comes back with it. *)
Definition updateTx {C} (id : string) (fn : updater C) (c : C) : rprog (C * res Job) :=
  let key := jobKey id in
  let fail := λ e, (c, Err e) in
  try (CWatch key) fail (λ watch,
  try (CHGetAll key) fail (λ fields,
  if bool_decide (fields = ∅) then mret (c, Err ErrNotFound)
  else match jobFromFields fields with
       | Err e => mret (c, Err e)
       | Ok j =>
           match fn c j with
           | (c', Err e) => mret (c', Err e)
           | (c', Ok j') =>
               let clear := jobClearFields j' in
               r ← call (CExec key watch
                     (HSet key (jobSetFields j')
                      :: if negb (bool_decide (length clear = 0)) then [HDel key clear] else []));
               mret (c', match r with Ok _ => Ok j' | Err e => Err e end)
           end
       end)).

(** The attempts that are left. *)
Fixpoint updateLoop {C} (attempts : nat) (id : string) (fn : updater C) (c : C)
  : rprog (C * res Job) :=
  match attempts with
  | 0 =>
      mret (c, Err (conflictf ("job " +:+ id +:+ ": update lost the race "
                               +:+ pretty maxUpdateRetries +:+ " times")))
  | S n =>
      '(c, r) ← updateTx id fn c;
      match r with
      | Ok j => mret (c, Ok j)
      | Err e =>
          if errorsIs e TxFailedErr then
            jitter ← call (CRand casBackoff);
            call (CSleep (jitter + Z.quot casBackoff 2)%Z);;
            updateLoop n id fn c
          else if errorsIs e ErrNotFound then mret (c, Err (notFoundf ("job " +:+ id)))
          else mret (c, Err e)
      end
  end.

Definition UpdateJob {C} (id : string) (fn : updater C) (c : C) : rprog (C * res Job) :=
  updateLoop maxUpdateRetries id fn c.

(** [jobExists], with the context its callers add to an error. *)
Definition jobExists {A} (ctx id : string) (k : rprog (res A)) : rprog (res A) :=
  try (CExists (jobKey id)) (λ e, Err (wrapf ctx e)) (λ n,
  if (n =? 0)%Z then mret (Err (notFoundf ("job " +:+ id))) else k).

(** An error is wrapped with its context. *)
Definition inContext {A} (ctx : string) (r : res A) : res A :=
  match r with Ok a => Ok a | Err e => Err (wrapf ctx e) end.

Definition DeleteJob (id : string) : rprog (res unit) :=
  let ctx := "delete job " +:+ id in
  jobExists ctx id (
    r ← call (CTx [Del [jobKey id; eventsKey id; permsKey id]; ZRem jobsIndexKey id]);
    mret (inContext ctx r)).

(** ** Events ([events.go]) *)

Definition pollInterval : Duration := 150 * Millisecond.

Definition eventValues (ev : Event) (at_ : Time) : gmap string string :=
  <["type" := ev_Type ev]> (<["payload" := ev_PayloadJSON ev]>
    (<["at" := FormatRFC3339Nano at_]> ∅)).

Definition AppendEvent (r : redisStore) (jobID : string) (ev : Event) : rprog (res string) :=
  let ctx := "append event job " +:+ jobID in
  jobExists ctx jobID (
    at_ ← (if IsZero (ev_At ev) then call CNow else mret (ev_At ev));
    x ← call (CXAdd (eventsKey jobID) (rs_maxEvents r) (eventValues ev at_));
    mret (inContext ctx x)).

Definition eventFromMessage (msg : XMessage) : res Event :=
  let ev := λ t, mkEvent (xm_ID msg) (fieldOf (xm_Values msg) "type")
                  (fieldOf (xm_Values msg) "payload") t in
  let v := fieldOf (xm_Values msg) "at" in
  if v ==? "" then Ok (ev 0%Z)
  else match ParseRFC3339Nano v with
       | Some t => Ok (ev t)
       | None => Err (wrapf ("event " +:+ xm_ID msg +:+ " field at") (ErrNew (parseErrorText v)))
       end.

(** The loop over the messages stops at the first one that cannot be read. *)
Fixpoint eventsFromMessages (msgs : list XMessage) : res (list Event) :=
  match msgs with
  | [] => Ok []
  | msg :: msgs' => ev ← eventFromMessage msg; evs ← eventsFromMessages msgs'; Ok (ev :: evs)
  end.

Definition ReadEvents (jobID afterID : string) (limit : Z) : rprog (res (list Event)) :=
  let limit := if (limit <=? 0)%Z then 1000%Z else limit in
  let ctx := "read events job " +:+ jobID in
  jobExists ctx jobID (
    let start := if afterID ==? "" then "-" else "(" +:+ afterID in
    try (CXRangeN (eventsKey jobID) start limit) (λ e, Err (wrapf ctx e)) (λ msgs,
    mret (eventsFromMessages msgs))).

(** The events of one read handed over one by one; the result is the cursor, or
    [None] once the context is done. *)
Fixpoint deliverAll (cursor : string) (evs : list Event) : rprog (option string) :=
  match evs with
  | [] => mret (Some cursor)
  | ev :: evs' =>
      live ← call (CDeliver ev);
      if live : bool then deliverAll (ev_ID ev) evs' else mret None
  end.

(** The goroutine of [WatchEvents]; [fuel] bounds the reads. *)
Fixpoint watchLoop (fuel : nat) (jobID cursor : string) : rprog unit :=
  match fuel with
  | 0 => RCut
  | S f =>
      r ← ReadEvents jobID cursor 100;
      match r with
      | Err _ => mret tt
      | Ok evs =>
          next ← deliverAll cursor evs;
          match next with
          | None => mret tt
          | Some cursor =>
              if negb (bool_decide (length evs = 0)) then watchLoop f jobID cursor
              else
                live ← call (CPoll pollInterval);
                if live : bool then watchLoop f jobID cursor else mret tt
          end
      end
  end.

(** [WatchEvents]: the goroutine it starts, or the error. *)
Definition WatchEvents (fuel : nat) (jobID afterID : string) : rprog (res (rprog unit)) :=
  jobExists ("watch events job " +:+ jobID) jobID (mret (Ok (watchLoop fuel jobID afterID))).

(** ** Permissions ([permissions.go]) *)

(** [json.Marshal(p)]: a [time.Time] is its strict RFC 3339 text. *)
Definition marshalPermission (p : PermissionRequest) : res string :=
  let bad := λ e, ErrNew ("json: error calling MarshalJSON for type time.Time: Time.MarshalJSON: "
                          +:+ Error e) in
  match appendStrictRFC3339 (pr_RequestedAt p), appendStrictRFC3339 (pr_AnsweredAt p) with
  | Ok requested, Ok answered =>
      Ok (marshalObject
        [("RequestID", pr_RequestID p); ("ToolName", pr_ToolName p); ("InputJSON", pr_InputJSON p);
         ("State", pr_State p); ("Reason", pr_Reason p); ("RequestedAt", requested);
         ("AnsweredAt", answered)])
  | Err e, _ => Err (bad e)
  | _, Err e => Err (bad e)
  end.

(** A [time.Time] field. *)
Definition timeJSONField {T} (name : string) (set : Time → T → T) : field T :=
  (name, λ v x, match v with
                | JStr s => match parseStrictRFC3339 s with
                            | Some t => inl (set t x)
                            | None => inr (kindOf v)
                            end
                | JNull => inl x
                | _ => inr (kindOf v)
                end).

Definition permissionFields : list (field PermissionRequest) :=
  [stringField "RequestID" (λ v '(mkPermissionRequest _ b c d e f g), mkPermissionRequest v b c d e f g);
   stringField "ToolName" (λ v '(mkPermissionRequest a _ c d e f g), mkPermissionRequest a v c d e f g);
   stringField "InputJSON" (λ v '(mkPermissionRequest a b _ d e f g), mkPermissionRequest a b v d e f g);
   stringField "State" (λ v '(mkPermissionRequest a b c _ e f g), mkPermissionRequest a b c v e f g);
   stringField "Reason" (λ v '(mkPermissionRequest a b c d _ f g), mkPermissionRequest a b c d v f g);
   timeJSONField "RequestedAt" (λ v '(mkPermissionRequest a b c d e _ g), mkPermissionRequest a b c d e v g);
   timeJSONField "AnsweredAt" (λ v '(mkPermissionRequest a b c d e f _), mkPermissionRequest a b c d e f v)].

Definition zeroPermission : PermissionRequest := mkPermissionRequest "" "" "" "" "" 0 0.

Definition unmarshalPermission (data : string) : res PermissionRequest :=
  match Unmarshal permissionFields zeroPermission data with
  | (p, None) => Ok p
  | (_, Some e) => Err (ErrNew (decodeErrorText e))
  end.

Definition PutPermission (jobID : string) (p : PermissionRequest) : rprog (res unit) :=
  let ctx := "put permission " +:+ jobID +:+ "/" +:+ pr_RequestID p in
  jobExists ctx jobID (
    match marshalPermission p with
    | Err e => mret (Err (wrapf ctx e))
    | Ok data =>
        r ← call (CHSet (permsKey jobID) (pr_RequestID p) data);
        mret (inContext ctx r)
    end).

Definition GetPermission (jobID requestID : string) : rprog (res PermissionRequest) :=
  let ctx := "get permission " +:+ jobID +:+ "/" +:+ requestID in
  try (CHGet (permsKey jobID) requestID)
    (λ e, if errorsIs e RedisNil
          then Err (notFoundf ("permission " +:+ jobID +:+ "/" +:+ requestID))
          else Err (wrapf ctx e)) (λ data,
  mret (inContext ctx (unmarshalPermission data))).

(** The documents of the hash, in some order, until one cannot be read. *)
Fixpoint unmarshalAll (datas : list string) : res (list PermissionRequest) :=
  match datas with
  | [] => Ok []
  | d :: datas' => p ← unmarshalPermission d; ps ← unmarshalAll datas'; Ok (p :: ps)
  end.

(** The order of requests that compare equal is unspecified, as in the in-memory
    store, whose sort this is. *)
Definition ListPermissions (jobID : string) : rprog (res (list PermissionRequest)) :=
  let ctx := "list permissions job " +:+ jobID in
  try (CHGetAll (permsKey jobID)) (λ e, Err (wrapf ctx e)) (λ fields,
  mret match unmarshalAll (snd <$> map_to_list fields) with
       | Err e => Err (wrapf ctx e)
       | Ok ps => Ok (merge_sort permLe ps)
       end).

End codec.

Definition sample_json : JsonText := λ _, "malformed document".
