(* ===== verification/RedisCodec.v ===== *)
(** * What the Redis store writes, it reads back

    The record codec over whatever the hash held before, events and permission
    requests, and the key layout: keys of different jobs and of different kinds never
    meet. *)

From stdpp Require Import base gmap list strings pretty sorting.
From Stdlib Require Import Ascii.
From S2P Require Import Prelude Utf8 Fmt Json GoTime Job Store MemStore Redis RedisModel RedisStore.

(** ** Hashes *)

(** The value a list of pairs gives to a field: that of the last pair. *)
Fixpoint assocLast (fs : list (string * string)) (k : string) : option string :=
  match fs with
  | [] => None
  | (f, v) :: fs' =>
      match assocLast fs' k with
      | Some x => Some x
      | None => if String.eqb f k then Some v else None
      end
  end.

Lemma hset_lookup fs h k :
  hset fs h !! k = match assocLast fs k with Some v => Some v | None => h !! k end.
Proof.
  revert h. induction fs as [|[f v] fs IH]; intros h; [done|]. cbn [hset foldl assocLast].
  change (foldl _ ?x fs) with (hset fs x). rewrite IH. destruct (assocLast fs k); [done|].
  destruct (String.eqb_spec f k) as [->|]; [by rewrite lookup_insert_eq|by rewrite lookup_insert_ne].
Qed.

Lemma hdel_lookup ds h k :
  hdel ds h !! k = if existsb (String.eqb k) ds then None else h !! k.
Proof.
  revert h. induction ds as [|d ds IH]; intros h; [done|]. cbn [hdel foldl existsb].
  change (foldl _ ?x ds) with (hdel ds x). rewrite IH.
  destruct (String.eqb_spec k d) as [->|]; cbn [orb].
  - rewrite lookup_delete_eq. by destruct (existsb _ ds).
  - by rewrite lookup_delete_ne.
Qed.

Section codec.
Context `{TimeEnv} `{JsonText}.

(** ** Records *)

(** The hash of a record written over another hash. *)
Definition written (j : Job) (h : gmap string string) : gmap string string :=
  hdel (jobClearFields j) (hset (jobSetFields j) h).

(** A time that comes back: zero, or one RFC 3339 can express. *)
Definition storableTime (t : Time) : Prop := IsZero t = false → representable t.

(** A record that comes back: expressible times, and a repo scope of valid text. *)
Record storable (j : Job) : Prop := {
  st_created : storableTime (j_CreatedAt j);
  st_started : storableTime (j_StartedAt j);
  st_finished : storableTime (j_FinishedAt j);
  st_last : storableTime (j_LastEventAt j);
  st_scope : Forall (λ s, sanitize s = s) (j_RepoScope j);
}.

Lemma fieldOf_written j h k :
  fieldOf (written j h) k
  = if existsb (String.eqb k) (jobClearFields j) then ""
    else default (fieldOf h k) (assocLast (jobSetFields j) k).
Proof.
  unfold fieldOf, written. rewrite hdel_lookup, hset_lookup.
  destruct (existsb _ _); [done|]. by destruct (assocLast _ k).
Qed.

Lemma Format_nonempty t : representable t → FormatRFC3339Nano t ≠ "".
Proof. intros Hr E. pose proof (Parse_Format t Hr) as Hp. by rewrite E in Hp. Qed.

(** What a time field reads as, according to whether the record's time was zero. *)
Lemma parseTimeField_written j h name t :
  storableTime t →
  existsb (String.eqb name) (jobClearFields j) = IsZero t →
  (IsZero t = false → assocLast (jobSetFields j) name = Some (FormatRFC3339Nano t)) →
  parseTimeField (written j h) name = Ok t.
Proof.
  intros Ht Hc Ha. unfold parseTimeField. rewrite fieldOf_written, Hc.
  destruct (IsZero t) eqn:Ez.
  - apply Z.eqb_eq in Ez. by subst.
  - rewrite Ha by done. cbn [default]. unfold id.
    rewrite bool_decide_eq_false_2 by (apply Format_nonempty, Ht, Ez).
    by rewrite Parse_Format by (apply Ht, Ez).
Qed.

Lemma parseRepoScope_field scope :
  Forall (λ s, sanitize s = s) scope → parseRepoScope (repoScopeField scope) = Ok scope.
Proof.
  intros Hs. unfold repoScopeField, parseRepoScope. destruct scope as [|x scope]; [done|].
  rewrite (bool_decide_eq_false_2 (length _ = 0)) by done.
  rewrite bool_decide_eq_false_2 by done.
  rewrite UnmarshalStrings_marshal by done. f_equal.
  clear -Hs. induction Hs as [|y l Hy _ IH]; [done|]. cbn. by rewrite Hy, IH.
Qed.

(** The fields of a written record, whatever the hash held before. *)
Lemma scalars_written j h :
  (fieldOf (written j h) "id", fieldOf (written j h) "status", fieldOf (written j h) "prompt",
   fieldOf (written j h) "profile", fieldOf (written j h) "run_config_json",
   fieldOf (written j h) "stop_reason", fieldOf (written j h) "error",
   fieldOf (written j h) "final_text", fieldOf (written j h) "cancel_requested",
   fieldOf (written j h) "trace_parent", fieldOf (written j h) "harness_token",
   fieldOf (written j h) "repo_scope")
  = (j_ID j, j_Status j, j_Prompt j, j_Profile j, j_RunConfigJSON j, j_StopReason j, j_Error j,
     j_FinalText j, boolField (j_CancelRequested j), j_TraceParent j, j_HarnessToken j,
     repoScopeField (j_RepoScope j)).
Proof.
  rewrite !fieldOf_written. unfold jobClearFields, jobSetFields, zeroField, timeField.
  by destruct (IsZero (j_CreatedAt j)), (IsZero (j_StartedAt j)), (IsZero (j_FinishedAt j)),
    (IsZero (j_LastEventAt j)).
Qed.

Definition timesOf (j : Job) : list (string * Time) :=
  [("created_at", j_CreatedAt j); ("started_at", j_StartedAt j); ("finished_at", j_FinishedAt j);
   ("last_event_at", j_LastEventAt j)].

Lemma times_written j :
  Forall (λ '(name, t), existsb (String.eqb name) (jobClearFields j) = IsZero t
    ∧ (IsZero t = false → assocLast (jobSetFields j) name = Some (FormatRFC3339Nano t))) (timesOf j).
Proof.
  unfold timesOf, jobClearFields, jobSetFields, zeroField, timeField.
  rewrite !Forall_cons, Forall_nil.
  destruct (IsZero (j_CreatedAt j)), (IsZero (j_StartedAt j)), (IsZero (j_FinishedAt j)),
    (IsZero (j_LastEventAt j)); cbn; intuition congruence.
Qed.

(** The decoding of a written record comes down to its scope and its times. *)
Lemma jobFromFields_eq j h :
  jobFromFields (written j h)
  = (scope ← parseRepoScope (repoScopeField (j_RepoScope j));
     created ← parseTimeField (written j h) "created_at";
     started ← parseTimeField (written j h) "started_at";
     finished ← parseTimeField (written j h) "finished_at";
     last ← parseTimeField (written j h) "last_event_at";
     Ok (mkJob (j_ID j) (j_Status j) (j_Prompt j) (j_Profile j) (j_RunConfigJSON j) (j_StopReason j)
       (j_Error j) (j_FinalText j) created started finished last (j_CancelRequested j)
       (j_TraceParent j) (j_HarnessToken j) scope)).
Proof.
  unfold jobFromFields. pose proof (scalars_written j h) as Hs. simplify_eq.
  repeat match goal with H : fieldOf _ _ = _ |- _ => rewrite H; clear H end.
  by destruct (j_CancelRequested j).
Qed.

Lemma jobFromFields_written j h : storable j → jobFromFields (written j h) = Ok j.
Proof.
  intros [Hc Hs Hf Hl Hsc]. pose proof (times_written j) as Ht. unfold timesOf in Ht.
  rewrite !Forall_cons in Ht. destruct Ht as ([] & [] & [] & [] & _).
  rewrite jobFromFields_eq, parseRepoScope_field by done. cbn [mbind res_bind].
  rewrite (parseTimeField_written j h "created_at" (j_CreatedAt j)) by done. cbn [mbind res_bind].
  rewrite (parseTimeField_written j h "started_at" (j_StartedAt j)) by done. cbn [mbind res_bind].
  rewrite (parseTimeField_written j h "finished_at" (j_FinishedAt j)) by done. cbn [mbind res_bind].
  rewrite (parseTimeField_written j h "last_event_at" (j_LastEventAt j)) by done. by destruct j.
Qed.

(** Zones of whole minutes, less than a day away from UTC. *)
Definition wholeZones : Prop :=
  ∀ t, (zoneOffset t `mod` 60 = 0 ∧ -86400 < zoneOffset t < 86400)%Z.

(** A record with the malformed text of its scope replaced, as JSON does. *)
Definition cleanScope (j : Job) : Job :=
  let 'mkJob a b c d e f g h i k l m n o p q := j in
  mkJob a b c d e f g h i k l m n o p (sanitize <$> q).

Lemma parseTimeField_exact j h name t t' :
  wholeZones →
  existsb (String.eqb name) (jobClearFields j) = IsZero t →
  (IsZero t = false → assocLast (jobSetFields j) name = Some (FormatRFC3339Nano t)) →
  parseTimeField (written j h) name = Ok t' → t' = t.
Proof.
  intros Hz Hc Ha. unfold parseTimeField. rewrite fieldOf_written, Hc.
  destruct (IsZero t) eqn:Ez.
  - apply Z.eqb_eq in Ez. subst. by intros [= <-].
  - rewrite Ha by done. cbn [default]. unfold id. destruct (Hz t) as [Hm Ho].
    case_bool_decide as He.
    + apply (f_equal len) in He. unfold FormatRFC3339Nano in He. rewrite !len_app in He.
      cbn [len] in He. lia.
    + destruct (ParseRFC3339Nano _) as [u|] eqn:Ep; [|done]. intros [= <-].
      by eapply Parse_Format_exact.
Qed.

Lemma res_bind_Ok {A B} (r : res A) (f : A → res B) b :
  r ≫= f = Ok b → ∃ a, r = Ok a ∧ f a = Ok b.
Proof. destruct r; cbn; [eauto|done]. Qed.

Lemma parseRepoScope_exact scope scope' :
  parseRepoScope (repoScopeField scope) = Ok scope' → scope' = sanitize <$> scope.
Proof.
  unfold repoScopeField, parseRepoScope. destruct scope as [|x scope]; [by intros [= <-]|].
  rewrite (bool_decide_eq_false_2 (length _ = 0)) by done.
  rewrite bool_decide_eq_false_2 by done.
  rewrite UnmarshalStrings_marshal by done. by intros [= <-].
Qed.

(** What reads back from a written record is that record, or nothing. *)
Lemma jobFromFields_exact j h j' :
  wholeZones → jobFromFields (written j h) = Ok j' → j' = cleanScope j.
Proof.
  intros Hz. rewrite jobFromFields_eq. pose proof (times_written j) as Ht. unfold timesOf in Ht.
  rewrite !Forall_cons in Ht. destruct Ht as ([] & [] & [] & [] & _).
  intros (scope & Es%parseRepoScope_exact & (t1 & E1 & (t2 & E2 & (t3 & E3 & (t4 & E4 & E)
    %res_bind_Ok)%res_bind_Ok)%res_bind_Ok)%res_bind_Ok)%res_bind_Ok.
  apply (parseTimeField_exact j h _ (j_CreatedAt j)) in E1; [|done..].
  apply (parseTimeField_exact j h _ (j_StartedAt j)) in E2; [|done..].
  apply (parseTimeField_exact j h _ (j_FinishedAt j)) in E3; [|done..].
  apply (parseTimeField_exact j h _ (j_LastEventAt j)) in E4; [|done..].
  injection E as <-. destruct j; cbn in *; by subst.
Qed.

(** ** Events *)

(** An event read back from its message: what was appended, under the server's ID. *)
Lemma eventFromMessage_values i ev at_ :
  representable at_ →
  eventFromMessage (messageOf (mkEntry i.1 i.2 (eventValues ev at_)))
  = Ok (mkEvent (idText i) (ev_Type ev) (ev_PayloadJSON ev) at_).
Proof.
  intros Hr. unfold eventFromMessage, messageOf, eventValues. cbn [xm_ID xm_Values x_values].
  unfold fieldOf. rewrite !(lookup_insert_ne _ "type"), !(lookup_insert_ne _ "payload") by done.
  rewrite !lookup_insert_eq. cbn [default]. unfold id.
  rewrite bool_decide_eq_false_2 by (by apply Format_nonempty).
  rewrite Parse_Format by done. by destruct i.
Qed.

(** ** Permission requests *)

Lemma ascii_digits s :
  all_bytes isDigit s = true → all_bytes (λ c, (N_of_ascii c <? 128)%N) s = true.
Proof.
  apply all_bytes_impl. intros c. unfold isDigit, in_range. cbn.
  intros [_ Hc]%andb_true_iff. apply N.leb_le in Hc. apply N.ltb_lt. lia.
Qed.

Lemma ascii_appendInt n w :
  (0 ≤ n < 10 ^ Z.of_nat w)%Z → all_bytes (λ c, (N_of_ascii c <? 128)%N) (appendInt n w) = true.
Proof. intros Hn. rewrite appendInt_small by done. apply ascii_digits, digits_appendDigits. Qed.

Lemma ascii_Format t :
  representable t → all_bytes (λ c, (N_of_ascii c <? 128)%N) (FormatRFC3339Nano t) = true.
Proof.
  intros (Hy & Hm & Ho). unfold FormatRFC3339Nano, dateText, clockText, fraction, zoneText.
  destruct (dateOf _) as [[y m] d] eqn:E. cbn [fst] in Hy.
  destruct (dateOf_spec _ _ _ _ E) as (_ & Hmo & Hda). pose proof (daysIn_le m y).
  assert (∃ k, zoneOffset t = k * 60)%Z as [k Hk] by (exists (zoneOffset t `div` 60)%Z; divlia).
  set (s := ((local t `div` Second) `mod` 86400)%Z). assert (0 ≤ s < 86400)%Z by (unfold s; divlia).
  assert (∀ ns, all_bytes (λ c, (N_of_ascii c <? 128)%N) (trimZeros (appendDigits 9 ns)) = true)
    as Hfr by (intros; apply ascii_digits, digits_trimZeros, digits_appendDigits).
  repeat rewrite all_bytes_app.
  rewrite !ascii_appendInt by (cbn; divlia). cbn [andb all_bytes].
  destruct (_ =? 0)%Z; [|cbn [all_bytes]; rewrite Hfr]; cbn [andb];
    (destruct (Z.eqb_spec (zoneOffset t) 0); [done|]);
    rewrite Hk, Z.quot_mul by lia; destruct (Z.ltb_spec k 0);
    repeat rewrite all_bytes_app; rewrite !ascii_appendInt by (cbn; divlia); done.
Qed.

(** A request that comes back: expressible times and valid text. *)
Record storablePermission (p : PermissionRequest) : Prop := {
  sp_requested : representable (pr_RequestedAt p);
  sp_answered : representable (pr_AnsweredAt p);
  sp_text : Forall (λ s, sanitize s = s)
    [pr_RequestID p; pr_ToolName p; pr_InputJSON p; pr_State p; pr_Reason p];
}.

(** Every member is stored into the field it was written from. *)
Lemma findField_permission :
  Forall (λ '(k, i), findField permissionFields (sanitize k) = permissionFields !! i)
    [("RequestID", 0); ("ToolName", 1); ("InputJSON", 2); ("State", 3); ("Reason", 4);
     ("RequestedAt", 5); ("AnsweredAt", 6)].
Proof. repeat constructor. Qed.

Lemma unmarshal_marshalPermission p :
  storablePermission p → ∃ data, marshalPermission p = Ok data ∧ unmarshalPermission data = Ok p.
Proof.
  intros [Hr Ha Ht]. unfold marshalPermission. rewrite !appendStrict_representable by done.
  eexists. split; [done|]. unfold unmarshalPermission, Unmarshal. rewrite parse_marshalObject.
  pose proof findField_permission as Hf.
  rewrite !Forall_cons in Hf. destruct Hf as (F0 & F1 & F2 & F3 & F4 & F5 & F6 & _).
  rewrite !Forall_cons in Ht. destruct Ht as (T0 & T1 & T2 & T3 & T4 & _).
  unfold sanitized. cbn [fmap list_fmap fst snd].
  cbn [decodeMembers]. rewrite F0, F1, F2, F3, F4, F5, F6.
  cbn [lookup list_lookup permissionFields stringField timeJSONField zeroPermission].
  rewrite !(sanitize_ascii (FormatRFC3339Nano _)) by (by apply ascii_Format).
  rewrite !parseStrict_Format by done. rewrite T0, T1, T2, T3, T4. by destruct p.
Qed.

(** ** The key layout *)

(** Job IDs have no colon, which the suffixes of the other keys do. *)
Definition noColon (id : string) : Prop := all_bytes (λ c, c !=? ":"%char) id = true.

Lemma id_byte_no_colon c : id_byte c = true → (c !=? ":"%char) = true.
Proof. intros Hc. case_bool_decide; [subst; by vm_compute in Hc | done]. Qed.

(** The IDs that the handlers let through have none. *)
Lemma ValidID_noColon id : ValidID id = true → noColon id.
Proof.
  unfold noColon. destruct id as [|h [|p [|d rest]]]; simpl; try done. intros Hid. boolify.
  subst. simpl. eapply all_bytes_impl; [|eassumption]. apply id_byte_no_colon.
Qed.

Lemma string_app_inj_l a b c : a +:+ b = a +:+ c → b = c.
Proof.
  induction a as [|x a IH]; [done|]. rewrite !string_app_cons. intros [= E]. by apply IH.
Qed.

(** An ID with a colon behind it is no prefix of another. *)
Lemma noColon_app_inj a b s t :
  noColon a → noColon b → a +:+ String ":" s = b +:+ String ":" t → a = b ∧ s = t.
Proof.
  intros Ha Hb E. pose proof (Cut_app a s ":" Ha) as Ca. pose proof (Cut_app b t ":" Hb) as Cb.
  rewrite E, Cb in Ca. by injection Ca.
Qed.

Lemma noColon_not_suffixed a b s : noColon a → a ≠ b +:+ String ":" s.
Proof.
  intros Ha ->. unfold noColon in Ha. rewrite all_bytes_app in Ha. cbn in Ha.
  by rewrite andb_false_r in Ha.
Qed.

Lemma jobKey_inj a b : jobKey a = jobKey b → a = b.
Proof. apply string_app_inj_l. Qed.

Lemma keys_distinct a b :
  noColon a → noColon b →
  jobKey a ≠ eventsKey b ∧ jobKey a ≠ permsKey b ∧ jobKey a ≠ jobsIndexKey
  ∧ eventsKey a ≠ permsKey b ∧ eventsKey a ≠ jobsIndexKey ∧ permsKey a ≠ jobsIndexKey
  ∧ (eventsKey a = eventsKey b → a = b) ∧ (permsKey a = permsKey b → a = b).
Proof.
  intros Ha Hb. unfold eventsKey, permsKey, jobKey. rewrite <-!string_app_assoc.
  split_and!; try done.
  - intros E%string_app_inj_l. by apply noColon_not_suffixed in E.
  - intros E%string_app_inj_l. by apply noColon_not_suffixed in E.
  - intros E%string_app_inj_l. by apply noColon_app_inj in E as [_ E].
  - intros E%string_app_inj_l. by apply noColon_app_inj in E as [E _].
  - intros E%string_app_inj_l. by apply noColon_app_inj in E as [E _].
Qed.

End codec.
