(* ===== verification/RedisUpdate.v ===== *)
(** * Updates under contention

    [UpdateJob] reads a record, runs a closure on it and writes the result back in
    separate calls, with other clients in between.  This file shows that it acts as
    one step on the current record or not at all, that it makes a bounded number of
    calls, and that it gives up only to clients that did get through. *)

From stdpp Require Import base gmap list strings relations.
From S2P Require Import Prelude Utf8 Fmt Json GoTime Job Store Redis RedisModel RedisStore RedisCodec.

(** ** The commands of a transaction on a record *)

Definition updateCmds `{TimeEnv} (id : string) (j : Job) : list wcmd :=
  HSet (jobKey id) (jobSetFields j)
  :: if negb (bool_decide (length (jobClearFields j) = 0)) then [HDel (jobKey id) (jobClearFields j)]
     else [].

Lemma written_nonempty `{TimeEnv} j h : written j h ≠ ∅.
Proof.
  intros E. apply (f_equal (λ m, m !! "id")) in E. unfold written in E.
  rewrite hdel_lookup, hset_lookup, lookup_empty in E. revert E.
  unfold jobClearFields, jobSetFields, zeroField, timeField.
  by destruct (IsZero (j_CreatedAt j)), (IsZero (j_StartedAt j)), (IsZero (j_FinishedAt j)),
    (IsZero (j_LastEventAt j)).
Qed.

Lemma hset_nonempty `{TimeEnv} j h : hset (jobSetFields j) h ≠ ∅.
Proof.
  intros E. apply (written_nonempty j h). unfold written. rewrite E.
  apply map_empty. intros k. rewrite hdel_lookup, lookup_empty. by destruct (existsb _ _).
Qed.

Lemma applyCmds_update `{TimeEnv} id j m h :
  asHash (m !! jobKey id) = Some h →
  applyCmds (updateCmds id j) m = (<[jobKey id := RHash (written j h)]> m, None).
Proof.
  intros Hh. unfold updateCmds. cbn [applyCmds applyCmd]. rewrite Hh.
  unfold putHash. rewrite (bool_decide_eq_false_2 (hset _ _ = ∅)) by apply hset_nonempty.
  case_bool_decide as Hl; cbn [negb applyCmds applyCmd].
  - unfold written. apply nil_length_inv in Hl. by rewrite Hl.
  - rewrite lookup_insert_eq. cbn [asHash]. unfold putHash.
    rewrite (bool_decide_eq_false_2 (hdel _ _ = ∅)) by apply written_nonempty. by rewrite insert_insert_eq.
Qed.

Section update.
Context {R : Type} `{RedisLaws R} `{TimeEnv} `{JsonText}.
Implicit Types s : R.

(** A call that changed nothing a client could see. *)
Definition silent (l : logged (R := R)) : Prop :=
  match l with Logged c s s' x => keys s' = keys s end.

(** The commit of an update: in one call, the record [j] that is current becomes [j'],
    and nothing else changes. *)
Definition commits {C} (id : string) (fn : updater C) (c' : C) (j' : Job) (l : logged) : Prop :=
  match l with
  | Logged _ s s' x =>
      ∃ h j c, keys s !! jobKey id = Some (RHash h) ∧ jobFromFields h = Ok j
        ∧ fn c j = (c', Ok j') ∧ keys s' = <[jobKey id := RHash (written j' h)]> (keys s)
  end.

(** A call whose answer was lost in transport. *)
Definition lostCall (e : error) (l : logged (R := R)) : Prop :=
  match l with Logged c s s' x => ∃ msg, lostReply c msg = Some x ∧ e = ErrNew msg end.

Lemma silent_read {X} (c : rcmd X) n s s' x :
  readOnly c = true → answered c n s s' x → silent (Logged c s s' x).
Proof. intros Hc Ha. by apply (answered_read c n s s' x Hc Ha). Qed.

(** An error that is neither a lost race nor a conflict. *)
Definition ordinary (e : error) : bool :=
  negb (errorsIs e TxFailedErr) && negb (errorsIs e ErrConflict).

Lemma ordinary_wrapf ctx e : ordinary (wrapf ctx e) = ordinary e.
Proof. unfold ordinary. by rewrite !errorsIs_wrapf. Qed.

(** One attempt. *)
Inductive attempt {C} (id : string) (fn : updater C) (c : C) (s s' : R)
  : list logged → C → res Job → Prop :=
  | attempt_commits log l c' j' :
      Forall silent log → commits id fn c' j' l → attempt id fn c s s' (log ++ [l]) c' (Ok j')
  | attempt_raced log c' :
      Forall silent log → version s (jobKey id) < version s' (jobKey id) →
      attempt id fn c s s' log c' (Err TxFailedErr)
  | attempt_fails log c' e :
      Forall silent log → (∃ j, fn c j = (c', Err e)) ∨ ordinary e = true →
      attempt id fn c s s' log c' (Err e)
  | attempt_lost log l c' e :
      Forall silent log → lostCall e l → attempt id fn c s s' (log ++ [l]) c' (Err e).

Lemma res_bind_Err {A B} (r : res A) (f : A → res B) e :
  r ≫= f = Err e → r = Err e ∨ ∃ a, f a = Err e.
Proof. destruct r; cbn; [eauto|intros [= ->]; auto]. Qed.

Lemma parseTimeField_error fields name e :
  parseTimeField fields name = Err e → ordinary e = true.
Proof.
  unfold parseTimeField. repeat case_match; intros [= <-]. by rewrite ordinary_wrapf.
Qed.

(** A record that cannot be read is no lost race. *)
Lemma jobFromFields_error fields e :
  jobFromFields fields = Err e → ordinary e = true.
Proof.
  unfold jobFromFields. intros [He|[? He]]%res_bind_Err.
  { revert He. unfold parseRepoScope. repeat case_match; intros [= <-].
    by rewrite ordinary_wrapf. }
  repeat (apply res_bind_Err in He as [?%parseTimeField_error|[? He]]; [done|]). done.
Qed.

(** The answer to [WATCH] and to [HGETALL], unless it is lost. *)
Lemma answered_watch k n s s' (x : res nat) :
  answered (CWatch k) n s s' x → x = Ok (version s k) ∨ ∃ msg, x = Err (ErrNew msg).
Proof.
  intros [E|msg a Hx _]; [left|right; exists msg; by injection Hx].
  pose proof (law_watch k n s) as Hw. by rewrite E in Hw.
Qed.

Lemma answered_hgetall k n s s' x :
  answered (CHGetAll k) n s s' x →
  match x with Ok h => asHash (keys s !! k) = Some h | Err e => ordinary e = true end.
Proof.
  intros [E|msg a Hx _]; [|by injection Hx as <-].
  pose proof (law_hgetall k n s) as Hw. rewrite E in Hw. cbn in Hw. subst x.
  by destruct (asHash _).
Qed.

(** [EXEC] of an update on a record that was read under the watch. *)
Lemma answered_exec id w j' h n s s' x :
  (version s (jobKey id) = w → keys s !! jobKey id = Some (RHash h)) →
  answered (CExec (jobKey id) w (updateCmds id j')) n s s' x →
  (x = Ok tt ∧ keys s !! jobKey id = Some (RHash h)
     ∧ keys s' = <[jobKey id := RHash (written j' h)]> (keys s))
  ∨ (x = Err TxFailedErr ∧ keys s' = keys s ∧ version s (jobKey id) ≠ w
     ∧ version s' = version s)
  ∨ ∃ msg, x = Err (ErrNew msg) ∧ lostReply (CExec (jobKey id) w (updateCmds id j')) msg = Some x.
Proof.
  intros Hh [E|msg a Hx _]; [|right; right; exists msg; by injection Hx as <-].
  pose proof (law_exec (jobKey id) w (updateCmds id j') n s) as Hw. rewrite E in Hw. cbn [fst snd] in Hw.
  case_decide as Hv.
  - specialize (Hh Hv). rewrite (applyCmds_update _ _ _ h) in Hw by (by rewrite Hh). cbn in Hw.
    left. naive_solver.
  - right. left. naive_solver.
Qed.

Lemma updateTx_attempt {C} id (fn : updater C) c s log s' c' r :
  exec (updateTx id fn c) s log s' (c', r) → attempt id fn c s s' log c' r.
Proof.
  unfold updateTx. set (key := jobKey id).
  intros (sW & s1 & n & w & l1 & Hi1 & HW & -> & E)%exec_try.
  pose proof (answered_read (CWatch key) _ _ _ _ eq_refl HW) as [_ Hv1].
  pose proof (silent_read (CWatch key) _ _ _ _ eq_refl HW) as Hs1.
  apply answered_watch in HW as [-> | [msg ->]]; cycle 1.
  { destruct E as (-> & -> & [= <- <-]). constructor; [by constructor|by right]. }
  apply exec_try in E as (sG & s2 & n2 & x & l2 & Hi2 & HG & -> & E).
  pose proof (answered_read (CHGetAll key) _ _ _ _ eq_refl HG) as [_ Hv2].
  pose proof (silent_read (CHGetAll key) _ _ _ _ eq_refl HG) as Hs2.
  apply answered_hgetall in HG as Hh.
  assert (∀ c' e, ordinary e = true ∨ (∃ j, fn c j = (c', Err e)) →
    attempt id fn c s s2 [Logged (CWatch key) sW s1 (Ok (version sW key));
      Logged (CHGetAll key) sG s2 x] c' (Err e)) as Hfail.
  { intros c1 e He. constructor; [by repeat constructor|naive_solver]. }
  destruct x as [h|e]; cycle 1.
  { destruct E as (-> & -> & [= <- <-]). apply Hfail. by left. }
  case_bool_decide as Hne.
  { destruct E as (-> & -> & [= <- <-]). apply Hfail. by left. }
  destruct (jobFromFields h) as [j|e] eqn:Ej; cycle 1.
  { destruct E as (-> & -> & [= <- <-]). apply Hfail. left. by eapply jobFromFields_error. }
  destruct (fn c j) as [c1 [j'|e]] eqn:Ef; cycle 1.
  { destruct E as (-> & -> & [= <- <-]). apply Hfail. right. by exists j. }
  apply exec_bind in E as (y & s3 & l3 & l4 & (sE & n3 & Hi3 & HE & ->)%exec_call & -> & E).
  destruct E as (-> & -> & [= <- <-]).
  assert (keys sG !! key = Some (RHash h)) as HkG.
  { destruct (keys sG !! key) as [[]|]; naive_solver. }
  pose proof (later_interferes _ _ key Hi1) as L1. pose proof (later_interferes _ _ key Hi2) as L2.
  pose proof (later_answered _ _ _ _ _ key HG) as L3. pose proof (later_interferes _ _ key Hi3) as L4.
  assert (later key sG sE) as L5 by (by etrans).
  apply (answered_exec id (version sW key) j' h) in HE; cycle 1.
  { intros Hv. destruct L2 as [L2 _], L5 as [L5 L5']. rewrite Hv1 in L2.
    rewrite <-HkG. apply L5'. fold key in Hv. lia. }
  destruct HE as [(-> & Hk & Hk')|[(-> & Hk' & Hv & Hv')|(msg & -> & Hl)]].
  - apply (attempt_commits _ _ _ _ _ [_; _]); [by repeat constructor|].
    exists h, j, c. split_and!; try done.
  - constructor; [by repeat constructor|]. rewrite Hv'. destruct L1, L2, L5. rewrite Hv1 in *.
    fold key in Hv |- *. lia.
  - apply (attempt_lost _ _ _ _ _ [_; _]); [by repeat constructor|]. by exists msg.
Qed.

(** The loop: attempts that changed nothing, and at most one call that did. *)
Lemma updateLoop_silent {C} n id (fn : updater C) c s log s' c' r :
  exec (updateLoop n id fn c) s log s' (c', r) →
  match r with
  | Ok j' => ∃ l x, log = l ++ [x] ∧ Forall silent l ∧ commits id fn c' j' x
  | Err e => Forall silent log ∨ ∃ l x, log = l ++ [x] ∧ Forall silent l ∧ lostCall e x
  end.
Proof.
  revert c s log. induction n as [|n IH]; intros c s log.
  { cbn. intros (-> & -> & [= <- <-]). by left. }
  cbn [updateLoop]. intros ([c1 r1] & s1 & l1 & l2 & E1%updateTx_attempt & -> & E)%exec_bind.
  assert (∀ e, Forall silent l1 → errorsIs e TxFailedErr = true →
    exec (jitter ← call (CRand casBackoff);
          call (CSleep (jitter + Z.quot casBackoff 2)%Z);; updateLoop n id fn c1) s1 l2 s' (c', r) →
    match r with
    | Ok j' => ∃ l x, l1 ++ l2 = l ++ [x] ∧ Forall silent l ∧ commits id fn c' j' x
    | Err e => Forall silent (l1 ++ l2) ∨ ∃ l x, l1 ++ l2 = l ++ [x] ∧ Forall silent l ∧ lostCall e x
    end) as Hretry.
  { intros e Hl1 He (jit & s2 & l3 & l4 & (sa & na & _ & Ha & ->)%exec_call & ->
      & (u & s3 & l5 & l6 & (sb & nb & _ & Hb & ->)%exec_call & -> & E')%exec_bind)%exec_bind.
    apply (silent_read (CRand _)) in Ha; [|done]. apply (silent_read (CSleep _)) in Hb; [|done].
    apply IH in E'. rewrite !app_assoc. set (pre := (l1 ++ _) ++ _).
    assert (Forall silent pre) as Hpre by (unfold pre; rewrite !Forall_app; repeat constructor; done).
    destruct r as [j'|e'].
    - destruct E' as (l & x & -> & Hl & Hc). exists (pre ++ l), x. rewrite app_assoc, Forall_app. done.
    - destruct E' as [Hl|(l & x & -> & Hl & Hc)]; [left; by rewrite Forall_app|right].
      exists (pre ++ l), x. rewrite app_assoc, Forall_app. done. }
  inversion E1 as [log l ? j' Hs Hc|log ? Hs Hv|log ? e Hs He|log l ? e Hs Hl]; subst.
  - destruct E as (-> & -> & [= <- <-]). rewrite app_nil_r. by exists log, l.
  - by apply (Hretry TxFailedErr).
  - destruct (errorsIs e TxFailedErr) eqn:Et; [by apply (Hretry e)|].
    destruct (errorsIs e ErrNotFound); destruct E as (-> & -> & [= <- <-]); rewrite app_nil_r; by left.
  - assert (∃ msg, e = ErrNew msg) as [msg ->] by (destruct l; naive_solver).
    destruct E as (-> & -> & [= <- <-]). rewrite app_nil_r. right. by exists log, l.
Qed.

(** Giving up takes as many lost races as there were attempts. *)
Lemma updateLoop_conflict {C} n id (fn : updater C) c s log s' c' e :
  (∀ c j c' e, fn c j = (c', Err e) → ordinary e = true) →
  exec (updateLoop n id fn c) s log s' (c', Err e) → errorsIs e ErrConflict = true →
  version s (jobKey id) + n ≤ version s' (jobKey id).
Proof.
  intros Hfn. revert c s log. induction n as [|n IH]; intros c s log.
  { cbn. intros (-> & -> & [= <- <-]) _. lia. }
  cbn [updateLoop]. intros ([c1 r1] & s1 & l1 & l2 & E1%updateTx_attempt & -> & E)%exec_bind Hc.
  inversion E1 as [log l ? j' Hs Hco|log ? Hs Hv|log ? e1 Hs He|log l ? e1 Hs Hl]; subst.
  - by destruct E as (-> & -> & [= <- ?]).
  - destruct E as (sa & sa' & na & ja & la & Hia & Ha & -> & sb & sb' & nb & jb & lb & Hib & Hb & -> & E').
    apply IH in E'; [|done].
    pose proof (later_interferes _ _ (jobKey id) Hia) as [La _].
    pose proof (later_answered _ _ _ _ _ (jobKey id) Ha) as [La' _].
    pose proof (later_interferes _ _ (jobKey id) Hib) as [Lb _].
    pose proof (later_answered _ _ _ _ _ (jobKey id) Hb) as [Lb' _]. lia.
  - assert (ordinary e1 = true) as He1 by (destruct He as [[j Hj]|]; [by eapply Hfn|done]).
    unfold ordinary in He1. apply andb_true_iff in He1 as [Et%negb_true_iff Ec%negb_true_iff].
    rewrite Et in E. destruct (errorsIs e1 ErrNotFound); destruct E as (_ & _ & [= _ <-]); [|congruence].
    unfold notFoundf in Hc. by rewrite errorsIs_wrapf in Hc.
  - assert (∃ msg, e1 = ErrNew msg) as [msg ->] by (destruct l; naive_solver).
    by destruct E as (-> & -> & [= <- <-]).
Qed.

Lemma updateTx_calls {C} id (fn : updater C) c : callsAtMost 3 (updateTx id fn c).
Proof.
  cbn. intros [w|e]; [|done]. intros [h|e]; [|done]. case_bool_decide; [done|].
  destruct (jobFromFields h); [|done]. destruct (fn c a) as [c' [j'|e]]; [|done]. by intros [].
Qed.

Lemma updateLoop_calls {C} n id (fn : updater C) c : callsAtMost (n * 5) (updateLoop n id fn c).
Proof.
  revert c. induction n as [|n IH]; intros c; [done|]. cbn [updateLoop].
  change (S n * 5) with (3 + (2 + n * 5)). apply callsAtMost_bind; [apply updateTx_calls|].
  intros [c1 [j|e]]; [done|]. destruct (errorsIs e TxFailedErr); [|by destruct (errorsIs e ErrNotFound)].
  intros x y. apply IH.
Qed.

End update.

(** ** Properties *)

Section properties.
Context {R : Type} `{RedisLaws R} `{TimeEnv} `{JsonText} {C : Type}.
Variables (id : string) (fn : updater C) (c : C) (s : R) (log : list (logged (R := R))) (s' : R).

(** C12. An update is atomic, whatever other clients do between its calls. When
    [UpdateJob] succeeds, all its calls but the last changed nothing, and the last one
    replaced, in one step, the record that was current at that moment by the closure's
    result on it, touching no other key. When it fails, it changed nothing, unless the
    answer to its very last call was lost in transport. *)
Theorem UpdateJob_atomic (c' : C) (r : res Job) (He : exec (UpdateJob id fn c) s log s' (c', r)) :
  match r with
  | Ok j' => ∃ l x, log = l ++ [x] ∧ Forall silent l ∧ commits id fn c' j' x
  | Err e => Forall silent log ∨ ∃ l x, log = l ++ [x] ∧ Forall silent l ∧ lostCall e x
  end.
Proof. by eapply updateLoop_silent. Qed.

(** C17. Updates make progress: as long as the closure's own errors are no conflicts, an
    update fails with a conflict only if other clients modified the record at least
    thirty times while it ran; with fewer modifications it never gives up. *)
Theorem UpdateJob_progress (c' : C) (e : error)
  (Hfn : ∀ c j c' e, fn c j = (c', Err e) → ordinary e = true)
  (He : exec (UpdateJob id fn c) s log s' (c', Err e))
  (Hfew : version s' (jobKey id) < version s (jobKey id) + 30) :
  errorsIs e ErrConflict = false.
Proof.
  destruct (errorsIs e ErrConflict) eqn:Ec; [|done].
  pose proof (updateLoop_conflict maxUpdateRetries id fn c s log s' c' e Hfn He Ec).
  unfold maxUpdateRetries in *. lia.
Qed.

End properties.

(** C18. [UpdateJob] terminates: whatever the server and the other clients do, and
    whatever errors come back, it makes at most 150 calls (thirty attempts of five calls)
    and then returns. *)
Theorem UpdateJob_terminates `{TimeEnv} `{JsonText} {C : Type} (id : string) (fn : updater C) (c : C) :
  callsAtMost 150 (UpdateJob id fn c).
Proof.
  apply (callsAtMost_mono (maxUpdateRetries * 5)); [unfold maxUpdateRetries; lia|].
  apply updateLoop_calls.
Qed.

(** ** A contended update *)

#[local] Existing Instance sample_time.
#[local] Existing Instance sample_json.

Definition stored_job : Job :=
  mkJob "hp-1" StatusAwaitingHarness "p" "" "{}" "" "" "" unixEpoch 0 0 0 false "" "t" ["a/b"].

(** A server that holds one record. *)
Definition one_job_server : server :=
  fst (runAlone (CreateJob stored_job) 0 (mkServer ∅ ∅)).

(** Another client starts the job between the read and the write of an update. *)
Definition starts_between (n : nat) : list someCmd :=
  if n =? 2 then [existT _ (CTx (updateCmds "hp-1" (set_Status StatusRunning stored_job)))] else [].

Definition mark (_ : unit) (j : Job) : unit * res Job := (tt, Ok (set_Error (j_Status j) j)).

Definition contended : list (logged (R := server)) * server * option (unit * res Job) :=
  record starts_between (UpdateJob "hp-1" mark tt) 0 one_job_server.

(** The closure ran on the record that was current when it was written. *)
Lemma UpdateJob_atomic_witness :
  length (fst (fst contended)) = 8
  ∧ ∃ l x, fst (fst contended) = l ++ [x] ∧ Forall silent l
    ∧ commits "hp-1" mark tt (set_Error StatusRunning (set_Status StatusRunning stored_job)) x.
Proof.
  split; [vm_compute; reflexivity|].
  apply (UpdateJob_atomic "hp-1" mark tt one_job_server (fst (fst contended)) (snd (fst contended))
    tt (Ok (set_Error StatusRunning (set_Status StatusRunning stored_job)))).
  apply (record_result starts_between _ 0). vm_compute. reflexivity.
Defined.

(** A closure that refuses terminal records. *)
Definition refusing (_ : unit) (j : Job) : unit * res Job := (tt, Err errNoUpdate).

Definition refused : list (logged (R := server)) * server * option (unit * res Job) :=
  record starts_between (UpdateJob "hp-1" refusing tt) 0 one_job_server.

Lemma UpdateJob_progress_witness : errorsIs errNoUpdate ErrConflict = false.
Proof.
  apply (UpdateJob_progress "hp-1" refusing tt one_job_server (fst (fst refused)) (snd (fst refused)) tt).
  - unfold refusing. intros _ j c' e [= <- <-]. reflexivity.
  - apply (record_result starts_between _ 0). vm_compute. reflexivity.
  - vm_compute. lia.
Defined.
