(* ===== verification/Telemetry.v ===== *)
(** * Metrics ([src/internal/telemetry/attrs.go], [recorder.go])

    Each method of [Recorder] that takes a measurement is the list of the data
    points it hands to the OpenTelemetry instruments.  Spans are not modelled. *)

From stdpp Require Import base list strings.
From S2P Require Import Prelude Job.

(** ** Label vocabularies *)

Definition SubmissionAccepted := "accepted".
Definition SubmissionRejected := "rejected".
Definition SubmissionFailed := "failed".

Definition LaunchSucceeded := "succeeded".
Definition LaunchFailed := "failed".
Definition LaunchSkipped := "skipped".

Definition SessionAssigned := "assigned".
Definition SessionClosedBeforeReady := "closed_before_ready".
Definition SessionNotReady := "not_ready".
Definition SessionNoID := "no_session_id".
Definition SessionUnknownJob := "unknown_job".
Definition SessionBadToken := "bad_token".
Definition SessionClosedJob := "closed_job".
Definition SessionDuplicate := "duplicate".
Definition SessionUnusableRunConfig := "unusable_run_config".
Definition SessionAssignmentFailed := "assignment_failed".

Definition MemoryOK := "ok".
Definition MemoryError := "error".
Definition MemoryRefused := "refused".

Definition otherLabel := "other".
Definition StopHarnessNeverConnected := "harness_never_connected".

Definition knownStopReasons : list string :=
  ["success"; "error"; "cancelled"; "timeout"; "max_turns"; "max_tokens"; "end_turn";
   "tool_use"; "aborted"; "interrupted"; "refusal"; StopHarnessNeverConnected].

Definition knownEventTypes : list string :=
  ["ready"; "text_delta"; "heartbeat"; "permission_request"; "error"; "warning"; "done";
   "sandbox_token_request"; "batch_submission"; "tool_result_request";
   "tool_result_response"; "sandbox_token_response"].

Definition knownMemoryTools : list string := ["search_memory"; "save_memory"].

Definition bounded (value : string) (known : list string) : string :=
  if value ==? "" then ""
  else if bool_decide (value ∈ known) then value
  else otherLabel.

(** ** Measurements

    [Add] is one increment of a counter, [Record] one observation of a duration
    histogram (in nanoseconds here, in seconds on the wire). *)

Inductive measurement :=
  | Add (instrument : string) (n : Z) (attrs : list (string * string))
  | Record_ (instrument : string) (d : Duration) (attrs : list (string * string)).

Definition recordIf (instrument : string) (d : Duration) (attrs : list (string * string))
  : list measurement :=
  if (0 <? d)%Z then [Record_ instrument d attrs] else [].

Definition JobSubmitted (profile outcome : string) : list measurement :=
  [Add "hairpin.job.submissions" 1
    (("hairpin.submission.outcome", outcome)
     :: if profile !=? "" then [("hairpin.profile", profile)] else [])].

Definition JobLaunched (outcome : string) (d : Duration) : list measurement :=
  let attrs := [("hairpin.launch.outcome", outcome)] in
  Add "hairpin.job.launches" 1 attrs :: recordIf "hairpin.job.launch.duration" d attrs.

Definition JobCompleted (status : Status) (stopReason : string) (runDuration : Duration)
  : list measurement :=
  Add "hairpin.job.completions" 1
    [("hairpin.job.status", status);
     ("hairpin.job.stop_reason", bounded stopReason knownStopReasons)]
  :: recordIf "hairpin.job.run.duration" runDuration [("hairpin.job.status", status)].

Definition HarnessSession (disposition : string) : list measurement :=
  [Add "hairpin.harness.sessions" 1 [("hairpin.session.disposition", disposition)]].

Definition SessionOpened : list measurement := [Add "hairpin.harness.sessions.active" 1 []].
Definition SessionClosed : list measurement := [Add "hairpin.harness.sessions.active" (-1) []].

Definition HarnessEventSeen (eventType : string) : list measurement :=
  [Add "hairpin.harness.events" 1
    [("hairpin.harness.event.type", bounded eventType knownEventTypes)]].

Definition PermissionRequested : list measurement := [Add "hairpin.permission.requests" 1 []].

Definition PermissionAnswered (allow delivered : bool) : list measurement :=
  [Add "hairpin.permission.decisions" 1
    [("hairpin.permission.decision", if allow then "allow" else "deny");
     ("hairpin.permission.delivered", if delivered then "true" else "false")]].

Definition MemoryCall (tool outcome : string) (d : Duration) : list measurement :=
  let attrs := [("hairpin.memory.tool", bounded tool knownMemoryTools);
                ("hairpin.memory.outcome", outcome)] in
  Add "hairpin.memory.calls" 1 attrs :: recordIf "hairpin.memory.call.duration" d attrs.

(** ** Lemmas *)

(** Whatever the harness sends, a label takes one of finitely many values. *)
Lemma bounded_in value known : bounded value known ∈ "" :: otherLabel :: known.
Proof.
  unfold bounded. repeat case_bool_decide; rewrite !elem_of_cons; auto.
Qed.

Lemma bounded_known value known : value ∈ known → value ≠ "" → bounded value known = value.
Proof. intros. unfold bounded. by rewrite bool_decide_eq_false_2, bool_decide_eq_true_2. Qed.
