(* ===== verification/Registry.v ===== *)
(** * The session registry ([src/internal/registry/registry.go])

    Job IDs to live sessions.  A session is a pointer, compared by address, so it
    is a number here.  Each method holds the mutex for its whole body except
    [Send], which looks the session up under it and sends outside it; that second
    step is the session's own and belongs to the control plane. *)

From stdpp Require Import base gmap list strings.
From S2P Require Import Prelude.

Definition Registry : Type := gmap string nat.

Definition New : Registry := ∅.

Definition Register (jobID : string) (s : nat) (r : Registry) : Registry * res unit :=
  match r !! jobID with
  | Some _ => (r, Err ErrAlreadyConnected)
  | None => (<[jobID := s]> r, Ok tt)
  end.

Definition Unregister (jobID : string) (s : nat) (r : Registry) : Registry :=
  match r !! jobID with
  | Some cur => if cur ==? s then delete jobID r else r
  | None => r
  end.

(** The lookup of [Send], under the mutex. *)
Definition sessionFor (jobID : string) (r : Registry) : res nat :=
  match r !! jobID with
  | None => Err ErrNotConnected
  | Some s => Ok s
  end.

Definition JobIDs (r : Registry) : list string := (map_to_list r).*1.

Definition Connected (jobID : string) (r : Registry) : bool := bool_decide (is_Some (r !! jobID)).

(** ** Lemmas *)

Lemma Register_spec jobID s r :
  Register jobID s r
  = if Connected jobID r then (r, Err ErrAlreadyConnected) else (<[jobID := s]> r, Ok tt).
Proof.
  unfold Register, Connected. destruct (r !! jobID); case_bool_decide as Hc; try done.
  destruct Hc. by eexists.
Qed.

Lemma elem_of_JobIDs id r : id ∈ JobIDs r ↔ Connected id r = true.
Proof.
  unfold JobIDs, Connected. rewrite bool_decide_eq_true, list_elem_of_fmap. split.
  - intros ([k s] & -> & H%elem_of_map_to_list). by exists s.
  - intros [s H]. exists (id, s). split; [done|]. by apply elem_of_map_to_list.
Qed.
