(* ===== verification/Prog.v ===== *)
(** * Effects, runs and interleavings

    Hairpin's goroutines share the store, the registry, the live sessions and the
    wait groups.  An operation is a [prog]: a tree whose nodes are the atomic
    actions the code performs (a store call, a registry call under its mutex, one
    [Send] or [Receive] on a stream, a reading of the clock, a call to a component
    outside hairpin) and whose branches are the answers.  Three readings of a
    program are used:

    - [run]: the operation alone, from a [World]; what it returns and leaves behind;
    - [trace]: every sequence of actions and answers the program can go through
      whatever the rest of the system does, so a statement about all traces holds
      under every interleaving and every behaviour of the environment;
    - [step]: the interleaving of a pool of programs over one [World], one action
      at a time.

    What hairpin reads but does not compute (the clock, random bytes, the launcher,
    the token issuer, the memory service, whether a transport accepts a message) is
    the record [Env], a function of the number of actions performed so far. *)

From stdpp Require Import base gmap list strings relations.
From S2P Require Import Prelude Job Store Proto Telemetry Registry.

(** ** Data of the memory service ([src/internal/memory/memory.go])

    A score is only ever passed from the service to [json.Marshal], so a [float64]
    is represented by what the encoder prints for it; [None] is one it refuses
    (NaN, infinities). *)

Abbreviation float64 := (option string) (only parsing).

Record MemRecord := mkMemRecord {
  mr_MemoryID : string;
  mr_Content : string;
  mr_Score : float64;
  mr_CreatedAt : string;
}.

Record SaveResult := mkSaveResult {
  sr_MemoryID : string;
  sr_Accepted : bool;
}.

(** [billetv1.Kind]. *)
Inductive ProtoKind := KIND_UNSPECIFIED | KIND_EVENT | KIND_FACT.

(** ** Actions *)

(** The two wait groups: [Service.launches] and [Handler.memoryWait]. *)
Inductive waitGroup := launches | memoryWait.

#[export] Instance waitGroup_eq_dec : EqDecision waitGroup.
Proof. solve_decision. Defined.

Inductive eff : Type → Type :=
  (* the store *)
  | ECreateJob (j : Job) : eff (res unit)
  | EGetJob (id : string) : eff (res Job)
  | EListJobs (limit : Z) (pageToken : string) : eff (outcome (res (list Job * string)))
  | EUpdateJob {C : Set} (id : string) (fn : updater C) (c : C) : eff (C * res Job)
  | EDeleteJob (id : string) : eff (res unit)
  | EAppendEvent (jobID : string) (ev : Event) : eff (res string)
  | EReadEvents (jobID afterID : string) (limit : Z) : eff (res (list Event))
  | EPutPermission (jobID : string) (p : PermissionRequest) : eff (res unit)
  | EGetPermission (jobID requestID : string) : eff (res PermissionRequest)
  | EListPermissions (jobID : string) : eff (res (list PermissionRequest))
  (* the registry *)
  | ERegister (jobID : string) (sess : nat) : eff (res unit)
  | EUnregister (jobID : string) (sess : nat) : eff unit
  | ESessionFor (jobID : string) : eff (res nat)
  | EConnected (jobID : string) : eff bool
  (* streams and sessions *)
  | EReceive (stream : nat) : eff (res HarnessEvent)
  | EStreamSend (stream : nat) (ev : ControlEvent) : eff (res unit)
  | ENewSession (stream : nat) : eff nat
  | ESessionSend (sess : nat) (ev : ControlEvent) : eff (res unit)
  | ESessionClose (sess : nat) : eff unit
  (* the process: clock, randomness, counting semaphores, wait groups, metrics *)
  | ENow : eff Time
  | EUlid : eff string
  | ERandRead : eff (list N)
  | ENewChan (cap : nat) : eff nat
  | ETrySend (ch : nat) : eff bool
  | ERecvSlot (ch : nat) : eff unit
  | EWgAdd (wg : waitGroup) : eff unit
  | EWgDone (wg : waitGroup) : eff unit
  | ETel (ms : list measurement) : eff unit
  (* components outside hairpin *)
  | ETraceParent : eff string
  | ELaunch (j : Job) : eff (res unit)
  | EMint (sub : string) (repoScope : list string) : eff (res (string * Time))
  | ESearch (query : string) (limit : Z) : eff (outcome (res (list MemRecord)))
  | ESave (content : string) (kind : ProtoKind) : eff (outcome (res SaveResult)).

(** What a goroutine started by an operation is for; only the traces see it. *)
Inductive routine :=
  | LaunchOf (jobID : string)
  | MemoryCallOf (jobID tool requestID : string).

(** ** Programs

    [Go l p k] starts the goroutine [p] and goes on as [k]; [Panic] is a Go panic
    that nobody recovers; [OutOfFuel] marks a loop cut short by its fuel. *)

Inductive prog (A : Type) : Type :=
  | Ret (a : A)
  | Act {X : Type} (e : eff X) (k : X → prog A)
  | Go (l : routine) (p : prog unit) (k : prog A)
  | Panic
  | OutOfFuel.
Arguments Ret {A} a.
Arguments Act {A X} e k.
Arguments Go {A} l p k.
Arguments Panic {A}.
Arguments OutOfFuel {A}.

Fixpoint bind {A B : Type} (p : prog A) (f : A → prog B) : prog B :=
  match p with
  | Ret a => f a
  | Act e k => Act e (λ x, bind (k x) f)
  | Go l q k => Go l q (bind k f)
  | Panic => Panic
  | OutOfFuel => OutOfFuel
  end.

#[export] Instance prog_ret : MRet prog := @Ret.
#[export] Instance prog_bind : MBind prog := λ A B f p, bind p f.

Definition perform {X} (e : eff X) : prog X := Act e Ret.

Definition go (l : routine) (p : prog unit) : prog unit := Go l p (Ret tt).

(** [if c { p }]. *)
Definition when (c : bool) (p : prog unit) : prog unit := if c then p else mret tt.

(** ** The world *)

Record session := mkSession {
  s_stream : nat;
  s_closed : bool;
}.

(** A harness stream: the events still to be received, the error that ends it,
    and what has been sent on it, oldest first. *)
Record stream := mkStream {
  st_in : list HarnessEvent;
  st_end : error;
  st_sent : list ControlEvent;
}.

Record World (St : Type) := mkWorld {
  w_store : St;
  w_reg : Registry;
  w_streams : gmap nat stream;
  w_sessions : gmap nat session;
  w_chans : gmap nat (nat * nat);    (** capacity and slots taken *)
  w_launches : Z;
  w_memoryWait : Z;
  w_metrics : list measurement;
  w_tick : nat;                      (** actions performed so far *)
}.
Arguments mkWorld {St}.
Arguments w_store {St}.
Arguments w_reg {St}.
Arguments w_streams {St}.
Arguments w_sessions {St}.
Arguments w_chans {St}.
Arguments w_launches {St}.
Arguments w_memoryWait {St}.
Arguments w_metrics {St}.
Arguments w_tick {St}.

Section setters.
Context {St : Type}.
Implicit Type w : World St.
Definition set_store v w := let 'mkWorld _ b c d e f g h i := w in mkWorld (St := St) v b c d e f g h i.
Definition set_reg v w := let 'mkWorld a _ c d e f g h i := w in mkWorld a v c d e f g h i.
Definition set_streams v w := let 'mkWorld a b _ d e f g h i := w in mkWorld a b v d e f g h i.
Definition set_sessions v w := let 'mkWorld a b c _ e f g h i := w in mkWorld a b c v e f g h i.
Definition set_chans v w := let 'mkWorld a b c d _ f g h i := w in mkWorld a b c d v f g h i.
Definition set_launches v w := let 'mkWorld a b c d e _ g h i := w in mkWorld a b c d e v g h i.
Definition set_memoryWait v w := let 'mkWorld a b c d e f _ h i := w in mkWorld a b c d e f v h i.
Definition set_metrics v w := let 'mkWorld a b c d e f g _ i := w in mkWorld a b c d e f g v i.
Definition set_tick v w := let 'mkWorld a b c d e f g h _ := w in mkWorld a b c d e f g h v.
End setters.

(** What the environment answers at the [n]-th action. *)
Record Env := mkEnv {
  env_now : nat → Time;
  env_ulid : nat → string;
  env_rand : nat → list N;
  env_send : nat → nat → option error;        (** a transport failure of a send *)
  env_launch : nat → Job → res unit;
  env_mint : nat → string → list string → res (string * Time);
  env_traceParent : nat → string;
  env_search : nat → string → Z → outcome (res (list MemRecord));
  env_save : nat → string → ProtoKind → outcome (res SaveResult);
}.

(** ** One action *)

Section semantics.
Context {St : Type} `{Store St}.
Variable env : Env.
Implicit Type w : World St.

(** A message put on a stream, unless its transport fails. *)
Definition transmit (id : nat) (ev : ControlEvent) w : World St * res unit :=
  match env_send env (w_tick w) id, w_streams w !! id with
  | None, Some (mkStream i e s) =>
      (set_streams (<[id := mkStream i e (s ++ [ev])]> (w_streams w)) w, Ok tt)
  | Some err, _ => (w, Err err)
  | None, None => (w, Err EOF)
  end.

(** [s.Receive()]: the next event, or the error the stream ends with. *)
Definition receive (id : nat) w : World St * res HarnessEvent :=
  match w_streams w !! id with
  | Some (mkStream (ev :: i) e s) =>
      (set_streams (<[id := mkStream i e s]> (w_streams w)) w, Ok ev)
  | Some (mkStream [] e _) => (w, Err e)
  | None => (w, Err EOF)
  end.

(** [session.Send]: under the session's mutex, refused once it is closed. *)
Definition sessionSend (id : nat) (ev : ControlEvent) w : World St * res unit :=
  match w_sessions w !! id with
  | Some (mkSession st closed) =>
      if closed then (w, Err ErrNotConnected) else transmit st ev w
  | None => (w, Err ErrNotConnected)
  end.

(** [session.close]. *)
Definition sessionClose (id : nat) w : World St :=
  set_sessions (alter (λ s, mkSession (s_stream s) true) id (w_sessions w)) w.

(** A non-blocking send on a buffered channel used as a semaphore. *)
Definition trySend (ch : nat) w : World St * bool :=
  match w_chans w !! ch with
  | Some (cap, used) =>
      if used <? cap then (set_chans (<[ch := (cap, S used)]> (w_chans w)) w, true) else (w, false)
  | None => (w, false)
  end.

Definition wgUpdate (f : Z → Z) (wg : waitGroup) w : World St :=
  match wg with
  | launches => set_launches (f (w_launches w)) w
  | memoryWait => set_memoryWait (f (w_memoryWait w)) w
  end.

(** An operation of the store on the world. *)
Definition onStore {X} (op : St → St * X) w : World St * X :=
  let '(s, x) := op (w_store w) in (set_store s w, x).

Definition act {X} (e : eff X) w : World St * X :=
  match e in eff X return World St * X with
  | ECreateJob j => onStore (CreateJob j) w
  | EGetJob id => (w, GetJob id (w_store w))
  | EListJobs limit tok => (w, ListJobs limit tok (w_store w))
  | EUpdateJob id fn c => onStore (UpdateJob id fn c) w
  | EDeleteJob id => onStore (DeleteJob id) w
  | EAppendEvent id ev => onStore (AppendEvent (env_now env (w_tick w)) id ev) w
  | EReadEvents id a limit => (w, ReadEvents id a limit (w_store w))
  | EPutPermission id p => onStore (PutPermission id p) w
  | EGetPermission id r => (w, GetPermission id r (w_store w))
  | EListPermissions id => (w, ListPermissions id (w_store w))
  | ERegister id s => let '(r, x) := Register id s (w_reg w) in (set_reg r w, x)
  | EUnregister id s => (set_reg (Unregister id s (w_reg w)) w, tt)
  | ESessionFor id => (w, sessionFor id (w_reg w))
  | EConnected id => (w, Connected id (w_reg w))
  | EReceive id => receive id w
  | EStreamSend id ev => transmit id ev w
  | ENewSession id =>
      let a := fresh (dom (w_sessions w)) in
      (set_sessions (<[a := mkSession id false]> (w_sessions w)) w, a)
  | ESessionSend id ev => sessionSend id ev w
  | ESessionClose id => (sessionClose id w, tt)
  | ENow => (w, env_now env (w_tick w))
  | EUlid => (w, env_ulid env (w_tick w))
  | ERandRead => (w, env_rand env (w_tick w))
  | ENewChan cap =>
      let a := fresh (dom (w_chans w)) in
      (set_chans (<[a := (cap, 0)]> (w_chans w)) w, a)
  | ETrySend ch => trySend ch w
  | ERecvSlot ch => (set_chans (alter (λ '(cap, used), (cap, pred used)) ch (w_chans w)) w, tt)
  | EWgAdd wg => (wgUpdate Z.succ wg w, tt)
  | EWgDone wg => (wgUpdate Z.pred wg w, tt)
  | ETel ms => (set_metrics (w_metrics w ++ ms) w, tt)
  | ETraceParent => (w, env_traceParent env (w_tick w))
  | ELaunch j => (w, env_launch env (w_tick w) j)
  | EMint sub scope => (w, env_mint env (w_tick w) sub scope)
  | ESearch q l => (w, env_search env (w_tick w) q l)
  | ESave c k => (w, env_save env (w_tick w) c k)
  end.

(** One action, counted. *)
Definition actTick {X} (e : eff X) w : World St * X :=
  let '(w', x) := act e w in (set_tick (S (w_tick w)) w', x).

(** ** Running a program alone

    The result, the world it leaves and the goroutines it started, which have not
    run yet. *)

Inductive result (A : Type) :=
  | Done (a : A)
  | Crashed
  | Cut.
Arguments Done {A} a.
Arguments Crashed {A}.
Arguments Cut {A}.

Fixpoint run {A : Type} (p : prog A) w : World St * list (prog unit) * result A :=
  match p with
  | Ret a => (w, [], Done a)
  | Act e k => let '(w', x) := actTick e w in run (k x) w'
  | Go _ q k => let '(w', ts, r) := run k w in (w', q :: ts, r)
  | Panic => (w, [], Crashed)
  | OutOfFuel => (w, [], Cut)
  end.

(** ** Interleaving a pool of programs *)

Inductive step : World St * list (prog unit) → World St * list (prog unit) → Prop :=
  | step_act w ts i X (e : eff X) k w' x :
      ts !! i = Some (Act e k) → actTick e w = (w', x) →
      step (w, ts) (w', <[i := k x]> ts)
  | step_go w ts i l q k :
      ts !! i = Some (Go l q k) → step (w, ts) (w, <[i := k]> ts ++ [q]).

(** The same interleaving driven by a schedule: the [i]-th goroutine moves if it
    can. *)
Definition execOne (i : nat) (c : World St * list (prog unit)) : World St * list (prog unit) :=
  let '(w, ts) := c in
  match ts !! i with
  | Some (Act e k) => let '(w', x) := actTick e w in (w', <[i := k x]> ts)
  | Some (Go _ q k) => (w, <[i := k]> ts ++ [q])
  | _ => c
  end.

Definition exec (sched : list nat) (c : World St * list (prog unit)) : World St * list (prog unit) :=
  foldl (λ c i, execOne i c) c sched.

End semantics.
Arguments Done {A} a.
Arguments Crashed {A}.
Arguments Cut {A}.

(** ** Traces *)

(** An action and the answer it got. *)
Inductive obs :=
  | Obs {X : Type} (e : eff X) (x : X)
  | Started (l : routine) (q : prog unit).

(** [trace p t r]: [p] can go through the actions [t] and end as [r], or be
    suspended after them ([None]), for some answers of the environment. *)
Fixpoint trace {A : Type} (p : prog A) (t : list obs) (r : option (result A)) : Prop :=
  (t = [] ∧ r = None)
  ∨ match p with
    | Ret a => t = [] ∧ r = Some (Done a)
    | Act e k => ∃ x t', t = Obs e x :: t' ∧ trace (k x) t' r
    | Go l q k => ∃ t', t = Started l q :: t' ∧ trace k t' r
    | Panic => t = [] ∧ r = Some Crashed
    | OutOfFuel => t = [] ∧ r = Some Cut
    end.

(** ** A logic of traces

    A policy says which actions a program may perform, and which goroutines it may
    start, after a history (newest first).  [wp pol h p Q]: after [h], everything
    [p] does is allowed by the policy and [Q] holds of its result and of the
    history it returns with. *)

Record policy := mkPolicy {
  on_act : list obs → ∀ X, eff X → Prop;
  on_go : list obs → routine → prog unit → Prop;
}.

Fixpoint wp (pol : policy) {A : Type} (h : list obs) (p : prog A) (Q : A → list obs → Prop) : Prop :=
  match p with
  | Ret a => Q a h
  | Act e k => on_act pol h _ e ∧ ∀ x, wp pol (Obs e x :: h) (k x) Q
  | Go l q k => on_go pol h l q ∧ wp pol (Started l q :: h) k Q
  | Panic | OutOfFuel => True
  end.

(** Programs whose every action, in every goroutine they start, is permitted;
    [halt] says what of a panic or of a loop without fuel. *)
Fixpoint obeys (halt : Prop) (P : ∀ X, eff X → Prop) {A : Type} (p : prog A) : Prop :=
  match p with
  | Ret _ => True
  | Act e k => P _ e ∧ ∀ x, obeys halt P (k x)
  | Go _ q k => obeys halt P q ∧ obeys halt P k
  | Panic | OutOfFuel => halt
  end.

Abbreviation guarded := (obeys True).

(** Permitted actions only, and always a result. *)
Abbreviation total := (obeys False).

(** Find an observation in a spelled-out history. *)
Ltac in_hist := repeat first [apply list_elem_of_here | apply list_elem_of_further].

(** ** Lemmas *)

Lemma wp_bind pol {A B} h (p : prog A) (f : A → prog B) Q :
  wp pol h (p ≫= f) Q ↔ wp pol h p (λ a h', wp pol h' (f a) Q).
Proof.
  unfold mbind, prog_bind. revert h. induction p as [A a|A X e k IH|A l q _ k IH|A|A]; intros h; simpl.
  - done.
  - split; intros [He Hk]; (split; [done|]); intros x; by apply IH.
  - by rewrite IH.
  - done.
  - done.
Qed.

Lemma wp_mono pol {A} h (p : prog A) (Q R : A → list obs → Prop) :
  (∀ a h', Q a h' → R a h') → wp pol h p Q → wp pol h p R.
Proof.
  intros HQR. revert h. induction p as [A a|A X e k IH|A l q _ k IH|A|A]; intros h; simpl; try done; [eauto|..];
    intros [He Hk]; eauto.
Qed.

(** A history only grows. *)
Lemma wp_suffix pol {A} h (p : prog A) Q :
  wp pol h p (λ a h', h `suffix_of` h' → Q a h') → wp pol h p Q.
Proof.
  revert h. induction p as [A a|A X e k IH|A l q _ k IH|A|A]; intros h; simpl; try done.
  - intros HQ. by apply HQ.
  - intros [He Hk]. split; [done|]. intros x. apply IH. eapply wp_mono; [|apply Hk].
    intros a h' HQ Hs. apply HQ. by eapply suffix_cons_l.
  - intros [He Hk]. split; [done|]. apply IH. eapply wp_mono; [|apply Hk].
    intros a h' HQ Hs. apply HQ. by eapply suffix_cons_l.
Qed.

(** A policy that allows at least as much from this history on. *)
Lemma wp_policy_mono pol pol' {A} h (p : prog A) Q :
  (∀ h' X (e : eff X), h `suffix_of` h' → on_act pol h' X e → on_act pol' h' X e) →
  (∀ h' l q, h `suffix_of` h' → on_go pol h' l q → on_go pol' h' l q) →
  wp pol h p Q → wp pol' h p Q.
Proof.
  revert h. induction p as [A a|A X e k IH|A l q _ k IH|A|A]; intros h Ha Hg; simpl; try done.
  - intros [He Hk]. split; [by apply Ha|]. intros x. apply IH; [..|done]; intros h'.
    + intros. apply Ha; [|done]. by eapply suffix_cons_l.
    + intros. apply Hg; [|done]. by eapply suffix_cons_l.
  - intros [He Hk]. split; [by apply Hg|]. apply IH; [..|done]; intros h'.
    + intros. apply Ha; [|done]. by eapply suffix_cons_l.
    + intros. apply Hg; [|done]. by eapply suffix_cons_l.
Qed.

(** An observed action was allowed. *)
Definition allowed (pol : policy) (h : list obs) (o : obs) : Prop :=
  match o with
  | Obs e _ => on_act pol h _ e
  | Started l q => on_go pol h l q
  end.

(** Every trace of a verified program obeys the policy at each of its actions, and
    one that returns ends in the postcondition. *)
Lemma wp_sound pol {A} (p : prog A) h Q t r :
  wp pol h p Q → trace p t r →
  (∀ t1 o t2, t = t1 ++ o :: t2 → allowed pol (reverse t1 ++ h) o)
  ∧ (∀ a, r = Some (Done a) → Q a (reverse t ++ h)).
Proof.
  revert h t. induction p as [A a|A X e k IH|A l q _ k IH|A|A]; intros h t; simpl.
  - intros HQ [[-> ->]|[-> ->]]; (split; [by intros [|]|]); naive_solver.
  - intros [He Hk] [[-> ->]|(x & t' & -> & Ht)]; [split; [by intros [|]|naive_solver]|].
    destruct (IH x _ _ _ _ (Hk x) Ht) as [IH1 IH2]. split.
    + intros [|o' t1] o t2 [= <- ->]; [done|].
      rewrite reverse_cons, <-app_assoc. by eapply IH1.
    + intros a ->. rewrite reverse_cons, <-app_assoc. by apply IH2.
  - intros [Hg Hk] [[-> ->]|(t' & -> & Ht)]; [split; [by intros [|]|naive_solver]|].
    destruct (IH _ _ _ _ Hk Ht) as [IH1 IH2]. split.
    + intros [|o' t1] o t2 [= <- ->]; [done|].
      rewrite reverse_cons, <-app_assoc. by eapply IH1.
    + intros a ->. rewrite reverse_cons, <-app_assoc. by apply IH2.
  - intros _ [[-> ->]|[-> ->]]; (split; [by intros [|]|naive_solver]).
  - intros _ [[-> ->]|[-> ->]]; (split; [by intros [|]|naive_solver]).
Qed.

(** The same rules with the postcondition left to the caller. *)
Lemma wp_perform_bind pol {X B} h (e : eff X) (f : X → prog B) Q :
  on_act pol h X e → (∀ x, wp pol (Obs e x :: h) (f x) Q) → wp pol h (perform e ≫= f) Q.
Proof. done. Qed.

Lemma wp_bind_intro pol {A B} h (p : prog A) (f : A → prog B) Q :
  wp pol h p (λ a h', wp pol h' (f a) Q) → wp pol h (p ≫= f) Q.
Proof. apply wp_bind. Qed.

Lemma obeys_bind halt P {A B} (p : prog A) (f : A → prog B) :
  obeys halt P p → (∀ a, obeys halt P (f a)) → obeys halt P (p ≫= f).
Proof.
  unfold mbind, prog_bind. intros Hp Hf. revert Hp.
  induction p as [A a|A X e k IH|A l q _ k IH|A|A]; simpl; try done; intros [? ?]; auto.
Qed.

Lemma obeys_perform_bind halt (P : ∀ X, eff X → Prop) {X B} (e : eff X) (f : X → prog B) :
  P X e → (∀ x, obeys halt P (f x)) → obeys halt P (perform e ≫= f).
Proof. done. Qed.

(** Peel a program down to the obligations of its actions and of the programs it
    calls. *)
Ltac permit :=
  repeat lazymatch goal with
  | |- obeys _ _ (mbind _ (perform _)) => apply obeys_perform_bind; [|intros ?]
  | |- obeys _ _ (mbind ?f (mret ?a)) => change (mbind f (mret a)) with (f a); cbv beta
  | |- obeys _ _ (mbind _ _) => apply obeys_bind; [|intros ?]
  | |- obeys _ _ (perform _) => split; [|intros ?; exact I]
  | |- obeys _ _ (go _ _) => split; [|exact I]
  | |- obeys _ _ (mret _) => exact I
  | |- obeys True _ OutOfFuel => exact I
  | |- obeys True _ Panic => exact I
  | |- obeys _ _ (if ?b then _ else _) => destruct b
  | |- obeys _ _ (match ?x with _ => _ end) => destruct x
  | |- obeys _ _ (when ?b _) => unfold when; destruct b
  end.

(** The same for [wp]. *)
Ltac wp_peel :=
  repeat lazymatch goal with
  | |- wp _ _ (mbind _ (perform _)) _ => apply wp_perform_bind; [|intros ?]
  | |- wp _ _ (mbind ?f (mret ?a)) _ => change (mbind f (mret a)) with (f a); cbv beta
  | |- wp _ _ (mbind _ (mbind _ _)) _ => apply wp_bind_intro
  | |- wp _ _ (mbind _ (if ?b then _ else _)) _ => apply wp_bind_intro; destruct b eqn:?
  | |- wp _ _ (mbind _ (match ?x with _ => _ end)) _ => apply wp_bind_intro; destruct x eqn:?
  | |- wp _ _ (mbind _ (when ?b _)) _ => apply wp_bind_intro; unfold when; destruct b eqn:?
  | |- wp _ _ (perform _) _ => split; [|intros ?]
  | |- wp _ ?h (mret ?a) ?Q => change (Q a h); cbv beta iota
  | |- wp _ _ OutOfFuel _ => exact I
  | |- wp _ _ Panic _ => exact I
  | |- wp _ _ (if ?b then _ else _) _ => destruct b eqn:?
  | |- wp _ _ (match ?x with _ => _ end) _ => destruct x eqn:?
  | |- wp _ _ (when ?b _) _ => unfold when; destruct b eqn:?
  end.

Section run_lemmas.
Context {St : Type} `{Store St} (env : Env).
Implicit Type w : World St.

Lemma run_bind {A B} (p : prog A) (f : A → prog B) w :
  run env (p ≫= f) w
  = let '(w', ts, r) := run env p w in
    match r with
    | Done a => let '(w'', ts', r') := run env (f a) w' in (w'', ts ++ ts', r')
    | Crashed => (w', ts, Crashed)
    | Cut => (w', ts, Cut)
    end.
Proof.
  unfold mbind, prog_bind. revert w.
  induction p as [A a|A X e k IH|A l q _ k IH|A|A]; intros w; simpl; try done.
  - by destruct (run env (f a) w) as [[w' ts] r].
  - destruct (actTick env e w) as [w' x]. apply IH.
  - rewrite IH. destruct (run env k w) as [[w' ts] r].
    destruct r; try done. by destruct (run env (f a) w') as [[w'' ts'] r'].
Qed.

Lemma run_perform {X} (e : eff X) w :
  run env (perform e) w = let '(w', x) := actTick env e w in (w', [], Done x).
Proof. done. Qed.

Lemma execOne_step i (c : World St * list (prog unit)) :
  execOne env i c = c ∨ step env c (execOne env i c).
Proof.
  destruct c as [w ts]. cbn. destruct (ts !! i) as [[a|X e k|l q k| |]|] eqn:E; try by left.
  - right. destruct (actTick env e w) as [w' x] eqn:Ha. by econstructor.
  - right. by econstructor.
Qed.

Lemma exec_steps sched (c : World St * list (prog unit)) :
  rtc (step env) c (exec env sched c).
Proof.
  unfold exec. revert c. induction sched as [|i sched IH]; intros c; [done|]. cbn [foldl].
  destruct (execOne_step i c) as [->|Hs]; [apply IH|]. eapply rtc_l; [exact Hs|apply IH].
Qed.

(** A goroutine of the pool takes only permitted actions, and so do those it
    starts: an invariant of the pool along every interleaving. *)
Lemma step_guarded P w ts w' ts' :
  step env (w, ts) (w', ts') → Forall (guarded P) ts → Forall (guarded P) ts'.
Proof.
  intros Hs Hts. inversion Hs as [? ? i X e k ? x Hi Ha|? ? i l q k Hi]; simplify_eq.
  - apply Forall_insert; [done|]. by apply (Forall_lookup_1 _ _ _ _ Hts) in Hi as [_ ?].
  - apply (Forall_lookup_1 _ _ _ _ Hts) in Hi as [??].
    apply Forall_app; split; [by apply Forall_insert|by constructor].
Qed.

(** A relation on worlds that every permitted action keeps is kept by a run of a
    total program, which returns. *)
Lemma run_total (P : ∀ X, eff X → Prop) (R : World St → World St → Prop) {A} (p : prog A) w :
  (∀ w, R w w) → (∀ w1 w2 w3, R w1 w2 → R w2 w3 → R w1 w3) →
  (∀ w X (e : eff X), P X e → R w (fst (actTick env e w))) →
  total P p → ∃ w' ts a, run env p w = (w', ts, Done a) ∧ R w w'.
Proof.
  intros Hr Ht Ha. revert w.
  induction p as [A a|A X e k IH|A l q _ k IH|A|A]; intros w; simpl; try done.
  - intros _. by exists w, [], a.
  - intros [He Hk]. specialize (Ha w X e He). destruct (actTick env e w) as [w1 x].
    destruct (IH x w1 (Hk x)) as (w' & ts & a & E & HR). exists w', ts, a. eauto.
  - intros [_ Hk]. destruct (IH w Hk) as (w' & ts & a & E & HR). rewrite E. eauto.
Qed.

(** ** Total correctness of runs

    [runsTo p w Φ]: run alone from [w], the program returns, and [Φ] holds of its
    result and of the world it leaves. *)

Definition runsTo {A} (p : prog A) w (Φ : A → World St → Prop) : Prop :=
  ∃ w' ts a, run env p w = (w', ts, Done a) ∧ Φ a w'.

Lemma runsTo_ret {A} (a : A) w (Φ : A → World St → Prop) : Φ a w → runsTo (mret a) w Φ.
Proof. intros HΦ. by exists w, [], a. Qed.

Lemma runsTo_bind {A B} (p : prog A) (f : A → prog B) w (Φ : B → World St → Prop) :
  runsTo p w (λ a w', runsTo (f a) w' Φ) → runsTo (p ≫= f) w Φ.
Proof.
  intros (w1 & ts1 & a & E1 & w2 & ts2 & b & E2 & HΦ).
  exists w2, (ts1 ++ ts2), b. by rewrite run_bind, E1, E2.
Qed.

Lemma runsTo_act {X B} (e : eff X) (f : X → prog B) w (Φ : B → World St → Prop) :
  runsTo (f (snd (actTick env e w))) (fst (actTick env e w)) Φ → runsTo (perform e ≫= f) w Φ.
Proof.
  intros Hr. apply runsTo_bind. exists (fst (actTick env e w)), [], (snd (actTick env e w)).
  split; [|done]. rewrite run_perform. by destruct (actTick env e w).
Qed.

Lemma runsTo_perform {X} (e : eff X) w (Φ : X → World St → Prop) :
  Φ (snd (actTick env e w)) (fst (actTick env e w)) → runsTo (perform e) w Φ.
Proof.
  intros HΦ. exists (fst (actTick env e w)), [], (snd (actTick env e w)).
  split; [|done]. rewrite run_perform. by destruct (actTick env e w).
Qed.

Lemma runsTo_mono {A} (p : prog A) w (Φ Ψ : A → World St → Prop) :
  (∀ a w', Φ a w' → Ψ a w') → runsTo p w Φ → runsTo p w Ψ.
Proof. intros HΦΨ (w' & ts & a & E & HΦ). exists w', ts, a. auto. Qed.

(** A run is one of the traces: the actions it goes through and how it ends. *)
Fixpoint recorded {A : Type} (p : prog A) w : list obs * result A :=
  match p with
  | Ret a => ([], Done a)
  | Act e k =>
      let '(w', x) := actTick env e w in
      let '(t, r) := recorded (k x) w' in (Obs e x :: t, r)
  | Go l q k => let '(t, r) := recorded k w in (Started l q :: t, r)
  | Panic => ([], Crashed)
  | OutOfFuel => ([], Cut)
  end.

Lemma recorded_trace {A} (p : prog A) w :
  trace p (fst (recorded p w)) (Some (snd (recorded p w))).
Proof.
  revert w. induction p as [A a|A X e k IH|A l q _ k IH|A|A]; intros w; simpl.
  - by right.
  - destruct (actTick env e w) as [w1 x]. specialize (IH x w1).
    destruct (recorded (k x) w1) as [t r]. right. by exists x, t.
  - specialize (IH w). destruct (recorded k w) as [t r]. right. by exists t.
  - by right.
  - by right.
Qed.

Lemma recorded_run {A} (p : prog A) w : snd (recorded p w) = snd (run env p w).
Proof.
  revert w. induction p as [A a|A X e k IH|A l q _ k IH|A|A]; intros w; simpl; try done.
  - destruct (actTick env e w) as [w1 x]. rewrite <-IH. by destruct (recorded (k x) w1).
  - specialize (IH w). destruct (recorded k w), (run env k w) as [[? ?] ?]. done.
Qed.

(** A relation on worlds that every allowed action keeps is kept by the run of a verified
    program, however it ends. *)
Lemma wp_run_keeps pol (R : World St → World St → Prop) `{!PreOrder R} {A} (p : prog A) h Q w w' ts r :
  (∀ h w X (e : eff X), on_act pol h X e → R w (fst (actTick env e w))) →
  wp pol h p Q → run env p w = (w', ts, r) → R w w'.
Proof.
  intros Ha. revert h w w' ts r.
  induction p as [A a|A X e k IH|A l q _ k IH|A|A]; intros h w w' ts r; simpl.
  - by intros _ [= <- _ _].
  - intros [He Hk] E. pose proof (Ha h w X e He) as HR. destruct (actTick env e w) as [w1 x].
    etransitivity; [exact HR|]. by eapply IH.
  - intros [_ Hk] E. destruct (run env k w) as [[w1 ts1] r1] eqn:E1. injection E as <- _ _. by eapply IH.
  - by intros _ [= <- _ _].
  - by intros _ [= <- _ _].
Qed.

(** What holds of the result after every trace holds of the result of a run. *)
Lemma wp_run pol {A} (p : prog A) h Q w w' ts a :
  wp pol h p Q → run env p w = (w', ts, Done a) → ∃ h', Q a h'.
Proof.
  intros Hwp E. destruct (wp_sound _ _ _ _ _ _ Hwp (recorded_trace p w)) as [_ HQ].
  eexists. apply HQ. by rewrite recorded_run, E.
Qed.

(** An invariant of the world kept by every permitted action is kept by every
    interleaving of guarded goroutines. *)
Lemma steps_invariant (P : ∀ X, eff X → Prop) (R : World St → World St → Prop) c c' :
  (∀ w, R w w) → (∀ w1 w2 w3, R w1 w2 → R w2 w3 → R w1 w3) →
  (∀ w X (e : eff X), P X e → R w (fst (actTick env e w))) →
  rtc (step env) c c' → Forall (guarded P) (snd c) →
  R (fst c) (fst c') ∧ Forall (guarded P) (snd c').
Proof.
  intros Hr Ht Ha. induction 1 as [|[w1 ts1] [w2 ts2] c3 Hs _ IH]; intros Hg; [by split|].
  pose proof (step_guarded _ _ _ _ _ Hs Hg) as Hg2. destruct (IH Hg2) as [HR ?].
  split; [|done]. eapply Ht; [|exact HR]. cbn [fst snd] in *.
  inversion Hs as [? ? i X e k ? x Hi Hact|? ? i l q k Hi]; simplify_eq; [|apply Hr].
  apply (Forall_lookup_1 _ _ _ _ Hg) in Hi as [He _].
  pose proof (Ha w1 _ e He) as HR'. by rewrite Hact in HR'.
Qed.

End run_lemmas.

(** ** The job records under an action *)

Section records.
Context {St : Type} `{StoreLaws St} (env : Env).
Implicit Type w : World St.

(** The job records of a world. *)
Definition jobs (w : World St) : gmap string Job := job_of (w_store w).

Lemma jobs_set_tick n (w : World St) : jobs (set_tick n w) = jobs w.
Proof. by destruct w. Qed.

(** An action outside the job records. *)
Lemma act_jobs_other X (e : eff X) (w : World St) :
  match e with
  | ECreateJob _ | EUpdateJob _ _ _ | EDeleteJob _ => True
  | _ => jobs (fst (act env e w)) = jobs w
  end.
Proof.
  destruct e; try done; cbn; unfold onStore.
  - pose proof (law_AppendEvent (env_now env (w_tick w)) jobID ev (w_store w)) as Hl.
    destruct (AppendEvent _ _ _ _). by destruct w.
  - pose proof (law_PutPermission jobID p (w_store w)) as Hl.
    destruct (PutPermission _ _ _). by destruct w.
  - destruct (Register _ _ _). by destruct w.
  - by destruct w.
  - unfold receive. repeat case_match; by destruct w.
  - unfold transmit. repeat case_match; by destruct w.
  - by destruct w.
  - unfold sessionSend, transmit. repeat case_match; by destruct w.
  - by destruct w.
  - by destruct w.
  - unfold trySend. repeat case_match; by destruct w.
  - by destruct w.
  - destruct wg; by destruct w.
  - destruct wg; by destruct w.
  - by destruct w.
Qed.

End records.

(** ** Runs and the job records *)

Section record_runs.
Context {St : Type} `{StoreLaws St} (env : Env).
Implicit Type w : World St.

(** Actions that write no job record. *)
Definition bookkeeping (X : Type) (e : eff X) : Prop :=
  match e with
  | ECreateJob _ | EUpdateJob _ _ _ | EDeleteJob _ => False
  | _ => True
  end.

Lemma act_bookkeeping X (e : eff X) w : bookkeeping X e → jobs (fst (actTick env e w)) = jobs w.
Proof.
  intros Hb. pose proof (act_jobs_other env X e w) as Ho. unfold actTick.
  destruct (act env e w) as [w' x]. cbn [fst] in *. rewrite jobs_set_tick. by destruct e.
Qed.

Lemma runsTo_bookkeeping {A} (p : prog A) w (Φ : A → World St → Prop) :
  total bookkeeping p → (∀ a w', jobs w' = jobs w → Φ a w') → runsTo env p w Φ.
Proof.
  intros Hp HΦ.
  destruct (run_total env bookkeeping (λ w w', jobs w' = jobs w) p w) as (w' & ts & a & E & Hj);
    [done|congruence|intros; by apply act_bookkeeping|done|].
  exists w', ts, a. auto.
Qed.

Lemma runsTo_bookkeeping_bind {A B} (p : prog A) (f : A → prog B) w (Φ : B → World St → Prop) :
  total bookkeeping p → (∀ a w', jobs w' = jobs w → runsTo env (f a) w' Φ) →
  runsTo env (p ≫= f) w Φ.
Proof. intros Hp Hf. apply runsTo_bind. by apply runsTo_bookkeeping. Qed.

(** An update of a record that is there. *)
Lemma runsTo_update {C : Set} {B} id (fn : updater C) c (f : C * res Job → prog B) w j
  (Φ : B → World St → Prop) :
  jobs w !! id = Some j →
  (∀ w', jobs w' = match snd (fn c j) with Ok j' => <[id := j']> (jobs w) | Err _ => jobs w end →
         w_reg w' = w_reg w → w_sessions w' = w_sessions w → w_streams w' = w_streams w →
         runsTo env (f (fn c j)) w' Φ) →
  runsTo env (perform (EUpdateJob id fn c) ≫= f) w Φ.
Proof.
  intros Hj Hf. apply runsTo_act. unfold actTick. cbn [act]. unfold onStore, jobs in *.
  pose proof (law_UpdateJob _ id fn c (w_store w)) as Hl. rewrite Hj in Hl.
  destruct (fn c j) as [c' [j'|e]]; cbn [snd] in *.
  - destruct Hl as (s' & -> & Hs). cbn [fst snd]. apply Hf; by destruct w.
  - rewrite Hl. cbn [fst snd]. apply Hf; by destruct w.
Qed.

End record_runs.
