(* ===== verification/Memory.v ===== *)
(** * The memory tools ([src/internal/memory])

    [Fulfil] answers one control-plane memory call: it decodes the tool's JSON
    input, checks it, calls Billet (the actions [ESearch] and [ESave]) and encodes
    the answer.  A panic of the client unwinds out of [Fulfil], so the result is an
    [outcome]; the control plane's goroutine recovers it. *)

From stdpp Require Import base list strings pretty.
From Stdlib Require Import Ascii.
From S2P Require Import Prelude Utf8 Fmt Json Prog.

(** ** Constants *)

Definition ToolSearch : string := "search_memory".
Definition ToolSave : string := "save_memory".

Definition maxSearchLimit : Z := 100.
Definition maxContentBytes : nat := N.to_nat (N.shiftl 256 10).

Definition GenericFailureMessage : string := "memory is unavailable".

Definition CallTimeout : Duration := 10 * Second.

Definition KindUnspecified : string := "".
Definition KindEvent : string := "event".
Definition KindFact : string := "fact".

Definition IsMemoryTool (name : string) : bool := (name ==? ToolSearch) || (name ==? ToolSave).

(** [strings.TrimSpace(s) == ""]: every rune is white space. *)
Definition blank (s : string) : bool := forallb isSpace (runes s).

Section memory.
Context `{UnicodeTables}.

Definition UnsupportedToolMessage (name : string) : string :=
  "hairpin does not fulfil the tool " +:+ Quote name.

(** ** Decoding the input *)

Record searchInput := mkSearchInput { si_Query : string; si_Limit : Z }.
Record saveInput := mkSaveInput { sv_Content : string; sv_Kind : string }.

Definition searchFields : list (field searchInput) :=
  [stringField "query" (λ v i, mkSearchInput v (si_Limit i));
   int32Field "limit" (λ v i, mkSearchInput (si_Query i) v)].

Definition saveFields : list (field saveInput) :=
  [stringField "content" (λ v i, mkSaveInput v (sv_Kind i));
   stringField "kind" (λ v i, mkSaveInput (sv_Content i) v)].

(** [decodeInput]: the decoded struct, or the text of the error. *)
Definition decodeInput {T} (tool input : string) (fs : list (field T)) (dst : T) : T + string :=
  match Unmarshal fs dst input with
  | (x, None) => inl x
  | (_, Some (UnmarshalTypeError f v)) =>
      if f !=? "" then
        inr (tool +:+ ": " +:+ Quote f +:+ " has the wrong type (got " +:+ v +:+ ")")
      else inr (tool +:+ ": input must be a JSON object")
  | (_, Some SyntaxError) => inr (tool +:+ ": input is not valid JSON")
  end.

(** ** Encoding the answer *)

(** What the caller is told, whether it is an error, and the withheld cause. *)
Definition answer : Type := string * bool * option error.

Fixpoint intersperse (sep : string) (l : list string) : string :=
  match l with
  | [] => ""
  | [x] => x
  | x :: l' => x +:+ sep +:+ intersperse sep l'
  end.

(** One [recordOutput]; a score that is not finite cannot be encoded. *)
Definition marshalRecord (r : MemRecord) : option string :=
  score ← mr_Score r;
  Some ("{" +:+ quoteString "memory_id" +:+ ":" +:+ quoteString (mr_MemoryID r)
    +:+ "," +:+ quoteString "content" +:+ ":" +:+ quoteString (mr_Content r)
    +:+ "," +:+ quoteString "score" +:+ ":" +:+ score
    +:+ "," +:+ quoteString "created_at" +:+ ":" +:+ quoteString (mr_CreatedAt r) +:+ "}").

Definition marshalSearchOutput (rs : list MemRecord) : res string :=
  match mapM marshalRecord rs with
  | Some objs => Ok ("{" +:+ quoteString "records" +:+ ":[" +:+ intersperse "," objs +:+ "]}")
  | None => Err (ErrNew "json: unsupported value")
  end.

Definition marshalSaveOutput (r : SaveResult) : res string :=
  Ok ("{" +:+ quoteString "memory_id" +:+ ":" +:+ quoteString (sr_MemoryID r)
    +:+ "," +:+ quoteString "accepted" +:+ ":" +:+ (if sr_Accepted r then "true" else "false")
    +:+ "}").

Definition encodeOutput (out : res string) : answer :=
  match out with
  | Err e => (GenericFailureMessage, true, Some e)
  | Ok s => (s, false, None)
  end.

Definition callFailure (err : error) : answer :=
  match CodeOf err with
  | CodeInvalidArgument | CodeResourceExhausted =>
      match asConnectError err with
      | Some (_, msg) => (msg, true, None)
      | None => (Error err, true, None)
      end
  | _ => (GenericFailureMessage, true, Some err)
  end.

(** ** The Billet client *)

Definition protoKind (kind : string) : ProtoKind * option error :=
  if kind ==? KindUnspecified then (KIND_UNSPECIFIED, None)
  else if kind ==? KindEvent then (KIND_EVENT, None)
  else if kind ==? KindFact then (KIND_FACT, None)
  else (KIND_UNSPECIFIED,
        Some (ConnectError CodeInvalidArgument
          (ErrNew ("save_memory: kind " +:+ Quote kind +:+ " is not " +:+ Quote KindEvent
                   +:+ " or " +:+ Quote KindFact)))).

(** [billetClient.Save]. *)
Definition clientSave (content kind : string) : prog (outcome (res SaveResult)) :=
  match protoKind kind with
  | (_, Some e) => mret (Returned (Err e))
  | (k, None) => perform (ESave content k)
  end.

(** ** The tools *)

Definition fulfilSearch (input : string) : prog (outcome answer) :=
  match decodeInput ToolSearch input searchFields (mkSearchInput "" 0) with
  | inr e => mret (Returned (e, true, None))
  | inl i =>
      if blank (si_Query i) then
        mret (Returned (ToolSearch +:+ ": " +:+ quoteString "query" +:+ " is required", true, None))
      else
        let limit := if (maxSearchLimit <? si_Limit i)%Z then maxSearchLimit else si_Limit i in
        r ← perform (ESearch (si_Query i) limit);
        mret match r with
             | Panicked => Panicked
             | Returned (Err e) => Returned (callFailure e)
             | Returned (Ok rs) => Returned (encodeOutput (marshalSearchOutput rs))
             end
  end.

Definition fulfilSave (input : string) : prog (outcome answer) :=
  match decodeInput ToolSave input saveFields (mkSaveInput "" "") with
  | inr e => mret (Returned (e, true, None))
  | inl i =>
      if blank (sv_Content i) then
        mret (Returned (ToolSave +:+ ": " +:+ quoteString "content" +:+ " is required", true, None))
      else if (maxContentBytes <? len (sv_Content i)) then
        mret (Returned (ToolSave +:+ ": " +:+ Quote "content" +:+ " exceeds the "
          +:+ pretty maxContentBytes +:+ " byte limit", true, None))
      else if negb ((sv_Kind i ==? KindUnspecified) || (sv_Kind i ==? KindEvent)
                    || (sv_Kind i ==? KindFact)) then
        mret (Returned (ToolSave +:+ ": " +:+ Quote "kind" +:+ " must be " +:+ Quote KindEvent
          +:+ " or " +:+ Quote KindFact, true, None))
      else
        r ← clientSave (sv_Content i) (sv_Kind i);
        mret match r with
             | Panicked => Panicked
             | Returned (Err e) => Returned (callFailure e)
             | Returned (Ok sr) => Returned (encodeOutput (marshalSaveOutput sr))
             end
  end.

Definition Fulfil (toolName input : string) : prog (outcome answer) :=
  if toolName ==? ToolSearch then fulfilSearch input
  else if toolName ==? ToolSave then fulfilSave input
  else mret (Returned (UnsupportedToolMessage toolName, true, None)).

(** ** What a memory call may do *)

(** The calls to Billet of a history. *)
Definition isBilletCall (o : obs) : bool :=
  match o with
  | Obs (ESearch _ _) _ | Obs (ESave _ _) _ => true
  | _ => false
  end.

(** What the tools send to Billet, of their input: at most one call, a non-blank query
    with the limit asked for capped at hairpin's, or a non-blank content of a bounded
    length with the kind the input names. *)
Definition billetPolicy (toolName input : string) : policy := mkPolicy (λ h X e,
  match e with
  | ESearch q l =>
      existsb isBilletCall h = false ∧ toolName = ToolSearch ∧ blank q = false
      ∧ ∃ limit, decodeInput ToolSearch input searchFields (mkSearchInput "" 0)
                   = inl (mkSearchInput q limit)
          ∧ l = Z.min limit 100
  | ESave c k =>
      existsb isBilletCall h = false ∧ toolName = ToolSave ∧ blank c = false
      ∧ (Z.of_nat (len c) ≤ 256 * 1024)%Z
      ∧ ∃ kind, decodeInput ToolSave input saveFields (mkSaveInput "" "")
                  = inl (mkSaveInput c kind)
          ∧ (kind, k) ∈ [("", KIND_UNSPECIFIED); ("event", KIND_EVENT); ("fact", KIND_FACT)]
  | _ => False
  end) (λ _ _ _, False).

(** The error Billet answered a call with, if it did. *)
Definition failure (o : obs) : option error :=
  match o with
  | Obs e x =>
      match e in eff X return X → option error with
      | ESearch _ _ => λ r, if r is Returned (Err err) then Some err else None
      | ESave _ _ => λ r, if r is Returned (Err err) then Some err else None
      | _ => λ _, None
      end x
  | Started _ _ => None
  end.

(** The policy on failures: a rejection the model can act on is passed on, of a
    connect error its message; anything else is withheld, and told to the log only. *)
Definition discreet (h : list obs) (a : answer) : Prop :=
  ∀ e, e ∈ omap failure h →
    a = if bool_decide (CodeOf e ∈ [CodeInvalidArgument; CodeResourceExhausted])
        then (match asConnectError e with Some (_, msg) => msg | None => Error e end, true, None)
        else ("memory is unavailable", true, Some e).

Lemma callFailure_discreet e :
  callFailure e
  = if bool_decide (CodeOf e ∈ [CodeInvalidArgument; CodeResourceExhausted])
    then (match asConnectError e with Some (_, msg) => msg | None => Error e end, true, None)
    else ("memory is unavailable", true, Some e).
Proof.
  unfold callFailure. by destruct (CodeOf e), (asConnectError e) as [[c m]|].
Qed.

Definition discreetOutcome (h : list obs) (o : outcome answer) : Prop :=
  match o with Returned a => discreet h a | Panicked => True end.

Lemma discreet_nil a : discreet [] a.
Proof. by intros e ?%elem_of_nil. Qed.

(** After the one call, the answer is judged by what it returned. *)
Lemma discreet_one o a :
  (∀ e, failure o = Some e → a = callFailure e) → discreet [o] a.
Proof.
  intros Ha e He. rewrite (Ha e), callFailure_discreet; [done|]. cbn in He.
  destruct (failure o); [by apply list_elem_of_singleton in He as ->|by apply elem_of_nil in He].
Qed.

Lemma fulfilSearch_wp input :
  wp (billetPolicy ToolSearch input) [] (fulfilSearch input) (λ o h, discreetOutcome h o).
Proof.
  unfold fulfilSearch. destruct (decodeInput _ _ _ _) as [[q limit]|e] eqn:Hd; [|apply discreet_nil].
  cbn [si_Query si_Limit]. destruct (blank q) eqn:Hb; [apply discreet_nil|].
  apply wp_perform_bind.
  - split_and!; try done. exists limit. split; [done|]. unfold maxSearchLimit.
    destruct (Z.ltb_spec 100 limit); lia.
  - intros [[rs|e]|]; [..|done]; apply discreet_one; by intros e' [= ->].
Qed.

Lemma maxContentBytes_Z : Z.of_nat maxContentBytes = (256 * 1024)%Z.
Proof. unfold maxContentBytes. by rewrite N_nat_Z. Qed.

Lemma fulfilSave_wp input :
  wp (billetPolicy ToolSave input) [] (fulfilSave input) (λ o h, discreetOutcome h o).
Proof.
  unfold fulfilSave. destruct (decodeInput _ _ _ _) as [[c kind]|e] eqn:Hd; [|apply discreet_nil].
  cbn [sv_Content sv_Kind]. destruct (blank c) eqn:Hb; [apply discreet_nil|].
  destruct (Nat.ltb_spec maxContentBytes (len c)) as [|Hl]; [apply discreet_nil|].
  destruct (negb _) eqn:Hk; [apply discreet_nil|]. apply negb_false_iff in Hk.
  assert (∃ k, protoKind kind = (k, None)
    ∧ (kind, k) ∈ [("", KIND_UNSPECIFIED); ("event", KIND_EVENT); ("fact", KIND_FACT)])
    as (k & Hp & Hin).
  { rewrite !orb_true_iff, !bool_decide_eq_true in Hk.
    destruct Hk as [[-> | ->]| ->]; eexists; (split; [reflexivity|in_hist]). }
  unfold clientSave. rewrite Hp. apply wp_perform_bind.
  - split_and!; [done..| |].
    + rewrite <-maxContentBytes_Z. by apply Nat2Z.inj_le.
    + by exists kind.
  - intros [[sr|e]|]; [..|done]; apply discreet_one; by intros e' [= ->].
Qed.

(** ** Properties *)

(** C34. A memory tool call reaches Billet at most once, and only within hairpin's own
    bounds whatever JSON the harness sent: for the search tool, with the non-blank query
    its input decodes to and the limit asked for, capped at 100; for the save tool, with
    the content it decodes to, not blank and at most 256 KiB, under the kind it names,
    which is a known one or none. And when Billet fails, the caller is told the message of
    the failure if its code is [InvalidArgument] or [ResourceExhausted]; of any other it is
    told that memory is unavailable, and nothing of the cause. *)
Theorem Fulfil_bounds_Billet (toolName input : string) (t : list obs)
  (r : option (result (outcome answer))) (Ht : trace (Fulfil toolName input) t r) :
  (∀ t1 o t2, t = t1 ++ o :: t2 → allowed (billetPolicy toolName input) (reverse t1) o)
  ∧ ∀ a, r = Some (Done (Returned a)) → discreet (reverse t) a.
Proof.
  assert (wp (billetPolicy toolName input) [] (Fulfil toolName input) (λ o h, discreetOutcome h o))
    as Hwp.
  { unfold Fulfil. repeat case_bool_decide; subst;
      [apply fulfilSearch_wp|apply fulfilSave_wp|apply discreet_nil]. }
  destruct (wp_sound _ _ _ _ _ _ Hwp Ht) as [H1 H2]. split.
  - intros t1 o t2 E. specialize (H1 t1 o t2 E). by rewrite app_nil_r in H1.
  - intros a ->. specialize (H2 _ eq_refl). by rewrite app_nil_r in H2.
Qed.

End memory.

(** A search that asks for 500 records, and a backend that fails with an internal error. *)
Definition sample_search : string :=
  "{" +:+ quoteString "query" +:+ ":" +:+ quoteString "deploy notes" +:+ ","
  +:+ quoteString "limit" +:+ ":500}".

Definition backend_down : error := ErrNew "dial billet.internal:443: refused".

Definition sample_search_trace : list obs :=
  [Obs (ESearch "deploy notes" 100) (Returned (Err backend_down))].

Lemma sample_search_decodes :
  @decodeInput sample_tables _ ToolSearch sample_search searchFields (mkSearchInput "" 0)
  = inl (mkSearchInput "deploy notes" 500).
Proof. vm_compute. reflexivity. Qed.

Lemma Fulfil_bounds_Billet_witness :
  (∀ t1 o t2, sample_search_trace = t1 ++ o :: t2 →
     allowed (@billetPolicy sample_tables ToolSearch sample_search) (reverse t1) o)
  ∧ ∀ a, Some (Done (Returned (GenericFailureMessage, true, Some backend_down)))
         = Some (Done (Returned a)) → discreet (reverse sample_search_trace) a.
Proof.
  apply (Fulfil_bounds_Billet (H := sample_tables) ToolSearch sample_search).
  change (@Fulfil sample_tables ToolSearch sample_search)
    with (@fulfilSearch sample_tables sample_search).
  unfold fulfilSearch. rewrite sample_search_decodes. right.
  exists (Returned (Err backend_down)), []. split; [reflexivity|]. right. split; reflexivity.
Defined.
