(* ===== verification/JsonGrammar.v ===== *)
(** * The grammar of the JSON reader

    A declarative grammar of documents, without fuel, as the reference for the parser of
    [Json]: the parser accepts exactly the texts with a derivation, so its fuel is never
    what makes it refuse one.  For the tools of a run it follows which inputs are taken,
    and what is said of the others ([decodeInput]). *)

From stdpp Require Import base list strings.
From Stdlib Require Import Ascii.
From S2P Require Import Prelude Utf8 Fmt Json Memory.

(** ** Grammar

    [ValueAt d s v r]: the value [v] stands at the head of [s], nested at most [d] deep,
    and [r] follows it.  White space is skipped before every token. *)

Inductive ValueAt : nat → string → value → string → Prop :=
  | V_no_members d s s1 r :
      skipWs s = String "{" s1 → skipWs s1 = String "}" r → ValueAt (S d) s (JObj []) r
  | V_object d s s1 kvs r :
      skipWs s = String "{" s1 → MembersAt d s1 kvs r → ValueAt (S d) s (JObj kvs) r
  | V_no_elements d s s1 r :
      skipWs s = String "[" s1 → skipWs s1 = String "]" r → ValueAt (S d) s (JArr []) r
  | V_array d s s1 vs r :
      skipWs s = String "[" s1 → ElementsAt d s1 vs r → ValueAt (S d) s (JArr vs) r
  | V_string d s s1 t r :
      skipWs s = String dquote s1 → unquote (len s1) s1 = Some (t, r) → ValueAt d s (JStr t) r
  | V_true d s r : skipWs s = "true" +:+ r → ValueAt d s (JBool true) r
  | V_false d s r : skipWs s = "false" +:+ r → ValueAt d s (JBool false) r
  | V_null d s r : skipWs s = "null" +:+ r → ValueAt d s JNull r
  | V_number d s lit r : number (skipWs s) = Some (lit, r) → ValueAt d s (JNum lit) r
with MembersAt : nat → string → list (string * value) → string → Prop :=
  | M_last d s s1 k s2 s3 v s4 r :
      skipWs s = String dquote s1 → unquote (len s1) s1 = Some (k, s2) →
      skipWs s2 = String ":" s3 → ValueAt d s3 v s4 → skipWs s4 = String "}" r →
      MembersAt d s [(k, v)] r
  | M_next d s s1 k s2 s3 v s4 s5 kvs r :
      skipWs s = String dquote s1 → unquote (len s1) s1 = Some (k, s2) →
      skipWs s2 = String ":" s3 → ValueAt d s3 v s4 → skipWs s4 = String "," s5 →
      MembersAt d s5 kvs r → MembersAt d s ((k, v) :: kvs) r
with ElementsAt : nat → string → list value → string → Prop :=
  | E_last d s v s1 r : ValueAt d s v s1 → skipWs s1 = String "]" r → ElementsAt d s [v] r
  | E_next d s v s1 s2 vs r :
      ValueAt d s v s1 → skipWs s1 = String "," s2 → ElementsAt d s2 vs r →
      ElementsAt d s (v :: vs) r.

Scheme ValueAt_mut := Induction for ValueAt Sort Prop
  with MembersAt_mut := Induction for MembersAt Sort Prop
  with ElementsAt_mut := Induction for ElementsAt Sort Prop.
Combined Scheme grammar_ind from ValueAt_mut, MembersAt_mut, ElementsAt_mut.

(** A document: one value with nothing but white space behind it. *)
Definition document (s : string) (v : value) : Prop :=
  ∃ r, ValueAt maxNestingDepth s v r ∧ skipWs r = "".

(** ** Every token is consumed *)

Lemma len_skipWs s : len (skipWs s) ≤ len s.
Proof. induction s as [|c s IH]; cbn; [done|]. destruct (isWs c); cbn; lia. Qed.

Lemma skipWs_idem s : skipWs (skipWs s) = skipWs s.
Proof.
  induction s as [|c s IH]; [done|]. cbn [skipWs]. destruct (isWs c) eqn:E; [done|].
  cbn [skipWs]. by rewrite E.
Qed.

Lemma len_skipWs_cons s c s1 : skipWs s = String c s1 → len s1 < len s.
Proof. intros E. pose proof (len_skipWs s) as Hl. rewrite E in Hl. cbn in Hl. lia. Qed.

Lemma len_hex4 s n r : hex4 s = Some (n, r) → len r < len s.
Proof.
  destruct s as [|a [|b [|c [|d s]]]]; cbn; try done. intros Hx.
  repeat (apply bind_Some in Hx as (? & _ & Hx)). simplify_eq. lia.
Qed.

Lemma len_unescape s t r : unescape s = Some (t, r) → len r < len s.
Proof.
  destruct s as [|c s]; [done|]. unfold unescape. cbn zeta.
  repeat (case_match; [intros; simplify_eq/=; lia|]).
  case_match; [|done]. intros Hx. apply bind_Some in Hx as ([n s'] & Hh%len_hex4 & [= E]). cbn.
  assert (len (snd (unescapeU n s')) ≤ len s') as Hu.
  { unfold unescapeU. case_match; [|done]. destruct (getu4 s') as [[r1 s'']|] eqn:Hg; [|done].
    assert (len s'' ≤ len s').
    { destruct s' as [|c0 [|c1 s']]; try done. cbn in Hg. case_match; [|done].
      apply len_hex4 in Hg. cbn. lia. }
    by case_match. }
  rewrite E in Hu. cbn in Hu. lia.
Qed.

Lemma len_unquote f s t r : unquote f s = Some (t, r) → len r < len s.
Proof.
  revert s t r. induction f as [|f IH]; intros [|c s] t r; cbn [unquote]; try done.
  case_match; [intros [= <- <-]; cbn; lia|]. case_match.
  { intros Hx. apply bind_Some in Hx as ([u s1] & Hu%len_unescape & Hx).
    apply bind_Some in Hx as ([rest tl] & Hr%IH & [= <- <-]). cbn. lia. }
  case_match; [done|]. destruct (decodeRune (String c s)) as [x n] eqn:Hd.
  intros Hx. apply bind_Some in Hx as ([rest tl] & Hr%IH & [= <- <-]). rewrite len_sdrop in Hr. lia.
Qed.

Lemma len_digits s d r : digits s = (d, r) → len r ≤ len s.
Proof.
  revert d r. induction s as [|c s IH]; intros d r; cbn [digits]; [by intros [= <- <-]|].
  destruct (isDigit c); [|by intros [= <- <-]]. destruct (digits s) as [d' r'] eqn:E.
  intros [= <- <-]. specialize (IH _ _ eq_refl). cbn. lia.
Qed.

Lemma len_digits1 s d r : digits1 s = Some (d, r) → len r < len s.
Proof.
  unfold digits1. destruct s as [|c s]; [done|]. cbn [digits]. destruct (isDigit c); [|done].
  destruct (digits s) as [d' r'] eqn:E. apply len_digits in E. case_bool_decide; [done|].
  intros [= <- <-]. cbn. lia.
Qed.

(** A match on the first byte. *)
Lemma match_zero {A} (x : string → A) (y : A) s :
  match s with String "0" s' => x s' | _ => y end
  = match s with String c s' => if c ==? "0"%char then x s' else y | _ => y end.
Proof. by destruct s as [|[[] [] [] [] [] [] [] []] s]. Qed.

Lemma match_dot {A} (x : string → A) (y : A) s :
  match s with String "." s' => x s' | _ => y end
  = match s with String c s' => if c ==? "."%char then x s' else y | _ => y end.
Proof. by destruct s as [|[[] [] [] [] [] [] [] []] s]. Qed.

(** An integer, then what may follow it. *)
Lemma len_number s lit r : number s = Some (lit, r) → len r < len s.
Proof.
  unfold number. intros Hx.
  set (sg := match s with String "-" s' => ("-", s') | _ => ("", s) end) in Hx.
  assert (len (snd sg) ≤ len s) as Hsg.
  { subst sg. destruct s as [|[[] [] [] [] [] [] [] []] s]; cbn; lia. }
  destruct sg as [sign s0]. cbn in Hsg.
  apply bind_Some in Hx as ([int s1] & Hint & Hx).
  assert (len s1 < len s0) as H1.
  { rewrite match_zero in Hint. destruct s0 as [|c s0]; [done|].
    case_bool_decide; [simplify_eq/=; lia|by apply len_digits1 in Hint]. }
  apply bind_Some in Hx as ([frac s2] & Hfrac & Hx).
  assert (len s2 ≤ len s1) as H2.
  { rewrite match_dot in Hfrac. destruct s1 as [|c s1]; [by simplify_eq|].
    case_bool_decide; [|by simplify_eq].
    apply bind_Some in Hfrac as ([d r'] & Hd%len_digits1 & [= _ <-]). cbn. lia. }
  apply bind_Some in Hx as ([exp s3] & Hexp & [= _ <-]).
  assert (len s3 ≤ len s2); [|lia].
  destruct s2 as [|c s2]; [by simplify_eq|]. case_match; [|by simplify_eq].
  set (sg := match s2 with String "+" t => ("+", t) | String "-" t => ("-", t) | _ => ("", s2) end) in Hexp.
  assert (len (snd sg) ≤ len s2) as Hsg2.
  { subst sg. destruct s2 as [|[[] [] [] [] [] [] [] []] s2]; cbn; lia. }
  destruct sg as [sg s4]. cbn in Hsg2.
  apply bind_Some in Hexp as ([d r'] & Hd%len_digits1 & [= _ <-]). cbn. lia.
Qed.

Lemma keyword_Some k s r : keyword k s = Some r ↔ s = k +:+ r.
Proof.
  revert s. induction k as [|a k IH]; intros s; cbn.
  { split; [by intros [= ->]|by intros ->]. }
  destruct s as [|b s]; [done|]. case_bool_decide as E.
  - subst b. rewrite IH. split; [by intros ->|by intros [= ->]].
  - split; [done|]. by intros [= -> _].
Qed.

Lemma len_keyword k r : len (k +:+ r) = len k + len r.
Proof. induction k as [|a k IH]; cbn; [done|]. by rewrite <-IH. Qed.

(** What is read leaves less behind. *)
Lemma grammar_consumes :
  (∀ d s v r, ValueAt d s v r → len r < len s)
  ∧ (∀ d s kvs r, MembersAt d s kvs r → len r < len s)
  ∧ (∀ d s vs r, ElementsAt d s vs r → len r < len s).
Proof.
  apply grammar_ind; intros;
    repeat match goal with
    | H : skipWs ?s = ?k +:+ ?r |- _ =>
        let E := fresh in pose proof (len_skipWs s) as E; rewrite H, len_keyword in E; clear H
    | H : skipWs _ = String _ _ |- _ => apply len_skipWs_cons in H
    | H : unquote _ _ = Some _ |- _ => apply len_unquote in H
    | H : number (skipWs ?s) = Some _ |- _ =>
        apply len_number in H; pose proof (len_skipWs s)
    end; cbn in *; lia.
Qed.

(** ** The parser and the grammar *)

(** Which byte a match on a byte selects. *)
Ltac which_byte c := destruct c as [[] [] [] [] [] [] [] []]; try done.

(** White space before a token is of no account. *)
Lemma ValueAt_ws d s s' v r : skipWs s = skipWs s' → ValueAt d s v r → ValueAt d s' v r.
Proof.
  intros E Hv. destruct Hv as [? ? s1 ? H|? ? s1 kvs ? H|? ? s1 ? H|? ? s1 vs ? H|? ? s1 t ? H|? ? ? H|? ? ? H|? ? ? H|? ? lit ? H];
    rewrite E in H.
  - by eapply V_no_members.
  - by eapply V_object.
  - by eapply V_no_elements.
  - by eapply V_array.
  - by eapply V_string.
  - by apply V_true.
  - by apply V_false.
  - by apply V_null.
  - by apply V_number.
Qed.

Lemma MembersAt_ws d s s' kvs r : skipWs s = skipWs s' → MembersAt d s kvs r → MembersAt d s' kvs r.
Proof.
  intros E Hm. destruct Hm as [? ? s1 k s2 s3 v s4 ? H|? ? s1 k s2 s3 v s4 s5 kvs ? H];
    rewrite E in H; [by eapply M_last|by eapply M_next].
Qed.

Lemma ElementsAt_ws d s s' vs r : skipWs s = skipWs s' → ElementsAt d s vs r → ElementsAt d s' vs r.
Proof.
  intros E He. destruct He as [? ? v s1 ? H|? ? v s1 s2 vs ? H];
    apply (ValueAt_ws _ _ _ _ _ E) in H; [by eapply E_last|by eapply E_next].
Qed.

(** A closing bracket, or what comes instead. *)
Lemma parseValue_brace f d s s1 :
  skipWs s = String "{" s1 →
  parseValue (S f) (S d) s
  = match skipWs s1 with
    | String c r =>
        if c ==? "}"%char then Some (JObj [], r)
        else '(kvs, r) ← parseMembers f d (skipWs s1); Some (JObj kvs, r)
    | s2 => '(kvs, r) ← parseMembers f d s2; Some (JObj kvs, r)
    end.
Proof.
  intros E. cbn [parseValue]. rewrite E. cbn.
  by destruct (skipWs s1) as [|[[] [] [] [] [] [] [] []] r].
Qed.

Lemma parseValue_bracket f d s s1 :
  skipWs s = String "[" s1 →
  parseValue (S f) (S d) s
  = match skipWs s1 with
    | String c r =>
        if c ==? "]"%char then Some (JArr [], r)
        else '(vs, r) ← parseElements f d (skipWs s1); Some (JArr vs, r)
    | s2 => '(vs, r) ← parseElements f d s2; Some (JArr vs, r)
    end.
Proof.
  intros E. cbn [parseValue]. rewrite E. cbn.
  by destruct (skipWs s1) as [|[[] [] [] [] [] [] [] []] r].
Qed.

Lemma match_colon {A} (x : string → A) (y : A) s :
  match s with String ":" s' => x s' | _ => y end
  = match s with String c s' => if c ==? ":"%char then x s' else y | _ => y end.
Proof. by destruct s as [|[[] [] [] [] [] [] [] []] s]. Qed.

Lemma match_comma_brace {A} (x y : string → A) (z : A) s :
  match s with String "," s' => x s' | String "}" s' => y s' | _ => z end
  = match s with
    | String c s' => if c ==? ","%char then x s' else if c ==? "}"%char then y s' else z
    | _ => z
    end.
Proof. by destruct s as [|[[] [] [] [] [] [] [] []] s]. Qed.

Lemma match_comma_bracket {A} (x y : string → A) (z : A) s :
  match s with String "," s' => x s' | String "]" s' => y s' | _ => z end
  = match s with
    | String c s' => if c ==? ","%char then x s' else if c ==? "]"%char then y s' else z
    | _ => z
    end.
Proof. by destruct s as [|[[] [] [] [] [] [] [] []] s]. Qed.

Lemma parser_sound f :
  (∀ d s v r, parseValue f d s = Some (v, r) → ValueAt d s v r)
  ∧ (∀ d s kvs r, parseMembers f d s = Some (kvs, r) → MembersAt d s kvs r)
  ∧ (∀ d s vs r, parseElements f d s = Some (vs, r) → ElementsAt d s vs r).
Proof.
  induction f as [|f (IHv & IHm & IHe)]; [done|]. split_and!; intros d s.
  - intros v r. destruct (skipWs s) as [|c s1] eqn:Es; [cbn [parseValue]; by rewrite Es|].
    destruct (decide (c = "{"%char)) as [->|E1].
    { destruct d as [|d]; [cbn [parseValue]; by rewrite Es|].
      rewrite (parseValue_brace f d s s1 Es). destruct (skipWs s1) as [|c2 s2] eqn:E2; [|case_bool_decide; subst].
      2: intros [= <- <-]; by eapply V_no_members.
      all: intros Hx; apply bind_Some in Hx as ([kvs r'] & Hm%IHm & [= <- <-]);
        eapply V_object; [done|eapply MembersAt_ws; [|done]]; by rewrite <-E2, skipWs_idem. }
    destruct (decide (c = "["%char)) as [->|E3].
    { destruct d as [|d]; [cbn [parseValue]; by rewrite Es|].
      rewrite (parseValue_bracket f d s s1 Es). destruct (skipWs s1) as [|c2 s2] eqn:E2; [|case_bool_decide; subst].
      2: intros [= <- <-]; by eapply V_no_elements.
      all: intros Hx; apply bind_Some in Hx as ([vs r'] & Hm%IHe & [= <- <-]);
        eapply V_array; [done|eapply ElementsAt_ws; [|done]]; by rewrite <-E2, skipWs_idem. }
    cbn [parseValue]. rewrite Es, !bool_decide_eq_false_2 by done.
    case_bool_decide; [subst c|].
    { intros Hx. apply bind_Some in Hx as ([t r'] & Hu & [= <- <-]). by eapply V_string. }
    do 3 (case_bool_decide; [subst c; intros Hx; apply bind_Some in Hx as (r' & ->%keyword_Some & [= <- <-]);
      by constructor|]).
    intros Hx. apply bind_Some in Hx as ([lit r'] & Hn & [= <- <-]). apply V_number. by rewrite Es.
  - intros kvs r. cbn [parseMembers]. destruct (skipWs s) as [|c s1] eqn:Es; [done|].
    case_bool_decide; [subst c|done]. intros Hx. apply bind_Some in Hx as ([k s2] & Hu & Hx).
    rewrite match_colon in Hx. destruct (skipWs s2) as [|c s3] eqn:E2; [done|].
    case_bool_decide; [subst c|done]. apply bind_Some in Hx as ([v s4] & Hv%IHv & Hx).
    rewrite match_comma_brace in Hx. destruct (skipWs s4) as [|c s5] eqn:E4; [done|].
    case_bool_decide; [subst c|case_bool_decide; [subst c|done]].
    + apply bind_Some in Hx as ([kvs' r'] & Hm%IHm & [= <- <-]). by eapply M_next.
    + injection Hx as <- <-. by eapply M_last.
  - intros vs r. cbn [parseElements]. intros Hx. apply bind_Some in Hx as ([v s1] & Hv%IHv & Hx).
    rewrite match_comma_bracket in Hx. destruct (skipWs s1) as [|c s2] eqn:E1; [done|].
    case_bool_decide; [subst c|case_bool_decide; [subst c|done]].
    + apply bind_Some in Hx as ([vs' r'] & Hm%IHe & [= <- <-]). by eapply E_next.
    + injection Hx as <- <-. by eapply E_last.
Qed.

Lemma parseValue_ws f d s : parseValue f d (skipWs s) = parseValue f d s.
Proof. destruct f; [done|]. cbn [parseValue]. by rewrite skipWs_idem. Qed.

Lemma parseMembers_ws f d s : parseMembers f d (skipWs s) = parseMembers f d s.
Proof. destruct f; [done|]. cbn [parseMembers]. by rewrite skipWs_idem. Qed.

Lemma parseElements_ws f d s : parseElements f d (skipWs s) = parseElements f d s.
Proof. destruct f; [done|]. cbn [parseElements]. by rewrite parseValue_ws. Qed.

(** No value begins with a closing bracket, no number with another value's first byte. *)
Lemma number_head c s1 lit r :
  number (String c s1) = Some (lit, r) →
  c ≠ "{"%char ∧ c ≠ "["%char ∧ c ≠ dquote ∧ c ≠ "t"%char ∧ c ≠ "f"%char ∧ c ≠ "n"%char ∧ c ≠ "]"%char.
Proof. intros Hn. split_and!; intros ->; by vm_compute in Hn. Qed.

Lemma ValueAt_head d s v r : ValueAt d s v r → ∃ c s1, skipWs s = String c s1 ∧ c ≠ "]"%char.
Proof.
  destruct 1; try (eexists _, _; split; [eassumption|done]).
  match goal with H : number _ = _ |- _ => pose proof (len_number _ _ _ H) as Hl; revert H end.
  destruct (skipWs s) as [|c s1]; cbn in Hl; [lia|]. intros Hn%number_head. naive_solver.
Qed.

(** With two units of fuel for each byte, the parser finds what the grammar derives. *)
Lemma parser_complete :
  (∀ d s v r, ValueAt d s v r → ∀ f, 2 * len s < f → parseValue f d s = Some (v, r))
  ∧ (∀ d s kvs r, MembersAt d s kvs r → ∀ f, 2 * len s < f → parseMembers f d s = Some (kvs, r))
  ∧ (∀ d s vs r, ElementsAt d s vs r → ∀ f, 2 * len s + 1 < f → parseElements f d s = Some (vs, r)).
Proof.
  apply grammar_ind.
  - intros d s s1 r E1 E2 [|f] Hf; [lia|]. by rewrite (parseValue_brace f d s s1 E1), E2.
  - intros d s s1 kvs r E1 Hm IH [|f] Hf; [lia|].
    pose proof (len_skipWs_cons _ _ _ E1). rewrite (parseValue_brace f d s s1 E1).
    assert (∃ t, skipWs s1 = String dquote t) as [t E2] by (destruct Hm; eauto).
    rewrite E2, bool_decide_eq_false_2 by done.
    by rewrite <-E2, parseMembers_ws, IH by lia.
  - intros d s s1 r E1 E2 [|f] Hf; [lia|]. by rewrite (parseValue_bracket f d s s1 E1), E2.
  - intros d s s1 vs r E1 He IH [|f] Hf; [lia|].
    pose proof (len_skipWs_cons _ _ _ E1). rewrite (parseValue_bracket f d s s1 E1).
    assert (∃ c t, skipWs s1 = String c t ∧ c ≠ "]"%char) as (c & t & E2 & Hc)
      by (destruct He; by eapply ValueAt_head).
    rewrite E2, bool_decide_eq_false_2 by done.
    by rewrite <-E2, parseElements_ws, IH by lia.
  - intros d s s1 t r E1 E2 [|f] Hf; [lia|]. cbn [parseValue]. rewrite E1. cbn. by rewrite E2.
  - intros d s r E1 [|f] Hf; [lia|]. cbn [parseValue]. rewrite E1. by destruct r.
  - intros d s r E1 [|f] Hf; [lia|]. cbn [parseValue]. rewrite E1. by destruct r.
  - intros d s r E1 [|f] Hf; [lia|]. cbn [parseValue]. rewrite E1. by destruct r.
  - intros d s lit r E1 [|f] Hf; [lia|]. cbn [parseValue].
    pose proof (len_number _ _ _ E1). destruct (skipWs s) as [|c s1]; [cbn in *; lia|].
    destruct (number_head _ _ _ _ E1) as (? & ? & ? & ? & ? & ? & _).
    rewrite !bool_decide_eq_false_2 by done. by rewrite E1.
  - intros d s s1 k s2 s3 v s4 r E1 E2 E3 Hv IH E4 [|f] Hf; [lia|].
    pose proof (len_skipWs_cons _ _ _ E1). pose proof (len_unquote _ _ _ _ E2).
    pose proof (len_skipWs_cons _ _ _ E3).
    cbn [parseMembers]. rewrite E1. cbn. rewrite E2. cbn. rewrite E3, IH by lia. cbn. by rewrite E4.
  - intros d s s1 k s2 s3 v s4 s5 kvs r E1 E2 E3 Hv IH E4 Hm IHm [|f] Hf; [lia|].
    pose proof (len_skipWs_cons _ _ _ E1). pose proof (len_unquote _ _ _ _ E2).
    pose proof (len_skipWs_cons _ _ _ E3). pose proof (proj1 grammar_consumes _ _ _ _ Hv).
    pose proof (len_skipWs_cons _ _ _ E4).
    cbn [parseMembers]. rewrite E1. cbn. rewrite E2. cbn. rewrite E3, IH by lia. cbn.
    by rewrite E4, IHm by lia.
  - intros d s v s1 r Hv IH E1 [|f] Hf; [lia|]. cbn [parseElements]. rewrite IH by lia. cbn.
    by rewrite E1.
  - intros d s v s1 s2 vs r Hv IH E1 He IHe [|f] Hf; [lia|].
    pose proof (proj1 grammar_consumes _ _ _ _ Hv). pose proof (len_skipWs_cons _ _ _ E1).
    cbn [parseElements]. rewrite IH by lia. cbn. by rewrite E1, IHe by lia.
Qed.

(** The parser decides the grammar. *)
Lemma parse_is_document s v : parse s = Some v ↔ document s v.
Proof.
  unfold parse, document. split.
  - destruct (parseValue _ _ s) as [[v' r]|] eqn:Hp; [|done].
    apply (proj1 (parser_sound _)) in Hp. case_bool_decide; [|done]. intros [= ->]. by exists r.
  - intros (r & Hv & Hr). rewrite (proj1 parser_complete _ _ _ _ Hv) by lia.
    by rewrite bool_decide_eq_true_2.
Qed.

(** A text stands for one document at most. *)
Lemma document_unique s v v' : document s v → document s v' → v = v'.
Proof. rewrite <-!parse_is_document. congruence. Qed.

(** ** What a tool makes of its input *)

Lemma decodeMembers_err {T} (fs : list (field T)) kvs x e :
  ∃ x', decodeMembers fs kvs x (Some e) = (x', Some e).
Proof.
  revert x. induction kvs as [|[k v] kvs IH]; intros x; cbn; [eauto|].
  destruct (findField fs k) as [[name set]|]; [destruct (set v x)|]; eauto.
Qed.

(** The first member that does not fit its field is the one reported. *)
Lemma decodeMembers_first {T} (fs : list (field T)) kvs x :
  match snd (decodeMembers fs kvs x None) with
  | None => True
  | Some e => ∃ pre k v post name set got x',
      kvs = pre ++ (k, v) :: post ∧ decodeMembers fs pre x None = (x', None)
      ∧ findField fs k = Some (name, set) ∧ set v x' = inr got ∧ e = UnmarshalTypeError name got
  end.
Proof.
  revert x. induction kvs as [|[k v] kvs IH]; intros x; cbn; [done|].
  assert (∀ y, (∀ l, decodeMembers fs ((k, v) :: l) x None = decodeMembers fs l y None) →
    match snd (decodeMembers fs kvs y None) with
    | None => True
    | Some e => ∃ pre k0 v0 post name set got x',
        (k, v) :: kvs = pre ++ (k0, v0) :: post ∧ decodeMembers fs pre x None = (x', None)
        ∧ findField fs k0 = Some (name, set) ∧ set v0 x' = inr got ∧ e = UnmarshalTypeError name got
    end) as Hstep.
  { intros y Hy. specialize (IH y). destruct (snd (decodeMembers fs kvs y None)); [|done].
    destruct IH as (pre & k0 & v0 & post & name & set & got & x' & -> & Hp & Hrest).
    exists ((k, v) :: pre), k0, v0, post, name, set, got, x'. by rewrite Hy. }
  destruct (findField fs k) as [[name set]|] eqn:Hf.
  - destruct (set v x) as [y|got] eqn:Hs.
    + apply Hstep. intros l. cbn. by rewrite Hf, Hs.
    + destruct (decodeMembers_err fs kvs x (UnmarshalTypeError name got)) as [x' ->]. cbn.
      by exists [], k, v, kvs, name, set, got, x.
  - apply Hstep. intros l. cbn. by rewrite Hf.
Qed.

Section decode.
Context `{UnicodeTables}.

(** C21. Every tool input is answered for what it is. An input that is no JSON document,
    by a grammar that knows no fuel or buffer, is called invalid JSON, and no other is; a
    document that is neither an object nor null is told that an object is wanted; an object
    with a member that does not fit its field is told the first such field and what it got
    instead; and every other input is decoded, null to the zero value and an object by its
    members in order. *)
Theorem decodeInput_decides {T} (tool input : string) (fs : list (field T)) (dst : T)
  (Hfs : Forall (λ f, fst f ≠ "") fs) :
  match decodeInput tool input fs dst with
  | inl x =>
      (document input JNull ∧ x = dst)
      ∨ ∃ kvs, document input (JObj kvs) ∧ decodeMembers fs kvs dst None = (x, None)
  | inr text =>
      ((¬ ∃ v, document input v) ∧ text = tool +:+ ": input is not valid JSON")
      ∨ (∃ v, document input v ∧ v ≠ JNull ∧ (∀ kvs, v ≠ JObj kvs)
              ∧ text = tool +:+ ": input must be a JSON object")
      ∨ ∃ pre k v post name set got x,
          document input (JObj (pre ++ (k, v) :: post)) ∧ decodeMembers fs pre dst None = (x, None)
          ∧ findField fs k = Some (name, set) ∧ set v x = inr got
          ∧ text = tool +:+ ": " +:+ Quote name +:+ " has the wrong type (got " +:+ got +:+ ")"
  end.
Proof.
  unfold decodeInput, Unmarshal. destruct (parse input) as [v|] eqn:Hp; cycle 1.
  { left. split; [|done]. intros [v Hv%parse_is_document]. congruence. }
  apply parse_is_document in Hp.
  assert (∀ k name set, findField fs k = Some (name, set) → name ≠ "") as Hname.
  { intros k name set Hk. unfold findField in Hk. rewrite Forall_forall in Hfs.
    destruct (list_find _ fs) as [[i f]|] eqn:E1.
    - injection Hk as ->. apply list_find_Some in E1 as (Hi & _). by eapply (Hfs (name, set)), list_elem_of_lookup_2.
    - apply fmap_Some in Hk as ([i f] & E2 & Hk). cbn in Hk. subst f.
      apply list_find_Some in E2 as (Hi & _). by eapply (Hfs (name, set)), list_elem_of_lookup_2. }
  destruct v as [|b|lit|s|vs|kvs]; try (right; left; by eexists).
  { by left. }
  pose proof (decodeMembers_first fs kvs dst) as Hd.
  destruct (decodeMembers fs kvs dst None) as [x [e|]] eqn:E; cbn in Hd.
  - destruct Hd as (pre & k & v & post & name & set & got & x' & -> & Hpre & Hk & Hset & ->).
    rewrite bool_decide_eq_false_2 by (by eapply Hname). cbn [negb]. right; right.
    by exists pre, k, v, post, name, set, got, x'.
  - right. by exists kvs.
Qed.

End decode.

(** A search whose limit is a string: the field is named. *)
Definition misfit_input : string :=
  "{" +:+ quoteString "query" +:+ ":" +:+ quoteString "deploy notes" +:+ ","
  +:+ quoteString "LIMIT" +:+ ":" +:+ quoteString "ten" +:+ "}".

Example misfit_named :
  @decodeInput sample_tables _ ToolSearch misfit_input searchFields (mkSearchInput "" 0)
  = inr ("search_memory: " +:+ @Quote sample_tables "limit" +:+ " has the wrong type (got string)").
Proof. vm_compute. reflexivity. Qed.

Lemma decodeInput_decides_witness :
  Forall (λ f, fst f ≠ "") searchFields
  ∧ match @decodeInput sample_tables _ ToolSearch misfit_input searchFields (mkSearchInput "" 0) with
    | inl x =>
        (document misfit_input JNull ∧ x = mkSearchInput "" 0)
        ∨ ∃ kvs, document misfit_input (JObj kvs)
            ∧ decodeMembers searchFields kvs (mkSearchInput "" 0) None = (x, None)
    | inr text =>
        ((¬ ∃ v, document misfit_input v) ∧ text = ToolSearch +:+ ": input is not valid JSON")
        ∨ (∃ v, document misfit_input v ∧ v ≠ JNull ∧ (∀ kvs, v ≠ JObj kvs)
                ∧ text = ToolSearch +:+ ": input must be a JSON object")
        ∨ ∃ pre k v post name set got x,
            document misfit_input (JObj (pre ++ (k, v) :: post))
            ∧ decodeMembers searchFields pre (mkSearchInput "" 0) None = (x, None)
            ∧ findField searchFields k = Some (name, set) ∧ set v x = inr got
            ∧ text = ToolSearch +:+ ": " +:+ @Quote sample_tables name
                     +:+ " has the wrong type (got " +:+ got +:+ ")"
    end.
Proof.
  assert (Forall (λ f : field searchInput, fst f ≠ "") searchFields) as Hfs by (by repeat constructor).
  split; [exact Hfs|].
  exact (@decodeInput_decides sample_tables _ ToolSearch misfit_input searchFields (mkSearchInput "" 0) Hfs).
Defined.
