(* ===== verification/Billet.v ===== *)
(** * The Billet client ([src/internal/memory/memory.go])

    What the client adds to the service it calls: the address and transport it is built
    with, the deadline of each call, and the conversion of requests and answers.  The
    service itself is the parameter [MemoryService]; [Prog]'s [ESearch] and [ESave] are
    calls of this client. *)

From stdpp Require Import base list strings.
From S2P Require Import Prelude Fmt Job Prog Memory.

(** ** Building it *)

(** The fields of the transport the code sets, durations in nanoseconds. *)
Record transport := mkTransport {
  tr_UnencryptedHTTP2 : bool;
  tr_IdleConnTimeout : Duration;
  tr_PingTimeout : Duration;
  tr_SendPingTimeout : Duration;
  tr_WriteByteTimeout : Duration;
}.

Definition keepaliveTimeout : Duration := 15 * Second.

Definition unencryptedHTTP2Transport : transport :=
  mkTransport true (90 * Second) keepaliveTimeout keepaliveTimeout keepaliveTimeout.

Record billetClient := mkBilletClient {
  bc_timeout : Duration;
  bc_url : string;
  bc_transport : transport;
  bc_grpc : bool;
}.

Inductive ClientOption := WithCallTimeout (d : Duration).

Definition applyClientOption (o : ClientOption) (timeout : Duration) : Duration :=
  match o with WithCallTimeout d => if (0 <? d)%Z then d else timeout end.

Definition NewBilletClient (addr : string) (opts : list ClientOption) : billetClient :=
  mkBilletClient (foldl (λ t o, applyClientOption o t) CallTimeout opts)
    ("http://" +:+ addr) unencryptedHTTP2Transport true.

(** ** Calling it *)

(** [context.WithTimeout]: the deadline of the new context, the parent's if it is
    earlier. *)
Definition WithTimeout (parent : option Time) (now : Time) (d : Duration) : Time :=
  match parent with
  | Some p => (p `min` (now + d))%Z
  | None => (now + d)%Z
  end.

Record SearchMemoryRequest := mkSearchMemoryRequest { sm_Query : string; sm_Limit : Z }.
Record SaveMemoryRequest := mkSaveMemoryRequest { sm_Content : string; sm_Kind : ProtoKind }.

Record ProtoRecord := mkProtoRecord {
  pm_MemoryId : string;
  pm_Content : string;
  pm_Score : option string;
  pm_CreatedAt : string;
}.

Record SaveMemoryResponse := mkSaveMemoryResponse { rs_MemoryId : string; rs_Accepted : bool }.

(** The generated client: the deadline of the context, the request. *)
Record MemoryService := mkMemoryService {
  ms_SearchMemory : Time → SearchMemoryRequest → res (list ProtoRecord);
  ms_SaveMemory : Time → SaveMemoryRequest → res SaveMemoryResponse;
}.

Definition toRecord (r : ProtoRecord) : MemRecord :=
  mkMemRecord (pm_MemoryId r) (pm_Content r) (pm_Score r) (pm_CreatedAt r).

Section client.
Context `{UnicodeTables}.
Variables (c : billetClient) (svc : MemoryService).

Definition Search (ctx : option Time) (now : Time) (query : string) (limit : Z) : res (list MemRecord) :=
  match ms_SearchMemory svc (WithTimeout ctx now (bc_timeout c)) (mkSearchMemoryRequest query limit) with
  | Err e => Err e
  | Ok msg => Ok (toRecord <$> msg)
  end.

Definition Save (ctx : option Time) (now : Time) (content kind : string) : res SaveResult :=
  match protoKind kind with
  | (_, Some e) => Err e
  | (k, None) =>
      match ms_SaveMemory svc (WithTimeout ctx now (bc_timeout c)) (mkSaveMemoryRequest content k) with
      | Err e => Err e
      | Ok r => Ok (mkSaveResult (rs_MemoryId r) (rs_Accepted r))
      end
  end.

End client.

(** ** Properties *)

(** The timeout of a client is positive: the last positive one it was given, else
    [CallTimeout]. *)
Lemma timeout_of_options addr opts :
  let given := filter (λ d, (0 < d)%Z) ((λ '(WithCallTimeout d), d) <$> opts) in
  bc_timeout (NewBilletClient addr opts) = default CallTimeout (last given)
  ∧ (0 < bc_timeout (NewBilletClient addr opts))%Z.
Proof.
  cbn [NewBilletClient bc_timeout].
  assert (∀ t, (0 < t)%Z →
    let given := filter (λ d, (0 < d)%Z) ((λ '(WithCallTimeout d), d) <$> opts) in
    foldl (λ t o, applyClientOption o t) t opts = default t (last given)
    ∧ (0 < foldl (λ t o, applyClientOption o t) t opts)%Z) as Hg; [|by apply Hg].
  induction opts as [|[d] opts IH]; intros t Ht; [done|]. cbn zeta in *.
  rewrite fmap_cons, filter_cons. cbn [foldl applyClientOption]. case_decide as Hd.
  - assert ((0 <? d)%Z = true) as -> by lia. destruct (IH d Hd) as [-> Hpos].
    split; [|done]. rewrite last_cons. by destruct (last _).
  - assert ((0 <? d)%Z = false) as -> by lia. by apply IH.
Qed.

(** Every call ends within the client's timeout and the caller's deadline, whichever is
    earlier; a failure of the service reaches the caller as it is, so its code is still
    there to be read; the records come back in the order and with the fields the service
    gave; and a save of an unknown kind is refused as the caller's mistake without a
    call. *)
Theorem billet_client_faithful `{UnicodeTables} (c : billetClient) (svc : MemoryService)
  (ctx : option Time) (now : Time) (query content kind : string) (limit : Z) :
  let deadline := WithTimeout ctx now (bc_timeout c) in
  (deadline ≤ now + bc_timeout c)%Z ∧ (∀ p, ctx = Some p → (deadline ≤ p)%Z)
  ∧ match ms_SearchMemory svc deadline (mkSearchMemoryRequest query limit) with
    | Err e => Search c svc ctx now query limit = Err e
    | Ok msg => ∃ rs, Search c svc ctx now query limit = Ok rs ∧ mr_MemoryID <$> rs = pm_MemoryId <$> msg
        ∧ mr_Content <$> rs = pm_Content <$> msg ∧ mr_Score <$> rs = pm_Score <$> msg
        ∧ mr_CreatedAt <$> rs = pm_CreatedAt <$> msg
    end
  ∧ (kind ∉ [KindUnspecified; KindEvent; KindFact] →
     ∃ e, (∀ svc', Save c svc' ctx now content kind = Err e) ∧ CodeOf e = CodeInvalidArgument)
  ∧ (∀ k e, protoKind kind = (k, None) → ms_SaveMemory svc deadline (mkSaveMemoryRequest content k) = Err e →
     Save c svc ctx now content kind = Err e).
Proof.
  cbn zeta. split_and!.
  - unfold WithTimeout. destruct ctx; lia.
  - intros p ->. cbn. lia.
  - unfold Search. destruct (ms_SearchMemory _ _ _) as [msg|e]; [|done].
    exists (toRecord <$> msg). rewrite <-!list_fmap_compose. done.
  - intros Hk. unfold Save, protoKind. rewrite !not_elem_of_cons in Hk.
    destruct Hk as (? & ? & ? & _). rewrite !bool_decide_eq_false_2 by done. eauto.
  - intros k e Hk He. unfold Save. by rewrite Hk, He.
Qed.
