(* ===== verification/Handler.v ===== *)
(** * The control-plane handler ([src/internal/controlplane/controlplane.go])

    Constants, the [Handler] with its options, and the helpers shared by the
    stream handler ([ControlPlane.v]) and the event pump ([Pump.v]).  The handler's
    collaborators are reached through actions, so the record keeps the tuning
    fields, whether a memory client is set, and the audience of the issuer. *)

From stdpp Require Import base gmap list strings.
From S2P Require Import Prelude Fmt Job Proto Store Timeline Telemetry Prog.

(** ** Constants *)

Definition evReady := "ready".
Definition evTextDelta := "text_delta".
Definition evToolCall := "tool_call".
Definition evToolResult := "tool_result".
Definition evHeartbeat := "heartbeat".
Definition evPermissionRequest := "permission_request".
Definition evError := "error".
Definition evWarning := "warning".
Definition evDone := "done".
Definition evSandboxTokenRequest := "sandbox_token_request".
Definition evBatchSubmission := "batch_submission".
Definition evToolResultRequest := "tool_result_request".

Definition ctlTaskAssignment := "task_assignment".
Definition ctlCancel := "cancel".
Definition ctlSandboxTokenResponse := "sandbox_token_response".
Definition ctlToolResultResponse := "tool_result_response".

Definition msgStreamClosed := "harness stream closed without done".

Definition sandboxTokenRefusal := "hairpin does not issue sandbox identity tokens".
Definition sandboxTokenUndeclaredRefusal := "this run's config does not declare a sandbox identity".
Definition sandboxTokenLimitRefusal :=
  "this run has exceeded hairpin's sandbox token request limit".
Definition sandboxTokenIssuanceFailure := "hairpin failed to issue a sandbox identity token".

Definition maxSandboxTokenRequests : nat := 8.

Definition memoryDisabledRefusal := "hairpin has no memory backend configured".
Definition memoryBusyRefusal :=
  "hairpin is already running the maximum number of concurrent memory calls for this job".
Definition memoryCallLimitRefusal := "this job has exceeded hairpin's memory-call limit".
Definition duplicateRequestRefusal :=
  "hairpin has already accepted a memory call with this request id".

Definition defaultMaxInFlightMemory : nat := 4.
Definition defaultMaxMemoryCalls : nat := N.to_nat 1000.
Definition maxRequestIDBytes : nat := 128.

Definition defaultLastEventFlush : Duration := 10 * Second.
Definition defaultDeltaFlushEvery : Duration := 500 * Millisecond.
Definition defaultDeltaFlushBytes : nat := N.to_nat (N.shiftl 4 10).

(** A control event with only its type set. *)
Definition control_of_type (t : string) : ControlEvent :=
  mkControlEvent t None "" "" None "" "" None "" None.

(** ** The handler *)

Record Handler := mkHandler {
  h_memory : bool;                   (** [h.memory != nil] *)
  h_lastEventFlush : Duration;
  h_deltaFlushEvery : Duration;
  h_deltaFlushBytes : nat;
  h_maxFinalTextByte : nat;
  h_maxInFlightMemory : nat;
  h_maxMemoryCalls : nat;
  h_issuer : option string;          (** the audience of the issuer, if one is set *)
}.

(** The options that change the model; [WithLogger] and [WithTelemetry] do not. *)
Inductive HandlerOption :=
  | WithMemory
  | WithSandboxTokenIssuer (audience : option string).

Definition applyOption (o : HandlerOption) (h : Handler) : Handler :=
  let 'mkHandler m a b c d e f i := h in
  match o with
  | WithMemory => mkHandler true a b c d e f i
  | WithSandboxTokenIssuer None => h
  | WithSandboxTokenIssuer (Some aud) => mkHandler m a b c d e f (Some aud)
  end.

Definition NewHandler (opts : list HandlerOption) : Handler :=
  foldl (λ h o, applyOption o h)
    (mkHandler false defaultLastEventFlush defaultDeltaFlushEvery defaultDeltaFlushBytes
      MaxFinalTextBytes defaultMaxInFlightMemory defaultMaxMemoryCalls None) opts.

(** ** Helpers *)

Section handler.
Context `{UnicodeTables} `{ProtoJSON}.

Definition appendStatus (jobID : string) (status : Status) (at_ : Time) : prog unit :=
  _ ← perform (EAppendEvent jobID (mkEvent "" EventStatusChange (formatStatus status) at_));
  mret tt.

(** [h.sendCancel(s, jobID)]: straight on the stream; a failure is only logged. *)
Definition sendCancel (s : nat) : prog unit :=
  _ ← perform (EStreamSend s (control_of_type ctlCancel)); mret tt.

(** The closure of [finaliseCancelled]. *)
Definition cancelledUpdate (at_ : Time) (j : Job) : res Job :=
  if Terminal (j_Status j) then Err errNoUpdate
  else
    let j := set_Status StatusCancelled j in
    let j := if j_StopReason j ==? "" then set_StopReason "cancelled" j else j in
    Ok (set_FinishedAt at_ j).

Definition finaliseCancelled (jobID : string) : prog unit :=
  at_ ← perform ENow;
  '(_, r) ← perform (EUpdateJob jobID (pureUpdater (cancelledUpdate at_)) tt);
  match r with
  | Err _ => mret tt
  | Ok _ =>
      appendStatus jobID StatusCancelled at_;;
      perform (ETel (JobCompleted StatusCancelled "cancelled" 0))
  end.

(** The closure of [failJob]. *)
Definition failedUpdate (reason : string) (at_ : Time) (j : Job) : res Job :=
  if Terminal (j_Status j) then Err errNoUpdate
  else Ok (set_FinishedAt at_ (set_Error reason (set_Status StatusFailed j))).

Definition failJob (jobID reason : string) : prog unit :=
  at_ ← perform ENow;
  '(_, r) ← perform (EUpdateJob jobID (pureUpdater (failedUpdate reason at_)) tt);
  match r with
  | Err _ => mret tt
  | Ok _ =>
      appendStatus jobID StatusFailed at_;;
      perform (ETel (JobCompleted StatusFailed "" 0))
  end.

Definition parseRunConfig (runConfigJSON : string) : res RunConfig :=
  if runConfigJSON ==? "" then Err (ErrNew "run config is empty")
  else UnmarshalRunConfig true runConfigJSON.

(** The map used as a set of tool names. *)
Definition declaredControlPlaneTools (cfg : RunConfig) : gset string :=
  list_to_set (ct_Name <$> GetControlPlane cfg).

End handler.
