(* ===== verification/Pump.v ===== *)
(** * The event pump ([src/internal/controlplane/pump.go])

    One assigned harness stream drained into the store.  The pump's state is owned
    by its goroutine and is passed explicitly; the memory calls it admits run in
    goroutines of their own that share with it only the session and the channel
    used as a semaphore. *)

From stdpp Require Import base gmap list strings.
From S2P Require Import Prelude Fmt Job Proto Store Timeline Telemetry Prog Memory Handler.

(** ** State *)

Record eventPump := mkPump {
  p_jobID : string;
  p_sess : nat;
  p_stream : nat;                     (** [p.sess.s] *)
  p_startedAt : Time;
  p_finalText : string;
  p_errMessage : string;
  p_deltas : string;
  p_deltasFrom : Time;
  p_lastEventAt : Time;
  p_lastEventFlush : Time;
  p_permissionsSeen : nat;
  p_repoScope : list string;
  p_sandboxIdentityDeclared : bool;
  p_sandboxTokens : nat;
  p_declaredTools : gset string;
  p_memoryInFlight : nat;             (** the channel *)
  p_memoryRequests : gset string;
  p_memoryCalls : nat;
}.

(** Assignments to one field. *)
Definition set_finalText v p := let 'mkPump a b c d _ f g h i j k l m n o q r s := p in mkPump a b c d v f g h i j k l m n o q r s.
Definition set_errMessage v p := let 'mkPump a b c d e _ g h i j k l m n o q r s := p in mkPump a b c d e v g h i j k l m n o q r s.
Definition set_deltas v p := let 'mkPump a b c d e f _ h i j k l m n o q r s := p in mkPump a b c d e f v h i j k l m n o q r s.
Definition set_deltasFrom v p := let 'mkPump a b c d e f g _ i j k l m n o q r s := p in mkPump a b c d e f g v i j k l m n o q r s.
Definition set_lastEventAt v p := let 'mkPump a b c d e f g h _ j k l m n o q r s := p in mkPump a b c d e f g h v j k l m n o q r s.
Definition set_lastEventFlush v p := let 'mkPump a b c d e f g h i _ k l m n o q r s := p in mkPump a b c d e f g h i v k l m n o q r s.
Definition set_permissionsSeen v p := let 'mkPump a b c d e f g h i j _ l m n o q r s := p in mkPump a b c d e f g h i j v l m n o q r s.
Definition set_repoScope v p := let 'mkPump a b c d e f g h i j k _ m n o q r s := p in mkPump a b c d e f g h i j k v m n o q r s.
Definition set_sandboxIdentityDeclared v p := let 'mkPump a b c d e f g h i j k l _ n o q r s := p in mkPump a b c d e f g h i j k l v n o q r s.
Definition set_sandboxTokens v p := let 'mkPump a b c d e f g h i j k l m _ o q r s := p in mkPump a b c d e f g h i j k l m v o q r s.
Definition set_memoryRequests v p := let 'mkPump a b c d e f g h i j k l m n o q _ s := p in mkPump a b c d e f g h i j k l m n o q v s.
Definition set_memoryCalls v p := let 'mkPump a b c d e f g h i j k l m n o q r _ := p in mkPump a b c d e f g h i j k l m n o q r v.

Definition maxPermissionRequests : nat := N.to_nat 1000.

Section pump.
Context `{UnicodeTables} `{ProtoJSON}.
Variable h : Handler.

(** [h.pump]: the state of a new pump. *)
Definition newPump (jobID : string) (sess strm : nat) (declaredTools : gset string)
  : prog eventPump :=
  now ← perform ENow;
  ch ← perform (ENewChan (h_maxInFlightMemory h));
  mret (mkPump jobID sess strm now "" "" "" 0 now now 0 [] false 0 declaredTools ch ∅ 0).

(** ** Recording *)

Definition append (p : eventPump) (ev : Event) : prog unit :=
  _ ← perform (EAppendEvent (p_jobID p) ev); mret tt.

Definition appendProto (p : eventPump) (ev : HarnessEvent) (at_ : Time) : prog unit :=
  match MarshalHarnessEvent ev with
  | Err _ => mret tt
  | Ok payload => append p (mkEvent "" (he_Type ev) payload at_)
  end.

Definition appendControl (p : eventPump) (ev : ControlEvent) (at_ : Time) : prog unit :=
  match MarshalControlEvent ev with
  | Err _ => mret tt
  | Ok payload => append p (mkEvent "" (ce_Type ev) payload at_)
  end.

(** The pure part of the state change: the text kept, cut at the cap. *)
Definition appendFinalText (p : eventPump) (text : string) : eventPump :=
  let room := (Z.of_nat (h_maxFinalTextByte h) - Z.of_nat (len (p_finalText p)))%Z in
  if (room <=? 0)%Z then p
  else
    let text := if (room <? Z.of_nat (len text))%Z then stake (Z.to_nat room) text else text in
    set_finalText (p_finalText p +:+ text) p.

(** A [text_delta] event carrying the merged text. *)
Definition textDelta (text : string) : HarnessEvent :=
  mkHarnessEvent evTextDelta text "" "" "" "" "" "" "" None "" "" "" "".

Definition flushDeltas (p : eventPump) : prog eventPump :=
  if p_deltas p ==? "" then mret p
  else
    let merged := textDelta (p_deltas p) in
    let p := set_deltas "" p in
    now ← perform ENow;
    appendProto p merged now;;
    mret p.

Definition putPermission (p : eventPump) (ev : HarnessEvent) (at_ : Time) : prog eventPump :=
  if maxPermissionRequests <=? p_permissionsSeen p then mret p
  else
    let p := set_permissionsSeen (S (p_permissionsSeen p)) p in
    perform (ETel PermissionRequested);;
    _ ← perform (EPutPermission (p_jobID p)
          (mkPermissionRequest (he_RequestId ev) (he_ToolName ev) (he_Input ev)
             PermissionPending "" at_ 0));
    mret p.

(** ** Sandbox identity tokens *)

Definition sendSandboxTokenResponse (p : eventPump) (ev : HarnessEvent) (token : string)
  (expiresAt : Time) (isError : bool) (reason : string) : prog unit :=
  let resp := mkControlEvent ctlSandboxTokenResponse None "" (he_RequestId ev) None reason ""
    (Some isError) token
    (if negb isError && negb (IsZero expiresAt) then Some (Unix expiresAt) else None) in
  _ ← perform (ESessionSend (p_sess p) resp); mret tt.

Definition handleSandboxTokenRequest (p : eventPump) (ev : HarnessEvent) : prog eventPump :=
  if maxRequestIDBytes <? len (he_RequestId ev) then mret p
  else if h_issuer h ==? None then
    sendSandboxTokenResponse p ev "" 0 true sandboxTokenRefusal;; mret p
  else if negb (p_sandboxIdentityDeclared p) then
    sendSandboxTokenResponse p ev "" 0 true sandboxTokenUndeclaredRefusal;; mret p
  else if maxSandboxTokenRequests <=? p_sandboxTokens p then
    sendSandboxTokenResponse p ev "" 0 true sandboxTokenLimitRefusal;; mret p
  else
    let p := set_sandboxTokens (S (p_sandboxTokens p)) p in
    r ← perform (EMint (p_jobID p) (p_repoScope p));
    match r with
    | Err _ => sendSandboxTokenResponse p ev "" 0 true sandboxTokenIssuanceFailure;; mret p
    | Ok (token, expiresAt) => sendSandboxTokenResponse p ev token expiresAt false "";; mret p
    end.

(** ** Memory tools *)

Definition sendToolResult (p : eventPump) (requestID content : string) (isError : bool)
  : prog unit :=
  let resp := mkControlEvent ctlToolResultResponse None "" requestID None "" content
    (Some isError) "" None in
  _ ← perform (ESessionSend (p_sess p) resp);
  now ← perform ENow;
  appendControl p resp now.

(** [admitMemoryCall]: the refusal, or the state with the call accounted for and
    a slot of the semaphore taken. *)
Definition admitMemoryCall (p : eventPump) (tool requestID : string)
  : prog (eventPump * option string) :=
  if negb (bool_decide (tool ∈ p_declaredTools p)) || negb (IsMemoryTool tool) then
    mret (p, Some (UnsupportedToolMessage tool))
  else if negb (h_memory h) then mret (p, Some memoryDisabledRefusal)
  else if bool_decide (requestID ∈ p_memoryRequests p) then
    mret (p, Some duplicateRequestRefusal)
  else if h_maxMemoryCalls h <=? p_memoryCalls p then mret (p, Some memoryCallLimitRefusal)
  else
    ok ← perform (ETrySend (p_memoryInFlight p));
    if ok : bool then
      let p := set_memoryCalls (S (p_memoryCalls p)) p in
      let p := set_memoryRequests ({[requestID]} ∪ p_memoryRequests p) p in
      mret (p, None)
    else mret (p, Some memoryBusyRefusal).

(** The goroutine of an admitted call, with its deferred functions: a panic of the
    memory client is recovered into the generic failure, then the slot is
    released and the wait group told. *)
Definition memoryCall (p : eventPump) (tool requestID input : string) : prog unit :=
  started ← perform ENow;
  o ← Fulfil tool input;
  match o with
  | Panicked => sendToolResult p requestID GenericFailureMessage true
  | Returned (content, isError, _) =>
      let outcome := if isError : bool then MemoryError else MemoryOK in
      now ← perform ENow;
      perform (ETel (MemoryCall tool outcome (Sub now started)));;
      sendToolResult p requestID content isError
  end;;
  perform (ERecvSlot (p_memoryInFlight p));;
  perform (EWgDone memoryWait).

Definition fulfilToolResult (p : eventPump) (ev : HarnessEvent) : prog eventPump :=
  let tool := he_ToolName ev in
  let requestID := he_RequestId ev in
  if maxRequestIDBytes <? len requestID then mret p
  else
    '(p, refusal) ← admitMemoryCall p tool requestID;
    match refusal with
    | Some refusal =>
        perform (ETel (MemoryCall tool MemoryRefused 0));;
        sendToolResult p requestID refusal true;;
        mret p
    | None =>
        let input := he_Input ev in
        perform (EWgAdd memoryWait);;
        go (MemoryCallOf (p_jobID p) tool requestID) (memoryCall p tool requestID input);;
        mret p
    end.

(** ** Liveness and settlement *)

Definition maybeFlushLastEventAt (p : eventPump) (now : Time) : prog eventPump :=
  if (Sub now (p_lastEventFlush p) <? h_lastEventFlush h)%Z then mret p
  else
    let p := set_lastEventFlush now p in
    let seen := p_lastEventAt p in
    _ ← perform (EUpdateJob (p_jobID p) (pureUpdater (λ j, Ok (set_LastEventAt seen j))) tt);
    mret p.

(** The closure of [finish]. *)
Definition finishUpdate (stopReason status final errMsg : string) (at_ : Time) (j : Job) : res Job :=
  if Terminal (j_Status j) then Err errNoUpdate
  else
    let j := set_Status status j in
    let j := set_StopReason stopReason j in
    let j := if errMsg !=? "" then set_Error errMsg j else j in
    let j := set_FinalText final j in
    let j := set_FinishedAt at_ j in
    Ok (set_LastEventAt at_ j).

Definition finish (p : eventPump) (ev : HarnessEvent) (at_ : Time) : prog unit :=
  let stopReason := he_StopReason ev in
  let status := StatusForStopReason stopReason in
  '(_, r) ← perform (EUpdateJob (p_jobID p)
      (pureUpdater (finishUpdate stopReason status (p_finalText p) (p_errMessage p) at_)) tt);
  let settled :=
    appendProto p ev at_;;
    appendStatus (p_jobID p) status at_;;
    perform (ETel (JobCompleted status stopReason (Sub at_ (p_startedAt p)))) in
  match r with
  | Err e => if errorsIs e errNoUpdate then mret tt else settled
  | Ok _ => settled
  end.

(** The closure of [closeUnfinished]; it writes the captured [status]. *)
Definition closeUpdate (final errMsg : string) (at_ lastEventAt : Time) : updater string :=
  λ status j,
    if Terminal (j_Status j) then (status, Err errNoUpdate)
    else
      let '(status, j) :=
        if j_CancelRequested j then
          (StatusCancelled, if j_StopReason j ==? "" then set_StopReason "cancelled" j else j)
        else
          (StatusFailed,
           let j := set_Error msgStreamClosed j in
           if errMsg !=? "" then set_Error (msgStreamClosed +:+ "; last error: " +:+ errMsg) j
           else j) in
      let j := set_Status status j in
      let j := set_FinalText final j in
      let j := set_FinishedAt at_ j in
      (status, Ok (set_LastEventAt lastEventAt j)).

Definition stopReasonFor (status : Status) : string :=
  if status ==? StatusCancelled then "cancelled" else "".

Definition closeUnfinished (p : eventPump) : prog unit :=
  at_ ← perform ENow;
  '(status, r) ← perform (EUpdateJob (p_jobID p)
      (closeUpdate (p_finalText p) (p_errMessage p) at_ (p_lastEventAt p)) "");
  match r with
  | Err _ => mret tt
  | Ok _ =>
      appendStatus (p_jobID p) status at_;;
      perform (ETel (JobCompleted status (stopReasonFor status) (Sub at_ (p_startedAt p))))
  end.

Definition isStreamEnd (err : error) : bool :=
  errorsIs err EOF || errorsIs err Canceled || errorsIs err DeadlineExceeded
  || (CodeOf err ==? CodeCanceled).

(** ** One event *)

(** The second [switch] of [handle], on every type but [text_delta] and [done]. *)
Definition dispatch (p : eventPump) (ev : HarnessEvent) (now : Time) : prog eventPump :=
  let t := he_Type ev in
  if t ==? evHeartbeat then append p (mkEvent "" evHeartbeat "" now);; mret p
  else if (t ==? evToolCall) || (t ==? evToolResult) then appendProto p ev now;; mret p
  else if t ==? evPermissionRequest then
    p ← putPermission p ev now; appendProto p ev now;; mret p
  else if t ==? evError then
    let p := set_errMessage (he_Message ev) p in appendProto p ev now;; mret p
  else if t ==? evWarning then appendProto p ev now;; mret p
  else if t ==? evSandboxTokenRequest then
    appendProto p ev now;; handleSandboxTokenRequest p ev
  else if t ==? evToolResultRequest then appendProto p ev now;; fulfilToolResult p ev
  else if t ==? evBatchSubmission then appendProto p ev now;; mret p
  else if t ==? evReady then mret p
  else appendProto p ev now;; mret p.

(** [handle]: the new state, and whether the run reached its [done] event. *)
Definition handle (p : eventPump) (ev : HarnessEvent) : prog (eventPump * bool) :=
  now ← perform ENow;
  let p := set_lastEventAt now p in
  perform (ETel (HarnessEventSeen (he_Type ev)));;
  if he_Type ev ==? evTextDelta then
    let p := appendFinalText p (he_Text ev) in
    let p := if p_deltas p ==? "" then set_deltasFrom now p else p in
    let p := set_deltas (p_deltas p +:+ he_Text ev) p in
    p ← (if (h_deltaFlushBytes h <=? len (p_deltas p))
            || (h_deltaFlushEvery h <=? Sub now (p_deltasFrom p))%Z
         then flushDeltas p else mret p);
    p ← maybeFlushLastEventAt p now;
    mret (p, false)
  else if he_Type ev ==? evDone then
    p ← flushDeltas p;
    finish p ev now;;
    mret (p, true)
  else
    p ← flushDeltas p;
    p ← dispatch p ev now;
    p ← maybeFlushLastEventAt p now;
    mret (p, false).

(** [run]: each round takes one event off the stream, so any fuel above the number
    of events left is enough. *)
Fixpoint pumpRun (fuel : nat) (p : eventPump) : prog unit :=
  match fuel with
  | 0 => OutOfFuel
  | S f =>
      r ← perform (EReceive (p_stream p));
      match r with
      | Err _ =>
          p ← flushDeltas p;
          closeUnfinished p
      | Ok ev =>
          '(p, done) ← handle p ev;
          if done : bool then mret tt else pumpRun f p
      end
  end.

End pump.
