(* ===== verification/Samples.v ===== *)
(** * A concrete world

    An environment, a stored job and harness streams for concrete evaluations: the
    in-memory store holding one job that awaits its harness, and a harness that
    presents the job's session string. *)

From stdpp Require Import base gmap list strings.
From S2P Require Import Prelude Fmt Job Proto Store.
From S2P Require Import MemStore MemStoreFacts Telemetry Registry Prog.
From S2P Require Import Handler Pump.

(** The clock advances by a second per action; every collaborator succeeds. *)
Definition sample_env : Env :=
  mkEnv (λ n, unixEpoch + 1700000100 * Second + Z.of_nat n * Second)%Z
    (λ _, "01ARZ3NDEKTSV4RRFFQ69G5FAV") (λ _, replicate 16 7%N) (λ _ _, None)
    (λ _ _, Ok tt) (λ _ sub _, Ok ("jwt:" +:+ sub, unixEpoch + 1700000900 * Second)%Z)
    (λ _, "") (λ _ _ _, Returned (Ok [])) (λ _ _ _, Returned (Ok (mkSaveResult "m-1" true))).

Definition sample_ready : HarnessEvent :=
  mkHarnessEvent evReady "" (SessionString sample_job) "" "" "" "" "" "" None "" "" "v1" "".

Definition sample_stored : Job :=
  mkJob sample_id StatusAwaitingHarness "say hello" "default" "{run}" "" "" ""
    (unixEpoch + 1700000000 * Second) 0 0 0 false "" (j_HarnessToken sample_job) ["github.com/a/*"].

Definition sample_mem : memStore := fst (memCreateJob sample_stored (NewMemStore 0)).

(** A stream with the given events, not yet claimed. *)
Definition sample_world (evs : list HarnessEvent) : World memStore :=
  mkWorld sample_mem ∅ {[0 := mkStream evs EOF []]} ∅ ∅ 0 0 [] 0.

(** The same stream once assigned: session 0 is open and registered. *)
Definition sample_assigned (evs : list HarnessEvent) : World memStore :=
  mkWorld sample_mem {[sample_id := 0]} {[0 := mkStream evs EOF []]}
    {[0 := mkSession 0 false]} {[0 := (4, 0)]} 0 0 [] 0.

(** Its pump. *)
Definition sample_pump : eventPump :=
  mkPump sample_id 0 0 7 "" "" "" 0 7 7 0 ["github.com/a/*"] true 0 {["search_memory"]} 0 ∅ 0.

Definition sample_handler : Handler := NewHandler [WithMemory; WithSandboxTokenIssuer (Some "haybale")].

(** Harness events, by the fields the pump reads. *)
Definition text_event (s : string) : HarnessEvent := textDelta s.
Definition done_event (reason : string) : HarnessEvent :=
  mkHarnessEvent evDone "" "" "" "" "" "" reason "" None "" "" "" "".
Definition token_event (r : string) : HarnessEvent :=
  mkHarnessEvent evSandboxTokenRequest "" "" "" "" "" "" "" "" None r "" "" "".
Definition tool_event (r tool input : string) : HarnessEvent :=
  mkHarnessEvent evToolResultRequest "" "" "" input "" "" "" "" None r tool "" "".
Definition permission_event (r tool : string) : HarnessEvent :=
  mkHarnessEvent evPermissionRequest "" "" "" "" "" "" "" "" None r tool "" "".
