(* ===== verification/PumpFacts.v ===== *)
(** * What a harness can make a pump do

    Everything the pump does is in reaction to events the harness chose.  This file
    bounds it: under every answer of the store, the transport, the issuer and the
    memory service, and so under every interleaving, a pump acts on its own job and
    session only, mints at most eight tokens and only for a config that declared a
    sandbox identity, admits each memory request once and at most [maxMemoryCalls]
    of them, and persists at most a thousand permission requests and a bounded
    final text. *)

From stdpp Require Import base gmap list strings.
From S2P Require Import Prelude Fmt Job Proto Store Timeline Telemetry.
From S2P Require Import Prog Memory Handler Pump MemStore MemStoreFacts Samples.

(** ** Counting over a history *)

Definition isMint (o : obs) : bool := match o with Obs (EMint _ _) _ => true | _ => false end.
Definition isPut (o : obs) : bool := match o with Obs (EPutPermission _ _) _ => true | _ => false end.

Definition minted (hist : list obs) : nat := length (List.filter isMint hist).
Definition puts (hist : list obs) : nat := length (List.filter isPut hist).

(** The request IDs of the memory calls started. *)
Fixpoint calls (hist : list obs) : list string :=
  match hist with
  | [] => []
  | Started (MemoryCallOf _ _ r) _ :: hist' => r :: calls hist'
  | _ :: hist' => calls hist'
  end.

Section pump.
Context `{UnicodeTables} `{ProtoJSON}.
Variable h : Handler.

(** The parts of the state that never change. *)
Definition fixed (p : eventPump) :=
  (p_jobID p, p_sess p, p_stream p, p_startedAt p, p_repoScope p, p_sandboxIdentityDeclared p,
   p_declaredTools p, p_memoryInFlight p).

(** ** The policy *)

(** The pump of which [p0] is any state. *)
Variable p0 : eventPump.

Definition boundedText {C} (fn : updater C) : Prop :=
  ∀ c j c' j', fn c j = (c', Ok j') →
    len (j_FinalText j) ≤ h_maxFinalTextByte h → len (j_FinalText j') ≤ h_maxFinalTextByte h.

Definition pumpPolicy : policy := mkPolicy
  (λ hist X e,
    match e with
    | EUpdateJob id fn _ => id = p_jobID p0 ∧ boundedText fn
    | EAppendEvent id _ => id = p_jobID p0
    | EPutPermission id pr =>
        id = p_jobID p0 ∧ pr_State pr = PermissionPending ∧ puts hist < maxPermissionRequests
    | EMint sub scope =>
        sub = p_jobID p0 ∧ scope = p_repoScope p0 ∧ h_issuer h ≠ None
        ∧ p_sandboxIdentityDeclared p0 = true ∧ minted hist < maxSandboxTokenRequests
    | ESessionSend s ev => s = p_sess p0 ∧ ce_Type ev ≠ ctlTaskAssignment
    | EReceive s => s = p_stream p0
    | ETrySend ch => ch = p_memoryInFlight p0
    | ENow | ETel _ | EWgAdd memoryWait => True
    | _ => False
    end)
  (λ hist l q,
    match l with
    | MemoryCallOf id tool r =>
        id = p_jobID p0 ∧ tool ∈ p_declaredTools p0 ∧ IsMemoryTool tool = true
        ∧ h_memory h = true ∧ len r ≤ maxRequestIDBytes ∧ (r ∉ calls hist)
        ∧ length (calls hist) < h_maxMemoryCalls h
        ∧ (∃ hist', hist = Obs (EWgAdd memoryWait) tt
                           :: Obs (ETrySend (p_memoryInFlight p0)) true :: hist')
        ∧ ∃ p input, q = memoryCall p tool r input ∧ p_jobID p = p_jobID p0
            ∧ p_sess p = p_sess p0 ∧ p_memoryInFlight p = p_memoryInFlight p0
    | _ => False
    end).

(** ** The invariant *)

Record inv (p : eventPump) (hist : list obs) : Prop := {
  inv_fixed : fixed p = fixed p0;
  inv_tokens : p_sandboxTokens p = minted hist;
  inv_puts : p_permissionsSeen p = puts hist;
  inv_calls : p_memoryCalls p = length (calls hist);
  inv_requests : ∀ r, r ∈ p_memoryRequests p ↔ r ∈ calls hist;
  inv_text : len (p_finalText p) ≤ h_maxFinalTextByte h;
}.

(** The fields of the fixed part, one by one. *)
Lemma inv_fields p hist : inv p hist →
  p_jobID p = p_jobID p0 ∧ p_sess p = p_sess p0 ∧ p_stream p = p_stream p0
  ∧ p_repoScope p = p_repoScope p0 ∧ p_sandboxIdentityDeclared p = p_sandboxIdentityDeclared p0
  ∧ p_declaredTools p = p_declaredTools p0 ∧ p_memoryInFlight p = p_memoryInFlight p0.
Proof. intros [Hf _ _ _ _ _]. unfold fixed in Hf. naive_solver. Qed.

(** An observation the counters ignore. *)
Lemma inv_cons p hist o :
  isMint o = false → isPut o = false → calls (o :: hist) = calls hist →
  inv p hist → inv p (o :: hist).
Proof.
  intros Hm Hp Hc [? ? ? ? ? ?]. constructor; try done;
    unfold minted, puts in *; cbn [List.filter]; rewrite ?Hm, ?Hp, ?Hc; done.
Qed.

(** A change of the state the invariant ignores. *)
Lemma inv_set p p' hist :
  fixed p' = fixed p → p_sandboxTokens p' = p_sandboxTokens p →
  p_permissionsSeen p' = p_permissionsSeen p → p_memoryCalls p' = p_memoryCalls p →
  p_memoryRequests p' = p_memoryRequests p → p_finalText p' = p_finalText p →
  inv p hist → inv p' hist.
Proof. intros E1 E2 E3 E4 E5 E6 [? ? ? ? ? ?]. constructor; rewrite ?E1, ?E2, ?E3, ?E4, ?E5, ?E6; done. Qed.

Ltac neutral := repeat (apply inv_cons; [reflexivity|reflexivity|reflexivity|]); try done.

(** ** The operations *)

Lemma append_wp p ev hist Q :
  inv p hist → (∀ hist', inv p hist' → Q tt hist') → wp pumpPolicy hist (append p ev) Q.
Proof.
  intros Hi HQ. unfold append. wp_peel.
  - by destruct (inv_fields _ _ Hi).
  - apply HQ. neutral.
Qed.

Lemma appendProto_wp p ev at_ hist Q :
  inv p hist → (∀ hist', inv p hist' → Q tt hist') → wp pumpPolicy hist (appendProto p ev at_) Q.
Proof. intros Hi HQ. unfold appendProto. wp_peel; [by apply append_wp|by apply HQ]. Qed.

Lemma appendControl_wp p ev at_ hist Q :
  inv p hist → (∀ hist', inv p hist' → Q tt hist') → wp pumpPolicy hist (appendControl p ev at_) Q.
Proof. intros Hi HQ. unfold appendControl. wp_peel; [by apply append_wp|by apply HQ]. Qed.

Lemma flushDeltas_wp p hist Q :
  inv p hist → (∀ p' hist', inv p' hist' → p_finalText p' = p_finalText p → Q p' hist') →
  wp pumpPolicy hist (flushDeltas p) Q.
Proof.
  intros Hi HQ. unfold flushDeltas. wp_peel; [by apply HQ|done|].
  apply wp_bind_intro, appendProto_wp.
  - neutral. by apply (inv_set p); try (by destruct p).
  - intros hist' Hi'. apply HQ; [done|by destruct p].
Qed.

Lemma putPermission_wp p ev at_ hist Q :
  inv p hist → (∀ p' hist', inv p' hist' → Q p' hist') →
  wp pumpPolicy hist (putPermission p ev at_) Q.
Proof.
  intros Hi HQ. unfold putPermission. wp_peel; [by apply HQ|done|..].
  - apply Nat.leb_gt in Heqb. destruct (inv_fields _ _ Hi). pose proof (inv_puts _ _ Hi) as Hp.
    destruct p; cbn in *. split_and!; try done. unfold puts in *. cbn. lia.
  - apply HQ. destruct Hi as [? ? Hp ? ? ?]. destruct p; cbn in *. constructor; cbn; try done.
    unfold puts in *. cbn. by rewrite Hp.
Qed.

Lemma sendSandboxTokenResponse_wp p ev token at_ e reason hist Q :
  inv p hist → (∀ hist', inv p hist' → Q tt hist') →
  wp pumpPolicy hist (sendSandboxTokenResponse p ev token at_ e reason) Q.
Proof.
  intros Hi HQ. unfold sendSandboxTokenResponse. wp_peel.
  - split; [|done]. by destruct (inv_fields _ _ Hi) as (? & ? & ? & ? & ? & ? & ?).
  - apply HQ. neutral.
Qed.

Lemma handleSandboxTokenRequest_wp p ev hist Q :
  inv p hist → (∀ p' hist', inv p' hist' → Q p' hist') →
  wp pumpPolicy hist (handleSandboxTokenRequest h p ev) Q.
Proof.
  intros Hi HQ. unfold handleSandboxTokenRequest.
  destruct (_ <? len _); [by apply HQ|].
  case_bool_decide as Hiss; [|destruct (negb _) eqn:Hd; [|destruct (_ <=? _) eqn:Hc]];
    try (apply wp_bind_intro, sendSandboxTokenResponse_wp; [done|]; intros; by apply HQ).
  apply Nat.leb_gt in Hc. apply negb_false_iff in Hd.
  pose proof (inv_fields _ _ Hi) as Hf. pose proof (inv_tokens _ _ Hi) as Ht.
  apply wp_perform_bind; [destruct p; cbn in *; naive_solver lia|].
  assert (∀ x, inv (set_sandboxTokens (S (p_sandboxTokens p)) p)
    (Obs (EMint (p_jobID (set_sandboxTokens (S (p_sandboxTokens p)) p))
            (p_repoScope (set_sandboxTokens (S (p_sandboxTokens p)) p))) x :: hist)) as Hi'.
  { intros x. destruct Hi. destruct p; cbn in *. constructor; cbn; try done.
    unfold minted in *. cbn. by f_equal. }
  intros [[token at_]|e]; apply wp_bind_intro, sendSandboxTokenResponse_wp; try done;
    intros; by apply HQ.
Qed.

Lemma sendToolResult_wp p r content e hist Q :
  inv p hist → (∀ hist', inv p hist' → Q tt hist') →
  wp pumpPolicy hist (sendToolResult p r content e) Q.
Proof.
  intros Hi HQ. unfold sendToolResult. wp_peel.
  - split; [|done]. by destruct (inv_fields _ _ Hi) as (? & ? & ? & ? & ? & ? & ?).
  - done.
  - apply appendControl_wp; [neutral|done].
Qed.

(** A refusal leaves the state alone; an admission takes a slot and accounts for the
    request before the goroutine is started. *)
Lemma fulfilToolResult_wp p ev hist Q :
  inv p hist → (∀ p' hist', inv p' hist' → Q p' hist') →
  wp pumpPolicy hist (fulfilToolResult h p ev) Q.
Proof.
  intros Hi HQ. unfold fulfilToolResult.
  destruct (_ <? len _) eqn:Hlen; [by apply HQ|]. apply Nat.ltb_ge in Hlen.
  assert (∀ refusal hist', inv p hist' →
    wp pumpPolicy hist' (perform (ETel (MemoryCall (he_ToolName ev) MemoryRefused 0));;
      sendToolResult p (he_RequestId ev) refusal true;; mret p) Q) as Hrefuse.
  { intros refusal hist' Hi'. apply wp_perform_bind; [done|]. intros x.
    apply wp_bind_intro, sendToolResult_wp; [neutral|]. intros. by apply HQ. }
  apply wp_bind_intro. unfold admitMemoryCall.
  destruct (negb (bool_decide _) || _) eqn:Hd; [by apply Hrefuse|].
  apply orb_false_iff in Hd as [Hd Ht]. apply negb_false_iff in Hd, Ht.
  apply bool_decide_eq_true in Hd.
  destruct (negb (h_memory h)) eqn:Hm; [by apply Hrefuse|]. apply negb_false_iff in Hm.
  case_bool_decide as Hr; [by apply Hrefuse|].
  destruct (h_maxMemoryCalls h <=? _) eqn:Hmax; [by apply Hrefuse|]. apply Nat.leb_gt in Hmax.
  pose proof (inv_fields _ _ Hi) as (Ej & Es & Est & Er & Ei & Ed & Em).
  apply wp_perform_bind; [done|]. intros [|]; [|by apply Hrefuse; neutral].
  apply wp_perform_bind; [done|]. intros [].
  match goal with |- context [go _ ?body] => set (q := body) end.
  assert (∃ p' input, q = memoryCall p' (he_ToolName ev) (he_RequestId ev) input
    ∧ p_jobID p' = p_jobID p0 ∧ p_sess p' = p_sess p0
    ∧ p_memoryInFlight p' = p_memoryInFlight p0) as Hcall.
  { eexists _, (he_Input ev). split; [reflexivity|]. by destruct p. }
  clearbody q. destruct Hi as [Hf Hk Hp Hn Hq Hx]. destruct p as [a b c d e f g i j k l m n o z u v w]. cbn in *.
  split.
  - subst. split_and!; try done; try (by rewrite <-Hq); by eexists.
  - apply HQ. constructor; cbn; try done; [by f_equal|]. intros r.
    rewrite elem_of_cons, <-Hq. set_solver.
Qed.

Lemma maybeFlushLastEventAt_wp p now hist Q :
  inv p hist → (∀ p' hist', inv p' hist' → Q p' hist') →
  wp pumpPolicy hist (maybeFlushLastEventAt h p now) Q.
Proof.
  intros Hi HQ. unfold maybeFlushLastEventAt. wp_peel; [by apply HQ|..].
  - pose proof (inv_fields _ _ Hi) as (Ej & _). split; [by destruct p|].
    intros ? j ? ? [= <- <-]. by destruct j.
  - apply HQ. neutral. by apply (inv_set p); try (by destruct p).
Qed.

Lemma appendStatus_wp p st at_ hist Q :
  inv p hist → (∀ hist', inv p hist' → Q tt hist') →
  wp pumpPolicy hist (appendStatus (p_jobID p) st at_) Q.
Proof.
  intros Hi HQ. unfold appendStatus. wp_peel; [by destruct (inv_fields _ _ Hi)|].
  apply HQ. neutral.
Qed.

Lemma finish_wp p ev at_ hist Q :
  inv p hist → (∀ hist', inv p hist' → Q tt hist') → wp pumpPolicy hist (finish p ev at_) Q.
Proof.
  intros Hi HQ. unfold finish. apply wp_perform_bind.
  { split; [by destruct (inv_fields _ _ Hi)|]. pose proof (inv_text _ _ Hi) as Ht.
    intros ? j ? j' Hf _. unfold pureUpdater, finishUpdate in Hf. destruct j; cbn in *.
    repeat case_match; simplify_eq/=; done. }
  intros [c r]. assert (∀ hist', inv p hist' → wp pumpPolicy hist'
    (appendProto p ev at_;; appendStatus (p_jobID p) (StatusForStopReason (he_StopReason ev)) at_;;
     perform (ETel (JobCompleted (StatusForStopReason (he_StopReason ev)) (he_StopReason ev)
       (Sub at_ (p_startedAt p))))) Q) as Hs.
  { intros hist' Hi'. apply wp_bind_intro, appendProto_wp; [done|]. intros.
    apply wp_bind_intro, appendStatus_wp; [done|]. intros. split; [done|]. intros []. apply HQ.
    neutral. }
  destruct r as [j|e]; [|destruct (errorsIs e errNoUpdate)]; try (apply Hs; neutral).
  apply HQ. neutral.
Qed.

Lemma closeUnfinished_wp p hist Q :
  inv p hist → (∀ hist', inv p hist' → Q tt hist') → wp pumpPolicy hist (closeUnfinished p) Q.
Proof.
  intros Hi HQ. unfold closeUnfinished. apply wp_perform_bind; [done|]. intros at_.
  apply wp_perform_bind.
  { split; [by destruct (inv_fields _ _ Hi)|]. pose proof (inv_text _ _ Hi) as Ht.
    intros c j c' j' Hf _. unfold closeUpdate in Hf. destruct j; cbn in *.
    repeat case_match; simplify_eq/=; done. }
  intros [status [j|e]]; [|apply HQ; neutral].
  apply wp_bind_intro, appendStatus_wp; [neutral|]. intros. split; [done|]. intros []. apply HQ.
  neutral.
Qed.

(** The text kept never outgrows the cap. *)
Lemma appendFinalText_bound p text :
  len (p_finalText p) ≤ h_maxFinalTextByte h →
  len (p_finalText (appendFinalText h p text)) ≤ h_maxFinalTextByte h.
Proof.
  intros Hl. unfold appendFinalText. destruct (Z.leb_spec
    (Z.of_nat (h_maxFinalTextByte h) - Z.of_nat (len (p_finalText p))) 0); [done|].
  destruct p; cbn in *. rewrite len_app. case_match eqn:Hc.
  - rewrite len_stake. lia.
  - apply Z.ltb_ge in Hc. lia.
Qed.

Lemma appendFinalText_inv p text hist :
  inv p hist → inv (appendFinalText h p text) hist.
Proof.
  intros Hi. pose proof (appendFinalText_bound p text (inv_text _ _ Hi)).
  destruct Hi. constructor; try done; unfold appendFinalText in *; repeat case_match; try done;
    by destruct p.
Qed.

Lemma dispatch_wp p ev now hist Q :
  inv p hist → (∀ p' hist', inv p' hist' → Q p' hist') →
  wp pumpPolicy hist (dispatch h p ev now) Q.
Proof.
  intros Hi HQ. unfold dispatch.
  assert (∀ p' ev', inv p' hist → wp pumpPolicy hist (appendProto p' ev' now;; mret p') Q) as Ha.
  { intros p' ev' Hi'. apply wp_bind_intro, appendProto_wp; [done|]. intros. by apply HQ. }
  repeat case_match; try (by apply Ha); try (by apply HQ).
  - apply wp_bind_intro, append_wp; [done|]. intros. by apply HQ.
  - apply wp_bind_intro, putPermission_wp; [done|]. intros p' hist' Hi'.
    apply wp_bind_intro, appendProto_wp; [done|]. intros. by apply HQ.
  - apply Ha. by apply (inv_set p); try (by destruct p).
  - apply wp_bind_intro, appendProto_wp; [done|]. intros. by apply handleSandboxTokenRequest_wp.
  - apply wp_bind_intro, appendProto_wp; [done|]. intros. by apply fulfilToolResult_wp.
Qed.

Lemma handle_wp p ev hist Q :
  inv p hist → (∀ p' done hist', inv p' hist' → Q (p', done) hist') →
  wp pumpPolicy hist (handle h p ev) Q.
Proof.
  intros Hi HQ. unfold handle. apply wp_perform_bind; [done|]. intros now.
  apply wp_perform_bind; [done|]. intros [].
  set (hist1 := Obs (ETel _) _ :: _). set (p1 := set_lastEventAt now p).
  assert (inv p1 hist1) as Hi1 by (subst p1 hist1; neutral; by apply (inv_set p); try (by destruct p)).
  clearbody p1 hist1. case_bool_decide; [|case_bool_decide].
  - pose proof (appendFinalText_inv p1 (he_Text ev) _ Hi1) as Hi2. revert Hi2.
    generalize (appendFinalText h p1 (he_Text ev)). intros p2 Hi2.
    set (p3 := if p_deltas p2 ==? "" then set_deltasFrom now p2 else p2).
    assert (inv p3 hist1) as Hi3.
    { subst p3. case_bool_decide; [|done]. by apply (inv_set p2); try (by destruct p2). }
    clearbody p3. set (p4 := set_deltas _ p3).
    assert (inv p4 hist1) as Hi4 by (subst p4; by apply (inv_set p3); try (by destruct p3)).
    clearbody p4. apply wp_bind_intro.
    assert (∀ p' hist', inv p' hist' → wp pumpPolicy hist'
      (p ← maybeFlushLastEventAt h p' now; mret (p, false)) Q) as Hrest.
    { intros p' hist' Hi'. apply wp_bind_intro, maybeFlushLastEventAt_wp; [done|].
      intros. by apply HQ. }
    destruct (_ || _); [|by apply Hrest]. apply flushDeltas_wp; [done|]. intros. by apply Hrest.
  - apply wp_bind_intro, flushDeltas_wp; [done|]. intros.
    apply wp_bind_intro, finish_wp; [done|]. intros. by apply HQ.
  - apply wp_bind_intro, flushDeltas_wp; [done|]. intros.
    apply wp_bind_intro, dispatch_wp; [done|]. intros.
    apply wp_bind_intro, maybeFlushLastEventAt_wp; [done|]. intros. by apply HQ.
Qed.

Lemma pumpRun_wp fuel p hist Q :
  inv p hist → (∀ hist', Q tt hist') → wp pumpPolicy hist (pumpRun h fuel p) Q.
Proof.
  revert p hist. induction fuel as [|f IH]; intros p hist Hi HQ; [done|]. cbn [pumpRun].
  apply wp_perform_bind; [by destruct (inv_fields _ _ Hi) as (? & ? & ? & ? & ? & ? & ?)|].
  intros [ev|e].
  - apply wp_bind_intro, handle_wp; [neutral|]. intros p' [|] hist' Hi'; [apply HQ|by apply IH].
  - apply wp_bind_intro, flushDeltas_wp; [neutral|]. intros. by apply closeUnfinished_wp.
Qed.

(** ** The goroutine of a memory call *)

(** What the goroutine of an admitted call may do: ask the memory service, answer on
    the session, record the answer, and give back its slot. *)
Definition callConfined {X} (e : eff X) : Prop :=
  match e with
  | EAppendEvent id _ => id = p_jobID p0
  | ESessionSend sess ev => sess = p_sess p0 ∧ ce_Type ev = ctlToolResultResponse
  | ERecvSlot ch => ch = p_memoryInFlight p0
  | ESearch _ _ | ESave _ _ | ENow | ETel _ | EWgDone memoryWait => True
  | _ => False
  end.

Definition callPolicy : policy := mkPolicy (λ _ X e, callConfined e) (λ _ _ _, False).

Lemma sendToolResult_confined p r content e hist Q :
  p_jobID p = p_jobID p0 → p_sess p = p_sess p0 → (∀ hist', Q tt hist') →
  wp callPolicy hist (sendToolResult p r content e) Q.
Proof.
  intros Hid Hs HQ. unfold sendToolResult, appendControl, append. by wp_peel.
Qed.

Lemma Fulfil_confined tool input hist Q :
  (∀ a hist', Q a hist') → wp callPolicy hist (Fulfil tool input) Q.
Proof.
  intros HQ. unfold Fulfil, fulfilSearch, fulfilSave, clientSave. wp_peel; try done; apply HQ.
Qed.

Lemma memoryCall_confined p tool r input t x :
  p_jobID p = p_jobID p0 → p_sess p = p_sess p0 → p_memoryInFlight p = p_memoryInFlight p0 →
  trace (memoryCall p tool r input) t x →
  ∀ o, o ∈ t → match o with Obs e _ => callConfined e | Started _ _ => False end.
Proof.
  intros Hid Hs Hm Ht o (t1 & t2 & E)%list_elem_of_split.
  assert (wp callPolicy [] (memoryCall p tool r input) (λ _ _, True)) as Hwp.
  { unfold memoryCall. apply wp_perform_bind; [done|]. intros started.
    apply wp_bind_intro, Fulfil_confined. intros a hist.
    assert (∀ hist', wp callPolicy hist' (perform (ERecvSlot (p_memoryInFlight p));;
      perform (EWgDone memoryWait)) (λ _ _, True)) as Hrest by (intros; by wp_peel).
    destruct a as [[[content e] cause]|]; apply wp_bind_intro.
    - do 2 (apply wp_perform_bind; [done|]; intros ?). by apply sendToolResult_confined.
    - by apply sendToolResult_confined. }
  destruct (wp_sound _ _ _ _ _ _ Hwp Ht) as [Ha _]. specialize (Ha _ _ _ E). by destruct o.
Qed.

(** A pump before its first event. *)
Definition fresh_pump (p : eventPump) : Prop :=
  p_finalText p = "" ∧ p_permissionsSeen p = 0 ∧ p_sandboxTokens p = 0
  ∧ p_memoryRequests p = ∅ ∧ p_memoryCalls p = 0.

Lemma fresh_inv : fresh_pump p0 → inv p0 [].
Proof.
  intros (Ht & Hp & Hs & Hr & Hc). constructor; try done.
  - intros r. rewrite Hr. set_solver.
  - rewrite Ht. cbn. lia.
Qed.

Lemma pumpRun_allowed fuel t r :
  fresh_pump p0 → trace (pumpRun h fuel p0) t r →
  ∀ t1 o t2, t = t1 ++ o :: t2 → allowed pumpPolicy (reverse t1) o.
Proof.
  intros Hf Ht t1 o t2 E.
  assert (wp pumpPolicy [] (pumpRun h fuel p0) (λ _ _, True)) as Hwp
    by (apply pumpRun_wp; [by apply fresh_inv|done]).
  destruct (wp_sound _ _ _ _ _ _ Hwp Ht) as [Ha _].
  rewrite <-(app_nil_r (reverse t1)). by eapply Ha.
Qed.

(** ** From each action to the whole trace *)

Lemma filter_count_reverse (f : obs → bool) t :
  length (List.filter f (reverse t)) = length (List.filter f t).
Proof.
  induction t as [|o t IH]; [done|]. rewrite reverse_cons, List.filter_app, length_app, IH.
  cbn. destruct (f o); cbn; lia.
Qed.

Lemma count_bound (f : obs → bool) n t :
  (∀ t1 o t2, t = t1 ++ o :: t2 → f o = true → length (List.filter f (reverse t1)) < n) →
  length (List.filter f t) ≤ n.
Proof.
  induction t as [|o t IH] using rev_ind; intros Hb; [cbn; lia|].
  rewrite List.filter_app, length_app. cbn. destruct (f o) eqn:Ho; cbn.
  - specialize (Hb t o [] eq_refl Ho). rewrite filter_count_reverse in Hb. lia.
  - rewrite Nat.add_0_r. apply IH. intros t1 o' t2 -> Ho'. eapply (Hb t1 o' (t2 ++ [o])); [|done].
    by rewrite <-app_assoc.
Qed.

Lemma calls_app t1 t2 : calls (t1 ++ t2) = calls t1 ++ calls t2.
Proof.
  induction t1 as [|o t1 IH]; [done|]. cbn. rewrite IH.
  destruct o as [|[] q]; done.
Qed.

Lemma calls_reverse t : calls (reverse t) = reverse (calls t).
Proof.
  induction t as [|o t IH]; [done|]. rewrite reverse_cons, calls_app, IH.
  destruct o as [|[] q]; cbn [calls]; rewrite ?app_nil_r, ?reverse_cons; done.
Qed.

Lemma calls_bound n t :
  (∀ t1 id tool r q t2, t = t1 ++ Started (MemoryCallOf id tool r) q :: t2 →
     (r ∉ calls (reverse t1)) ∧ length (calls (reverse t1)) < n) →
  NoDup (calls t) ∧ length (calls t) ≤ n.
Proof.
  induction t as [|o t IH] using rev_ind; intros Hb; [split; [constructor|cbn; lia]|].
  destruct IH as [Hn Hl].
  { intros t1 id tool r q t2 ->. eapply (Hb t1 id tool r q (t2 ++ [o])). by rewrite <-app_assoc. }
  rewrite calls_app. destruct o as [|[|id tool r] q]; cbn; rewrite ?app_nil_r; try done.
  specialize (Hb t id tool r q [] eq_refl). rewrite calls_reverse, elem_of_reverse, length_reverse in Hb.
  split; [|rewrite length_app; cbn; lia].
  apply NoDup_app. split_and!; [done|set_solver|apply NoDup_singleton].
Qed.

(** ** Properties *)

(** C16. However often a harness asks, one stream is minted at most eight sandbox
    tokens, each for its own job with the repo scope stored at submission, and none
    at all unless an issuer is configured and the run's config declared a sandbox
    identity. *)
Theorem pump_mints_bounded (fuel : nat) (t : list obs) (r : option (result unit))
  (Hnew : fresh_pump p0) (Ht : trace (pumpRun h fuel p0) t r) :
  minted t ≤ maxSandboxTokenRequests
  ∧ ∀ sub scope x, Obs (EMint sub scope) x ∈ t →
      sub = p_jobID p0 ∧ scope = p_repoScope p0 ∧ h_issuer h ≠ None
      ∧ p_sandboxIdentityDeclared p0 = true.
Proof.
  pose proof (pumpRun_allowed fuel t r Hnew Ht) as Ha. split.
  - apply count_bound. intros t1 o t2 E Ho. specialize (Ha t1 o t2 E).
    destruct o as [X e x|]; [|done]. destruct e; try done. naive_solver.
  - intros sub scope x (t1 & t2 & E)%list_elem_of_split. specialize (Ha _ _ _ E). naive_solver.
Qed.

(** C6. Memory calls are admitted within their bounds whatever the harness sends:
    over the whole stream no request ID is fulfilled twice, at most [maxMemoryCalls]
    calls are started, and each only for a memory tool the run declared, with a backend
    configured and a request ID of at most 128 bytes, right after a slot of the pump's
    own semaphore was taken for it and the wait group was told. *)
Theorem pump_memory_admission (fuel : nat) (t : list obs) (r : option (result unit))
  (Hnew : fresh_pump p0) (Ht : trace (pumpRun h fuel p0) t r) :
  NoDup (calls t) ∧ length (calls t) ≤ h_maxMemoryCalls h
  ∧ ∀ t1 id tool req q t2, t = t1 ++ Started (MemoryCallOf id tool req) q :: t2 →
      id = p_jobID p0 ∧ tool ∈ p_declaredTools p0 ∧ IsMemoryTool tool = true
      ∧ h_memory h = true ∧ len req ≤ maxRequestIDBytes
      ∧ ∃ t0, t1 = t0 ++ [Obs (ETrySend (p_memoryInFlight p0)) true; Obs (EWgAdd memoryWait) tt].
Proof.
  pose proof (pumpRun_allowed fuel t r Hnew Ht) as Ha.
  apply and_assoc. split.
  - apply calls_bound. intros t1 id tool req q t2 E. specialize (Ha _ _ _ E). cbn in Ha.
    by destruct Ha as (_ & _ & _ & _ & _ & ? & ? & _).
  - intros t1 id tool req q t2 E. specialize (Ha _ _ _ E). cbn in Ha.
    destruct Ha as (? & ? & ? & ? & ? & _ & _ & (hist & Hh) & _). split_and!; try done.
    exists (reverse hist). rewrite <-(reverse_involutive t1), Hh, !reverse_cons.
    by rewrite <-app_assoc.
Qed.

(** C15. A pump is confined to its own run, whatever the harness sends. It receives from
    its own stream and sends on its own session, never an assignment; it updates, appends
    to and records permissions of its own job only, at most a thousand of them, pending,
    and never stores a final text longer than the cap; it has tokens minted only for its
    own job with the stored scope; and it does nothing else, to another job, session or
    stream, except to read the clock, to measure, and to start the memory calls of its
    job. Such a goroutine in turn only asks the memory service, answers on the same
    session, appends to the same job's timeline and gives back its slot. *)
Theorem pump_confined (fuel : nat) (t : list obs) (r : option (result unit))
  (Hnew : fresh_pump p0) (Ht : trace (pumpRun h fuel p0) t r) :
  puts t ≤ maxPermissionRequests
  ∧ (∀ X (e : eff X) x, Obs e x ∈ t →
      match e with
      | EReceive s => s = p_stream p0
      | ESessionSend sess ev => sess = p_sess p0 ∧ ce_Type ev ≠ ctlTaskAssignment
      | EUpdateJob id fn _ => id = p_jobID p0 ∧ boundedText fn
      | EAppendEvent id _ => id = p_jobID p0
      | EPutPermission id pr => id = p_jobID p0 ∧ pr_State pr = PermissionPending
      | EMint sub scope => sub = p_jobID p0 ∧ scope = p_repoScope p0
      | ETrySend ch => ch = p_memoryInFlight p0
      | ENow | ETel _ | EWgAdd memoryWait => True
      | _ => False
      end)
  ∧ ∀ l q, Started l q ∈ t →
      (∃ tool req, l = MemoryCallOf (p_jobID p0) tool req)
      ∧ ∀ t' r', trace q t' r' → ∀ o, o ∈ t' →
          match o with Obs e _ => callConfined e | Started _ _ => False end.
Proof.
  pose proof (pumpRun_allowed fuel t r Hnew Ht) as Ha. split_and!.
  - apply count_bound. intros t1 o t2 E Ho. specialize (Ha t1 o t2 E).
    destruct o as [X e x|]; [|done]. destruct e; try done. naive_solver.
  - intros X e x (t1 & t2 & E)%list_elem_of_split. specialize (Ha _ _ _ E).
    destruct e; cbn in Ha; naive_solver.
  - intros l q (t1 & t2 & E)%list_elem_of_split. specialize (Ha _ _ _ E).
    destruct l as [|id tool req]; [done|]. cbn in Ha.
    destruct Ha as (Hid' & _ & _ & _ & _ & _ & _ & _ & p & input & Eq & Hid & Hs & Hm). subst id q.
    split; [by exists tool, req|]. intros t' r' Ht'. exact (memoryCall_confined _ _ _ _ _ _ Hid Hs Hm Ht').
Qed.

End pump.

#[local] Existing Instance sample_tables.
#[local] Existing Instance sample_codec.

(** Ten token requests, a tool call sent three times, a permission request. *)
Definition greedy_stream : list HarnessEvent :=
  replicate 10 (token_event "t") ++ replicate 3 (tool_event "m1" "search_memory" sample_search)
  ++ [tool_event "m2" "save_memory" ""; permission_event "p1" "bash"; done_event "success"].

(** What the pump does with it. *)
Definition greedy_trace : list obs * result unit :=
  recorded sample_env (pumpRun sample_handler 20 sample_pump) (sample_assigned greedy_stream).

Lemma pump_mints_bounded_witness :
  minted (fst greedy_trace) = 8
  ∧ minted (fst greedy_trace) ≤ maxSandboxTokenRequests
  ∧ ∀ sub scope x, Obs (EMint sub scope) x ∈ fst greedy_trace →
      sub = sample_id ∧ scope = ["github.com/a/*"] ∧ h_issuer sample_handler ≠ None ∧ true = true.
Proof.
  split; [vm_compute; reflexivity|].
  apply (pump_mints_bounded sample_handler sample_pump 20 _ (Some (snd greedy_trace)));
    [repeat split|apply recorded_trace].
Defined.

Lemma pump_memory_admission_witness :
  calls (fst greedy_trace) = ["m1"]
  ∧ NoDup (calls (fst greedy_trace))
  ∧ length (calls (fst greedy_trace)) ≤ h_maxMemoryCalls sample_handler
  ∧ ∀ t1 id tool req q t2,
      fst greedy_trace = t1 ++ Started (MemoryCallOf id tool req) q :: t2 →
      id = sample_id ∧ tool ∈ p_declaredTools sample_pump ∧ IsMemoryTool tool = true
      ∧ true = true ∧ len req ≤ maxRequestIDBytes
      ∧ ∃ t0, t1 = t0 ++ [Obs (ETrySend (p_memoryInFlight sample_pump)) true;
                          Obs (EWgAdd memoryWait) tt].
Proof.
  split; [vm_compute; reflexivity|].
  apply (pump_memory_admission sample_handler sample_pump 20 _ (Some (snd greedy_trace)));
    [repeat split|apply recorded_trace].
Defined.

(** In particular, all that is minted is for the pump's job, and all that is sent is sent
    on its session. *)
Lemma pump_confined_witness :
  puts (fst greedy_trace) = 1 ∧ puts (fst greedy_trace) ≤ maxPermissionRequests
  ∧ (∀ sub scope x, Obs (EMint sub scope) x ∈ fst greedy_trace → sub = sample_id)
  ∧ ∀ sess ev x, Obs (ESessionSend sess ev) x ∈ fst greedy_trace → sess = p_sess sample_pump.
Proof.
  split; [vm_compute; reflexivity|].
  assert (fresh_pump sample_pump) as Hnew by (by repeat split).
  destruct (pump_confined sample_handler sample_pump 20 _ (Some (snd greedy_trace)) Hnew
              (recorded_trace _ _ _)) as (Hp & Ha & _).
  split; [exact Hp|]. split.
  - intros sub scope x Hx. exact (proj1 (Ha _ _ _ Hx)).
  - intros sess ev x Hx. exact (proj1 (Ha _ _ _ Hx)).
Defined.
