(* ===== verification/ControlPlane.v ===== *)
(** * Serving one harness stream ([src/internal/controlplane/controlplane.go])

    [runTask]: correlate the stream to a job through its [ready] event, hand the
    job's run config across, and pump the rest into the store. *)

From stdpp Require Import base gmap list strings.
From S2P Require Import Prelude Fmt Job Proto Store Timeline Telemetry Prog Memory Handler Pump.

Section controlplane.
Context `{UnicodeTables} `{ProtoJSON}.
Variable h : Handler.

(** The closure of the running transition. *)
Definition runningUpdate (started : Time) (j : Job) : res Job :=
  if Terminal (j_Status j) then Err errNoUpdate
  else Ok (set_LastEventAt started (set_StartedAt started (set_Status StatusRunning j))).

(** From the running transition to the end of the pump. *)
Definition assigned (fuel : nat) (s sess : nat) (jobID : string) (j : Job) (cfg : RunConfig)
  : prog (res unit) :=
  started ← perform ENow;
  '(_, r) ← perform (EUpdateJob jobID (pureUpdater (runningUpdate started)) tt);
  if match r with Err e => errorsIs e errNoUpdate | Ok _ => false end then
    sendCancel s;;
    mret (Ok tt)
  else
    appendStatus jobID StatusRunning started;;
    p ← newPump h jobID sess s (declaredControlPlaneTools cfg);
    let p := set_repoScope (j_RepoScope j) p in
    let p := set_sandboxIdentityDeclared (declaresSandboxIdentity cfg) p in
    pumpRun h fuel p;;
    mret (Ok tt).

(** From the registration to its deferred release. *)
Definition registered (fuel : nat) (s sess : nat) (jobID : string) (j : Job) : prog (res unit) :=
  match parseRunConfig (j_RunConfigJSON j) with
  | Err e =>
      perform (ETel (HarnessSession SessionUnusableRunConfig));;
      sendCancel s;;
      failJob jobID ("stored run config is not a valid RunConfig: " +:+ Error e);;
      mret (Ok tt)
  | Ok cfg =>
      r ← perform (ESessionSend sess
            (mkControlEvent ctlTaskAssignment (Some cfg) "" "" None "" "" None "" None));
      match r with
      | Err e =>
          perform (ETel (HarnessSession SessionAssignmentFailed));;
          failJob jobID ("failed to send task assignment: " +:+ Error e);;
          mret (Err e)
      | Ok _ =>
          perform (ETel (HarnessSession SessionAssigned));;
          perform (ETel SessionOpened);;
          r ← assigned fuel s sess jobID j cfg;
          perform (ETel SessionClosed);;
          mret r
      end
  end.

Definition runTask (fuel : nat) (s : nat) : prog (res unit) :=
  first ← perform (EReceive s);
  match first with
  | Err _ => perform (ETel (HarnessSession SessionClosedBeforeReady));; mret (Ok tt)
  | Ok first =>
      if he_Type first !=? evReady then
        perform (ETel (HarnessSession SessionNotReady));; sendCancel s;; mret (Ok tt)
      else
        let '(jobID, token) := ParseSession (he_Id first) in
        if jobID ==? "" then
          perform (ETel (HarnessSession SessionNoID));; sendCancel s;; mret (Ok tt)
        else
          r ← perform (EGetJob jobID);
          match r with
          | Err _ =>
              perform (ETel (HarnessSession SessionUnknownJob));; sendCancel s;; mret (Ok tt)
          | Ok j =>
              if negb (AcceptsToken j token) then
                perform (ETel (HarnessSession SessionBadToken));; sendCancel s;; mret (Ok tt)
              else if Terminal (j_Status j) || j_CancelRequested j then
                perform (ETel (HarnessSession SessionClosedJob));;
                sendCancel s;;
                when (negb (Terminal (j_Status j))) (finaliseCancelled jobID);;
                mret (Ok tt)
              else
                sess ← perform (ENewSession s);
                r ← perform (ERegister jobID sess);
                match r with
                | Err _ =>
                    perform (ETel (HarnessSession SessionDuplicate));; sendCancel s;; mret (Ok tt)
                | Ok _ =>
                    r ← registered fuel s sess jobID j;
                    perform (ESessionClose sess);;
                    perform (EUnregister jobID sess);;
                    mret r
                end
          end
  end.

End controlplane.
