(* ===== verification/Admission.v ===== *)
(** * Who may drive a job

    A harness stream is a stranger until its [ready] event presents the session
    string of a job.  This file shows, for every trace of [runTask] and so under
    every interleaving and every answer of the store, that a stream that has not
    presented the right token touches no job and receives nothing but a cancel, and
    that only the one registered stream of a live job is assigned its task. *)

From stdpp Require Import base gmap list strings.
From S2P Require Import Prelude Fmt Job Proto Store.
From S2P Require Import Timeline Telemetry Registry Prog Memory Handler.
From S2P Require Import Pump PumpFacts ControlPlane MemStore MemStoreFacts Samples.

Section admission.
Context `{UnicodeTables} `{ProtoJSON}.
Variable h : Handler.
Variable s : nat.

(** The stream presented the token of the job, which the store returned as [j]. *)
Definition claimed (hist : list obs) (jobID : string) (j : Job) : Prop :=
  ∃ first token,
    Obs (EReceive s) (Ok first) ∈ hist ∧ he_Type first = evReady
    ∧ ParseSession (he_Id first) = (jobID, token)
    ∧ Obs (EGetJob jobID) (Ok j) ∈ hist ∧ AcceptsToken j token = true.

(** It claimed a job that was still open to a harness. *)
Definition eligible (hist : list obs) (jobID : string) (j : Job) : Prop :=
  claimed hist jobID j ∧ Terminal (j_Status j) = false ∧ j_CancelRequested j = false.

(** It claimed a job whose cancellation had been requested but not carried out. *)
Definition cancelling (hist : list obs) (jobID : string) (j : Job) : Prop :=
  claimed hist jobID j ∧ Terminal (j_Status j) = false ∧ j_CancelRequested j = true.

(** It claimed an open job and holds its registration. *)
Definition admitted (hist : list obs) (jobID : string) (sess : nat) (j : Job) : Prop :=
  eligible hist jobID j
  ∧ Obs (ENewSession s) sess ∈ hist ∧ Obs (ERegister jobID sess) (Ok tt) ∈ hist.

(** A closure that settles a job as cancelled, unless it is settled already. *)
Definition cancels {C} (fn : updater C) : Prop :=
  ∃ at_, ∀ c j, fn c j = (c,
    if Terminal (j_Status j) then Err errNoUpdate
    else Ok (set_FinishedAt at_ (set_StopReason
           (if j_StopReason j ==? "" then "cancelled" else j_StopReason j)
           (set_Status StatusCancelled j)))).

(** A record of the job was settled as cancelled. *)
Definition cancelledIn (hist : list obs) (jobID : string) : Prop :=
  ∃ (C : Set) (fn : updater C) c c' j, cancels fn ∧ Obs (EUpdateJob jobID fn c) (c', Ok j) ∈ hist.

(** What the stream may cause. *)
Definition streamPolicy : policy := mkPolicy
  (λ hist X e,
    match e with
    | EReceive s' => s' = s
    | EStreamSend s' ev => s' = s ∧ ev = control_of_type ctlCancel
    | ENow | ETel _ => True
    | EGetJob id => ∃ first, Obs (EReceive s) (Ok first) ∈ hist ∧ he_Type first = evReady
                      ∧ fst (ParseSession (he_Id first)) = id
    | ENewSession s' => s' = s ∧ ∃ id j, eligible hist id j
    | ERegister id sess => (∃ j, eligible hist id j) ∧ Obs (ENewSession s) sess ∈ hist
    | EUpdateJob id fn _ =>
        (∃ j sess, admitted hist id sess j) ∨ (∃ j, cancelling hist id j) ∧ cancels fn
    | EAppendEvent id ev =>
        (∃ j sess, admitted hist id sess j)
        ∨ (∃ j, cancelling hist id j) ∧ cancelledIn hist id
          ∧ ∃ at_, ev = mkEvent "" EventStatusChange (formatStatus StatusCancelled) at_
    | EPutPermission id _ | EUnregister id _ => ∃ j sess, admitted hist id sess j
    | ESessionClose sess => ∃ id j, admitted hist id sess j
    | ENewChan _ | ETrySend _ | EWgAdd memoryWait => ∃ id j sess, admitted hist id sess j
    | ESessionSend sess ev =>
        ∃ id j, admitted hist id sess j
          ∧ (ce_Type ev = ctlTaskAssignment →
             ∃ cfg, parseRunConfig (j_RunConfigJSON j) = Ok cfg ∧ ce_Task ev = Some cfg)
    | EMint id scope =>
        ∃ j sess cfg, admitted hist id sess j ∧ scope = j_RepoScope j ∧ h_issuer h ≠ None
          ∧ parseRunConfig (j_RunConfigJSON j) = Ok cfg ∧ declaresSandboxIdentity cfg = true
    | _ => False
    end)
  (λ hist l q,
    match l with
    | MemoryCallOf id tool r =>
        ∃ j sess cfg p input, admitted hist id sess j ∧ parseRunConfig (j_RunConfigJSON j) = Ok cfg
          ∧ tool ∈ declaredControlPlaneTools cfg
          ∧ q = memoryCall p tool r input ∧ p_jobID p = id ∧ p_sess p = sess
    | _ => False
    end).

Lemma claimed_mono hist hist' id j : hist `suffix_of` hist' → claimed hist id j → claimed hist' id j.
Proof. intros [k ->]. unfold claimed. set_solver. Qed.

Lemma eligible_mono hist hist' id j :
  hist `suffix_of` hist' → eligible hist id j → eligible hist' id j.
Proof. intros Hsuf (Hc & ?). split; [by eapply claimed_mono|done]. Qed.

Lemma cancelling_mono hist hist' id j :
  hist `suffix_of` hist' → cancelling hist id j → cancelling hist' id j.
Proof. intros Hsuf (Hc & ?). split; [by eapply claimed_mono|done]. Qed.

Lemma admitted_mono hist hist' id sess j :
  hist `suffix_of` hist' → admitted hist id sess j → admitted hist' id sess j.
Proof.
  intros Hsuf (Hc & ? & ?). split; [by eapply eligible_mono|].
  destruct Hsuf as [k ->]. set_solver.
Qed.

Lemma eligible_cons hist o id j : eligible hist id j → eligible (o :: hist) id j.
Proof. apply eligible_mono. by apply suffix_cons_r. Qed.

Lemma cancelling_cons hist o id j : cancelling hist id j → cancelling (o :: hist) id j.
Proof. apply cancelling_mono. by apply suffix_cons_r. Qed.

Lemma admitted_cons hist o id sess j : admitted hist id sess j → admitted (o :: hist) id sess j.
Proof. apply admitted_mono. by apply suffix_cons_r. Qed.

#[local] Hint Resolve eligible_cons cancelling_cons admitted_cons : hairpin.

(** ** The helpers *)

Lemma sendCancel_wp hist Q :
  (∀ o, Q tt (o :: hist)) → wp streamPolicy hist (sendCancel s) Q.
Proof. intros HQ. unfold sendCancel. wp_peel; [done|apply HQ]. Qed.

Lemma cancelledUpdate_cancels at_ : cancels (pureUpdater (cancelledUpdate at_)).
Proof.
  exists at_. intros [] j. unfold pureUpdater, cancelledUpdate. f_equal.
  destruct (Terminal (j_Status j)); [done|]. do 2 f_equal. destruct j; cbn.
  by destruct (_ ==? _).
Qed.

(** A job whose cancellation was requested is settled, and the settlement announced. *)
Lemma finaliseCancelled_wp hist id j (Q : unit → list obs → Prop) :
  cancelling hist id j → (∀ hist', Q tt hist') →
  wp streamPolicy hist (finaliseCancelled id) Q.
Proof.
  intros Hc HQ. unfold finaliseCancelled. apply wp_perform_bind; [done|]. intros at_.
  apply wp_perform_bind.
  { right. split; [exists j; auto with hairpin|apply cancelledUpdate_cancels]. }
  intros [[] [j'|e]]; [|by apply HQ].
  unfold appendStatus. apply wp_bind_intro, wp_perform_bind.
  { right. split_and!; [exists j; auto with hairpin| |by eexists].
    eexists _, _, _, _, j'. split; [apply cancelledUpdate_cancels|apply list_elem_of_here]. }
  intros x. split; [done|]. intros []. apply HQ.
Qed.

Lemma failJob_wp hist id reason sess j (Q : unit → list obs → Prop) :
  admitted hist id sess j → (∀ hist', hist `suffix_of` hist' → Q tt hist') →
  wp streamPolicy hist (failJob id reason) Q.
Proof.
  intros Hc HQ. unfold failJob. apply wp_perform_bind; [done|]. intros at_.
  apply wp_perform_bind; [left; exists j, sess; auto with hairpin|]. intros [[] [j'|e]].
  - unfold appendStatus. apply wp_bind_intro, wp_perform_bind.
    { left. exists j, sess. auto with hairpin. }
    intros x. split; [done|]. intros []. apply HQ. by repeat apply suffix_cons_r.
  - apply HQ. by repeat apply suffix_cons_r.
Qed.

(** The pump's own policy, for the pump of an admitted stream. *)
Lemma pump_wp fuel p hist id sess j cfg (Q : unit → list obs → Prop) :
  admitted hist id sess j → parseRunConfig (j_RunConfigJSON j) = Ok cfg →
  p_jobID p = id → p_sess p = sess → p_stream p = s → p_repoScope p = j_RepoScope j →
  p_sandboxIdentityDeclared p = declaresSandboxIdentity cfg →
  p_declaredTools p = declaredControlPlaneTools cfg →
  inv h p p hist → (∀ hist', hist `suffix_of` hist' → Q tt hist') →
  wp streamPolicy hist (pumpRun h fuel p) Q.
Proof.
  intros Ha Hcfg Hid Hse Hst Hsc Hde Hto Hinv HQ. apply wp_suffix.
  eapply (wp_policy_mono (pumpPolicy h p)); [..|by apply pumpRun_wp].
  - intros h' X e Hsuf He. pose proof (admitted_mono _ _ _ _ _ Hsuf Ha) as Ha'.
    destruct e; cbn in *; try done; destruct_and?; subst; eauto 10.
    + exists (p_jobID p), j. split; [done|]. by intros.
    + case_match; [done|]. eauto.
  - intros h' l q Hsuf Hg. pose proof (admitted_mono _ _ _ _ _ Hsuf Ha) as Ha'.
    destruct l as [|id' tool r]; [done|]. cbn in *. destruct_and?. subst.
    destruct_and?. match goal with H : ∃ _ _, _ |- _ => destruct H as (p' & input & -> & Hj & Hs & _) end.
    exists j, (p_sess p), cfg, p', input. split_and!; try done. by rewrite <-Hto.
Qed.

(** Nothing counted by the pump's invariant has happened yet. *)
Definition clean (hist : list obs) : Prop := minted hist = 0 ∧ puts hist = 0 ∧ calls hist = [].

Lemma clean_cons o hist :
  isMint o = false → isPut o = false → calls (o :: hist) = calls hist → clean hist → clean (o :: hist).
Proof.
  intros Hm Hp Hc (?&?&?). unfold clean, minted, puts in *. cbn [List.filter].
  by rewrite Hm, Hp, Hc.
Qed.

Ltac cleanup := repeat (apply clean_cons; [reflexivity|reflexivity|reflexivity|]); try done.

(** ** The stages *)

Lemma assigned_wp fuel sess id j cfg hist (Q : res unit → list obs → Prop) :
  admitted hist id sess j → parseRunConfig (j_RunConfigJSON j) = Ok cfg → clean hist →
  (∀ r hist', hist `suffix_of` hist' → Q r hist') →
  wp streamPolicy hist (assigned h fuel s sess id j cfg) Q.
Proof.
  intros Ha Hcfg Hcl HQ. unfold assigned.
  apply wp_perform_bind; [done|]. intros started.
  apply wp_perform_bind; [left; exists j, sess; auto with hairpin|]. intros [c r].
  destruct (match r with Err e => errorsIs e errNoUpdate | Ok _ => false end).
  { apply wp_bind_intro, sendCancel_wp. intros o. apply HQ. by repeat apply suffix_cons_r. }
  apply wp_bind_intro. unfold appendStatus. apply wp_perform_bind.
  { left. exists j, sess. auto with hairpin. }
  intros x. unfold newPump.
  apply wp_bind_intro. apply wp_perform_bind; [done|]. intros now.
  apply wp_perform_bind; [exists id, j, sess; auto 10 with hairpin|]. intros ch. apply wp_bind_intro.
  eapply (pump_wp _ _ _ id sess j cfg); try done; auto 10 with hairpin.
  - match goal with |- inv _ _ _ ?hs => assert (clean hs) as (Hm & Hp & Hk) by cleanup end.
    constructor; try done; try (by rewrite ?Hm, ?Hp, ?Hk); [|cbn; lia].
    intros r'. rewrite Hk. set_solver.
  - intros hist' Hs. apply HQ. etransitivity; [|exact Hs]. by repeat apply suffix_cons_r.
Qed.

Lemma registered_wp fuel sess id j hist (Q : res unit → list obs → Prop) :
  admitted hist id sess j → clean hist →
  (∀ r hist', hist `suffix_of` hist' → Q r hist') →
  wp streamPolicy hist (registered h fuel s sess id j) Q.
Proof.
  intros Ha Hcl HQ. unfold registered.
  destruct (parseRunConfig (j_RunConfigJSON j)) as [cfg|e] eqn:Hcfg.
  - apply wp_perform_bind.
    { exists id, j. split; [done|]. intros _. by exists cfg. }
    intros [[]|e]; apply wp_perform_bind; try done; intros [].
    + apply wp_perform_bind; [done|]. intros [].
      apply wp_bind_intro, assigned_wp; [auto 10 with hairpin|done|cleanup|].
      intros r hist' Hs. apply wp_perform_bind; [done|]. intros []. apply HQ.
      apply suffix_cons_r. etransitivity; [|exact Hs]. by repeat apply suffix_cons_r.
    + apply wp_bind_intro. eapply failJob_wp; [eauto with hairpin|].
      intros hist' Hs. apply HQ. etransitivity; [|exact Hs]. by repeat apply suffix_cons_r.
  - apply wp_perform_bind; [done|]. intros [].
    apply wp_bind_intro, sendCancel_wp. intros o. apply wp_bind_intro.
    eapply failJob_wp; [eauto with hairpin|].
    intros hist' Hs. apply HQ. etransitivity; [|exact Hs]. by repeat apply suffix_cons_r.
Qed.

(** A dismissed stream is told to cancel, and that is all. *)
Lemma dismiss_wp m hist (Q : res unit → list obs → Prop) :
  (∀ hist', Q (Ok tt) hist') →
  wp streamPolicy hist (perform (ETel m);; sendCancel s;; mret (Ok tt)) Q.
Proof.
  intros HQ. apply wp_perform_bind; [done|]. intros [].
  apply wp_bind_intro, sendCancel_wp. intros. apply HQ.
Qed.

Lemma runTask_wp fuel (Q : res unit → list obs → Prop) :
  (∀ r hist', Q r hist') → wp streamPolicy [] (runTask h fuel s) Q.
Proof.
  intros HQ. unfold runTask. apply wp_perform_bind; [done|]. intros [first|e]; cycle 1.
  { apply wp_perform_bind; [done|]. intros []. apply HQ. }
  case_bool_decide as Hr; cbn [negb]; [|by apply dismiss_wp].
  destruct (ParseSession (he_Id first)) as [id token] eqn:Hp.
  case_bool_decide; [by apply dismiss_wp|].
  apply wp_perform_bind.
  { exists first. split_and!; [set_solver|done|by rewrite Hp]. }
  intros [j|e]; [|by apply dismiss_wp].
  destruct (AcceptsToken j token) eqn:Htok; cbn [negb]; [|by apply dismiss_wp].
  set (hist := Obs (EGetJob id) (Ok j) :: _).
  assert (claimed hist id j) as Hc by (exists first, token; subst hist; set_solver).
  assert (clean hist) as Hcl by done. clearbody hist.
  destruct (Terminal (j_Status j)) eqn:Ht; [|destruct (j_CancelRequested j) eqn:Hcr];
    cbn [orb negb when].
  { by apply dismiss_wp. }
  { apply wp_perform_bind; [done|]. intros []. apply wp_bind_intro, sendCancel_wp. intros o.
    apply wp_bind_intro, (finaliseCancelled_wp _ _ j); [by repeat apply cancelling_cons|].
    intros. apply HQ. }
  assert (eligible hist id j) as He by done.
  apply wp_perform_bind; [split; [done|by exists id, j]|]. intros sess.
  apply wp_perform_bind; [split; [exists j; auto with hairpin|set_solver]|].
  intros [[]|e]; [|by apply dismiss_wp].
  set (hist2 := Obs (ERegister id sess) _ :: _).
  assert (admitted hist2 id sess j) as Ha.
  { subst hist2. split_and!; [auto with hairpin|set_solver|set_solver]. }
  assert (clean hist2) as Hcl2 by (subst hist2; cleanup). clearbody hist2.
  apply wp_bind_intro, registered_wp; [done|done|]. intros r hist' Hs.
  apply wp_perform_bind; [exists id, j; by eapply admitted_mono|]. intros [].
  apply wp_perform_bind.
  { exists j, sess. apply admitted_cons. by eapply admitted_mono. }
  intros []. apply HQ.
Qed.

(** ** Properties *)

(** C5. A harness stream can drive a job only by presenting its secret, and only while
    the job is open. In every trace of [runTask], whatever the store, the registry and the
    harness do: the only record read is that of the job named by the stream's [ready]
    event; a job is registered, updated, appended to, assigned, given tokens or memory
    calls only after that event carried the token the stored job accepts, and the stored
    job was neither terminal nor cancel-requested, with one exception: a job not yet
    terminal whose cancellation was requested is settled as cancelled, and then announced
    so. A terminal job is not touched at all. On the stream itself nothing is sent but a
    cancel; the assignment carries the stored run config, on the stream's own registered
    session; tokens are minted with the stored repo scope only if the config declared an
    identity, and memory calls are started only for the tools it declared. *)
Theorem runTask_authenticates (fuel : nat) (t : list obs) (r : option (result (res unit)))
  (Ht : trace (runTask h fuel s) t r) :
  ∀ t1 o t2, t = t1 ++ o :: t2 → allowed streamPolicy (reverse t1) o.
Proof.
  intros t1 o t2 E.
  assert (wp streamPolicy [] (runTask h fuel s) (λ _ _, True)) as Hwp by (by apply runTask_wp).
  destruct (wp_sound _ _ _ _ _ _ Hwp Ht) as [Ha _].
  rewrite <-(app_nil_r (reverse t1)). by eapply Ha.
Qed.

End admission.

#[local] Existing Instance sample_tables.
#[local] Existing Instance sample_codec.

(** A harness that knows the job's ID but not its token. *)
Definition forged_ready : HarnessEvent :=
  mkHarnessEvent evReady "" (sample_id +:+ ".guess") "" "" "" "" "" "" None "" "" "v1" "".

Definition forged_trace : list obs * result (res unit) :=
  recorded sample_env (runTask sample_handler 10 0) (sample_world [forged_ready]).

(** It is sent a cancel and nothing else happens to the job. *)
Lemma runTask_authenticates_witness :
  (∀ t1 o t2, fst forged_trace = t1 ++ o :: t2 →
     allowed (streamPolicy sample_handler 0) (reverse t1) o)
  ∧ run sample_env (runTask sample_handler 10 0) (sample_world [forged_ready])
    = (set_tick 4 (set_metrics (HarnessSession SessionBadToken)
         (set_streams {[0 := mkStream [] EOF [control_of_type ctlCancel]]} (sample_world []))),
       [], Done (Ok tt)).
Proof.
  split; [|vm_compute; reflexivity].
  apply (runTask_authenticates sample_handler 0 10 _ (Some (snd forged_trace))).
  apply recorded_trace.
Defined.
