(* ===== verification/RunConfigs.v ===== *)
(** * Run configs: profiles, defaults and preflight checks

    The pure half of submission, from [src/internal/service]: [profiles.go],
    [executor.go], [tools.go], [traceemitter.go], and [resolveConfig],
    [validateRunConfig] and [validateRepoScope] of [submit.go]. *)

From stdpp Require Import base gmap list strings pretty sorting.
From S2P Require Import Prelude Utf8 Fmt Proto Memory.

(** ** Profiles *)

Record Profiles := mkProfiles {
  pf_templates : gmap string RunConfig;
  pf_def : string;
}.

(** Templates are values here, so a copy of one cannot be changed through another. *)
Definition Default (p : Profiles) : string := pf_def p.
Definition Get (p : Profiles) (name : string) : option RunConfig := pf_templates p !! name.

Definition strLe (a b : string) : Prop := String.leb a b = true.
#[export] Instance strLe_dec : RelDecision strLe.
Proof. intros a b. unfold strLe. apply _. Defined.

Definition Names (p : Profiles) : list string :=
  merge_sort strLe (map_to_list (pf_templates p)).*1.

(** A list of strings under [%v]. *)
Definition formatList (l : list string) : string := "[" +:+ intersperse " " l +:+ "]".

(** An error that wraps [ErrInvalidArgument]. *)
Definition invalid (msg : string) : error := wrapf msg ErrInvalidArgument.

Section runconfigs.
Context `{UnicodeTables} `{ProtoJSON}.

Definition NewProfiles (templates : gmap string RunConfig) (defaultProfile : string)
  : res Profiles :=
  if bool_decide (templates = ∅) then Ok (mkProfiles ∅ "")
  else if (defaultProfile !=? "") && bool_decide (templates !! defaultProfile = None) then
    Err (ErrNew ("default profile " +:+ Quote defaultProfile +:+ " is not among the "
      +:+ pretty (size templates) +:+ " loaded profiles"))
  else Ok (mkProfiles templates defaultProfile).

(** A directory entry and what reading it as a file gives. *)
Record dirEntry := mkDirEntry {
  de_Name : string;
  de_IsDir : bool;
  de_Contents : res string;
}.

Definition HasSuffix (s suffix : string) : bool :=
  (len suffix <=? len s) && (sdrop (len s - len suffix) s ==? suffix).

Definition TrimSuffix (s suffix : string) : string :=
  if HasSuffix s suffix then stake (len s - len suffix) s else s.

(** The loop over the entries of the directory. *)
Fixpoint loadEntries (dir : string) (es : list dirEntry) (templates : gmap string RunConfig)
  : res (gmap string RunConfig) :=
  match es with
  | [] => Ok templates
  | e :: es' =>
      if de_IsDir e || negb (HasSuffix (de_Name e) ".json") then loadEntries dir es' templates
      else
        let path := dir +:+ "/" +:+ de_Name e in
        match de_Contents e with
        | Err err => Err (wrapf ("read profile " +:+ path) err)
        | Ok raw =>
            match UnmarshalRunConfig false raw with
            | Err err => Err (wrapf ("parse profile " +:+ path) err)
            | Ok cfg =>
                loadEntries dir es' (<[TrimSuffix (de_Name e) ".json" := cfg]> templates)
            end
        end
  end.

(** [LoadProfiles], of what [os.ReadDir] returns for a (clean) directory path. *)
Definition LoadProfiles (dir defaultProfile : string) (readDir : res (list dirEntry))
  : res Profiles :=
  if dir ==? "" then NewProfiles ∅ defaultProfile
  else
    match readDir with
    | Err err => Err (wrapf ("read profiles dir " +:+ dir) err)
    | Ok entries => templates ← loadEntries dir entries ∅; NewProfiles templates defaultProfile
    end.

(** ** Executor *)

Record ExecutorDefaults := mkExecutorDefaults {
  ed_Image : string;
  ed_Namespace : string;
  ed_ServiceAccount : string;
  ed_Runtime : string;
}.

Definition isK8sExecutor (t : string) : bool := (t ==? "k8s") || (t ==? "k8s-sandbox").

Definition validK8sRuntime (runtime : string) : bool :=
  bool_decide (runtime ∈ ["runc"; "gvisor"; "kata-qemu"; "kata-fc"; "kata-clh"]).

(** [if s == "" { s = d }]. *)
Definition orElse (s d : string) : string := if s ==? "" then d else s.

Definition set_Executor (v : option ExecutorConfig) (c : RunConfig) : RunConfig :=
  let 'mkRunConfig a b d e f _ g i j k l := c in mkRunConfig a b d e f v g i j k l.
Definition set_RunId (v : string) (c : RunConfig) : RunConfig :=
  let 'mkRunConfig _ b d e f x g i j k l := c in mkRunConfig v b d e f x g i j k l.
Definition set_Prompt (v : string) (c : RunConfig) : RunConfig :=
  let 'mkRunConfig a b _ e f x g i j k l := c in mkRunConfig a b v e f x g i j k l.
Definition set_TraceEmitter (v : option TraceEmitterConfig) (c : RunConfig) : RunConfig :=
  let 'mkRunConfig a b d e f x _ i j k l := c in mkRunConfig a b d e f x v i j k l.

Definition applyExecutorDefaults (cfg : RunConfig) (d : ExecutorDefaults) : RunConfig :=
  match rc_Executor cfg with
  | None => cfg
  | Some ex =>
      if negb (isK8sExecutor (ex_Type ex)) then cfg
      else
        set_Executor (Some (mkExecutorConfig (ex_Type ex) (ex_Workspace ex)
          (orElse (ex_Image ex) (ed_Image d)) (ex_Network ex)
          (orElse (ex_Runtime ex) (ed_Runtime d))
          (orElse (ex_K8SNamespace ex) (ed_Namespace d))
          (orElse (ex_K8SServiceAccount ex) (ed_ServiceAccount d))
          (ex_K8SEgressProxyUrl ex) (ex_SandboxIdentity ex) (ex_Rest ex))) cfg
  end.

(** [validateExecutor], of a non-nil executor: its caller has checked the type. *)
Definition validateExecutor (ex : ExecutorConfig) : option error :=
  if negb (isK8sExecutor (ex_Type ex)) then None
  else
    let kind := ex_Type ex in
    if ex_Image ex ==? "" then
      Some (invalid ("executor.image is required for executor.type=" +:+ Quote kind
        +:+ " and no sandbox image default is configured"))
    else if ex_K8SNamespace ex ==? "" then
      Some (invalid ("executor.k8sNamespace is required for executor.type=" +:+ Quote kind
        +:+ " and no sandbox namespace default is configured"))
    else if ex_Workspace ex !=? "" then
      Some (invalid ("executor.workspace is not valid for executor.type=" +:+ Quote kind
        +:+ " (the Pod workspace is fixed at /workspace)"))
    else
      let runtime := ex_Runtime ex in
      let badRuntime :=
        if kind ==? "k8s-sandbox" then
          if (runtime !=? "") && (runtime !=? "gvisor") then
            Some (invalid ("executor.runtime must be " +:+ Quote "gvisor"
              +:+ " or empty for executor.type=" +:+ Quote kind +:+ ", got " +:+ Quote runtime))
          else None
        else if (runtime !=? "") && negb (validK8sRuntime runtime) then
          Some (invalid ("unsupported executor.runtime " +:+ Quote runtime
            +:+ " for executor.type=" +:+ Quote kind))
        else None in
      match badRuntime with
      | Some e => Some e
      | None =>
          match ex_Network ex with
          | None =>
              Some (invalid ("executor.network is required for executor.type=" +:+ Quote kind
                +:+ " (set mode to " +:+ Quote "none" +:+ " or " +:+ Quote "allowlist" +:+ ")"))
          | Some net =>
              if nc_Mode net ==? "allowlist" then
                if ex_K8SEgressProxyUrl ex ==? "" then
                  Some (invalid ("executor.k8sEgressProxyUrl is required when executor.network.mode is "
                    +:+ Quote "allowlist"))
                else None
              else if nc_Mode net ==? "none" then
                if ex_K8SEgressProxyUrl ex !=? "" then
                  Some (invalid ("executor.k8sEgressProxyUrl is only valid when executor.network.mode is "
                    +:+ Quote "allowlist"))
                else None
              else
                Some (invalid ("executor.network.mode must be " +:+ Quote "none" +:+ " or "
                  +:+ Quote "allowlist" +:+ ", got " +:+ Quote (nc_Mode net)))
          end
      end.

(** ** Tools and trace emitter *)

(** [secs] is an [int32], so the product stays within [int64]. *)
Fixpoint validateControlPlaneTools (tools : list ControlPlaneToolConfig) (memoryEnabled : bool)
  : option error :=
  match tools with
  | [] => None
  | t :: tools' =>
      let name := ct_Name t in
      if negb (IsMemoryTool name) then
        Some (invalid ("hairpin does not fulfil control-plane tool " +:+ Quote name
          +:+ "; only " +:+ ToolSearch +:+ " and " +:+ ToolSave +:+ " are supported"))
      else if negb memoryEnabled then
        Some (invalid ("control-plane tool " +:+ Quote name
          +:+ " needs a memory backend, but hairpin was started without -billet-addr"))
      else
        let secs := ct_TimeoutSeconds t in
        if negb (secs =? 0)%Z && (wrap64 (secs * Second) <? CallTimeout)%Z then
          Some (invalid ("control-plane tool " +:+ Quote name +:+ " sets timeoutSeconds="
            +:+ pretty secs +:+ ", shorter than hairpin's 10s memory call timeout"))
        else validateControlPlaneTools tools' memoryEnabled
  end.

Definition applyTraceEmitterDefault (cfg : RunConfig) (endpoint : string) : RunConfig :=
  if (endpoint ==? "") || bool_decide (is_Some (rc_TraceEmitter cfg)) then cfg
  else set_TraceEmitter (Some (mkTraceEmitterConfig "otel" endpoint "")) cfg.

(** ** Preflight *)

Definition validateRunConfig (cfg : RunConfig) : option error :=
  if rc_Prompt cfg ==? "" then Some (invalid "prompt is required")
  else if rc_Mode cfg ==? "" then
    Some (invalid "run config mode is required (execution, planning, review, research, toil)")
  else if (GetProviderType cfg ==? "") && bool_decide (rc_Providers cfg = []) then
    Some (invalid "run config needs provider.type or a providers map")
  else if (rc_MaxTurns cfg <? 1)%Z || (100 <? rc_MaxTurns cfg)%Z then
    Some (invalid ("run config max_turns must be 1-100, got " +:+ pretty (rc_MaxTurns cfg)))
  else
    match rc_Timeout cfg with
    | None => Some (invalid "run config timeout is required")
    | Some t =>
        if (t <? 1)%Z || (3600 <? t)%Z then
          Some (invalid ("run config timeout must be 1-3600 seconds, got " +:+ pretty t))
        else
          match rc_Executor cfg with
          | None => Some (invalid "run config executor.type is required (local, container, k8s, k8s-sandbox, api, none)")
          | Some ex =>
              if ex_Type ex ==? "" then
                Some (invalid "run config executor.type is required (local, container, k8s, k8s-sandbox, api, none)")
              else validateExecutor ex
          end
    end.

Definition maxRepoScopeEntries : nat := 32.
Definition maxRepoScopeEntryBytes : nat := 256.

Fixpoint validateRepoEntries (scope : list string) : option error :=
  match scope with
  | [] => None
  | entry :: scope' =>
      if entry ==? "" then Some (invalid "repo_scope entries must not be empty")
      else if maxRepoScopeEntryBytes <? len entry then
        Some (invalid ("repo_scope entry of " +:+ pretty (len entry) +:+ " bytes exceeds the "
          +:+ pretty maxRepoScopeEntryBytes +:+ " byte limit"))
      else if existsb (λ r, isSpace r || negb (IsPrint r)) (runes entry) then
        Some (invalid ("repo_scope entry " +:+ Quote entry
          +:+ " must not contain whitespace or control characters"))
      else validateRepoEntries scope'
  end.

Definition validateRepoScope (scope : list string) : option error :=
  if maxRepoScopeEntries <? length scope then
    Some (invalid ("repo_scope has " +:+ pretty (length scope) +:+ " entries, max "
      +:+ pretty maxRepoScopeEntries))
  else validateRepoEntries scope.

(** ** Choosing the config *)

Record SubmitParams := mkSubmitParams {
  sub_Prompt : string;
  sub_Profile : string;
  sub_RunConfigJSON : string;
  sub_RepoScope : list string;
}.

Definition resolveConfig (profiles : Profiles) (p : SubmitParams) : res (RunConfig * string) :=
  if sub_RunConfigJSON p !=? "" then
    if sub_Profile p !=? "" then
      Err (invalid "profile and run_config_json are mutually exclusive")
    else
      match UnmarshalRunConfig false (sub_RunConfigJSON p) with
      | Err e => Err (invalid ("parse run_config_json: " +:+ Error e))
      | Ok cfg => Ok (cfg, "")
      end
  else
    let name := if sub_Profile p ==? "" then Default profiles else sub_Profile p in
    if name ==? "" then
      Err (invalid "no profile given and no default profile configured; supply run_config_json")
    else
      match Get profiles name with
      | None => Err (invalid ("unknown profile " +:+ Quote name +:+ " (have "
          +:+ formatList (Names profiles) +:+ ")"))
      | Some cfg => Ok (cfg, name)
      end.

End runconfigs.
