(* ===== verification/RunConfigFacts.v ===== *)
(** * What a submission must satisfy

    Declarative readings of the preflight checks and of the server's defaults, and
    the equivalence of the checks with them. *)

From stdpp Require Import base gmap list strings.
From S2P Require Import Prelude Utf8 Fmt Proto Memory RunConfigs.

Section facts.
Context `{UnicodeTables}.

(** ** Declarative readings *)

(** A runtime class the executor type supports; empty is the cluster's default. *)
Definition runtimeOk (kind runtime : string) : Prop :=
  runtime = ""
  ∨ (kind = "k8s-sandbox" ∧ runtime = "gvisor")
  ∨ (kind ≠ "k8s-sandbox" ∧ runtime ∈ ["runc"; "gvisor"; "kata-qemu"; "kata-fc"; "kata-clh"]).

(** The network mode and the egress proxy agree. *)
Definition networkOk (net : option NetworkConfig) (proxy : string) : Prop :=
  ∃ n, net = Some n
    ∧ ((nc_Mode n = "allowlist" ∧ proxy ≠ "") ∨ (nc_Mode n = "none" ∧ proxy = "")).

Definition executorOk (ex : ExecutorConfig) : Prop :=
  (ex_Type ex = "k8s" ∨ ex_Type ex = "k8s-sandbox") →
  ex_Image ex ≠ "" ∧ ex_K8SNamespace ex ≠ "" ∧ ex_Workspace ex = ""
  ∧ runtimeOk (ex_Type ex) (ex_Runtime ex)
  ∧ networkOk (ex_Network ex) (ex_K8SEgressProxyUrl ex).

Definition acceptable (cfg : RunConfig) : Prop :=
  rc_Prompt cfg ≠ "" ∧ rc_Mode cfg ≠ ""
  ∧ (GetProviderType cfg ≠ "" ∨ rc_Providers cfg ≠ [])
  ∧ (1 ≤ rc_MaxTurns cfg ≤ 100)%Z
  ∧ (∃ t, rc_Timeout cfg = Some t ∧ (1 ≤ t ≤ 3600)%Z)
  ∧ ∃ ex, rc_Executor cfg = Some ex ∧ ex_Type ex ≠ "" ∧ executorOk ex.

Definition repoEntryOk (entry : string) : Prop :=
  entry ≠ "" ∧ len entry ≤ maxRepoScopeEntryBytes
  ∧ Forall (λ r, isSpace r = false ∧ IsPrint r = true) (runes entry).

Definition toolOk (memoryEnabled : bool) (t : ControlPlaneToolConfig) : Prop :=
  ct_Name t ∈ ["search_memory"; "save_memory"] ∧ memoryEnabled = true
  ∧ (ct_TimeoutSeconds t = 0%Z ∨ (10 ≤ ct_TimeoutSeconds t)%Z).

(** ** The checks decide them *)

Lemma isK8sExecutor_spec t : isK8sExecutor t = true ↔ t = "k8s" ∨ t = "k8s-sandbox".
Proof. unfold isK8sExecutor. rewrite orb_true_iff, !bool_decide_eq_true. done. Qed.

Lemma validateExecutor_spec ex : validateExecutor ex = None ↔ executorOk ex.
Proof.
  unfold validateExecutor, executorOk, runtimeOk, networkOk. rewrite <-isK8sExecutor_spec.
  destruct (isK8sExecutor (ex_Type ex)) eqn:Hk; cbn [negb]; [|naive_solver].
  destruct (ex_Image ex ==? "") eqn:E1; boolify; [naive_solver|].
  destruct (ex_K8SNamespace ex ==? "") eqn:E2; boolify; [naive_solver|].
  destruct (ex_Workspace ex !=? "") eqn:E3; boolify; [naive_solver|].
  assert (∀ (X : Type) (b : option error) (k : X) (P Q : Prop) (f : option error),
    (b = None ↔ P) → (f = None ↔ Q) →
    (match b with Some e => Some e | None => f end = None ↔ P ∧ Q)) as Hseq.
  { intros X [e|] k P Q f HP HQ; naive_solver. }
  rewrite (Hseq unit _ tt
    (ex_Runtime ex = "" ∨ (ex_Type ex = "k8s-sandbox" ∧ ex_Runtime ex = "gvisor")
     ∨ (ex_Type ex ≠ "k8s-sandbox"
        ∧ ex_Runtime ex ∈ ["runc"; "gvisor"; "kata-qemu"; "kata-fc"; "kata-clh"]))
    (∃ n, ex_Network ex = Some n
      ∧ ((nc_Mode n = "allowlist" ∧ ex_K8SEgressProxyUrl ex ≠ "")
         ∨ (nc_Mode n = "none" ∧ ex_K8SEgressProxyUrl ex = "")))).
  - naive_solver.
  - unfold validK8sRuntime. repeat case_bool_decide; cbn [negb andb]; naive_solver.
  - destruct (ex_Network ex) as [n|]; [|split; [done|by intros (? & [=] & _)]].
    split; [intros Hv; exists n; split; [done|]|intros (? & [= <-] & Hn)];
      repeat case_bool_decide; cbn [negb] in *; simplify_eq; intuition congruence.
Qed.

Lemma validateRunConfig_spec cfg : validateRunConfig cfg = None ↔ acceptable cfg.
Proof.
  unfold validateRunConfig, acceptable.
  destruct (rc_Prompt cfg ==? "") eqn:E1; boolify; [naive_solver|].
  destruct (rc_Mode cfg ==? "") eqn:E2; boolify; [naive_solver|].
  destruct ((GetProviderType cfg ==? "") && _) eqn:E3; boolify; [naive_solver|].
  apply andb_false_iff in E3. rewrite !bool_decide_eq_false in E3.
  destruct ((_ <? 1)%Z || _) eqn:E4.
  { apply orb_true_iff in E4. rewrite !Z.ltb_lt in E4. split; [done|]. intros. lia. }
  boolify. destruct (rc_Timeout cfg) as [t|]; [|naive_solver].
  destruct ((t <? 1)%Z || _) eqn:E5.
  { apply orb_true_iff in E5. rewrite !Z.ltb_lt in E5. split; [done|]. naive_solver lia. }
  boolify. destruct (rc_Executor cfg) as [ex|]; [|naive_solver].
  destruct (ex_Type ex ==? "") eqn:E6; boolify; [naive_solver|].
  rewrite validateExecutor_spec. split; [|naive_solver]. naive_solver lia.
Qed.

Lemma validateRepoEntries_spec scope : validateRepoEntries scope = None ↔ Forall repoEntryOk scope.
Proof.
  induction scope as [|entry scope IH]; cbn [validateRepoEntries]; [split; intros; [constructor|done]|].
  rewrite Forall_cons. unfold repoEntryOk at 1.
  destruct (entry ==? "") eqn:E1; boolify; [naive_solver|].
  destruct (maxRepoScopeEntryBytes <? len entry) eqn:E2.
  { apply Nat.ltb_lt in E2. split; [done|]. intros [(?&?&?) _]. lia. }
  apply Nat.ltb_ge in E2. destruct (existsb _ _) eqn:E3.
  - split; [done|]. intros [(_ & _ & Hf) _]. apply List.existsb_exists in E3 as (r & Hin & Hr).
    rewrite Forall_forall in Hf. apply orb_true_iff in Hr.
    destruct (Hf r) as [H1 H2]; [by apply list_elem_of_In|]. rewrite H1, H2 in Hr. naive_solver.
  - rewrite IH. split; [|naive_solver]. intros Hs. split_and!; try done.
    apply Forall_forall. intros r Hin. apply list_elem_of_In in Hin.
    destruct (isSpace r || negb (IsPrint r)) eqn:Hr.
    + exfalso. assert (existsb (λ r, isSpace r || negb (IsPrint r)) (runes entry) = true)
        by (apply List.existsb_exists; by exists r). congruence.
    + apply orb_false_iff in Hr as [? Hp]. by apply negb_false_iff in Hp.
Qed.

Lemma validateRepoScope_spec scope :
  validateRepoScope scope = None ↔ length scope ≤ maxRepoScopeEntries ∧ Forall repoEntryOk scope.
Proof.
  unfold validateRepoScope. destruct (Nat.ltb_spec maxRepoScopeEntries (length scope)).
  - split; [done|]. lia.
  - rewrite validateRepoEntries_spec. naive_solver lia.
Qed.

Lemma IsMemoryTool_spec name : IsMemoryTool name = true ↔ name ∈ ["search_memory"; "save_memory"].
Proof.
  unfold IsMemoryTool. rewrite orb_true_iff, !bool_decide_eq_true, !elem_of_cons, elem_of_nil.
  naive_solver.
Qed.

(** An [int32] of seconds as a duration does not wrap. *)
Lemma seconds_no_wrap t : (- 2 ^ 31 ≤ t < 2 ^ 31)%Z → wrap64 (t * Second) = (t * Second)%Z.
Proof. intros. apply wrap64_id. unfold minInt64, maxInt64, Second. lia. Qed.

Lemma validateControlPlaneTools_spec tools memoryEnabled :
  Forall (λ t, (- 2 ^ 31 ≤ ct_TimeoutSeconds t < 2 ^ 31)%Z) tools →
  validateControlPlaneTools tools memoryEnabled = None ↔ Forall (toolOk memoryEnabled) tools.
Proof.
  induction 1 as [|t tools Ht _ IH]; cbn; [split; intros; [constructor|done]|].
  rewrite Forall_cons, <-IH. unfold toolOk at 1. rewrite seconds_no_wrap, <-IsMemoryTool_spec by done.
  destruct (IsMemoryTool (ct_Name t)); cbn [negb]; [|naive_solver].
  destruct memoryEnabled; cbn [negb]; [|naive_solver].
  destruct (Z.eqb_spec (ct_TimeoutSeconds t) 0) as [->|Hne]; cbn [negb andb]; [naive_solver|].
  unfold CallTimeout, Second.
  destruct (Z.ltb_spec (ct_TimeoutSeconds t * 1000000000) (10 * 1000000000)); naive_solver lia.
Qed.

(** ** Properties *)

(** Every refusal is the caller's fault. *)
Lemma validateRunConfig_invalid cfg e :
  validateRunConfig cfg = Some e → errorsIs e ErrInvalidArgument = true.
Proof. unfold validateRunConfig, validateExecutor. intros Hv. by repeat case_match; simplify_eq. Qed.

Lemma validateControlPlaneTools_invalid tools memoryEnabled e :
  validateControlPlaneTools tools memoryEnabled = Some e → errorsIs e ErrInvalidArgument = true.
Proof. induction tools; cbn; intros Hv; repeat case_match; simplify_eq; auto. Qed.

(** C33. The two preflight checks of a run config decide the documented rules: they pass
    exactly the configs with a prompt, a mode, a provider, 1 to 100 turns, a timeout
    of 1 to 3600 seconds and an explicit executor type, and, for a sandbox executor,
    an image, a namespace, no workspace, a supported runtime and a network mode that
    agrees with the egress proxy; whose control-plane tools, if any, are the two memory
    tools, hairpin has a memory backend for them, and none sets a timeout shorter than
    the ten seconds of a memory call. Every other config is refused as an invalid
    argument. The timeouts of tools are [int32]s. *)
Theorem preflight_decides_acceptable (cfg : RunConfig) (memoryEnabled : bool)
  (Hint32 : Forall (λ t, (- 2 ^ 31 ≤ ct_TimeoutSeconds t < 2 ^ 31)%Z) (GetControlPlane cfg)) :
  (validateRunConfig cfg = None ∧ validateControlPlaneTools (GetControlPlane cfg) memoryEnabled = None
   ↔ acceptable cfg ∧ Forall (toolOk memoryEnabled) (GetControlPlane cfg))
  ∧ ∀ e, validateRunConfig cfg = Some e
         ∨ validateControlPlaneTools (GetControlPlane cfg) memoryEnabled = Some e →
      errorsIs e ErrInvalidArgument = true.
Proof.
  split.
  - by rewrite validateRunConfig_spec, validateControlPlaneTools_spec.
  - intros e [He|He]; [by eapply validateRunConfig_invalid|by eapply validateControlPlaneTools_invalid].
Qed.

(** The repo-scope check passes exactly the lists of at most 32 entries that are
    each non-empty, at most 256 bytes long and made of printable runes with no white
    space, so nothing else is ever minted into a token. *)
Theorem repo_scope_decided (scope : list string) :
  validateRepoScope scope = None ↔ length scope ≤ maxRepoScopeEntries ∧ Forall repoEntryOk scope.
Proof. apply validateRepoScope_spec. Qed.

(** The server's executor defaults fill gaps and nothing else: a field the caller
    set is kept, an unset field of a sandbox executor takes the server's value, an
    executor of another type is left alone, and applying the defaults twice changes
    nothing more. *)
Theorem executor_defaults_fill_gaps (cfg : RunConfig) (d : ExecutorDefaults) :
  applyExecutorDefaults (applyExecutorDefaults cfg d) d = applyExecutorDefaults cfg d
  ∧ match rc_Executor cfg, rc_Executor (applyExecutorDefaults cfg d) with
    | Some ex, Some ex' =>
        ex_Type ex' = ex_Type ex
        ∧ (isK8sExecutor (ex_Type ex) = false → ex' = ex)
        ∧ (isK8sExecutor (ex_Type ex) = true →
           ex_Image ex' = (if ex_Image ex ==? "" then ed_Image d else ex_Image ex)
           ∧ ex_K8SNamespace ex'
             = (if ex_K8SNamespace ex ==? "" then ed_Namespace d else ex_K8SNamespace ex)
           ∧ ex_K8SServiceAccount ex'
             = (if ex_K8SServiceAccount ex ==? "" then ed_ServiceAccount d
                else ex_K8SServiceAccount ex)
           ∧ ex_Runtime ex' = (if ex_Runtime ex ==? "" then ed_Runtime d else ex_Runtime ex))
    | None, None => True
    | _, _ => False
    end.
Proof.
  assert (∀ s dflt, orElse (orElse s dflt) dflt = orElse s dflt) as Hidem
    by (intros; unfold orElse; by repeat case_bool_decide).
  destruct cfg as [a b c e f [ex|] g i j k l]; [|done]. unfold applyExecutorDefaults. cbn.
  destruct (isK8sExecutor (ex_Type ex)) eqn:Hk; cbn; rewrite Hk; cbn; [|done].
  by rewrite !Hidem.
Qed.

End facts.

#[local] Existing Instance sample_tables.

(** A run in a sandbox, with both memory tools, one under the shortest timeout allowed. *)
Definition sandboxed_config : RunConfig :=
  mkRunConfig "j1" "execution" "tidy up" (Some (mkProviderConfig "anthropic" "")) []
    (Some (mkExecutorConfig "k8s-sandbox" "" "sandbox:1" (Some (mkNetworkConfig "none" [])) "gvisor"
       "agents" "" "" None "")) None
    (Some (mkToolsConfig [mkControlPlaneToolConfig "search_memory" "" 10 false "";
                          mkControlPlaneToolConfig "save_memory" "" 0 false ""] ""))
    50 (Some 600%Z) "".

Lemma preflight_decides_acceptable_witness :
  (validateRunConfig sandboxed_config = None
   ∧ validateControlPlaneTools (GetControlPlane sandboxed_config) true = None)
  ∧ (validateRunConfig sandboxed_config = None
     ∧ validateControlPlaneTools (GetControlPlane sandboxed_config) true = None
     ↔ acceptable sandboxed_config ∧ Forall (toolOk true) (GetControlPlane sandboxed_config))
  ∧ ∀ e, validateRunConfig sandboxed_config = Some e
         ∨ validateControlPlaneTools (GetControlPlane sandboxed_config) true = Some e →
      errorsIs e ErrInvalidArgument = true.
Proof.
  split; [split; vm_compute; reflexivity|].
  apply (preflight_decides_acceptable sandboxed_config true).
  repeat constructor; vm_compute; done.
Defined.
