(* ===== verification/Config.v ===== *)
(** * Server configuration ([src/internal/config/config.go],
    [src/internal/telemetry/telemetry.go])

    What [cmd/hairpin] fills in from flags and the environment, and the checks a
    configuration must pass before anything is started. *)

From stdpp Require Import base gmap list strings pretty.
From Stdlib Require Import SpecFloat Ascii.
From S2P Require Import Prelude Float Fmt Utf8 Net RunConfigs.

(** [telemetry.Options]. *)
Record Options := mkOptions {
  to_Exporter : string;
  to_Protocol : string;
  to_Endpoint : string;
  to_SampleRatio : spec_float;
  to_ServiceName : string;
  to_MetricInterval : Duration;
}.

Record SandboxTokenConfig := mkSandboxTokenConfig {
  st_KeyPath : string;
  st_Issuer : string;
  st_Audience : string;
  st_TTL : Duration;
}.

Record HarnessConfig := mkHarnessConfig {
  hc_Namespace : string;
  hc_Image : string;
  hc_Kubeconfig : string;
  hc_ServiceAccount : string;
  hc_EnvFromSecrets : list string;
  hc_TTLSecondsAfterFinished : Z;
  hc_ActiveDeadlineSlack : Duration;
  hc_Labels : gmap string string;
}.

Record Config := mkConfig {
  c_ListenAddr : string;
  c_AdvertiseAddr : string;
  c_RedisAddr : string;
  c_RedisPassword : string;
  c_RedisDB : Z;
  c_BilletAddr : string;
  c_Launcher : string;
  c_ProfilesDir : string;
  c_DefaultProfile : string;
  c_Retention : Duration;
  c_Harness : HarnessConfig;
  c_Sandbox : ExecutorDefaults;
  c_Telemetry : Options;
  c_HarnessTelemetryEndpoint : string;
  c_SandboxToken : SandboxTokenConfig;
}.

(** [c.Sandbox.Namespace = v]. *)
Definition set_SandboxNamespace (v : string) (c : Config) : Config :=
  let d := c_Sandbox c in
  mkConfig (c_ListenAddr c) (c_AdvertiseAddr c) (c_RedisAddr c) (c_RedisPassword c) (c_RedisDB c)
    (c_BilletAddr c) (c_Launcher c) (c_ProfilesDir c) (c_DefaultProfile c) (c_Retention c)
    (c_Harness c) (mkExecutorDefaults (ed_Image d) v (ed_ServiceAccount d) (ed_Runtime d))
    (c_Telemetry c) (c_HarnessTelemetryEndpoint c) (c_SandboxToken c).

Definition ExporterNone : string := "none".
Definition ExporterOTLP : string := "otlp".
Definition ExporterStdout : string := "stdout".
Definition ProtocolGRPC : string := "grpc".
Definition ProtocolHTTP : string := "http/protobuf".

(** [o.Enabled()]. *)
Definition Enabled (o : Options) : bool :=
  (to_Exporter o !=? "") && (to_Exporter o !=? ExporterNone).

Section validate.
Context `{UnicodeTables}.

(** [%v] of a [float64], in one error message. *)
Variable formatFloat : spec_float → string.

Definition validateHostPort (label addr : string) : option error :=
  if addr ==? "" then None
  else
    match SplitHostPort addr with
    | Err e => Some (wrapf (label +:+ " must be host:port") e)
    | Ok (host, port) =>
        if (host ==? "") || (port ==? "") then
          Some (ErrNew (label +:+ " must be host:port, got " +:+ Quote addr))
        else
          match Atoi port with
          | Some n =>
              if (n <? 1)%Z || (65535 <? n)%Z then
                Some (ErrNew (label +:+ " port must be a number between 1 and 65535, got " +:+ Quote port))
              else None
          | None =>
              Some (ErrNew (label +:+ " port must be a number between 1 and 65535, got " +:+ Quote port))
          end
    end.

(** [o.Validate()] of the telemetry options. *)
Definition validateOptions (o : Options) : option error :=
  let e := to_Exporter o in
  if negb ((e ==? "") || (e ==? ExporterNone) || (e ==? ExporterOTLP) || (e ==? ExporterStdout)) then
    Some (ErrNew ("unknown telemetry exporter " +:+ Quote e +:+ " (want none, otlp, or stdout)"))
  else
    let p := to_Protocol o in
    if negb ((p ==? "") || (p ==? ProtocolGRPC) || (p ==? ProtocolHTTP)) then
      Some (ErrNew ("unknown telemetry protocol " +:+ Quote p +:+ " (want "
        +:+ ProtocolGRPC +:+ " or " +:+ ProtocolHTTP +:+ ")"))
    else if SFltb (to_SampleRatio o) (ofInt 0) || SFltb (ofInt 1) (to_SampleRatio o) then
      Some (ErrNew ("telemetry sample ratio must be between 0 and 1, got "
        +:+ formatFloat (to_SampleRatio o)))
    else if (to_MetricInterval o <? 0)%Z then
      Some (ErrNew "telemetry metric interval must be non-negative")
    else None.

(** The launcher's requirements. *)
Definition validateLauncher (c : Config) : option error :=
  if c_Launcher c ==? "kubernetes" then
    if hc_Namespace (c_Harness c) ==? "" then Some (ErrNew "kubernetes launcher requires a namespace")
    else if hc_Image (c_Harness c) ==? "" then
      Some (ErrNew "kubernetes launcher requires a harness image")
    else None
  else if c_Launcher c ==? "none" then None
  else Some (ErrNew ("unknown launcher " +:+ Quote (c_Launcher c) +:+ " (want kubernetes or none)")).

(** The token settings stand or fall together. *)
Definition validateSandboxToken (t : SandboxTokenConfig) : option error :=
  if (st_KeyPath t ==? "") && ((st_Issuer t !=? "") || (st_Audience t !=? "")) then
    Some (ErrNew "sandbox-token-issuer and sandbox-token-audience have no effect without sandbox-token-key")
  else if st_KeyPath t !=? "" then
    if st_Issuer t ==? "" then
      Some (ErrNew "sandbox-token-issuer is required when sandbox-token-key is set")
    else if st_Audience t ==? "" then
      Some (ErrNew "sandbox-token-audience is required when sandbox-token-key is set")
    else if (st_TTL t <=? 0)%Z then Some (ErrNew "sandbox-token-ttl must be positive")
    else None
  else None.

Definition knownRuntime (r : string) : bool :=
  (r ==? "") || (r ==? "runc") || (r ==? "gvisor") || (r ==? "kata-qemu") || (r ==? "kata-fc")
  || (r ==? "kata-clh").

(** [c.Validate()]: the error, and the configuration as it leaves it; the sandbox
    namespace is defaulted before the last checks. *)
Definition Validate (c : Config) : Config * option error :=
  if c_ListenAddr c ==? "" then (c, Some (ErrNew "listen address is required"))
  else if c_AdvertiseAddr c ==? "" then
    (c, Some (ErrNew "advertise address is required (harnesses must know where to dial back)"))
  else
    match validateHostPort "billet address" (c_BilletAddr c) with
    | Some e => (c, Some e)
    | None =>
    match validateHostPort "harness telemetry endpoint" (c_HarnessTelemetryEndpoint c) with
    | Some e => (c, Some e)
    | None =>
      if (c_RedisDB c <? 0)%Z then (c, Some (ErrNew "redis database number must be non-negative"))
      else if (hc_TTLSecondsAfterFinished (c_Harness c) <? 0)%Z then
        (c, Some (ErrNew "job TTL must be non-negative"))
      else if (hc_ActiveDeadlineSlack (c_Harness c) <? 0)%Z then
        (c, Some (ErrNew "deadline slack must be non-negative"))
      else
        match validateOptions (c_Telemetry c) with
        | Some e => (c, Some e)
        | None =>
          if negb (knownRuntime (ed_Runtime (c_Sandbox c))) then
            (c, Some (ErrNew ("unknown sandbox runtime " +:+ Quote (ed_Runtime (c_Sandbox c)))))
          else
            match validateLauncher c with
            | Some e => (c, Some e)
            | None =>
              let c := if ed_Namespace (c_Sandbox c) ==? ""
                       then set_SandboxNamespace (hc_Namespace (c_Harness c)) c else c in
              (c, validateSandboxToken (c_SandboxToken c))
            end
        end
    end
    end.

(** ** What a server can be started with *)

(** An address is absent, or names a host and a port in range. *)
Definition hostPortOk (addr : string) : Prop :=
  addr = "" ∨ ∃ host port n, joins addr host port ∧ host ≠ "" ∧ Atoi port = Some n ∧ (1 ≤ n ≤ 65535)%Z.

Definition optionsOk (o : Options) : Prop :=
  to_Exporter o ∈ [""; "none"; "otlp"; "stdout"] ∧ to_Protocol o ∈ [""; "grpc"; "http/protobuf"]
  ∧ SFltb (to_SampleRatio o) (ofInt 0) = false ∧ SFltb (ofInt 1) (to_SampleRatio o) = false
  ∧ (0 ≤ to_MetricInterval o)%Z.

Definition tokenOk (t : SandboxTokenConfig) : Prop :=
  if st_KeyPath t ==? "" then st_Issuer t = "" ∧ st_Audience t = ""
  else st_Issuer t ≠ "" ∧ st_Audience t ≠ "" ∧ (0 < st_TTL t)%Z.

Definition servable (c : Config) : Prop :=
  c_ListenAddr c ≠ "" ∧ c_AdvertiseAddr c ≠ ""
  ∧ hostPortOk (c_BilletAddr c) ∧ hostPortOk (c_HarnessTelemetryEndpoint c)
  ∧ (0 ≤ c_RedisDB c)%Z ∧ (0 ≤ hc_TTLSecondsAfterFinished (c_Harness c))%Z
  ∧ (0 ≤ hc_ActiveDeadlineSlack (c_Harness c))%Z
  ∧ optionsOk (c_Telemetry c)
  ∧ ed_Runtime (c_Sandbox c) ∈ [""; "runc"; "gvisor"; "kata-qemu"; "kata-fc"; "kata-clh"]
  ∧ (c_Launcher c = "none"
     ∨ c_Launcher c = "kubernetes" ∧ hc_Namespace (c_Harness c) ≠ "" ∧ hc_Image (c_Harness c) ≠ "")
  ∧ tokenOk (c_SandboxToken c).

Lemma lacks_Atoi_nonempty port n : Atoi port = Some n → port ≠ "".
Proof. by intros H1 ->. Qed.

Lemma validateHostPort_spec label addr : validateHostPort label addr = None ↔ hostPortOk addr.
Proof.
  unfold validateHostPort, hostPortOk. case_bool_decide as Ha; [naive_solver|].
  assert (∀ host port, joins addr host port ↔ SplitHostPort addr = Ok (host, port)) as Hj
    by (intros; symmetry; apply SplitHostPort_Ok).
  destruct (SplitHostPort addr) as [[host port]|e]; cycle 1.
  { split; [done|]. intros [?|(? & ? & ? & ?%Hj & _)]; done. }
  split.
  - intros Hv. right. exists host, port. destruct (Atoi port) as [n|]; [|by destruct (_ || _)].
    exists n. rewrite Hj. split_cases. boolify. split_and!; try done; lia.
  - intros [?|(h & q & n & [= <- <-]%Hj & Hh & Hn & Hr)]; [done|].
    rewrite bool_decide_eq_false_2 by done.
    rewrite bool_decide_eq_false_2 by (by eapply lacks_Atoi_nonempty). cbn [orb]. rewrite Hn.
    rewrite (proj2 (orb_false_iff _ _)); [done|]. split; apply Z.ltb_ge; lia.
Qed.

(** [switch v { case l: default: return err }]. *)
Lemma negb_or_elem (v : string) (b : bool) (l : list string) :
  (b = true ↔ v ∈ l) → negb b = false ↔ v ∈ l.
Proof. by rewrite negb_false_iff. Qed.

Lemma validateOptions_spec o : validateOptions o = None ↔ optionsOk o.
Proof.
  unfold validateOptions, optionsOk. cbn zeta. rewrite !guard_None, orb_false_iff, Z.ltb_ge.
  rewrite (negb_or_elem (to_Exporter o) _ [""; "none"; "otlp"; "stdout"]).
  - rewrite (negb_or_elem (to_Protocol o) _ [""; "grpc"; "http/protobuf"]); [tauto|].
    rewrite !orb_true_iff, !bool_decide_eq_true, !elem_of_cons, elem_of_nil. tauto.
  - rewrite !orb_true_iff, !bool_decide_eq_true, !elem_of_cons, elem_of_nil. tauto.
Qed.

Lemma validateSandboxToken_spec t : validateSandboxToken t = None ↔ tokenOk t.
Proof.
  unfold validateSandboxToken, tokenOk. case_bool_decide; cbn [andb negb].
  - rewrite guard_None, orb_false_iff, !negb_false_iff, !bool_decide_eq_true. tauto.
  - rewrite !guard_None, !bool_decide_eq_false, Z.leb_gt. tauto.
Qed.

Lemma validateLauncher_spec c :
  validateLauncher c = None ↔
  c_Launcher c = "none"
  ∨ c_Launcher c = "kubernetes" ∧ hc_Namespace (c_Harness c) ≠ "" ∧ hc_Image (c_Harness c) ≠ "".
Proof.
  unfold validateLauncher. case_bool_decide as Hk; [rewrite Hk|].
  - rewrite !guard_None, !bool_decide_eq_false. split; [tauto|]. intros [|]; [done|tauto].
  - case_bool_decide; [tauto|]. split; [done|]. intros [|[? _]]; done.
Qed.

Lemma knownRuntime_spec r :
  knownRuntime r = true ↔ r ∈ [""; "runc"; "gvisor"; "kata-qemu"; "kata-fc"; "kata-clh"].
Proof.
  unfold knownRuntime. rewrite !orb_true_iff, !bool_decide_eq_true, !elem_of_cons, elem_of_nil. tauto.
Qed.

(** A check that fails: an error, and not servable. *)
Ltac refused := cbn; split; [split; [done|intros; destruct_and!; (done || lia)]|done].

(** [Validate] decides which configurations can serve: it reports no error exactly when the
    addresses, numbers, telemetry options, sandbox runtime, launcher and token settings
    are all acceptable, and then the only change it makes is to give the sandbox the
    harness namespace when it had none. *)
Lemma Validate_decides_servable (c : Config) :
  (snd (Validate c) = None ↔ servable c)
  ∧ (snd (Validate c) = None →
     fst (Validate c) = if ed_Namespace (c_Sandbox c) ==? ""
                        then set_SandboxNamespace (hc_Namespace (c_Harness c)) c else c).
Proof.
  unfold Validate, servable.
  rewrite <-!(validateHostPort_spec "billet address" (c_BilletAddr c)).
  rewrite <-(validateHostPort_spec "harness telemetry endpoint" (c_HarnessTelemetryEndpoint c)).
  rewrite <-validateOptions_spec, <-knownRuntime_spec, <-validateLauncher_spec,
    <-validateSandboxToken_spec.
  assert (∀ ns, c_SandboxToken (set_SandboxNamespace ns c) = c_SandboxToken c) as Htok by done.
  do 2 (case_bool_decide; [refused|]). do 2 (case_match; [refused|]).
  do 3 (case_match; boolify; [refused|]). case_match; [refused|].
  destruct (knownRuntime _); cbn [negb]; [|refused]. case_match; [refused|].
  cbn zeta. case_bool_decide; cbn [fst snd]; rewrite ?Htok; split; try done; split;
    intros; split_and?; destruct_and?; done.
Qed.

End validate.

(** A ratio that is not a number passes the range check, whose two comparisons are
    both false of it. *)
Example nan_ratio_accepted `{UnicodeTables} (formatFloat : spec_float → string) :
  validateOptions formatFloat (mkOptions ExporterOTLP ProtocolGRPC "" S754_nan "" 0) = None.
Proof. reflexivity. Qed.
