(* ===== verification/Launcher.v ===== *)
(** * Launching harnesses ([src/internal/launcher/launcher.go], [k8s.go])

    [K8s.Launch] builds one [batch/v1] Job per hairpin job and hands it to the API
    server.  The object is modelled by the fields the code sets; the API server is
    the parameter [create], whose failures may say that the object already exists. *)

From stdpp Require Import base gmap list strings.
From S2P Require Import Prelude Float Fmt Job Proto Config.

(** The answer of the API server to a create. *)
Inductive createResult :=
  | Created
  | AlreadyExists
  | CreateFailed (e : error).

Record SecurityContext := mkSecurityContext {
  sc_AllowPrivilegeEscalation : bool;
  sc_ReadOnlyRootFilesystem : bool;
  sc_DropCapabilities : list string;
}.

(** Every key of a secret as a variable. *)
Inductive EnvFromSource := SecretRef (name : string).

Record Container := mkContainer {
  cn_Name : string;
  cn_Image : string;
  cn_Args : list string;
  cn_SecurityContext : SecurityContext;
  cn_VolumeMounts : list (string * string);      (** volume and mount path *)
  cn_Env : list (string * string);
  cn_EnvFrom : list EnvFromSource;
  cn_Requests : list (string * string);
}.

Record PodSpec := mkPodSpec {
  ps_RestartPolicy : string;
  ps_ServiceAccountName : string;
  ps_AutomountServiceAccountToken : bool;
  ps_RunAsNonRoot : bool;
  ps_SeccompProfile : string;
  ps_EmptyDirs : list string;
  ps_Containers : list Container;
}.

Record K8sJob := mkK8sJob {
  kj_Name : string;
  kj_Namespace : string;
  kj_Labels : gmap string string;
  kj_BackoffLimit : Z;
  kj_TTLSecondsAfterFinished : Z;
  kj_ActiveDeadlineSeconds : Z;
  kj_PodLabels : gmap string string;
  kj_Pod : PodSpec;
}.

(** [nil] and an empty list are the same sources. *)
Definition envFromSecrets (names : list string) : list EnvFromSource :=
  match names with
  | [] => []
  | _ => SecretRef <$> names
  end.

Definition fallbackTimeoutSeconds : Z := 3600.

Section launcher.
Context `{UnicodeTables} `{ProtoJSON}.

(** [K8s]: the harness configuration and the address harnesses dial back into. *)
Variables (cfg : HarnessConfig) (advertiseAddr : string).

(** Hairpin's own labels are applied after the operator's. *)
Definition jobLabels (jobID : string) : gmap string string :=
  <["hairpin.rxbynerd.dev/job-id" := jobID]>
    (<["app.kubernetes.io/managed-by" := "hairpin"]>
      (<["app.kubernetes.io/name" := "stirrup"]> (hc_Labels cfg))).

Definition runConfigTimeoutSeconds (runConfigJSON : string) : res Z :=
  if runConfigJSON ==? "" then Err (ErrNew "empty run config")
  else
    match UnmarshalRunConfig false runConfigJSON with
    | Err e => Err (wrapf "unmarshal run config" e)
    | Ok rc =>
        match rc_Timeout rc with
        | None => Err (ErrNew "run config has no timeout")
        | Some t => Ok t
        end
    end.

Definition activeDeadlineSeconds (j : Job) : Z :=
  let slackSeconds := truncate (Seconds (hc_ActiveDeadlineSlack cfg)) in
  let timeoutSeconds :=
    match runConfigTimeoutSeconds (j_RunConfigJSON j) with
    | Ok t => t
    | Err _ => fallbackTimeoutSeconds
    end in
  wrap64 (timeoutSeconds + slackSeconds).

(** The object created for a job. *)
Definition k8sJob (j : Job) : K8sJob :=
  let labels := jobLabels (j_ID j) in
  mkK8sJob (j_ID j) (hc_Namespace cfg) labels 0 (hc_TTLSecondsAfterFinished cfg)
    (activeDeadlineSeconds j) labels
    (mkPodSpec "Never" (hc_ServiceAccount cfg) (hc_ServiceAccount cfg !=? "") true "RuntimeDefault"
       ["tmp"]
       [mkContainer "stirrup" (hc_Image cfg) ["job"]
          (mkSecurityContext false true ["ALL"]) [("tmp", "/tmp")]
          [("CONTROL_PLANE_ADDR", advertiseAddr); ("CONTROL_PLANE_SESSION_ID", SessionString j)]
          (envFromSecrets (hc_EnvFromSecrets cfg)) [("cpu", "100m"); ("memory", "256Mi")]]).

Definition Launch (create : string → K8sJob → createResult) (j : Job) : res unit :=
  match create (hc_Namespace cfg) (k8sJob j) with
  | Created | AlreadyExists => Ok tt
  | CreateFailed e => Err (wrapf "launcher: create k8s job" e)
  end.

End launcher.

(** [None]: harnesses are started out of band. *)
Definition LaunchNone (j : Job) : res unit := Ok tt.

(** ** The client

    What [client-go] finds: a configuration in the cluster, in a named file, by the default
    rules, and the client set made of one. *)
Record clientGo (restConfig clientset : Type) := mkClientGo {
  cg_InClusterConfig : res restConfig;
  cg_BuildConfigFromFlags : string → res restConfig;
  cg_DefaultConfig : res restConfig;
  cg_NewForConfig : restConfig → res clientset;
}.
Arguments cg_InClusterConfig {restConfig clientset}.
Arguments cg_BuildConfigFromFlags {restConfig clientset}.
Arguments cg_DefaultConfig {restConfig clientset}.
Arguments cg_NewForConfig {restConfig clientset}.

Record K8s (clientset : Type) := mkK8s {
  k_client : clientset;
  k_cfg : HarnessConfig;
  k_advertiseAddr : string;
}.
Arguments mkK8s {clientset}.
Arguments k_client {clientset}.
Arguments k_cfg {clientset}.
Arguments k_advertiseAddr {clientset}.

Section client.
Context {restConfig clientset : Type} (lib : clientGo restConfig clientset).

Definition buildRestConfig (cfg : HarnessConfig) : res restConfig :=
  match cg_InClusterConfig lib with
  | Ok rc => Ok rc
  | Err _ =>
      if hc_Kubeconfig cfg !=? "" then cg_BuildConfigFromFlags lib (hc_Kubeconfig cfg)
      else cg_DefaultConfig lib
  end.

Definition NewK8sWithClient (client : clientset) (cfg : HarnessConfig) (advertiseAddr : string)
  : K8s clientset :=
  mkK8s client cfg advertiseAddr.

Definition NewK8s (cfg : HarnessConfig) (advertiseAddr : string) : res (K8s clientset) :=
  match buildRestConfig cfg with
  | Err e => Err (wrapf "launcher: build kubernetes client config" e)
  | Ok restCfg =>
      match cg_NewForConfig lib restCfg with
      | Err e => Err (wrapf "launcher: build kubernetes clientset" e)
      | Ok client => Ok (NewK8sWithClient client cfg advertiseAddr)
      end
  end.

End client.
