(* ===== verification/TokenIssuer.v ===== *)
(** * Sandbox identity tokens ([src/internal/tokenissuer/])

    [Issuer.Mint] and the JWKS document that describes its key.  The elliptic-curve
    and hash primitives, the PEM and DER codecs and the JWT signer are libraries,
    and parameters here: a public key is its curve and the encoding [pub.Bytes]
    gives, a token is what the signer makes of a header and of claims. *)

From stdpp Require Import base gmap list strings pretty.
From Stdlib Require Import Ascii.
From S2P Require Import Prelude Fmt Json Job Base64.

(** [*ecdsa.PublicKey]: the name of its curve and its SEC 1 encoding. *)
Record PublicKey := mkPublicKey {
  pk_Curve : string;
  pk_Bytes : res (list N);
}.

#[export] Instance PublicKey_eq_dec : EqDecision PublicKey.
Proof. solve_decision. Defined.

Definition P256 : string := "P-256".

Definition coordSize : nat := 32.

Definition coords (pub : PublicKey) : res (string * string) :=
  if pk_Curve pub !=? P256 then Err (ErrNew "key is not on the P-256 curve")
  else
    match pk_Bytes pub with
    | Err e => Err (wrapf "encode public key" e)
    | Ok raw =>
        if negb (length raw =? 1 + 2 * coordSize) || negb (bool_decide (head raw = Some 4%N)) then
          Err (ErrNew ("unexpected public key encoding (" +:+ pretty (length raw) +:+ " bytes)"))
        else
          Ok (EncodeToString (take coordSize (drop 1 raw)), EncodeToString (drop (1 + coordSize) raw))
    end.

Section issuer.

(** [sha256.Sum256]. *)
Variable Sum256 : string → list N.

Definition KeyIDOf (pub : PublicKey) : res string :=
  '(x, y) ← coords pub;
  let q := String dquote "" in
  let canonical := "{" +:+ q +:+ "crv" +:+ q +:+ ":" +:+ q +:+ "P-256" +:+ q +:+ ","
    +:+ q +:+ "kty" +:+ q +:+ ":" +:+ q +:+ "EC" +:+ q +:+ ","
    +:+ q +:+ "x" +:+ q +:+ ":" +:+ q +:+ x +:+ q +:+ ","
    +:+ q +:+ "y" +:+ q +:+ ":" +:+ q +:+ y +:+ q +:+ "}" in
  Ok (EncodeToString (Sum256 canonical)).

(** One entry of the document. *)
Definition jwk (x y kid : string) : list (string * string) :=
  [("kty", "EC"); ("crv", "P-256"); ("x", x); ("y", y); ("kid", kid); ("alg", "ES256"); ("use", "sig")].

Definition JWKSDocument (pub : PublicKey) : res string :=
  kid ← KeyIDOf pub;
  '(x, y) ← coords pub;
  Ok ("{" +:+ quoteString "keys" +:+ ":[{" +:+ marshalMembers (jwk x y kid) +:+ "}]}").

(** ** The issuer *)

Record Issuer := mkIssuer {
  i_pub : PublicKey;
  i_kid : string;
  i_jwks : string;
  i_issuer : string;
  i_audience : string;
  i_ttl : Duration;
}.

(** [New]; [None] is a nil key. *)
Definition NewIssuer (pub : option PublicKey) (issuer audience : string) (ttl : Duration)
  : res Issuer :=
  match pub with
  | None => Err (ErrNew "signing key must be a P-256 ECDSA key")
  | Some pub =>
      if pk_Curve pub !=? P256 then Err (ErrNew "signing key must be a P-256 ECDSA key")
      else if issuer ==? "" then Err (ErrNew "issuer is required")
      else if audience ==? "" then Err (ErrNew "audience is required")
      else if (ttl <=? 0)%Z then Err (ErrNew "ttl must be positive")
      else
        kid ← KeyIDOf pub;
        doc ← JWKSDocument pub;
        Ok (mkIssuer pub kid doc issuer audience ttl)
  end.

(** A claim of the token. *)
Inductive claim :=
  | CString (s : string)
  | CNumber (n : Z)
  | CStrings (l : list string).

Definition tokenType : string := "at+jwt".
Definition repoScopeClaim : string := "haybale.dev/repos".
Definition jtiBytes : nat := 16.

(** [randomJTI], of what [rand.Read] gives. *)
Definition randomJTI (rnd : res (list N)) : res string :=
  match rnd with
  | Err e => Err e
  | Ok b => Ok (hexEncode b)
  end.

(** The claims [Mint] signs; a nil scope is made an empty one. *)
Definition mintClaims (i : Issuer) (sub : string) (repoScope : option (list string)) (now : Time)
  (jti : string) : gmap string claim :=
  <[repoScopeClaim := CStrings (default [] repoScope)]>
    {["iss" := CString (i_issuer i); "aud" := CString (i_audience i); "sub" := CString sub;
      "iat" := CNumber (Unix now); "exp" := CNumber (Unix (now + i_ttl i)); "jti" := CString jti]}.

(** The header: what [NewWithClaims] puts there for ES256, and the two overrides. *)
Definition mintHeader (i : Issuer) : gmap string string :=
  <["typ" := tokenType]> (<["kid" := i_kid i]> {["typ" := "JWT"; "alg" := "ES256"]}).

(** [Mint], of the clock, the random bytes and the signer [sign], which signs with
    the issuer's private key. *)
Definition Mint (sign : gmap string string → gmap string claim → res string)
  (i : Issuer) (sub : string) (repoScope : option (list string)) (now : Time) (rnd : res (list N))
  : res (string * Time) :=
  let exp := (now + i_ttl i)%Z in
  match randomJTI rnd with
  | Err e => Err (wrapf "generate jti" e)
  | Ok jti =>
      match sign (mintHeader i) (mintClaims i sub repoScope now jti) with
      | Err e => Err (wrapf "sign token" e)
      | Ok signed => Ok (signed, exp)
      end
  end.

End issuer.

(** ** Serving the document *)

Record httpResponse := mkHttpResponse {
  hr_Status : Z;
  hr_Header : gmap string string;
  hr_Body : string;
}.

Definition jwksMaxAge : Duration := 5 * Minute.

(** [http.Error] writes the text and a newline. *)
Definition JWKSHandler (i : Issuer) (method : string) : httpResponse :=
  if (method !=? "GET") && (method !=? "HEAD") then
    mkHttpResponse 405
      {["Allow" := "GET, HEAD"; "Content-Type" := "text/plain; charset=utf-8";
        "X-Content-Type-Options" := "nosniff"]}
      ("method not allowed" +:+ String "010" "")
  else
    mkHttpResponse 200 {["Content-Type" := "application/json"; "Cache-Control" := "max-age=300"]}
      (i_jwks i).

(** ** Reading the key *)

(** What a PEM block decodes to and what the DER parsers make of it. *)
Inductive pkcs8Key :=
  | EcdsaKey (pub : PublicKey)
  | OtherKey (goType : string).

Section keys.
Context `{UnicodeTables}.
Variables (pemDecode : string → option (string * string))
  (ParseECPrivateKey : string → res PublicKey)
  (ParsePKCS8PrivateKey : string → res pkcs8Key).

Definition ParsePrivateKeyPEM (pemBytes : string) : res PublicKey :=
  match pemDecode pemBytes with
  | None => Err (ErrNew "no PEM block found")
  | Some (blockType, der) =>
      key ← (if blockType ==? "EC PRIVATE KEY" then
               match ParseECPrivateKey der with
               | Err e => Err (wrapf "parse SEC1 EC private key" e)
               | Ok k => Ok k
               end
             else if blockType ==? "PRIVATE KEY" then
               match ParsePKCS8PrivateKey der with
               | Err e => Err (wrapf "parse PKCS8 private key" e)
               | Ok (OtherKey t) => Err (ErrNew ("PKCS8 key is " +:+ t +:+ ", want *ecdsa.PrivateKey"))
               | Ok (EcdsaKey k) => Ok k
               end
             else Err (ErrNew ("unsupported PEM block type " +:+ Quote blockType
                         +:+ " (want EC PRIVATE KEY or PRIVATE KEY)")));
      if pk_Curve key !=? P256 then
        Err (ErrNew ("key curve is " +:+ pk_Curve key +:+ ", want P-256"))
      else Ok key
  end.

Definition LoadKey (path : string) (data : res string) : res PublicKey :=
  match data with
  | Err e => Err (wrapf ("read " +:+ path) e)
  | Ok data =>
      match ParsePrivateKeyPEM data with
      | Err e => Err (wrapf ("parse " +:+ path) e)
      | Ok key => Ok key
      end
  end.

End keys.

(** ** Making a key *)

(** [generated] is what [ecdsa.GenerateKey] on P-256 gives; a private key is known by its
    public half. *)
Definition GenerateKey (generated : res PublicKey) : res PublicKey :=
  match generated with
  | Err e => Err (wrapf "generate P-256 key" e)
  | Ok key => Ok key
  end.

Definition EncodePrivateKeyPEM (MarshalPKCS8PrivateKey : PublicKey → res string)
  (pemEncode : string → string → string) (priv : PublicKey) : res string :=
  match MarshalPKCS8PrivateKey priv with
  | Err e => Err (wrapf "marshal private key" e)
  | Ok der => Ok (pemEncode "PRIVATE KEY" der)
  end.
