(* ===== verification/Service.v ===== *)
(** * Caller-facing operations ([src/internal/service/service.go], [submit.go])

    Submit, launch, inspect, cancel and permission answering.  A reading of the
    clock inside an [UpdateJob] closure is taken just before the call. *)

From stdpp Require Import base gmap list strings.
From S2P Require Import Prelude Fmt Job Proto Store Timeline Telemetry Prog Memory Handler.
From S2P Require Import RunConfigs.

Record Service := mkService {
  sv_profiles : Profiles;
  sv_executorDefaults : ExecutorDefaults;
  sv_traceEndpoint : string;
  sv_memoryTools : bool;
}.

(** The options that change the model, and [New]: a nil profile set is empty. *)
Inductive ServiceOption :=
  | WithExecutorDefaults (d : ExecutorDefaults)
  | WithHarnessTelemetryEndpoint (endpoint : string)
  | WithMemoryTools (enabled : bool).

Definition applyServiceOption (o : ServiceOption) (s : Service) : Service :=
  match o with
  | WithExecutorDefaults d => mkService (sv_profiles s) d (sv_traceEndpoint s) (sv_memoryTools s)
  | WithHarnessTelemetryEndpoint e =>
      mkService (sv_profiles s) (sv_executorDefaults s) e (sv_memoryTools s)
  | WithMemoryTools b =>
      mkService (sv_profiles s) (sv_executorDefaults s) (sv_traceEndpoint s) b
  end.

Definition NewService (profiles : option Profiles) (opts : list ServiceOption) : Service :=
  foldl (λ s o, applyServiceOption o s)
    (mkService (default (mkProfiles ∅ "") profiles) (mkExecutorDefaults "" "" "" "") "" false) opts.

Section service.
Context `{UnicodeTables} `{ProtoJSON}.
Variable s : Service.

Definition checkID (id : string) : option error :=
  if negb (ValidID id) then Some (invalid ("malformed job id " +:+ Quote id)) else None.

(** [if err := checkID(id); err != nil { return nil, err }]. *)
Definition checked {A} (id : string) (p : prog (res A)) : prog (res A) :=
  match checkID id with
  | Some e => mret (Err e)
  | None => p
  end.

Definition appendStatusEvent (jobID : string) (status : Status) (errText : string) : prog unit :=
  at_ ← perform ENow;
  _ ← perform (EAppendEvent jobID
        (mkEvent "" EventStatusChange (marshalStatus (mkStatusPayload status errText)) at_));
  mret tt.

(** ** Reading *)

Definition GetOp (id : string) : prog (res Job) := checked id (perform (EGetJob id)).

Definition List (limit : Z) (pageToken : string) : prog (outcome (res (list Job * string))) :=
  perform (EListJobs limit pageToken).

Definition ListPermissionsOp (jobID : string) : prog (res (list PermissionRequest)) :=
  checked jobID (perform (EListPermissions jobID)).

(** ** Launching *)

(** The closure of [transition]; it writes the captured [moved]. *)
Definition transitionUpdate (from to : Status) (errText : string) (now : Time) : updater bool :=
  λ moved j,
    if j_Status j !=? from then (moved, Ok j)
    else
      let j := set_Status to j in
      let j := if errText !=? "" then set_Error errText j else j in
      let j := if Terminal to then set_FinishedAt now j else j in
      (true, Ok j).

Definition transition (id : string) (from to : Status) (errText : string) : prog bool :=
  now ← (if Terminal to then perform ENow else mret 0%Z);
  '(moved, r) ← perform (EUpdateJob id (transitionUpdate from to errText now) false);
  match r with
  | Err _ => mret false
  | Ok _ =>
      when moved (appendStatusEvent id to errText;;
                  when (Terminal to) (perform (ETel (JobCompleted to "" 0))));;
      mret moved
  end.

Definition launch (j : Job) : prog unit :=
  moved ← transition (j_ID j) StatusQueued StatusLaunching "";
  (if negb moved then perform (ETel (JobLaunched LaunchSkipped 0))
   else
     started ← perform ENow;
     r ← perform (ELaunch j);
     now ← perform ENow;
     match r with
     | Err e =>
         perform (ETel (JobLaunched LaunchFailed (Sub now started)));;
         transition (j_ID j) StatusLaunching StatusFailed (Error e);;
         mret tt
     | Ok _ =>
         perform (ETel (JobLaunched LaunchSucceeded (Sub now started)));;
         transition (j_ID j) StatusLaunching StatusAwaitingHarness "";;
         mret tt
     end);;
  perform (EWgDone launches).

(** ** Submitting *)

(** The config a submission is persisted with: the resolved one with the job's ID
    as run ID, the caller's prompt, and the server's defaults. *)
Definition effectiveConfig (cfg : RunConfig) (id : string) (p : SubmitParams) : RunConfig :=
  let cfg := set_RunId id cfg in
  let cfg := if sub_Prompt p !=? "" then set_Prompt (sub_Prompt p) cfg else cfg in
  let cfg := applyExecutorDefaults cfg (sv_executorDefaults s) in
  applyTraceEmitterDefault cfg (sv_traceEndpoint s).

(** The closure [fail] of [Submit]. *)
Definition failSubmit (profile outcome : string) (e : error) : prog (res Job) :=
  perform (ETel (JobSubmitted profile outcome));; mret (Err e).

Definition Submit (p : SubmitParams) : prog (res Job) :=
  match resolveConfig (sv_profiles s) p with
  | Err e => failSubmit "" SubmissionRejected e
  | Ok (cfg, profile) =>
      match validateRepoScope (sub_RepoScope p) with
      | Some e => mret (Err e)
      | None =>
          ulid ← perform EUlid;
          let id := NewID ulid in
          let cfg := effectiveConfig cfg id p in
          match validateRunConfig cfg with
          | Some e => failSubmit profile SubmissionRejected e
          | None =>
              match validateControlPlaneTools (GetControlPlane cfg) (sv_memoryTools s) with
              | Some e => failSubmit profile SubmissionRejected e
              | None =>
                  match MarshalRunConfig cfg with
                  | Err e => failSubmit profile SubmissionFailed (wrapf "encode run config" e)
                  | Ok runConfigJSON =>
                      createdAt ← perform ENow;
                      rnd ← perform ERandRead;
                      traceParent ← perform ETraceParent;
                      let j := mkJob id StatusQueued (rc_Prompt cfg) profile runConfigJSON "" "" ""
                        createdAt 0 0 0 false traceParent (NewHarnessToken rnd)
                        (sub_RepoScope p) in
                      r ← perform (ECreateJob j);
                      match r with
                      | Err e => failSubmit profile SubmissionFailed e
                      | Ok _ =>
                          perform (ETel (JobSubmitted profile SubmissionAccepted));;
                          appendStatusEvent id StatusQueued "";;
                          perform (EWgAdd launches);;
                          go (LaunchOf id) (launch j);;
                          mret (Ok j)
                      end
                  end
              end
          end
      end
  end.

(** ** Cancelling *)

(** The closure of [cancelUnassigned]; it writes the captured [cancelled]. *)
Definition cancelUpdate (now : Time) : updater bool :=
  λ cancelled j,
    if Terminal (j_Status j) then (cancelled, Ok j)
    else (true, Ok (set_FinishedAt now (set_CancelRequested true (set_Status StatusCancelled j)))).

Definition cancelUnassigned (id : string) : prog (res Job) :=
  now ← perform ENow;
  '(cancelled, r) ← perform (EUpdateJob id (cancelUpdate now) false);
  match r with
  | Err e => mret (Err e)
  | Ok j =>
      when cancelled (appendStatusEvent id StatusCancelled "";;
                      perform (ETel (JobCompleted StatusCancelled "cancelled" 0)));;
      mret (Ok j)
  end.

(** [registry.Send]: the session is looked up under the registry's mutex and sent
    to outside it. *)
Definition registrySend (jobID : string) (ev : ControlEvent) : prog (res unit) :=
  r ← perform (ESessionFor jobID);
  match r with
  | Err e => mret (Err e)
  | Ok sess => perform (ESessionSend sess ev)
  end.

(** [Cancel] past its no-op on a terminal job. *)
Definition cancelLive (id : string) : prog (res Job) :=
  connected ← perform (EConnected id);
  if connected : bool then
    '(_, r) ← perform (EUpdateJob id (pureUpdater (λ j, Ok (set_CancelRequested true j))) tt);
    match r with
    | Err e => mret (Err e)
    | Ok j =>
        r ← registrySend id (control_of_type "cancel");
        match r with
        | Ok _ => mret (Ok j)
        | Err e =>
            if errorsIs e ErrNotConnected then cancelUnassigned id
            else mret (Err (wrapf ("send cancel to job " +:+ id) e))
        end
    end
  else cancelUnassigned id.

Definition Cancel (id : string) : prog (res Job) :=
  checked id (
    r ← perform (EGetJob id);
    match r with
    | Err e => mret (Err e)
    | Ok j => if Terminal (j_Status j) then mret (Ok j) else cancelLive id
    end).

(** ** Permissions *)

Definition answer_permission (p : PermissionRequest) (allow : bool) (reason : string) (now : Time)
  : PermissionRequest :=
  mkPermissionRequest (pr_RequestID p) (pr_ToolName p) (pr_InputJSON p)
    (if allow then PermissionAllowed else PermissionDenied) reason (pr_RequestedAt p) now.

Definition AnswerPermission (jobID requestID : string) (allow : bool) (reason : string)
  : prog (res PermissionRequest) :=
  checked jobID (
    r ← perform (EGetPermission jobID requestID);
    match r with
    | Err e => mret (Err e)
    | Ok p =>
        if pr_State p !=? PermissionPending then
          mret (Err (invalid ("permission " +:+ requestID +:+ " is already " +:+ pr_State p)))
        else
          now ← perform ENow;
          let answered := answer_permission p allow reason now in
          r ← perform (EPutPermission jobID answered);
          match r with
          | Err e => mret (Err e)
          | Ok _ =>
              r ← registrySend jobID
                    (mkControlEvent "permission_response" None "" requestID (Some allow) reason
                       "" None "" None);
              perform (ETel (PermissionAnswered allow (is_Ok r)));;
              match r with
              | Ok _ => mret (Ok answered)
              | Err e =>
                  _ ← perform (EPutPermission jobID p);
                  mret (Err (if errorsIs e ErrNotConnected
                             then wrapf ("job " +:+ jobID
                                    +:+ " has no live harness to answer permission "
                                    +:+ requestID) ErrNotConnected
                             else wrapf ("send permission response for job " +:+ jobID) e))
              end
          end
    end).

End service.
