(* ===== verification/Watch.v ===== *)
(** * Watching a timeline ([src/internal/service/watch.go])

    [replay] sends the recorded events page by page; the consumer takes each event
    off the channel in order, so the events sent are the result.  The live branch
    forwards the store's channel until it closes or announces a terminal status. *)

From stdpp Require Import base gmap list strings.
From S2P Require Import Prelude Fmt Job Proto Store Timeline Prog Service.

Definition historyPage : Z := 500.

(** One round per page; the store's timeline is finite, so is the replay. *)
Fixpoint replay (fuel : nat) (id cursor : string) : prog (list Event) :=
  match fuel with
  | 0 => OutOfFuel
  | S f =>
      r ← perform (EReadEvents id cursor historyPage);
      match r with
      | Err _ => mret []
      | Ok evs =>
          match last evs with
          | None => mret []
          | Some ev => rest ← replay f id (ev_ID ev); mret (evs ++ rest)
          end
      end
  end.

(** The forwarding loop, of the events the store's channel delivers before it is
    closed: up to and including the first terminal status change. *)
Fixpoint forward (src : list Event) : list Event :=
  match src with
  | [] => []
  | ev :: src' => ev :: if isTerminalStatusEvent ev then [] else forward src'
  end.

Section watch.
Context `{UnicodeTables}.

(** [Watch]: an error; a replay; or a live watch, of which the channel of the store is
    forwarded by [forward]. *)
Inductive watching (Chan : Type) :=
  | Replayed (evs : list Event)
  | Live (src : Chan).
#[global] Arguments Replayed {Chan} evs.
#[global] Arguments Live {Chan} src.

(** [opened] is what [s.store.WatchEvents(wctx, id, afterID)] answers if it is called: the
    channel it opened, or its error. *)
Definition Watch {Chan : Type} (opened : res Chan) (fuel : nat) (id afterID : string)
  : prog (res (watching Chan)) :=
  checked id (
    r ← perform (EGetJob id);
    match r with
    | Err e => mret (Err e)
    | Ok j =>
        if Terminal (j_Status j) then
          evs ← replay fuel id afterID; mret (Ok (Replayed evs))
        else
          match opened with
          | Err e => mret (Err e)
          | Ok src => mret (Ok (Live src))
          end
    end).

End watch.
