(* ===== verification/Reaper.v ===== *)
(** * Store maintenance ([src/internal/reaper/reaper.go])

    One sweep lists every job and runs two passes over that snapshot: jobs stuck
    in [awaiting_harness] are failed, and terminal jobs past the retention window
    are deleted. *)

From stdpp Require Import base gmap list strings.
From S2P Require Import Prelude Fmt Job Proto Store Timeline Telemetry Prog.

Definition stuckHarnessError : string := "harness never connected before deadline".

Definition defaultInterval : Duration := 5 * Minute.
Definition defaultPageSize : Z := 200.
Definition awaitingHarnessMargin : Duration := 5 * Minute.
Definition awaitingHarnessFallback : Duration := Hour.

Record Reaper := mkReaper {
  r_retention : Duration;
  r_deadlineSlack : Duration;
  r_interval : Duration;
  r_pageSize : Z;
}.

Inductive ReaperOption :=
  | WithInterval (d : Duration)
  | WithPageSize (n : Z).

Definition applyReaperOption (o : ReaperOption) (r : Reaper) : Reaper :=
  match o with
  | WithInterval d =>
      if (0 <? d)%Z then mkReaper (r_retention r) (r_deadlineSlack r) d (r_pageSize r) else r
  | WithPageSize n =>
      if (0 <? n)%Z then mkReaper (r_retention r) (r_deadlineSlack r) (r_interval r) n else r
  end.

Definition NewReaper (retention deadlineSlack : Duration) (opts : list ReaperOption) : Reaper :=
  foldl (λ r o, applyReaperOption o r)
    (mkReaper retention deadlineSlack defaultInterval defaultPageSize) opts.

(** [jitter], of the draw [n] of [rand.Int63n(int64(d)/10 + 1)]. *)
Definition jitter (d : Duration) (n : Z) : Duration :=
  if (d <=? 0)%Z then d else wrap64 (d + n).

Section reaper.
Context `{UnicodeTables} `{ProtoJSON}.
Variable r : Reaper.

(** How long a job may wait for its harness; [int64] arithmetic. *)
Definition awaitingHarnessDeadline (runConfigJSON : string) (slack : Duration) : Duration :=
  match UnmarshalRunConfig false runConfigJSON with
  | Err _ => wrap64 (awaitingHarnessFallback + slack)
  | Ok cfg =>
      match rc_Timeout cfg with
      | None => wrap64 (awaitingHarnessFallback + slack)
      | Some t => wrap64 (wrap64 (wrap64 (t * Second) + slack) + awaitingHarnessMargin)
      end
  end.

(** The closure of [failStuckHarness]; it writes the result [moved]. *)
Definition stuckUpdate (now : Time) : updater bool :=
  λ moved j,
    if j_Status j !=? StatusAwaitingHarness then (moved, Ok j)
    else (true, Ok (set_FinishedAt now (set_Error stuckHarnessError (set_Status StatusFailed j)))).

Definition reaperAppendStatus (jobID : string) (status : Status) (errText : string) : prog unit :=
  at_ ← perform ENow;
  _ ← perform (EAppendEvent jobID
        (mkEvent "" EventStatusChange (marshalStatus (mkStatusPayload status errText)) at_));
  mret tt.

Definition failStuckHarness (id : string) : prog (res bool) :=
  now ← perform ENow;
  '(moved, u) ← perform (EUpdateJob id (stuckUpdate now) false);
  match u with
  | Err e => mret (Err e)
  | Ok _ =>
      when moved (reaperAppendStatus id StatusFailed stuckHarnessError;;
                  perform (ETel (JobCompleted StatusFailed StopHarnessNeverConnected 0)));;
      mret (Ok moved)
  end.

(** The condition under which a snapshot entry is failed. *)
Definition stuck (now : Time) (j : Job) : bool :=
  (j_Status j ==? StatusAwaitingHarness)
  && negb (Sub now (j_CreatedAt j)
           <=? awaitingHarnessDeadline (j_RunConfigJSON j) (r_deadlineSlack r))%Z.

Fixpoint reapAwaitingLoop (now : Time) (jobs : list Job) : prog unit :=
  match jobs with
  | [] => mret tt
  | j :: jobs' =>
      (if stuck now j then _ ← failStuckHarness (j_ID j); mret tt else mret tt);;
      reapAwaitingLoop now jobs'
  end.

Definition reapAwaitingHarness (jobs : list Job) : prog unit :=
  now ← perform ENow; reapAwaitingLoop now jobs.

(** The condition under which a snapshot entry is deleted. *)
Definition expired (now : Time) (j : Job) : bool :=
  negb (negb (Terminal (j_Status j)) || IsZero (j_FinishedAt j))
  && negb (Sub now (j_FinishedAt j) <=? r_retention r)%Z.

Fixpoint reapRetentionLoop (now : Time) (jobs : list Job) : prog unit :=
  match jobs with
  | [] => mret tt
  | j :: jobs' =>
      (if expired now j then _ ← perform (EDeleteJob (j_ID j)); mret tt else mret tt);;
      reapRetentionLoop now jobs'
  end.

Definition reapRetention (jobs : list Job) : prog unit :=
  now ← perform ENow; reapRetentionLoop now jobs.

(** One page per round; [all] is what the earlier pages held. *)
Fixpoint listPages (fuel : nat) (all : list Job) (token : string) : prog (res (list Job)) :=
  match fuel with
  | 0 => OutOfFuel
  | S f =>
      o ← perform (EListJobs (r_pageSize r) token);
      match o with
      | Panicked => Panic
      | Returned (Err e) => mret (Err e)
      | Returned (Ok (jobs, next)) =>
          let all := all ++ jobs in
          if next ==? "" then mret (Ok all) else listPages f all next
      end
  end.

Definition listAllJobs (fuel : nat) : prog (res (list Job)) := listPages fuel [] "".

Definition sweep (fuel : nat) : prog unit :=
  l ← listAllJobs fuel;
  match l with
  | Err _ => mret tt
  | Ok jobs =>
      reapAwaitingHarness jobs;;
      when (0 <? r_retention r)%Z (reapRetention jobs)
  end.

(** [Run], when the timer fires [ticks] times before the context is done: a sweep at once,
    then one on every tick. *)
Fixpoint RunLoop (fuel ticks : nat) : prog unit :=
  match ticks with
  | 0 => mret tt
  | S n => sweep fuel;; RunLoop fuel n
  end.

Definition Run (fuel ticks : nat) : prog unit := sweep fuel;; RunLoop fuel ticks.

(** What the timer is set to, of the draws of [jitter]. *)
Definition waits (draws : list Z) : list Duration := jitter (r_interval r) <$> draws.

End reaper.
