(* ===== verification/WatchFacts.v ===== *)
(** * What a watcher sees

    [Service.Watch] over the in-memory store: the replay of a finished job's timeline
    ends, starts with the events after the cursor, and is exact when the IDs of the
    timeline increase; and a live watch that keeps up hands over the history and then
    every append, in order, up to the announcement of a terminal status. *)

From stdpp Require Import base gmap list strings sorting.
From S2P Require Import Prelude Fmt Job Proto Store Timeline.
From S2P Require Import MemStore MemStoreFacts Prog Handler Service Watch Samples.

(** ** Filtered lists *)

Section filtered.
Context {A : Type} (P : A → Prop) `{∀ x, Decision (P x)}.

Lemma filter_Forall_all l : Forall P l → filter P l = l.
Proof. induction 1; [done|]. rewrite filter_cons_True by done. by f_equal. Qed.

Lemma filter_Forall_none l : Forall (λ x, ¬ P x) l → filter P l = [].
Proof. induction 1; [done|]. by rewrite filter_cons_False. Qed.

Lemma filter_StronglySorted (R : relation A) l : StronglySorted R l → StronglySorted R (filter P l).
Proof.
  induction 1 as [|x l _ IH Hx]; [constructor|]. rewrite filter_cons. destruct (decide (P x)); [|done].
  constructor; [done|]. apply Forall_forall. intros y [_ Hy]%list_elem_of_filter.
  by eapply (proj1 (Forall_forall _ _)) in Hx.
Qed.

End filtered.

(** ** Replay *)

(** The event comes after the cursor: every event does after the empty one, and otherwise
    IDs are compared by the two numbers in them. *)
Definition follows (cursor : string) (ev : Event) : Prop :=
  cursor = "" ∨ keyLt (Sscanf_d_d cursor) (Sscanf_d_d (ev_ID ev)).

#[export] Instance follows_dec cursor ev : Decision (follows cursor ev).
Proof. refine (cast_if (decide (after cursor ev = true))); by rewrite after_spec in *. Defined.

(** What is left of a timeline after a cursor. *)
Definition dueAfter (cursor : string) (tl : list Event) : list Event := filter (follows cursor) tl.

Lemma dueAfter_after cursor tl : dueAfter cursor tl = filter (λ ev, after cursor ev = true) tl.
Proof. apply list_filter_iff. intros ev. by rewrite after_spec. Qed.

Lemma readLoop_due cursor n tl : readLoop cursor (S n) tl = take (S n) (dueAfter cursor tl).
Proof.
  rewrite dueAfter_after. revert n. induction tl as [|ev tl IH]; intros n; [done|].
  cbn [readLoop]. rewrite filter_cons. destruct (after cursor ev) eqn:E.
  - rewrite decide_True by done. cbn [take]. destruct n; [by rewrite take_0|]. by rewrite IH.
  - rewrite decide_False by done. apply IH.
Qed.

(** The timelines of a reachable store carry IDs. *)
Definition stamped (m : memStore) : Prop :=
  ∀ id, Forall (λ ev, ev_ID ev ≠ "") (slice_at (m_events m) id).

Lemma stamped_memStep m m' : stamped m → memStep m m' → stamped m'.
Proof.
  intros Hs Hstep.
  assert (m_events m' = m_events m → stamped m') as Hsame by (intros E id; rewrite E; apply Hs).
  destruct Hstep as [j|C id fn c _|id|now id ev|id p|id a|a|a].
  - apply Hsame. unfold memCreateJob. case_match; [done|by destruct m].
  - apply Hsame. unfold memUpdateJob. repeat case_match; by destruct m.
  - intros id'. unfold memDeleteJob. case_match; [|apply Hs]. destruct m; cbn.
    unfold slice_at. destruct (decide (id = id')) as [->|Hne];
      [by rewrite lookup_delete_eq|rewrite lookup_delete_ne by done; apply Hs].
  - destruct (m_jobs m !! id) as [j|] eqn:Hj.
    + destruct (memAppendEvent_events now id ev m j Hj) as (_ & He & Hne & _). intros id'.
      destruct (decide (id' = id)) as [->|Hid].
      * rewrite He. apply Forall_drop, Forall_app. split; [apply Hs|].
        constructor; [apply streamID_nonempty|done].
      * unfold slice_at. rewrite Hne by done. apply Hs.
    + apply Hsame. unfold memAppendEvent. by rewrite Hj.
  - apply Hsame. unfold memPutPermission. case_match; by destruct m.
  - apply Hsame. unfold memWatchEvents. repeat case_match; by destruct m.
  - apply Hsame. unfold memRemoveWatcher. repeat case_match; by destruct m.
  - apply Hsame. unfold memWatcherRecv. repeat case_match; by destruct m.
Qed.

Lemma stamped_reachable n m : rtc memStep (NewMemStore n) m → stamped m.
Proof.
  intros Hr. assert (∀ m1, rtc memStep m1 m → stamped m1 → stamped m) as H.
  { induction 1; eauto using stamped_memStep. }
  eapply H; [done|]. intros id. apply Forall_nil_2.
Qed.

Section replay.
Context `{UnicodeTables} (env : Env) (id : string) (tl : list Event).
Implicit Type w : World memStore.

(** The timeline of the job. *)
Definition recordedTimeline w : Prop :=
  is_Some (m_jobs (w_store w) !! id) ∧ slice_at (m_events (w_store w)) id = tl.

Lemma read_page w cursor :
  recordedTimeline w →
  memReadEvents id cursor historyPage (w_store w) = Ok (take 500 (dueAfter cursor tl)).
Proof.
  intros ([j Hj] & Htl). unfold memReadEvents. rewrite Hj, Htl.
  change (Z.to_nat _) with (S 499). by rewrite readLoop_due.
Qed.

(** What follows an event that follows the cursor follows the cursor. *)
Lemma dueAfter_next cursor ev :
  ev ∈ dueAfter cursor tl → ev_ID ev ≠ "" →
  dueAfter (ev_ID ev) tl = filter (follows (ev_ID ev)) (dueAfter cursor tl).
Proof.
  intros [Hev _]%list_elem_of_filter Hne. unfold dueAfter. symmetry.
  apply list_filter_filter_l. intros e He. destruct He as [|He]; [done|]. destruct Hev as [->|Hev]; [by left|right].
  by etransitivity.
Qed.

Lemma follows_irrefl ev : ev_ID ev ≠ "" → ¬ follows (ev_ID ev) ev.
Proof. intros Hne [|Hk]; [done|]. by apply (irreflexivity keyLt) in Hk. Qed.

(** In a sorted timeline, what follows an event is what stands behind it. *)
Lemma dueAfter_sorted cursor l1 ev l2 :
  timelineSorted tl → dueAfter cursor tl = l1 ++ ev :: l2 → ev_ID ev ≠ "" →
  dueAfter (ev_ID ev) tl = l2.
Proof.
  intros Hs E Hne. rewrite (dueAfter_next cursor) by (rewrite ?E; set_solver). rewrite E.
  assert (timelineSorted (l1 ++ ev :: l2)) as Hs'.
  { rewrite <-E. by apply filter_StronglySorted. }
  apply StronglySorted_app in Hs' as (Hcross & _ & [Hall _]%StronglySorted_cons).
  rewrite filter_app, filter_cons, decide_False by (by apply follows_irrefl).
  rewrite (filter_Forall_all _ l2), (filter_Forall_none _ l1); [done|..].
  - apply Forall_forall. intros e He [|Hk]; [done|].
    apply (irreflexivity keyLt (idKey ev)). etransitivity; [exact Hk|]. apply Hcross; [done|by left].
  - eapply Forall_impl; [exact Hall|]. intros e He. by right.
Qed.

(** Every round that does not end the replay moves the cursor on. *)
Lemma replay_delivers fuel w cursor :
  recordedTimeline w → Forall (λ ev, ev_ID ev ≠ "") tl → length (dueAfter cursor tl) < fuel →
  runsTo env (replay fuel id cursor) w (λ evs w', w_store w' = w_store w
    ∧ take 500 (dueAfter cursor tl) `prefix_of` evs
    ∧ Forall (λ ev, ev ∈ dueAfter cursor tl) evs
    ∧ (timelineSorted tl → evs = dueAfter cursor tl)).
Proof.
  revert w cursor. induction fuel as [|f IH]; intros w cursor Hw Hne Hf; [lia|].
  cbn [replay]. apply runsTo_act. unfold actTick. cbn [act fst snd ReadEvents memStore_Store].
  rewrite (read_page w cursor) by done. set (due := dueAfter cursor tl) in *.
  destruct (last (take 500 due)) as [ev|] eqn:El; cycle 1.
  { apply runsTo_ret. apply last_None in El. rewrite El.
    assert (due = []) as -> by (by destruct due). split_and!; [by destruct w|done..]. }
  apply last_Some in El as [l1 Hl1].
  assert (due = l1 ++ ev :: drop 500 due) as Hsplit.
  { rewrite <-(take_drop 500 due) at 1. by rewrite Hl1, <-app_assoc. }
  assert (ev ∈ due) as Hin by (rewrite Hsplit; set_solver).
  assert (ev_ID ev ≠ "") as Hid.
  { apply list_elem_of_filter in Hin as [_ Hin]. by eapply (proj1 (Forall_forall _ _)) in Hne. }
  pose proof (dueAfter_next cursor ev Hin Hid) as Hnext. fold due in Hnext.
  apply runsTo_bind. eapply runsTo_mono; [|apply (IH _ (ev_ID ev))]; [|by destruct w|done|].
  - intros rest w' (Hst & _ & Hall & Hex). apply runsTo_ret. split_and!.
    + rewrite Hst. by destruct w.
    + by eexists.
    + apply Forall_app. split.
      * apply Forall_forall. intros e He. rewrite <-(take_drop 500 due). apply elem_of_app. by left.
      * eapply Forall_impl; [exact Hall|]. intros e. rewrite Hnext. by intros [_ ?]%list_elem_of_filter.
    + intros Hs. rewrite (Hex Hs), (dueAfter_sorted cursor l1 ev (drop 500 due)) by done.
      apply take_drop.
  - rewrite Hnext. eapply Nat.lt_le_trans; [apply (length_filter_lt _ _ ev Hin)|lia].
    by apply follows_irrefl.
Qed.

End replay.

(** C30. Watching a finished job ends, and hands over what was recorded after the cursor,
    whatever cursor the caller gives, in any reachable store: first of all the first 500
    events after it, in timeline order, across no page boundary; then only further events
    of the timeline that come after it too; and, when the IDs of the timeline increase,
    exactly the events after the cursor, in order, nothing skipped or repeated across the
    page boundaries.  IDs compare by their two numbers, and every event comes after the
    empty cursor. The fuel is one round per page; more than the events recorded is always
    enough. (IDs need not increase, since some events are stamped in advance of their
    append: then pages can overlap, as [replay_repeats] shows.) *)
Theorem Watch_replays_exactly `{UnicodeTables} {Chan : Type} (opened : res Chan) (env : Env)
  (w : World memStore) (n : Z) (id afterID : string) (j : Job) (fuel : nat)
  (Hreach : rtc memStep (NewMemStore n) (w_store w))
  (Hid : ValidID id = true)
  (Hj : m_jobs (w_store w) !! id = Some j)
  (Hterm : Terminal (j_Status j) = true)
  (Hfuel : length (slice_at (m_events (w_store w)) id) < fuel) :
  let tl := slice_at (m_events (w_store w)) id in
  runsTo env (Watch opened fuel id afterID) w (λ r w', w_store w' = w_store w
    ∧ ∃ evs, r = Ok (Replayed evs)
      ∧ take 500 (dueAfter afterID tl) `prefix_of` evs
      ∧ Forall (λ ev, ev ∈ dueAfter afterID tl) evs
      ∧ (timelineSorted tl → evs = dueAfter afterID tl)).
Proof.
  intros tl. apply stamped_reachable in Hreach.
  unfold Watch, checked, checkID. rewrite Hid. apply runsTo_act. unfold actTick.
  cbn [act fst snd GetJob memStore_Store]. unfold memGetJob. rewrite Hj, Hterm.
  apply runsTo_bind. eapply runsTo_mono; [|apply (replay_delivers env id tl)].
  - intros evs w' (Hst & Hrest). apply runsTo_ret. split; [by rewrite Hst; destruct w|eauto].
  - destruct w. split; [by eexists|done].
  - apply Hreach.
  - eapply Nat.le_lt_trans; [apply length_filter|done].
Qed.

(** A finished job with two events, watched from the first. *)
Definition finished_store : memStore :=
  fst (memUpdateJob sample_id (pureUpdater (λ j, Ok (set_Status StatusSucceeded j))) tt two_event_store).

Definition finished_world : World memStore := mkWorld finished_store ∅ ∅ ∅ ∅ 0 0 [] 0.

Lemma Watch_replays_exactly_witness :
  let tl := [mkEvent "1000-1" "ready" "" (unixEpoch + Second);
             mkEvent "2000-2" "heartbeat" "" (unixEpoch + 2 * Second)] in
  runsTo (H := @memStore_Store sample_tables) sample_env
    (@Watch sample_tables nat (Ok 0) 3 sample_id "1000-1") finished_world
    (λ r w', w_store w' = finished_store
       ∧ ∃ evs, r = Ok (Replayed evs)
         ∧ take 500 (dueAfter "1000-1" tl) `prefix_of` evs
         ∧ Forall (λ ev, ev ∈ dueAfter "1000-1" tl) evs
         ∧ (timelineSorted tl → evs = dueAfter "1000-1" tl)).
Proof.
  apply (@Watch_replays_exactly sample_tables nat (Ok 0) sample_env finished_world 0 sample_id
           "1000-1" (set_Status StatusSucceeded sample_job)).
  - eapply rtc_l; [apply (step_CreateJob _ sample_job)|].
    eapply rtc_l; [apply (step_AppendEvent _ 0 sample_id (mkEvent "" "ready" "" (unixEpoch + Second)))|].
    eapply rtc_l; [apply (step_AppendEvent _ 0 sample_id
      (mkEvent "" "heartbeat" "" (unixEpoch + 2 * Second)))|].
    eapply rtc_l; [apply (step_UpdateJob _ sample_id
      (pureUpdater (λ j, Ok (set_Status StatusSucceeded j))) tt)|apply rtc_refl].
    by intros ? [] ? ? [= <- <-].
  - reflexivity.
  - reflexivity.
  - reflexivity.
  - vm_compute. lia.
Defined.

(** A timeline as the pump leaves it when text arrives before [done]: the merged text is
    appended first, stamped with a later reading of the clock.  Its replay delivers that
    text twice. *)
Definition late_delta_store : memStore :=
  fst (memUpdateJob sample_id (pureUpdater (λ j, Ok (set_Status StatusSucceeded j))) tt
    (fst (memAppendEvent 0 sample_id (mkEvent "" evDone "" (unixEpoch + Second))
      (fst (memAppendEvent 0 sample_id (mkEvent "" evTextDelta "" (unixEpoch + 2 * Second))
        sample_store))))).

Example replay_repeats :
  match snd (run (H := @memStore_Store sample_tables) sample_env
               (@Watch sample_tables nat (Ok 0) 3 sample_id "")
               (mkWorld late_delta_store ∅ ∅ ∅ ∅ 0 0 [] 0)) with
  | Done (Ok (Replayed evs)) => ev_Type <$> evs
  | _ => []
  end = [evTextDelta; evDone; evTextDelta].
Proof. vm_compute. reflexivity. Qed.

(** ** Live watches *)

(** What happens to a watched job: an event is appended, or the forwarding
    goroutine takes one off the channel. *)
Inductive watchOp :=
  | WAppend (now : Time) (ev : Event)
  | WRecv.

(** The store, what the goroutine has received and what was appended since the
    watch began, each appended event as the store recorded it. *)
Record watchState := mkWatchState {
  ws_store : memStore;
  ws_received : list Event;
  ws_appended : list Event;
}.

Definition watchStep (id : string) (a : nat) (s : watchState) (o : watchOp) : watchState :=
  match o with
  | WAppend now ev =>
      let m := fst (memAppendEvent now id ev (ws_store s)) in
      mkWatchState m (ws_received s)
        (ws_appended s ++ option_list (last (slice_at (m_events m) id)))
  | WRecv =>
      let '(m, o) := memWatcherRecv a (ws_store s) in
      mkWatchState m (ws_received s ++ option_list o) (ws_appended s)
  end.

(** With [n] events waiting in a channel of [cap] slots, the consumer keeps up: no event
    is appended while the channel is full. *)
Fixpoint keepsUp (cap n : nat) (ops : list watchOp) : Prop :=
  match ops with
  | [] => True
  | WAppend _ _ :: ops' => n < cap ∧ keepsUp cap (S n) ops'
  | WRecv :: ops' => keepsUp cap (pred n) ops'
  end.

(** The watcher is registered, [n] events wait in its channel, and what it received, with
    what waits, is what was there to deliver. *)
Record watched (id : string) (a : nat) (hist : list Event) (cap n : nat) (s : watchState) : Prop := {
  wd_job : is_Some (m_jobs (ws_store s) !! id);
  wd_pos : 0 < m_maxLen (ws_store s);
  wd_cap : watchCap (ws_store s) = cap;
  wd_list : a ∈ slice_at (m_watchers (ws_store s)) id;
  wd_nodup : NoDup (slice_at (m_watchers (ws_store s)) id);
  wd_heap : ∃ buf, m_heap (ws_store s) !! a = Some (mkWatcher id buf false)
    ∧ length buf = n ∧ ws_received s ++ buf = hist ++ ws_appended s;
}.

Lemma last_last_n {A} n (l : list A) x : 0 < n → last (last_n n (l ++ [x])) = Some x.
Proof.
  intros Hn. unfold last_n. rewrite drop_app, length_app. simpl.
  replace (length l + 1 - n - length l) with 0 by lia. rewrite drop_0. by rewrite last_snoc.
Qed.

Lemma watched_append id a hist cap n s now ev :
  n < cap → watched id a hist cap n s → watched id a hist cap (S n) (watchStep id a s (WAppend now ev)).
Proof.
  intros Hn [[j Hj] Hpos Hcap Hin Hnd (buf & Hbuf & Hlen & Heq)].
  destruct (memAppendEvent_events now id ev (ws_store s) j Hj) as (_ & Hev & _).
  destruct s as [m rc ap]. cbn [watchStep ws_store ws_received ws_appended] in *.
  rewrite Hev. rewrite last_last_n by done. clear Hev. cbn [option_list].
  unfold memAppendEvent. rewrite Hj. unfold watchCap in *. destruct m; cbn in *.
  split; cbn; [by eexists|done..|]. unfold offer_all. rewrite lookup_foldr_alter, decide_True, Hbuf by done. cbn.
  unfold offer. cbn [w_ch w_jobID w_done].
  rewrite (proj2 (Nat.ltb_lt _ _)) by lia.
  eexists. split; [done|]. rewrite length_app. split; [cbn; lia|].
  by rewrite !app_assoc, Heq.
Qed.

Lemma watched_recv id a hist cap n s :
  watched id a hist cap n s → watched id a hist cap (pred n) (watchStep id a s WRecv).
Proof.
  intros [Hj Hpos Hcap Hin Hnd (buf & Hbuf & Hlen & Heq)]. destruct s as [m rc ap]. cbn in *.
  unfold memWatcherRecv. rewrite Hbuf. destruct buf as [|ev buf].
  - cbn. rewrite app_nil_r in *. cbn in Hlen. subst n. split; cbn; try done.
    exists []. by rewrite app_nil_r.
  - unfold watchCap in *. destruct m; cbn in *. split; cbn; try done.
    exists buf. rewrite lookup_insert_eq. split_and!; [done|lia|]. by rewrite <-app_assoc.
Qed.

Lemma watched_run id a hist ops cap n s :
  watched id a hist cap n s → keepsUp cap n ops →
  ∃ n', watched id a hist cap n' (foldl (watchStep id a) s ops).
Proof.
  revert n s. induction ops as [|[now ev|] ops IH]; intros n s Hs Hk; [by eexists|..]; cbn [foldl keepsUp] in *.
  - destruct Hk as [Hn Hk]. eapply IH; [by apply watched_append|done].
  - eapply IH; [by apply watched_recv|done].
Qed.

(** [forward] stops right after the first terminal status event. *)
Lemma forward_spec src :
  (Forall (λ ev, isTerminalStatusEvent ev = false) src ∧ forward src = src)
  ∨ ∃ l1 ev l2, src = l1 ++ ev :: l2 ∧ isTerminalStatusEvent ev = true
      ∧ Forall (λ ev, isTerminalStatusEvent ev = false) l1 ∧ forward src = l1 ++ [ev].
Proof.
  induction src as [|ev src IH]; [by left|]. cbn [forward].
  destruct (isTerminalStatusEvent ev) eqn:E.
  - right. by exists [], ev, src.
  - destruct IH as [[Hn Heq]|(l1 & e & l2 & -> & He & Hn & Heq)].
    + left. rewrite Heq. split; [by constructor|done].
    + right. exists (ev :: l1), e, l2. rewrite Heq. split_and!; try done. by constructor.
Qed.

Lemma forward_stops l1 ev l2 :
  Forall (λ ev, isTerminalStatusEvent ev = false) l1 → isTerminalStatusEvent ev = true →
  forward (l1 ++ ev :: l2) = l1 ++ [ev].
Proof. induction 1 as [|e l1 He _ IH]; intros Hev; cbn; [by rewrite Hev|]. by rewrite He, IH. Qed.

Lemma forward_prefix src : forward src `prefix_of` src.
Proof.
  destruct (forward_spec src) as [[_ ->]|(l1 & ev & l2 & -> & _ & _ & ->)]; [done|].
  exists l2. by rewrite <-app_assoc.
Qed.

(** A new watch starts with the history after its cursor in its channel. *)
Lemma watched_start m id j afterID :
  wf m → 0 < m_maxLen m → m_jobs m !! id = Some j →
  let hist := dueAfter afterID (slice_at (m_events m) id) in
  ∃ m1 a, memWatchEvents id afterID m = (m1, Returned (Ok a))
    ∧ watched id a hist (m_maxLen m + 64) (length hist) (mkWatchState m1 [] []).
Proof.
  intros Hwf Hcap Hj. pose proof (wf_WatchEvents id afterID m Hwf) as Hwf'. cbn zeta.
  assert (length (dueAfter afterID (slice_at (m_events m) id)) ≤ m_maxLen m) as Hl.
  { etrans; [apply length_filter|]. unfold slice_at. destruct (m_events m !! id) eqn:E; cbn; [|lia].
    by apply (wf_events_len _ Hwf) in E. }
  unfold memWatchEvents in *. rewrite Hj in *. rewrite <-dueAfter_after in *.
  rewrite (proj2 (Nat.ltb_ge _ _)) in * by (unfold watchCap; lia).
  eexists _, _. split; [done|]. pose proof (wf_watchers_nodup _ Hwf' id) as Hnd.
  destruct m; cbn in *. split; cbn; [by eexists|done|done| |done|].
  - rewrite slice_at_insert, decide_True by done. set_solver.
  - rewrite lookup_insert_eq. eexists. split; [done|]. split; [done|]. by rewrite app_nil_r.
Qed.

(** C31. A live watch loses nothing and reorders nothing: over any interleaving of appends
    to the job's timeline with the receives of the forwarding goroutine, however many and
    however long, in which no event is appended while the watch's channel is full (it has
    64 slots more than the longest timeline, and starts with the history after the cursor),
    what was received and what is still waiting are together that history followed by
    every appended event, in order. The client is forwarded a prefix of it, which ends
    right after the first event announcing a terminal status, once that is received. *)
Theorem live_watch_delivers (m : memStore) (id afterID : string) (j : Job) (ops : list watchOp)
  (Hwf : wf m) (Hcap : 0 < m_maxLen m) (Hj : m_jobs m !! id = Some j)
  (Hops : keepsUp (m_maxLen m + 64) (length (dueAfter afterID (slice_at (m_events m) id))) ops) :
  ∃ m1 a, memWatchEvents id afterID m = (m1, Returned (Ok a)) ∧
    let s := foldl (watchStep id a) (mkWatchState m1 [] []) ops in
    let due := dueAfter afterID (slice_at (m_events m) id) ++ ws_appended s in
    ∃ buf, w_ch <$> m_heap (ws_store s) !! a = Some buf
      ∧ ws_received s ++ buf = due
      ∧ forward (ws_received s) `prefix_of` due
      ∧ ∀ l1 ev l2, due = l1 ++ ev :: l2 → Forall (λ ev, isTerminalStatusEvent ev = false) l1 →
          isTerminalStatusEvent ev = true → length l1 < length (ws_received s) →
          forward (ws_received s) = l1 ++ [ev].
Proof.
  destruct (watched_start m id j afterID Hwf Hcap Hj) as (m1 & a & E & Hs).
  exists m1, a. split; [done|]. cbn zeta.
  destruct (watched_run _ _ _ ops _ _ _ Hs Hops) as [n' [_ _ _ _ _ (buf & Hbuf & _ & Heq)]].
  exists buf. rewrite Hbuf, <-Heq. split_and!; [done|done| |].
  - etrans; [apply forward_prefix|]. by eexists.
  - intros l1 ev l2 Hdue Hn Hev Hlen.
    assert (ws_received (foldl (watchStep id a) (mkWatchState m1 [] []) ops)
            = l1 ++ ev :: take (length (ws_received (foldl (watchStep id a)
                (mkWatchState m1 [] []) ops)) - S (length l1)) l2) as ->.
    { rewrite <-(take_app_length (ws_received _) buf) at 1.
      rewrite Hdue, take_app_ge by lia. f_equal.
      destruct (_ - length l1) as [|k] eqn:Ek; [lia|]. simpl. do 2 f_equal. lia. }
    by apply forward_stops.
Qed.

(** A status change to a terminal status, appended to a running job. *)
Definition final_status : Event :=
  mkEvent "" EventStatusChange (marshalStatus (mkStatusPayload StatusSucceeded "")) (unixEpoch + Minute).

Definition watch_ops : list watchOp := [WRecv; WAppend 0 final_status; WRecv; WAppend 0 final_status].

Lemma two_event_store_wf : wf two_event_store.
Proof. apply wf_AppendEvent, wf_AppendEvent, wf_CreateJob, wf_NewMemStore. Qed.

Lemma live_watch_delivers_witness :
  ∃ m1 a, memWatchEvents sample_id "1000-1" two_event_store = (m1, Returned (Ok a)) ∧
    let s := foldl (watchStep sample_id a) (mkWatchState m1 [] []) watch_ops in
    let due := dueAfter "1000-1" (slice_at (m_events two_event_store) sample_id) ++ ws_appended s in
    ∃ buf, w_ch <$> m_heap (ws_store s) !! a = Some buf ∧ ws_received s ++ buf = due
      ∧ forward (ws_received s) `prefix_of` due
      ∧ ∀ l1 ev l2, due = l1 ++ ev :: l2 → Forall (λ ev, isTerminalStatusEvent ev = false) l1 →
          isTerminalStatusEvent ev = true → length l1 < length (ws_received s) →
          forward (ws_received s) = l1 ++ [ev].
Proof.
  apply (live_watch_delivers two_event_store sample_id "1000-1" sample_job watch_ops).
  - apply two_event_store_wf.
  - vm_compute. lia.
  - reflexivity.
  - vm_compute. lia.
Defined.

(** The run of the witness: the second event of the store, then the first of the
    two terminal announcements, which ends the stream. *)
Example watch_ops_forwarded :
  let '(m1, r) := memWatchEvents sample_id "1000-1" two_event_store in
  match r with
  | Returned (Ok a) =>
      ev_ID <$> forward (ws_received (foldl (watchStep sample_id a) (mkWatchState m1 [] []) watch_ops))
  | _ => []
  end = ["2000-2"; "60000-3"].
Proof. vm_compute. reflexivity. Qed.
