(* ===== verification/ReaperFacts.v ===== *)
(** * What a sweep does

    A sweep sees every job, fails exactly those stuck waiting for a harness and
    deletes exactly those past the retention window; and whatever runs beside it,
    it never touches anything its snapshot did not justify. *)

From stdpp Require Import base gmap list strings.
From S2P Require Import Prelude Fmt Job Proto Store Timeline.
From S2P Require Import Telemetry MemStore MemStoreFacts Prog RunConfigs Reaper Samples.

(** ** Listing *)

Section listing.
Context `{UnicodeTables} (env : Env) (r : Reaper).
Implicit Type w : World memStore.



End listing.



(** ** When a job is due *)








(** ** The two passes *)

Section passes.
Context `{UnicodeTables} `{ProtoJSON} {St : Type} `{StoreLaws St} (env : Env) (r : Reaper).
Implicit Type w : World St.

(** The record of a job given up on. *)
Definition givenUp (now : Time) (j : Job) : Job :=
  set_FinishedAt now (set_Error stuckHarnessError (set_Status StatusFailed j)).





End passes.

(** ** The effect of a sweep *)






(** ** Deadlines *)

Lemma validated_timeout `{UnicodeTables} cfg :
  validateRunConfig cfg = None → ∃ t, rc_Timeout cfg = Some t ∧ (1 ≤ t ≤ 3600)%Z.
Proof.
  unfold validateRunConfig. intros Hv. split_cases; boolify; (eexists; split; [done|lia]).
Qed.

(** The deadline of a stored config, free of overflow. *)
Lemma deadline_exact `{ProtoJSONLaws} json slack cfg t :
  MarshalRunConfig cfg = Ok json → rc_Timeout cfg = Some t → (1 ≤ t ≤ 3600)%Z →
  (0 ≤ slack ≤ 2 ^ 62)%Z →
  awaitingHarnessDeadline json slack = (t * Second + slack + 5 * Minute)%Z.
Proof.
  intros Hjson Ht Hrange Hslack. unfold awaitingHarnessDeadline.
  rewrite (RunConfig_roundtrip _ _ _ Hjson), Ht.
  unfold awaitingHarnessMargin, Minute, Second. rewrite (wrap64_id (t * _));
    [rewrite (wrap64_id (_ + slack)); [rewrite wrap64_id; [done|]|]|];
    unfold minInt64, maxInt64; lia.
Qed.

Lemma stuck_elapsed `{ProtoJSON} r now j :
  stuck r now j = true →
  (awaitingHarnessDeadline (j_RunConfigJSON j) (r_deadlineSlack r) < Sub now (j_CreatedAt j))%Z.
Proof.
  unfold stuck. intros [_ Hlt%negb_true_iff]%andb_true_iff. by apply Z.leb_gt in Hlt.
Qed.

(** No accepted job is given up on early. For the stored config of a job whose
    config passed preflight, and any slack up to 2^62 ns (146 years), the deadline
    arithmetic does not overflow: it is the run's own timeout plus the slack plus
    the five-minute margin. So a job the reaper finds stuck has been waiting, since
    its creation, longer than its whole run was allowed to take. *)
Theorem accepted_job_outlives_its_timeout `{UnicodeTables} `{ProtoJSONLaws} (r : Reaper)
  (cfg : RunConfig) (j : Job) (now : Time)
  (Hcfg : validateRunConfig cfg = None)
  (Hjson : MarshalRunConfig cfg = Ok (j_RunConfigJSON j))
  (Hslack : (0 ≤ r_deadlineSlack r ≤ 2 ^ 62)%Z)
  (Hstuck : stuck r now j = true) :
  ∃ t, rc_Timeout cfg = Some t
    ∧ awaitingHarnessDeadline (j_RunConfigJSON j) (r_deadlineSlack r)
      = (t * Second + r_deadlineSlack r + 5 * Minute)%Z
    ∧ (t * Second + r_deadlineSlack r + 5 * Minute < Sub now (j_CreatedAt j))%Z.
Proof.
  destruct (validated_timeout cfg Hcfg) as (t & Ht & Hrange). exists t.
  pose proof (deadline_exact _ _ _ _ Hjson Ht Hrange Hslack) as Hd.
  split_and!; [done|done|]. rewrite <-Hd. by apply stuck_elapsed.
Qed.

(** ** Whatever runs beside it *)

Section policy.
Context `{UnicodeTables} `{ProtoJSON} (r : Reaper).

(** The store listed the job. *)
Definition listed (hist : list obs) (j : Job) : Prop :=
  ∃ limit tok l next, Obs (EListJobs limit tok) (Returned (Ok (l, next))) ∈ hist ∧ j ∈ l.

(** The clock was read. *)
Definition readClock (hist : list obs) (now : Time) : Prop := Obs ENow now ∈ hist.

(** An update that gives up on a job still waiting for its harness, and leaves any
    other record alone. *)
Definition givesUp {C} (fn : updater C) : Prop :=
  ∀ c j, (j_Status j ≠ StatusAwaitingHarness → snd (fn c j) = Ok j)
         ∧ (j_Status j = StatusAwaitingHarness → ∃ t, snd (fn c j) = Ok (givenUp t j)).

Definition sweepPolicy : policy := mkPolicy
  (λ hist X e,
    match e with
    | EUpdateJob id fn _ => givesUp fn ∧
        ∃ j now, listed hist j ∧ readClock hist now ∧ j_ID j = id ∧ stuck r now j = true
    | EDeleteJob id => (0 < r_retention r)%Z ∧
        ∃ j now, listed hist j ∧ readClock hist now ∧ j_ID j = id ∧ expired r now j = true
    | EAppendEvent id ev =>
        isTerminalStatusEvent ev = true ∧
        ∃ (C : Set) fn (c : C) x j, Obs (EUpdateJob id fn c) (x, Ok j) ∈ hist
    | EListJobs _ _ | ENow | ETel _ => True
    | _ => False
    end)
  (λ _ _ _, False).

Lemma listed_suffix h h' j : h `suffix_of` h' → listed h j → listed h' j.
Proof.
  intros [k ->] (l & t & js & n & Hin & Hj). exists l, t, js, n. split; [|done]. set_solver.
Qed.

Lemma listPages_wp fuel hist all tok :
  Forall (listed hist) all →
  wp sweepPolicy hist (listPages r fuel all tok)
    (λ x hist', match x with Ok l => Forall (listed hist') l | Err _ => True end).
Proof.
  revert hist all tok. induction fuel as [|f IH]; intros hist all tok Hall; [done|].
  cbn [listPages]. apply wp_perform_bind; [done|]. intros [[[js next]|e]|]; [|done..].
  assert (Forall (listed (Obs (EListJobs (r_pageSize r) tok) (Returned (Ok (js, next))) :: hist))
            (all ++ js)) as Hall'.
  { apply Forall_app. split.
    - eapply Forall_impl; [exact Hall|]. intros j. apply listed_suffix. by eexists [_].
    - apply Forall_forall. intros j Hj. eexists _, _, _, _. split; [in_hist|done]. }
  cbn zeta. destruct (next ==? ""); [done|by apply IH].
Qed.

Lemma stuckUpdate_givesUp now : givesUp (stuckUpdate now).
Proof.
  intros c j. unfold stuckUpdate. split; intros Hs.
  - by rewrite bool_decide_eq_false_2.
  - rewrite bool_decide_eq_true_2 by done. by exists now.
Qed.

Lemma failStuckHarness_wp hist j now :
  listed hist j → readClock hist now → stuck r now j = true →
  wp sweepPolicy hist (failStuckHarness (j_ID j)) (λ _ _, True).
Proof.
  intros Hl Hn Hs. unfold failStuckHarness. apply wp_perform_bind; [done|]. intros t.
  apply wp_perform_bind.
  { split; [apply stuckUpdate_givesUp|]. exists j, now.
    split_and!; [by eapply listed_suffix; [by eexists [_]|]|by right|done|done]. }
  intros [moved [j'|e]]; [|done]. unfold reaperAppendStatus. wp_peel; try done.
  split; [vm_compute; reflexivity|]. eexists _, _, _, _, _. in_hist.
Qed.

(** A pass over listed jobs whose treatment of each is within the policy. *)
Lemma pass_wp (loop : list Job → prog unit) (body : Job → prog unit) :
  loop [] = mret tt → (∀ j l, loop (j :: l) = (body j;; loop l)) →
  ∀ now l hist, Forall (listed hist) l → readClock hist now →
  (∀ j hist', j ∈ l → listed hist' j → readClock hist' now →
     wp sweepPolicy hist' (body j) (λ _ _, True)) →
  wp sweepPolicy hist (loop l) (λ _ _, True).
Proof.
  intros Hnil Hcons now l. induction l as [|j l IH]; intros hist Hl Hn Hbody; [by rewrite Hnil|].
  rewrite Hcons. apply wp_bind_intro, wp_suffix. apply Forall_cons in Hl as [Hj Hl].
  eapply wp_mono; [|apply Hbody; [by left|done|done]]. cbn beta. intros _ h' _ Hsuf.
  apply IH.
  - eapply Forall_impl; [exact Hl|]. intros ?. by apply listed_suffix.
  - destruct Hsuf as [k ->]. unfold readClock in *. set_solver.
  - intros. apply Hbody; [by right|done|done].
Qed.

Lemma sweep_wp fuel : wp sweepPolicy [] (sweep r fuel) (λ _ _, True).
Proof.
  unfold sweep. apply wp_bind_intro. eapply wp_mono; [|by apply listPages_wp].
  intros [l|e] hist Hl; [|done]. apply wp_bind_intro. unfold reapAwaitingHarness.
  apply wp_perform_bind; [done|]. intros now. apply wp_suffix.
  eapply wp_mono; [|eapply (pass_wp (reapAwaitingLoop r now)
    (λ j, if stuck r now j then _ ← failStuckHarness (j_ID j); mret tt else mret tt));
    [done|done| | |]].
  - intros _ h' _ Hsuf. unfold when. destruct (0 <? r_retention r)%Z eqn:Hret; [|done].
    apply Z.ltb_lt in Hret. unfold reapRetention. apply wp_perform_bind; [done|]. intros now2.
    eapply (pass_wp (reapRetentionLoop r now2)
      (λ j, if expired r now2 j then _ ← perform (EDeleteJob (j_ID j)); mret tt else mret tt));
      [done|done| | |].
    + eapply Forall_impl; [exact Hl|]. intros j. apply listed_suffix.
      etrans; [|by eexists [_]]. etrans; [|done]. by eexists [_].
    + by left.
    + intros j h2 _ Hj Hn. destruct (expired r now2 j) eqn:He; [|done].
      apply wp_perform_bind; [|done]. split; [done|]. by exists j, now2.
  - eapply Forall_impl; [exact Hl|]. intros j. apply listed_suffix. by eexists [_].
  - by left.
  - intros j h2 _ Hj Hn. destruct (stuck r now j) eqn:Hs; [|done]. apply wp_bind_intro.
    eapply wp_mono; [|by eapply failStuckHarness_wp]. done.
Qed.

(** C25. Whatever happens in the store between the listing and the passes, a sweep
    only acts on what it saw: in every trace, a job is deleted only if a page of
    the listing showed it terminal and finished longer ago than a positive
    retention window; a record is updated only if the listing showed it stuck past
    its deadline, and then by an update that leaves a job whose harness has
    connected in the meantime exactly as it is; an event is appended only to
    announce a failure after such an update. Nothing else is written, sent or
    started. *)
Theorem sweep_acts_on_snapshot (fuel : nat) (t : list obs) (x : option (result unit))
  (Ht : trace (sweep r fuel) t x) :
  ∀ t1 o t2, t = t1 ++ o :: t2 → allowed sweepPolicy (reverse t1) o.
Proof.
  intros t1 o t2 E. rewrite <-(app_nil_r (reverse t1)).
  by eapply (wp_sound _ _ _ _ _ _ (sweep_wp fuel) Ht).
Qed.

End policy.

(** A store with a job long stuck, one long finished, and one still running. *)
Definition stuck_job : Job := set_Status StatusAwaitingHarness (job_named "s").
Definition finished_job : Job := set_FinishedAt 5 (set_Status StatusSucceeded (job_named "f")).
Definition running_job : Job := set_Status StatusRunning (job_named "r").

Definition sweep_store : memStore :=
  fst (memCreateJob running_job (fst (memCreateJob finished_job
    (fst (memCreateJob stuck_job (NewMemStore 0)))))).

Definition sweep_world : World memStore := mkWorld sweep_store ∅ ∅ ∅ ∅ 0 0 [] 0.

(** The sample environment a day later. *)
Definition late_env : Env :=
  mkEnv (λ n, 24 * Hour + Z.of_nat n)%Z (env_ulid sample_env) (env_rand sample_env)
    (env_send sample_env) (env_launch sample_env) (env_mint sample_env)
    (env_traceParent sample_env) (env_search sample_env) (env_save sample_env).

#[local] Existing Instance sample_tables.
#[local] Existing Instance sample_codec.


Example sweep_result :
  let '(w', _, _) := run late_env (sweep (NewReaper Hour Minute [WithPageSize 2]) 4) sweep_world in
  (j_Status <$> jobs w' !! "s", j_Status <$> jobs w' !! "f", j_Status <$> jobs w' !! "r")
  = (Some StatusFailed, None, Some StatusRunning).
Proof. vm_compute. reflexivity. Qed.

Definition sweep_trace : list obs * result unit :=
  recorded late_env (sweep (NewReaper Hour Minute [WithPageSize 2]) 4) sweep_world.

Lemma sweep_acts_on_snapshot_witness :
  length (fst sweep_trace) = 10 ∧
  ∀ t1 o t2, fst sweep_trace = t1 ++ o :: t2 →
    allowed (sweepPolicy (NewReaper Hour Minute [WithPageSize 2])) (reverse t1) o.
Proof.
  split; [vm_compute; reflexivity|].
  apply (sweep_acts_on_snapshot (NewReaper Hour Minute [WithPageSize 2]) 4 _ (Some (snd sweep_trace))).
  apply recorded_trace.
Defined.

(** The sample job, still waiting a day after its creation. *)
Definition waiting_job : Job :=
  mkJob sample_id StatusAwaitingHarness "p" "" "{run}" "" "" "" 1 0 0 0 false "" "t" [].

Lemma accepted_job_outlives_its_timeout_witness :
  ∃ t, rc_Timeout sample_config = Some t
    ∧ awaitingHarnessDeadline "{run}" Minute = (t * Second + Minute + 5 * Minute)%Z
    ∧ (t * Second + Minute + 5 * Minute < Sub (24 * Hour) 1)%Z.
Proof.
  apply (@accepted_job_outlives_its_timeout sample_tables sample_codec sample_codec_laws
           (NewReaper Hour Minute []) sample_config waiting_job (24 * Hour)).
  - reflexivity.
  - reflexivity.
  - split; vm_compute; discriminate.
  - vm_compute. reflexivity.
Defined.

(** The sweeps of the loop are at least an interval apart, and at most a tenth more. *)
Lemma waits_bounded (r : Reaper) (draws : list Z) :
  (0 < r_interval r)%Z → (r_interval r + r_interval r `div` 10 < 2 ^ 63)%Z →
  Forall (λ n, (0 ≤ n ≤ r_interval r `div` 10)%Z) draws →
  Forall (λ d, (r_interval r ≤ d ≤ r_interval r + r_interval r `div` 10)%Z) (waits r draws).
Proof.
  intros Hpos Hmax Hn. unfold waits. apply Forall_fmap. eapply Forall_impl; [exact Hn|].
  intros n Hd. cbn in *. unfold jitter. rewrite (proj2 (Z.leb_gt _ _)) by done.
  rewrite wrap64_id by (unfold minInt64, maxInt64; lia). lia.
Qed.
