(* ===== verification/LauncherFacts.v ===== *)
(** * What the Kubernetes launcher starts

    The harness started for a job is the one its session admits, runs under
    hairpin's own labels whatever the operator configured, and is given at least as
    long as its run may take, and less than the reaper waits. *)

From stdpp Require Import base gmap list strings.
From S2P Require Import Prelude Float Fmt Job Proto RunConfigs Config Launcher Reaper ReaperFacts.

Section launched.
Context `{UnicodeTables} `{ProtoJSON} (cfg : HarnessConfig) (addr : string).

(** The labels NetworkPolicies select on. *)
Definition ownLabels : list string :=
  ["app.kubernetes.io/name"; "app.kubernetes.io/managed-by"; "hairpin.rxbynerd.dev/job-id"].

(** The object handed to Kubernetes starts the one harness the job's session
    admits: it is named after the job, runs a single container that is never
    restarted, and the session ID in that container's environment parses back to
    the job's ID and a token the job accepts. Hairpin's identity labels are on the
    Job and on its Pod whatever labels the operator configured, which otherwise
    all apply; and retrying a launch whose object already landed succeeds. *)
Theorem launched_harness_is_the_jobs (j : Job) (Hid : ValidID (j_ID j) = true) :
  let k := k8sJob cfg addr j in
  kj_Name k = j_ID j
  ∧ kj_BackoffLimit k = 0%Z ∧ ps_RestartPolicy (kj_Pod k) = "Never"
  ∧ (∃ c session, ps_Containers (kj_Pod k) = [c]
      ∧ ("CONTROL_PLANE_SESSION_ID", session) ∈ cn_Env c
      ∧ (∀ v, ("CONTROL_PLANE_SESSION_ID", v) ∈ cn_Env c → v = session)
      ∧ fst (ParseSession session) = j_ID j ∧ AcceptsToken j (snd (ParseSession session)) = true)
  ∧ kj_PodLabels k = kj_Labels k
  ∧ kj_Labels k !! "app.kubernetes.io/name" = Some "stirrup"
  ∧ kj_Labels k !! "app.kubernetes.io/managed-by" = Some "hairpin"
  ∧ kj_Labels k !! "hairpin.rxbynerd.dev/job-id" = Some (j_ID j)
  ∧ (∀ l, l ∉ ownLabels → kj_Labels k !! l = hc_Labels cfg !! l)
  ∧ (∀ create, create (hc_Namespace cfg) k = AlreadyExists → Launch cfg addr create j = Ok tt).
Proof.
  cbn zeta. split_and!; try done.
  - eexists _, _. split; [done|]. split; [right; left|]. split.
    + intros v Hv. cbn in Hv. rewrite !elem_of_cons, elem_of_nil in Hv. naive_solver.
    + rewrite ParseSession_SessionString by done. split; [done|]. by apply AcceptsToken_spec.
  - cbn. unfold jobLabels. rewrite !lookup_insert_ne by done. apply lookup_insert_eq.
  - cbn. unfold jobLabels. rewrite lookup_insert_ne by done. apply lookup_insert_eq.
  - apply lookup_insert_eq.
  - intros l Hl. unfold ownLabels in Hl. rewrite !not_elem_of_cons in Hl. destruct_and!.
    cbn. unfold jobLabels. by rewrite !lookup_insert_ne.
  - intros create Hc. unfold Launch. by rewrite Hc.
Qed.

End launched.

(** C32. The deadlines of the launcher and of the reaper agree. For an accepted job
    and a slack of a whole number of seconds (up to 30 years), Kubernetes gives the
    harness its full run timeout plus the slack, and the reaper, configured with the
    same slack, waits for exactly that and five minutes more: a job it finds stuck
    has outlived the deadline of its Kubernetes Job. The conversion through floating
    point loses nothing and the sums do not overflow. *)
Theorem reaper_outwaits_kubernetes `{UnicodeTables} `{ProtoJSONLaws} (cfg : HarnessConfig)
  (r : Reaper) (rc : RunConfig) (j : Job) (now : Time) (s : Z)
  (Hrc : validateRunConfig rc = None)
  (Hjson : MarshalRunConfig rc = Ok (j_RunConfigJSON j))
  (Hne : j_RunConfigJSON j ≠ "")
  (Hs : (0 ≤ s ≤ 10 ^ 9)%Z)
  (Hslack : hc_ActiveDeadlineSlack cfg = (s * Second)%Z)
  (Hsame : r_deadlineSlack r = hc_ActiveDeadlineSlack cfg) :
  (∃ t, rc_Timeout rc = Some t ∧ activeDeadlineSeconds cfg j = (t + s)%Z)
  ∧ awaitingHarnessDeadline (j_RunConfigJSON j) (r_deadlineSlack r)
    = (activeDeadlineSeconds cfg j * Second + 5 * Minute)%Z
  ∧ (stuck r now j = true →
     activeDeadlineSeconds cfg j * Second + 5 * Minute < Sub now (j_CreatedAt j))%Z.
Proof.
  destruct (validated_timeout rc Hrc) as (t & Ht & Hrange).
  assert (activeDeadlineSeconds cfg j = (t + s)%Z) as Ha.
  { unfold activeDeadlineSeconds, runConfigTimeoutSeconds. rewrite bool_decide_eq_false_2 by done.
    rewrite (RunConfig_roundtrip _ _ _ Hjson), Ht, Hslack, Seconds_whole by lia.
    apply wrap64_id. unfold minInt64, maxInt64. lia. }
  assert (awaitingHarnessDeadline (j_RunConfigJSON j) (r_deadlineSlack r)
    = (activeDeadlineSeconds cfg j * Second + 5 * Minute)%Z) as Hd.
  { rewrite (deadline_exact _ _ rc t), Ha, Hsame, Hslack; try done; [lia|].
    rewrite Hsame, Hslack. unfold Second. lia. }
  split_and!; [eauto|done|]. intros Hstuck. rewrite <-Hd. by apply stuck_elapsed.
Qed.

(** ** Concrete objects *)

#[local] Existing Instance sample_tables.
#[local] Existing Instance sample_codec.

Definition sample_harness : HarnessConfig :=
  mkHarnessConfig "runs" "stirrup:1" "" "harness" ["keys"] 3600 (600 * Second)
    {["app.kubernetes.io/name" := "postgres"; "team" := "infra"]}.

Lemma launched_harness_is_the_jobs_witness :
  kj_Labels (k8sJob sample_harness "hairpin:8130" sample_job) !! "app.kubernetes.io/name"
  = Some "stirrup"
  ∧ kj_Labels (k8sJob sample_harness "hairpin:8130" sample_job) !! "team" = Some "infra".
Proof.
  destruct (launched_harness_is_the_jobs sample_harness "hairpin:8130" sample_job)
    as (_ & _ & _ & _ & _ & Hname & _ & _ & Hrest & _); [reflexivity|].
  split; [exact Hname|]. rewrite Hrest; [reflexivity|]. vm_compute. set_solver.
Defined.

Lemma reaper_outwaits_kubernetes_witness :
  (∃ t, rc_Timeout sample_config = Some t
        ∧ activeDeadlineSeconds sample_harness waiting_job = (t + 600)%Z)
  ∧ awaitingHarnessDeadline "{run}" (600 * Second)
    = (activeDeadlineSeconds sample_harness waiting_job * Second + 5 * Minute)%Z
  ∧ (stuck (NewReaper Hour (600 * Second) []) (24 * Hour) waiting_job = true →
     activeDeadlineSeconds sample_harness waiting_job * Second + 5 * Minute
     < Sub (24 * Hour) (j_CreatedAt waiting_job))%Z.
Proof.
  apply (@reaper_outwaits_kubernetes sample_tables sample_codec sample_codec_laws sample_harness
           (NewReaper Hour (600 * Second) []) sample_config waiting_job (24 * Hour) 600).
  - reflexivity.
  - reflexivity.
  - discriminate.
  - lia.
  - reflexivity.
  - reflexivity.
Defined.

(** A slack that is not a whole number of seconds is cut down to one. *)
Example activeDeadline_fraction :
  activeDeadlineSeconds
    (mkHarnessConfig "runs" "i" "" "" [] 0 (1500 * Millisecond) ∅) waiting_job = 601%Z.
Proof. vm_compute. reflexivity. Qed.

(** ** The client *)

(** A launcher is built from the cluster's own configuration where there is one; outside a
    cluster from the file the operator named and nothing else; and by the default rules
    only when no file was named.  It keeps the operator's configuration as it is. *)
Theorem NewK8s_sources {restConfig clientset : Type} (lib : clientGo restConfig clientset)
  (cfg : HarnessConfig) (addr : string) :
  match NewK8s lib cfg addr with
  | Ok k => k_cfg k = cfg ∧ k_advertiseAddr k = addr
      ∧ ∃ rc, cg_NewForConfig lib rc = Ok (k_client k)
          ∧ (cg_InClusterConfig lib = Ok rc
             ∨ (∃ e, cg_InClusterConfig lib = Err e)
               ∧ (hc_Kubeconfig cfg ≠ "" ∧ cg_BuildConfigFromFlags lib (hc_Kubeconfig cfg) = Ok rc
                  ∨ hc_Kubeconfig cfg = "" ∧ cg_DefaultConfig lib = Ok rc))
  | Err _ => True
  end.
Proof.
  unfold NewK8s, buildRestConfig. destruct (cg_InClusterConfig lib) as [rc|e].
  - destruct (cg_NewForConfig lib rc) eqn:E; [|done]. cbn. eauto 7.
  - case_bool_decide as Hk; cbn [negb].
    + destruct (cg_DefaultConfig lib) as [rc|]; [|done].
      destruct (cg_NewForConfig lib rc) eqn:E; [|done]. cbn. split_and!; [done..|]. exists rc. eauto 8.
    + destruct (cg_BuildConfigFromFlags lib _) as [rc|]; [|done].
      destruct (cg_NewForConfig lib rc) eqn:E; [|done]. cbn. split_and!; [done..|]. exists rc. eauto 8.
Qed.

(** A named file that is no good is an error even where the default rules have a usable
    configuration. *)
Lemma kubeconfig_shadows_defaults {restConfig clientset : Type} (lib : clientGo restConfig clientset)
  (cfg : HarnessConfig) (addr : string) e e' :
  cg_InClusterConfig lib = Err e → hc_Kubeconfig cfg ≠ "" →
  cg_BuildConfigFromFlags lib (hc_Kubeconfig cfg) = Err e' →
  NewK8s lib cfg addr = Err (wrapf "launcher: build kubernetes client config" e').
Proof.
  intros Hc Hk Hf. unfold NewK8s, buildRestConfig. rewrite Hc, bool_decide_eq_false_2 by done.
  cbn. by rewrite Hf.
Qed.
