(* ===== verification/TokenIssuerFacts.v ===== *)
(** * Tokens a verifier can check

    What a minted token says, and that the published document names and describes
    the key it was signed with. *)

From stdpp Require Import base gmap list strings.
From Stdlib Require Import Ascii.
From S2P Require Import Prelude Utf8 Fmt Json Job Base64 TokenIssuer.

(** ** Reading the document back *)

(** A document with one entry reads back as that entry. *)
Lemma parse_document k v kvs :
  parse ("{" +:+ quoteString "keys" +:+ ":[{" +:+ marshalMembers ((k, v) :: kvs) +:+ "}]}")
  = Some (JObj [("keys", JArr [JObj (sanitized <$> (k, v) :: kvs)])]).
Proof.
  pose proof (len_marshalMembers ((k, v) :: kvs)) as Hlen.
  set (M := marshalMembers ((k, v) :: kvs)) in *.
  assert (∃ u, M +:+ "}]}" = String dquote u) as [u Hu] by apply marshalMembers_dquote.
  unfold parse.
  assert (∃ f, 2 * len ("{" +:+ quoteString "keys" +:+ ":[{" +:+ M +:+ "}]}") + 2
               = S (S (S (S (S (S (S f)))))) ∧ S (length kvs) ≤ f) as (f & -> & Hf).
  { exists (2 * len ("{" +:+ quoteString "keys" +:+ ":[{" +:+ M +:+ "}]}") - 5).
    rewrite !len_app. change (len (quoteString "keys")) with 6. cbn [len length] in *. lia. }
  rewrite quoteString_app. change (":[{" +:+ ?t) with (String ":" (String "[" (String "{" t))).
  change ("{" +:+ ?t) with (String "{" t).
  change maxNestingDepth with (S (S (S (pred (pred (pred maxNestingDepth)))))).
  generalize (pred (pred (pred maxNestingDepth))). intros d.
  rewrite parseValue_object_of, parseMembers_dquote, unquote_literal. cbn [mbind option_bind].
  change (skipWs (String ":" ?t)) with (String ":" t). cbv beta iota.
  rewrite parseValue_array_of. cbn [parseElements]. rewrite Hu, parseValue_object_of, <-Hu.
  change (M +:+ "}]}") with (M +:+ String "}" "]}"). unfold M.
  rewrite parseMembers_marshal; [done|done|]. cbn. lia.
Qed.

(** ** Tokens *)

Lemma NewIssuer_Ok Sum256 pub issuer audience ttl i :
  NewIssuer Sum256 pub issuer audience ttl = Ok i →
  ∃ pk x y, pub = Some pk ∧ issuer ≠ "" ∧ audience ≠ "" ∧ (0 < ttl)%Z
    ∧ coords pk = Ok (x, y) ∧ KeyIDOf Sum256 pk = Ok (i_kid i)
    ∧ i_jwks i = "{" +:+ quoteString "keys" +:+ ":[{" +:+ marshalMembers (jwk x y (i_kid i)) +:+ "}]}"
    ∧ i_issuer i = issuer ∧ i_audience i = audience ∧ i_ttl i = ttl.
Proof.
  unfold NewIssuer, JWKSDocument. intros Hn. destruct pub as [pk|]; [|done].
  case_bool_decide; [|done]. do 2 (case_bool_decide; [done|]).
  destruct (Z.leb_spec ttl 0) as [|Httl]; [done|]. cbn [negb] in Hn.
  destruct (KeyIDOf Sum256 pk) as [kid|] eqn:Hk; [|done]. cbn [mbind res_bind] in Hn.
  destruct (coords pk) as [[x y]|] eqn:Hc; [|done]. cbn [mbind res_bind] in Hn.
  injection Hn as <-. exists pk, x, y. by split_and!.
Qed.

Lemma coords_Ok pk x y :
  coords pk = Ok (x, y) →
  ∃ X Y, pk_Bytes pk = Ok (4%N :: X ++ Y) ∧ length X = 32 ∧ length Y = 32
    ∧ x = EncodeToString X ∧ y = EncodeToString Y.
Proof.
  unfold coords. case_bool_decide; [|done]. cbn [negb].
  destruct (pk_Bytes pk) as [raw|]; [|done].
  destruct (Nat.eqb_spec (length raw) (1 + 2 * coordSize)) as [Hl|]; [|done].
  destruct raw as [|b raw]; [done|]. case_bool_decide as Hb; [|done]. injection Hb as ->.
  cbn [negb orb]. intros [= <- <-]. exists (take 32 raw), (drop 32 raw).
  rewrite take_drop, length_take, length_drop. cbn in Hl. split_and!; (done || lia).
Qed.

Lemma mintHeader_eq i :
  mintHeader i = {["typ" := "at+jwt"; "alg" := "ES256"; "kid" := i_kid i]}.
Proof.
  apply map_eq. intros k. unfold mintHeader, tokenType.
  rewrite !lookup_insert, !lookup_singleton. repeat case_decide; simplify_eq; done.
Qed.

(** C40. What a sandbox identity token says. A token minted for a job by an issuer
    that was set up names that job as subject, the configured issuer and audience,
    and an expiry exactly the configured lifetime after the clock reading, later
    than it; it carries the scope claim whatever the scope, an absent scope as the
    empty list that grants nothing; it has no other claims; and its header names
    the issuer's key, the ES256 algorithm and the access-token type. *)
Theorem Mint_claims (Sum256 : string → list N) (pub : option PublicKey) (issuer audience : string)
  (ttl : Duration) (i : Issuer) (sign : gmap string string → gmap string claim → res string)
  (sub : string) (scope : option (list string)) (now : Time) (rnd : list N)
  (token : string) (expiresAt : Time)
  (Hi : NewIssuer Sum256 pub issuer audience ttl = Ok i)
  (Hm : Mint sign i sub scope now (Ok rnd) = Ok (token, expiresAt)) :
  expiresAt = (now + ttl)%Z ∧ (now < expiresAt)%Z
  ∧ ∃ hdr claims, sign hdr claims = Ok token
    ∧ hdr = {["typ" := "at+jwt"; "alg" := "ES256"; "kid" := i_kid i]}
    ∧ claims !! "sub" = Some (CString sub)
    ∧ claims !! "iss" = Some (CString issuer) ∧ claims !! "aud" = Some (CString audience)
    ∧ claims !! "iat" = Some (CNumber (Unix now)) ∧ claims !! "exp" = Some (CNumber (Unix expiresAt))
    ∧ claims !! "jti" = Some (CString (hexEncode rnd))
    ∧ claims !! repoScopeClaim = Some (CStrings (default [] scope))
    ∧ size claims = 7.
Proof.
  apply NewIssuer_Ok in Hi as (pk & x & y & _ & _ & _ & Httl & _ & _ & _ & <- & <- & <-).
  unfold Mint in Hm. cbn [randomJTI] in Hm. destruct (sign _ _) as [tok|] eqn:Es; [|done].
  injection Hm as <- <-. split_and!; [done|lia|]. eexists _, _. split; [exact Es|].
  split; [apply mintHeader_eq|].
  unfold mintClaims. by split_and!.
Qed.

(** C35. A verifier that fetches the published document finds the key a token was
    signed with. The document of an issuer that was set up is JSON with one key;
    its kid is the one in the header of every minted token, and its coordinates
    decode to the two halves of the public key's encoding. [GET] serves exactly that
    document. The hash is any function to bytes. *)
Theorem jwks_describes_signing_key (Sum256 : string → list N) (pk : PublicKey)
  (issuer audience : string) (ttl : Duration) (i : Issuer) (raw : list N)
  (Hsum : ∀ s, Forall isByte (Sum256 s))
  (Hraw : pk_Bytes pk = Ok raw) (Hbytes : Forall isByte raw)
  (Hi : NewIssuer Sum256 (Some pk) issuer audience ttl = Ok i) :
  ∃ X Y x y, raw = 4%N :: X ++ Y
    ∧ parse (hr_Body (JWKSHandler i "GET"))
      = Some (JObj [("keys", JArr [JObj
          [("kty", JStr "EC"); ("crv", JStr "P-256"); ("x", JStr x); ("y", JStr y);
           ("kid", JStr (i_kid i)); ("alg", JStr "ES256"); ("use", JStr "sig")]])])
    ∧ DecodeString x = Some X ∧ DecodeString y = Some Y
    ∧ length X = 32 ∧ length Y = 32
    ∧ mintHeader i !! "kid" = Some (i_kid i)
    ∧ hr_Status (JWKSHandler i "GET") = 200%Z.
Proof.
  apply NewIssuer_Ok in Hi as (pk' & x & y & [= <-] & _ & _ & _ & Hc & Hk & Hj & _).
  pose proof Hc as (X & Y & HX & HlX & HlY & -> & ->)%coords_Ok. rewrite Hraw in HX. injection HX as ->.
  apply Forall_cons_1 in Hbytes as [_ [HbX HbY]%Forall_app].
  assert (∃ bs, Forall isByte bs ∧ i_kid i = EncodeToString bs) as (bs & Hbs & Hkid).
  { unfold KeyIDOf in Hk. rewrite Hc in Hk. cbn in Hk. injection Hk as <-. eauto. }
  exists X, Y, (EncodeToString X), (EncodeToString Y).
  split_and!; try done; try by apply Decode_Encode.
  change (hr_Body _) with (i_jwks i). rewrite Hj. unfold jwk. rewrite parse_document.
    rewrite !fmap_cons. unfold sanitized. cbn [fst snd]. rewrite Hkid.
    rewrite (sanitize_ascii (EncodeToString X)), (sanitize_ascii (EncodeToString Y)),
      (sanitize_ascii (EncodeToString bs)) by (by apply Encode_ascii).
    reflexivity.
Qed.

(** ** A concrete issuer *)

Definition sample_hash (s : string) : list N := replicate 32 7%N.

Definition sample_key : PublicKey := mkPublicKey P256 (Ok (4%N :: replicate 32 1%N ++ replicate 32 2%N)).

Definition sample_issuer : Issuer :=
  match NewIssuer sample_hash (Some sample_key) "https://hairpin" "https://haybale" (15 * Minute) with
  | Ok i => i
  | Err _ => mkIssuer sample_key "" "" "" "" 0
  end.

(** A signer that only shows the subject. *)
Definition sample_sign (hdr : gmap string string) (claims : gmap string claim) : res string :=
  match claims !! "sub" with Some (CString s) => Ok ("jwt:" +:+ s) | _ => Err (ErrNew "no subject") end.

Lemma Mint_claims_witness :
  (900 * Second)%Z = (0 + 15 * Minute)%Z ∧ (0 < 900 * Second)%Z
  ∧ ∃ hdr claims, sample_sign hdr claims = Ok "jwt:hp-1"
    ∧ hdr = {["typ" := "at+jwt"; "alg" := "ES256"; "kid" := i_kid sample_issuer]}
    ∧ claims !! "sub" = Some (CString "hp-1")
    ∧ claims !! "iss" = Some (CString "https://hairpin")
    ∧ claims !! "aud" = Some (CString "https://haybale")
    ∧ claims !! "iat" = Some (CNumber (Unix 0))
    ∧ claims !! "exp" = Some (CNumber (Unix (900 * Second)))
    ∧ claims !! "jti" = Some (CString (hexEncode (replicate 16 9%N)))
    ∧ claims !! repoScopeClaim = Some (CStrings (default [] None))
    ∧ size claims = 7.
Proof.
  apply (Mint_claims sample_hash (Some sample_key) "https://hairpin" "https://haybale" (15 * Minute)
           sample_issuer sample_sign "hp-1" None 0 (replicate 16 9%N) "jwt:hp-1" (900 * Second)).
  - vm_compute. reflexivity.
  - vm_compute. reflexivity.
Defined.

Lemma jwks_describes_signing_key_witness :
  ∃ X Y x y, (4%N :: replicate 32 1%N ++ replicate 32 2%N) = 4%N :: X ++ Y
    ∧ parse (hr_Body (JWKSHandler sample_issuer "GET"))
      = Some (JObj [("keys", JArr [JObj
          [("kty", JStr "EC"); ("crv", JStr "P-256"); ("x", JStr x); ("y", JStr y);
           ("kid", JStr (i_kid sample_issuer)); ("alg", JStr "ES256"); ("use", JStr "sig")]])])
    ∧ DecodeString x = Some X ∧ DecodeString y = Some Y
    ∧ length X = 32 ∧ length Y = 32
    ∧ mintHeader sample_issuer !! "kid" = Some (i_kid sample_issuer)
    ∧ hr_Status (JWKSHandler sample_issuer "GET") = 200%Z.
Proof.
  apply (jwks_describes_signing_key sample_hash sample_key "https://hairpin" "https://haybale"
           (15 * Minute) sample_issuer).
  - intros s. repeat constructor.
  - reflexivity.
  - repeat constructor.
  - vm_compute. reflexivity.
Defined.
