(* ===== verification/ServiceFacts.v ===== *)
(** * The caller-facing operations

    What [Submit] persists and starts, in every trace; how a job moves when it is
    launched or cancelled, run against any store that keeps its contract; and the
    order in which a permission answer is recorded and delivered. *)

From stdpp Require Import base gmap list strings.
From S2P Require Import Prelude Utf8 Fmt Job Proto Store Timeline Telemetry Registry Prog Memory.
From S2P Require Import Handler RunConfigs RunConfigFacts Service.
From S2P Require Import MemStore MemStoreFacts Pump Samples.

Section submit.
Context `{UnicodeTables} `{ProtoJSON}.
Variable s : Service.

(** ** Submit *)

(** A record fit to be created: queued, under a fresh ID that is also the run ID of
    an acceptable config, with every tool it declares one this server fulfils. *)
Definition submittable (hist : list obs) (p : SubmitParams) (j : Job) : Prop :=
  j_Status j = StatusQueued
  ∧ (∃ ulid, Obs EUlid ulid ∈ hist ∧ j_ID j = NewID ulid)
  ∧ (∃ rnd, Obs ERandRead rnd ∈ hist ∧ j_HarnessToken j = NewHarnessToken rnd)
  ∧ j_RepoScope j = sub_RepoScope p
  ∧ length (j_RepoScope j) ≤ maxRepoScopeEntries ∧ Forall repoEntryOk (j_RepoScope j)
  ∧ ∃ cfg, MarshalRunConfig cfg = Ok (j_RunConfigJSON j) ∧ acceptable cfg
      ∧ rc_RunId cfg = j_ID j ∧ rc_Prompt cfg = j_Prompt j
      ∧ (sub_Prompt p ≠ "" → j_Prompt j = sub_Prompt p)
      ∧ validateControlPlaneTools (GetControlPlane cfg) (sv_memoryTools s) = None.

(** [Submit] creates nothing but such a record, announces it, and launches it only
    once it is durable. *)
Definition submitPolicy (p : SubmitParams) : policy := mkPolicy
  (λ hist X e,
    match e with
    | ECreateJob j => submittable hist p j
    | EAppendEvent id _ => ∃ j, j_ID j = id ∧ Obs (ECreateJob j) (Ok tt) ∈ hist
    | EWgAdd launches | ENow | EUlid | ERandRead | ETraceParent | ETel _ => True
    | _ => False
    end)
  (λ hist l q,
    ∃ j, l = LaunchOf (j_ID j) ∧ q = launch j ∧ Obs (ECreateJob j) (Ok tt) ∈ hist
      ∧ Obs (EWgAdd launches) tt ∈ hist).

(** What the caller may conclude from the result. *)
Definition submitResult (r : res Job) (hist : list obs) : Prop :=
  match r with
  | Ok j => Obs (ECreateJob j) (Ok tt) ∈ hist ∧ Started (LaunchOf (j_ID j)) (launch j) ∈ hist
  | Err _ => (∀ j, Obs (ECreateJob j) (Ok tt) ∉ hist) ∧ ∀ l q, Started l q ∉ hist
  end.

Lemma effectiveConfig_fields cfg id p :
  rc_RunId (effectiveConfig s cfg id p) = id
  ∧ (sub_Prompt p ≠ "" → rc_Prompt (effectiveConfig s cfg id p) = sub_Prompt p).
Proof.
  unfold effectiveConfig, applyTraceEmitterDefault, applyExecutorDefaults.
  destruct cfg; cbn. repeat (case_match; cbn in *; simplify_eq); boolify; naive_solver.
Qed.

(** An observation that creates and starts nothing. *)
Definition idle (o : obs) : bool :=
  match o with
  | Obs (ECreateJob _) (Ok _) => false
  | Started _ _ => false
  | _ => true
  end.

Lemma submitResult_idle e hist :
  forallb idle hist = true → submitResult (Err e) hist.
Proof.
  rewrite List.forallb_forall. intros Hi.
  split; [intros j Hin|intros l q Hin]; apply list_elem_of_In in Hin; by apply Hi in Hin.
Qed.

Lemma Submit_wp p : wp (submitPolicy p) [] (Submit s p) submitResult.
Proof.
  assert (∀ profile outcome e hist, forallb idle hist = true →
    wp (submitPolicy p) hist (failSubmit profile outcome e) submitResult) as Hfail.
  { intros profile outcome e hist Hi. split; [done|]. intros []. by apply submitResult_idle. }
  unfold Submit. destruct (resolveConfig _ p) as [[cfg profile]|e]; [|by apply Hfail].
  destruct (validateRepoScope _) eqn:Hscope; [by apply submitResult_idle|].
  apply validateRepoScope_spec in Hscope as [Hlen Hent].
  apply wp_perform_bind; [done|]. intros ulid.
  destruct (effectiveConfig_fields cfg (NewID ulid) p) as [Hid Hprompt].
  set (cfg' := effectiveConfig s cfg (NewID ulid) p) in *. clearbody cfg'.
  destruct (validateRunConfig cfg') eqn:Hval; [by apply Hfail|].
  apply validateRunConfig_spec in Hval.
  destruct (validateControlPlaneTools _ _) eqn:Htools; [by apply Hfail|].
  destruct (MarshalRunConfig cfg') as [json|e] eqn:Hjson; [|by apply Hfail].
  apply wp_perform_bind; [done|]. intros at_. apply wp_perform_bind; [done|]. intros rnd.
  apply wp_perform_bind; [done|]. intros tp.
  set (j := mkJob _ _ _ _ _ _ _ _ _ _ _ _ _ _ _ _).
  apply wp_perform_bind.
  { split_and!; cbn; try done; [exists ulid|exists rnd|]; [split; [in_hist|done]..|].
    exists cfg'. split_and!; done. }
  intros [[]|e]; [|by apply Hfail].
  apply wp_perform_bind; [done|]. intros []. apply wp_bind_intro.
  unfold appendStatusEvent. apply wp_perform_bind; [done|]. intros at2.
  apply wp_perform_bind; [exists j; split; [done|in_hist]|]. intros x.
  apply wp_perform_bind; [done|]. intros [].
  split; [exists j; split_and!; [done|done|in_hist|in_hist]|]. split; in_hist.
Qed.

(** C13. A submission persists only what hairpin can run, and launches only what it
    persisted. In every trace of [Submit]: the one record it may create is queued,
    carries a fresh ID and token, a checked repo scope and the encoding of an
    acceptable config whose run ID is the job's ID and whose prompt is the caller's;
    the background launch is started only after the store accepted that record. On
    success the record exists and its launch was started; on an error nothing was
    created and nothing launched. *)
Theorem Submit_persists_before_launch (p : SubmitParams) (t : list obs)
  (r : option (result (res Job))) (Ht : trace (Submit s p) t r) :
  (∀ t1 o t2, t = t1 ++ o :: t2 → allowed (submitPolicy p) (reverse t1) o)
  ∧ ∀ x, r = Some (Done x) → submitResult x (reverse t).
Proof.
  destruct (wp_sound _ _ _ _ _ _ (Submit_wp p) Ht) as [Ha HQ]. split.
  - intros t1 o t2 E. rewrite <-(app_nil_r (reverse t1)). by eapply Ha.
  - intros x E. rewrite <-(app_nil_r (reverse t)). by apply HQ.
Qed.

End submit.

(** ** Launching and cancelling *)

Section moves.
Context `{UnicodeTables} `{ProtoJSON} {St : Type} `{StoreLaws St} (env : Env).
Implicit Type w : World St.

Lemma total_appendStatusEvent id st e : total bookkeeping (appendStatusEvent id st e).
Proof. unfold appendStatusEvent. by permit. Qed.

(** The record after a move. *)
Definition movedTo (to : Status) (errText : string) (now : Time) (j : Job) : Job :=
  let j := set_Status to j in
  let j := if errText !=? "" then set_Error errText j else j in
  if Terminal to then set_FinishedAt now j else j.

(** [transition] moves the record exactly when it is in the status it expects. *)
Lemma runsTo_transition id from to errText w j (Φ : bool → World St → Prop) :
  jobs w !! id = Some j →
  (∀ w' now, jobs w' = (if j_Status j ==? from
                        then <[id := movedTo to errText now j]> (jobs w) else jobs w) →
     Φ (j_Status j ==? from) w') →
  runsTo env (transition id from to errText) w Φ.
Proof.
  intros Hj HΦ. unfold transition. apply runsTo_bookkeeping_bind; [by permit|]. intros now w1 Hj1.
  eapply runsTo_update; [by rewrite Hj1|]. intros w2 Hj2 _ _ _. rewrite Hj1 in Hj2.
  unfold transitionUpdate in *. destruct (j_Status j ==? from) eqn:Ef; cbn [negb snd] in *.
  - apply runsTo_bookkeeping_bind; [by permit|]. intros [] w3 Hj3. apply runsTo_ret.
    apply (HΦ _ now). by rewrite Hj3, Hj2.
  - apply runsTo_ret, (HΦ _ now). by rewrite Hj2, insert_id.
Qed.

(** A background launch takes a queued job to [awaiting_harness] when the
    launcher succeeds, and to [failed] with the launcher's error and a finish time
    when it does not; a job that has meanwhile left the queue (cancelled, or already
    claimed by a harness) is left exactly as it is. The launch always completes. *)
Theorem launch_moves_only_queued (j0 j : Job) (w : World St)
  (Hj : jobs w !! j_ID j0 = Some j) :
  runsTo env (launch j0) w (λ _ w',
    ∃ n now, jobs w' = if j_Status j ==? StatusQueued then
                         <[j_ID j0 := match env_launch env n j0 with
                                      | Ok _ => set_Status StatusAwaitingHarness j
                                      | Err e => movedTo StatusFailed (Error e) now j
                                      end]> (jobs w)
                       else jobs w).
Proof.
  unfold launch. apply runsTo_bind. eapply runsTo_transition; [done|]. intros w1 now1 Hj1.
  destruct (j_Status j ==? StatusQueued); cbn [negb]; cycle 1.
  { apply runsTo_bookkeeping; [by permit|]. intros _ w2 Hj2. exists 0, 0%Z. congruence. }
  apply runsTo_bind. apply runsTo_bookkeeping_bind; [by permit|]. intros started w2 Hj2.
  apply runsTo_act. cbn [actTick act fst snd].
  apply runsTo_bookkeeping_bind; [by permit|]. intros now2 w3 Hj3. rewrite jobs_set_tick in Hj3.
  assert (jobs w3 = <[j_ID j0 := movedTo StatusLaunching "" now1 j]> (jobs w)) as Hw3 by congruence.
  clear Hj1 Hj2 Hj3. destruct (env_launch env (w_tick w2) j0) as [[]|e] eqn:El;
    (apply runsTo_bookkeeping_bind; [by permit|]); intros [] w4 Hj4; apply runsTo_bind;
    (eapply runsTo_transition; [rewrite Hj4, Hw3; apply lookup_insert_eq|]);
    intros w5 now5 Hj5; apply runsTo_ret, runsTo_bookkeeping; try done;
    intros _ w6 Hj6; exists (w_tick w2), now5; rewrite El, Hj6, Hj5, Hj4, Hw3.
  all: destruct j; cbn; unfold movedTo; cbn; rewrite insert_insert_eq; repeat case_match; done.
Qed.

(** A run of [cancelUnassigned] on a live job. *)
Lemma runsTo_cancelUnassigned id w j (Φ : res Job → World St → Prop) :
  jobs w !! id = Some j → Terminal (j_Status j) = false →
  (∀ w' now,
     let j' := set_FinishedAt now (set_CancelRequested true (set_Status StatusCancelled j)) in
     jobs w' = <[id := j']> (jobs w) → Φ (Ok j') w') →
  runsTo env (cancelUnassigned id) w Φ.
Proof.
  intros Hj Ht HΦ. unfold cancelUnassigned. apply runsTo_bookkeeping_bind; [by permit|].
  intros now w1 Hj1. eapply runsTo_update; [by rewrite Hj1|]. intros w2 Hj2 _ _ _.
  unfold cancelUpdate in *. rewrite Ht in *. cbn [snd] in Hj2.
  apply runsTo_bookkeeping_bind; [by permit|]. intros [] w3 Hj3. apply runsTo_ret.
  apply (HΦ _ now). by rewrite Hj3, Hj2, Hj1.
Qed.

(** What a run of the rest of [Cancel] sees after its first reading. *)
Lemma runsTo_Cancel id w j (Φ : res Job → World St → Prop) :
  ValidID id = true → jobs w !! id = Some j →
  (∀ w', jobs w' = jobs w → w_reg w' = w_reg w → w_sessions w' = w_sessions w →
     w_streams w' = w_streams w →
     runsTo env (if Terminal (j_Status j) then mret (Ok j) else cancelLive id) w' Φ) →
  runsTo env (Cancel id) w Φ.
Proof.
  intros Hid Hj HΦ. unfold Cancel, checked, checkID. rewrite Hid. cbn [negb]. apply runsTo_act.
  assert (actTick env (EGetJob id) w = (set_tick (S (w_tick w)) w, Ok j)) as ->.
  { unfold actTick. cbn [act]. pose proof (law_GetJob id (w_store w)) as Hl.
    unfold jobs in Hj. rewrite Hj in Hl. by rewrite Hl. }
  cbn [fst snd]. apply HΦ; by destruct w.
Qed.

(** A message for a job whose session is open and whose transport works. *)
Lemma runsTo_registrySend {B} id ev (f : res unit → prog B) w sess st i e sent
  (Φ : B → World St → Prop) :
  w_reg w !! id = Some sess → w_sessions w !! sess = Some (mkSession st false) →
  w_streams w !! st = Some (mkStream i e sent) → (∀ n, env_send env n st = None) →
  (∀ w', jobs w' = jobs w → w_streams w' !! st = Some (mkStream i e (sent ++ [ev])) →
     runsTo env (f (Ok tt)) w' Φ) →
  runsTo env (registrySend id ev ≫= f) w Φ.
Proof.
  intros Hr Hs Hst Hsend HΦ. unfold registrySend. apply runsTo_bind, runsTo_act.
  unfold actTick. cbn [act fst snd]. unfold sessionFor. rewrite Hr. apply runsTo_perform.
  unfold actTick. cbn [act]. unfold sessionSend, transmit. destruct w; cbn in *.
  rewrite Hs, Hsend, Hst. cbn. apply HΦ; [done|]. cbn. by rewrite lookup_insert_eq.
Qed.

(** C26. Cancelling a job does what its state calls for. A terminal job is returned
    untouched. A live job with no registered session is settled at once: cancelled,
    with the request recorded and a finish time. A live job whose session is open is
    not settled but asked: the request is recorded, and a cancel goes out on its
    stream. In each case the record returned is the one stored, and no other job is
    touched. *)
Theorem Cancel_by_state (id : string) (w : World St) (j : Job)
  (Hid : ValidID id = true) (Hj : jobs w !! id = Some j) :
  (Terminal (j_Status j) = true →
    runsTo env (Cancel id) w (λ r w', r = Ok j ∧ jobs w' = jobs w))
  ∧ (Terminal (j_Status j) = false → Connected id (w_reg w) = false →
    runsTo env (Cancel id) w (λ r w', ∃ now,
      let j' := set_FinishedAt now (set_CancelRequested true (set_Status StatusCancelled j)) in
      r = Ok j' ∧ jobs w' = <[id := j']> (jobs w)))
  ∧ (∀ sess st i e sent, Terminal (j_Status j) = false →
    w_reg w !! id = Some sess → w_sessions w !! sess = Some (mkSession st false) →
    w_streams w !! st = Some (mkStream i e sent) → (∀ n, env_send env n st = None) →
    runsTo env (Cancel id) w (λ r w',
      r = Ok (set_CancelRequested true j)
      ∧ jobs w' = <[id := set_CancelRequested true j]> (jobs w)
      ∧ w_streams w' !! st = Some (mkStream i e (sent ++ [control_of_type "cancel"])))).
Proof.
  split_and!.
  - intros Ht. eapply runsTo_Cancel; [done..|]. rewrite Ht. intros. by apply runsTo_ret.
  - intros Ht Hc. eapply runsTo_Cancel; [done..|]. rewrite Ht. intros w1 Hj1 Hr1 _ _.
    unfold cancelLive. apply runsTo_act. unfold actTick. cbn [act fst snd]. rewrite Hr1, Hc.
    eapply runsTo_cancelUnassigned; [by rewrite jobs_set_tick, Hj1|done|].
    intros w' now j' Hw'. exists now. split; [done|]. by rewrite Hw', jobs_set_tick, Hj1.
  - intros sess st i e sent Ht Hr Hs Hst Hsend. eapply runsTo_Cancel; [done..|]. rewrite Ht.
    intros w1 Hj1 Hr1 Hs1 Hst1. unfold cancelLive. apply runsTo_act.
    unfold actTick. cbn [act fst snd]. unfold Connected.
    rewrite Hr1, bool_decide_eq_true_2 by (by rewrite Hr).
    eapply runsTo_update; [by rewrite jobs_set_tick, Hj1|]. cbn [pureUpdater snd].
    rewrite jobs_set_tick, Hj1. intros w2 Hj2 Hr2 Hs2 Hst2.
    eapply (runsTo_registrySend _ _ _ _ sess st i e sent); [destruct w1; cbn in *; congruence..|done|].
    intros w3 Hj3 Hst3. apply runsTo_ret. by rewrite Hj3, Hj2.
Qed.

End moves.

(** ** Answering a permission request *)

Section permissions.
Context `{UnicodeTables}.
Variables (jobID requestID reason : string) (allow : bool).

(** The last permission record written, or attempted. *)
Fixpoint lastPut (hist : list obs) : option PermissionRequest :=
  match hist with
  | [] => None
  | Obs (EPutPermission _ p) _ :: _ => Some p
  | _ :: hist' => lastPut hist'
  end.

(** A message got through to the harness. *)
Definition isDelivery (o : obs) : bool :=
  match o with Obs (ESessionSend _ _) (Ok _) => true | _ => false end.

(** The store accepted a permission record. *)
Definition isRecorded (o : obs) : bool :=
  match o with Obs (EPutPermission _ _) (Ok _) => true | _ => false end.

(** The message that carries the decision. *)
Definition decision : ControlEvent :=
  mkControlEvent "permission_response" None "" requestID (Some allow) reason "" None "" None.

(** The request was pending when it was read. *)
Definition wasPending (hist : list obs) (orig : PermissionRequest) : Prop :=
  Obs (EGetPermission jobID requestID) (Ok orig) ∈ hist ∧ pr_State orig = PermissionPending.

Definition answerPolicy : policy := mkPolicy
  (λ hist X e,
    match e with
    | EGetPermission id r => id = jobID ∧ r = requestID
    | EPutPermission id p =>
        id = jobID ∧ ∃ orig now, wasPending hist orig
          ∧ (p = answer_permission orig allow reason now ∨ p = orig)
    | ESessionSend _ ev =>
        ev = decision ∧ ∃ orig now, wasPending hist orig
          ∧ lastPut hist = Some (answer_permission orig allow reason now)
          ∧ Obs (EPutPermission jobID (answer_permission orig allow reason now)) (Ok tt) ∈ hist
    | ESessionFor id => id = jobID
    | ENow | ETel _ => True
    | _ => False
    end) (λ _ _ _, False).

Definition answerResult (r : res PermissionRequest) (hist : list obs) : Prop :=
  match r with
  | Ok p =>
      ∃ orig now, wasPending hist orig ∧ p = answer_permission orig allow reason now
        ∧ lastPut hist = Some p ∧ existsb isDelivery hist = true
  | Err _ =>
      existsb isDelivery hist = false
      ∧ ((∃ p, Obs (EPutPermission jobID p) (Ok tt) ∈ hist) →
         ∃ orig, wasPending hist orig ∧ lastPut hist = Some orig)
  end.

(** An error before anything was written. *)
Lemma answerResult_nothing e hist :
  existsb isDelivery hist = false → lastPut hist = None → answerResult (Err e) hist.
Proof.
  intros Hd Hp. split; [done|]. intros [p Hin]. exfalso.
  induction hist as [|o hist IH]; [by apply elem_of_nil in Hin|].
  cbn in Hd. apply orb_false_iff in Hd as [_ Hd]. cbn in Hp.
  apply elem_of_cons in Hin as [<-|Hin]; [done|].
  destruct o as [X [] x|]; try (by apply IH); done.
Qed.

Lemma wasPending_cons o hist orig : wasPending hist orig → wasPending (o :: hist) orig.
Proof. intros [? ?]. split; [by apply list_elem_of_further|done]. Qed.

#[local] Hint Resolve wasPending_cons : hairpin.

(** Delivering the recorded decision: on a failure the record is put back. *)
Lemma deliver_wp orig now hist :
  let ans := answer_permission orig allow reason now in
  wasPending hist orig → lastPut hist = Some ans → existsb isDelivery hist = false →
  Obs (EPutPermission jobID ans) (Ok tt) ∈ hist →
  wp answerPolicy hist
    (r ← registrySend jobID decision;
     perform (ETel (PermissionAnswered allow (is_Ok r)));;
     match r with
     | Ok _ => mret (Ok ans)
     | Err e =>
         _ ← perform (EPutPermission jobID orig);
         mret (Err (if errorsIs e ErrNotConnected
                    then wrapf ("job " +:+ jobID +:+ " has no live harness to answer permission "
                           +:+ requestID) ErrNotConnected
                    else wrapf ("send permission response for job " +:+ jobID) e))
     end) answerResult.
Proof.
  intros ans Hw Hl Hd Hput.
  assert (∀ e hist', wasPending hist' orig → existsb isDelivery hist' = false →
    wp answerPolicy hist' (perform (ETel (PermissionAnswered allow false));;
      _ ← perform (EPutPermission jobID orig);
      mret (Err (if errorsIs e ErrNotConnected
                    then wrapf ("job " +:+ jobID +:+ " has no live harness to answer permission "
                           +:+ requestID) ErrNotConnected
                    else wrapf ("send permission response for job " +:+ jobID) e))) answerResult)
    as Hrevert.
  { intros e hist' Hw' Hd'. apply wp_perform_bind; [done|]. intros [].
    apply wp_perform_bind; [split; [done|]; exists orig, 0%Z; auto with hairpin|]. intros x.
    split; [done|]. intros _. exists orig. auto with hairpin. }
  apply wp_bind_intro. unfold registrySend. apply wp_perform_bind; [done|].
  intros [sess|e]; [|by apply Hrevert; auto with hairpin].
  split. { split; [done|]. exists orig, now. split_and!; [auto with hairpin|done|by right]. }
  intros [[]|e]; [|by apply Hrevert; auto with hairpin].
  apply wp_perform_bind; [done|]. intros []. exists orig, now. auto with hairpin.
Qed.

Lemma AnswerPermission_wp :
  wp answerPolicy [] (AnswerPermission jobID requestID allow reason) answerResult.
Proof.
  unfold AnswerPermission, checked. destruct (checkID jobID); [by apply answerResult_nothing|].
  apply wp_perform_bind; [done|]. intros [orig|e]; [|by apply answerResult_nothing].
  case_bool_decide as Hp; cbn [negb]; [|by apply answerResult_nothing].
  apply wp_perform_bind; [done|]. intros now.
  assert (∀ hist, wasPending (hist ++ [Obs (EGetPermission jobID requestID) (Ok orig)]) orig) as Hw
    by (intros hist; split; [apply elem_of_app; right; in_hist|done]).
  apply wp_perform_bind.
  { split; [done|]. exists orig, now. split; [apply (Hw [_])|by left]. }
  intros [[]|e].
  - apply deliver_wp; [apply (Hw [_; _])|done|done|in_hist].
  - split; [done|]. intros [p Hin%list_elem_of_In]. exfalso.
    match type of Hin with List.In ?o ?hs =>
      assert (existsb isRecorded hs = true) as [=] by (apply List.existsb_exists; by exists o)
    end.
Qed.

(** C14. A permission answer is recorded before it is delivered, and an answer that
    did not reach the harness is put back. In every trace of [AnswerPermission]: the
    decision is sent only after the store accepted the answered record, and only for
    a request that was pending; success means the answered record is the last one
    written and the harness received the decision; after an error nothing was
    delivered, and if the answer had been recorded, the last write put the pending
    request back, so the operator can retry. *)
Theorem AnswerPermission_records_then_delivers (t : list obs)
  (r : option (result (res PermissionRequest)))
  (Ht : trace (AnswerPermission jobID requestID allow reason) t r) :
  (∀ t1 o t2, t = t1 ++ o :: t2 → allowed answerPolicy (reverse t1) o)
  ∧ ∀ x, r = Some (Done x) → answerResult x (reverse t).
Proof.
  destruct (wp_sound _ _ _ _ _ _ AnswerPermission_wp Ht) as [Ha HQ]. split.
  - intros t1 o t2 E. rewrite <-(app_nil_r (reverse t1)). by eapply Ha.
  - intros x E. rewrite <-(app_nil_r (reverse t)). by apply HQ.
Qed.

End permissions.

(** ** Concrete runs *)

#[local] Existing Instance sample_tables.
#[local] Existing Instance sample_codec.

Definition sample_service : Service :=
  NewService (Some (mkProfiles {["default" := set_RunId "" sample_config]} "default"))
    [WithMemoryTools true].

Definition sample_params : SubmitParams := mkSubmitParams "say hello" "" "" ["github.com/a/*"].

Definition empty_world : World memStore := mkWorld (NewMemStore 0) ∅ ∅ ∅ ∅ 0 0 [] 0.

Definition submit_trace : list obs * result (res Job) :=
  recorded sample_env (Submit sample_service sample_params) empty_world.

Lemma Submit_persists_before_launch_witness :
  (∀ t1 o t2, fst submit_trace = t1 ++ o :: t2 →
     allowed (submitPolicy sample_service sample_params) (reverse t1) o)
  ∧ ∀ x, Some (snd submit_trace) = Some (Done x) → submitResult x (reverse (fst submit_trace)).
Proof.
  apply (Submit_persists_before_launch sample_service sample_params _ (Some (snd submit_trace))).
  apply recorded_trace.
Defined.

(** The submission above does succeed. *)
Example submit_succeeds :
  match snd submit_trace with Done (Ok j) => j_ID j = sample_id | _ => False end.
Proof. vm_compute. reflexivity. Qed.

(** A store whose job is still queued. *)
Definition queued_job : Job := set_Status StatusQueued sample_stored.

Definition queued_world : World memStore :=
  set_store (fst (memCreateJob queued_job (NewMemStore 0))) empty_world.

Lemma launch_moves_only_queued_witness :
  runsTo sample_env (launch queued_job) queued_world (λ _ w',
    ∃ n now, jobs w' = if true then
                         <[sample_id := match env_launch sample_env n queued_job with
                                        | Ok _ => set_Status StatusAwaitingHarness queued_job
                                        | Err e => movedTo StatusFailed (Error e) now queued_job
                                        end]> (jobs queued_world)
                       else jobs queued_world).
Proof. apply (launch_moves_only_queued sample_env queued_job queued_job queued_world). reflexivity. Defined.

Lemma Cancel_by_state_witness :
  runsTo sample_env (Cancel sample_id) (sample_assigned []) (λ r w',
    r = Ok (set_CancelRequested true sample_stored)
    ∧ jobs w' = <[sample_id := set_CancelRequested true sample_stored]> (jobs (sample_assigned []))
    ∧ w_streams w' !! 0 = Some (mkStream [] EOF [control_of_type "cancel"])).
Proof.
  destruct (Cancel_by_state sample_env sample_id (sample_assigned []) sample_stored)
    as (_ & _ & Hc); [reflexivity..|].
  apply (Hc 0 0 [] EOF []); reflexivity.
Defined.

(** A pending request of a job whose harness is gone. *)
Definition pending_world : World memStore :=
  set_store (fst (memPutPermission sample_id
    (mkPermissionRequest "p1" "bash" "{}" PermissionPending "" 5 0) sample_mem)) empty_world.

Definition answer_trace : list obs * result (res PermissionRequest) :=
  recorded sample_env (AnswerPermission sample_id "p1" true "ok") pending_world.

Lemma AnswerPermission_records_then_delivers_witness :
  (∀ t1 o t2, fst answer_trace = t1 ++ o :: t2 →
     allowed (answerPolicy sample_id "p1" "ok" true) (reverse t1) o)
  ∧ ∀ x, Some (snd answer_trace) = Some (Done x) →
      answerResult sample_id "p1" "ok" true x (reverse (fst answer_trace)).
Proof.
  apply (AnswerPermission_records_then_delivers sample_id "p1" "ok" true _ (Some (snd answer_trace))).
  apply recorded_trace.
Defined.

(** The answer is refused, and the request is pending again. *)
Example answer_reverted :
  let '(w', _, r) := run sample_env (AnswerPermission sample_id "p1" true "ok") pending_world in
  match r with Done (Err e) => errorsIs e ErrNotConnected | _ => false end = true
  ∧ pr_State <$> (default ∅ (m_perms (w_store w') !! sample_id) !! "p1") = Some PermissionPending.
Proof. vm_compute. split; reflexivity. Qed.

(** ** Two answers at once *)

(** A pending request of a job whose harness is connected, and two operators. *)
Definition asked_world : World memStore :=
  set_store (fst (memPutPermission sample_id
    (mkPermissionRequest "p1" "bash" "{}" PermissionPending "" 5 0) sample_mem)) (sample_assigned []).

Definition two_answers : list (prog unit) :=
  [_ ← AnswerPermission sample_id "p1" true "yes"; mret tt;
   _ ← AnswerPermission sample_id "p1" false "no"; mret tt].

(** Reading that a request is pending and recording the answer are separate store
    calls, so two concurrent answers can both pass the check: there is a schedule in
    which an allow and a deny of the same request are both recorded and both
    delivered to the harness, the allow first, and the record ends up denied. *)
Theorem concurrent_answers_both_delivered :
  ∃ sched, let '(w', ts) := exec sample_env sched (asked_world, two_answers) in
    ts = [mret tt; mret tt]
    ∧ (λ s, (λ ev, (ce_Type ev, ce_RequestId ev, ce_Allowed ev)) <$> st_sent s)
        <$> w_streams w' !! 0
      = Some [("permission_response", "p1", Some true); ("permission_response", "p1", Some false)]
    ∧ pr_State <$> (default ∅ (m_perms (w_store w') !! sample_id) !! "p1") = Some PermissionDenied.
Proof.
  exists ([0; 1] ++ replicate 8 0 ++ replicate 8 1). vm_compute. split_and!; reflexivity.
Qed.
