(* ===== verification/Lifecycle.v ===== *)
(** * The job lifecycle under every interleaving

    The harness streams, the API calls, the background launches and the reaper all
    move jobs between statuses through [UpdateJob] closures, concurrently.  This
    file shows what no interleaving of them can break: the identity of a job never
    changes, its status only advances, and a settled outcome is final. *)

From stdpp Require Import base gmap list strings relations.
From S2P Require Import Prelude Fmt Job Proto Store.
From S2P Require Import Timeline Telemetry Registry Prog Memory Handler.
From S2P Require Import Pump ControlPlane RunConfigs Service.
From S2P Require Import Watch Reaper MemStore MemStoreFacts Samples.

(** ** How a record may change *)

(** The order in which statuses are reached. *)
Definition rank (s : Status) : nat :=
  if Terminal s then 4
  else if s ==? StatusRunning then 3
  else if s ==? StatusAwaitingHarness then 2
  else if s ==? StatusLaunching then 1
  else 0.

(** What identifies a job and what it was submitted with. *)
Definition identity (j : Job) :=
  (j_ID j, j_Prompt j, j_Profile j, j_RunConfigJSON j, j_CreatedAt j, j_TraceParent j,
   j_HarnessToken j, j_RepoScope j).

(** How a job ended. *)
Definition outcomeOf (j : Job) :=
  (j_Status j, j_StopReason j, j_Error j, j_FinalText j, j_StartedAt j, j_FinishedAt j).

Record evolves (j j' : Job) : Prop := {
  ev_identity : identity j' = identity j;
  ev_rank : rank (j_Status j) ≤ rank (j_Status j');
  ev_final : Terminal (j_Status j) = true → outcomeOf j' = outcomeOf j;
  ev_cancel : j_CancelRequested j = true → j_CancelRequested j' = true;
}.

#[export] Instance evolves_refl : Reflexive evolves.
Proof. by intros j. Qed.

#[export] Instance evolves_trans : Transitive evolves.
Proof.
  intros j1 j2 j3 [a1 a2 a3 a4] [b1 b2 b3 b4]. constructor; [congruence|lia| |auto].
  intros Ht. pose proof (a3 Ht) as E. rewrite b3; [done|].
  unfold outcomeOf in E. simplify_eq. congruence.
Qed.

(** A closure that only lets a record evolve, whatever it captured. *)
Definition safeUpdate {C} (fn : updater C) : Prop :=
  ∀ c j c' j', fn c j = (c', Ok j') → evolves j j'.

(** Which actions respect the lifecycle: updates evolve, new jobs are queued. *)
Definition lifecycle (X : Type) (e : eff X) : Prop :=
  match e with
  | EUpdateJob _ fn _ => safeUpdate fn
  | ECreateJob j => j_Status j = StatusQueued
  | _ => True
  end.

(** ** The closures *)

Lemma rank_le s : rank s ≤ 4.
Proof. unfold rank. repeat case_match; lia. Qed.

Lemma rank_terminal s : Terminal s = true → rank s = 4.
Proof. intros Ht. unfold rank. by rewrite Ht. Qed.

(** A closure that refuses terminal records need only keep the identity, the
    cancellation request, and advance the status. *)
Lemma evolves_live j j' :
  Terminal (j_Status j) = false → identity j' = identity j →
  rank (j_Status j) ≤ rank (j_Status j') → j_CancelRequested j' = j_CancelRequested j →
  evolves j j'.
Proof. intros Ht Hi Hr Hc. constructor; congruence. Qed.

Ltac live_update :=
  let j := fresh "j" in let Ht := fresh "Ht" in
  intros ? j ? ? Hfn; cbv beta delta [pureUpdater] in Hfn;
  destruct (Terminal (j_Status j)) eqn:Ht;
  destruct j; cbn in *; rewrite ?Ht in Hfn; simplify_eq/=; try done;
  repeat case_match; simplify_eq/=;
  apply evolves_live; cbn; try done; try apply rank_le.

Lemma safe_cancelledUpdate at_ : safeUpdate (pureUpdater (cancelledUpdate at_)).
Proof. unfold cancelledUpdate. live_update. Qed.

Lemma safe_failedUpdate reason at_ : safeUpdate (pureUpdater (failedUpdate reason at_)).
Proof. unfold failedUpdate. live_update. Qed.

Lemma rank_running s : Terminal s = false → rank s ≤ rank StatusRunning.
Proof.
  intros Ht. change (rank StatusRunning) with 3. unfold rank. rewrite Ht.
  repeat case_match; lia.
Qed.

Lemma safe_runningUpdate started : safeUpdate (pureUpdater (runningUpdate started)).
Proof. unfold runningUpdate. live_update. by apply rank_running. Qed.

Lemma safe_finishUpdate stopReason final errMsg at_ :
  safeUpdate (pureUpdater (finishUpdate stopReason (StatusForStopReason stopReason) final errMsg at_)).
Proof.
  unfold finishUpdate. live_update;
    rewrite (rank_terminal _ (StatusForStopReason_terminal _)); apply rank_le.
Qed.

Lemma safe_closeUpdate final errMsg at_ last : safeUpdate (closeUpdate final errMsg at_ last).
Proof. unfold closeUpdate. live_update. Qed.

Lemma safe_touch seen : safeUpdate (pureUpdater (λ j, Ok (set_LastEventAt seen j))).
Proof. intros ? j ? ? [= <- <-]. by destruct j. Qed.

Lemma safe_requestCancel : safeUpdate (pureUpdater (λ j, Ok (set_CancelRequested true j))).
Proof. intros ? j ? ? [= <- <-]. by destruct j. Qed.

(** The moves [launch] makes. *)
Lemma safe_transitionUpdate from to errText now :
  Terminal from = false → rank from ≤ rank to → safeUpdate (transitionUpdate from to errText now).
Proof.
  intros Hf Hr ? j ? ? Hfn. unfold transitionUpdate in Hfn. destruct j; cbn in Hfn.
  repeat case_match; simplify_eq/=; try done; boolify; subst; apply evolves_live; done.
Qed.

Lemma safe_cancelUpdate now : safeUpdate (cancelUpdate now).
Proof.
  intros ? j ? ? Hfn. unfold cancelUpdate in Hfn. destruct j; cbn in Hfn.
  case_match; simplify_eq/=; [done|]. constructor; cbn; try done; try congruence. apply rank_le.
Qed.

Lemma safe_stuckUpdate now : safeUpdate (stuckUpdate now).
Proof.
  intros ? j ? ? Hfn. unfold stuckUpdate in Hfn. destruct j; cbn in Hfn.
  case_match; simplify_eq/=; [done|]. boolify. subst. apply evolves_live; try done. apply rank_le.
Qed.

Create HintDb lifecycle.

#[local] Hint Resolve safe_cancelledUpdate safe_failedUpdate safe_runningUpdate safe_finishUpdate
  safe_closeUpdate safe_touch safe_requestCancel safe_cancelUpdate safe_stuckUpdate : lifecycle.

(** ** The operations *)

Section operations.
Context `{UnicodeTables} `{ProtoJSON}.

(** Every action of the program is permitted: peel it, and use what is known of
    the programs it calls. *)
Ltac obey := permit; cbn [lifecycle]; eauto with lifecycle.

Lemma guarded_appendStatus id st at_ : guarded lifecycle (appendStatus id st at_).
Proof. unfold appendStatus. obey. Qed.
#[local] Hint Resolve guarded_appendStatus : lifecycle.

Lemma guarded_sendCancel s : guarded lifecycle (sendCancel s).
Proof. unfold sendCancel. obey. Qed.

Lemma guarded_failJob id reason : guarded lifecycle (failJob id reason).
Proof. unfold failJob. obey. Qed.

Lemma guarded_finaliseCancelled id : guarded lifecycle (finaliseCancelled id).
Proof. unfold finaliseCancelled. obey. Qed.
#[local] Hint Resolve guarded_sendCancel guarded_failJob guarded_finaliseCancelled : lifecycle.

Lemma guarded_append p ev : guarded lifecycle (append p ev).
Proof. unfold append. obey. Qed.
#[local] Hint Resolve guarded_append : lifecycle.

Lemma guarded_appendProto p ev at_ : guarded lifecycle (appendProto p ev at_).
Proof. unfold appendProto. obey. Qed.

Lemma guarded_appendControl p ev at_ : guarded lifecycle (appendControl p ev at_).
Proof. unfold appendControl. obey. Qed.
#[local] Hint Resolve guarded_appendProto guarded_appendControl : lifecycle.

Lemma guarded_flushDeltas p : guarded lifecycle (flushDeltas p).
Proof. unfold flushDeltas. obey. Qed.

Lemma guarded_putPermission p ev at_ : guarded lifecycle (putPermission p ev at_).
Proof. unfold putPermission. obey. Qed.

Lemma guarded_sandbox h p ev : guarded lifecycle (handleSandboxTokenRequest h p ev).
Proof. unfold handleSandboxTokenRequest, sendSandboxTokenResponse. obey. Qed.

Lemma guarded_sendToolResult p id content e : guarded lifecycle (sendToolResult p id content e).
Proof. unfold sendToolResult. obey. Qed.
#[local] Hint Resolve guarded_flushDeltas guarded_putPermission guarded_sandbox
  guarded_sendToolResult : lifecycle.

Lemma guarded_Fulfil tool input : guarded lifecycle (Fulfil tool input).
Proof. unfold Fulfil, fulfilSearch, fulfilSave, clientSave. obey. Qed.
#[local] Hint Resolve guarded_Fulfil : lifecycle.

Lemma guarded_fulfilToolResult h p ev : guarded lifecycle (fulfilToolResult h p ev).
Proof. unfold fulfilToolResult, admitMemoryCall, memoryCall. obey. Qed.
#[local] Hint Resolve guarded_fulfilToolResult : lifecycle.

Lemma guarded_handle h p ev : guarded lifecycle (handle h p ev).
Proof. unfold handle, dispatch, maybeFlushLastEventAt, finish. obey. Qed.
#[local] Hint Resolve guarded_handle : lifecycle.

Lemma guarded_pumpRun h fuel p : guarded lifecycle (pumpRun h fuel p).
Proof.
  revert p. induction fuel as [|f IH]; intros p; cbn [pumpRun]; [done|].
  unfold closeUnfinished. obey.
Qed.
#[local] Hint Resolve guarded_pumpRun : lifecycle.

Lemma guarded_runTask h fuel s : guarded lifecycle (runTask h fuel s).
Proof. unfold runTask, registered, assigned, newPump. obey. Qed.

Lemma guarded_appendStatusEvent id st e : guarded lifecycle (appendStatusEvent id st e).
Proof. unfold appendStatusEvent. obey. Qed.
#[local] Hint Resolve guarded_appendStatusEvent : lifecycle.

Lemma guarded_transition id from to errText :
  Terminal from = false → rank from ≤ rank to → guarded lifecycle (transition id from to errText).
Proof. intros Hf Hr. unfold transition. permit; cbn [lifecycle]; auto using safe_transitionUpdate with lifecycle. Qed.

Lemma guarded_launch j : guarded lifecycle (launch j).
Proof.
  unfold launch. permit; try done; apply guarded_transition; (done || apply rank_le || vm_compute; lia).
Qed.
#[local] Hint Resolve guarded_launch : lifecycle.

Lemma guarded_Submit sv p : guarded lifecycle (Submit sv p).
Proof. unfold Submit, failSubmit. obey. Qed.

Lemma guarded_cancelUnassigned id : guarded lifecycle (cancelUnassigned id).
Proof. unfold cancelUnassigned. obey. Qed.
#[local] Hint Resolve guarded_cancelUnassigned : lifecycle.

Lemma guarded_Cancel id : guarded lifecycle (Cancel id).
Proof. unfold Cancel, checked, cancelLive, registrySend. obey. Qed.

Lemma guarded_AnswerPermission id req allow reason :
  guarded lifecycle (AnswerPermission id req allow reason).
Proof. unfold AnswerPermission, checked, registrySend. obey. Qed.

Lemma guarded_replay fuel id cursor : guarded lifecycle (replay fuel id cursor).
Proof. revert cursor. induction fuel; intros cursor; cbn [replay]; obey. Qed.
#[local] Hint Resolve guarded_replay : lifecycle.

Lemma guarded_Watch {Chan} (o : res Chan) fuel id a : guarded lifecycle (Watch o fuel id a).
Proof. unfold Watch, checked. obey. Qed.

Lemma guarded_sweep r fuel : guarded lifecycle (sweep r fuel).
Proof.
  unfold sweep, listAllJobs. apply obeys_bind.
  { generalize (@nil Job) "". induction fuel; intros all tok; cbn [listPages]; obey. }
  intros [jobs|]; [|done]. unfold reapAwaitingHarness, reapRetention. permit; try done.
  - induction jobs; cbn [reapAwaitingLoop]; unfold failStuckHarness, reaperAppendStatus; obey.
  - induction jobs; cbn [reapRetentionLoop]; obey.
Qed.

Lemma guarded_Run r fuel ticks : guarded lifecycle (Run r fuel ticks).
Proof.
  unfold Run. apply obeys_bind; [apply guarded_sweep|intros _].
  induction ticks; cbn [RunLoop]; obey. apply guarded_sweep.
Qed.

End operations.

(** ** The system *)

(** The result of an operation run in a goroutine of its own. *)
Definition discard {A} (p : prog A) : prog unit := _ ← p; mret tt.

(** The goroutines a hairpin process with the service [sv] starts from outside: a
    harness stream, the API calls, a sweep of the reaper or its whole loop.  Launches and memory calls
    are started by these.  [serving] says which handlers serve the streams. *)
Inductive operationOf `{UnicodeTables} `{ProtoJSON} (serving : Handler → Prop) (sv : Service) : prog unit → Prop :=
  | op_RunTask h fuel s : serving h → operationOf serving sv (discard (runTask h fuel s))
  | op_Submit p : operationOf serving sv (discard (Submit sv p))
  | op_Get id : operationOf serving sv (discard (GetOp id))
  | op_List limit tok : operationOf serving sv (discard (List limit tok))
  | op_ListPermissions id : operationOf serving sv (discard (ListPermissionsOp id))
  | op_Cancel id : operationOf serving sv (discard (Cancel id))
  | op_AnswerPermission id req allow reason :
      operationOf serving sv (discard (AnswerPermission id req allow reason))
  | op_Watch {Chan : Type} (o : res Chan) fuel id a : operationOf serving sv (discard (Watch o fuel id a))
  | op_sweep r fuel : operationOf serving sv (sweep r fuel)
  | op_Run r fuel ticks : operationOf serving sv (Run r fuel ticks).

(** Whatever handlers the streams are served by. *)
Abbreviation operation := (operationOf (λ _, True)).

Lemma guarded_operation `{UnicodeTables} `{ProtoJSON} sv p : operation sv p → guarded lifecycle p.
Proof.
  destruct 1; try apply guarded_sweep; try apply guarded_Run; apply obeys_bind; try done;
    eauto using guarded_runTask, guarded_Submit, guarded_Cancel, guarded_AnswerPermission,
      guarded_Watch; unfold GetOp, ListPermissionsOp, List, checked; permit; done.
Qed.

Section system.
Context {St : Type} `{StoreLaws St}.
Variable env : Env.

(** One step of the pool during which the job stays in the store. *)
Definition keeping (id : string) (c c' : World St * list (prog unit)) : Prop :=
  step env c c' ∧ is_Some (jobs (fst c') !! id).

Lemma act_evolves X (e : eff X) (w : World St) id j j' :
  lifecycle X e → jobs w !! id = Some j → jobs (fst (actTick env e w)) !! id = Some j' →
  evolves j j'.
Proof.
  intros He Hj. unfold actTick. pose proof (act_jobs_other env X e w) as Ho.
  destruct (act env e w) as [w' x] eqn:Ha. cbn [fst]. rewrite jobs_set_tick.
  destruct e; cbn in Ho; try (rewrite Ho, Hj; by intros [= ->]); cbn in Ha, He; clear Ho;
    unfold onStore in Ha; unfold jobs in *.
  - destruct (law_CreateJob j0 (w_store w)) as [(e & Hc & _)|(s' & Hc & Hn & Hs)];
      rewrite Hc in Ha; simplify_eq; destruct w; cbn in *.
    + rewrite Hj. by intros [= ->].
    + rewrite Hs, lookup_insert_ne by congruence. rewrite Hj. by intros [= ->].
  - pose proof (law_UpdateJob _ id0 fn c (w_store w)) as Hl.
    destruct (job_of (w_store w) !! id0) as [j0|] eqn:E0; cycle 1.
    { destruct Hl as (e & Hl & _). rewrite Hl in Ha. simplify_eq. destruct w; cbn in *.
      rewrite Hj. by intros [= ->]. }
    destruct (fn c j0) as [c' [j1|e]] eqn:Hf.
    + destruct Hl as (s' & Hl & Hs). rewrite Hl in Ha. simplify_eq. destruct w; cbn in *.
      rewrite Hs. destruct (decide (id = id0)) as [->|Hne].
      * rewrite lookup_insert_eq. intros [= <-]. simplify_eq. by eapply He.
      * rewrite lookup_insert_ne, Hj by done. by intros [= ->].
    + rewrite Hl in Ha. simplify_eq. destruct w; cbn in *. rewrite Hj. by intros [= ->].
  - destruct (law_DeleteJob id0 (w_store w)) as [(e & Hd & _)|(s' & Hd & Hs)];
      rewrite Hd in Ha; simplify_eq; destruct w; cbn in *.
    + rewrite Hj. by intros [= ->].
    + rewrite Hs. destruct (decide (id = id0)) as [->|Hne].
      * by rewrite lookup_delete_eq.
      * rewrite lookup_delete_ne, Hj by done. by intros [= ->].
Qed.

Lemma keeping_evolves id c c' j :
  Forall (guarded lifecycle) (snd c) → jobs (fst c) !! id = Some j → rtc (keeping id) c c' →
  ∃ j', jobs (fst c') !! id = Some j' ∧ evolves j j'.
Proof.
  intros Hg Hj Hs. revert j Hg Hj.
  induction Hs as [|[w1 ts1] [w2 ts2] c3 [Hst [j2 Hj2]] _ IH]; intros j Hg Hj; [by eexists|].
  pose proof (step_guarded env _ _ _ _ _ Hst Hg) as Hg2.
  destruct (IH j2 Hg2 Hj2) as (j' & Hj' & He). exists j'. split; [done|].
  transitivity j2; [|done]. cbn [fst snd] in *.
  inversion Hst as [? ? i X e k ? x Hi Hact|? ? i l q k Hi]; simplify_eq; [|done].
  apply (Forall_lookup_1 _ _ _ _ Hg) in Hi as [He' _].
  eapply act_evolves; [exact He'|exact Hj|]. by rewrite Hact.
Qed.

(** A scheduled execution that finds the job present after each step. *)
Fixpoint present (id : string) (sched : list nat) (c : World St * list (prog unit)) : bool :=
  match sched with
  | [] => true
  | i :: sched' =>
      bool_decide (is_Some (jobs (fst (execOne env i c)) !! id))
      && present id sched' (execOne env i c)
  end.

Lemma exec_keeping id sched c : present id sched c = true → rtc (keeping id) c (exec env sched c).
Proof.
  revert c. induction sched as [|i sched IH]; intros c; cbn; [done|].
  intros [Hp Hrest]%andb_true_iff. apply bool_decide_eq_true in Hp.
  destruct (execOne_step env i c) as [E|Hs]; [rewrite E in *; by apply IH|].
  eapply rtc_l; [split; [exact Hs|exact Hp]|]. by apply IH.
Qed.

End system.

(** ** Properties *)

(** C1. Under every interleaving of harness streams, API calls, background launches,
    memory calls and reaper sweeps, over any store that keeps the store's contract,
    a job that stays in the store keeps its identity (ID, prompt, profile, run
    config, token, repo scope, creation time), never moves back in its lifecycle,
    never loses a cancellation request, and once terminal its status, stop reason,
    error, final text and timestamps are final. *)
Theorem lifecycle_is_final {St : Type} `{StoreLaws St} `{UnicodeTables} `{ProtoJSON} (env : Env)
  (sv : Service) (c c' : World St * list (prog unit)) (id : string) (j : Job)
  (Hops : Forall (operation sv) (snd c)) (Hj : jobs (fst c) !! id = Some j)
  (Hsteps : rtc (keeping env id) c c') :
  ∃ j', jobs (fst c') !! id = Some j' ∧ evolves j j'.
Proof.
  eapply keeping_evolves; [|done|done]. eapply Forall_impl; [exact Hops|]. apply guarded_operation.
Qed.

#[local] Existing Instance sample_tables.
#[local] Existing Instance sample_codec.

(** A job awaiting its harness, whose cancellation races a harness stream. *)
Definition race : World memStore * list (prog unit) :=
  (sample_world [sample_ready],
   [discard (runTask (NewHandler []) 10 0);
    discard (Cancel sample_id)]).

(** The stream reads the job, the cancellation completes, the stream goes on. *)
Definition race_schedule : list nat := replicate 6 0 ++ replicate 12 1 ++ replicate 20 0.

Lemma lifecycle_is_final_witness :
  ∃ j', jobs (fst (exec sample_env race_schedule race)) !! sample_id = Some j'
        ∧ evolves sample_stored j'.
Proof.
  apply (lifecycle_is_final sample_env (NewService None []) race).
  - constructor; [by apply op_RunTask|constructor; [apply op_Cancel|constructor]].
  - reflexivity.
  - apply exec_keeping. vm_compute. reflexivity.
Defined.
