(* ===== verification/RedisLink.v ===== *)
(** * Hairpin on the Redis store

    Linking: every store call of an operation is replaced by the program of Redis calls
    that implements it, and everything else the operation does is answered arbitrarily.
    The pool is then interleaved at the grain of single Redis calls.  A small
    rely-guarantee logic over linked programs carries the lifecycle of jobs, proved once
    for any store that keeps the contract, to this system. *)

From stdpp Require Import base gmap list strings relations.
From Stdlib Require Import Ascii.
From S2P Require Import Prelude Utf8 Fmt Json GoTime Job Proto Store Timeline Telemetry Registry Prog.
From S2P Require Import Memory Handler Pump ControlPlane RunConfigs Service Watch Reaper Lifecycle Samples.
From S2P Require Import Redis RedisModel RedisStore RedisCodec RedisUpdate.

(** ** Linked programs *)

Inductive lprog (A : Type) : Type :=
  | LRet (a : A)
  | LEff {X : Type} (e : eff X) (k : X → lprog A)
  | LCmd {X : Type} (c : rcmd X) (k : X → lprog A)
  | LGo (p : lprog unit) (k : lprog A)
  | LHalt.
Arguments LRet {A} a.
Arguments LEff {A X} e k.
Arguments LCmd {A X} c k.
Arguments LGo {A} p k.
Arguments LHalt {A}.

(** The calls of a store method, then the rest of the operation. *)
Fixpoint calls {A B} (p : rprog A) (k : A → lprog B) : lprog B :=
  match p with
  | RRet a => k a
  | RAct c k' => LCmd c (λ x, calls (k' x) k)
  | RCut => LHalt
  end.

Section link.
Context `{TimeEnv} `{JsonText} (r : redisStore).

(** The Redis store behind the interface [Store]: [Some p] implements a store call. *)
Definition implement {X} (e : eff X) : option (rprog X) :=
  match e in eff X return option (rprog X) with
  | ECreateJob j => Some (RedisStore.CreateJob j)
  | EGetJob id => Some (RedisStore.GetJob id)
  | EListJobs limit tok => Some (x ← RedisStore.ListJobs limit tok; mret (Returned x))
  | EUpdateJob id fn c => Some (RedisStore.UpdateJob id fn c)
  | EDeleteJob id => Some (RedisStore.DeleteJob id)
  | EAppendEvent id ev => Some (RedisStore.AppendEvent r id ev)
  | EReadEvents id a limit => Some (RedisStore.ReadEvents id a limit)
  | EPutPermission id p => Some (RedisStore.PutPermission id p)
  | EGetPermission id q => Some (RedisStore.GetPermission id q)
  | EListPermissions id => Some (RedisStore.ListPermissions id)
  | _ => None
  end.

Fixpoint link {A : Type} (p : prog A) : lprog A :=
  match p with
  | Ret a => LRet a
  | Act e k =>
      match implement e with
      | Some q => calls q (λ x, link (k x))
      | None => LEff e (λ x, link (k x))
      end
  | Go _ q k => LGo (link q) (link k)
  | Panic | OutOfFuel => LHalt
  end.

End link.

(** ** Interleaving *)

Section steps.
Context {R : Type} `{Redis R}.

(** One Redis call, one other action with any answer, or the start of a goroutine. *)
Inductive lstep : R * list (lprog unit) → R * list (lprog unit) → Prop :=
  | lstep_cmd s ts i X (c : rcmd X) k n s' x :
      ts !! i = Some (LCmd c k) → answered c n s s' x → lstep (s, ts) (s', <[i := k x]> ts)
  | lstep_eff s ts i X (e : eff X) k x :
      ts !! i = Some (LEff e k) → lstep (s, ts) (s, <[i := k x]> ts)
  | lstep_go s ts i q k :
      ts !! i = Some (LGo q k) → lstep (s, ts) (s, <[i := k]> ts ++ [q]).

End steps.

(** ** A rely-guarantee logic *)

Section logic.
Context {R : Type} `{RedisLaws R}.
Variables (Inv : gmap string rvalue → Prop) (G : relation (gmap string rvalue)).
Context `{!Reflexive G}.
Implicit Types s : R.

(** Knowledge about the server that no command can falsify. *)
Definition stable (F : R → Prop) : Prop :=
  ∀ X (c : rcmd X) n s, F s → F (fst (serve c n s)).

(** A call keeps the invariant and is a step of the guarantee. *)
Definition keepsTo (F : R → Prop) {X} (c : rcmd X) : Prop :=
  ∀ n s, Inv (keys s) → F s →
    Inv (keys (fst (serve c n s))) ∧ G (keys s) (keys (fst (serve c n s))).

Definition learns (F F' : R → Prop) {X} (c : rcmd X) (x : X) : Prop :=
  stable F' ∧ ∀ n s s', Inv (keys s) → F s → answered c n s s' x → F' s'.

Fixpoint guaranteed {A : Type} (F : R → Prop) (p : rprog A) : Prop :=
  match p with
  | RRet _ | RCut => True
  | RAct c k => keepsTo F c ∧ ∀ x, ∃ F', learns F F' c x ∧ guaranteed F' (k x)
  end.

Fixpoint lguaranteed {A : Type} (F : R → Prop) (p : lprog A) : Prop :=
  match p with
  | LRet _ | LHalt => True
  | LEff e k => ∀ x, lguaranteed F (k x)
  | LCmd c k => keepsTo F c ∧ ∀ x, ∃ F', learns F F' c x ∧ lguaranteed F' (k x)
  | LGo q k => lguaranteed (λ _, True) q ∧ lguaranteed F k
  end.

Abbreviation nothing := (λ _ : R, True).

Lemma learns_nothing F {X} (c : rcmd X) x : learns F nothing c x.
Proof. by split. Qed.

Lemma lguaranteed_mono {A : Type} (F F' : R → Prop) (p : lprog A) :
  (∀ s, F' s → F s) → lguaranteed F p → lguaranteed F' p.
Proof.
  revert F F'. induction p as [A a|A X e k IH|A X c k IH|A q IHq k IHk|A]; intros F F' HF; cbn; try done.
  - intros Hk x. by eapply IH.
  - intros [Hk Hl]. split; [intros n s Hi Hf; apply Hk; auto|]. intros x.
    destruct (Hl x) as (F1 & [Hs Hl'] & Hg). exists F1. split; [|done]. split; [done|]. eauto.
  - intros [Hq Hk]. split; [done|]. by eapply IHk.
Qed.

(** What a method learns is forgotten when it returns. *)
Lemma lguaranteed_calls {A B} F (p : rprog A) (k : A → lprog B) :
  guaranteed F p → (∀ a, lguaranteed nothing (k a)) → lguaranteed F (calls p k).
Proof.
  revert F. induction p as [a|X c k' IH|]; intros F Hp Hk; cbn in *; [|destruct Hp as [Hc Hl]|done].
  - by apply (lguaranteed_mono nothing F).
  - split; [done|]. intros x. destruct (Hl x) as (F' & Hl' & Hg). exists F'. split; [done|]. by apply IH.
Qed.

Lemma guaranteed_mono {A} (F F' : R → Prop) (p : rprog A) :
  (∀ s, F' s → F s) → guaranteed F p → guaranteed F' p.
Proof.
  destruct p as [a|X c k|]; cbn; try done. intros HF [Hk Hl].
  split; [intros n s Hi Hf; apply Hk; auto|]. intros x.
  destruct (Hl x) as (F1 & [Hs Hl'] & Hg). exists F1. split; [|done]. split; [done|]. eauto.
Qed.

Lemma guaranteed_bind {A B} F (p : rprog A) (f : A → rprog B) :
  guaranteed F p → (∀ a, guaranteed nothing (f a)) → guaranteed F (p ≫= f).
Proof.
  revert F. induction p as [a|X c k IH|]; intros F Hp Hf; cbn in *; [|destruct Hp as [Hc Hl]|done].
  - by apply (guaranteed_mono nothing F).
  - split; [done|]. intros x. destruct (Hl x) as (F' & Hl' & Hg). exists F'. split; [done|]. by apply IH.
Qed.

(** A call after which nothing need be known. *)
Lemma guaranteed_call {A X} (c : rcmd X) (k : X → rprog A) :
  keepsTo nothing c → (∀ x, guaranteed nothing (k x)) → guaranteed nothing (RAct c k).
Proof. intros Hc Hk. split; [done|]. intros x. exists nothing. split; [apply learns_nothing|done]. Qed.

Lemma keepsTo_read F {X} (c : rcmd X) : readOnly c = true → keepsTo F c.
Proof. intros Hc n s Hi _. destruct (law_read X c n s Hc) as [-> _]. done. Qed.

(** Every program of the pool is guaranteed by what is known of the server. *)
Definition poolKnows (c : R * list (lprog unit)) : Prop :=
  Inv (keys (fst c))
  ∧ Forall (λ p, ∃ F, stable F ∧ F (fst c) ∧ lguaranteed F p) (snd c).

Lemma stable_answered F {X} (c : rcmd X) n s s' x : stable F → F s → answered c n s s' x → F s'.
Proof.
  intros HF Hs [E|msg [] _ ->]; [|by apply HF|done]. pose proof (HF X c n s Hs) as H'. by rewrite E in H'.
Qed.

Lemma lstep_guaranteed c c' :
  poolKnows c → lstep c c' → poolKnows c' ∧ G (keys (fst c)) (keys (fst c')).
Proof.
  intros [Hi Hp] Hs. inversion Hs as [s ts i X cmd k n s' x Hi' Ha|s ts i X e k x Hi'|s ts i q k Hi'];
    subst; cbn [fst snd] in *; destruct (Forall_lookup_1 _ _ _ _ Hp Hi') as (F & HF & Hf & Hg).
  - destruct Hg as [Hk Hl]. assert (Inv (keys s') ∧ G (keys s) (keys s')) as [Hi2 HG].
    { destruct (Hk n s Hi Hf) as [H1 H2]. destruct Ha as [E|msg [] _ ->]; [by rewrite E in H1, H2|done..]. }
    split; [|done]. split; [done|]. apply Forall_insert.
    + eapply Forall_impl; [exact Hp|]. intros p (F0 & HF0 & Hf0 & Hg0). exists F0.
      split_and!; try done. by eapply stable_answered.
    + destruct (Hl x) as (F' & [HF' Hl'] & Hg'). exists F'. split_and!; [done| |done].
      exact (Hl' n s s' Hi Hf Ha).
  - split; [|done]. split; [done|]. apply Forall_insert; [done|]. by exists F.
  - destruct Hg as [Hq Hk]. split; [|done]. split; [done|]. apply Forall_app. split.
    + apply Forall_insert; [done|]. by exists F.
    + constructor; [|done]. by exists nothing.
Qed.

End logic.

(** ** The records of jobs *)

(** The record of a job, as any reader decodes it. *)
Definition jobAt `{TimeEnv} `{JsonText} (m : gmap string rvalue) (id : string) : option Job :=
  match m !! jobKey id with
  | Some (RHash h) => match jobFromFields h with Ok j => Some j | Err _ => None end
  | _ => None
  end.

Section records.
Context `{TimeEnv} `{JsonText}.

(** Scopes are valid text, and records evolve as the lifecycle allows. *)
Definition cleanRecords (m : gmap string rvalue) : Prop :=
  ∀ id j, noColon id → jobAt m id = Some j → Forall (λ s, sanitize s = s) (j_RepoScope j).

Definition recordsEvolve (m m' : gmap string rvalue) : Prop :=
  ∀ id j j', noColon id → jobAt m id = Some j → jobAt m' id = Some j' → evolves j j'.

#[global] Instance recordsEvolve_refl : Reflexive recordsEvolve.
Proof. intros m id j j' _ E E'. by simplify_eq. Qed.

(** A change that leaves every record alone or removes it. *)
Lemma untouched_records m m' :
  (∀ id, noColon id → m' !! jobKey id = m !! jobKey id ∨ m' !! jobKey id = None) →
  cleanRecords m → cleanRecords m' ∧ recordsEvolve m m'.
Proof.
  intros Hu Hc.
  assert (∀ id j, noColon id → jobAt m' id = Some j → jobAt m id = Some j) as Hsame.
  { intros id j Hid. unfold jobAt. by destruct (Hu id Hid) as [-> | ->]. }
  split; [intros id j Hid Hj; eapply Hc; eauto|].
  intros id j j' Hid E E'%Hsame; [|done]. by simplify_eq.
Qed.

(** A change of one record. *)
Lemma record_written m id v :
  cleanRecords m →
  (∀ j', noColon id → jobAt (<[jobKey id := v]> m) id = Some j' →
     Forall (λ s, sanitize s = s) (j_RepoScope j') ∧ ∀ j, jobAt m id = Some j → evolves j j') →
  cleanRecords (<[jobKey id := v]> m) ∧ recordsEvolve m (<[jobKey id := v]> m).
Proof.
  intros Hc Hv.
  assert (∀ id0, id0 ≠ id → jobAt (<[jobKey id := v]> m) id0 = jobAt m id0) as Hne.
  { intros id0 Hid0. unfold jobAt. rewrite lookup_insert_ne; [done|]. by intros ?%jobKey_inj. }
  split.
  - intros id0 j0 Hid Hj. destruct (decide (id0 = id)) as [->|]; [by apply Hv|].
    rewrite Hne in Hj by done. by eapply Hc.
  - intros id0 j0 j1 Hid Hj0 Hj1. destruct (decide (id0 = id)) as [->|]; [by apply Hv|].
    rewrite Hne in Hj1 by done. by simplify_eq.
Qed.

Lemma clean_cleanScope j : Forall (λ s, sanitize s = s) (j_RepoScope (cleanScope j)).
Proof.
  destruct j; cbn. apply Forall_fmap, Forall_forall. intros s _. apply sanitize_idem.
Qed.

Lemma cleanScope_clean j : Forall (λ s, sanitize s = s) (j_RepoScope j) → cleanScope j = j.
Proof.
  intros Hs. destruct j as [? ? ? ? ? ? ? ? ? ? ? ? ? ? ? q]; cbn in *. f_equal.
  induction Hs as [|x q Hx _ IH]; [done|]. cbn. by rewrite Hx, IH.
Qed.

(** A record written over the one it evolves from. *)
Lemma record_updated m id h j j' :
  wholeZones → cleanRecords m → m !! jobKey id = Some (RHash h) →
  jobFromFields h = Ok j → evolves j j' →
  cleanRecords (<[jobKey id := RHash (written j' h)]> m)
  ∧ recordsEvolve m (<[jobKey id := RHash (written j' h)]> m).
Proof.
  intros Hz Hc Hm Hj He. apply record_written; [done|]. intros j1 Hid.
  assert (jobAt m id = Some j) as Hat by (unfold jobAt; by rewrite Hm, Hj).
  unfold jobAt at 1. rewrite lookup_insert_eq.
  destruct (jobFromFields (written j' h)) as [j2|] eqn:E2; [|done]. intros [= <-].
  apply jobFromFields_exact in E2; [|done].
  assert (j_RepoScope j' = j_RepoScope j) as Hsc.
  { destruct He as [Hi _ _ _]. unfold identity in Hi. by simplify_eq. }
  assert (j2 = j') as ->.
  { rewrite E2. apply cleanScope_clean. rewrite Hsc. by eapply Hc. }
  split; [rewrite Hsc; by eapply Hc|]. intros j0 E0. by simplify_eq.
Qed.

(** A record written where there was none. *)
Lemma record_created m j :
  wholeZones → cleanRecords m → m !! jobKey (j_ID j) = None →
  cleanRecords (<[jobKey (j_ID j) := RHash (written j ∅)]> m)
  ∧ recordsEvolve m (<[jobKey (j_ID j) := RHash (written j ∅)]> m).
Proof.
  intros Hz Hc Hm. apply record_written; [done|]. intros j1 _.
  unfold jobAt at 1. rewrite lookup_insert_eq.
  destruct (jobFromFields (written j ∅)) as [j2|] eqn:E2; [|done]. intros [= <-].
  apply jobFromFields_exact in E2 as ->; [|done]. split; [apply clean_cleanScope|].
  intros j0. unfold jobAt. by rewrite Hm.
Qed.

(** The first write of a record is a write over an empty hash. *)
Lemma hset_empty j : hset (jobSetFields j) ∅ = written j ∅.
Proof.
  apply map_eq. intros k. unfold written. rewrite hdel_lookup.
  destruct (existsb (String.eqb k) (jobClearFields j)) eqn:Ek; [|done].
  rewrite hset_lookup, lookup_empty.
  pose proof (times_written j) as Ht. unfold timesOf in Ht. rewrite !Forall_cons in Ht.
  destruct Ht as ([C1 _] & [C2 _] & [C3 _] & [C4 _] & _).
  apply existsb_exists in Ek as (k' & Hin & ->%String.eqb_eq).
  unfold jobClearFields, zeroField in Hin. rewrite !in_app_iff in Hin.
  unfold jobSetFields, timeField.
  destruct (IsZero (j_CreatedAt j)), (IsZero (j_StartedAt j)), (IsZero (j_FinishedAt j)),
    (IsZero (j_LastEventAt j)); cbn in Hin;
    destruct Hin as [[]|[[]|[[]|[]]]]; subst; try done.
Qed.

End records.

(** ** The methods of the store *)

Section methods.
Context {R : Type} `{RedisLaws R} `{TimeEnv} `{JsonText} (rs : redisStore).
Hypothesis Hz : wholeZones.
Implicit Types s : R.

Abbreviation nothing := (λ _ : R, True).
Abbreviation method p := (guaranteed cleanRecords recordsEvolve nothing p).

(** If the count of the key is still [w], its value is [v]. *)
Definition since (k : string) (w : nat) (v : option rvalue) (s : R) : Prop :=
  w ≤ version s k ∧ (version s k = w → keys s !! k = v).

Lemma stable_since k w v : stable (since k w v).
Proof.
  intros X c n s [Hw Hv]. destruct (later_serve c n s k) as [Hl Hl']. split; [lia|].
  intros E. rewrite Hl', Hv; [done|lia..].
Qed.

Lemma stable_watched k w : stable (λ s : R, w ≤ version s k).
Proof. intros X c n s Hw. destruct (later_serve c n s k) as [Hl _]. lia. Qed.

Lemma learns_watch k w :
  learns cleanRecords nothing (λ s : R, w ≤ version s k) (CWatch k) (Ok w).
Proof.
  split; [apply stable_watched|]. intros n s s' _ _ Ha.
  destruct (answered_read (CWatch k) n s s' _ eq_refl Ha) as [_ ->].
  by apply answered_watch in Ha as [[= ->]|[msg ?]].
Qed.

(** Reading a key under a watch. *)
Lemma learns_since {X} (c : rcmd X) (x : X) k w v :
  readOnly c = true → (∀ n s s', answered c n s s' x → keys s !! k = v) →
  learns cleanRecords (λ s : R, w ≤ version s k) (since k w v) c x.
Proof.
  intros Hc Hx. split; [apply stable_since|]. intros n s s' _ Hw Ha.
  destruct (answered_read c n s s' x Hc Ha) as [Hk Hv]. unfold since. rewrite Hk, Hv.
  split; [done|]. intros _. by eapply Hx.
Qed.

Lemma keepsTo_update id w h j j' :
  jobFromFields h = Ok j → evolves j j' →
  keepsTo cleanRecords recordsEvolve (since (jobKey id) w (Some (RHash h)))
    (CExec (jobKey id) w (updateCmds id j')).
Proof.
  intros Hj He n s Hi [_ Hv]. pose proof (law_exec (jobKey id) w (updateCmds id j') n s) as Hl.
  case_decide as Hw; [|destruct Hl as (_ & -> & _); done]. specialize (Hv Hw).
  destruct Hl as [-> _]. rewrite (applyCmds_update _ _ _ h) by (by rewrite Hv).
  by eapply record_updated.
Qed.

(** A key that is no job's. *)
Definition elsewhere (k : string) : Prop := ∀ id, noColon id → jobKey id ≠ k.

Lemma elsewhere_index : elsewhere jobsIndexKey.
Proof. by intros id Hid. Qed.

Lemma elsewhere_suffixed id t : elsewhere (jobKey id +:+ String ":" t).
Proof.
  intros id' Hid. unfold jobKey. rewrite <-string_app_assoc. intros E%string_app_inj_l.
  by apply noColon_not_suffixed in E.
Qed.

Lemma records_elsewhere m k v :
  elsewhere k → cleanRecords m → cleanRecords (<[k := v]> m) ∧ recordsEvolve m (<[k := v]> m).
Proof.
  intros Hk. apply untouched_records. intros id Hid. left. rewrite lookup_insert_ne; [done|].
  intros E. by eapply Hk.
Qed.

Lemma keepsTo_create j w :
  keepsTo cleanRecords recordsEvolve (since (jobKey (j_ID j)) w None)
    (CExec (jobKey (j_ID j)) w [HSet (jobKey (j_ID j)) (jobSetFields j); ZAdd jobsIndexKey (j_ID j)]).
Proof.
  intros n s Hi [_ Hv].
  pose proof (law_exec (jobKey (j_ID j)) w
    [HSet (jobKey (j_ID j)) (jobSetFields j); ZAdd jobsIndexKey (j_ID j)] n s) as Hl.
  case_decide as Hw; [|destruct Hl as (_ & -> & _); done]. specialize (Hv Hw).
  destruct Hl as [-> _]. cbn [applyCmds applyCmd]. rewrite Hv. cbn [asHash]. unfold putHash.
  rewrite (bool_decide_eq_false_2 (hset _ _ = ∅)) by apply hset_nonempty. rewrite hset_empty.
  destruct (record_created (keys s) j Hz Hi Hv) as [Hc He].
  set (m := <[_ := _]> (keys s)) in *.
  enough (cleanRecords (applyCmd (ZAdd jobsIndexKey (j_ID j)) m).1
    ∧ ∀ id, noColon id → jobAt (applyCmd (ZAdd jobsIndexKey (j_ID j)) m).1 id = jobAt m id) as [Hc' Hsame].
  { destruct (applyCmd _ m) as [m' e] eqn:E. cbn in *. rewrite E. cbn. split; [done|].
    intros id j0 j1 Hid H0' H1'. rewrite Hsame in H1' by done. by eapply He. }
  assert (∀ id, noColon id →
    (applyCmd (ZAdd jobsIndexKey (j_ID j)) m).1 !! jobKey id = m !! jobKey id) as Hu.
  { intros id Hid. apply applyCmd_untouched. cbn. rewrite elem_of_cons, elem_of_nil.
    intros [E|[]]. by eapply elsewhere_index. }
  split; [|intros id Hid; unfold jobAt; by rewrite Hu].
  apply untouched_records with m; [|done]. intros id Hid. left. by apply Hu.
Qed.

(** Writes to keys that hold no record. *)
Lemma keepsTo_xadd id maxLen vs : keepsTo cleanRecords recordsEvolve nothing (CXAdd (eventsKey id) maxLen vs).
Proof.
  intros n s Hi _. destruct (asStream (keys s !! eventsKey id)) as [xs|] eqn:Ex.
  - destruct (law_xadd (eventsKey id) maxLen vs n s xs Ex) as (s' & i & kept & E & _ & _ & Hk & _).
    rewrite E. cbn. rewrite Hk. apply records_elsewhere; [apply elsewhere_suffixed|done].
  - by destruct (law_xadd_wrong (eventsKey id) maxLen vs n s Ex) as [_ ->].
Qed.

Lemma keepsTo_hset id f v : keepsTo cleanRecords recordsEvolve nothing (CHSet (permsKey id) f v).
Proof.
  intros n s Hi _. pose proof (law_hset (permsKey id) f v n s) as Hl.
  pose proof (λ id', applyCmd_untouched (HSet (permsKey id) [(f, v)]) (keys s) (jobKey id')) as Hu.
  destruct (applyCmd _ (keys s)) as [m' e]. destruct Hl as (_ & -> & _). cbn in Hu.
  apply untouched_records; [|done]. intros id' Hid. left. apply Hu.
  rewrite elem_of_cons, elem_of_nil. intros [E|[]].
  eapply (elsewhere_suffixed id); [exact Hid|exact E].
Qed.

Lemma lookup_deletes ks (m : gmap string rvalue) k :
  foldl (λ m k, delete k m) m ks !! k = m !! k ∨ foldl (λ m k, delete k m) m ks !! k = None.
Proof.
  revert m. induction ks as [|k' ks IH]; intros m; [by left|]. cbn.
  destruct (IH (delete k' m)) as [->|]; [|by right].
  destruct (decide (k = k')) as [->|]; [right; apply lookup_delete_eq|left; by apply lookup_delete_ne].
Qed.

Lemma keepsTo_delete id :
  keepsTo cleanRecords recordsEvolve nothing
    (CTx [Del [jobKey id; eventsKey id; permsKey id]; ZRem jobsIndexKey id]).
Proof.
  intros n s Hi _.
  destruct (law_tx [Del [jobKey id; eventsKey id; permsKey id]; ZRem jobsIndexKey id] n s) as [-> _].
  cbn [applyCmds].
  change (applyCmd (Del ?ks) (keys s)) with (foldl (λ m k, delete k m) (keys s) ks, @None error).
  cbv beta iota. set (m1 := foldl _ (keys s) _).
  pose proof (λ id', applyCmd_untouched (ZRem jobsIndexKey id) m1 (jobKey id')) as Hu.
  destruct (applyCmd (ZRem _ _) m1) as [m2 e2]. cbn [fst] in *.
  apply untouched_records; [|done]. intros id' Hid. rewrite Hu.
  - apply lookup_deletes.
  - cbn. rewrite elem_of_cons, elem_of_nil. intros [E|[]]. by eapply elsewhere_index.
Qed.

Lemma keeps_read (F : R → Prop) {X} (c : rcmd X) :
  readOnly c = true → keepsTo cleanRecords recordsEvolve F c.
Proof. intros Hc. apply keepsTo_read; [apply _|done]. Qed.

(** A method that only reads. *)
Fixpoint reads {A : Type} (p : rprog A) : Prop :=
  match p with
  | RRet _ | RCut => True
  | RAct c k => readOnly c = true ∧ ∀ x, reads (k x)
  end.

Lemma reads_bind {A B} (p : rprog A) (f : A → rprog B) :
  reads p → (∀ a, reads (f a)) → reads (p ≫= f).
Proof. induction p as [a|X c k IH|]; cbn; naive_solver. Qed.

Lemma method_reads {A} (p : rprog A) : reads p → method p.
Proof.
  induction p as [a|X c k IH|]; cbn; try done. intros [Hc Hk].
  split; [by apply keeps_read|]. intros x. exists nothing. split; [by split|]. by apply IH.
Qed.

Lemma method_jobExists {A} ctx id (k : rprog (res A)) : method k → method (jobExists ctx id k).
Proof.
  intros Hk. apply guaranteed_call; [by apply keeps_read|]. intros [n|e]; [|done].
  cbn. by destruct (n =? 0)%Z.
Qed.

Lemma reads_GetJob id : reads (GetJob id).
Proof. split; [done|]. by intros []. Qed.

Lemma reads_getJobs ids out : reads (getJobs ids out).
Proof.
  revert out. induction ids as [|id ids IH]; intros out; [done|]. cbn [getJobs].
  apply reads_bind; [apply reads_GetJob|]. intros [j|e]; [done|]. by destruct (errorsIs e ErrNotFound).
Qed.

Lemma method_UpdateJob {C} id (fn : updater C) c : safeUpdate fn → method (UpdateJob id fn c).
Proof.
  intros Hfn. unfold UpdateJob. generalize maxUpdateRetries. intros n. revert c.
  induction n as [|n IH]; intros c; [done|]. cbn [updateLoop]. apply guaranteed_bind.
  - split; [by apply keeps_read|]. intros [w|e]; [|exists nothing; split; [by split|done]].
    exists (λ s, w ≤ version s (jobKey id)). split; [apply learns_watch|].
    split; [by apply keeps_read|]. intros [h|e]; [|exists nothing; split; [by split|done]].
    cbn [mbind rprog_bind rbind]. case_bool_decide as Hne; [exists nothing; split; [by split|done]|].
    exists (since (jobKey id) w (Some (RHash h))). split.
    { apply learns_since; [done|]. intros m s s' Ha%answered_hgetall.
      destruct (keys s !! jobKey id) as [[]|]; naive_solver. }
    destruct (jobFromFields h) as [j|e] eqn:Ej; [|done].
    destruct (fn c j) as [c' [j'|e]] eqn:Ef; [|done].
    split; [eapply keepsTo_update; [done|]; by eapply Hfn|].
    intros x. exists nothing. split; [by split|]. by destruct x.
  - intros [c' [j|e]]; [done|]. destruct (errorsIs e TxFailedErr); [|by destruct (errorsIs e ErrNotFound)].
    apply guaranteed_call; [by apply keeps_read|]. intros jit.
    apply guaranteed_call; [by apply keeps_read|]. intros _. apply IH.
Qed.

Lemma method_CreateJob j : method (CreateJob j).
Proof.
  apply guaranteed_bind; [|done].
  split; [by apply keeps_read|]. intros [w|e]; [|exists nothing; split; [by split|done]].
  exists (λ s, w ≤ version s (jobKey (j_ID j))). split; [apply learns_watch|].
  split; [by apply keeps_read|]. intros [n|e]; [|exists nothing; split; [by split|done]].
  cbn [mbind rprog_bind rbind]. destruct (Z.eqb_spec n 0) as [->|]; [|exists nothing; split; [by split|done]].
  exists (since (jobKey (j_ID j)) w None). split.
  { apply learns_since; [done|]. intros m s s' [E|msg a Hx _]; [|done].
    pose proof (law_exists (jobKey (j_ID j)) m s) as Hl. rewrite E in Hl. cbn in Hl.
    case_bool_decide as Hs; [done|]. by apply eq_None_not_Some. }
  split; [apply keepsTo_create|]. intros x. exists nothing. split; [by split|done].
Qed.

Lemma method_DeleteJob id : method (DeleteJob id).
Proof.
  apply method_jobExists, guaranteed_bind; [|done]. apply guaranteed_call; [apply keepsTo_delete|done].
Qed.

Lemma method_AppendEvent id ev : method (AppendEvent rs id ev).
Proof.
  apply method_jobExists, guaranteed_bind; [|intros at_].
  - destruct (IsZero _); [|done]. apply guaranteed_call; [by apply keeps_read|done].
  - apply guaranteed_bind; [|done]. apply guaranteed_call; [apply keepsTo_xadd|done].
Qed.

Lemma method_PutPermission id p : method (PutPermission id p).
Proof.
  apply method_jobExists. destruct (marshalPermission p); [|done].
  apply guaranteed_bind; [|done]. apply guaranteed_call; [apply keepsTo_hset|done].
Qed.

(** Every store call of an operation that respects the lifecycle. *)
Lemma implement_guaranteed X (e : eff X) q :
  lifecycle X e → implement rs e = Some q → method q.
Proof.
  destruct e; cbn [lifecycle implement]; intros He Hq; try done; apply (inj Some) in Hq as <-;
    eauto using method_CreateJob, method_UpdateJob, method_DeleteJob, method_AppendEvent,
      method_PutPermission; apply method_reads.
  - apply reads_GetJob.
  - apply reads_bind; [|done]. split; [done|]. intros [ids|e]; [|done]. cbn [mbind rprog_bind rbind].
    apply reads_bind; [apply reads_getJobs|done].
  - split; [done|]. intros [n|e]; [|done]. cbn. destruct (n =? 0)%Z; [done|]. split; [done|]. by intros [].
  - split; [done|]. by intros [].
  - split; [done|]. by intros [].
Qed.

Lemma link_guaranteed {A : Type} (p : prog A) :
  guarded lifecycle p → lguaranteed cleanRecords recordsEvolve nothing (link rs p).
Proof.
  induction p as [A a|A X e k IH|A l q IHq k IHk|A|A]; cbn; try done; [|naive_solver].
  intros [He Hk]. destruct (implement rs e) as [q|] eqn:Eq; [|intros x; by apply IH].
  apply lguaranteed_calls; [by eapply implement_guaranteed|]. intros x. by apply IH.
Qed.

(** One step of the linked pool during which the record stays readable. *)
Definition lkeeping (id : string) (c c' : R * list (lprog unit)) : Prop :=
  lstep c c' ∧ is_Some (jobAt (keys (fst c')) id).

Lemma lkeeping_evolves id c c' j :
  noColon id → poolKnows cleanRecords recordsEvolve c → jobAt (keys (fst c)) id = Some j →
  rtc (lkeeping id) c c' → ∃ j', jobAt (keys (fst c')) id = Some j' ∧ evolves j j'.
Proof.
  intros Hid Hp Hj Hs. revert j Hp Hj.
  induction Hs as [|c1 c2 c3 [Hst [j2 Hj2]] _ IH]; intros j Hp Hj; [by eexists|].
  destruct (lstep_guaranteed _ _ _ _ Hp Hst) as [Hp2 HG].
  destruct (IH j2 Hp2 Hj2) as (j' & Hj' & He). exists j'. split; [done|].
  etrans; [|exact He]. by eapply HG.
Qed.

End methods.

(** ** Properties *)

(** C11. The lifecycle survives the Redis store. When every store call of every operation
    is the program of Redis calls that implements it, and the calls of all operations
    and of their goroutines interleave arbitrarily, with replies lost in transport at
    any point, a job that stays in the store still keeps its identity, never moves back,
    never loses a cancellation request, and once terminal its outcome is final. It holds
    of any server that behaves as documented, in time zones of whole minutes, with the
    stored repo scopes valid text. *)
Theorem redis_lifecycle_is_final {R : Type} `{RedisLaws R} `{TimeEnv} `{JsonText} `{UnicodeTables}
  `{ProtoJSON} (rs : redisStore) (sv : Service) (s : R) (ops : list (prog unit)) (id : string) (j : Job)
  (c' : R * list (lprog unit))
  (Hz : wholeZones) (Hid : noColon id) (Hops : Forall (operation sv) ops)
  (Hclean : cleanRecords (keys s)) (Hj : jobAt (keys s) id = Some j)
  (Hsteps : rtc (lkeeping id) (s, link rs <$> ops) c') :
  ∃ j', jobAt (keys (fst c')) id = Some j' ∧ evolves j j'.
Proof.
  apply (lkeeping_evolves id (s, link rs <$> ops) c' j Hid); [|done|done]. split; [done|]. cbn [snd].
  apply Forall_fmap. eapply Forall_impl; [exact Hops|]. intros p Hp. exists (λ _, True).
  split_and!; [done|done|]. apply link_guaranteed; [done|]. by eapply guarded_operation.
Qed.

(** ** A cancellation that races the reaper, call by call *)

(** Answers for the actions that are no store calls, late in 2027. *)
Definition dull {X} (e : eff X) : option X :=
  match e in eff X return option X with
  | ENow => Some (unixEpoch + 1800000000 * Second)%Z
  | EConnected _ => Some false
  | ETel _ => Some tt
  | EReceive _ => Some (Ok sample_ready)
  | ENewSession _ => Some 0
  | ERegister _ _ | EStreamSend _ _ | ESessionSend _ _ => Some (Ok tt)
  | _ => None
  end.

Section schedules.
Context {R : Type} `{RedisLaws R} `{TimeEnv} `{JsonText}.

Definition lexecOne (n i : nat) (c : R * list (lprog unit)) : R * list (lprog unit) :=
  let '(s, ts) := c in
  match ts !! i with
  | Some (LCmd cmd k) => let '(s', x) := serve cmd n s in (s', <[i := k x]> ts)
  | Some (LEff e k) => match dull e with Some x => (s, <[i := k x]> ts) | None => c end
  | _ => c
  end.

Fixpoint lexec (sched : list nat) (n : nat) (c : R * list (lprog unit)) : R * list (lprog unit) :=
  match sched with [] => c | i :: sched' => lexec sched' (S n) (lexecOne n i c) end.

(** The record is readable after each step of the schedule. *)
Fixpoint lpresent (id : string) (sched : list nat) (n : nat) (c : R * list (lprog unit)) : bool :=
  match sched with
  | [] => true
  | i :: sched' =>
      match jobAt (keys (fst (lexecOne n i c))) id with Some _ => true | None => false end
      && lpresent id sched' (S n) (lexecOne n i c)
  end.

Lemma lexecOne_step n i c : lexecOne n i c = c ∨ lstep c (lexecOne n i c).
Proof.
  destruct c as [s ts]. cbn. destruct (ts !! i) as [[a|X e k|X cmd k|q k|]|] eqn:Ei; auto.
  - destruct (dull e); auto. right. by eapply lstep_eff.
  - right. destruct (serve cmd n s) as [s' x] eqn:Es. eapply lstep_cmd; [exact Ei|]. by constructor.
Qed.

Lemma lexec_steps sched n c : rtc lstep c (lexec sched n c).
Proof.
  revert n c. induction sched as [|i sched IH]; intros n c; [done|]. cbn [lexec].
  destruct (lexecOne_step n i c) as [E|Hl]; [rewrite E; apply IH|]. by eapply rtc_l.
Qed.

Lemma lexec_keeping id sched n c :
  lpresent id sched n c = true → rtc (lkeeping id) c (lexec sched n c).
Proof.
  revert n c. induction sched as [|i sched IH]; intros n c; [done|]. cbn [lpresent lexec].
  intros [Hp Hrest]%andb_true_iff.
  assert (is_Some (jobAt (keys (fst (lexecOne n i c))) id)) as Hs by (by destruct (jobAt _ id)).
  destruct (lexecOne_step n i c) as [E|Hl]; [rewrite E in *; by apply IH|].
  eapply rtc_l; [split; [exact Hl|done]|by apply IH].
Qed.

End schedules.

#[local] Existing Instance sample_time.
#[local] Existing Instance sample_json.
#[local] Existing Instance sample_tables.
#[local] Existing Instance sample_codec.

Definition sample_server : server := fst (runAlone (CreateJob sample_stored) 0 (mkServer ∅ ∅)).

Definition hourly : Reaper := NewReaper Hour Minute [].

(** Two operations on that server: a harness stream or a cancellation, and a sweep. *)
Definition contest (op : prog unit) : server * list (lprog unit) :=
  (sample_server, link (New 0) <$> [op; sweep hourly 4]).

(** Every hash that reads as a record has a valid scope. *)
Definition cleanValue (v : rvalue) : bool :=
  match v with
  | RHash h => match jobFromFields h with
               | Ok j => forallb (λ s, sanitize s ==? s) (j_RepoScope j)
               | Err _ => true
               end
  | _ => true
  end.

Lemma cleanRecords_check m : forallb (λ kv, cleanValue (snd kv)) (map_to_list m) = true → cleanRecords m.
Proof.
  rewrite forallb_forall. intros Hc id j _. unfold jobAt. destruct (m !! jobKey id) as [v|] eqn:Em; [|done].
  apply elem_of_map_to_list, list_elem_of_In, Hc in Em. cbn in Em.
  destruct v as [h| |]; try done. cbn in Em. destruct (jobFromFields h) as [j0|]; [|done].
  intros [= <-]. rewrite forallb_forall in Em. apply Forall_forall. intros s Hs%list_elem_of_In%Em.
  by apply bool_decide_eq_true in Hs.
Qed.

(** The sweep reads the record, the cancellation completes, the sweep loses its write,
    reads again and leaves the job alone. *)
Definition cancel_first : list nat := replicate 6 1 ++ replicate 12 0 ++ replicate 20 1.

Lemma redis_lifecycle_is_final_witness :
  let c := lexec cancel_first 0 (contest (discard (Cancel sample_id))) in
  (∃ j', jobAt (keys (fst c)) sample_id = Some j' ∧ evolves sample_stored j')
  ∧ (j_Status <$> jobAt (keys (fst c)) sample_id) = Some StatusCancelled.
Proof.
  intros c. split; [|vm_compute; reflexivity].
  apply (redis_lifecycle_is_final (New 0) (NewService None []) sample_server
    [discard (Cancel sample_id); sweep hourly 4] sample_id).
  - intros t. vm_compute. split_and!; reflexivity.
  - vm_compute. reflexivity.
  - constructor; [apply op_Cancel|constructor; [apply op_sweep|constructor]].
  - apply cleanRecords_check. vm_compute. reflexivity.
  - vm_compute. reflexivity.
  - apply lexec_keeping. vm_compute. reflexivity.
Defined.

(** The sweep reads the record, the harness connects and the job runs, the sweep loses
    its write and tries again. *)
Definition connects_first : list nat := replicate 6 1 ++ replicate 13 0 ++ replicate 20 1.

(** The events of a job, oldest first. *)
Definition timelineAt (m : gmap string rvalue) (id : string) : list Event :=
  match m !! eventsKey id with
  | Some (RStream xs) => match eventsFromMessages (messageOf <$> xs) with Ok evs => evs | Err _ => [] end
  | _ => []
  end.

(** On the Redis store the reaper can announce a failure that did not happen: it
    marks the job as moved on an attempt that loses the compare-and-set race, and the
    attempt that follows finds the job running and changes nothing, but the mark stays.
    The sweep ends with the job running and a terminal [failed] status last on its
    timeline. *)
Theorem reaper_misreports_running_job :
  let start := contest (discard (runTask (NewHandler []) 10 0)) in
  let c := lexec connects_first 0 start in
  rtc lstep start c
  ∧ snd c !! 1 = Some (LRet tt)
  ∧ (j_Status <$> jobAt (keys (fst c)) sample_id) = Some StatusRunning
  ∧ (λ ev, (ev_Type ev, ev_PayloadJSON ev)) <$> timelineAt (keys (fst c)) sample_id
    = [(EventStatusChange, formatStatus StatusRunning);
       (EventStatusChange, marshalStatus (mkStatusPayload StatusFailed stuckHarnessError))].
Proof. intros start c. split; [apply lexec_steps|]. split_and!; vm_compute; reflexivity. Qed.
