(* ===== verification/RedisRefines.v ===== *)
(** * The Redis store refines an abstract store

    The abstract store maps the ID of a job to its record, its timeline and its
    permission requests, and says what each operation answers and changes.  Each method
    of the Redis store, run by itself on a server that represents such a store, returns,
    answers as specified, and leaves a server that represents the store as changed. *)

From stdpp Require Import base gmap list strings sorting.
From Stdlib Require Import Ascii.
From S2P Require Import Prelude Utf8 Fmt Json GoTime Job Proto Store MemStore Telemetry Registry Prog.
From S2P Require Import Redis RedisModel RedisStore RedisCodec RedisUpdate RedisLink Samples.

(** ** The abstract store *)

Record absJob := mkAbsJob {
  ab_job : Job;
  ab_events : list ((N * N) * Event);
  ab_perms : gmap string PermissionRequest;
}.

Abbreviation absStore := (gmap string absJob) (only parsing).

Definition with_job (j : Job) (aj : absJob) : absJob := mkAbsJob j (ab_events aj) (ab_perms aj).
Definition with_events (evs : list ((N * N) * Event)) (aj : absJob) : absJob :=
  mkAbsJob (ab_job aj) evs (ab_perms aj).
Definition with_permission (p : PermissionRequest) (aj : absJob) : absJob :=
  mkAbsJob (ab_job aj) (ab_events aj) (<[pr_RequestID p := p]> (ab_perms aj)).

Definition failsWith {A} (target : error) (x : res A) : Prop :=
  ∃ e, x = Err e ∧ errorsIs e target = true.

(** The IDs below a page token, newest first: all of them without a token. *)
Definition idsBelow (tok : string) (a : absStore) : list string :=
  filter (λ id, tok = "" ∨ String.ltb id tok = true) (descending (dom a)).

(** The page of a limit, which is 50 when it is not positive, and the token of the next. *)
Definition pageOf (limit : Z) (tok : string) (a : absStore) : list Job * string :=
  let n := Z.to_nat (if (limit <=? 0)%Z then 50 else limit)%Z in
  let ids := idsBelow tok a in
  (omap (λ id, ab_job <$> a !! id) (take n ids),
   if n <? length ids then default "" (last (take n ids)) else "").

(** Behind an ID, or anywhere. *)
Definition behind (after : option (N * N)) (i : N * N) : Prop :=
  match after with None => True | Some j => entryLt j i end.

#[export] Instance behind_dec after i : Decision (behind after i).
Proof. destruct after; cbn; apply _. Defined.

(** The events behind an ID, at most as many as the limit, which is 1000 when it is not
    positive. *)
Definition eventsAfter (after : option (N * N)) (limit : Z) (evs : list ((N * N) * Event)) : list Event :=
  let n := Z.to_nat (if (limit <=? 0)%Z then 1000 else limit)%Z in
  snd <$> take n (filter (λ x, behind after x.1) evs).

(** What an append leaves: the newest events, at least as many as the cap. *)
Definition appended (cap : Z) (i : N * N) (ev : Event) (evs kept : list ((N * N) * Event)) : Prop :=
  Forall (λ x, entryLt x.1 i) evs ∧ suffix kept (evs ++ [(i, ev)])
  ∧ (Z.min cap (Z.of_nat (S (length evs))) ≤ Z.of_nat (length kept))%Z.

(** [absCall rs e a a' x]: the store call [e] answers [x] and turns [a] into [a']. *)
Definition absCall (rs : redisStore) {X} (e : eff X) (a a' : absStore) : X → Prop :=
  match e in eff X return X → Prop with
  | ECreateJob j => λ x,
      match a !! j_ID j with
      | Some _ => failsWith ErrConflict x ∧ a' = a
      | None => x = Ok tt ∧ a' = <[j_ID j := mkAbsJob j [] ∅]> a
      end
  | EGetJob id => λ x,
      a' = a ∧ match a !! id with Some aj => x = Ok (ab_job aj) | None => failsWith ErrNotFound x end
  | EListJobs limit tok => λ x, a' = a ∧ x = Returned (Ok (pageOf limit tok a))
  | EUpdateJob id fn c => λ x,
      match a !! id with
      | Some aj =>
          match fn c (ab_job aj) with
          | (c', Ok j') => x = (c', Ok j') ∧ a' = <[id := with_job j' aj]> a
          | (c', Err e) => x = (c', Err e) ∧ a' = a
          end
      | None => fst x = c ∧ failsWith ErrNotFound (snd x) ∧ a' = a
      end
  | EDeleteJob id => λ x,
      match a !! id with
      | Some _ => x = Ok tt ∧ a' = delete id a
      | None => failsWith ErrNotFound x ∧ a' = a
      end
  | EAppendEvent id ev => λ x,
      match a !! id with
      | Some aj => ∃ i at_ kept,
          x = Ok (idText i) ∧ (IsZero (ev_At ev) = false → at_ = ev_At ev)
          ∧ appended (rs_maxEvents rs) i (mkEvent (idText i) (ev_Type ev) (ev_PayloadJSON ev) at_)
              (ab_events aj) kept
          ∧ a' = <[id := with_events kept aj]> a
      | None => failsWith ErrNotFound x ∧ a' = a
      end
  | EReadEvents id after limit => λ x,
      a' = a ∧ match a !! id with
               | Some aj =>
                   (after = "" → x = Ok (eventsAfter None limit (ab_events aj)))
                   ∧ ∀ i, after = idText i → x = Ok (eventsAfter (Some i) limit (ab_events aj))
               | None => failsWith ErrNotFound x
               end
  | EPutPermission id p => λ x,
      match a !! id with
      | Some aj => x = Ok tt ∧ a' = <[id := with_permission p aj]> a
      | None => failsWith ErrNotFound x ∧ a' = a
      end
  | EGetPermission id q => λ x,
      a' = a ∧ match a !! id ≫= λ aj, ab_perms aj !! q with
               | Some p => x = Ok p
               | None => failsWith ErrNotFound x
               end
  | EListPermissions id => λ x,
      a' = a ∧ ∃ ps, x = Ok ps ∧ Sorted permLe ps
        ∧ ps ≡ₚ snd <$> map_to_list (default ∅ (ab_perms <$> a !! id))
  | _ => λ _, False
  end.

(** ** Representation *)

Section represents.
Context `{TimeEnv} `{JsonText}.

(** An entry and the event it holds. *)
Definition holdsEvent (x : entry) (y : (N * N) * Event) : Prop :=
  x_key x = y.1 ∧ eventFromMessage (messageOf x) = Ok y.2.

Record holds (m : gmap string rvalue) (id : string) (aj : absJob) : Prop := {
  ho_job : ∃ h, m !! jobKey id = Some (RHash h) ∧ h ≠ ∅ ∧ jobFromFields h = Ok (ab_job aj);
  ho_storable : storable (ab_job aj);
  ho_events : ∃ xs, asStream (m !! eventsKey id) = Some xs
    ∧ Forall2 holdsEvent xs (ab_events aj);
  ho_perms : ∃ h, asHash (m !! permsKey id) = Some h
    ∧ map_Forall2 (λ _ data p, unmarshalPermission data = Ok p) h (ab_perms aj);
}.

Definition lacks (m : gmap string rvalue) (id : string) : Prop :=
  m !! jobKey id = None ∧ m !! eventsKey id = None ∧ m !! permsKey id = None.

Definition slot (m : gmap string rvalue) (id : string) (o : option absJob) : Prop :=
  match o with Some aj => holds m id aj | None => lacks m id end.

Record represents (m : gmap string rvalue) (a : absStore) : Prop := {
  rp_index : asZSet (m !! jobsIndexKey) = Some (dom a);
  rp_ids : ∀ id, is_Some (a !! id) → noColon id;
  rp_slots : ∀ id, noColon id → slot m id (a !! id);
}.

(** What a caller must respect: IDs as hairpin makes them, and data that can be stored. *)
Definition storableCall {X} (e : eff X) : Prop :=
  match e with
  | ECreateJob j => noColon (j_ID j) ∧ storable j
  | EListJobs limit _ => (limit < 2 ^ 63 - 1)%Z
  | EUpdateJob id fn _ =>
      noColon id ∧ ∀ c j, storable j →
        match fn c j with
        | (_, Ok j') => storable j'
        | (_, Err e) => errorsIs e TxFailedErr = false ∧ errorsIs e ErrNotFound = false
        end
  | EAppendEvent id ev => noColon id ∧ representable (ev_At ev)
  | EReadEvents id after limit => noColon id ∧ (after = "" ∨ ∃ i, after = idText i)
  | EPutPermission id p => noColon id ∧ storablePermission p
  | EGetJob id | EDeleteJob id | EGetPermission id _ | EListPermissions id => noColon id
  | _ => True
  end.

(** The keys of a job. *)
Definition jobKeys (id : string) : list string := [jobKey id; eventsKey id; permsKey id].

Lemma represents_empty : represents ∅ ∅.
Proof.
  split; [done|by intros id [? ?]|]. intros id _. rewrite lookup_empty. done.
Qed.

(** Only the keys of the job and the index change. *)
Lemma represents_change m m' a id o :
  represents m a → noColon id → slot m' id o →
  asZSet (m' !! jobsIndexKey) = Some (dom (partial_alter (λ _, o) id a)) →
  (∀ k, k ≠ jobsIndexKey → k ∉ jobKeys id → m' !! k = m !! k) →
  represents m' (partial_alter (λ _, o) id a).
Proof.
  intros [Hi Hn Hs] Hid Hslot Hi' Hsame. split; [done| |].
  - intros id'. destruct (decide (id = id')) as [<-|]; [done|]. rewrite lookup_partial_alter_ne by done. apply Hn.
  - intros id' Hid'. destruct (decide (id = id')) as [<-|Hne]; [by rewrite lookup_partial_alter_eq|].
    rewrite lookup_partial_alter_ne by done.
    assert (∀ k, k ∈ jobKeys id' → m' !! k = m !! k) as Hk.
    { intros k Hk. destruct (keys_distinct id' id) as (A1 & A2 & A3 & A4 & A5 & A6 & A7 & A8); [done..|].
      destruct (keys_distinct id id') as (B1 & B2 & B3 & B4 & B5 & B6 & B7 & B8); [done..|].
      unfold jobKeys in *. rewrite !elem_of_cons in Hk.
      destruct Hk as [-> | [-> | [-> | []%elem_of_nil]]]; apply Hsame; try done;
        rewrite !not_elem_of_cons; (split_and!; [..|apply not_elem_of_nil]); intros E;
        first [congruence|apply A7 in E|apply A8 in E|apply jobKey_inj in E]; congruence. }
    specialize (Hs id' Hid'). destruct (a !! id') as [aj|]; cbn in *; unfold lacks in *.
    + destruct Hs as [H1 H2 H3 H4]. split; rewrite ?Hk by (unfold jobKeys; set_solver); done.
    + rewrite !Hk by (unfold jobKeys; set_solver). done.
Qed.

End represents.

(** ** Operations run alone *)

Section alone.
Context {R : Type} `{RedisLaws R}.
Implicit Types s : R.

(** Started on [s] at any moment, the operation returns, and [Q] holds. *)
Definition alone {A} (p : rprog A) s (Q : R → A → Prop) : Prop :=
  ∀ n, ∃ s' x, runAlone p n s = (s', Some x) ∧ Q s' x.

(** The same keyspace with the same counts. *)
Definition unchanged s s' : Prop := keys s' = keys s ∧ version s' = version s.

Lemma alone_ret {A} (a : A) s (Q : R → A → Prop) : Q s a → alone (RRet a) s Q.
Proof. intros Hq n. by exists s, a. Qed.

Lemma alone_act {A X} (c : rcmd X) (k : X → rprog A) s Q :
  (∀ n s' x, serve c n s = (s', x) → alone (k x) s' Q) → alone (RAct c k) s Q.
Proof.
  intros Hk n. cbn. destruct (serve c n s) as [s' x] eqn:Es. by apply (Hk n).
Qed.

Lemma alone_mono {A} (p : rprog A) s (Q Q' : R → A → Prop) :
  alone p s Q → (∀ s' x, Q s' x → Q' s' x) → alone p s Q'.
Proof. intros Hp HQ n. destruct (Hp n) as (s' & x & E & Hx). eauto. Qed.

Lemma alone_bind {A B} (p : rprog A) (f : A → rprog B) s Q :
  alone p s (λ s' a, alone (f a) s' Q) → alone (p ≫= f) s Q.
Proof.
  intros Hp n. destruct (runAlone_bind p f n s) as [k ->]. destruct (Hp n) as (s' & a & -> & Ha). apply Ha.
Qed.

Lemma alone_read {A X} (c : rcmd X) (k : X → rprog A) s Q (x : X) :
  readOnly c = true → (∀ n, snd (serve c n s) = x) →
  (∀ s', unchanged s s' → alone (k x) s' Q) → alone (RAct c k) s Q.
Proof.
  intros Hc Hx Hk. apply alone_act. intros n s' y Es. specialize (Hx n). rewrite Es in Hx. cbn in Hx. subst y.
  apply Hk. destruct (law_read X c n s Hc) as [H1 H2]. by rewrite Es in H1, H2.
Qed.

(** A transaction in which the watched key has not been modified. *)
Lemma alone_exec {A} key w cs (k : res unit → rprog A) s Q :
  version s key = w →
  (∀ s', keys s' = (applyCmds cs (keys s)).1 →
     alone (k (replyOf (applyCmds cs (keys s)).2)) s' Q) →
  alone (RAct (CExec key w cs) k) s Q.
Proof.
  intros Hw Hk. apply alone_act. intros n s' x Es. pose proof (law_exec key w cs n s) as Hl.
  rewrite decide_True in Hl by done. rewrite Es in Hl. destruct Hl as (H1 & H2 & _). cbn in H1, H2.
  subst x. by apply Hk.
Qed.

Lemma alone_tx {A} cs (k : res unit → rprog A) s Q :
  (∀ s', keys s' = (applyCmds cs (keys s)).1 →
     alone (k (replyOf (applyCmds cs (keys s)).2)) s' Q) →
  alone (RAct (CTx cs) k) s Q.
Proof.
  intros Hk. apply alone_act. intros n s' x Es. pose proof (law_tx cs n s) as Hl.
  rewrite Es in Hl. destruct Hl as (H1 & H2 & _). cbn in H1, H2. subst x. by apply Hk.
Qed.

End alone.

(** ** The methods *)

Section methods.
Context {R : Type} `{RedisLaws R} `{TimeEnv} `{JsonText} (rs : redisStore).
Hypothesis clock : ∀ n (s : R), representable (snd (serve CNow n s)).
Implicit Types s : R.

(** What the call must establish. *)
Definition refines {X} (e : eff X) (p : rprog X) : Prop :=
  ∀ s a, represents (keys s) a →
    alone p s (λ s' x, ∃ a', absCall rs e a a' x ∧ represents (keys s') a').

Lemma represents_unchanged s s' a : unchanged s s' → represents (keys s) a → represents (keys s') a.
Proof. by intros [-> _]. Qed.

(** The existence of a job is the existence of its hash. *)
Lemma exists_slot m a id :
  represents m a → noColon id → is_Some (m !! jobKey id) ↔ is_Some (a !! id).
Proof.
  intros [_ _ Hs] Hid. specialize (Hs id Hid). destruct (a !! id) as [aj|]; cbn in Hs.
  - destruct Hs as [(h & -> & _) _ _ _]. by split.
  - destruct Hs as (-> & _). by split.
Qed.

Lemma alone_jobExists {A} ctx id (k : rprog (res A)) s a Q :
  represents (keys s) a → noColon id →
  match a !! id with
  | Some aj => ∀ s', unchanged s s' → holds (keys s') id aj → represents (keys s') a → alone k s' Q
  | None => ∀ s' x, failsWith ErrNotFound x → represents (keys s') a → Q s' x
  end → alone (jobExists ctx id k) s Q.
Proof.
  intros Hr Hid HQ. eapply alone_read; [done|intros n; apply law_exists|]. intros s' Hs'. cbv beta iota.
  pose proof (represents_unchanged s s' a Hs' Hr) as Hr'.
  rewrite (bool_decide_ext _ _ (exists_slot _ _ _ Hr Hid)).
  destruct (a !! id) as [aj|] eqn:Ea; cbn.
  - apply HQ; try done. pose proof (rp_slots _ _ Hr' id Hid) as Hs. by rewrite Ea in Hs.
  - apply alone_ret, HQ; [|done]. eexists. split; [done|]. unfold notFoundf. by rewrite errorsIs_wrapf.
Qed.

Lemma asHash_slot m a id h :
  represents m a → noColon id → asHash (m !! jobKey id) = Some h →
  match a !! id with Some aj => h ≠ ∅ ∧ jobFromFields h = Ok (ab_job aj) | None => h = ∅ end.
Proof.
  intros [_ _ Hs] Hid. specialize (Hs id Hid). destruct (a !! id) as [aj|]; cbn in Hs.
  - destruct Hs as [(h' & -> & Hne & Hj) _ _ _]. cbn. by intros [= <-].
  - destruct Hs as (-> & _). cbn. by intros [= <-].
Qed.

Lemma jobHash m a id : represents m a → noColon id → ∃ h, asHash (m !! jobKey id) = Some h.
Proof.
  intros [_ _ Hs] Hid. specialize (Hs id Hid). destruct (a !! id) as [aj|]; cbn in Hs.
  - destruct Hs as [(h' & -> & _) _ _ _]. by eexists.
  - destruct Hs as (-> & _). by eexists.
Qed.

Lemma alone_GetJob id s a :
  represents (keys s) a → noColon id →
  alone (GetJob id) s (λ s' x, unchanged s s' ∧
    match a !! id with Some aj => x = Ok (ab_job aj) | None => failsWith ErrNotFound x end).
Proof.
  intros Hr Hid. destruct (jobHash _ _ _ Hr Hid) as [h Hh].
  eapply (alone_read _ _ _ _ (Ok h)); [done|intros n; rewrite law_hgetall; by rewrite Hh|]. intros s' Hs'.
  apply alone_ret. split; [done|].
  pose proof (asHash_slot _ _ _ _ Hr Hid Hh) as Hslot. destruct (a !! id) as [aj|].
  - destruct Hslot as [Hne ->]. by rewrite bool_decide_eq_false_2.
  - rewrite bool_decide_eq_true_2 by done. eexists. split; [done|].
    unfold notFoundf. by rewrite errorsIs_wrapf.
Qed.

Lemma refines_GetJob id : noColon id → refines (EGetJob id) (GetJob id).
Proof.
  intros Hid s a Hr. eapply alone_mono; [by apply alone_GetJob|]. intros s' x [Hs' Hx].
  exists a. split; [by split|]. by eapply represents_unchanged.
Qed.

(** ** Creation, update and deletion *)

Lemma applyCmds_create m a j :
  represents m a → m !! jobKey (j_ID j) = None →
  applyCmds [HSet (jobKey (j_ID j)) (jobSetFields j); ZAdd jobsIndexKey (j_ID j)] m
  = (<[jobsIndexKey := RZSet ({[j_ID j]} ∪ dom a)]>
       (<[jobKey (j_ID j) := RHash (written j ∅)]> m), None).
Proof.
  intros [Hi _ _] Hm. cbn [applyCmds applyCmd]. rewrite Hm. cbn [asHash]. unfold putHash.
  rewrite (bool_decide_eq_false_2 (hset _ _ = ∅)) by apply hset_nonempty. rewrite hset_empty.
  rewrite lookup_insert_ne by done. rewrite Hi. unfold putZSet.
  rewrite bool_decide_eq_false_2 by set_solver. done.
Qed.

Lemma represents_created m a j :
  represents m a → noColon (j_ID j) → storable j → a !! j_ID j = None →
  represents (<[jobsIndexKey := RZSet ({[j_ID j]} ∪ dom a)]>
    (<[jobKey (j_ID j) := RHash (written j ∅)]> m)) (<[j_ID j := mkAbsJob j [] ∅]> a).
Proof.
  intros Hr Hid Hj Ha. pose proof (rp_slots _ _ Hr _ Hid) as Hs. rewrite Ha in Hs.
  destruct Hs as (_ & He & Hp). set (id := j_ID j) in *.
  destruct (keys_distinct id id) as (A1 & A2 & A3 & A4 & A5 & A6 & _ & _); [done..|].
  apply (represents_change m _ a id (Some _)); try done.
  - split.
    + exists (written j ∅). rewrite lookup_insert_ne, lookup_insert_eq by done.
      split_and!; [done|apply written_nonempty|by apply jobFromFields_written].
    + done.
    + exists []. rewrite !lookup_insert_ne by done. rewrite He. split; [done|constructor].
    + exists ∅. rewrite !lookup_insert_ne by done. rewrite Hp. split; [done|apply map_Forall2_empty].
  - rewrite lookup_insert_eq. cbn [asZSet]. f_equal. symmetry. exact (dom_insert_L a id _).
  - intros k Hk1 Hk2. apply not_elem_of_cons in Hk2 as [Hk2 _]. by rewrite !lookup_insert_ne.
Qed.

Lemma refines_CreateJob j : storableCall (ECreateJob j) → refines (ECreateJob j) (CreateJob j).
Proof.
  intros [Hid Hj] s a Hr. apply alone_bind.
  eapply alone_read; [done|intros n; apply law_watch|]. intros s1 [K1 V1].
  eapply alone_read; [done|intros n; apply law_exists|]. intros s2 [K2 V2]. cbv beta iota.
  rewrite K1 in K2 |- *.
  rewrite (bool_decide_ext _ _ (exists_slot _ _ _ Hr Hid)). cbn [absCall].
  destruct (a !! j_ID j) as [aj|] eqn:Ea; cbn.
  - apply alone_ret. cbn. apply alone_ret. exists a.
    split; [|by rewrite K2]. split; [|done]. eexists. split; [done|]. unfold conflictf. by rewrite errorsIs_wrapf.
  - assert (keys s !! jobKey (j_ID j) = None) as Hm.
    { apply eq_None_not_Some. rewrite exists_slot by done. rewrite Ea. by intros [? ?]. }
    apply alone_exec; [by rewrite V2, V1|]. intros s3 K3. rewrite K2, (applyCmds_create _ a) in K3 |- * by done.
    cbn in K3 |- *. apply alone_ret, alone_ret. eexists. split; [done|].
    rewrite K3. by apply represents_created.
Qed.

Lemma represents_rewritten m a id aj v aj' k :
  represents m a → noColon id → a !! id = Some aj → k ∈ jobKeys id →
  holds (<[k := v]> m) id aj' → represents (<[k := v]> m) (<[id := aj']> a).
Proof.
  intros Hr Hid Ha Hk Hh.
  assert (k ≠ jobsIndexKey) as Hne.
  { destruct (keys_distinct id id) as (_ & _ & A3 & _ & A5 & A6 & _); [done..|].
    unfold jobKeys in Hk. rewrite !elem_of_cons, elem_of_nil in Hk. naive_solver. }
  apply (represents_change m _ a id (Some aj')); try done.
  - rewrite lookup_insert_ne by done. rewrite (rp_index _ _ Hr). f_equal.
    change (partial_alter _ id a) with (<[id := aj']> a). symmetry. by apply dom_insert_lookup_L.
  - intros k' _ Hk'. rewrite lookup_insert_ne; [done|]. by intros ->.
Qed.

Lemma refines_UpdateJob {C : Set} id (fn : updater C) c :
  storableCall (EUpdateJob id fn c) → refines (EUpdateJob id fn c) (UpdateJob id fn c).
Proof.
  intros [Hid Hfn] s a Hr. change (UpdateJob id fn c) with (updateLoop 30 id fn c). cbn [updateLoop].
  apply alone_bind. destruct (jobHash _ _ _ Hr Hid) as [h Hh].
  eapply alone_read; [done|intros n; apply law_watch|]. intros s1 [K1 V1].
  eapply (alone_read _ _ _ _ (Ok h)); [done|intros n; rewrite law_hgetall; by rewrite K1, Hh|]. intros s2 [K2 V2].
  cbn [mbind rprog_bind rbind]. rewrite K1 in K2. cbn [absCall].
  pose proof (asHash_slot _ _ _ _ Hr Hid Hh) as Hslot. destruct (a !! id) as [aj|] eqn:Ea; cycle 1.
  { rewrite bool_decide_eq_true_2 by done. apply alone_ret. cbv beta iota. cbn.
    apply alone_ret. exists a. split; [|by rewrite K2]. split_and!; try done. eexists. split; [done|].
    unfold notFoundf. by rewrite errorsIs_wrapf. }
  destruct Hslot as [Hne Hj]. rewrite (bool_decide_eq_false_2 (h = ∅)) by done. rewrite Hj.
  pose proof (rp_slots _ _ Hr id Hid) as Hs. rewrite Ea in Hs.
  specialize (Hfn c (ab_job aj) (ho_storable _ _ _ Hs)).
  destruct (fn c (ab_job aj)) as [c' [j'|e]]; cycle 1.
  { apply alone_ret. destruct Hfn as [F1 F2]. rewrite F1, F2. apply alone_ret. exists a. by rewrite K2. }
  apply alone_exec; [by rewrite V2, V1|]. intros s3 K3.
  fold (updateCmds id j') in K3 |- *. rewrite (applyCmds_update id j' _ h) in K3 |- * by (by rewrite K2).
  cbn in K3 |- *. apply alone_ret, alone_ret. eexists. split; [done|]. rewrite K3, K2.
  destruct (keys_distinct id id) as (A1 & A2 & _); [done..|].
  eapply represents_rewritten; [done..|by left|]. destruct Hs as [_ _ Hev Hp].
  split; rewrite ?lookup_insert_ne by done; try done.
  exists (written j' h). rewrite lookup_insert_eq.
  split_and!; [done|apply written_nonempty|by apply jobFromFields_written].
Qed.

Lemma refines_DeleteJob id : noColon id → refines (EDeleteJob id) (DeleteJob id).
Proof.
  intros Hid s a Hr. eapply alone_jobExists; [done..|]. cbn [absCall].
  destruct (a !! id) as [aj|] eqn:Ea; [|intros s' x Hx Hr'; by exists a].
  intros s1 [K1 _] _ Hr1. apply alone_tx. intros s2 K2. cbn [applyCmds] in K2 |- *.
  change (applyCmd (Del ?ks) ?m0) with (foldl (λ m k, delete k m) m0 ks, @None error) in K2 |- *.
  cbv beta iota in K2 |- *. cbn [foldl] in K2 |- *. set (m := delete _ _) in K2 |- *.
  destruct (keys_distinct id id) as (A1 & A2 & A3 & A4 & A5 & A6 & _); [done..|].
  assert (m !! jobsIndexKey = keys s1 !! jobsIndexKey) as Hmi by (unfold m; by rewrite !lookup_delete_ne).
  cbn [applyCmd] in K2 |- *. rewrite Hmi, (rp_index _ _ Hr1) in K2 |- *. cbn in K2 |- *.
  apply alone_ret. exists (delete id a). split; [done|]. rewrite K2. unfold putZSet.
  apply (represents_change (keys s1) _ a id None); try done.
  - assert (∀ k, k ∈ jobKeys id → m !! k = None) as Hm.
    { intros k Hk. unfold m. unfold jobKeys in Hk. rewrite !elem_of_cons, elem_of_nil in Hk.
      rewrite !lookup_delete_None. naive_solver. }
    unfold slot, lacks. case_bool_decide; rewrite ?lookup_delete_ne, ?lookup_insert_ne by done;
      rewrite !Hm by (unfold jobKeys; set_solver); done.
  - change (partial_alter _ id a) with (delete id a). rewrite dom_delete_L.
    case_bool_decide as Hd; [by rewrite lookup_delete_eq, Hd|by rewrite lookup_insert_eq].
  - intros k Hk1 Hk2. unfold jobKeys in Hk2. rewrite !not_elem_of_cons in Hk2. unfold m.
    case_bool_decide; rewrite ?(lookup_delete_ne _ jobsIndexKey), ?lookup_insert_ne by done;
      by rewrite !lookup_delete_ne by naive_solver.
Qed.

(** ** Events *)

Lemma Forall2_suffix_l {A B} (P : A → B → Prop) l l' k :
  Forall2 P l l' → suffix k l → ∃ k', suffix k' l' ∧ Forall2 P k k'.
Proof.
  intros HP [q ->]. apply Forall2_app_inv_l in HP as (q' & k' & _ & Hk & ->).
  exists k'. split; [by exists q'|done].
Qed.

Lemma eventsFromMessages_held xs ys :
  Forall2 holdsEvent xs ys → eventsFromMessages (messageOf <$> xs) = Ok (snd <$> ys).
Proof.
  induction 1 as [|x y xs ys [_ Hx] _ IH]; [done|]. cbn. rewrite Hx. cbn.
  by rewrite IH.
Qed.

Lemma filter_held after xs ys :
  Forall2 holdsEvent xs ys →
  Forall2 holdsEvent (filter (λ x, behind after (x_key x)) xs) (filter (λ y, behind after y.1) ys).
Proof.
  induction 1 as [|x y xs ys [Hk Hx] _ IH]; [constructor|]. rewrite !filter_cons, Hk.
  case_decide; [by constructor|done].
Qed.

Lemma refines_AppendEvent id ev :
  storableCall (EAppendEvent id ev) → refines (EAppendEvent id ev) (AppendEvent rs id ev).
Proof.
  intros [Hid Hat] s a Hr. eapply alone_jobExists; [done..|]. cbn [absCall].
  destruct (a !! id) as [aj|] eqn:Ea; [|intros s' x Hx Hr'; by exists a].
  intros s1 _ Hh Hr1. apply alone_bind.
  apply (alone_mono _ _ (λ s2 at_, keys s2 = keys s1 ∧ representable at_
    ∧ (IsZero (ev_At ev) = false → at_ = ev_At ev))).
  { destruct (IsZero (ev_At ev)); [|by apply alone_ret]. apply alone_act. intros n s2 t Es.
    apply alone_ret. pose proof (clock n s1) as Hc. destruct (law_read _ CNow n s1 eq_refl) as [K _].
    by rewrite Es in Hc, K. }
  intros s2 at_ (K2 & Ht & Hz). destruct Hh as [Hj Hst (xs & Hxs & Hev) Hp].
  apply alone_bind, alone_act. intros n s3 x Es.
  destruct (law_xadd (eventsKey id) (rs_maxEvents rs) (eventValues ev at_) n s2 xs) as
    (s3' & i & kept & Es' & Hlt & [Hsuf Hlen] & K3 & _); [by rewrite K2|].
  rewrite Es in Es'. injection Es' as <- ->. apply alone_ret, alone_ret. cbn [inContext].
  set (ev' := mkEvent (idText i) (ev_Type ev) (ev_PayloadJSON ev) at_).
  destruct (Forall2_suffix_l holdsEvent (xs ++ [mkEntry i.1 i.2 (eventValues ev at_)])
    (ab_events aj ++ [(i, ev')]) kept) as (kept' & Hsuf' & Hkept); [|done|].
  { apply Forall2_app; [done|]. constructor; [|done]. split; [by destruct i|].
    by apply eventFromMessage_values. }
  exists (<[id := with_events kept' aj]> a). split.
  - exists i, at_, kept'. split_and!; try done. split_and!; [|done|].
    + clear -Hlt Hev. induction Hev as [|x y xs ys [Hk _] _ IH]; [done|].
      apply Forall_cons in Hlt as [Hx Hlt]. constructor; [by rewrite <-Hk|by apply IH].
    + rewrite length_app in Hlen. cbn in Hlen. apply Forall2_length in Hev as <-.
      apply Forall2_length in Hkept as <-. lia.
  - rewrite K3, K2. destruct (keys_distinct id id) as (A1 & _ & _ & A4 & _); [done..|].
    eapply represents_rewritten; [done..|by right; left|].
    split; rewrite ?lookup_insert_ne by done; try done. exists kept. by rewrite lookup_insert_eq.
Qed.

Lemma idText_inj i j : idText i = idText j → i = j.
Proof. intros E%(f_equal readID). by rewrite !readID_idText in E. Qed.

Lemma idText_nonempty i : idText i ≠ "".
Proof.
  intros E%(f_equal len). unfold idText in E. rewrite !len_app in E. cbn in E. lia.
Qed.

Lemma refines_ReadEvents id after limit :
  storableCall (EReadEvents id after limit) →
  refines (EReadEvents id after limit) (ReadEvents id after limit).
Proof.
  intros [Hid Hafter] s a Hr. eapply alone_jobExists; [done..|]. cbn [absCall].
  destruct (a !! id) as [aj|] eqn:Ea; [|intros s' x Hx Hr'; by exists a].
  intros s1 _ [_ _ (xs & Hxs & Hev) _] Hr1. set (n := (if (limit <=? 0)%Z then 1000 else limit)%Z).
  assert (0 ≤ n)%Z as Hn by (unfold n; destruct (Z.leb_spec limit 0); lia).
  assert (∃ o, (after = "" ↔ o = None) ∧ (∀ i, after = idText i → o = Some i)
    ∧ ∀ m, snd (serve (CXRangeN (eventsKey id) (if after ==? "" then "-" else "(" +:+ after) n) m s1)
      = Ok (messageOf <$> take (Z.to_nat n) (filter (λ x, behind o (x_key x)) xs)))
    as (o & Ho & Ho' & Hans).
  { destruct Hafter as [->|[i ->]].
    - exists None. split_and!; [done|intros i E; by destruct (idText_nonempty i)|]. intros m.
      destruct (law_xrange (eventsKey id) n m s1 xs Hxs Hn) as [E _]. rewrite bool_decide_eq_true_2 by done.
      rewrite E. do 3 f_equal. clear. induction xs as [|x xs IH]; [done|].
      rewrite filter_cons, decide_True by done. by rewrite <-IH.
    - exists (Some i). split_and!; [split; [intros E; by destruct (idText_nonempty i)|done]|by intros j ->%idText_inj|].
      intros m. rewrite bool_decide_eq_false_2 by apply idText_nonempty.
      by destruct (law_xrange (eventsKey id) n m s1 xs Hxs Hn) as [_ ->]. }
  eapply alone_read; [done|exact Hans|]. intros s2 Hs2. cbv beta iota. apply alone_ret.
  exists a. split; [|by eapply represents_unchanged]. split; [done|].
  rewrite (eventsFromMessages_held _ (take (Z.to_nat n) (filter (λ y, behind o y.1) (ab_events aj))))
    by (by apply Forall2_take, filter_held).
  split; [intros ->%Ho; done|]. by intros i ->%Ho'.
Qed.

(** ** Permission requests *)

Lemma map_Forall2_at {A B} (P : A → B → Prop) (h : gmap string A) (h' : gmap string B) q :
  map_Forall2 (λ _, P) h h' →
  match h !! q, h' !! q with Some x, Some y => P x y | None, None => True | _, _ => False end.
Proof. intros Hm. specialize (Hm q). by destruct Hm. Qed.

Lemma alone_permsHash m a id :
  represents m a → noColon id →
  ∃ h, asHash (m !! permsKey id) = Some h
    ∧ map_Forall2 (λ _ data p, unmarshalPermission data = Ok p) h (default ∅ (ab_perms <$> a !! id)).
Proof.
  intros Hr Hid. pose proof (rp_slots _ _ Hr id Hid) as Hs. destruct (a !! id) as [aj|]; cbn in *.
  - by destruct Hs.
  - destruct Hs as (_ & _ & ->). exists ∅. split; [done|apply map_Forall2_empty].
Qed.

Lemma refines_PutPermission id p :
  storableCall (EPutPermission id p) → refines (EPutPermission id p) (PutPermission id p).
Proof.
  intros [Hid Hp] s a Hr. eapply alone_jobExists; [done..|]. cbn [absCall].
  destruct (a !! id) as [aj|] eqn:Ea; [|intros s' x Hx Hr'; by exists a].
  intros s1 _ [Hj Hst Hev (h & Hh & Hps)] Hr1.
  destruct (unmarshal_marshalPermission p Hp) as (data & -> & Hdata).
  apply alone_bind, alone_act. intros n s2 x Es. pose proof (law_hset (permsKey id) (pr_RequestID p) data n s1) as Hl.
  cbn [applyCmd] in Hl. rewrite Hh in Hl. unfold putHash in Hl. rewrite bool_decide_eq_false_2 in Hl by apply insert_non_empty.
  rewrite Es in Hl. destruct Hl as ([= ->] & K2 & _). cbn in K2. apply alone_ret, alone_ret.
  eexists. split; [done|]. rewrite K2.
  destruct (keys_distinct id id) as (_ & A2 & _ & A4 & _); [done..|].
  eapply represents_rewritten; [done..|by right; right; left|].
  split; rewrite ?lookup_insert_ne by done; try done.
  eexists. rewrite lookup_insert_eq. split; [done|]. by apply map_Forall2_insert_2.
Qed.

Lemma refines_GetPermission id q : noColon id → refines (EGetPermission id q) (GetPermission id q).
Proof.
  intros Hid s a Hr. destruct (alone_permsHash _ _ _ Hr Hid) as (h & Hh & Hps).
  eapply alone_read; [done|intros n; rewrite law_hget, Hh; reflexivity|]. intros s1 Hs1.
  pose proof (represents_unchanged _ _ _ Hs1 Hr) as Hr1. apply (map_Forall2_at _ _ _ q) in Hps.
  replace (default ∅ (ab_perms <$> a !! id) !! q) with (a !! id ≫= λ aj, ab_perms aj !! q) in Hps
    by (by destruct (a !! id)).
  cbn [absCall]. destruct (h !! q) as [data|], (a !! id ≫= _) as [p|]; cbn in Hps; try done; cbv beta iota.
  - apply alone_ret. exists a. by rewrite Hps.
  - apply alone_ret. exists a. split; [split; [done|]|done]. eexists. cbn. split; [done|].
    unfold notFoundf. by rewrite errorsIs_wrapf.
Qed.

#[local] Instance permLe_total : Total permLe.
Proof.
  intros p q. unfold permLe, permLess.
  destruct (isPending p), (isPending q); cbn; auto; rewrite !Z.ltb_ge; lia.
Qed.

(** What a document reads as. *)
Definition readPermission (data : string) : PermissionRequest :=
  match unmarshalPermission data with Ok p => p | Err _ => zeroPermission end.

Lemma unmarshalAll_read l :
  Forall (λ d, unmarshalPermission d = Ok (readPermission d)) l →
  unmarshalAll l = Ok (readPermission <$> l).
Proof. induction 1 as [|d l Hd _ IH]; [done|]. cbn. rewrite Hd. cbn. by rewrite IH. Qed.

Lemma unmarshalAll_held (h : gmap string string) (ps : gmap string PermissionRequest) :
  map_Forall2 (λ _ data p, unmarshalPermission data = Ok p) h ps →
  unmarshalAll (snd <$> map_to_list h) = Ok (snd <$> map_to_list ps).
Proof.
  intros Hps. assert (ps = readPermission <$> h) as ->.
  { apply map_eq. intros q. apply (map_Forall2_at _ _ _ q) in Hps. rewrite lookup_fmap. unfold readPermission.
    destruct (h !! q), (ps !! q); cbn in *; try done. by rewrite Hps. }
  rewrite unmarshalAll_read, map_to_list_fmap.
  - by rewrite <-!list_fmap_compose.
  - apply Forall_forall. intros d ([q d'] & -> & Hd%elem_of_map_to_list)%list_elem_of_fmap. cbn.
    apply (map_Forall2_at _ _ _ q) in Hps. rewrite lookup_fmap, Hd in Hps. exact Hps.
Qed.

Lemma refines_ListPermissions id : noColon id → refines (EListPermissions id) (ListPermissions id).
Proof.
  intros Hid s a Hr. destruct (alone_permsHash _ _ _ Hr Hid) as (h & Hh & Hps).
  eapply (alone_read _ _ _ _ (Ok h)); [done|intros n; by rewrite law_hgetall, Hh|]. intros s1 Hs1.
  cbv beta iota. apply alone_ret. exists a. split; [|by eapply represents_unchanged]. split; [done|].
  rewrite (unmarshalAll_held _ _ Hps). eexists. split; [done|].
  split; [apply Sorted_merge_sort; apply _|apply merge_sort_Permutation].
Qed.

(** ** Pages *)

Lemma alone_getJobs ids out s a :
  represents (keys s) a → Forall noColon ids →
  alone (getJobs ids out) s (λ s' x, unchanged s s' ∧
    x = Ok (out ++ omap (λ id, ab_job <$> a !! id) ids)).
Proof.
  intros Hr Hids. revert out s Hr. induction Hids as [|id ids Hid _ IH]; intros out s Hr.
  { apply alone_ret. split; [done|]. by rewrite app_nil_r. }
  cbn [getJobs]. apply alone_bind. eapply alone_mono; [by apply alone_GetJob|].
  intros s1 x [Hs1 Hx]. pose proof (represents_unchanged _ _ _ Hs1 Hr) as Hr1.
  assert (∀ out', alone (getJobs ids out') s1 (λ s' x, unchanged s s'
    ∧ x = Ok (out' ++ omap (λ id, ab_job <$> a !! id) ids))) as Hrest.
  { intros out'. eapply alone_mono; [by apply IH|]. intros s2 y [[K2 V2] ->]. split; [|done].
    destruct Hs1 as [K1 V1]. split; congruence. }
  cbn [omap list_omap]. destruct (a !! id) as [aj|]; cbn.
  - subst x. specialize (Hrest (out ++ [ab_job aj])). by rewrite <-app_assoc in Hrest.
  - destruct Hx as (e & -> & ->). apply Hrest.
Qed.

Lemma idsBelow_noColon m a tok : represents m a → Forall noColon (idsBelow tok a).
Proof.
  intros Hr. apply Forall_forall. intros id [_ Hid]%list_elem_of_filter.
  apply (rp_ids _ _ Hr). apply elem_of_dom. unfold descending in Hid.
  by rewrite merge_sort_Permutation, elem_of_elements in Hid.
Qed.

Lemma revLex_below a tok :
  revLex (if tok ==? "" then "+" else "(" +:+ tok) (dom a) = Some (idsBelow tok a).
Proof.
  unfold idsBelow. case_bool_decide as Ht.
  - cbn. f_equal. induction (descending (dom a)) as [|x l IH]; [done|].
    rewrite filter_cons, decide_True by (by left). by rewrite <-IH.
  - change ("(" +:+ tok) with (String "(" tok). cbn [revLex]. f_equal. apply list_filter_iff. naive_solver.
Qed.

Lemma refines_ListJobs limit tok :
  storableCall (EListJobs limit tok) →
  refines (EListJobs limit tok) (x ← ListJobs limit tok; mret (Returned x)).
Proof.
  intros Hlim s a Hr. cbn in Hlim. apply alone_bind. unfold ListJobs.
  set (n := (if (limit <=? 0)%Z then 50 else limit)%Z).
  assert (0 < n < 2 ^ 63 - 1)%Z as Hn by (unfold n; destruct (Z.leb_spec limit 0); lia).
  rewrite wrap64_id by (unfold minInt64, maxInt64; lia).
  set (l := idsBelow tok a).
  eapply (alone_read _ _ _ _ (Ok (take (S (Z.to_nat n)) l))); [done| |].
  { intros m. erewrite law_zrange; [|apply (rp_index _ _ Hr)|apply revLex_below|lia].
    do 2 f_equal. lia. }
  intros s1 Hs1. cbv beta iota. set (hasMore := (n <? Z.of_nat (length (take (S (Z.to_nat n)) l)))%Z).
  assert (hasMore = (Z.to_nat n <? length l)) as Hmore.
  { unfold hasMore. rewrite length_take. destruct (Z.ltb_spec n (Z.of_nat (S (Z.to_nat n) `min` length l))),
      (Nat.ltb_spec (Z.to_nat n) (length l)); lia. }
  assert ((if hasMore then take (Z.to_nat n) (take (S (Z.to_nat n)) l) else take (S (Z.to_nat n)) l)
    = take (Z.to_nat n) l) as ->.
  { rewrite Hmore. destruct (Nat.ltb_spec (Z.to_nat n) (length l)).
    - rewrite take_take. f_equal. lia.
    - by rewrite !take_ge by lia. }
  apply alone_bind. eapply alone_mono.
  { apply (alone_getJobs _ _ _ a); [by eapply represents_unchanged|].
    apply Forall_take. by eapply idsBelow_noColon. }
  intros s2 x [Hs2 ->]. apply alone_ret. apply alone_ret. exists a.
  split; [|destruct Hs1, Hs2; congruence]. split; [done|]. unfold pageOf. fold n l. by rewrite Hmore.
Qed.

Lemma implement_refines X (e : eff X) p :
  storableCall e → implement rs e = Some p → refines e p.
Proof.
  destruct e; cbn [implement]; intros He Hp; try done; apply (inj Some) in Hp as <-.
  - by apply refines_CreateJob.
  - by apply refines_GetJob.
  - by apply refines_ListJobs.
  - by apply refines_UpdateJob.
  - by apply refines_DeleteJob.
  - by apply refines_AppendEvent.
  - by apply refines_ReadEvents.
  - by apply refines_PutPermission.
  - by apply refines_GetPermission.
  - by apply refines_ListPermissions.
Qed.

End methods.

(** ** Properties *)

(** C10. The Redis store refines the abstract store. Every store call of hairpin, run by
    itself on a documented server whose keyspace represents an abstract store, returns;
    its answer and its effect are those of the abstract call (records as written, pages
    by descending ID, timelines in order and capped at their oldest end, requests by ID,
    conflicts and unknown jobs as such errors); and the keyspace it leaves represents the
    abstract store after the call. *)
Theorem redis_refines_store {R : Type} `{RedisLaws R} `{TimeEnv} `{JsonText} (rs : redisStore)
  {X : Type} (e : eff X) (p : rprog X) (s : R) (a : gmap string absJob) (n : nat)
  (Hclock : ∀ n (s : R), representable (snd (serve CNow n s)))
  (Hrep : represents (keys s) a) (Hcall : storableCall e) (Himpl : implement rs e = Some p) :
  ∃ s' x a', runAlone p n s = (s', Some x) ∧ absCall rs e a a' x ∧ represents (keys s') a'.
Proof.
  destruct (implement_refines rs Hclock X e p Hcall Himpl s a Hrep n) as (s' & x & E & a' & Ha & Hr).
  by exists s', x, a'.
Qed.

#[local] Existing Instance sample_time.
#[local] Existing Instance sample_json.

(** The clock of the server, and the sample record, are what the codec can express. *)
Lemma server_clock n (s : server) : representable (snd (serve CNow n s)).
Proof.
  assert (∀ r, (0 ≤ r < Second)%Z → representable (unixEpoch + r)) as Hr.
  { intros r Hr. unfold representable, local. change (zoneOffset _) with 0%Z. split; [|by split; [reflexivity|lia]].
    assert (((unixEpoch + r + 0 * Second) `div` (86400 * Second))%Z = 719162%Z) as ->.
    { unfold unixEpoch, Second in *. divlia. }
    vm_compute. split; congruence. }
  apply Hr. unfold Second. divlia.
Qed.

Lemma sample_storable : storable sample_stored.
Proof.
  split; [intros _|by intros ?..|].
  - split; [vm_compute; split; congruence|]. split; [reflexivity|by split].
  - constructor; [vm_compute; reflexivity|constructor].
Qed.

Definition sample_started (j : Job) : res Job :=
  if Terminal (j_Status j) then Err errNoUpdate else Ok (set_Status StatusRunning j).

(** A job is created on an empty server, and then started. *)
Lemma redis_refines_store_witness :
  ∃ (s1 s2 : server) (a : gmap string absJob),
    runAlone (CreateJob sample_stored) 0 (mkServer ∅ ∅) = (s1, Some (Ok tt))
    ∧ runAlone (UpdateJob sample_id (pureUpdater sample_started) tt) 9 s1
      = (s2, Some (tt, Ok (set_Status StatusRunning sample_stored)))
    ∧ represents (keys s2) a ∧ ab_job <$> a !! sample_id = Some (set_Status StatusRunning sample_stored).
Proof.
  destruct (redis_refines_store (New 0) (ECreateJob sample_stored) (CreateJob sample_stored) (mkServer ∅ ∅) ∅ 0 server_clock)
    as (s1 & x & a1 & E1 & Ha1 & Hr1);
    [exact represents_empty|split; [reflexivity|exact sample_storable]|reflexivity|].
  cbn [absCall] in Ha1. rewrite lookup_empty in Ha1. destruct Ha1 as [-> Ha1].
  destruct (redis_refines_store (New 0) (EUpdateJob sample_id (pureUpdater sample_started) tt)
    (UpdateJob sample_id (pureUpdater sample_started) tt) s1 a1 9 server_clock Hr1) as (s2 & y & a2 & E2 & Ha2 & Hr2); [|reflexivity|].
  { split; [reflexivity|]. intros [] j [? ? ? ? ?]. cbn. unfold sample_started.
    destruct (Terminal (j_Status j)); [by split|]. by destruct j. }
  subst a1. cbn [absCall] in Ha2. change (j_ID sample_stored) with sample_id in Ha2.
  rewrite lookup_insert_eq in Ha2. destruct Ha2 as [-> ->].
  eexists s1, s2, _. split_and!; [exact E1|exact E2|exact Hr2|]. by rewrite lookup_insert_eq.
Defined.

(** An append that races a deletion: the append checks that the job exists, the job is
    deleted, the entry is added. *)
Definition append_and_delete : list (rprog unit) :=
  [_ ← AppendEvent (New 0) sample_id (mkEvent "" "heartbeat" "" unixEpoch); mret tt;
   _ ← DeleteJob sample_id; mret tt].

(** The timeline comes back without its job, and no later deletion removes it. *)
Lemma append_racing_delete_orphans_timeline :
  let start := (sample_server, append_and_delete) in
  let s := fst (rexec [0; 1; 1; 0] 0 start) in
  rtc rstep start (rexec [0; 1; 1; 0] 0 start)
  ∧ keys s !! jobKey sample_id = None
  ∧ bool_decide (is_Some (keys s !! eventsKey sample_id)) = true
  ∧ snd (runAlone (DeleteJob sample_id) 9 s) = Some (Err (notFoundf ("job " +:+ sample_id)))
  ∧ bool_decide (is_Some (keys (fst (runAlone (DeleteJob sample_id) 9 s)) !! eventsKey sample_id)) = true.
Proof. intros start s. split; [apply rexec_steps|]. split_and!; vm_compute; reflexivity. Qed.
