(* ===== verification/RedisWatch.v ===== *)
(** * Watching a timeline in Redis

    The goroutine of [WatchEvents] reads the timeline page by page, hands the events over
    and polls for more, while other clients append.  It delivers the events after its
    cursor in order, without a gap or a duplicate. *)

From stdpp Require Import base gmap list strings sorting pretty.
From S2P Require Import Prelude Utf8 Fmt Json GoTime Job Proto Store Redis RedisModel RedisStore RedisCodec.
From S2P Require Import RedisRefines Samples.

(** ** Ordered entries *)

Definition ordered (xs : list entry) : Prop := StronglySorted (λ x y, entryLt (x_key x) (x_key y)) xs.

Lemma entryLt_trans a b c : entryLt a b → entryLt b c → entryLt a c.
Proof. unfold entryLt. lia. Qed.

Lemma entryLt_irrefl a : ¬ entryLt a a.
Proof. unfold entryLt. lia. Qed.

(** The entries after a cursor. *)
Definition entriesAfter (after : option (N * N)) (xs : list entry) : list entry :=
  filter (λ x, behind after (x_key x)) xs.

Lemma ordered_filter P `{!∀ x, Decision (P x)} xs : ordered xs → ordered (filter P xs).
Proof.
  induction 1 as [|x xs Hs IH Hx]; [constructor|]. rewrite filter_cons. case_decide; [|done].
  constructor; [done|]. apply Forall_forall. intros y [_ Hy]%list_elem_of_filter.
  rewrite Forall_forall in Hx. by apply Hx.
Qed.

(** Past the last of the first entries after a cursor come the others. *)
Lemma entriesAfter_last after xs ys x zs :
  ordered xs → entriesAfter after xs = ys ++ x :: zs → entriesAfter (Some (x_key x)) xs = zs.
Proof.
  intros Ho E.
  assert (entriesAfter (Some (x_key x)) xs = entriesAfter (Some (x_key x)) (entriesAfter after xs)) as ->.
  { unfold entriesAfter. rewrite list_filter_filter. apply list_filter_iff. intros y. split; [|tauto].
    intros Hy. split; [done|]. assert (x ∈ entriesAfter after xs) as [Hx _]%list_elem_of_filter.
    { rewrite E. apply elem_of_app. right. by left. }
    destruct after; [|done]. cbn in *. by eapply entryLt_trans. }
  pose proof (ordered_filter (λ y, behind after (x_key y)) xs Ho) as Hs. fold (entriesAfter after xs) in Hs.
  rewrite E in Hs |- *. clear E Ho. unfold entriesAfter. cbn [behind].
  induction ys as [|y ys IH]; cbn [app] in *; rewrite filter_cons.
  - rewrite decide_False by apply entryLt_irrefl. apply StronglySorted_inv in Hs as [_ Hx].
    induction Hx as [|z zs Hz _ IH]; [done|]. rewrite filter_cons, decide_True by done. by rewrite IH.
  - apply StronglySorted_inv in Hs as [Hs Hy]. rewrite decide_False; [by apply IH|].
    rewrite Forall_app, Forall_cons in Hy. destruct Hy as (_ & Hy & _). intros Hyx.
    by destruct (entryLt_irrefl _ (entryLt_trans _ _ _ Hy Hyx)).
Qed.

Lemma ordered_prefix xs ys : xs `prefix_of` ys → ordered ys → ordered xs.
Proof. intros [zs ->]. apply StronglySorted_app_1_l. Qed.

Lemma entriesAfter_prefix after xs ys :
  xs `prefix_of` ys → entriesAfter after xs `prefix_of` entriesAfter after ys.
Proof. intros [zs ->]. unfold entriesAfter. rewrite filter_app. by eexists. Qed.

(** ** Growing timelines *)

Section watch.
Context {R : Type} `{RedisLaws R} `{TimeEnv} `{JsonText}.
Implicit Types s : R.

(** Between the servers the timeline is only appended to. *)
Definition grew (k : string) s s' : Prop :=
  ∃ xs xs', asStream (keys s !! k) = Some xs ∧ asStream (keys s' !! k) = Some xs' ∧ xs `prefix_of` xs'.

(** And so at every point of the log. *)
Fixpoint growing (k : string) s (log : list (logged (R := R))) s' : Prop :=
  match log with
  | [] => grew k s s'
  | Logged _ s1 s2 _ :: log' => grew k s s1 ∧ grew k s1 s2 ∧ growing k s2 log' s'
  end.

Lemma grew_trans k s1 s2 s3 : grew k s1 s2 → grew k s2 s3 → grew k s1 s3.
Proof.
  intros (xs & ys & Hx & Hy & P1) (ys' & zs & Hy' & Hz & P2). simplify_eq.
  exists xs, zs. split_and!; [done..|by etrans].
Qed.

Lemma growing_grew k s log s' : growing k s log s' → grew k s s'.
Proof.
  revert s. induction log as [|[X c s1 s2 x] log IH]; intros s; [done|]. intros (H1' & H2' & H3').
  eapply grew_trans; [exact H1'|]. eapply grew_trans; [exact H2'|]. by apply IH.
Qed.

Lemma growing_app {A} (p : rprog A) k s l1 l2 sm s' a :
  exec p s l1 sm a → growing k s (l1 ++ l2) s' → growing k s l1 sm ∧ growing k sm l2 s'.
Proof.
  revert s l1. induction p as [b|X c kk IH|]; intros s l1; [| |done].
  - intros (-> & -> & _) Hg. cbn in *. split; [|done].
    destruct (growing_grew _ _ _ _ Hg) as (xs & _ & Hx & _). exists xs, xs. by split_and!.
  - intros (s1 & s2 & n & x & l' & _ & _ & -> & E) (G1 & G2 & G3). cbn.
    destruct (IH x _ _ E G3) as [G4 G5]. by split_and!.
Qed.

(** The events handed over. *)
Definition delivered1 (l : logged (R := R)) : list Event :=
  match l with
  | @Logged _ X c _ _ x =>
      match c in rcmd X return X → list Event with
      | CDeliver ev => λ live, if live then [ev] else []
      | _ => λ _, []
      end x
  end.

Definition delivered (log : list (logged (R := R))) : list Event := log ≫= delivered1.

Lemma delivered_app l1 l2 : delivered (l1 ++ l2) = delivered l1 ++ delivered l2.
Proof. apply bind_app. Qed.

Definition holdsThis (x : entry) (ev : Event) : Prop := eventFromMessage (messageOf x) = Ok ev.

Lemma eventFromMessage_ID x ev : holdsThis x ev → ev_ID ev = idText (x_key x).
Proof.
  unfold holdsThis, eventFromMessage. repeat case_match; intros [= <-]; done.
Qed.

Lemma eventsFromMessages_Ok xs evs :
  eventsFromMessages (messageOf <$> xs) = Ok evs → Forall2 holdsThis xs evs.
Proof.
  revert evs. induction xs as [|x xs IH]; intros evs; cbn; [by intros [= <-]|].
  intros (ev & Hev & (rest & Hrest & [= <-])%res_bind_Ok)%res_bind_Ok. constructor; auto.
Qed.

(** The cursor as a text. *)
Definition cursorText (after : option (N * N)) : string :=
  match after with None => "" | Some i => idText i end.

Lemma cursorText_start after :
  (if cursorText after ==? "" then "-" else "(" +:+ cursorText after)
  = match after with None => "-" | Some i => "(" +:+ idText i end.
Proof.
  destruct after as [i|]; [|done]. cbn. rewrite bool_decide_eq_false_2; [done|]. apply idText_nonempty.
Qed.

Lemma law_xrange_after k n m s xs after :
  asStream (keys s !! k) = Some xs → (0 ≤ n)%Z →
  snd (serve (CXRangeN k (match after with None => "-" | Some i => "(" +:+ idText i end) n) m s)
  = Ok (messageOf <$> take (Z.to_nat n) (entriesAfter after xs)).
Proof.
  intros Hxs Hn. destruct (law_xrange k n m s xs Hxs Hn) as [E1 E2]. destruct after as [i|]; [apply E2|].
  rewrite E1. do 3 f_equal. unfold entriesAfter. clear. induction xs as [|x xs IH]; [done|].
  rewrite filter_cons, decide_True by done. by rewrite <-IH.
Qed.

(** One read: a page of the entries after the cursor, of the timeline at some moment. *)
Lemma exec_ReadEvents id after s log s' r :
  exec (ReadEvents id (cursorText after) 100) s log s' r → growing (eventsKey id) s log s' →
  delivered log = []
  ∧ ∀ evs, r = Ok evs →
      ∃ xs, (∃ sm, asStream (keys sm !! eventsKey id) = Some xs ∧ grew (eventsKey id) sm s')
        ∧ Forall2 holdsThis (take 100 (entriesAfter after xs)) evs.
Proof.
  unfold ReadEvents, jobExists. change (100 <=? 0)%Z with false. cbv beta iota zeta.
  rewrite cursorText_start.
  intros (s1 & s2 & n & x & l & _ & Ha & -> & E)%exec_try Hg.
  destruct x as [v|e]; [|destruct E as (-> & -> & <-); by split].
  destruct (v =? 0)%Z; [destruct E as (-> & -> & <-); by split|].
  apply exec_try in E as (s3 & s4 & m & y & l' & _ & Hb & -> & E).
  destruct Hg as (_ & _ & G3 & G4 & G5).
  destruct y as [msgs|e]; [|destruct E as (-> & -> & <-); by split].
  destruct E as (-> & -> & <-). split; [done|]. intros evs Hevs.
  destruct G4 as (xs & xs' & Hxs & Hxs' & Hpre). exists xs. split; [exists s3; split; [done|]|].
  { eapply grew_trans; [|exact G5]. by exists xs, xs'. }
  destruct Hb as [Es|msg b Hl _]; [|done].
  pose proof (law_xrange_after (eventsKey id) 100 m s3 xs after Hxs ltac:(lia)) as Hr.
  rewrite Es in Hr. cbn in Hr. injection Hr as ->. by apply eventsFromMessages_Ok.
Qed.

(** The hand-over: some first events, and all of them if the watch goes on. *)
Lemma exec_deliverAll cursor evs s log s' r :
  exec (deliverAll cursor evs) s log s' r →
  (delivered log) `prefix_of` evs
  ∧ ∀ c, r = Some c → delivered log = evs ∧ c = default cursor (ev_ID <$> last evs).
Proof.
  revert cursor s log. induction evs as [|ev evs IH]; intros cursor s log.
  { intros (-> & -> & <-). split; [done|]. by intros c [= <-]. }
  cbn [deliverAll]. intros (live & s1 & l1 & l2 & (s0 & n & _ & _ & ->)%exec_call & -> & E)%exec_bind.
  rewrite delivered_app. destruct live; cbn [delivered].
  - apply IH in E as [Hp Hr]. cbn. split; [by apply prefix_cons|]. intros c [-> ->]%Hr. split; [done|].
    rewrite last_cons. by destruct (last evs).
  - destruct E as (-> & -> & <-). cbn. split; [apply prefix_nil|done].
Qed.

Lemma exec_watchLoop fuel id after s log s' u xs :
  exec (watchLoop fuel id (cursorText after)) s log s' u → growing (eventsKey id) s log s' →
  asStream (keys s' !! eventsKey id) = Some xs → ordered xs →
  ∃ ys, ys `prefix_of` entriesAfter after xs ∧ Forall2 holdsThis ys (delivered log).
Proof.
  revert after s log. induction fuel as [|fuel IH]; intros after s log; [done|]. cbn [watchLoop].
  intros (r & s1 & l1 & l2 & E1 & -> & E2)%exec_bind Hg Hxs Ho.
  destruct (growing_app _ _ _ _ _ _ _ _ E1 Hg) as [G1 G2].
  destruct (exec_ReadEvents _ _ _ _ _ _ E1 G1) as [D1 Hread]. rewrite delivered_app, D1. cbn [app].
  destruct r as [evs|e]; [|destruct E2 as (-> & _); exists []; split; [apply prefix_nil|constructor]].
  destruct (Hread evs eq_refl) as (xs1 & (sm & Hm & Gm) & Hpage).
  apply exec_bind in E2 as (next & s2 & l3 & l4 & E3 & -> & E4).
  destruct (growing_app _ _ _ _ _ _ _ _ E3 G2) as [G3 G4].
  destruct (exec_deliverAll _ _ _ _ _ _ E3) as [Hpre Hall]. rewrite delivered_app.
  assert (take 100 (entriesAfter after xs1) `prefix_of` entriesAfter after xs) as Hin.
  { etrans; [apply prefix_take|]. apply entriesAfter_prefix.
    destruct (grew_trans _ _ _ _ Gm (growing_grew _ _ _ _ G2)) as (a & b & Ha & Hb & Hab). by simplify_eq. }
  destruct next as [cursor|]; cycle 1.
  { destruct E4 as (-> & _). rewrite app_nil_r. destruct Hpre as [evs' ->].
    apply Forall2_app_inv_r in Hpage as (ys & ys' & Hys & _ & E). exists ys. split; [|done].
    etrans; [|exact Hin]. rewrite E. by eexists. }
  destruct (Hall cursor eq_refl) as [-> ->].
  destruct (decide (evs = [])) as [->|Hne].
  - rewrite (bool_decide_eq_true_2 (length [] = 0)) in E4 by done. cbn [negb] in E4.
    change (default _ (ev_ID <$> last [])) with (cursorText after) in E4. cbn [app].
    apply exec_bind in E4 as (live & s3 & l5 & l6 & E5 & -> & E6).
    destruct (growing_app _ _ _ _ _ _ _ _ E5 G4) as [_ G6].
    apply exec_call in E5 as (s0 & n & _ & _ & ->).
    destruct live; [by apply (IH after) in E6|]. destruct E6 as (-> & _).
    exists []. split; [apply prefix_nil|constructor].
  - destruct evs as [|ev evs _] using rev_ind; [done|].
    rewrite bool_decide_eq_false_2 in E4 by (rewrite length_app; cbn; lia). cbn [negb] in E4.
    rewrite last_snoc in E4. cbn in E4.
    pose proof Hpage as Hpage'. apply Forall2_app_inv_r in Hpage' as (ys & yl & Hys & Hyl & E).
    apply Forall2_cons_inv_r in Hyl as (y & yl' & Hy & ->%Forall2_nil_inv_r & ->).
    rewrite (eventFromMessage_ID y ev Hy) in E4. destruct Hin as [zs Hzs].
    rewrite E, <-app_assoc in Hzs. cbn [app] in Hzs.
    change (idText (x_key y)) with (cursorText (Some (x_key y))) in E4.
    apply (IH (Some (x_key y))) in E4 as (ws & Hws & Hd); [|done..].
    rewrite (entriesAfter_last after xs ys y zs Ho Hzs) in Hws. destruct Hws as [vs ->].
    exists ((ys ++ [y]) ++ ws). split.
    + rewrite Hzs. exists vs. by rewrite <-!app_assoc.
    + apply Forall2_app; [|done]. by rewrite <-E.
Qed.

(** C19. Watching a timeline in Redis delivers its events in order, without a gap or a
    duplicate: as long as other clients only append to it, what the goroutine of
    [WatchEvents] has handed over when it ends, by an error or because the context is done
    in the middle of a page or of a pause, is exactly a first part of the entries after the
    cursor, each decoded from its entry. *)
Theorem redis_watch_in_order (fuel : nat) (id : string) (after : option (N * N)) s
  (log : list (logged (R := R))) s' (xs : list entry)
  (Hexec : exec (watchLoop fuel id (cursorText after)) s log s' tt)
  (Hgrow : growing (eventsKey id) s log s')
  (Hxs : asStream (keys s' !! eventsKey id) = Some xs) (Hord : ordered xs) :
  ∃ ys, ys `prefix_of` entriesAfter after xs ∧ Forall2 holdsThis ys (delivered log).
Proof. by eapply exec_watchLoop. Qed.

End watch.

(** ** A watch of a running job *)

#[local] Existing Instance sample_time.
#[local] Existing Instance sample_json.

(** The checks of the hypotheses. *)
Fixpoint orderedb (xs : list entry) : bool :=
  match xs with
  | x :: (y :: _) as xs' => bool_decide (entryLt (x_key x) (x_key y)) && orderedb xs'
  | _ => true
  end.

Lemma orderedb_ordered xs : orderedb xs = true → ordered xs.
Proof.
  intros Hb. apply Sorted_StronglySorted; [intros x y z; apply entryLt_trans|].
  induction xs as [|x [|y xs] IH]; [repeat constructor..|].
  apply andb_true_iff in Hb as [Hxy%bool_decide_eq_true Hb]. constructor; [by apply IH|by constructor].
Qed.

Definition grewb (k : string) (s s' : server) : bool :=
  match asStream (keys s !! k), asStream (keys s' !! k) with
  | Some xs, Some xs' => bool_decide (xs `prefix_of` xs')
  | _, _ => false
  end.

Fixpoint growingb (k : string) (s : server) (log : list (logged (R := server))) (s' : server) : bool :=
  match log with
  | [] => grewb k s s'
  | Logged _ s1 s2 _ :: log' => grewb k s s1 && grewb k s1 s2 && growingb k s2 log' s'
  end.

Lemma grewb_grew k s s' : grewb k s s' = true → grew k s s'.
Proof.
  unfold grewb, grew. destruct (asStream _) as [xs|], (asStream (keys s' !! k)) as [xs'|]; try done.
  intros Hp%bool_decide_eq_true. by exists xs, xs'.
Qed.

Lemma growingb_growing k s log s' : growingb k s log s' = true → growing k s log s'.
Proof.
  revert s. induction log as [|[X c s1 s2 x] log IH]; intros s; [apply grewb_grew|].
  cbn. intros [[H1%grewb_grew H2%grewb_grew]%andb_true_iff H3]%andb_true_iff. split_and!; auto.
Qed.

Definition beat (n : nat) : Event := mkEvent "" "heartbeat" (pretty n) (unixEpoch + Z.of_nat n * Second).

Definition append_beat (n : nat) : someCmd :=
  existT _ (CXAdd (eventsKey sample_id) 10000 (eventValues (beat n) (ev_At (beat n)))).

(** A job with two events; a third is appended while the watch pauses. *)
Definition watched : server :=
  served 2 [append_beat 1; append_beat 2] (fst (runAlone (CreateJob sample_stored) 0 (mkServer ∅ ∅))).

Definition watch_record : list (logged (R := server)) * server * option unit :=
  record (λ n, if n =? 9 then [append_beat 9] else []) (watchLoop 40 sample_id "") 3 watched.

Lemma redis_watch_in_order_witness :
  length (delivered (fst (fst watch_record))) = 3
  ∧ ∃ xs ys, ys `prefix_of` entriesAfter None xs
      ∧ Forall2 holdsThis ys (delivered (fst (fst watch_record))).
Proof.
  split; [vm_compute; reflexivity|].
  exists (default [] (asStream (keys (snd (fst watch_record)) !! eventsKey sample_id))).
  apply (redis_watch_in_order 40 sample_id None watched (fst (fst watch_record)) (snd (fst watch_record))).
  - apply (record_result (λ n, if n =? 9 then [append_beat 9] else []) _ 3). vm_compute. reflexivity.
  - apply growingb_growing. vm_compute. reflexivity.
  - vm_compute. reflexivity.
  - apply orderedb_ordered. vm_compute. reflexivity.
Defined.
