(* ===== verification/Recorder.v ===== *)
(** * The recorder ([src/internal/telemetry/recorder.go])

    The instruments [New] creates and the type of the data points taken on them; spans, as
    what hairpin calls on them; and the trace context a job carries from its submission
    to the stream of its harness. *)

From stdpp Require Import base list strings.
From S2P Require Import Prelude Utf8 Job Telemetry.

(** ** Instruments *)

Inductive instrumentKind := Int64Counter | Float64Histogram | Int64UpDownCounter.

#[export] Instance instrumentKind_eq_dec : EqDecision instrumentKind.
Proof. solve_decision. Defined.

(** What is asked of the meter: a constructor, a name, a description and a unit. *)
Record instrument := mkInstrument {
  in_kind : instrumentKind;
  in_name : string;
  in_description : string;
  in_unit : string;
}.

(** [Recorder], but for its tracer: a field is [nil] until its instrument is made. *)
Record Recorder := mkRecorder {
  r_submissions : option instrument;
  r_launches : option instrument;
  r_launchDuration : option instrument;
  r_completions : option instrument;
  r_runDuration : option instrument;
  r_sessions : option instrument;
  r_activeSessions : option instrument;
  r_harnessEvents : option instrument;
  r_permissions : option instrument;
  r_decisions : option instrument;
  r_memoryCalls : option instrument;
  r_memoryDuration : option instrument;
}.

(** Assignments to one field. *)
Definition set_submissions v r := let 'mkRecorder _ b c d e f g h i j k l := r in mkRecorder v b c d e f g h i j k l.
Definition set_launchCount v r := let 'mkRecorder a _ c d e f g h i j k l := r in mkRecorder a v c d e f g h i j k l.
Definition set_launchDuration v r := let 'mkRecorder a b _ d e f g h i j k l := r in mkRecorder a b v d e f g h i j k l.
Definition set_completions v r := let 'mkRecorder a b c _ e f g h i j k l := r in mkRecorder a b c v e f g h i j k l.
Definition set_runDuration v r := let 'mkRecorder a b c d _ f g h i j k l := r in mkRecorder a b c d v f g h i j k l.
Definition set_sessionCount v r := let 'mkRecorder a b c d e _ g h i j k l := r in mkRecorder a b c d e v g h i j k l.
Definition set_activeSessions v r := let 'mkRecorder a b c d e f _ h i j k l := r in mkRecorder a b c d e f v h i j k l.
Definition set_harnessEvents v r := let 'mkRecorder a b c d e f g _ i j k l := r in mkRecorder a b c d e f g v i j k l.
Definition set_permissions v r := let 'mkRecorder a b c d e f g h _ j k l := r in mkRecorder a b c d e f g h v j k l.
Definition set_decisions v r := let 'mkRecorder a b c d e f g h i _ k l := r in mkRecorder a b c d e f g h i v k l.
Definition set_memoryCallCount v r := let 'mkRecorder a b c d e f g h i j _ l := r in mkRecorder a b c d e f g h i j v l.
Definition set_memoryDuration v r := let 'mkRecorder a b c d e f g h i j k _ := r in mkRecorder a b c d e f g h i j k v.

Definition scopeName : string := "github.com/rxbynerd/hairpin".

Section new.
(** The meter: the error of making an instrument, if any. *)
Variable create : instrument → option error.

(** The recorder so far, the captured [err], and the calls made on the meter. *)
Record building := mkBuilding {
  b_rec : Recorder;
  b_err : option error;
  b_made : list instrument;
}.

(** The closure [build] on a closure that makes [i] and assigns it; the assignment is
    made with an error as well. *)
Definition build (i : instrument) (set : option instrument → Recorder → Recorder) (b : building)
  : building :=
  match b_err b with
  | Some _ => b
  | None =>
      mkBuilding (set (Some i) (b_rec b))
        (wrapf ("create instrument " +:+ in_name i) <$> create i) (b_made b ++ [i])
  end.

Definition emptyRecorder : Recorder :=
  mkRecorder None None None None None None None None None None None None.

Definition instruments : list (instrument * (option instrument → Recorder → Recorder)) :=
  [(mkInstrument Int64Counter "hairpin.job.submissions"
      "Task submissions, by outcome and profile." "{submission}", set_submissions);
   (mkInstrument Int64Counter "hairpin.job.launches"
      "Harness launches attempted, by outcome." "{launch}", set_launchCount);
   (mkInstrument Float64Histogram "hairpin.job.launch.duration"
      "Time spent handing a harness to its launcher." "s", set_launchDuration);
   (mkInstrument Int64Counter "hairpin.job.completions"
      "Jobs reaching a terminal status, by status and stop reason." "{job}", set_completions);
   (mkInstrument Float64Histogram "hairpin.job.run.duration"
      "Time from task assignment to terminal status." "s", set_runDuration);
   (mkInstrument Int64Counter "hairpin.harness.sessions"
      "Inbound harness streams, by disposition." "{session}", set_sessionCount);
   (mkInstrument Int64UpDownCounter "hairpin.harness.sessions.active"
      "Harness streams currently assigned a task." "{session}", set_activeSessions);
   (mkInstrument Int64Counter "hairpin.harness.events"
      "Events received on harness streams, by type." "{event}", set_harnessEvents);
   (mkInstrument Int64Counter "hairpin.permission.requests"
      "Permission requests received from harnesses." "{request}", set_permissions);
   (mkInstrument Int64Counter "hairpin.permission.decisions"
      "Permission decisions answered, by decision and delivery." "{decision}", set_decisions);
   (mkInstrument Int64Counter "hairpin.memory.calls"
      "Control-plane memory tool calls, by tool and outcome." "{call}", set_memoryCallCount);
   (mkInstrument Float64Histogram "hairpin.memory.call.duration"
      "Time spent fulfilling one memory tool call." "s", set_memoryDuration)].

(** The calls of [build], one after the other. *)
Definition buildAll (b : building) (l : list (instrument * (option instrument → Recorder → Recorder)))
  : building :=
  foldl (λ b '(i, set), build i set b) b l.

(** [New], up to its result. *)
Definition newBuilding : building := buildAll (mkBuilding emptyRecorder None []) instruments.

Definition New : res Recorder :=
  match b_err newBuilding with
  | Some e => Err e
  | None => Ok (b_rec newBuilding)
  end.

Lemma build_failed e l b :
  b_err b = Some e → buildAll b l = b.
Proof.
  intros He. induction l as [|[i set] l IH]; [done|]. cbn [buildAll foldl].
  change (buildAll (build i set b) l = b). assert (build i set b = b) as ->; [|done]. unfold build. by rewrite He.
Qed.

(** The instruments are made in order, up to the first that fails. *)
Lemma building_first_failure l b :
  b_err b = None →
  let b' := buildAll b l in
  match b_err b' with
  | None => Forall (λ i, create i = None) l.*1 ∧ b_made b' = b_made b ++ l.*1
  | Some e => ∃ pre i post e0, l.*1 = pre ++ i :: post ∧ Forall (λ i, create i = None) pre
      ∧ create i = Some e0 ∧ e = wrapf ("create instrument " +:+ in_name i) e0
      ∧ b_made b' = b_made b ++ pre ++ [i]
  end.
Proof.
  revert b. induction l as [|[i set] l IH]; intros b Hb; [|change (buildAll b ((i, set) :: l)) with (buildAll (build i set b) l)].
  { cbn. rewrite Hb. cbn. by rewrite app_nil_r. }
  destruct (create i) as [e0|] eqn:Hc.
  - rewrite (build_failed (wrapf ("create instrument " +:+ in_name i) e0));
      unfold build; rewrite Hb; cbn; rewrite Hc; [|done].
    by exists [], i, l.*1, e0.
  - assert (b_err (build i set b) = None) as Hb' by (unfold build; rewrite Hb; cbn; by rewrite Hc).
    assert (b_made (build i set b) = b_made b ++ [i]) as Hm by (unfold build; by rewrite Hb).
    specialize (IH _ Hb'). cbn zeta in *. destruct (b_err _) as [e|].
    + destruct IH as (pre & i' & post & e0 & E & Hpre & Hi & -> & ->).
      exists (i :: pre), i', post, e0. cbn. rewrite E, Hm, <-app_assoc. split_and!; try done.
      by constructor.
    + destruct IH as [Hl ->]. rewrite Hm, <-app_assoc. split; [|done]. by constructor.
Qed.

(** With every instrument made, each field has its own. *)
Definition fullRecorder : Recorder :=
  foldl (λ r '(i, set), set (Some i) r) emptyRecorder instruments.

Lemma building_rec l b :
  Forall (λ i, create i = None) l.*1 → b_err b = None →
  b_rec (buildAll b l) = foldl (λ r '(i, set), set (Some i) r) (b_rec b) l.
Proof.
  revert b. induction l as [|[i set] l IH]; intros b Hl Hb; [done|].
  change (buildAll b ((i, set) :: l)) with (buildAll (build i set b) l).
  inversion Hl; subst. rewrite IH; [|done|]; unfold build; rewrite Hb; cbn; [done|].
  by match goal with H : create i = None |- _ => rewrite H end.
Qed.

(** [New] succeeds exactly when the meter makes all twelve instruments, and then every
    field of the recorder is set to its own; otherwise the error is that of the first
    instrument that failed, by name, and none is asked for after it. *)
Theorem New_builds_all :
  match New with
  | Ok r => Forall (λ i, create i = None) instruments.*1 ∧ r = fullRecorder
            ∧ b_made newBuilding = instruments.*1
  | Err e => ∃ pre i post e0, instruments.*1 = pre ++ i :: post ∧ Forall (λ i, create i = None) pre
      ∧ create i = Some e0 ∧ e = wrapf ("create instrument " +:+ in_name i) e0
      ∧ b_made newBuilding = pre ++ [i]
  end.
Proof.
  pose proof (building_first_failure instruments (mkBuilding emptyRecorder None []) eq_refl) as Hf.
  unfold New, newBuilding. cbv zeta in Hf. destruct (b_err (buildAll _ instruments)) as [e|].
  - exact Hf.
  - destruct Hf as [Ha Hm]. split_and!; [exact Ha|by apply building_rec|exact Hm].
Qed.

End new.

Lemma fullRecorder_set :
  Forall is_Some [r_submissions fullRecorder; r_launches fullRecorder; r_launchDuration fullRecorder;
    r_completions fullRecorder; r_runDuration fullRecorder; r_sessions fullRecorder;
    r_activeSessions fullRecorder; r_harnessEvents fullRecorder; r_permissions fullRecorder;
    r_decisions fullRecorder; r_memoryCalls fullRecorder; r_memoryDuration fullRecorder].
Proof. repeat constructor; eexists; reflexivity. Qed.

(** ** The type of a data point

    A counter is only ever increased, an observation is of a positive duration, each
    goes to an instrument of its kind that [New] made, and no attribute is given twice. *)

Definition named (name : string) : option instrument :=
  snd <$> list_find (λ i, in_name i = name) (instruments.*1).

Definition typed (m : measurement) : Prop :=
  match m with
  | Add name n attrs =>
      NoDup attrs.*1
      ∧ match in_kind <$> named name with
        | Some Int64Counter => (0 ≤ n)%Z
        | Some Int64UpDownCounter => True
        | _ => False
        end
  | Record_ name d attrs =>
      NoDup attrs.*1 ∧ in_kind <$> named name = Some Float64Histogram ∧ (0 < d)%Z
  end.

Lemma typed_recordIf name d attrs :
  NoDup attrs.*1 → in_kind <$> named name = Some Float64Histogram →
  Forall typed (recordIf name d attrs).
Proof. intros. unfold recordIf. case_match; repeat constructor; [done..|lia]. Qed.

(** No two of a spelled-out list of keys are the same. *)
Ltac distinct :=
  cbn [fmap list_fmap fst];
  repeat (apply NoDup_cons_2; [rewrite ?elem_of_cons, ?elem_of_nil; intuition congruence|]);
  apply NoDup_nil_2.

Lemma typed_points :
  (∀ p o, Forall typed (JobSubmitted p o))
  ∧ (∀ o d, Forall typed (JobLaunched o d))
  ∧ (∀ s r d, Forall typed (JobCompleted s r d))
  ∧ (∀ d, Forall typed (HarnessSession d))
  ∧ (∀ t, Forall typed (HarnessEventSeen t))
  ∧ Forall typed PermissionRequested ∧ Forall typed SessionOpened ∧ Forall typed SessionClosed
  ∧ (∀ a d, Forall typed (PermissionAnswered a d))
  ∧ (∀ t o d, Forall typed (MemoryCall t o d)).
Proof.
  split_and!; intros; (constructor; [|first [apply typed_recordIf; [|done]|constructor]]);
    try (split; [|done]); try case_match; distinct.
Qed.

(** ** Spans

    What hairpin asks of a span.  The span of a nil recorder records nothing. *)

Inductive spanCall :=
  | SetAttributes (kvs : list (string * string))
  | RecordError (err : error)
  | SetStatusError (description : string).

Record span (SpanContext : Type) := mkSpan {
  sp_name : string;
  sp_recording : bool;
  sp_links : list SpanContext;
  sp_calls : list spanCall;
}.
Arguments mkSpan {SpanContext}.
Arguments sp_name {SpanContext}.
Arguments sp_recording {SpanContext}.
Arguments sp_links {SpanContext}.
Arguments sp_calls {SpanContext}.

Section spans.
Context {SpanContext : Type}.
Implicit Type s : span SpanContext.

Definition Start (r : option Recorder) (name : string) (links : list SpanContext) : span SpanContext :=
  match r with
  | None => mkSpan name false [] []
  | Some _ => mkSpan name true links []
  end.

Definition called (c : spanCall) s : span SpanContext :=
  if sp_recording s then mkSpan (sp_name s) true (sp_links s) (sp_calls s ++ [c]) else s.

Definition SetJobID s (jobID : string) : span SpanContext :=
  if jobID ==? "" then s else called (SetAttributes [("hairpin.job.id", jobID)]) s.

Definition SetRequestID s (requestID : string) : span SpanContext :=
  if requestID ==? "" then s else called (SetAttributes [("hairpin.request.id", requestID)]) s.

Definition Fail s (err : option error) : span SpanContext :=
  match err with
  | None => s
  | Some e => called (SetStatusError (Error e)) (called (RecordError e) s)
  end.

End spans.

(** ** Trace context

    The propagator is the library's: [Inject] is the [traceparent] it puts into an empty
    carrier, [Extract] the span context it reads from a carrier with that header alone. *)

Class TraceContext (SpanContext : Type) := {
  IsValid : SpanContext → bool;
  TraceID : SpanContext → string;
  SpanID : SpanContext → string;
  Inject : SpanContext → string;
  Extract : string → SpanContext;
}.

(** W3C Trace Context: a valid span context travels in its header. *)
Class TraceContextLaws (SpanContext : Type) `{TraceContext SpanContext} := {
  law_Inject sc : IsValid sc = true → Inject sc ≠ "";
  law_Extract sc : IsValid sc = true →
    IsValid (Extract (Inject sc)) = true ∧ TraceID (Extract (Inject sc)) = TraceID sc
    ∧ SpanID (Extract (Inject sc)) = SpanID sc;
}.

Section tracecontext.
Context {SpanContext : Type} `{TraceContext SpanContext}.

(** Of the span context of [ctx]. *)
Definition TraceParent (sc : SpanContext) : string := if negb (IsValid sc) then "" else Inject sc.

(** The links of the start option. *)
Definition LinkToTraceParent (traceParent : string) : list SpanContext :=
  if traceParent ==? "" then []
  else
    let sc := Extract traceParent in
    if negb (IsValid sc) then [] else [sc].

(** The stream of a harness points back at the submission that created its job: what a
    submission's span leaves on the job record links the stream's span to that very span,
    and a submission without a span links nothing. *)
Theorem stream_links_submission `{!TraceContextLaws SpanContext} (sc : SpanContext) :
  if IsValid sc then
    ∃ sc', LinkToTraceParent (TraceParent sc) = [sc'] ∧ TraceID sc' = TraceID sc ∧ SpanID sc' = SpanID sc
  else LinkToTraceParent (TraceParent sc) = [].
Proof.
  unfold LinkToTraceParent, TraceParent. destruct (IsValid sc) eqn:Hv; cbn [negb]; [|done].
  rewrite bool_decide_eq_false_2 by (by apply law_Inject).
  destruct (law_Extract sc Hv) as (-> & Ht & Hs). eauto.
Qed.

End tracecontext.

(** A propagator that keeps the two halves apart. *)
#[local] Instance sample_propagator : TraceContext (string * string) := {|
  IsValid sc := bool_decide (sc ≠ ("", "") ∧ len sc.1 = 2);
  TraceID := fst;
  SpanID := snd;
  Inject sc := sc.1 +:+ sc.2;
  Extract s := (stake 2 s, sdrop 2 s);
|}.

Example link_of_a_span :
  LinkToTraceParent (TraceParent ("ab", "cdef")) = [("ab", "cdef")]
  ∧ LinkToTraceParent (TraceParent ("", "")) = [].
Proof. by vm_compute. Qed.
