(* ===== verification/Pools.v ===== *)
(** * What is held while goroutines run

    A wait group counts goroutines, the channel of a pump counts the memory calls in
    flight, a gauge counts the streams being served.  Each is raised when something
    begins and lowered when it ends, on whatever branch the code takes.  A program
    [holds] as many credits of such a counter as it has still to give back; in every
    interleaving the counter is the sum of the credits the goroutines hold. *)

From stdpp Require Import base gmap list strings relations.
From S2P Require Import Prelude Fmt Job Proto Store Telemetry Registry Prog Memory Handler Pump.
From S2P Require Import ControlPlane RunConfigs Service Watch Reaper MemStore Samples Lifecycle.

(** ** The counters *)

Inductive tracked :=
  | TWg (wg : waitGroup)
  | TChan (ch cap : nat)            (** a semaphore, where all have capacity [cap] *)
  | TActive.                        (** the gauge of active sessions *)

#[export] Instance tracked_eq_dec : EqDecision tracked.
Proof. solve_decision. Defined.

(** The increments of an instrument. *)
Definition increment (instrument : string) (m : measurement) : Z :=
  match m with
  | Add i n _ => if i ==? instrument then n else 0
  | Record_ _ _ _ => 0
  end.

Definition total_of (instrument : string) (ms : list measurement) : Z :=
  foldr (λ m z, (increment instrument m + z)%Z) 0%Z ms.

#[global] Arguments total_of : simpl never.

Definition activeSessions : string := "hairpin.harness.sessions.active".

(** What an action adds to a counter when it is answered [x]. *)
Definition delta (t : tracked) {X} (e : eff X) : X → Z :=
  match e in eff X return X → Z with
  | EWgAdd wg => λ _, if bool_decide (t = TWg wg) then 1%Z else 0%Z
  | EWgDone wg => λ _, if bool_decide (t = TWg wg) then (-1)%Z else 0%Z
  | ETrySend ch => λ ok, match t with
                         | TChan c _ => if bool_decide (c = ch) && ok then 1%Z else 0%Z
                         | _ => 0%Z
                         end
  | ERecvSlot ch => λ _, match t with
                         | TChan c _ => if bool_decide (c = ch) then (-1)%Z else 0%Z
                         | _ => 0%Z
                         end
  | ETel ms => λ _, match t with TActive => total_of activeSessions ms | _ => 0%Z end
  | _ => λ _, 0%Z
  end.

(** The actions that only a holder of a credit takes: a launch, a memory call, a token
    for the sandbox of a run. *)
Definition needs (t : tracked) {X} (e : eff X) : Prop :=
  match e with
  | ELaunch _ => t = TWg launches
  | ESearch _ _ | ESave _ _ => t = TWg memoryWait
  | EMint _ _ => t = TActive
  | _ => False
  end.

(** Every semaphore is made with the capacity. *)
Definition fits (t : tracked) {X} (e : eff X) : Prop :=
  match t, e with
  | TChan _ cap, ENewChan n => n = cap
  | _, _ => True
  end.

(** The counter itself. *)
Definition counter {St} (t : tracked) (w : World St) : Z :=
  match t with
  | TWg launches => w_launches w
  | TWg memoryWait => w_memoryWait w
  | TChan ch _ => match w_chans w !! ch with Some (_, used) => Z.of_nat used | None => 0 end
  | TActive => total_of activeSessions (w_metrics w)
  end.

(** ** Credits

    [holds t q p Q]: holding [q] credits of [t], the program [p] never lacks one it
    needs or gives back, hands some to the goroutines it starts, which keep none, and
    [Q] holds of its result and of what is left. *)
Fixpoint holds (t : tracked) {A : Type} (q : nat) (p : prog A) (Q : A → nat → Prop) : Prop :=
  match p with
  | Ret a => Q a q
  | Act e k =>
      (needs t e → 0 < q) ∧ fits t e
      ∧ ∀ x, ∃ q', Z.of_nat q' = (Z.of_nat q + delta t e x)%Z ∧ holds t q' (k x) Q
  | Go _ g k => ∃ q1 q2, q = q1 + q2 ∧ holds t q1 g (λ _ n, n = 0) ∧ holds t q2 k Q
  | Panic | OutOfFuel => True
  end.

(** The goroutines of a pool: they keep nothing. *)
Abbreviation owes t q p := (holds t q p (λ _ n, n = 0)).

(** A program that ends with the credits it began with, at least [n]. *)
Definition even (t : tracked) (n : nat) {A} (p : prog A) : Prop :=
  ∀ q, n ≤ q → holds t q p (λ _ m, m = q).

Lemma holds_mono t {A} q (p : prog A) (Q R : A → nat → Prop) :
  (∀ a n, Q a n → R a n) → holds t q p Q → holds t q p R.
Proof.
  intros HQR. revert q. induction p as [A a|A X e k IH|A l g _ k IH|A|A]; intros q; simpl; eauto.
  - intros (Hn & Hf & Hk). split_and!; [done..|]. intros x. destruct (Hk x) as (q' & ? & ?). eauto.
  - intros (q1 & q2 & ? & ? & ?). eauto 7.
Qed.

Lemma holds_bind t {A B} q (p : prog A) (f : A → prog B) Q :
  holds t q p (λ a n, holds t n (f a) Q) → holds t q (p ≫= f) Q.
Proof.
  unfold mbind, prog_bind. revert q.
  induction p as [A a|A X e k IH|A l g _ k IH|A|A]; intros q; simpl; try done.
  - intros (Hn & Hf & Hk). split_and!; [done..|]. intros x. destruct (Hk x) as (q' & ? & ?). eauto.
  - intros (q1 & q2 & ? & ? & ?). eauto 7.
Qed.

(** A part that ends as it began. *)
Lemma holds_even t n {A B} q (p : prog A) (f : A → prog B) Q :
  even t n p → n ≤ q → (∀ a, holds t q (f a) Q) → holds t q (p ≫= f) Q.
Proof.
  intros Hp Hq Hf. apply holds_bind. eapply holds_mono; [|by apply Hp]. by intros a m ->.
Qed.

Lemma even_bind t n {A B} (p : prog A) (f : A → prog B) :
  even t n p → (∀ a, even t n (f a)) → even t n (p ≫= f).
Proof. intros Hp Hf q Hq. eapply holds_even; [done..|]. intros a. by apply Hf. Qed.

Lemma even_ret t n {A} (a : A) : even t n (mret a).
Proof. by intros q Hq. Qed.

(** An action that does not touch the counter. *)
Lemma even_perform t n {X} (e : eff X) :
  (needs t e → 0 < n) → fits t e → (∀ x, delta t e x = 0%Z) → even t n (perform e).
Proof.
  intros Hn Hf Hd q Hq. split_and!; [intros ?%Hn; lia|done|]. intros x. exists q. rewrite Hd. by split; [lia|].
Qed.

Lemma even_perform_bind t n {X B} (e : eff X) (f : X → prog B) :
  (needs t e → 0 < n) → fits t e → (∀ x, delta t e x = 0%Z) → (∀ x, even t n (f x)) →
  even t n (perform e ≫= f).
Proof. intros Hn Hfit Hd Hf. by apply even_bind; [apply even_perform|]. Qed.

(** An action that does. *)
Lemma holds_perform t {X B} q q' (e : eff X) (f : X → prog B) Q :
  ¬ needs t e → fits t e → (∀ x, Z.of_nat q' = (Z.of_nat q + delta t e x)%Z) →
  (∀ x, holds t q' (f x) Q) → holds t q (perform e ≫= f) Q.
Proof. intros Hn Hfit Hd Hf. split_and!; [done..|]. eauto. Qed.

Lemma even_owes t {A} (p : prog A) : even t 0 p → owes t 0 (discard p).
Proof. intros Hp. apply holds_even with 0; [done..|]. by intros a. Qed.

(** ** The operations *)

(** The measurements that leave the gauge alone. *)
Lemma total_recordIf i j d attrs : total_of i (recordIf j d attrs) = 0%Z.
Proof. unfold recordIf. by case_match. Qed.

Lemma total_app i ms ms' : total_of i (ms ++ ms') = (total_of i ms + total_of i ms')%Z.
Proof.
  unfold total_of. induction ms as [|m ms IH]; [done|]. cbn [app foldr]. rewrite IH. lia.
Qed.

Lemma quiet_measurements :
  (∀ p o, total_of activeSessions (JobSubmitted p o) = 0%Z)
  ∧ (∀ o d, total_of activeSessions (JobLaunched o d) = 0%Z)
  ∧ (∀ s r d, total_of activeSessions (JobCompleted s r d) = 0%Z)
  ∧ (∀ d, total_of activeSessions (HarnessSession d) = 0%Z)
  ∧ (∀ t, total_of activeSessions (HarnessEventSeen t) = 0%Z)
  ∧ total_of activeSessions PermissionRequested = 0%Z
  ∧ (∀ a d, total_of activeSessions (PermissionAnswered a d) = 0%Z)
  ∧ (∀ t o d, total_of activeSessions (MemoryCall t o d) = 0%Z).
Proof.
  split_and!; intros; unfold JobLaunched, JobCompleted, MemoryCall, recordIf;
    repeat case_match; reflexivity.
Qed.

Create HintDb pools.

Lemma even_tel t ms x : total_of activeSessions ms = 0%Z → delta t (ETel ms) x = 0%Z.
Proof. intros E. by destruct t. Qed.

#[local] Hint Extern 1 (total_of activeSessions _ = 0%Z) => apply quiet_measurements : pools.
#[local] Hint Resolve even_tel even_ret : pools.

(** Peel a program down to the actions that count and the programs it calls. *)
Ltac balance :=
  repeat lazymatch goal with
  | |- even _ _ (mbind _ (perform (EWgAdd _))) => fail
  | |- even _ _ (mbind _ (perform _)) => apply even_perform_bind; [| |intros ?|intros ?]
  | |- even _ _ (mbind ?f (mret ?a)) => change (mbind f (mret a)) with (f a); cbv beta
  | |- even _ _ (mbind _ _) => apply even_bind; [|intros ?]
  | |- even _ _ (perform _) => apply even_perform; [| |intros ?]
  | |- even _ _ (mret _) => apply even_ret
  | |- even _ _ OutOfFuel => intros ? ?; exact I
  | |- even _ _ Panic => intros ? ?; exact I
  | |- even _ _ (if ?b then _ else _) => destruct b
  | |- even _ _ (match ?x with _ => _ end) => destruct x
  | |- even _ _ (when ?b _) => unfold when; destruct b
  | |- needs _ _ → _ => cbn [needs]; try done
  | |- fits ?t _ => first [by destruct t|fail]
  | |- delta _ (ETel _) _ = _ => apply even_tel
  | |- delta _ _ _ = _ => done
  end; eauto with pools.

Lemma total_opened : total_of activeSessions SessionOpened = 1%Z.
Proof. reflexivity. Qed.

Lemma total_closed : total_of activeSessions SessionClosed = (-1)%Z.
Proof. reflexivity. Qed.

(** Whatever is counted, the sums agree. *)
Ltac recount t :=
  cbn; destruct t as [[]|?c ?cap|]; cbn; rewrite ?total_opened, ?total_closed;
  repeat case_bool_decide; simplify_eq/=; lia.

Section operations.
Context `{UnicodeTables} `{ProtoJSON}.
Variable t : tracked.

Lemma even_appendStatus n id st at_ : even t n (appendStatus id st at_).
Proof. unfold appendStatus. balance. Qed.
#[local] Hint Resolve even_appendStatus : pools.

Lemma even_sendCancel n s : even t n (sendCancel s).
Proof. unfold sendCancel. balance. Qed.

Lemma even_failJob n id reason : even t n (failJob id reason).
Proof. unfold failJob. balance. Qed.

Lemma even_finaliseCancelled n id : even t n (finaliseCancelled id).
Proof. unfold finaliseCancelled. balance. Qed.
#[local] Hint Resolve even_sendCancel even_failJob even_finaliseCancelled : pools.

Lemma even_append n p ev : even t n (append p ev).
Proof. unfold append. balance. Qed.
#[local] Hint Resolve even_append : pools.

Lemma even_appendProto n p ev at_ : even t n (appendProto p ev at_).
Proof. unfold appendProto. balance. Qed.

Lemma even_appendControl n p ev at_ : even t n (appendControl p ev at_).
Proof. unfold appendControl. balance. Qed.
#[local] Hint Resolve even_appendProto even_appendControl : pools.

Lemma even_flushDeltas n p : even t n (flushDeltas p).
Proof. unfold flushDeltas. balance. Qed.

Lemma even_putPermission n p ev at_ : even t n (putPermission p ev at_).
Proof. unfold putPermission. balance. Qed.

Lemma even_sendToolResult n p id content e : even t n (sendToolResult p id content e).
Proof. unfold sendToolResult. balance. Qed.
#[local] Hint Resolve even_flushDeltas even_putPermission even_sendToolResult : pools.

(** A token is minted only while the stream counts as active. *)
Lemma even_sandbox n h p ev :
  (t = TActive → 0 < n) → even t n (handleSandboxTokenRequest h p ev).
Proof. intros Hn. unfold handleSandboxTokenRequest, sendSandboxTokenResponse. balance. Qed.

(** The memory service is called only while the wait group counts the call. *)
Lemma even_Fulfil n tool input : (t = TWg memoryWait → 0 < n) → even t n (Fulfil tool input).
Proof. intros Hn. unfold Fulfil, fulfilSearch, fulfilSave, clientSave. balance. Qed.
#[local] Hint Resolve even_sandbox even_Fulfil : pools.

(** What an admitted memory call holds: itself in the wait group, and a slot. *)
Definition callCredit (ch : nat) : nat :=
  match t with
  | TWg memoryWait => 1
  | TChan c _ => if c ==? ch then 1 else 0
  | _ => 0
  end.

Lemma memoryCall_holds p tool id input :
  owes t (callCredit (p_memoryInFlight p)) (memoryCall p tool id input).
Proof.
  unfold memoryCall, callCredit. apply (holds_even t 0); [by balance|lia|intros started].
  apply (holds_even t (callCredit (p_memoryInFlight p))); [|done|intros o].
  { apply even_Fulfil. intros E. unfold callCredit. rewrite E. lia. }
  apply (holds_even t 0); [by balance|lia|intros _].
  apply (holds_perform t _ (match t with TWg memoryWait => 1 | _ => 0 end)); [by intros []|by destruct t|..].
  - intros x. recount t.
  - intros x. split_and!; [done|by destruct t|]. intros x'. exists 0. split; [recount t|done].
Qed.

(** Admission takes the slot of the call it admits. *)
Lemma admitMemoryCall_holds h p tool id q :
  holds t q (admitMemoryCall h p tool id)
    (λ r n, p_memoryInFlight (fst r) = p_memoryInFlight p
            ∧ n = match snd r, t with
                  | None, TChan c _ => if c ==? p_memoryInFlight p then S q else q
                  | _, _ => q
                  end).
Proof.
  unfold admitMemoryCall. repeat (case_match; [done|]).
  split_and!; [done|by destruct t|]. intros [|]; cbn.
  - eexists (match t with TChan c _ => if c ==? p_memoryInFlight p then S q else q | _ => q end).
    split; [recount t|by destruct p].
  - exists q. split; [recount t|done].
Qed.

Lemma even_fulfilToolResult n h p ev : even t n (fulfilToolResult h p ev).
Proof.
  unfold fulfilToolResult. case_match; [balance|]. intros q Hq. apply holds_bind.
  eapply holds_mono; [|apply admitMemoryCall_holds]. intros [p' [r|]] m [Hp Hm]; cbn [fst snd] in *.
  { subst m. by apply (even_bind t n); [balance|intros; balance|]. }
  apply (holds_perform t m (callCredit (p_memoryInFlight p) + q)); [by intros []|by destruct t|..].
  - intros x. subst m. unfold callCredit. recount t.
  - intros x. eexists _, q. split_and!; [reflexivity| |done]. rewrite <-Hp.
    apply memoryCall_holds.
Qed.
#[local] Hint Resolve even_fulfilToolResult : pools.

(** Everything inside the pump runs while the stream counts as active. *)
Section pump.
Variable n : nat.
Hypothesis Hn : t = TActive → 0 < n.

(** The semaphores of the pool are those of its handler. *)
Definition sizedBy (h : Handler) : Prop := ∀ ch cap, t = TChan ch cap → h_maxInFlightMemory h = cap.

Lemma even_handle h p ev : even t n (handle h p ev).
Proof. unfold handle, dispatch, maybeFlushLastEventAt, finish. balance. Qed.

Lemma even_pumpRun h fuel p : even t n (pumpRun h fuel p).
Proof.
  pose proof even_handle. revert p. induction fuel as [|f IH]; intros p; cbn [pumpRun]; [balance|].
  unfold closeUnfinished. balance.
Qed.

Lemma even_assigned h fuel s sess id j cfg : sizedBy h → even t n (assigned h fuel s sess id j cfg).
Proof.
  intros Hh. pose proof even_pumpRun. unfold assigned, newPump. balance.
  unfold sizedBy in Hh. destruct t; [done|by eapply Hh|done].
Qed.

End pump.

(** The gauge is raised for the time the stream is assigned. *)
Lemma even_registered n h fuel s sess id j :
  sizedBy h → even t n (registered h fuel s sess id j).
Proof.
  intros Hh. unfold registered. destruct (parseRunConfig _) as [cfg|e]; [|balance].
  apply even_perform_bind; [done|by destruct t|done|]. intros [x|e]; [|balance].
  apply even_perform_bind; [done|by destruct t|intros; by apply even_tel|]. intros _ q Hq.
  set (a := match t with TActive => 1 | _ => 0 end).
  apply (holds_perform t q (a + q)); [by intros []|by destruct t|..].
  { intros ?. unfold a. recount t. }
  intros _. apply (holds_even t a); [|lia|intros r].
  { apply even_assigned; [|done]. unfold a. intros E. rewrite E. lia. }
  apply (holds_perform t _ q); [by intros []|by destruct t| |done]. intros ?. unfold a. recount t.
Qed.
#[local] Hint Resolve even_registered : pools.

Lemma even_runTask n h fuel s : sizedBy h → even t n (runTask h fuel s).
Proof. intros Hh. unfold runTask. balance. Qed.

Lemma even_appendStatusEvent n id st e : even t n (appendStatusEvent id st e).
Proof. unfold appendStatusEvent. balance. Qed.
#[local] Hint Resolve even_appendStatusEvent : pools.

Lemma even_transition n id from to errText : even t n (transition id from to errText).
Proof. unfold transition. balance. Qed.
#[local] Hint Resolve even_transition : pools.

(** A launch holds itself in its wait group. *)
Definition launchCredit : nat := match t with TWg launches => 1 | _ => 0 end.

Lemma launch_holds j : owes t launchCredit (launch j).
Proof.
  unfold launch. apply (holds_even t launchCredit); [balance|done|intros moved].
  apply (holds_even t launchCredit); [|done|intros _].
  - assert (needs t (ELaunch j) → 0 < launchCredit).
    { unfold launchCredit. cbn. intros E. rewrite E. lia. }
    balance.
  - split_and!; [by intros []|by destruct t|]. intros x. exists 0. unfold launchCredit. split; [recount t|done].
Qed.

Lemma even_Submit n sv p : even t n (Submit sv p).
Proof.
  unfold Submit, failSubmit. balance. intros q Hq.
  apply (holds_perform t q (launchCredit + q)); [by intros []|by destruct t|..].
  { intros ?. unfold launchCredit. recount t. }
  intros _. eexists _, q. split_and!; [done|apply launch_holds|done].
Qed.

Lemma even_cancelUnassigned n id : even t n (cancelUnassigned id).
Proof. unfold cancelUnassigned. balance. Qed.
#[local] Hint Resolve even_cancelUnassigned : pools.

Lemma even_Cancel n id : even t n (Cancel id).
Proof. unfold Cancel, checked, cancelLive, registrySend. balance. Qed.

Lemma even_AnswerPermission n id req allow reason : even t n (AnswerPermission id req allow reason).
Proof. unfold AnswerPermission, checked, registrySend. balance. Qed.

Lemma even_replay n fuel id cursor : even t n (replay fuel id cursor).
Proof. revert cursor. induction fuel; intros cursor; cbn [replay]; balance. Qed.
#[local] Hint Resolve even_replay : pools.

Lemma even_Watch n {Chan} (o : res Chan) fuel id a : even t n (Watch o fuel id a).
Proof. unfold Watch, checked. balance. Qed.

Lemma even_sweep n r fuel : even t n (sweep r fuel).
Proof.
  unfold sweep, listAllJobs. apply even_bind.
  { generalize (@nil Job) "". induction fuel; intros all tok; cbn [listPages]; balance. }
  intros [jobs|]; [|balance]. unfold reapAwaitingHarness, reapRetention. balance.
  - induction jobs; cbn [reapAwaitingLoop]; unfold failStuckHarness, reaperAppendStatus; balance.
  - induction jobs; cbn [reapRetentionLoop]; balance.
Qed.

Lemma even_Run n r fuel ticks : even t n (Run r fuel ticks).
Proof.
  unfold Run. apply even_bind; [apply even_sweep|intros _].
  induction ticks; cbn [RunLoop]; balance. apply even_sweep.
Qed.

(** Every operation of a process starts with nothing and keeps nothing. *)
Lemma owes_operation sv p :
  operationOf sizedBy sv p → owes t 0 p.
Proof.
  destruct 1; try (by apply (even_sweep 0)); try (by apply (even_Run 0)); apply even_owes;
    eauto using even_runTask, even_Submit, even_Cancel, even_AnswerPermission, even_Watch;
    unfold GetOp, ListPermissionsOp, List, checked; balance.
Qed.

End operations.

(** ** Pools *)

Section pools.
Context {St : Type} `{Store St} (env : Env).
Implicit Type w : World St.

Lemma counter_act t X (e : eff X) w :
  ((delta t e (snd (act env e w)) < 0)%Z → (0 < counter t w)%Z) →
  counter t (fst (act env e w)) = (counter t w + delta t e (snd (act env e w)))%Z.
Proof.
  destruct e; cbn [delta act];
    try (intros _; unfold onStore, receive, sessionSend, transmit; repeat case_match; destruct w, t as [[]| |];
         simplify_eq/=; lia).
  - intros _. destruct w, t as [[]|c cap'|]; cbn; try lia. set (a := fresh _).
    destruct (decide (a = c)) as [<-|Hn]; [|rewrite lookup_insert_ne by done; lia].
    rewrite lookup_insert_eq. assert (w_chans !! a = None) as ->; [|lia].
    apply not_elem_of_dom. apply is_fresh.
  - intros _. unfold trySend. destruct t as [[]|c cap'|];
      try (repeat case_match; destruct w; simplify_eq/=; lia).
    destruct w as [a b st se chans la me mt tk]; cbn [w_chans].
    destruct (chans !! ch) as [[cap used]|] eqn:E; [|rewrite andb_false_r; cbn; lia].
    case_match; cbn [fst snd set_chans counter w_chans]; [|rewrite andb_false_r; lia].
    case_bool_decide as Hc; [subst c; rewrite lookup_insert_eq, E; cbn; lia|].
    rewrite lookup_insert_ne by done. cbn. lia.
  - destruct t as [[]|c cap'|]; try (intros _; destruct w; cbn; lia). cbn [snd].
    destruct w as [a b st se chans la me mt tk]; cbn [w_chans counter set_chans fst].
    case_bool_decide as Hc; [subst c|intros _; rewrite lookup_alter_ne by done; lia].
    rewrite lookup_alter_eq. destruct (chans !! ch) as [[cap used]|]; cbn; lia.
  - intros _. destruct w, t as [[]| |], wg; cbn; repeat case_bool_decide; simplify_eq/=; lia.
  - intros _. destruct w, t as [[]| |], wg; cbn; repeat case_bool_decide; simplify_eq/=; lia.
  - intros _. cbn. destruct w, t as [[]| |]; cbn; try lia. rewrite total_app. lia.
Qed.

(** The goroutines hold together what the counter says. *)
Definition accounted (t : tracked) (c : World St * list (prog unit)) : Prop :=
  ∃ qs, Forall2 (λ q p, owes t q p) qs (snd c) ∧ counter t (fst c) = Z.of_nat (sum_list qs).

Lemma sum_list_insert (qs : list nat) i q q' :
  qs !! i = Some q → sum_list (<[i := q']> qs) + q = sum_list qs + q'.
Proof.
  revert i. induction qs as [|n qs IH]; intros [|i] Hi; simplify_eq/=; [lia|].
  specialize (IH _ Hi). lia.
Qed.

Lemma sum_list_lookup (qs : list nat) i q : qs !! i = Some q → q ≤ sum_list qs.
Proof. intros Hi. pose proof (sum_list_insert qs i q 0 Hi). lia. Qed.

Lemma step_accounted t (c c' : World St * list (prog unit)) :
  step env c c' → accounted t c → accounted t c'.
Proof.
  intros Hs (qs & Hqs & Hc).
  inversion Hs as [w ts i X e k w' x Hi Ha|w ts i l g k Hi]; subst; cbn [fst snd] in *.
  - destruct (Forall2_lookup_r _ _ _ _ _ Hqs Hi) as (q & Hq & _ & _ & Hk).
    destruct (Hk x) as (q' & Hd & Hk').
    exists (<[i := q']> qs). split; [by apply Forall2_insert|]. cbn [fst].
    pose proof (sum_list_insert _ _ _ q' Hq). pose proof (sum_list_lookup _ _ _ Hq).
    unfold actTick in Ha. pose proof (counter_act t X e w) as Hact.
    destruct (act env e w) as [w1 x1]. injection Ha as <- <-. cbn [fst snd] in Hact.
    assert (counter t (set_tick (S (w_tick w)) w1) = counter t w1) as -> by by destruct w1.
    rewrite Hact by lia. lia.
  - destruct (Forall2_lookup_r _ _ _ _ _ Hqs Hi) as (q & Hq & q1 & q2 & -> & Hg & Hk).
    exists (<[i := q2]> qs ++ [q1]). split.
    + apply Forall2_app; [by apply Forall2_insert|by constructor].
    + pose proof (sum_list_insert _ _ _ q2 Hq). cbn [fst]. rewrite sum_list_with_app.
      cbn. unfold sum_list in *. lia.
Qed.

Lemma steps_accounted t (c c' : World St * list (prog unit)) :
  rtc (step env) c c' → accounted t c → accounted t c'.
Proof. induction 1; eauto using step_accounted. Qed.

(** The semaphores, and the bound on the slots taken. *)
Definition slotsOk (ch cap : nat) w : Prop :=
  ∀ c used, w_chans w !! ch = Some (c, used) → c = cap ∧ used ≤ cap.

Lemma act_slots ch cap X (e : eff X) w :
  fits (TChan ch cap) e → slotsOk ch cap w → slotsOk ch cap (fst (actTick env e w)).
Proof.
  intros Hf Hw. unfold slotsOk, actTick in *.
  destruct e; cbn [act];
    try (unfold onStore, receive, sessionSend, transmit, wgUpdate; repeat case_match;
         destruct w; simplify_eq/=; done).
  - destruct w as [a b st se chans la me mt tk]. cbn in *. intros c used.
    generalize (fresh (dom chans)). intros x. destruct (decide (x = ch)) as [->|Hn].
    + rewrite lookup_insert_eq. intros [= <- <-]. split; [done|lia].
    + rewrite lookup_insert_ne by done. apply Hw.
  - unfold trySend. destruct w as [a b st se chans la me mt tk]. cbn [w_chans] in *.
    destruct (chans !! ch0) as [[c0 u0]|] eqn:E; [|exact Hw].
    destruct (Nat.ltb_spec u0 c0); [|exact Hw]. cbn. intros c used.
    destruct (decide (ch0 = ch)) as [->|Hn].
    + rewrite lookup_insert_eq. intros [= <- <-]. apply Hw in E as [-> ?]. split; [done|lia].
    + rewrite lookup_insert_ne by done. apply Hw.
  - destruct w as [a b st se chans la me mt tk]. cbn in *. intros c used.
    destruct (decide (ch0 = ch)) as [->|Hn].
    + rewrite lookup_alter_eq. destruct (chans !! ch) as [[c0 u0]|] eqn:E; [|done].
      intros [= <- <-]. destruct (Hw _ _ eq_refl) as [-> ?]. split; [done|lia].
    + rewrite lookup_alter_ne by done. apply Hw.
Qed.

Lemma steps_slots ch cap (c c' : World St * list (prog unit)) :
  rtc (step env) c c' → accounted (TChan ch cap) c → slotsOk ch cap (fst c) → slotsOk ch cap (fst c').
Proof.
  induction 1 as [|c1 c2 c3 Hs _ IH]; intros Ha Hw; [done|].
  apply IH; [by eapply step_accounted|]. destruct Ha as (qs & Hqs & _).
  inversion Hs as [w ts i X e k w' x Hi He|]; subst; cbn [fst snd] in *; [|done].
  destruct (Forall2_lookup_r _ _ _ _ _ Hqs Hi) as (q & _ & _ & Hf & _).
  pose proof (act_slots ch cap X e w Hf Hw) as Hw'. by rewrite He in Hw'.
Qed.

Lemma operationOf_mono `{UnicodeTables} `{ProtoJSON} (R R' : Handler → Prop) sv p :
  (∀ h, R h → R' h) → operationOf R sv p → operationOf R' sv p.
Proof. intros HR. by destruct 1; constructor; auto. Qed.

Lemma operations_account `{UnicodeTables} `{ProtoJSON} t sv (c : World St * list (prog unit)) :
  Forall (operationOf (sizedBy t) sv) (snd c) → counter t (fst c) = 0%Z → accounted t c.
Proof.
  intros Hops Hc. exists (replicate (length (snd c)) 0). split; cycle 1.
  { rewrite Hc. clear. by induction (snd c). }
  clear Hc. induction Hops; constructor; [|done]. by eapply owes_operation.
Qed.

End pools.

(** ** What a goroutine has still to do

    It is [due] for [t]: without raising the counter again, it can still reach an action
    that only a holder takes, or the one that gives back what it holds. *)

Definition raises (t : tracked) (o : obs) : Prop :=
  match o with Obs e x => (0 < delta t e x)%Z | Started _ _ => False end.

Definition demands (t : tracked) (o : obs) : Prop :=
  match o with Obs e x => needs t e ∨ (delta t e x < 0)%Z | Started _ _ => False end.

Definition due (t : tracked) (p : prog unit) : Prop :=
  ∃ t1 o t2 r, trace p (t1 ++ o :: t2) r ∧ Forall (λ o', ¬ raises t o') t1 ∧ demands t o.

Lemma due_holds t q (p : prog unit) : owes t q p → due t p → 0 < q.
Proof.
  intros Hp (t1 & o & t2 & r & Ht & Hr & Ho). revert q p Hp Ht.
  induction Hr as [|o' t1 Ho' Hr IH]; intros q p Hp Ht;
    (destruct p as [a|Y e k|l g k| |]; cbn in Hp, Ht; try (by destruct Ht as [[? _]|[? _]])).
  - destruct Ht as [[? _]|(y & t' & E & _)]; [done|]. injection E as -> ->.
    destruct Hp as (Hn & _ & Hk). destruct (Hk y) as (q' & Hd & _).
    destruct Ho as [?|?]; [auto|lia].
  - destruct Ht as [[? _]|(t' & E & _)]; [done|]. by injection E as -> ->.
  - destruct Ht as [[? _]|(y & t' & E & Ht)]; [done|]. injection E as -> <-.
    destruct Hp as (_ & _ & Hk). destruct (Hk y) as (q' & Hd & Hq').
    specialize (IH _ _ Hq' Ht). cbn in Ho'. lia.
  - destruct Ht as [[? _]|(t' & E & Ht)]; [done|]. injection E as -> <-.
    destruct Hp as (q1 & q2 & -> & _ & Hq2). specialize (IH _ _ Hq2 Ht). lia.
Qed.

(** A recorded run shows what a goroutine has still to do. *)
Definition needsB (t : tracked) {X} (e : eff X) : bool :=
  match e with
  | ELaunch _ => t ==? TWg launches
  | ESearch _ _ | ESave _ _ => t ==? TWg memoryWait
  | EMint _ _ => t ==? TActive
  | _ => false
  end.

Fixpoint dueB (t : tracked) (tr : list obs) : bool :=
  match tr with
  | [] => false
  | Obs e x :: tr' =>
      needsB t e || (delta t e x <? 0)%Z || (negb (0 <? delta t e x)%Z && dueB t tr')
  | Started _ _ :: tr' => dueB t tr'
  end.

Lemma dueB_due t tr :
  dueB t tr = true →
  ∃ t1 o t2, tr = t1 ++ o :: t2 ∧ Forall (λ o', ¬ raises t o') t1 ∧ demands t o.
Proof.
  induction tr as [|[X e x|l g] tr IH]; cbn [dueB]; [done| |].
  - intros Hd. destruct (needsB t e || (delta t e x <? 0)%Z) eqn:Hn.
    + exists [], (Obs e x), tr. split_and!; [done..|]. apply orb_true_iff in Hn as [Hn|Hn].
      * left. by destruct e; cbn in *; (done || apply bool_decide_eq_true in Hn).
      * right. lia.
    + apply andb_true_iff in Hd as [Hr (t1 & o & t2 & -> & Ht1 & Ho)%IH].
      exists (Obs e x :: t1), o, t2. split_and!; [done| |done]. constructor; [cbn; lia|done].
  - intros (t1 & o & t2 & -> & Ht1 & Ho)%IH. exists (Started l g :: t1), o, t2.
    split_and!; [done| |done]. constructor; [cbn; tauto|done].
Qed.

Lemma due_recorded {St} `{Store St} env t (p : prog unit) (w : World St) :
  dueB t (fst (recorded env p w)) = true → due t p.
Proof.
  intros (t1 & o & t2 & E & Ht1 & Ho)%dueB_due. exists t1, o, t2, (Some (snd (recorded env p w))).
  split_and!; [|done..]. rewrite <-E. apply recorded_trace.
Qed.

(** Distinct goroutines that are due are no more than the counter. *)
Lemma due_count {St} `{Store St} t (c : World St * list (prog unit)) ixs :
  accounted t c → NoDup ixs →
  (∀ i, i ∈ ixs → ∃ p, snd c !! i = Some p ∧ due t p) → (Z.of_nat (length ixs) ≤ counter t (fst c))%Z.
Proof.
  intros (qs & Hqs & ->) Hnd His. apply inj_le.
  assert (∀ i, i ∈ ixs → ∃ q, qs !! i = Some q ∧ 0 < q) as Hq.
  { intros i (p & Hp & Hd)%His. destruct (Forall2_lookup_r _ _ _ _ _ Hqs Hp) as (q & Hq & Ho).
    exists q. split; [done|]. by eapply due_holds. }
  clear Hqs His. revert qs Hq. induction Hnd as [|i ixs Hi Hnd IH]; intros qs Hq; cbn; [lia|].
  destruct (Hq i) as (q & Hqi & Hpos); [by left|].
  assert (length ixs ≤ sum_list (<[i := 0]> qs)).
  { apply IH. intros j Hj. rewrite list_lookup_insert_ne by (by intros ->). apply Hq. by right. }
  pose proof (sum_list_insert qs i q 0 Hqi). lia.
Qed.

(** Goroutines that have returned hold nothing. *)
Lemma finished_count {St} `{Store St} t (c : World St * list (prog unit)) :
  accounted t c → Forall (λ p, p = Ret tt) (snd c) → counter t (fst c) = 0%Z.
Proof.
  intros (qs & Hqs & ->) Hf. revert Hf. induction Hqs as [|q p qs ps Hq _ IH]; intros Hf; [done|].
  inversion Hf as [|? ? E ?]; subst. cbn in Hq. subst. cbn. by apply IH.
Qed.

(** The waits of the shutdown return in the worlds where their counter is zero. *)
Definition WaitForLaunches {St} (w : World St) : Prop := w_launches w = 0%Z.
Definition WaitForMemoryCalls {St} (w : World St) : Prop := w_memoryWait w = 0%Z.

(** When they return, no goroutine of the pool is about to launch a harness or to call the
    memory service. *)
Lemma waits_return_late {St} `{Store St} (c : World St * list (prog unit)) :
  (accounted (TWg launches) c → WaitForLaunches (fst c) →
   Forall (λ p, ¬ due (TWg launches) p) (snd c))
  ∧ (accounted (TWg memoryWait) c → WaitForMemoryCalls (fst c) →
     Forall (λ p, ¬ due (TWg memoryWait) p) (snd c)).
Proof.
  split; intros Ha Hw; apply Forall_lookup_2; intros i p Hp Hd;
    pose proof (due_count _ c [i] Ha (NoDup_singleton i)) as Hn; unfold WaitForLaunches, WaitForMemoryCalls in Hw;
    cbn in Hn; rewrite Hw in Hn;
    assert (1 ≤ 0)%Z; try lia; apply Hn; intros j ->%list_elem_of_singleton; eauto.
Qed.

(** ** Properties *)

(** C9. What is held is given back. Start the process with any harness streams, API
    calls and sweeps: under every interleaving each wait group, and the gauge of active
    sessions, is at least the number of goroutines that still hold it, so it never goes
    below zero and is zero only when no launch, no memory call, no assigned stream (which
    alone may be minted a token) is left; and once every goroutine has returned it is
    zero, so no wait for it hangs. *)
Theorem counters_account {St : Type} `{Store St} `{UnicodeTables} `{ProtoJSON} (env : Env)
  (sv : Service) (t : tracked) (c c' : World St * list (prog unit)) (ixs : list nat)
  (Ht : t = TWg launches ∨ t = TWg memoryWait ∨ t = TActive)
  (Hops : Forall (operation sv) (snd c)) (Hzero : counter t (fst c) = 0%Z)
  (Hsteps : rtc (step env) c c') (Hdistinct : NoDup ixs)
  (Hdue : ∀ i, i ∈ ixs → ∃ p, snd c' !! i = Some p ∧ due t p) :
  (Z.of_nat (length ixs) ≤ counter t (fst c'))%Z
  ∧ (Forall (λ p, p = Ret tt) (snd c') → counter t (fst c') = 0%Z).
Proof.
  assert (accounted t c') as Ha.
  { eapply steps_accounted, (operations_account t sv); [done| |done].
    eapply Forall_impl; [exact Hops|]. intros p Hp. eapply operationOf_mono; [|exact Hp].
    intros h _ ch cap ->. by destruct Ht as [|[|]]. }
  split; [by apply due_count|by apply finished_count].
Qed.

(** C7. A run keeps within its share of the memory service. Start the process with any
    harness streams of one handler, API calls and sweeps: under every interleaving the
    goroutines that hold a slot of a pump's semaphore, which are its memory calls from
    their admission until their slot is released, are at most the handler's limit of
    calls in flight, and the slots counted are exactly as many as the limit allows or
    fewer. *)
Theorem memory_calls_bounded {St : Type} `{Store St} `{UnicodeTables} `{ProtoJSON} (env : Env)
  (sv : Service) (h : Handler) (ch : nat) (c c' : World St * list (prog unit)) (ixs : list nat)
  (Hops : Forall (operationOf (λ h', h' = h) sv) (snd c)) (Hnone : w_chans (fst c) = ∅)
  (Hsteps : rtc (step env) c c') (Hdistinct : NoDup ixs)
  (Hdue : ∀ i, i ∈ ixs → ∃ p, snd c' !! i = Some p ∧ due (TChan ch (h_maxInFlightMemory h)) p) :
  length ixs ≤ h_maxInFlightMemory h
  ∧ ∀ cap used, w_chans (fst c') !! ch = Some (cap, used) →
      length ixs ≤ used ∧ used ≤ cap ∧ cap = h_maxInFlightMemory h.
Proof.
  set (t := TChan ch (h_maxInFlightMemory h)).
  assert (accounted t c) as Ha.
  { apply (operations_account t sv); [|unfold t; cbn; by rewrite Hnone].
    eapply Forall_impl; [exact Hops|]. intros p Hp. eapply operationOf_mono; [|exact Hp].
    by intros h' -> ch' cap [= _ <-]. }
  assert (slotsOk ch (h_maxInFlightMemory h) (fst c')) as Hs.
  { eapply steps_slots; [done..|]. unfold slotsOk. by rewrite Hnone. }
  pose proof (due_count t c' ixs (steps_accounted _ _ _ _ Hsteps Ha) Hdistinct Hdue) as Hn.
  unfold t, slotsOk in *. cbn [counter] in Hn.
  destruct (w_chans (fst c') !! ch) as [[cap used]|]; [|split; [lia|done]].
  destruct (Hs _ _ eq_refl) as [-> Hu]. split; [lia|]. intros ? ? [= <- <-]. split_and!; lia.
Qed.

#[local] Existing Instance sample_tables.
#[local] Existing Instance sample_codec.

(** A harness that asks the memory service for something and ends; the pump has returned,
    the call it admitted is still to run. *)
Definition asking_stream : list HarnessEvent :=
  [sample_ready; tool_event "r1" "search_memory" sample_search; done_event "success"].

Definition asking : World memStore * list (prog unit) :=
  (sample_world asking_stream, [discard (runTask sample_handler 10 0)]).

Definition asked : World memStore * list (prog unit) := exec sample_env (replicate 30 0) asking.

Definition goroutine (i : nat) (c : World memStore * list (prog unit)) : prog unit :=
  default (Ret tt) (snd c !! i).

(** It is the second goroutine of the pool. *)
Lemma asked_due t :
  t = TWg memoryWait ∨ t = TChan 0 4 →
  ∀ i, i ∈ [1] → ∃ p, snd asked !! i = Some p ∧ due t p.
Proof.
  intros Ht i ->%list_elem_of_singleton. exists (goroutine 1 asked).
  split.
  { unfold goroutine. assert (is_Some (snd asked !! 1)) as [p ->]; [|done].
    apply lookup_lt_is_Some_2. vm_compute. lia. }
  apply (due_recorded sample_env t _ (fst asked)). by destruct Ht as [->| ->]; vm_compute.
Qed.

Lemma counters_account_witness :
  (1 ≤ counter (TWg memoryWait) (fst asked))%Z
  ∧ (Forall (λ p, p = Ret tt) (snd asked) → counter (TWg memoryWait) (fst asked) = 0%Z).
Proof.
  apply (counters_account sample_env (NewService None []) (TWg memoryWait) asking asked [1]).
  - by right; left.
  - constructor; [by apply op_RunTask|constructor].
  - reflexivity.
  - apply exec_steps.
  - apply NoDup_singleton.
  - apply asked_due. by left.
Defined.

Lemma memory_calls_bounded_witness :
  1 ≤ 4 ∧ ∀ cap used, w_chans (fst asked) !! 0 = Some (cap, used) → 1 ≤ used ∧ used ≤ cap ∧ cap = 4.
Proof.
  apply (memory_calls_bounded sample_env (NewService None []) sample_handler 0 asking asked [1]).
  - constructor; [by apply op_RunTask|constructor].
  - reflexivity.
  - apply exec_steps.
  - apply NoDup_singleton.
  - apply asked_due. by right.
Defined.
