(* ===== verification/Labels.v ===== *)
(** * Bounded metric labels

    [telemetry/attrs.go] promises that every value placed on a metric attribute is
    drawn from a bounded set, whatever a harness or a caller sends: an invariant of
    the whole process, under every interleaving. *)

From stdpp Require Import base gmap list strings relations sorting.
From S2P Require Import Prelude Fmt Job Proto Store Timeline Telemetry Registry MemStore MemStoreFacts Recorder.
From S2P Require Import Prog Memory Handler Pump ControlPlane RunConfigs Service Watch Reaper Samples Lifecycle.

(** ** Answers that follow from the closures

    An update returns the captured state its closure left, after however many
    attempts the store made: whatever holds of the initial state and is kept by the
    closure holds of it. *)

Definition plausible {X} (e : eff X) : X → Prop :=
  match e in eff X return X → Prop with
  | EUpdateJob id fn c => λ x, ∀ I : _ → Prop,
      I c → (∀ c j, I c → I (fst (fn c j))) → I (fst x)
  | _ => λ _, True
  end.

(** Every action, for plausible answers, is permitted. *)
Fixpoint respects (P : ∀ X, eff X → Prop) {A : Type} (p : prog A) : Prop :=
  match p with
  | Ret _ => True
  | Act e k => P _ e ∧ ∀ x, plausible e x → respects P (k x)
  | Go _ q k => respects P q ∧ respects P k
  | Panic | OutOfFuel => True
  end.

Lemma respects_bind P {A B} (p : prog A) (f : A → prog B) :
  respects P p → (∀ a, respects P (f a)) → respects P (p ≫= f).
Proof.
  unfold mbind, prog_bind. intros Hp Hf. revert Hp.
  induction p as [A a|A X e k IH|A l q _ k IH|A|A]; simpl; try done; intros [? ?]; auto.
Qed.

Lemma respects_perform_bind P {X B} (e : eff X) (f : X → prog B) :
  P X e → (∀ x, plausible e x → respects P (f x)) → respects P (perform e ≫= f).
Proof. done. Qed.

(** A store that keeps its contract gives plausible answers. *)
Lemma act_plausible {St} `{StoreLaws St} env X (e : eff X) (w : World St) :
  plausible e (snd (act env e w)).
Proof.
  destruct e; try done. cbn. intros I Hc Hk. unfold onStore.
  pose proof (law_UpdateJob _ id fn c (w_store w)) as Hl.
  destruct (job_of (w_store w) !! id) as [j|].
  - pose proof (Hk c j Hc) as Hj. destruct (fn c j) as [c' [j'|e]].
    + by destruct Hl as (s' & -> & _).
    + by rewrite Hl.
  - by destruct Hl as (e & -> & _).
Qed.

Section pool.
Context {St : Type} `{StoreLaws St} (env : Env) (P : ∀ X, eff X → Prop).

Lemma step_respects (c c' : World St * list (prog unit)) :
  step env c c' → Forall (respects P) (snd c) → Forall (respects P) (snd c').
Proof.
  intros Hs Hts. inversion Hs as [w ts i X e k w' x Hi Ha|w ts i l q k Hi]; subst; cbn [snd] in *.
  - apply Forall_insert; [done|]. apply (Forall_lookup_1 _ _ _ _ Hts) in Hi as [_ Hk].
    apply Hk. pose proof (act_plausible env X e w) as Hp. unfold actTick in Ha.
    destruct (act env e w) as [w1 x1]. by injection Ha as <- <-.
  - apply (Forall_lookup_1 _ _ _ _ Hts) in Hi as [??].
    apply Forall_app; split; [by apply Forall_insert|by constructor].
Qed.

(** What every permitted action keeps is kept by every interleaving. *)
Lemma respects_invariant (R : World St → Prop) (c c' : World St * list (prog unit)) :
  (∀ w X (e : eff X), P X e → R w → R (fst (actTick env e w))) →
  rtc (step env) c c' → Forall (respects P) (snd c) → R (fst c) → R (fst c').
Proof.
  intros Hact. induction 1 as [|c1 c2 c3 Hs _ IH]; intros Hp HR; [done|].
  apply IH; [by eapply step_respects|].
  inversion Hs as [w ts i X e k w' x Hi Ha|w ts i l q k Hi]; subst; cbn [fst snd] in *; [|done].
  apply (Forall_lookup_1 _ _ _ _ Hp) in Hi as [He _]. pose proof (Hact w X e He HR) as HR'.
  by rewrite Ha in HR'.
Qed.

End pool.

(** ** The vocabulary *)

(** Every value hairpin puts on a metric attribute, the names of profiles apart. *)
Definition vocabulary : list string :=
  "" :: otherLabel :: statuses ++ knownStopReasons ++ knownEventTypes ++ knownMemoryTools
  ++ [SubmissionAccepted; SubmissionRejected; SubmissionFailed;
      LaunchSucceeded; LaunchFailed; LaunchSkipped;
      SessionAssigned; SessionClosedBeforeReady; SessionNotReady; SessionNoID; SessionUnknownJob;
      SessionBadToken; SessionClosedJob; SessionDuplicate; SessionUnusableRunConfig;
      SessionAssignmentFailed; MemoryOK; MemoryError; MemoryRefused;
      "allow"; "deny"; "true"; "false"].

Section labels.
Context `{UnicodeTables} `{ProtoJSON}.

(** The names an operator gave their profiles. *)
Variable names : list string.

Definition labelled (kv : string * string) : Prop :=
  snd kv ∈ vocabulary ∨ fst kv = "hairpin.profile" ∧ snd kv ∈ names.

Definition measured (m : measurement) : Prop :=
  match m with
  | Add _ _ attrs | Record_ _ _ attrs => Forall labelled attrs
  end.

Definition boundedAction (X : Type) (e : eff X) : Prop :=
  match e with
  | ETel ms => Forall measured ms ∧ Forall typed ms
  | _ => True
  end.

(** Membership in the vocabulary, by computation. *)
Lemma vocabulary_has v : existsb (λ u, bool_decide (u = v)) vocabulary = true → v ∈ vocabulary.
Proof.
  rewrite List.existsb_exists. intros (u & Hu & ->%bool_decide_eq_true). by apply list_elem_of_In.
Qed.

Lemma bounded_vocabulary value known :
  (∀ v, v ∈ known → v ∈ vocabulary) → bounded value known ∈ vocabulary.
Proof.
  intros Hk. pose proof (bounded_in value known) as Hin. rewrite !elem_of_cons in Hin.
  destruct Hin as [->|[->|Hin]]; [by left|by right; left|by apply Hk].
Qed.

Lemma known_vocabulary v :
  v ∈ statuses ∨ v ∈ knownStopReasons ∨ v ∈ knownEventTypes ∨ v ∈ knownMemoryTools → v ∈ vocabulary.
Proof. unfold vocabulary. rewrite !elem_of_cons, !elem_of_app. tauto. Qed.

Lemma measured_recordIf i d attrs : Forall labelled attrs → Forall measured (recordIf i d attrs).
Proof. intros Ha. unfold recordIf. case_match; repeat constructor; done. Qed.

Lemma measured_JobCompleted st reason d :
  st ∈ vocabulary → Forall measured (JobCompleted st reason d).
Proof.
  intros Hs. constructor.
  - constructor; [by left|]. constructor; [|done]. left. apply bounded_vocabulary. intros.
    apply known_vocabulary. tauto.
  - apply measured_recordIf. constructor; [by left|done].
Qed.

Lemma measured_MemoryCall tool outcome d :
  outcome ∈ vocabulary → Forall measured (MemoryCall tool outcome d).
Proof.
  intros Ho. assert (bounded tool knownMemoryTools ∈ vocabulary) as Hb.
  { apply bounded_vocabulary. intros. apply known_vocabulary. tauto. }
  constructor; [|apply measured_recordIf]; (constructor; [by left|constructor; [by left|done]]).
Qed.

Lemma measured_HarnessEventSeen t : Forall measured (HarnessEventSeen t).
Proof.
  constructor; [|done]. constructor; [|done]. left. apply bounded_vocabulary. intros.
  apply known_vocabulary. tauto.
Qed.

Lemma measured_HarnessSession d : d ∈ vocabulary → Forall measured (HarnessSession d).
Proof. intros. constructor; [|done]. constructor; [by left|done]. Qed.

Lemma measured_JobLaunched o d : o ∈ vocabulary → Forall measured (JobLaunched o d).
Proof.
  intros Ho. constructor; [|apply measured_recordIf]; (constructor; [by left|done]).
Qed.

Lemma measured_JobSubmitted profile o :
  o ∈ vocabulary → (profile = "" ∨ profile ∈ names) → Forall measured (JobSubmitted profile o).
Proof.
  intros Ho Hp. constructor; [|done]. constructor; [by left|].
  case_bool_decide as E; cbn [negb]; [done|]. destruct Hp as [->|Hp]; [done|].
  constructor; [by right|done].
Qed.

Lemma measured_PermissionAnswered a d : Forall measured (PermissionAnswered a d).
Proof.
  constructor; [|done]. constructor; [|constructor; [|done]]; left; apply vocabulary_has;
    [by destruct a|by destruct d].
Qed.

Lemma measured_plain : Forall measured PermissionRequested ∧ Forall measured SessionOpened
  ∧ Forall measured SessionClosed.
Proof. split_and!; repeat constructor. Qed.

Create HintDb labels.

#[local] Hint Resolve measured_JobCompleted measured_MemoryCall measured_HarnessEventSeen
  measured_HarnessSession measured_JobLaunched measured_PermissionAnswered : labels.
#[local] Hint Extern 1 (Forall typed _) => apply typed_points : labels.
#[local] Hint Extern 1 (Forall measured PermissionRequested) => apply measured_plain : labels.
#[local] Hint Extern 1 (Forall measured SessionOpened) => apply measured_plain : labels.
#[local] Hint Extern 1 (Forall measured SessionClosed) => apply measured_plain : labels.
#[local] Hint Extern 2 (_ ∈ vocabulary) => apply vocabulary_has; vm_compute; reflexivity : labels.

(** ** The programs *)

Abbreviation bounded_ := (respects boundedAction).

(** Peel a program down to the measurements it takes. *)
Ltac observe :=
  repeat lazymatch goal with
  | |- bounded_ (mbind _ (perform _)) => apply respects_perform_bind; [|intros ? ?]
  | |- bounded_ (mbind ?f (mret ?a)) => change (mbind f (mret a)) with (f a); cbv beta
  | |- bounded_ (mbind _ _) => apply respects_bind; [|intros ?]
  | |- bounded_ (perform _) => split; [|intros ? ?; exact I]
  | |- bounded_ (go _ _) => split; [|exact I]
  | |- bounded_ (mret _) => exact I
  | |- bounded_ OutOfFuel => exact I
  | |- bounded_ Panic => exact I
  | |- bounded_ (if ?b then _ else _) => destruct b
  | |- bounded_ (match ?x with _ => _ end) => destruct x
  | |- bounded_ (when ?b _) => unfold when; destruct b
  end; cbn [boundedAction]; try exact I;
  try lazymatch goal with |- Forall _ _ ∧ Forall _ _ => split end; eauto with labels.

Lemma bounded_appendStatus id st at_ : bounded_ (appendStatus id st at_).
Proof. unfold appendStatus. observe. Qed.
#[local] Hint Resolve bounded_appendStatus : labels.

Lemma bounded_sendCancel s : bounded_ (sendCancel s).
Proof. unfold sendCancel. observe. Qed.

Lemma bounded_failJob id reason : bounded_ (failJob id reason).
Proof. unfold failJob. observe. Qed.

Lemma bounded_finaliseCancelled id : bounded_ (finaliseCancelled id).
Proof. unfold finaliseCancelled. observe. Qed.
#[local] Hint Resolve bounded_sendCancel bounded_failJob bounded_finaliseCancelled : labels.

Lemma bounded_appendProto p ev at_ : bounded_ (appendProto p ev at_).
Proof. unfold appendProto, append. observe. Qed.

Lemma bounded_appendControl p ev at_ : bounded_ (appendControl p ev at_).
Proof. unfold appendControl, append. observe. Qed.
#[local] Hint Resolve bounded_appendProto bounded_appendControl : labels.

Lemma bounded_flushDeltas p : bounded_ (flushDeltas p).
Proof. unfold flushDeltas. observe. Qed.

Lemma bounded_putPermission p ev at_ : bounded_ (putPermission p ev at_).
Proof. unfold putPermission. observe. Qed.

Lemma bounded_sandbox h p ev : bounded_ (handleSandboxTokenRequest h p ev).
Proof. unfold handleSandboxTokenRequest, sendSandboxTokenResponse. observe. Qed.

Lemma bounded_sendToolResult p id content e : bounded_ (sendToolResult p id content e).
Proof. unfold sendToolResult. observe. Qed.

Lemma bounded_Fulfil tool input : bounded_ (Fulfil tool input).
Proof. unfold Fulfil, fulfilSearch, fulfilSave, clientSave. observe. Qed.
#[local] Hint Resolve bounded_flushDeltas bounded_putPermission bounded_sandbox
  bounded_sendToolResult bounded_Fulfil : labels.

Lemma bounded_memoryCall p tool id input : bounded_ (memoryCall p tool id input).
Proof. unfold memoryCall. observe. cbn zeta. observe. destruct b; observe. Qed.
#[local] Hint Resolve bounded_memoryCall : labels.

Lemma bounded_fulfilToolResult h p ev : bounded_ (fulfilToolResult h p ev).
Proof. unfold fulfilToolResult, admitMemoryCall. observe. Qed.

Lemma StatusForStopReason_known reason : StatusForStopReason reason ∈ vocabulary.
Proof. unfold StatusForStopReason. repeat case_match; auto with labels. Qed.
#[local] Hint Resolve bounded_fulfilToolResult StatusForStopReason_known : labels.

Lemma bounded_handle h p ev : bounded_ (handle h p ev).
Proof. unfold handle, dispatch, maybeFlushLastEventAt, finish, append. observe. Qed.
#[local] Hint Resolve bounded_handle : labels.

(** The status announced for a stream that just ends is one of the closure's. *)
Lemma bounded_closeUnfinished p : bounded_ (closeUnfinished p).
Proof.
  unfold closeUnfinished. apply respects_perform_bind; [done|]. intros at_ _.
  apply respects_perform_bind; [done|]. intros [status r] Hp.
  assert (status ∈ vocabulary) as Hs.
  { apply (Hp (λ s, s ∈ vocabulary)); [by left|]. intros c j Hc. unfold closeUpdate.
    repeat case_match; simplify_eq/=; auto with labels. }
  observe.
Qed.
#[local] Hint Resolve bounded_closeUnfinished : labels.

Lemma bounded_pumpRun h fuel p : bounded_ (pumpRun h fuel p).
Proof. revert p. induction fuel as [|f IH]; intros p; cbn [pumpRun]; [done|]. observe. Qed.
#[local] Hint Resolve bounded_pumpRun : labels.

Lemma bounded_runTask h fuel s : bounded_ (runTask h fuel s).
Proof. unfold runTask, registered, assigned, newPump. observe. Qed.

Lemma bounded_appendStatusEvent id st e : bounded_ (appendStatusEvent id st e).
Proof. unfold appendStatusEvent. observe. Qed.
#[local] Hint Resolve bounded_appendStatusEvent : labels.

Lemma bounded_transition id from to errText :
  to ∈ vocabulary → bounded_ (transition id from to errText).
Proof. intros Hto. unfold transition. observe. Qed.

Lemma bounded_launch j : bounded_ (launch j).
Proof.
  unfold launch. observe; apply bounded_transition; auto with labels.
Qed.
#[local] Hint Resolve bounded_launch : labels.

Lemma bounded_cancelUnassigned id : bounded_ (cancelUnassigned id).
Proof. unfold cancelUnassigned. observe. Qed.
#[local] Hint Resolve bounded_cancelUnassigned : labels.

Lemma bounded_Cancel id : bounded_ (Cancel id).
Proof. unfold Cancel, checked, cancelLive, registrySend. observe. Qed.

Lemma bounded_AnswerPermission id req allow reason :
  bounded_ (AnswerPermission id req allow reason).
Proof. unfold AnswerPermission, checked, registrySend. observe. Qed.

Lemma bounded_replay fuel id cursor : bounded_ (replay fuel id cursor).
Proof. revert cursor. induction fuel; intros cursor; cbn [replay]; observe. Qed.
#[local] Hint Resolve bounded_replay : labels.

Lemma bounded_Watch {Chan} (o : res Chan) fuel id a : bounded_ (Watch o fuel id a).
Proof. unfold Watch, checked. observe. Qed.

Lemma bounded_sweep r fuel : bounded_ (sweep r fuel).
Proof.
  unfold sweep, listAllJobs. apply respects_bind.
  { generalize (@nil Job) "". induction fuel; intros all tok; cbn [listPages]; observe. }
  intros [jobs|]; [|done]. unfold reapAwaitingHarness, reapRetention, when. observe.
  - induction jobs; cbn [reapAwaitingLoop]; unfold failStuckHarness, reaperAppendStatus; observe.
  - induction jobs; cbn [reapRetentionLoop]; observe.
Qed.

Lemma bounded_Run r fuel ticks : bounded_ (Run r fuel ticks).
Proof.
  unfold Run. apply respects_bind; [apply bounded_sweep|intros _].
  induction ticks; cbn [RunLoop]; observe. apply bounded_sweep.
Qed.

Lemma resolveConfig_profile ps p cfg profile :
  resolveConfig ps p = Ok (cfg, profile) → profile = "" ∨ is_Some (Get ps profile).
Proof.
  unfold resolveConfig. destruct (negb (sub_RunConfigJSON p ==? "")).
  - repeat case_match; intros; simplify_eq; by left.
  - set (name := if sub_Profile p ==? "" then Default ps else sub_Profile p). cbn zeta.
    case_match; [done|]. destruct (Get ps name) as [c|] eqn:E; [|done].
    intros [= <- <-]. right. by rewrite E.
Qed.

Lemma bounded_Submit sv p :
  (∀ name, is_Some (Get (sv_profiles sv) name) → name ∈ names) → bounded_ (Submit sv p).
Proof.
  intros Hn. unfold Submit, failSubmit.
  destruct (resolveConfig (sv_profiles sv) p) as [[cfg profile]|e] eqn:Hr.
  - assert (profile = "" ∨ profile ∈ names) as Hp.
    { apply resolveConfig_profile in Hr as [?|?]; auto. }
    clear Hr. observe; apply measured_JobSubmitted; auto with labels.
  - observe. apply measured_JobSubmitted; auto with labels.
Qed.

End labels.

Lemma elem_of_Names ps name : is_Some (Get ps name) → name ∈ Names ps.
Proof.
  unfold Get, Names. intros [c Hc]. rewrite merge_sort_Permutation.
  apply list_elem_of_fmap. exists (name, c). split; [done|]. by apply elem_of_map_to_list.
Qed.

(** Every operation of a process takes bounded measurements only. *)
Lemma bounded_operation `{UnicodeTables} `{ProtoJSON} sv p :
  operation sv p → respects (boundedAction (Names (sv_profiles sv))) p.
Proof.
  destruct 1; try apply bounded_sweep; try apply bounded_Run; apply respects_bind; try done;
    eauto using bounded_runTask, bounded_Cancel, bounded_AnswerPermission, bounded_Watch.
  - apply bounded_Submit. apply elem_of_Names.
  - unfold GetOp, checked. by destruct (checkID id).
  - unfold ListPermissionsOp, checked. by destruct (checkID id).
Qed.

Lemma act_measured {St} `{Store St} env names X (e : eff X) (w : World St) :
  boundedAction names X e → Forall (λ m, measured names m ∧ typed m) (w_metrics w) →
  Forall (λ m, measured names m ∧ typed m) (w_metrics (fst (actTick env e w))).
Proof.
  intros He Hw. unfold actTick. destruct w, e; cbn in *;
    unfold onStore, receive, transmit, sessionSend, transmit, trySend, wgUpdate; cbn in *;
    repeat case_match; simplify_eq/=; try done; apply Forall_app; split; [done|by apply Forall_and].
Qed.

Lemma points_measured {St : Type} `{StoreLaws St} `{UnicodeTables} `{ProtoJSON} (env : Env)
  (sv : Service) (c c' : World St * list (prog unit)) :
  Forall (operation sv) (snd c) → w_metrics (fst c) = [] → rtc (step env) c c' →
  Forall (λ m, measured (Names (sv_profiles sv)) m ∧ typed m) (w_metrics (fst c')).
Proof.
  intros Hops Hempty Hsteps.
  eapply (respects_invariant env (boundedAction (Names (sv_profiles sv)))
            (λ w, Forall (λ m, measured (Names (sv_profiles sv)) m ∧ typed m) (w_metrics w)));
    [|done|..].
  - intros. by apply act_measured.
  - eapply Forall_impl; [exact Hops|]. apply bounded_operation.
  - by rewrite Hempty.
Qed.

(** Every value on a metric attribute is drawn from a bounded set. Start the
    process with any harness streams, API calls and sweeps: under every
    interleaving, over any store that keeps its contract and whatever the harnesses
    and callers send, each measurement taken carries only labels of a fixed
    vocabulary, or, as the profile of a submission, the name of a profile the
    operator loaded. *)
Theorem metric_labels_bounded {St : Type} `{StoreLaws St} `{UnicodeTables} `{ProtoJSON} (env : Env)
  (sv : Service) (c c' : World St * list (prog unit))
  (Hops : Forall (operation sv) (snd c)) (Hempty : w_metrics (fst c) = [])
  (Hsteps : rtc (step env) c c') :
  Forall (measured (Names (sv_profiles sv))) (w_metrics (fst c')).
Proof.
  eapply Forall_impl; [by eapply points_measured|]. by intros m [? _].
Qed.

(** C28. Every data point is well typed and carries bounded labels only. Start the process
    with any harness streams, API calls and sweeps: under every interleaving, over any
    store that keeps its contract and whatever the harnesses and callers send, each
    measurement goes to an instrument that the recorder made, of the kind it is used as:
    counters are only increased, histograms are given positive durations, only the gauge of
    active sessions goes down. No attribute is set twice on a point, and its value is of a
    fixed vocabulary or, as the profile of a submission, the name of a profile the operator
    loaded. *)
Theorem data_points_well_typed {St : Type} `{StoreLaws St} `{UnicodeTables} `{ProtoJSON} (env : Env)
  (sv : Service) (c c' : World St * list (prog unit))
  (Hops : Forall (operation sv) (snd c)) (Hempty : w_metrics (fst c) = [])
  (Hsteps : rtc (step env) c c') :
  Forall (λ m, measured (Names (sv_profiles sv)) m ∧ typed m) (w_metrics (fst c')).
Proof. by eapply points_measured. Qed.

#[local] Existing Instance sample_tables.
#[local] Existing Instance sample_codec.

(** A harness that invents event types, memory tools and a stop reason. *)
Definition inventive_stream : list HarnessEvent :=
  [sample_ready; event_of_type "invented"; tool_event "r1" "drop_tables" "{}"; done_event "because"].

Definition inventive : World memStore * list (prog unit) :=
  (sample_world inventive_stream, [discard (runTask sample_handler 10 0)]).

Lemma data_points_well_typed_witness :
  Forall (λ m, measured (Names (sv_profiles (NewService None []))) m ∧ typed m)
    (w_metrics (fst (exec sample_env (replicate 80 0) inventive))).
Proof.
  apply (data_points_well_typed sample_env (NewService None []) inventive).
  - constructor; [by apply op_RunTask|constructor].
  - reflexivity.
  - apply exec_steps.
Defined.

(** The run does record them, under the catch-all label. *)
Example inventive_metrics :
  existsb (λ m, match m with Add _ _ attrs => bool_decide ("other" ∈ attrs.*2) | _ => false end)
    (w_metrics (fst (exec sample_env (replicate 80 0) inventive))) = true.
Proof. vm_compute. reflexivity. Qed.
