(* ===== verification/Settles.v ===== *)
(** * Every stream settles its job

    A reference account of what a harness stream amounts to: its text, its last
    error and its [done] event if it sent one.  The pump, which buffers, coalesces,
    flushes and caps as events arrive, terminates on every finite stream and leaves
    the job's record as the reference account says. *)

From stdpp Require Import base gmap list strings.
From S2P Require Import Prelude Fmt Job Proto Store.
From S2P Require Import Timeline Telemetry Registry Prog Memory Handler.
From S2P Require Import Pump PumpFacts MemStore MemStoreFacts Samples.

(** ** The reference account *)

(** Two different event types. *)
Ltac types_differ :=
  try intros ?; exfalso; unfold evReady, evTextDelta, evToolCall, evToolResult, evHeartbeat, evPermissionRequest,
    evError, evWarning, evDone, evSandboxTokenRequest, evBatchSubmission, evToolResultRequest in *;
  congruence.

(** The events up to the first [done], which ends the run. *)
Fixpoint beforeDone (evs : list HarnessEvent) : list HarnessEvent :=
  match evs with
  | [] => []
  | ev :: evs' => if he_Type ev ==? evDone then [] else ev :: beforeDone evs'
  end.

Definition doneEvent (evs : list HarnessEvent) : option HarnessEvent :=
  snd <$> list_find (λ ev, he_Type ev = evDone) evs.

(** All the text the harness sent. *)
Definition harnessText (evs : list HarnessEvent) : string :=
  foldr (λ ev acc, if he_Type ev ==? evTextDelta then he_Text ev +:+ acc else acc) ""
    (beforeDone evs).

(** The message of its last [error] event. *)
Definition lastError (evs : list HarnessEvent) : string :=
  foldl (λ acc ev, if he_Type ev ==? evError then he_Message ev else acc) "" (beforeDone evs).

Section settles.
Context `{UnicodeTables} `{ProtoJSON}.
Variable h : Handler.

(** The status, stop reason and error text a stream gives a live job: those of its
    [done] event, else those of a stream that broke off. *)
Definition verdict (evs : list HarnessEvent) (j : Job) : Status * string * string :=
  match doneEvent evs with
  | Some d =>
      (StatusForStopReason (he_StopReason d), he_StopReason d,
       if lastError evs ==? "" then j_Error j else lastError evs)
  | None =>
      if j_CancelRequested j then
        (StatusCancelled, if j_StopReason j ==? "" then "cancelled" else j_StopReason j, j_Error j)
      else
        (StatusFailed, j_StopReason j,
         if lastError evs ==? "" then "harness stream closed without done"
         else "harness stream closed without done; last error: " +:+ lastError evs)
  end.

(** The record a live job is left with. *)
Definition settledBy (evs : list HarnessEvent) (at_ : Time) (j : Job) : Job :=
  let '(status, stop, err) := verdict evs j in
  mkJob (j_ID j) status (j_Prompt j) (j_Profile j) (j_RunConfigJSON j) stop err
    (stake (h_maxFinalTextByte h) (harnessText evs)) (j_CreatedAt j) (j_StartedAt j) at_ at_
    (j_CancelRequested j) (j_TraceParent j) (j_HarnessToken j) (j_RepoScope j).

(** The same account, event by event, from a text and an error already seen. *)
Fixpoint digest (ft em : string) (evs : list HarnessEvent) : string * string * option HarnessEvent :=
  match evs with
  | [] => (ft, em, None)
  | ev :: evs' =>
      if he_Type ev ==? evTextDelta then
        digest (stake (h_maxFinalTextByte h) (ft +:+ he_Text ev)) em evs'
      else if he_Type ev ==? evDone then (ft, em, Some ev)
      else if he_Type ev ==? evError then digest ft (he_Message ev) evs'
      else digest ft em evs'
  end.

Lemma stake_stake_app n a b : stake n (stake n a +:+ b) = stake n (a +:+ b).
Proof.
  revert a. induction n as [|n IH]; intros [|c a]; try done. cbn [stake].
  rewrite !string_app_cons. cbn [stake]. by rewrite IH.
Qed.

Lemma stake_stake n a : stake n (stake n a) = stake n a.
Proof. pose proof (stake_stake_app n a "") as E. by rewrite !string_app_nil_r in E. Qed.

Lemma digest_spec ft em evs :
  stake (h_maxFinalTextByte h) ft = ft →
  digest ft em evs
  = (stake (h_maxFinalTextByte h) (ft +:+ harnessText evs),
     foldl (λ acc ev, if he_Type ev ==? evError then he_Message ev else acc) em (beforeDone evs),
     doneEvent evs).
Proof.
  unfold harnessText, doneEvent. revert ft em.
  induction evs as [|ev evs IH]; intros ft em Hft; cbn.
  { by rewrite string_app_nil_r, Hft. }
  destruct (decide (he_Type ev = evDone)) as [Hd|Hd].
  - rewrite (bool_decide_eq_false_2 (he_Type ev = evTextDelta)) by (rewrite Hd; done).
    rewrite bool_decide_eq_true_2 by done. cbn. by rewrite string_app_nil_r, Hft.
  - rewrite (bool_decide_eq_false_2 (he_Type ev = evDone)) by done.
    assert (snd <$> (prod_map S id <$> list_find (λ ev, he_Type ev = evDone) evs)
            = snd <$> list_find (λ ev, he_Type ev = evDone) evs) as ->
      by (by destruct (list_find _ _) as [[??]|]). cbn.
    repeat case_bool_decide; try types_differ; rewrite IH; try done.
    + by rewrite stake_stake_app, <-string_app_assoc.
    + apply stake_stake.
Qed.

(** ** What the pump's state remembers *)

(** The text kept is the reference text, cut. *)
Lemma appendFinalText_spec p text :
  len (p_finalText p) ≤ h_maxFinalTextByte h →
  p_finalText (appendFinalText h p text) = stake (h_maxFinalTextByte h) (p_finalText p +:+ text).
Proof.
  intros Hl. unfold appendFinalText. rewrite stake_app, (stake_ge _ (p_finalText p)) by done.
  destruct (Z.leb_spec (Z.of_nat (h_maxFinalTextByte h) - Z.of_nat (len (p_finalText p))) 0).
  - replace (h_maxFinalTextByte h - len (p_finalText p)) with 0 by lia. cbn.
    by rewrite string_app_nil_r.
  - destruct p; cbn in *. f_equal. case_match eqn:Hc.
    + f_equal. lia.
    + apply Z.ltb_ge in Hc. rewrite stake_ge; [done|lia].
Qed.

(** No restriction on actions. *)
Definition anything : policy := mkPolicy (λ _ _ _, True) (λ _ _ _, True).

(** The parts of the state one event leaves alone. *)
Definition keeps (p p' : eventPump) : Prop :=
  fixed p' = fixed p ∧ p_finalText p' = p_finalText p ∧ p_errMessage p' = p_errMessage p.

#[local] Instance keeps_refl : Reflexive keeps.
Proof. by intros p. Qed.

Lemma keeps_trans p1 p2 p3 : keeps p1 p2 → keeps p2 p3 → keeps p1 p3.
Proof. intros (?&?&?) (?&?&?). split_and!; congruence. Qed.

Ltac unfold_append := unfold appendProto, appendControl, append.

Lemma appendProto_any p ev at_ hist (Q : unit → list obs → Prop) :
  (∀ hist', Q tt hist') → wp anything hist (appendProto p ev at_) Q.
Proof. intros HQ. unfold_append. wp_peel; done. Qed.

Lemma appendControl_any p ev at_ hist (Q : unit → list obs → Prop) :
  (∀ hist', Q tt hist') → wp anything hist (appendControl p ev at_) Q.
Proof. intros HQ. unfold_append. wp_peel; done. Qed.

Lemma flushDeltas_keeps p hist (Q : eventPump → list obs → Prop) :
  (∀ p' hist', keeps p p' → Q p' hist') → wp anything hist (flushDeltas p) Q.
Proof.
  intros HQ. unfold flushDeltas. wp_peel; [by apply HQ|done|].
  apply wp_bind_intro, appendProto_any. intros. apply HQ. by destruct p.
Qed.

Lemma maybeFlush_keeps p now hist (Q : eventPump → list obs → Prop) :
  (∀ p' hist', keeps p p' → Q p' hist') → wp anything hist (maybeFlushLastEventAt h p now) Q.
Proof. intros HQ. unfold maybeFlushLastEventAt. wp_peel; try done; apply HQ; by destruct p. Qed.

Lemma putPermission_keeps p ev at_ hist (Q : eventPump → list obs → Prop) :
  (∀ p' hist', keeps p p' → Q p' hist') → wp anything hist (putPermission p ev at_) Q.
Proof. intros HQ. unfold putPermission. wp_peel; try done; apply HQ; by destruct p. Qed.

Lemma sandbox_keeps p ev hist (Q : eventPump → list obs → Prop) :
  (∀ p' hist', keeps p p' → Q p' hist') → wp anything hist (handleSandboxTokenRequest h p ev) Q.
Proof.
  intros HQ. unfold handleSandboxTokenRequest, sendSandboxTokenResponse.
  wp_peel; try done; apply HQ; by destruct p.
Qed.

Lemma fulfil_keeps p ev hist (Q : eventPump → list obs → Prop) :
  (∀ p' hist', keeps p p' → Q p' hist') → wp anything hist (fulfilToolResult h p ev) Q.
Proof.
  intros HQ. unfold fulfilToolResult. destruct (_ <? _); [by apply HQ|].
  assert (∀ refusal hist', wp anything hist'
    (perform (ETel (MemoryCall (he_ToolName ev) MemoryRefused 0));;
      sendToolResult p (he_RequestId ev) refusal true;; mret p) Q) as Hr.
  { intros refusal hist'. unfold sendToolResult. wp_peel; try done.
    apply appendControl_any. intros. by apply HQ. }
  apply wp_bind_intro. unfold admitMemoryCall. wp_peel; try done; try apply Hr.
  split; [done|]. apply HQ. by destruct p.
Qed.

(** The state after one event that is not [done]. *)
Definition absorbed (p : eventPump) (ev : HarnessEvent) (p' : eventPump) : Prop :=
  fixed p' = fixed p
  ∧ p_finalText p' = (if he_Type ev ==? evTextDelta
                      then p_finalText (appendFinalText h p (he_Text ev)) else p_finalText p)
  ∧ p_errMessage p' = (if he_Type ev ==? evError then he_Message ev else p_errMessage p).

Lemma keeps_absorbed p p1 p' ev :
  absorbed p ev p1 → keeps p1 p' → absorbed p ev p'.
Proof. intros (?&?&?) (?&?&?). split_and!; congruence. Qed.

Lemma appendFinalText_fields p text :
  fixed (appendFinalText h p text) = fixed p
  ∧ p_errMessage (appendFinalText h p text) = p_errMessage p.
Proof. unfold appendFinalText. repeat case_match; try done; by destruct p. Qed.

(** A type that is not [text_delta] leaves the text alone. *)
Lemma keeps_absorbed_other p ev p' :
  he_Type ev ≠ evTextDelta → he_Type ev ≠ evError → keeps p p' → absorbed p ev p'.
Proof. intros Ht He (?&?&?). unfold absorbed. by rewrite !bool_decide_eq_false_2. Qed.

Lemma dispatch_absorbs p ev now hist (Q : eventPump → list obs → Prop) :
  he_Type ev ≠ evTextDelta → (∀ p' hist', absorbed p ev p' → Q p' hist') →
  wp anything hist (dispatch h p ev now) Q.
Proof.
  intros Ht HQ.
  assert (∀ p' hist', he_Type ev ≠ evError → keeps p p' → Q p' hist') as HQ'.
  { intros. apply HQ. by apply keeps_absorbed_other. }
  unfold dispatch. repeat case_bool_decide; try types_differ; cbn [orb];
    try (apply wp_bind_intro, appendProto_any; intros; apply HQ'; [types_differ || done|done]).
  - unfold append. wp_peel; [done|]. apply HQ'; [types_differ|done].
  - apply wp_bind_intro, putPermission_keeps. intros p' hist' Hk.
    apply wp_bind_intro, appendProto_any. intros. apply HQ'; [types_differ|done].
  - apply wp_bind_intro, appendProto_any. intros. apply HQ. unfold absorbed.
    rewrite (bool_decide_eq_false_2 (he_Type ev = evTextDelta)), bool_decide_eq_true_2 by done.
    by destruct p.
  - apply wp_bind_intro, appendProto_any. intros. apply sandbox_keeps. intros.
    apply HQ'; [types_differ|done].
  - apply wp_bind_intro, appendProto_any. intros. apply fulfil_keeps. intros.
    apply HQ'; [types_differ|done].
  - apply HQ'; [types_differ|done].
Qed.

(** The buffering of a [text_delta] is absorbed too. *)
Lemma buffer_absorbs p ev now :
  he_Type ev = evTextDelta →
  let p1 := appendFinalText h (set_lastEventAt now p) (he_Text ev) in
  let p2 := if p_deltas p1 ==? "" then set_deltasFrom now p1 else p1 in
  absorbed p ev (set_deltas (p_deltas p2 +:+ he_Text ev) p2).
Proof.
  intros Ht p1 p2. destruct (appendFinalText_fields (set_lastEventAt now p) (he_Text ev)) as [Hf He].
  assert (p_finalText p1 = p_finalText (appendFinalText h p (he_Text ev))) as Hx
    by (subst p1; unfold appendFinalText; destruct p; cbn; repeat case_match; done).
  unfold absorbed. rewrite (bool_decide_eq_true_2 (he_Type ev = evTextDelta)) by done.
  rewrite (bool_decide_eq_false_2 (he_Type ev = evError)) by (rewrite Ht; done).
  subst p2. fold p1 in Hf, He. clearbody p1. destruct p1, p; cbn in *.
  case_bool_decide; cbn; naive_solver.
Qed.

Lemma handle_absorbs p ev hist :
  he_Type ev ≠ evDone →
  wp anything hist (handle h p ev) (λ '(p', dn) _, dn = false ∧ absorbed p ev p').
Proof.
  intros Hd. unfold handle. apply wp_perform_bind; [done|]. intros now.
  apply wp_perform_bind; [done|]. intros [].
  rewrite (bool_decide_eq_false_2 (he_Type ev = evDone)) by done.
  assert (∀ p2 hist', absorbed p ev p2 → wp anything hist'
    (p ← maybeFlushLastEventAt h p2 now; mret (p, false))
    (λ '(p', dn) _, dn = false ∧ absorbed p ev p')) as Hrest.
  { intros p2 hist' Ha. apply wp_bind_intro, maybeFlush_keeps. intros p3 ? Hk'.
    split; [done|]. by eapply keeps_absorbed. }
  case_bool_decide as Ht.
  - pose proof (buffer_absorbs p ev now Ht) as Ha. cbv zeta in Ha. apply wp_bind_intro.
    destruct (_ || _); [|by apply Hrest]. apply flushDeltas_keeps. intros. apply Hrest.
    by eapply keeps_absorbed.
  - apply wp_bind_intro, flushDeltas_keeps. intros p1 hist1 Hk1.
    apply wp_bind_intro, dispatch_absorbs; [done|]. intros p2 hist2 (?&?&?). apply Hrest.
    assert (keeps p p1) as (?&?&?) by (eapply keeps_trans; [|exact Hk1]; by destruct p).
    unfold absorbed. rewrite (bool_decide_eq_false_2 (he_Type ev = evTextDelta)) in * by done.
    case_bool_decide; split_and!; congruence.
Qed.

(** ** Actions that leave the jobs' outcomes and the streams' inputs alone *)

(** A record up to its liveness timestamp. *)
Definition erase (j : Job) : Job := set_LastEventAt 0 j.

Definition quiet (X : Type) (e : eff X) : Prop :=
  match e with
  | EUpdateJob _ fn _ => ∀ c j c' j', fn c j = (c', Ok j') → erase j' = erase j
  | ECreateJob _ | EDeleteJob _ | EReceive _ => False
  | _ => True
  end.

Ltac hush := permit; cbn [quiet]; try done.

Lemma quiet_append p ev : total quiet (append p ev).
Proof. unfold append. hush. Qed.

Lemma quiet_appendProto p ev at_ : total quiet (appendProto p ev at_).
Proof. unfold_append. hush. Qed.

Lemma quiet_appendControl p ev at_ : total quiet (appendControl p ev at_).
Proof. unfold_append. hush. Qed.

Lemma quiet_appendStatus id st at_ : total quiet (appendStatus id st at_).
Proof. unfold appendStatus. hush. Qed.

Lemma quiet_flushDeltas p : total quiet (flushDeltas p).
Proof. unfold flushDeltas. hush. apply quiet_appendProto. Qed.

Lemma quiet_maybeFlush p now : total quiet (maybeFlushLastEventAt h p now).
Proof. unfold maybeFlushLastEventAt. hush. intros ? j ? ? [= <- <-]. by destruct j. Qed.

Lemma quiet_sendToolResult p r content e : total quiet (sendToolResult p r content e).
Proof. unfold sendToolResult. hush. apply quiet_appendControl. Qed.

Lemma quiet_memoryCall p tool r input : total quiet (memoryCall p tool r input).
Proof.
  unfold memoryCall, Fulfil, fulfilSearch, fulfilSave, clientSave. hush;
    apply quiet_sendToolResult.
Qed.

Lemma quiet_dispatch p ev now : total quiet (dispatch h p ev now).
Proof.
  unfold dispatch, putPermission, handleSandboxTokenRequest, sendSandboxTokenResponse,
    fulfilToolResult, admitMemoryCall.
  hush; auto using quiet_append, quiet_appendProto, quiet_sendToolResult, quiet_memoryCall.
Qed.

Lemma quiet_handle p ev : he_Type ev ≠ evDone → total quiet (handle h p ev).
Proof.
  intros Hd. unfold handle. rewrite (bool_decide_eq_false_2 (he_Type ev = evDone)) by done.
  hush; auto using quiet_flushDeltas, quiet_maybeFlush, quiet_dispatch.
Qed.

(** ** Running the pump *)

(** How an account settles a record. *)
Definition settle (d : string * string * option HarnessEvent) (at_ lastEventAt : Time) (j : Job)
  : res Job :=
  let '(final, em, dn) := d in
  match dn with
  | Some ev =>
      finishUpdate (he_StopReason ev) (StatusForStopReason (he_StopReason ev)) final em at_ j
  | None => snd (closeUpdate final em at_ lastEventAt "" j)
  end.

(** The records, up to liveness, once the job has been settled. *)
Definition settleMap (d : string * string * option HarnessEvent) (at_ lastEventAt : Time)
  (id : string) (m : gmap string Job) : gmap string Job :=
  match m !! id with
  | Some j => match settle d at_ lastEventAt j with Ok j' => <[id := erase j']> m | Err _ => m end
  | None => m
  end.

Lemma erase_erase j : erase (erase j) = erase j.
Proof. by destruct j. Qed.

Lemma status_erase j : j_Status (erase j) = j_Status j.
Proof. by destruct j. Qed.

(** Settling does not look at the liveness timestamp. *)
Lemma settle_erase d at_ la j :
  match settle d at_ la j, settle d at_ la (erase j) with
  | Ok a, Ok b => erase a = erase b
  | Err _, Err _ => True
  | _, _ => False
  end.
Proof.
  destruct d as [[final em] [ev|]]; destruct j; cbn;
    unfold finishUpdate, closeUpdate; cbn; repeat (case_match; cbn in *; simplify_eq); done.
Qed.

Section runs.
Context {St : Type} `{StoreLaws St} (env : Env).
Implicit Type w : World St.

Definition inputs w : gmap nat (list HarnessEvent * error) :=
  (λ s, (st_in s, st_end s)) <$> w_streams w.

Definition records w : gmap string Job := erase <$> jobs w.

Definition same w w' : Prop := records w' = records w ∧ inputs w' = inputs w.

Lemma same_refl w : same w w.
Proof. done. Qed.

Lemma same_trans w1 w2 w3 : same w1 w2 → same w2 w3 → same w1 w3.
Proof. intros [??] [??]. split; congruence. Qed.

Lemma inputs_transmit id ev w : inputs (fst (transmit env id ev w)) = inputs w.
Proof.
  unfold transmit, inputs. destruct (env_send _ _ _); [done|].
  destruct (w_streams w !! id) as [[i e s]|] eqn:E; [|done]. destruct w; cbn in *.
  rewrite fmap_insert. apply insert_id. by rewrite lookup_fmap, E.
Qed.

Lemma act_inputs X (e : eff X) w :
  match e with EReceive _ => True | _ => inputs (fst (act env e w)) = inputs w end.
Proof.
  destruct e; try done; cbn; unfold onStore, trySend, wgUpdate, sessionClose;
    repeat case_match; try (by destruct w); try (by apply inputs_transmit).
  unfold sessionSend. destruct (w_sessions w !! sess) as [[st []]|]; try done.
  apply inputs_transmit.
Qed.

Lemma inputs_set_tick n w : inputs (set_tick n w) = inputs w.
Proof. by destruct w. Qed.

(** An update, on the records up to liveness. *)
Lemma act_update {C : Set} id (fn : updater C) c w :
  records (fst (actTick env (EUpdateJob id fn c) w))
  = match jobs w !! id with
    | Some j => match fn c j with
                | (_, Ok j') => <[id := erase j']> (records w)
                | (_, Err _) => records w
                end
    | None => records w
    end.
Proof.
  unfold actTick. cbn [act]. unfold onStore, records, jobs.
  pose proof (law_UpdateJob _ id fn c (w_store w)) as Hl.
  destruct (job_of (w_store w) !! id) as [j|].
  - destruct (fn c j) as [c' [j'|e]].
    + destruct Hl as (s' & -> & Hs). destruct w; cbn in *. by rewrite Hs, fmap_insert.
    + rewrite Hl. by destruct w.
  - destruct Hl as (e & -> & _). by destruct w.
Qed.

Lemma actTick_inputs X (e : eff X) w :
  match e with EReceive _ => True | _ => inputs (fst (actTick env e w)) = inputs w end.
Proof.
  pose proof (act_inputs X e w) as Hi. unfold actTick.
  destruct (act env e w) as [w' x]. cbn [fst] in *. destruct e; by rewrite ?inputs_set_tick.
Qed.

Lemma act_quiet X (e : eff X) w : quiet X e → same w (fst (actTick env e w)).
Proof.
  intros Hq. split; cycle 1.
  { pose proof (actTick_inputs X e w). by destruct e. }
  pose proof (act_jobs_other env X e w) as Ho.
  assert (jobs (fst (actTick env e w)) = jobs (fst (act env e w))) as Ht
    by (unfold actTick; destruct (act env e w); cbn [fst]; by rewrite jobs_set_tick).
  unfold records. destruct e; cbn [quiet] in Hq; try done; try (by rewrite Ht, Ho).
  change (records (fst (actTick env (EUpdateJob id fn c) w)) = records w).
  rewrite act_update. destruct (jobs w !! id) as [j|] eqn:Ej; [|done].
  destruct (fn c j) as [c' [j'|e]] eqn:Ef; [|done].
  rewrite (Hq _ _ _ _ Ef). apply insert_id. unfold records. by rewrite lookup_fmap, Ej.
Qed.

Lemma run_quiet {A} (p : prog A) w :
  total quiet p → ∃ w' ts a, run env p w = (w', ts, Done a) ∧ same w w'.
Proof.
  apply run_total; [apply same_refl|apply same_trans|]. intros. by apply act_quiet.
Qed.

(** A settling update followed by quiet bookkeeping. *)
Lemma run_settle {C : Set} {A} id (fn : updater C) c (k : C * res Job → prog A) d at_ la w :
  (∀ j, snd (fn c j) = settle d at_ la j) → (∀ x, total quiet (k x)) →
  ∃ w' ts a, run env (perform (EUpdateJob id fn c) ≫= k) w = (w', ts, Done a)
    ∧ records w' = settleMap d at_ la id (records w) ∧ inputs w' = inputs w.
Proof.
  intros Hfn Hk. rewrite run_bind, run_perform.
  pose proof (act_update id fn c w) as Hr.
  pose proof (actTick_inputs _ (EUpdateJob id fn c) w) as Hi. cbn in Hi.
  destruct (actTick env (EUpdateJob id fn c) w) as [w1 x]. cbn [fst] in *.
  destruct (run_quiet (k x) w1 (Hk x)) as (w' & ts & a & -> & Hs & Hi').
  exists w', ts, a. split; [done|]. split; [|congruence].
  rewrite Hs, Hr. unfold settleMap. unfold records at 4. rewrite lookup_fmap.
  destruct (jobs w !! id) as [j|]; [|done]. cbn [fmap option_fmap option_map].
  pose proof (settle_erase d at_ la j) as He. specialize (Hfn j).
  destruct (fn c j) as [c' r]. cbn [snd] in Hfn. subst r.
  destruct (settle d at_ la j), (settle d at_ la (erase j)); try done. by rewrite He.
Qed.

(** Chaining two runs. *)
Lemma run_then {A B} (p : prog A) (f : A → prog B) w w1 ts1 a w2 ts2 r :
  run env p w = (w1, ts1, Done a) → run env (f a) w1 = (w2, ts2, r) →
  run env (p ≫= f) w = (w2, ts1 ++ ts2, r).
Proof. intros E1 E2. by rewrite run_bind, E1, E2. Qed.

Lemma run_finish p ev at_ w :
  ∃ w' ts, run env (finish p ev at_) w = (w', ts, Done tt)
    ∧ records w' = settleMap (p_finalText p, p_errMessage p, Some ev) at_ 0 (p_jobID p) (records w)
    ∧ inputs w' = inputs w.
Proof.
  unfold finish. lazymatch goal with |- context [perform (EUpdateJob ?id ?fn ?c) ≫= ?k] =>
    destruct (run_settle id fn c k (p_finalText p, p_errMessage p, Some ev) at_ 0 w)
      as (w' & ts & [] & E & Hr & Hi); [done| |by eauto]
  end.
  intros [[] [j|e]]; hush; auto using quiet_appendProto, quiet_appendStatus.
Qed.

Lemma run_close p w :
  ∃ w' ts at_, run env (closeUnfinished p) w = (w', ts, Done tt)
    ∧ records w' = settleMap (p_finalText p, p_errMessage p, None) at_ (p_lastEventAt p)
        (p_jobID p) (records w)
    ∧ inputs w' = inputs w.
Proof.
  unfold closeUnfinished. rewrite run_bind, run_perform.
  pose proof (act_quiet _ ENow w I) as [Hq1 Hq2].
  destruct (actTick env ENow w) as [w1 at_]. cbn [fst] in *.
  lazymatch goal with |- context [perform (EUpdateJob ?id ?fn ?c) ≫= ?k] =>
    destruct (run_settle id fn c k (p_finalText p, p_errMessage p, None) at_ (p_lastEventAt p) w1)
      as (w' & ts & [] & E & Hr & Hi); [done| |]
  end.
  { intros [status [j|e]]; hush; auto using quiet_appendStatus. }
  exists w', ts, at_. rewrite E. split; [done|]. split; congruence.
Qed.

(** The [done] event. *)
Lemma run_handle_done p ev w :
  he_Type ev = evDone →
  ∃ w' ts p' at_, run env (handle h p ev) w = (w', ts, Done (p', true))
    ∧ records w' = settleMap (p_finalText p, p_errMessage p, Some ev) at_ 0 (p_jobID p) (records w).
Proof.
  intros Hd. unfold handle. rewrite run_bind, run_perform.
  pose proof (act_quiet _ ENow w I) as [Hq1 _].
  destruct (actTick env ENow w) as [w1 at_]. cbn [fst] in *.
  rewrite run_bind, run_perform.
  pose proof (act_quiet _ (ETel (HarnessEventSeen (he_Type ev))) w1 I) as [Hq2 _].
  destruct (actTick env (ETel _) w1) as [w2 []]. cbn [fst] in *.
  rewrite (bool_decide_eq_false_2 (he_Type ev = evTextDelta)) by (rewrite Hd; done).
  rewrite (bool_decide_eq_true_2 (he_Type ev = evDone)) by done.
  destruct (run_quiet (flushDeltas (set_lastEventAt at_ p)) w2 (quiet_flushDeltas _))
    as (w3 & ts3 & p3 & E3 & Hr3 & _).
  destruct (wp_run env anything _ [] (λ p' _, keeps (set_lastEventAt at_ p) p') _ _ _ _
    (flushDeltas_keeps _ _ _ (λ _ _ Hk, Hk)) E3) as [_ (Hf & Ht & He)].
  destruct (run_finish p3 ev at_ w3) as (w4 & ts4 & E4 & Hr4 & _).
  exists w4, (ts3 ++ ts4), p3, at_. split.
  - rewrite run_bind, E3, run_bind, E4. cbn. by rewrite app_nil_r.
  - assert (p_jobID p3 = p_jobID p) as Hid
      by (unfold fixed in Hf; destruct p; cbn in *; naive_solver).
    rewrite Hr4, Ht, He, Hid, Hr3, Hq2, Hq1. by destruct p.
Qed.

Lemma receive_next p w ev evs e sent :
  w_streams w !! p_stream p = Some (mkStream (ev :: evs) e sent) →
  ∃ w1, actTick env (EReceive (p_stream p)) w = (w1, Ok ev)
    ∧ w_streams w1 !! p_stream p = Some (mkStream evs e sent) ∧ records w1 = records w.
Proof.
  intros Hs. unfold actTick. cbn [act]. unfold receive. rewrite Hs. eexists. split; [done|].
  destruct w; cbn in *. split; [|done]. by rewrite lookup_insert_eq.
Qed.

(** The stream a pump reads, after actions that read nothing from it. *)
Lemma inputs_lookup w w' s evs e sent :
  inputs w' = inputs w → w_streams w !! s = Some (mkStream evs e sent) →
  ∃ sent', w_streams w' !! s = Some (mkStream evs e sent').
Proof.
  intros Hi Hs. apply (f_equal (λ m, m !! s)) in Hi. unfold inputs in Hi.
  rewrite !lookup_fmap, Hs in Hi. destruct (w_streams w' !! s) as [[i' e' s']|]; [|done].
  cbn in Hi. simplify_eq. by eexists.
Qed.

Lemma pumpRun_settles evs fuel p w e sent :
  length evs < fuel → len (p_finalText p) ≤ h_maxFinalTextByte h →
  w_streams w !! p_stream p = Some (mkStream evs e sent) →
  ∃ w' ts at_ la, run env (pumpRun h fuel p) w = (w', ts, Done tt)
    ∧ records w' = settleMap (digest (p_finalText p) (p_errMessage p) evs) at_ la (p_jobID p)
                     (records w).
Proof.
  revert fuel p w sent. induction evs as [|ev evs IH]; intros [|f] p w sent Hfuel Hl Hs;
    try (cbn in Hfuel; lia); cbn [pumpRun].
  - rewrite run_bind, run_perform.
    assert (actTick env (EReceive (p_stream p)) w = (set_tick (S (w_tick w)) w, Err e)) as ->
      by (unfold actTick; cbn [act]; unfold receive; by rewrite Hs).
    set (w0 := set_tick _ w). assert (records w0 = records w) as Hr0 by (by destruct w).
    destruct (run_quiet (flushDeltas p) w0 (quiet_flushDeltas _)) as (w1 & ts1 & p1 & E1 & Hr1 & _).
    destruct (wp_run env anything _ [] (λ p' _, keeps p p') _ _ _ _
      (flushDeltas_keeps _ _ _ (λ _ _ Hk, Hk)) E1) as [_ (Hf & Ht & He)].
    destruct (run_close p1 w1) as (w2 & ts2 & at_ & E2 & Hr2 & _).
    exists w2, (ts1 ++ ts2), at_, (p_lastEventAt p1). rewrite run_bind, E1, E2. split; [done|].
    assert (p_jobID p1 = p_jobID p) as Hid by (unfold fixed in Hf; naive_solver).
    by rewrite Hr2, Ht, He, Hid, Hr1, Hr0.
  - destruct (receive_next p w ev evs e sent Hs) as (w1 & E1 & Hs1 & Hr1).
    rewrite run_bind, run_perform, E1. cbn [digest].
    destruct (decide (he_Type ev = evDone)) as [Hd|Hd].
    + destruct (run_handle_done p ev w1 Hd) as (w2 & ts2 & p2 & at_ & E2 & Hr2).
      exists w2, ts2, at_, 0%Z. rewrite run_bind, E2. cbn. rewrite app_nil_r. split; [done|].
      rewrite (bool_decide_eq_false_2 (he_Type ev = evTextDelta)) by (rewrite Hd; done).
      rewrite (bool_decide_eq_true_2 (he_Type ev = evDone)) by done. by rewrite Hr2, Hr1.
    + destruct (run_quiet (handle h p ev) w1 (quiet_handle p ev Hd))
        as (w2 & ts2 & [p2 dn] & E2 & Hr2 & Hi2).
      destruct (wp_run env anything _ [] _ _ _ _ _ (handle_absorbs p ev [] Hd) E2)
        as [_ [-> (Hf & Ht & He)]].
      assert (p_jobID p2 = p_jobID p ∧ p_stream p2 = p_stream p) as [Hid Hst]
        by (unfold fixed in Hf; naive_solver).
      destruct (inputs_lookup _ _ _ _ _ _ Hi2 Hs1) as [sent' Hs2]. rewrite <-Hst in Hs2.
      assert (p_finalText p2 = if he_Type ev ==? evTextDelta
        then stake (h_maxFinalTextByte h) (p_finalText p +:+ he_Text ev) else p_finalText p) as Ht'
        by (rewrite Ht; destruct (he_Type ev ==? evTextDelta); [by apply appendFinalText_spec|done]).
      edestruct (IH f p2 w2 sent') as (w3 & ts3 & at_ & la & E3 & Hr3);
        [cbn in Hfuel; lia| |exact Hs2|].
      { rewrite Ht'. destruct (he_Type ev ==? evTextDelta); [rewrite len_stake; lia|done]. }
      exists w3, (ts2 ++ ts3), at_, la. rewrite run_bind, E2, E3. split; [done|].
      rewrite Hr3, Ht', He, Hid, Hr2, Hr1. clear He Ht Ht' Hr3.
      rewrite (bool_decide_eq_false_2 (he_Type ev = evDone)) by done.
      repeat case_bool_decide; try types_differ; done.
Qed.

(** The code's two settlements of a live record are the account's. *)
Lemma settle_live evs at_ la j :
  Terminal (j_Status j) = false →
  ∃ j', settle (stake (h_maxFinalTextByte h) (harnessText evs), lastError evs, doneEvent evs) at_ la j
        = Ok j' ∧ erase j' = erase (settledBy evs at_ j) ∧ Terminal (j_Status j') = true.
Proof.
  intros Ht. unfold settle, settledBy, verdict. destruct (doneEvent evs) as [d|]; destruct j; cbn in *;
    unfold finishUpdate, closeUpdate; cbn; rewrite Ht; cbn.
  - eexists. split_and!; [done|by case_bool_decide|].
    case_bool_decide; cbn; apply StatusForStopReason_terminal.
  - repeat case_match; simplify_eq/=; by eexists.
Qed.

(** The pump on a whole stream: the records, up to liveness, after it. *)
Lemma pumpRun_records evs fuel p w e sent j :
  length evs < fuel → p_finalText p = "" → p_errMessage p = "" →
  w_streams w !! p_stream p = Some (mkStream evs e sent) →
  jobs w !! p_jobID p = Some j → Terminal (j_Status j) = false →
  ∃ w' ts at_, run env (pumpRun h fuel p) w = (w', ts, Done tt)
    ∧ records w' = <[p_jobID p := erase (settledBy evs at_ j)]> (records w)
    ∧ Terminal (j_Status (settledBy evs at_ j)) = true.
Proof.
  intros Hfuel Hft Hem Hs Hj Hlive.
  destruct (pumpRun_settles evs fuel p w e sent) as (w' & ts & at_ & la & E & Hr);
    [done|rewrite Hft; cbn; lia|done|].
  rewrite Hft, Hem, digest_spec in Hr by (by destruct (h_maxFinalTextByte h)).
  change ("" +:+ harnessText evs) with (harnessText evs) in Hr.
  fold (lastError evs) in Hr. set (d := (stake _ _, _, _)) in Hr. unfold settleMap in Hr.
  assert (records w !! p_jobID p = Some (erase j)) as Hrj
    by (unfold records; by rewrite lookup_fmap, Hj).
  rewrite Hrj in Hr.
  destruct (settle_live evs at_ la j Hlive) as (j1 & E1 & Hs1 & Ht1). change (settle d at_ la j = Ok j1) in E1.
  pose proof (settle_erase d at_ la j) as He. rewrite E1 in He.
  destruct (settle d at_ la (erase j)) as [j2|]; [|done].
  exists w', ts, at_. split_and!; [done|by rewrite Hr, <-He, Hs1|].
  apply (f_equal j_Status) in Hs1. rewrite !status_erase in Hs1. by rewrite <-Hs1.
Qed.

(** What the records say of a job. *)
Lemma records_lookup w id j :
  records w !! id = Some (erase j) → ∃ j', jobs w !! id = Some j' ∧ erase j' = erase j.
Proof.
  unfold records. rewrite lookup_fmap. destruct (jobs w !! id) as [j'|]; [|done].
  intros [= E]. by exists j'.
Qed.

(** ** Properties *)

(** C8. Every finite harness stream settles its job. On a stream of [n] events, fuel
    above [n] is enough for the pump to return, and it leaves the record of a live
    job as the reference account of the stream says: terminal; with the status
    and stop reason of the first [done] event and the last error, or, without one, cancelled
    if that was asked for and failed otherwise, saying why; and with a final text that is the
    text of all the deltas cut at the cap. No other job's outcome changes. *)
Theorem stream_settles_job (evs : list HarnessEvent) (fuel : nat) (p : eventPump) (w : World St)
  (e : error) (sent : list ControlEvent) (j : Job)
  (Hfuel : length evs < fuel) (Hnew : p_finalText p = "" ∧ p_errMessage p = "")
  (Hs : w_streams w !! p_stream p = Some (mkStream evs e sent))
  (Hj : jobs w !! p_jobID p = Some j) (Hlive : Terminal (j_Status j) = false) :
  ∃ w' ts at_ j', run env (pumpRun h fuel p) w = (w', ts, Done tt)
    ∧ jobs w' !! p_jobID p = Some j' ∧ erase j' = erase (settledBy evs at_ j)
    ∧ Terminal (j_Status j') = true
    ∧ ∀ id, id ≠ p_jobID p → erase <$> jobs w' !! id = erase <$> jobs w !! id.
Proof.
  destruct Hnew as [Hft Hem].
  destruct (pumpRun_records evs fuel p w e sent j) as (w' & ts & at_ & E & Hr & Ht); [done..|].
  destruct (records_lookup w' (p_jobID p) (settledBy evs at_ j)) as (j' & Hj' & He);
    [by rewrite Hr, lookup_insert_eq|].
  exists w', ts, at_, j'. split_and!; try done.
  - by rewrite <-status_erase, He, status_erase.
  - intros id Hne. apply (f_equal (λ m, m !! id)) in Hr. cbn in Hr.
    rewrite lookup_insert_ne in Hr by done. unfold records in Hr. by rewrite !lookup_fmap in Hr.
Qed.

End runs.

End settles.

#[local] Existing Instance sample_tables.
#[local] Existing Instance sample_codec.

(** A harness that says hello, reports an error and succeeds. *)
Definition hello_stream : list HarnessEvent :=
  [text_event "Hel"; text_event "lo"; permission_event "p1" "bash"; done_event "success";
   text_event "ignored"].

Lemma stream_settles_job_witness :
  ∃ w' ts at_ j',
    run sample_env (pumpRun sample_handler 6 sample_pump) (sample_assigned hello_stream)
      = (w', ts, Done tt)
    ∧ jobs w' !! sample_id = Some j'
    ∧ erase j' = erase (settledBy sample_handler hello_stream at_ sample_stored)
    ∧ Terminal (j_Status j') = true
    ∧ ∀ id, id ≠ sample_id →
        erase <$> jobs w' !! id = erase <$> jobs (sample_assigned hello_stream) !! id.
Proof.
  apply (stream_settles_job sample_handler sample_env hello_stream 6 sample_pump
    (sample_assigned hello_stream) EOF [] sample_stored); try reflexivity.
  - cbn. lia.
  - split; reflexivity.
Defined.
