(* ===== verification/Journey.v ===== *)
(** * From a submission to its outcome

    The components put together along the life of one run: [Submit] stores a job and
    starts its launch ([internal/service]); the launch hands the job to the launcher,
    whose container carries the job's session string ([internal/launcher]); the harness
    dials back with it, is assigned the config that was submitted, and its stream settles
    the job ([internal/controlplane]).  Each part is run from the world the one before
    left. *)

From stdpp Require Import base gmap list strings.
From S2P Require Import Prelude Fmt Job Proto Store Telemetry Registry Prog Memory Handler Pump.
From S2P Require Import Samples PumpFacts ControlPlane RunConfigs Config Launcher LauncherFacts.
From S2P Require Import Service MemStore MemStoreFacts ServiceFacts Settles.

Section serving.
Context {St : Type} `{StoreLaws St} `{UnicodeTables} `{ProtoJSON} (env : Env).
Implicit Type w : World St.

(** ** What the operations see of a world *)

Definition view w : gmap string Job * Registry * gmap nat session * gmap nat stream :=
  (jobs w, w_reg w, w_sessions w, w_streams w).

(** Actions beside all that. *)
Definition aside (X : Type) (e : eff X) : Prop :=
  match e with
  | EAppendEvent _ _ | ENow | EUlid | ERandRead | ENewChan _ | ETel _ | ETraceParent
  | EWgAdd _ | EWgDone _ | ELaunch _ => True
  | _ => False
  end.

Lemma act_aside X (e : eff X) w : aside X e → view (fst (actTick env e w)) = view w.
Proof.
  intros He. pose proof (act_bookkeeping env X e w) as Hj. unfold view.
  rewrite Hj by (by destruct e). unfold actTick. clear Hj.
  destruct e; try done; destruct w; cbn; unfold onStore; cbn; try done; [|by destruct wg..].
  by destruct (AppendEvent _ _ _ _).
Qed.

Lemma runsTo_aside {A B} (p : prog A) (f : A → prog B) w (Φ : B → World St → Prop) :
  total aside p → (∀ a w', view w' = view w → runsTo env (f a) w' Φ) → runsTo env (p ≫= f) w Φ.
Proof.
  intros Hp Hf. apply runsTo_bind.
  destruct (run_total env aside (λ w w', view w' = view w) p w) as (w' & ts & a & E & Hv);
    [done|congruence|intros; by apply act_aside|done|].
  exists w', ts, a. auto.
Qed.

(** ** The actions that count, on the view *)

Lemma runsTo_receive {B} s ev evs e sent js rg ss sts (f : res HarnessEvent → prog B) w
  (Φ : B → World St → Prop) :
  view w = (js, rg, ss, sts) → sts !! s = Some (mkStream (ev :: evs) e sent) →
  (∀ w', view w' = (js, rg, ss, <[s := mkStream evs e sent]> sts) → runsTo env (f (Ok ev)) w' Φ) →
  runsTo env (perform (EReceive s) ≫= f) w Φ.
Proof.
  intros [= <- <- <- <-] Hs Hf. apply runsTo_act. unfold actTick. cbn [act]. unfold receive.
  rewrite Hs. cbn [fst snd]. apply Hf. by destruct w.
Qed.

Lemma runsTo_get {B} id j js rg ss sts (f : res Job → prog B) w (Φ : B → World St → Prop) :
  view w = (js, rg, ss, sts) → js !! id = Some j →
  (∀ w', view w' = (js, rg, ss, sts) → runsTo env (f (Ok j)) w' Φ) →
  runsTo env (perform (EGetJob id) ≫= f) w Φ.
Proof.
  intros [= <- <- <- <-] Hj Hf. apply runsTo_act. unfold actTick. cbn [act fst snd].
  pose proof (law_GetJob id (w_store w)) as Hl. unfold jobs in Hj. rewrite Hj in Hl. rewrite Hl.
  apply Hf. by destruct w.
Qed.

Lemma runsTo_newSession {B} s js rg ss sts (f : nat → prog B) w (Φ : B → World St → Prop) :
  view w = (js, rg, ss, sts) →
  (∀ a w', view w' = (js, rg, <[a := mkSession s false]> ss, sts) → runsTo env (f a) w' Φ) →
  runsTo env (perform (ENewSession s) ≫= f) w Φ.
Proof.
  intros [= <- <- <- <-] Hf. apply runsTo_act. unfold actTick. cbn [act fst snd]. apply Hf. by destruct w.
Qed.

Lemma runsTo_register {B} id sess js rg ss sts (f : res unit → prog B) w (Φ : B → World St → Prop) :
  view w = (js, rg, ss, sts) → rg !! id = None →
  (∀ w', view w' = (js, <[id := sess]> rg, ss, sts) → runsTo env (f (Ok tt)) w' Φ) →
  runsTo env (perform (ERegister id sess) ≫= f) w Φ.
Proof.
  intros [= <- <- <- <-] Hr Hf. apply runsTo_act. unfold actTick. cbn [act]. unfold Register.
  rewrite Hr. cbn [fst snd]. apply Hf. by destruct w.
Qed.

Lemma runsTo_send {B} sess s ev i e sent js rg ss sts (f : res unit → prog B) w
  (Φ : B → World St → Prop) :
  (∀ n, env_send env n s = None) →
  view w = (js, rg, ss, sts) → ss !! sess = Some (mkSession s false) →
  sts !! s = Some (mkStream i e sent) →
  (∀ w', view w' = (js, rg, ss, <[s := mkStream i e (sent ++ [ev])]> sts) → runsTo env (f (Ok tt)) w' Φ) →
  runsTo env (perform (ESessionSend sess ev) ≫= f) w Φ.
Proof.
  intros Hsend [= <- <- <- <-] Hss Hs Hf. apply runsTo_act. unfold actTick. cbn [act].
  unfold sessionSend, transmit. rewrite Hss, Hsend, Hs. cbn [fst snd]. apply Hf. by destruct w.
Qed.

Lemma runsTo_rewrite {C : Set} {B} id (fn : updater C) c j js rg ss sts (f : C * res Job → prog B) w
  (Φ : B → World St → Prop) :
  view w = (js, rg, ss, sts) → js !! id = Some j →
  (∀ w', view w' = (match snd (fn c j) with Ok j' => <[id := j']> js | Err _ => js end, rg, ss, sts) →
     runsTo env (f (fn c j)) w' Φ) →
  runsTo env (perform (EUpdateJob id fn c) ≫= f) w Φ.
Proof.
  intros [= <- <- <- <-] Hj Hf. eapply runsTo_update; [exact Hj|]. intros w' E1 E2 E3 E4.
  apply Hf. unfold view. by rewrite E1, E2, E3, E4.
Qed.

(** The deferred release of a session. *)
Lemma runsTo_release {B} id sess (f : unit → prog B) w (Φ : B → World St → Prop) :
  w_reg w !! id = Some sess →
  (∀ w', jobs w' = jobs w → w_reg w' = delete id (w_reg w) → w_streams w' = w_streams w →
     runsTo env (f tt) w' Φ) →
  runsTo env (perform (ESessionClose sess);; (perform (EUnregister id sess) ≫= f)) w Φ.
Proof.
  intros Hr Hf. apply runsTo_act. cbn [actTick act fst snd]. apply runsTo_act.
  cbn [actTick act fst snd]. apply Hf; destruct w; try done. cbn in *. unfold Unregister. rewrite Hr.
  by rewrite bool_decide_eq_true_2.
Qed.

(** ** The pump, on the registry and on what is sent *)

(** The registry is as it was, and what was sent on the stream since is no assignment. *)
Definition serving (s : nat) w w' : Prop :=
  w_reg w' = w_reg w
  ∧ ∀ i e sent, w_streams w !! s = Some (mkStream i e sent) →
      ∃ i' rest, w_streams w' !! s = Some (mkStream i' e (sent ++ rest))
        ∧ Forall (λ ev, ce_Type ev ≠ ctlTaskAssignment) rest.

#[local] Instance serving_preorder s : PreOrder (serving s).
Proof.
  split.
  - intros w. split; [done|]. intros i e sent Hs. exists i, []. by rewrite app_nil_r.
  - intros w1 w2 w3 [E1 S1] [E2 S2]. split; [congruence|]. intros i e sent Hs.
    destruct (S1 _ _ _ Hs) as (i1 & r1 & Hs1 & F1). destruct (S2 _ _ _ Hs1) as (i2 & r2 & Hs2 & F2).
    exists i2, (r1 ++ r2). rewrite app_assoc. split; [done|]. by apply Forall_app.
Qed.

Lemma serving_untouched s w w' : w_reg w' = w_reg w → w_streams w' = w_streams w → serving s w w'.
Proof.
  intros Er Es. split; [done|]. rewrite Es. intros i e sent Hs. exists i, []. by rewrite app_nil_r.
Qed.

(** One stream changed. *)
Lemma serving_insert s st i e sent i' rest w w' :
  w_reg w' = w_reg w → w_streams w !! st = Some (mkStream i e sent) →
  w_streams w' = <[st := mkStream i' e (sent ++ rest)]> (w_streams w) →
  Forall (λ ev, ce_Type ev ≠ ctlTaskAssignment) rest → serving s w w'.
Proof.
  intros Er Hst Es Hr. split; [done|]. rewrite Es. intros i0 e0 sent0 Hs.
  destruct (decide (st = s)) as [->|].
  - rewrite lookup_insert_eq. rewrite Hst in Hs. simplify_eq. by exists i', rest.
  - rewrite lookup_insert_ne by done. exists i0, []. by rewrite app_nil_r.
Qed.

Lemma pump_act_serving (h : Handler) p0 s hist w X (e : eff X) :
  on_act (pumpPolicy h p0) hist X e → serving s w (fst (actTick env e w)).
Proof.
  unfold actTick. destruct w as [a b c d ch f g hm n].
  destruct e; cbn; try done; intros Ha; unfold onStore, receive, sessionSend, transmit, trySend; cbn;
    repeat case_match; simplify_eq/=; try (by apply serving_untouched).
  - eapply (serving_insert _ (p_stream p0) _ _ st_sent _ []); cbn; [done|done|by rewrite app_nil_r|done].
  - eapply serving_insert; cbn; [done|done|done|]. apply Forall_singleton. by destruct Ha.
Qed.

(** ** A stream of a job that waits for its harness *)

(** What the harness is sent first. *)
Definition assignment (cfg : RunConfig) : ControlEvent :=
  mkControlEvent ctlTaskAssignment (Some cfg) "" "" None "" "" None "" None.

(** The record once the harness has been given its task. *)
Definition claimedAt (started : Time) (j : Job) : Job :=
  set_LastEventAt started (set_StartedAt started (set_Status StatusRunning j)).

(** What serving [evs] leaves behind. *)
Definition outcomeOf (h : Handler) (s : nat) id j cfg evs e sent w w' : Prop :=
  w_reg w' = w_reg w
  ∧ (∃ i rest, w_streams w' !! s = Some (mkStream i e (sent ++ assignment cfg :: rest))
       ∧ Forall (λ ev, ce_Type ev ≠ ctlTaskAssignment) rest)
  ∧ ∃ started at_, Terminal (j_Status (settledBy h evs at_ (claimedAt started j))) = true
      ∧ records w' = <[id := erase (settledBy h evs at_ (claimedAt started j))]> (records w).

Lemma aside_appendStatus id st at_ : total aside (appendStatus id st at_).
Proof. unfold appendStatus. permit. done. Qed.

(** From the running transition on. *)
Lemma assigned_serves (h : Handler) (fuel s sess : nat) w evs e sent id j cfg :
  Terminal (j_Status j) = false → jobs w !! id = Some j →
  w_streams w !! s = Some (mkStream evs e sent) → length evs < fuel →
  runsTo env (assigned h fuel s sess id j cfg) w (λ r w', r = Ok tt ∧ serving s w w'
    ∧ ∃ started at_, Terminal (j_Status (settledBy h evs at_ (claimedAt started j))) = true
        ∧ records w' = <[id := erase (settledBy h evs at_ (claimedAt started j))]> (records w)).
Proof.
  intros Hterm Hj Hs Hfuel. unfold assigned. apply runsTo_aside; [by permit|].
  intros started w1 Hv1. eapply runsTo_rewrite; [exact Hv1|exact Hj|]. intros w2 Hv2. revert Hv2.
  unfold pureUpdater, runningUpdate. rewrite Hterm. cbn [snd]. fold (claimedAt started j). intros Hv2.
  apply runsTo_aside; [apply aside_appendStatus|]. intros [] w3 Hv3. apply runsTo_bind.
  unfold newPump. apply runsTo_aside; [by permit|]. intros now w4 Hv4.
  apply runsTo_aside; [by permit|]. intros ch w5 Hv5. apply runsTo_ret. cbv zeta.
  set (p := set_sandboxIdentityDeclared _ _).
  assert (view w5 = (<[id := claimedAt started j]> (jobs w), w_reg w, w_sessions w, w_streams w)) as Hv
    by congruence.
  injection Hv as Ejobs Ereg _ Estr.
  destruct (pumpRun_records h env evs fuel p w5 e sent (claimedAt started j))
    as (w' & ts & at_ & E & Hr & Ht); [done..|by rewrite Estr| |by destruct j|].
  { rewrite Ejobs. apply lookup_insert_eq. }
  assert (serving s w5 w') as Hserving.
  { eapply wp_run_keeps; [apply serving_preorder| | |exact E].
    - intros hist w0 X a. apply pump_act_serving.
    - apply (pumpRun_wp h p fuel p [] (λ _ _, True)); [by apply fresh_inv|done]. }
  apply runsTo_bind. exists w', ts, tt. split; [exact E|]. apply runsTo_ret. split_and!; [done| |].
  - etransitivity; [|exact Hserving]. by apply serving_untouched.
  - exists started, at_. split; [done|]. rewrite Hr. unfold records. rewrite Ejobs, fmap_insert.
    by rewrite insert_insert_eq.
Qed.

Lemma registered_serves (h : Handler) (fuel s sess : nat) w evs e sent id j cfg :
  parseRunConfig (j_RunConfigJSON j) = Ok cfg → Terminal (j_Status j) = false →
  jobs w !! id = Some j → w_sessions w !! sess = Some (mkSession s false) →
  w_streams w !! s = Some (mkStream evs e sent) →
  (∀ n, env_send env n s = None) → length evs < fuel →
  runsTo env (registered h fuel s sess id j) w (λ r w', r = Ok tt ∧ outcomeOf h s id j cfg evs e sent w w').
Proof.
  intros Hcfg Hterm Hj Hsess Hs Hsend Hfuel. unfold registered. rewrite Hcfg. cbv iota.
  eapply runsTo_send; [exact Hsend|done|exact Hsess|exact Hs|]. intros w1 Hv1. cbv iota.
  apply runsTo_aside; [by permit|]. intros [] w2 Hv2. apply runsTo_aside; [by permit|].
  intros [] w3 Hv3. apply runsTo_bind. rewrite Hv2, Hv1 in Hv3. injection Hv3 as Ejobs Ereg _ Estr.
  eapply runsTo_mono; [|eapply (assigned_serves h fuel s sess w3 evs e); [done|by rewrite Ejobs| |done]];
    [|by rewrite Estr, lookup_insert_eq].
  cbv beta. intros r w4 (-> & [Hreg Hsent] & started & at_ & Ht & Hr). apply runsTo_aside; [by permit|].
  intros [] w5 Hv5. injection Hv5 as Ejobs5 Ereg5 _ Estr5. apply runsTo_ret. split; [done|].
  split_and!; [congruence| |].
  - destruct (Hsent evs e _ ltac:(by rewrite Estr, lookup_insert_eq)) as (i & rest & Hi & Hrest).
    exists i, rest. rewrite Estr5, Hi, <-app_assoc. by split.
  - exists started, at_. split; [done|]. unfold records in *. by rewrite Ejobs5, Hr, Ejobs.
Qed.

(** A harness that presents the session of a job that waits for it is served to the end. *)
Lemma runTask_serves (h : Handler) (fuel s : nat) w ready evs e sent id token j cfg :
  he_Type ready = evReady → ParseSession (he_Id ready) = (id, token) → id ≠ "" →
  jobs w !! id = Some j → AcceptsToken j token = true →
  Terminal (j_Status j) = false → j_CancelRequested j = false →
  parseRunConfig (j_RunConfigJSON j) = Ok cfg →
  w_reg w !! id = None → w_streams w !! s = Some (mkStream (ready :: evs) e sent) →
  (∀ n, env_send env n s = None) → length evs < fuel →
  runsTo env (runTask h fuel s) w (λ r w', r = Ok tt ∧ outcomeOf h s id j cfg evs e sent w w').
Proof.
  intros Hready Hsession Hid Hj Htok Hterm Hcan Hcfg Hreg Hs Hsend Hfuel.
  unfold runTask. eapply runsTo_receive; [reflexivity|exact Hs|]. intros w1 Hv1.
  rewrite Hready, Hsession. cbv iota. rewrite (bool_decide_eq_false_2 (id = "")) by done.
  rewrite (bool_decide_eq_true_2 (evReady = evReady)) by done. cbn [negb].
  eapply runsTo_get; [exact Hv1|exact Hj|]. intros w2 Hv2. cbv iota.
  rewrite Htok, Hterm, Hcan. cbn [negb orb].
  eapply runsTo_newSession; [exact Hv2|]. intros sess w3 Hv3.
  eapply runsTo_register; [exact Hv3|exact Hreg|]. intros w4 Hv4. cbv iota.
  injection Hv4 as Ejobs Ereg Esess Estr. apply runsTo_bind.
  eapply runsTo_mono; [|eapply (registered_serves h fuel s sess w4 evs e sent id j cfg);
    [done|done|by rewrite Ejobs|by rewrite Esess, lookup_insert_eq|by rewrite Estr, lookup_insert_eq
    |done|done]].
  cbv beta. intros r w5 (-> & Hreg5 & (i & rest & Hsent & Hrest) & started & at_ & Ht & Hr).
  apply runsTo_release; [rewrite Hreg5, Ereg; apply lookup_insert_eq|]. intros w6 Ej6 Er6 Es6.
  apply runsTo_ret. split; [done|]. split_and!.
  - rewrite Er6, Hreg5, Ereg. by apply delete_insert_id.
  - exists i, rest. by rewrite Es6.
  - exists started, at_. split; [done|]. unfold records in *. by rewrite Ej6, Hr, Ejobs.
Qed.

(** ** Submission and launch *)

Lemma run_aside {X B} (e : eff X) (f : X → prog B) w :
  aside X e → ∃ w1, view w1 = view w ∧ run env (perform e ≫= f) w = run env (f (snd (actTick env e w))) w1.
Proof.
  intros He. exists (fst (actTick env e w)). split; [by apply act_aside|].
  rewrite run_bind, run_perform. destruct (actTick env e w) as [w1 x]. cbn [fst snd].
  by destruct (run env (f x) w1) as [[w2 ts] r].
Qed.

(** Past one action. *)
Ltac beside w' Hv :=
  lazymatch goal with
  | |- context [mbind ?f (mret ?a)] => change (mbind f (mret a)) with (f a); cbv beta; beside w' Hv
  | |- context [mbind ?f (mbind ?g (perform ?e))] =>
      change (mbind f (mbind g (perform e))) with (perform e ≫= λ x, mbind f (g x)); beside w' Hv
  | |- context [Prog.run env (perform ?e ≫= ?f) ?w] => destruct (run_aside e f w I) as (w' & Hv & ->)
  end.

(** The part of a submission from its config on. *)
Lemma Submit_run (sv : Service) (p : SubmitParams) cfg0 profile json w :
  let id := NewID (env_ulid env (w_tick w)) in
  let cfg := effectiveConfig sv cfg0 id p in
  resolveConfig (sv_profiles sv) p = Ok (cfg0, profile) → validateRepoScope (sub_RepoScope p) = None →
  validateRunConfig cfg = None → validateControlPlaneTools (GetControlPlane cfg) (sv_memoryTools sv) = None →
  MarshalRunConfig cfg = Ok json → jobs w !! id = None →
  ∃ createdAt traceParent token w1,
    let j := mkJob id StatusQueued (rc_Prompt cfg) profile json "" "" "" createdAt 0 0 0 false
               traceParent token (sub_RepoScope p) in
    run env (Submit sv p) w = (w1, [launch j], Done (Ok j))
    ∧ view w1 = (<[id := j]> (jobs w), w_reg w, w_sessions w, w_streams w).
Proof.
  intros id cfg Hresolve Hscope Hcfg Htools Hjson Hfresh. unfold Submit. rewrite Hresolve, Hscope.
  beside w1 Hv1. cbn [snd actTick act]. fold id. fold cfg. rewrite Hcfg, Htools, Hjson.
  beside w2 Hv2. beside w3 Hv3. beside w4 Hv4. set (createdAt := snd (actTick env ENow w1)).
  set (token := NewHarnessToken _). set (traceParent := snd (actTick env ETraceParent w3)).
  set (j := mkJob _ _ _ _ _ _ _ _ _ _ _ _ _ _ _ _). exists createdAt, traceParent, token.
  rewrite run_bind, run_perform.
  destruct (actTick env (ECreateJob j) w4) as [w5 x] eqn:E.
  assert (x = Ok tt ∧ view w5 = (<[id := j]> (jobs w), w_reg w, w_sessions w, w_streams w)) as [-> Hv5].
  { assert (view w4 = view w) as [= Ejobs Ereg Esess Estr] by congruence.
    revert E. unfold actTick. cbn [act]. unfold onStore, view, jobs in *.
    destruct (law_CreateJob j (w_store w4)) as [(? & _ & [? Hs])|(s' & -> & _ & Es)].
    - rewrite Ejobs in Hs. change (j_ID j) with id in Hs. congruence.
    - intros [= <- <-]. split; [done|]. destruct w4; cbn in *. by rewrite Es, Ejobs, Ereg, Esess, Estr. }
  cbv iota. beside w6 Hv6. unfold appendStatusEvent. beside w7 Hv7. beside w8 Hv8. beside w9 Hv9.
  exists w9. split; [reflexivity|]. rewrite Hv9, Hv8, Hv7, Hv6. exact Hv5.
Qed.

(** A transition that does not end the job. *)
Lemma runsTo_moves id from to j js rg ss sts w (Φ : bool → World St → Prop) :
  Terminal to = false → view w = (js, rg, ss, sts) → js !! id = Some j → j_Status j = from →
  (∀ w', view w' = (<[id := set_Status to j]> js, rg, ss, sts) → Φ true w') →
  runsTo env (transition id from to "") w Φ.
Proof.
  intros Hto Hv Hj <- HΦ. unfold transition. rewrite Hto.
  change (mbind ?f (mret 0%Z)) with (f 0%Z). cbv beta.
  eapply runsTo_rewrite; [exact Hv|exact Hj|]. intros w1. unfold transitionUpdate.
  rewrite bool_decide_eq_true_2 by done. rewrite Hto. change ("" !=? "") with false.
  cbn [negb snd]. intros Hv1. cbv iota. unfold when at 1.
  apply runsTo_aside; [unfold appendStatusEvent; by permit|]. intros [] w2 Hv2.
  apply runsTo_ret, HΦ. congruence.
Qed.

(** A launch that the launcher takes. *)
Lemma launch_runs j j1 js rg ss sts w :
  (∀ n, env_launch env n j = Ok tt) →
  view w = (js, rg, ss, sts) → js !! j_ID j = Some j1 → j_Status j1 = StatusQueued →
  runsTo env (launch j) w (λ _ w',
    view w' = (<[j_ID j := set_Status StatusAwaitingHarness j1]> js, rg, ss, sts)).
Proof.
  intros Hlaunch Hv Hj Hq. unfold launch. apply runsTo_bind.
  eapply runsTo_moves; [done|exact Hv|exact Hj|exact Hq|]. intros w1 Hv1. cbn [negb].
  apply runsTo_bind. apply runsTo_aside; [by permit|]. intros started w2 Hv2.
  apply runsTo_act. cbn [actTick act snd fst]. rewrite Hlaunch.
  apply runsTo_aside; [by permit|]. intros now w3 Hv3. cbv iota.
  apply runsTo_aside; [by permit|]. intros [] w4 Hv4. apply runsTo_bind.
  eapply (runsTo_moves _ _ _ (set_Status StatusLaunching j1)); [done| |apply lookup_insert_eq|by destruct j1|].
  { rewrite Hv4, Hv3. rewrite <-Hv1, <-Hv2. by destruct w2. }
  intros w5 Hv5. apply runsTo_ret, runsTo_perform. rewrite act_aside, Hv5 by done.
  rewrite insert_insert_eq. by destruct j1.
Qed.

(** ** The whole way *)

(** What [Submit] makes of a submission it accepts: the config to run, the profile it came
    from, the text it is stored as. *)
Definition accepts (sv : Service) (p : SubmitParams) (id : string) (cfg : RunConfig)
  (profile json : string) : Prop :=
  ∃ cfg0, resolveConfig (sv_profiles sv) p = Ok (cfg0, profile) ∧ cfg = effectiveConfig sv cfg0 id p
    ∧ validateRepoScope (sub_RepoScope p) = None ∧ validateRunConfig cfg = None
    ∧ validateControlPlaneTools (GetControlPlane cfg) (sv_memoryTools sv) = None
    ∧ MarshalRunConfig cfg = Ok json.

(** A harness in a container of the Kubernetes Job presents the session of its
    environment. *)
Definition presents (k : K8sJob) (session : string) : Prop :=
  ∃ c, c ∈ ps_Containers (kj_Pod k) ∧ ("CONTROL_PLANE_SESSION_ID", session) ∈ cn_Env c.

Lemma presents_session cfg addr j session :
  presents (k8sJob cfg addr j) session → session = SessionString j.
Proof.
  intros (c & Hc & Hs). cbn in Hc. apply list_elem_of_singleton in Hc as ->. cbn in Hs.
  rewrite !elem_of_cons, elem_of_nil in Hs. by destruct Hs as [[=]|[[= ->]|[]]].
Qed.

(** A new stream is opened. *)
Definition opened (s : nat) (evs : list HarnessEvent) (e : error) (w : World St) : World St :=
  set_streams (<[s := mkStream evs e []]> (w_streams w)) w.

(** C4. A submitted job is run and settled. When a submission passes its checks under a
    fresh ID, [Submit] stores it and starts its launch; the launch leaves it waiting for
    its harness; and the stream of a harness that presents the session in the environment
    of the container it was launched in is assigned, once and first, the very config that
    was accepted, is served to its end, and leaves the job settled as the account of its
    events says, the registry as it was and every other job's outcome alone. *)
Theorem submitted_job_runs `{!ProtoJSONLaws} (sv : Service) (h : Handler) (hcfg : HarnessConfig)
  (addr : string) (p : SubmitParams) (cfg : RunConfig) (profile json : string) (w : World St)
  (s fuel : nat) (evs : list HarnessEvent) (e : error) (id : string)
  (Hid : id = NewID (env_ulid env (w_tick w)) ∧ ValidID id = true)
  (Haccepts : accepts sv p id cfg profile json)
  (Hfresh : jobs w !! id = None ∧ w_reg w !! id = None)
  (Hlaunch : ∀ n j, env_launch env n j = Ok tt) (Hsend : ∀ n, env_send env n s = None)
  (Hfuel : length evs < fuel) :
  ∃ j w1 w2 ts2,
    Prog.run env (Submit sv p) w = (w1, [launch j], Done (Ok j)) ∧ j_ID j = id
    ∧ Prog.run env (launch j) w1 = (w2, ts2, Done tt)
    ∧ jobs w2 = <[id := set_Status StatusAwaitingHarness j]> (jobs w)
    ∧ ∀ ready, he_Type ready = evReady → presents (k8sJob hcfg addr j) (he_Id ready) →
        ∃ w3 ts3 started at_ j',
          Prog.run env (runTask h fuel s) (opened s (ready :: evs) e w2) = (w3, ts3, Done (Ok tt))
          ∧ w_reg w3 = w_reg w
          ∧ (∃ rest, st_sent <$> w_streams w3 !! s = Some (assignment cfg :: rest)
               ∧ Forall (λ ev, ce_Type ev ≠ ctlTaskAssignment) rest)
          ∧ jobs w3 !! id = Some j' ∧ Terminal (j_Status j') = true
          ∧ erase j' = erase (settledBy h evs at_ (claimedAt started j))
          ∧ ∀ id', id' ≠ id → erase <$> jobs w3 !! id' = erase <$> jobs w !! id'.
Proof.
  destruct Hid as [Eid Hvalid], Hfresh as [Hfresh Hreg].
  destruct Haccepts as (cfg0 & Hresolve & -> & Hscope & Hcfg & Htools & Hjson).
  destruct (Submit_run sv p cfg0 profile json w) as (createdAt & tp & token & w1 & Hrun & Hv1);
    rewrite <-?Eid; try done.
  rewrite <-Eid in Hrun, Hv1. set (j := mkJob _ _ _ _ _ _ _ _ _ _ _ _ _ _ _ _) in *.
  destruct (launch_runs j j _ _ _ _ w1 (λ n, Hlaunch n j) Hv1) as (w2 & ts2 & [] & Elaunch & Hv2);
    [apply lookup_insert_eq|done|]. cbn zeta beta in Hv2. change (j_ID j) with id in Hv2.
  rewrite insert_insert_eq in Hv2. injection Hv2 as Ej2 Er2 Es2 Est2.
  exists j, w1, w2, ts2. split_and!; try done. intros ready Hready Hpresents.
  apply presents_session in Hpresents. set (w2' := opened _ _ _ _).
  assert (jobs w2' = jobs w2 ∧ w_reg w2' = w_reg w2) as [Ej2' Er2'] by (by destruct w2).
  destruct (RunConfig_object _ _ Hjson) as [r Hobj].
  destruct (runTask_serves h fuel s w2' ready evs e [] id token
    (set_Status StatusAwaitingHarness j) (effectiveConfig sv cfg0 id p))
    as (w3 & ts3 & rr & E3 & -> & Er3 & (i & rest & Hsent & Hrest) & started & at_ & Ht & Hr);
    [done|by rewrite Hpresents, ParseSession_SessionString|by intros ->
    |by rewrite Ej2', Ej2, lookup_insert_eq|by apply AcceptsToken_spec|done|done| | | |done|done|].
  { unfold parseRunConfig. cbn [set_Status j_RunConfigJSON j]. rewrite bool_decide_eq_false_2 by (by rewrite Hobj).
    by apply RunConfig_roundtrip. }
  { by rewrite Er2', Er2. }
  { destruct w2. apply lookup_insert_eq. }
  change (claimedAt started (set_Status _ j)) with (claimedAt started j) in Ht, Hr.
  destruct (records_lookup w3 id (settledBy h evs at_ (claimedAt started j))) as (j' & Hj' & He);
    [by rewrite Hr, lookup_insert_eq|].
  exists w3, ts3, started, at_, j'. split_and!; [done|congruence| |done| |done|].
  - exists rest. by rewrite Hsent.
  - by rewrite <-status_erase, He, status_erase.
  - intros id' Hne. apply (f_equal (λ m, m !! id')) in Hr. cbn in Hr.
    rewrite lookup_insert_ne in Hr by done. unfold records in Hr. rewrite !lookup_fmap, Ej2', Ej2 in Hr.
    by rewrite lookup_insert_ne in Hr.
Qed.

End serving.

#[local] Existing Instance sample_tables.
#[local] Existing Instance sample_codec.
#[local] Existing Instance sample_codec_laws.

(** The submission of the samples, run by a harness that says hello and succeeds. *)
Lemma submitted_job_runs_witness :
  ∃ j w1 w2 ts2,
    Prog.run sample_env (Submit sample_service sample_params) empty_world = (w1, [launch j], Done (Ok j))
    ∧ j_ID j = sample_id
    ∧ Prog.run sample_env (launch j) w1 = (w2, ts2, Done tt)
    ∧ jobs w2 = <[sample_id := set_Status StatusAwaitingHarness j]> (jobs empty_world)
    ∧ ∀ ready, he_Type ready = evReady → presents (k8sJob sample_harness "hairpin:80" j) (he_Id ready) →
        ∃ w3 ts3 started at_ j',
          Prog.run sample_env (runTask sample_handler 6 0) (opened 0 (ready :: hello_stream) EOF w2)
            = (w3, ts3, Done (Ok tt))
          ∧ w_reg w3 = w_reg empty_world
          ∧ (∃ rest, st_sent <$> w_streams w3 !! 0 = Some (assignment sample_config :: rest)
               ∧ Forall (λ ev, ce_Type ev ≠ ctlTaskAssignment) rest)
          ∧ jobs w3 !! sample_id = Some j' ∧ Terminal (j_Status j') = true
          ∧ erase j' = erase (settledBy sample_handler hello_stream at_ (claimedAt started j))
          ∧ ∀ id', id' ≠ sample_id → erase <$> jobs w3 !! id' = erase <$> jobs empty_world !! id'.
Proof.
  apply (submitted_job_runs sample_env sample_service sample_handler sample_harness "hairpin:80"
    sample_params sample_config "default" "{run}").
  - split; reflexivity.
  - exists (set_RunId "" sample_config). split_and!; vm_compute; reflexivity.
  - split; reflexivity.
  - reflexivity.
  - reflexivity.
  - cbn. lia.
Defined.
