(* ===== verification/Announce.v ===== *)
(** * What timelines announce

    Consumers of a timeline learn how a job ended from its [status_change] events
    ([isTerminalStatusEvent] ends a watch), not from the record.  Seven places move
    a job to a terminal status, in five goroutines, and each announces the move by
    an append of its own after its update.  This file shows that no interleaving
    separates the two for good over the in-memory store: what a timeline announces
    is how the record reads, and every terminal record has been announced or is
    about to be, whatever a harness puts in its events. *)

From stdpp Require Import base gmap list strings relations.
From S2P Require Import Prelude Fmt Json Job Proto Store Timeline Telemetry Registry Prog.
From S2P Require Import Memory Handler Pump ControlPlane RunConfigs Service Watch Reaper.
From S2P Require Import MemStore MemStoreFacts Samples Lifecycle.

(** ** Announcements *)

(** The terminal status an event announces, as its readers understand it. *)
Definition announced (ev : Event) : option Status :=
  if ev_Type ev !=? EventStatusChange then None
  else
    match Unmarshal statusFields (mkStatusPayload "" "") (ev_PayloadJSON ev) with
    | (p, None) => if Terminal (sp_Status p) then Some (sp_Status p) else None
    | (_, Some _) => None
    end.

Lemma announced_isTerminal ev : isTerminalStatusEvent ev = bool_decide (is_Some (announced ev)).
Proof.
  unfold isTerminalStatusEvent, announced. destruct (ev_Type ev !=? EventStatusChange); [done|].
  destruct (Unmarshal _ _ _) as [p [e|]]; [done|]. by destruct (Terminal (sp_Status p)).
Qed.

Lemma announced_terminal ev st : announced ev = Some st → Terminal st = true.
Proof. unfold announced. intros. repeat case_match; by simplify_eq. Qed.

Lemma announced_other_type id t s at_ : t ≠ EventStatusChange → announced (mkEvent id t s at_) = None.
Proof. intros Ht. unfold announced. cbn. by rewrite bool_decide_eq_false_2. Qed.

(** The stamp an append puts on an event changes nothing. *)
Lemma announced_stamp id at_ ev : announced (mkEvent id (ev_Type ev) (ev_PayloadJSON ev) at_) = announced ev.
Proof. done. Qed.

Definition terminalOnly (st : Status) : option Status := if Terminal st then Some st else None.

Lemma announced_marshal st e at_ :
  st ∈ statuses →
  announced (mkEvent "" EventStatusChange (marshalStatus (mkStatusPayload st e)) at_) = terminalOnly st.
Proof.
  intros Hst. unfold announced. cbn [ev_Type ev_PayloadJSON].
  rewrite bool_decide_eq_true_2 by done. cbn [negb]. rewrite Unmarshal_marshalStatus. cbn [sp_Status].
  by rewrite sanitize_statuses.
Qed.

Lemma announced_format `{UnicodeTables} st at_ :
  st ∈ statuses → announced (mkEvent "" EventStatusChange (formatStatus st) at_) = terminalOnly st.
Proof. intros Hst. rewrite formatStatus_statuses by done. by apply announced_marshal. Qed.

(** ** What a harness can write

    A harness chooses the type of its events, so it can have a [status_change]
    recorded; the payload is what [protojson] prints of its message: an object
    whose members are fields of [HarnessEvent], by their JSON names. *)

Definition harnessEventKeys : list string :=
  ["type"; "text"; "id"; "name"; "input"; "toolUseId"; "content"; "stopReason"; "message"; "trace";
   "requestId"; "toolName"; "harnessVersion"; "audience"].

Class HarnessEventObjects `{ProtoJSON} := MarshalHarnessEvent_object : ∀ ev s,
  MarshalHarnessEvent ev = Ok s →
  ∃ kvs, parse s = Some (JObj kvs) ∧ Forall (λ kv, fst kv ∈ harnessEventKeys) kvs.

(** None of them is a field of a status payload, however it is folded. *)
Lemma findField_harness k : k ∈ harnessEventKeys → findField statusFields k = None.
Proof.
  intros Hk. apply list_elem_of_In in Hk. revert k Hk.
  apply List.Forall_forall. repeat constructor; vm_compute; reflexivity.
Qed.

Lemma decodeMembers_harness kvs p e :
  Forall (λ kv, fst kv ∈ harnessEventKeys) kvs → decodeMembers statusFields kvs p e = (p, e).
Proof.
  induction 1 as [|[k v] kvs Hk _ IH]; [done|]. cbn [decodeMembers].
  by rewrite (findField_harness k Hk).
Qed.

Lemma announced_harness `{HarnessEventObjects} ev s at_ :
  MarshalHarnessEvent ev = Ok s → announced (mkEvent "" (he_Type ev) s at_) = None.
Proof.
  intros (kvs & Hp & Hk)%MarshalHarnessEvent_object. unfold announced, Unmarshal.
  cbn [ev_Type ev_PayloadJSON]. rewrite Hp, decodeMembers_harness by done. by case_match.
Qed.

(** ** A judgement on programs

    [forthright F p Q]: knowing the facts [F], the program [p] announces only what it
    knows, and an update of its that ends a job is followed by the announcement
    before anything else can stop it; it returns in [Q]. *)

Inductive fact :=
  | Known (id : string)               (** the job has been created *)
  | Is (id : string) (st : Status)    (** unless deleted, it has ended so *)
  | Gone (id : string).               (** it has been deleted *)

#[export] Instance fact_eq_dec : EqDecision fact.
Proof. solve_decision. Defined.

(** What an answer teaches. *)
Definition learns (F : list fact) {X} (e : eff X) : X → list fact → Prop :=
  match e in eff X return X → list fact → Prop with
  | EGetJob id => λ r F', F' = match r with Ok _ => Known id :: F | Err _ => F end
  | EUpdateJob id fn c => λ x F',
      (∃ j, x = fn c j
        ∧ F' = match snd x with
               | Ok j' => if Terminal (j_Status j') then Is id (j_Status j') :: F else F
               | Err _ => F
               end)
      ∨ (∃ e, x = (c, Err e) ∧ F' = if bool_decide (Known id ∈ F) then Gone id :: F else F)
  | _ => λ _ F', F' = F
  end.

(** An announcement must be backed. *)
Definition speaks (F : list fact) {X} (e : eff X) : Prop :=
  match e with
  | EAppendEvent id ev => ∀ st, announced ev = Some st → Is id st ∈ F ∨ Gone id ∈ F
  | _ => True
  end.

Definition announces (id : string) (st : Status) {X} (e : eff X) : Prop :=
  match e with
  | EAppendEvent id' ev => id' = id ∧ announced ev = Some st
  | _ => False
  end.

(** Whatever the answers, the program announces [st] for the job before it ends. *)
Fixpoint owes (id : string) (st : Status) {A : Type} (p : prog A) : Prop :=
  match p with
  | Act e k => announces id st e ∨ ∀ x, owes id st (k x)
  | Go _ _ k => owes id st k
  | _ => False
  end.

(** An update whose answer [x] ended a job leaves a debt. *)
Definition duty {X} (e : eff X) : X → (string → Status → Prop) → Prop :=
  match e in eff X return X → (string → Status → Prop) → Prop with
  | EUpdateJob id fn c => λ x debt, ∀ j j',
      x = fn c j → snd x = Ok j' → Terminal (j_Status j) = false → Terminal (j_Status j') = true →
      debt id (j_Status j')
  | _ => λ _ _, True
  end.

Fixpoint forthright (F : list fact) {A : Type} (p : prog A) (Q : list fact → A → Prop) : Prop :=
  match p with
  | Ret a => Q F a
  | Act e k => speaks F e ∧ ∀ x F', learns F e x F' →
      duty e x (λ id st, owes id st (k x)) ∧ forthright F' (k x) Q
  | Go _ q k => forthright F q (λ _ _, True) ∧ forthright F k Q
  | Panic | OutOfFuel => True
  end.

(** ** Rules *)

Lemma learns_more F X (e : eff X) x F' : learns F e x F' → F ⊆ F'.
Proof.
  destruct e; cbn; try (intros ->; done).
  - intros ->. case_match; set_solver.
  - intros [(j & _ & ->)|(e & _ & ->)]; repeat case_match; set_solver.
Qed.

Lemma owes_bind id st {A B} (p : prog A) (f : A → prog B) : owes id st p → owes id st (p ≫= f).
Proof.
  unfold mbind, prog_bind.
  induction p as [A a|A X e k IH|A l q _ k IH|A|A]; simpl; try done; [|auto].
  intros [He|Hk]; [by left|right; auto].
Qed.

Lemma duty_mono X (e : eff X) x (P Q : string → Status → Prop) :
  (∀ id st, P id st → Q id st) → duty e x P → duty e x Q.
Proof. intros HPQ. destruct e; cbn; naive_solver. Qed.

Lemma forthright_bind F {A B} (p : prog A) (f : A → prog B) Q R :
  forthright F p Q → (∀ F' a, F ⊆ F' → Q F' a → forthright F' (f a) R) → forthright F (p ≫= f) R.
Proof.
  unfold mbind, prog_bind. revert F.
  induction p as [A a|A X e k IH|A l q _ k IH|A|A]; intros F; simpl; try done.
  - intros HQ Hf. by apply Hf.
  - intros [He Hk] Hf. split; [done|]. intros x F' Hl. destruct (Hk x F' Hl) as [Hd Hx]. split.
    + eapply duty_mono; [|exact Hd]. intros. by apply owes_bind.
    + apply (IH x _ _ _ Hx). intros F'' a Hs. apply Hf. by etrans; [eapply learns_more|].
  - intros [Hq Hk] Hf. split; [done|]. by apply IH with Q.
Qed.

Lemma forthright_mono F {A} (p : prog A) (Q R : list fact → A → Prop) :
  forthright F p Q → (∀ F' a, F ⊆ F' → Q F' a → R F' a) → forthright F p R.
Proof.
  revert F. induction p as [A a|A X e k IH|A l q _ k IH|A|A]; intros F; simpl; try done.
  - intros HQ HR. by apply HR.
  - intros [He Hk] HR. split; [done|]. intros x F' Hl. destruct (Hk x F' Hl) as [Hd Hx].
    split; [done|]. apply (IH x _ _ _ Hx). intros F'' a Hs. apply HR. by etrans; [eapply learns_more|].
  - intros [Hq Hk] HR. split; [done|]. by eapply IH.
Qed.

(** An action that is no update. *)
Definition plain {X} (e : eff X) : Prop := match e with EUpdateJob _ _ _ => False | _ => True end.

Lemma forthright_plain F {X B} (e : eff X) (f : X → prog B) Q :
  plain e → speaks F e → (∀ x F', F ⊆ F' → forthright F' (f x) Q) → forthright F (perform e ≫= f) Q.
Proof.
  intros Hp He Hf. split; [done|]. intros x F' Hl. split; [by destruct e|].
  apply Hf. by eapply learns_more.
Qed.

Lemma forthright_update F {C : Set} {B} id (fn : updater C) c (f : C * res Job → prog B) Q :
  (∀ j c' j', fn c j = (c', Ok j') →
    (Terminal (j_Status j) = false → Terminal (j_Status j') = true →
       owes id (j_Status j') (f (c', Ok j')))
    ∧ ∀ F', F ⊆ F' → (Terminal (j_Status j') = true → Is id (j_Status j') ∈ F') →
        forthright F' (f (c', Ok j')) Q) →
  (∀ j c' e, fn c j = (c', Err e) → forthright F (f (c', Err e)) Q) →
  (∀ e F', F ⊆ F' → (Known id ∈ F → Gone id ∈ F') → forthright F' (f (c, Err e)) Q) →
  forthright F (perform (EUpdateJob id fn c) ≫= f) Q.
Proof.
  intros Hok Herr Hgone. split; [done|]. intros x F' Hl. split.
  - intros j j' -> Hs Ht Ht'. destruct (fn c j) as [c' r] eqn:E. cbn in Hs. subst.
    by eapply Hok.
  - destruct Hl as [(j & -> & ->)|(e & -> & ->)].
    + destruct (fn c j) as [c' [j'|e]] eqn:E; cbn [snd]; [|by eapply Herr].
      eapply (Hok _ _ _ E); intros; case_match; set_solver.
    + apply Hgone; intros; case_bool_decide; set_solver.
Qed.

Lemma forthright_get F {B} id (f : res Job → prog B) Q :
  (∀ j, forthright (Known id :: F) (f (Ok j)) Q) → (∀ e, forthright F (f (Err e)) Q) →
  forthright F (perform (EGetJob id) ≫= f) Q.
Proof. intros Hj He. split; [done|]. intros [j|e] F' ->; (split; [done|]); [apply Hj|apply He]. Qed.

(** An update that ends no job. *)
Definition mild {C} (fn : updater C) : Prop := ∀ c j c' j',
  fn c j = (c', Ok j') → Terminal (j_Status j') = true → Terminal (j_Status j) = true.

Lemma forthright_mild F {C : Set} {B} id (fn : updater C) c (f : C * res Job → prog B) Q :
  mild fn → (∀ x F', F ⊆ F' → forthright F' (f x) Q) →
  forthright F (perform (EUpdateJob id fn c) ≫= f) Q.
Proof.
  intros Hm Hf. apply forthright_update; [|by intros; apply Hf..].
  intros j c' j' E. split; [|by intros; apply Hf]. intros Hl Ht. by rewrite (Hm _ _ _ _ E Ht) in Hl.
Qed.

(** An update that succeeds only by ending the job as [st]. *)
Lemma forthright_ending F {C : Set} {B} id st (fn : updater C) c (f : C * res Job → prog B) Q :
  Terminal st = true →
  (∀ j c' j', fn c j = (c', Ok j') → j_Status j' = st ∧ owes id st (f (c', Ok j'))) →
  (∀ c' j' F', F ⊆ F' → Is id st ∈ F' → forthright F' (f (c', Ok j')) Q) →
  (∀ j c' e, fn c j = (c', Err e) → forthright F (f (c', Err e)) Q) →
  (∀ e F', F ⊆ F' → (Known id ∈ F → Gone id ∈ F') → forthright F' (f (c, Err e)) Q) →
  forthright F (perform (EUpdateJob id fn c) ≫= f) Q.
Proof.
  intros Ht Hst Hok Herr Hgone. apply forthright_update; [|done|done].
  intros j c' j' E. destruct (Hst _ _ _ E) as [<- Ho]. split; [done|]. intros. apply Hok; auto.
Qed.

(** An update that reports in the captured flag whether it moved the job to [st]. *)
Lemma forthright_flagged F {B} id st (fn : updater bool) (f : bool * res Job → prog B) Q :
  (∀ j c' r, fn false j = (c', r) →
    (c' = false ∧ r = Ok j) ∨ (c' = true ∧ ∃ j', r = Ok j' ∧ j_Status j' = st)) →
  (∀ j', Terminal st = true → owes id st (f (true, Ok j'))) →
  (∀ j' F', F ⊆ F' → (Terminal st = true → Is id st ∈ F') → forthright F' (f (true, Ok j')) Q) →
  (∀ r F', F ⊆ F' → forthright F' (f (false, r)) Q) →
  forthright F (perform (EUpdateJob id fn false) ≫= f) Q.
Proof.
  intros Hfn Ho Hm Hr. apply forthright_update.
  - intros j c' j' E. destruct (Hfn _ _ _ E) as [(-> & [= ->])|(-> & j1 & [= ->] & <-)].
    + split; [congruence|]. intros. by apply Hr.
    + split; [intros; by apply Ho|]. intros. by apply Hm.
  - intros j c' e E. by destruct (Hfn _ _ _ E) as [(_ & [=])|(_ & j1 & [=] & _)].
  - intros e F' Hs _. by apply Hr.
Qed.

(** ** The closures *)

Lemma mild_runningUpdate started : mild (pureUpdater (runningUpdate started)).
Proof.
  intros [] j ? j' [= <- E] Ht. unfold runningUpdate in E.
  destruct (Terminal (j_Status j)); [done|]. destruct j. by simplify_eq/=.
Qed.

Lemma mild_touch seen : mild (pureUpdater (λ j, Ok (set_LastEventAt seen j))).
Proof. intros [] j ? j' [= <- <-] Ht. by destruct j. Qed.

Lemma mild_requestCancel : mild (pureUpdater (λ j, Ok (set_CancelRequested true j))).
Proof. intros [] j ? j' [= <- <-] Ht. by destruct j. Qed.

Lemma transitionUpdate_flags from to errText now j c' r :
  transitionUpdate from to errText now false j = (c', r) →
  (c' = false ∧ r = Ok j) ∨ (c' = true ∧ ∃ j', r = Ok j' ∧ j_Status j' = to).
Proof.
  unfold transitionUpdate. case_match; intros [= <- <-]; [by left|right]. split; [done|].
  eexists. split; [done|]. destruct j; cbn. by repeat case_match.
Qed.

Lemma cancelUpdate_flags now j c' r :
  cancelUpdate now false j = (c', r) →
  (c' = false ∧ r = Ok j) ∨ (c' = true ∧ ∃ j', r = Ok j' ∧ j_Status j' = StatusCancelled).
Proof.
  unfold cancelUpdate. case_match; intros [= <- <-]; [by left|right]. split; [done|].
  eexists. split; [done|]. by destruct j.
Qed.

Lemma stuckUpdate_flags now j c' r :
  stuckUpdate now false j = (c', r) →
  (c' = false ∧ r = Ok j) ∨ (c' = true ∧ ∃ j', r = Ok j' ∧ j_Status j' = StatusFailed).
Proof.
  unfold stuckUpdate. case_match; intros [= <- <-]; [by left|right]. split; [done|].
  eexists. split; [done|]. by destruct j.
Qed.

Lemma cancelledUpdate_status at_ j j' : cancelledUpdate at_ j = Ok j' → j_Status j' = StatusCancelled.
Proof.
  unfold cancelledUpdate. case_match; [done|]. intros [= <-]. destruct j; cbn. by repeat case_match.
Qed.

Lemma failedUpdate_status reason at_ j j' : failedUpdate reason at_ j = Ok j' → j_Status j' = StatusFailed.
Proof. unfold failedUpdate. case_match; [done|]. intros [= <-]. by destruct j. Qed.

Lemma finishUpdate_status reason st final e at_ j j' :
  finishUpdate reason st final e at_ j = Ok j' → j_Status j' = st.
Proof.
  unfold finishUpdate. case_match; [done|]. intros [= <-]. destruct j; cbn. by repeat case_match.
Qed.

Lemma finishUpdate_refuses reason st final e at_ j err :
  finishUpdate reason st final e at_ j = Err err → err = errNoUpdate.
Proof. unfold finishUpdate. case_match; intros [=]. done. Qed.

(** The status announced for a stream that just ends is the one written. *)
Lemma closeUpdate_status final e at_ last c j c' j' :
  closeUpdate final e at_ last c j = (c', Ok j') →
  j_Status j' = c' ∧ (c' = StatusCancelled ∨ c' = StatusFailed).
Proof.
  unfold closeUpdate. destruct (Terminal (j_Status j)); [done|].
  destruct j; cbn. repeat case_match; intros; simplify_eq/=; auto.
Qed.

(** ** The operations *)

Lemma statuses_has st : existsb (λ u, bool_decide (u = st)) statuses = true → st ∈ statuses.
Proof.
  rewrite List.existsb_exists. intros (u & Hu & ->%bool_decide_eq_true). by apply list_elem_of_In.
Qed.

Section operations.
Context `{UnicodeTables} `{HarnessEventObjects}.

Abbreviation truthful_ F p := (forthright F p (λ _ _, True)).

Create HintDb announce.

#[local] Hint Resolve mild_runningUpdate mild_touch mild_requestCancel : announce.
#[local] Hint Extern 2 (_ ∈ statuses) => apply statuses_has; vm_compute; reflexivity : announce.

(** Peel a program down to its announcements. *)
Ltac tell :=
  repeat lazymatch goal with
  | |- forthright _ (mbind _ (perform (EUpdateJob _ _ _))) _ =>
      apply forthright_mild; [solve [eauto with announce]|intros ? ? ?]
  | |- forthright _ (mbind _ (perform (EAppendEvent _ _))) _ =>
      apply forthright_plain; [exact I|cbn [speaks]|intros ? ? ?]
  | |- forthright _ (mbind _ (perform _)) _ => apply forthright_plain; [exact I|exact I|intros ? ? ?]
  | |- forthright _ (mbind ?f (mret ?a)) _ => change (mbind f (mret a)) with (f a); cbv beta
  | |- forthright _ (mbind _ _) _ =>
      first [eapply forthright_bind; [solve [eauto with announce]|intros ? ? ? ?]
            |apply forthright_bind with (Q := λ _ _, True); [|intros ? ? ? _]]
  | |- forthright _ (perform _) _ => split; [|intros ? ? ?; split; [exact I|]]
  | |- forthright _ (go _ _) _ => split; [|exact I]
  | |- forthright ?F (mret ?a) ?Q => change (Q F a); cbv beta
  | |- forthright _ OutOfFuel _ => exact I
  | |- forthright _ Panic _ => exact I
  | |- forthright _ (if ?b then _ else _) _ => destruct b
  | |- forthright _ (match ?x with _ => _ end) _ => destruct x
  | |- forthright _ (when ?b _) _ => unfold when; destruct b
  end; try exact I; eauto with announce.

Lemma speaks_status F id st ev at_ :
  announced ev = terminalOnly st → (Terminal st = true → Is id st ∈ F ∨ Gone id ∈ F) →
  speaks F (EAppendEvent id (mkEvent "" (ev_Type ev) (ev_PayloadJSON ev) at_)).
Proof.
  intros Ha HF st'. rewrite announced_stamp, Ha. unfold terminalOnly.
  destruct (Terminal st); [intros [= <-]; auto|done].
Qed.

Lemma tells_appendStatus F id st at_ :
  st ∈ statuses → (Terminal st = true → Is id st ∈ F ∨ Gone id ∈ F) →
  truthful_ F (appendStatus id st at_).
Proof.
  intros Hst HF. unfold appendStatus. tell.
  eapply (speaks_status _ _ st (mkEvent "" EventStatusChange (formatStatus st) at_)); [|done].
  by apply announced_format.
Qed.

Lemma owes_appendStatus id st at_ :
  st ∈ statuses → Terminal st = true → owes id st (appendStatus id st at_).
Proof.
  intros Hst Ht. left. split; [done|]. rewrite announced_format by done.
  unfold terminalOnly. by rewrite Ht.
Qed.

Lemma tells_marshalled F id st errText :
  st ∈ statuses → (Terminal st = true → Is id st ∈ F ∨ Gone id ∈ F) →
  truthful_ F (appendStatusEvent id st errText) ∧ truthful_ F (reaperAppendStatus id st errText).
Proof.
  intros Hst HF. unfold appendStatusEvent, reaperAppendStatus. split; tell;
    (eapply (speaks_status _ _ st
      (mkEvent "" EventStatusChange (marshalStatus (mkStatusPayload st errText)) 0));
      [by apply announced_marshal|naive_solver]).
Qed.

Lemma owes_marshalled id st errText :
  st ∈ statuses → Terminal st = true →
  owes id st (appendStatusEvent id st errText) ∧ owes id st (reaperAppendStatus id st errText).
Proof.
  intros Hst Ht. split; right; intros x; left; (split; [done|]);
    rewrite announced_marshal by done; unfold terminalOnly; by rewrite Ht.
Qed.

Lemma tells_sendCancel F s : truthful_ F (sendCancel s).
Proof. unfold sendCancel. tell. Qed.

Lemma tells_ending F id st (f : Job → res Job) at_ d :
  st ∈ statuses → Terminal st = true → (∀ j j', f j = Ok j' → j_Status j' = st) →
  truthful_ F ('(_, r) ← perform (EUpdateJob id (pureUpdater f) tt);
               match r with
               | Err _ => mret tt
               | Ok _ => appendStatus id st at_;; perform (ETel d)
               end).
Proof.
  intros Hst Ht Hf. apply (forthright_ending _ _ st); try done.
  - intros j [] j' [= E]. split; [by eapply Hf|]. apply owes_bind. by apply owes_appendStatus.
  - intros ? j' F' _ HF. eapply forthright_bind; [by apply tells_appendStatus; auto|intros; tell].
Qed.

Lemma tells_failJob F id reason : truthful_ F (failJob id reason).
Proof.
  unfold failJob. tell. apply tells_ending; eauto with announce.
  intros j j'. apply failedUpdate_status.
Qed.

Lemma tells_finaliseCancelled F id : truthful_ F (finaliseCancelled id).
Proof.
  unfold finaliseCancelled. tell. apply tells_ending; eauto with announce.
  intros j j'. apply cancelledUpdate_status.
Qed.
#[local] Hint Resolve tells_sendCancel tells_failJob tells_finaliseCancelled : announce.

(** *** The pump *)

Lemma tells_append F p t payload at_ :
  announced (mkEvent "" t payload at_) = None → truthful_ F (append p (mkEvent "" t payload at_)).
Proof. intros Ha. unfold append. tell. intros st. by rewrite Ha. Qed.

Lemma tells_appendProto F p ev at_ : truthful_ F (appendProto p ev at_).
Proof.
  unfold appendProto. destruct (MarshalHarnessEvent ev) as [s|e] eqn:E; [|exact I].
  apply tells_append. by apply announced_harness.
Qed.

Lemma tells_appendControl F p ev at_ :
  ce_Type ev ≠ EventStatusChange → truthful_ F (appendControl p ev at_).
Proof.
  intros Ht. unfold appendControl. destruct (MarshalControlEvent ev); [|exact I].
  apply tells_append. by apply announced_other_type.
Qed.

Lemma tells_heartbeat F p payload at_ : truthful_ F (append p (mkEvent "" evHeartbeat payload at_)).
Proof. apply tells_append. by apply announced_other_type. Qed.
#[local] Hint Resolve tells_appendProto tells_heartbeat : announce.

(** A step of the pump: it keeps working on the same job. *)
Abbreviation pumps F p0 p := (forthright F p (λ _ p', p_jobID p' = p_jobID p0)).

Lemma tells_flushDeltas F p : pumps F p (flushDeltas p).
Proof. unfold flushDeltas. tell; by destruct p. Qed.

Lemma tells_putPermission F p ev at_ : pumps F p (putPermission p ev at_).
Proof. unfold putPermission. tell; by destruct p. Qed.

Lemma tells_sandbox h F p ev : pumps F p (handleSandboxTokenRequest h p ev).
Proof. unfold handleSandboxTokenRequest, sendSandboxTokenResponse. tell; by destruct p. Qed.

Lemma tells_sendToolResult F p id content e : truthful_ F (sendToolResult p id content e).
Proof. unfold sendToolResult. tell. by apply tells_appendControl. Qed.
#[local] Hint Resolve tells_sendToolResult : announce.

Lemma tells_Fulfil F tool input : truthful_ F (Fulfil tool input).
Proof. unfold Fulfil, fulfilSearch, fulfilSave, clientSave. tell. Qed.
#[local] Hint Resolve tells_Fulfil : announce.

Lemma tells_memoryCall F p tool id input : truthful_ F (memoryCall p tool id input).
Proof. unfold memoryCall. tell. Qed.
#[local] Hint Resolve tells_memoryCall : announce.

Lemma tells_admit h F p tool id :
  forthright F (admitMemoryCall h p tool id) (λ _ r, p_jobID (fst r) = p_jobID p).
Proof. unfold admitMemoryCall. tell; by destruct p. Qed.

Lemma tells_fulfilToolResult h F p ev : pumps F p (fulfilToolResult h p ev).
Proof.
  unfold fulfilToolResult. case_match; [done|].
  eapply forthright_bind; [apply tells_admit|]. intros F' [p' refusal] _ Hp. tell.
Qed.
#[local] Hint Resolve tells_flushDeltas tells_putPermission tells_sandbox tells_fulfilToolResult
  : announce.

Lemma tells_dispatch h F p ev now : pumps F p (dispatch h p ev now).
Proof. unfold dispatch. tell; by destruct p. Qed.

Lemma tells_maybeFlush h F p now : pumps F p (maybeFlushLastEventAt h p now).
Proof. unfold maybeFlushLastEventAt. tell; by destruct p. Qed.

(** [finish] announces also when its update failed for want of the job: nobody can
    then read the announcement. *)
Lemma tells_finish F p ev at_ : Known (p_jobID p) ∈ F → truthful_ F (finish p ev at_).
Proof.
  intros HK. unfold finish. cbn zeta.
  assert (StatusForStopReason (he_StopReason ev) ∈ statuses) as Hst.
  { unfold StatusForStopReason. repeat case_match; auto with announce. }
  assert (∀ F', Is (p_jobID p) (StatusForStopReason (he_StopReason ev)) ∈ F' ∨ Gone (p_jobID p) ∈ F' →
    truthful_ F' (appendProto p ev at_;;
      appendStatus (p_jobID p) (StatusForStopReason (he_StopReason ev)) at_;;
      perform (ETel (JobCompleted (StatusForStopReason (he_StopReason ev)) (he_StopReason ev)
        (Sub at_ (p_startedAt p)))))) as Hsay.
  { intros F' HF. eapply forthright_bind; [apply tells_appendProto|]. intros F'' _ Hs _.
    eapply forthright_bind; [apply tells_appendStatus; [done|set_solver]|intros; tell]. }
  apply (forthright_ending _ _ (StatusForStopReason (he_StopReason ev))); auto with hairpin.
  - intros j [] j' [= E]. split; [by eapply finishUpdate_status|].
    unfold appendProto, append. destruct (MarshalHarnessEvent ev) as [s|e]; cbn.
    + right. intros _. left. split; [done|]. rewrite announced_format by done.
      unfold terminalOnly. by rewrite StatusForStopReason_terminal.
    + left. split; [done|]. rewrite announced_format by done.
      unfold terminalOnly. by rewrite StatusForStopReason_terminal.
  - intros j [] e [= ->%finishUpdate_refuses]. exact I.
  - intros e F' Hs HG. case_match; [exact I|]. apply Hsay. auto.
Qed.

Lemma tells_closeUnfinished F p : truthful_ F (closeUnfinished p).
Proof.
  unfold closeUnfinished. apply forthright_plain; [done..|]. intros at_ F1 _.
  apply forthright_update; [|by intros..].
  intros j c' j' E. apply closeUpdate_status in E as [<- Hst].
  assert (j_Status j' ∈ statuses ∧ Terminal (j_Status j') = true) as [Hin Ht].
  { destruct Hst as [-> | ->]; split; auto with announce. }
  split; [intros _ _; apply owes_bind; by apply owes_appendStatus|]. intros F' Hs HF.
  eapply forthright_bind; [by apply tells_appendStatus; auto|intros; tell].
Qed.

Lemma tells_handle h F p ev :
  Known (p_jobID p) ∈ F → forthright F (handle h p ev) (λ _ r, p_jobID (fst r) = p_jobID p).
Proof.
  intros HK. unfold handle.
  apply forthright_plain; [done..|]. intros now F1 HF1.
  apply forthright_plain; [done..|]. intros [] F2 HF2.
  case_bool_decide; [|case_bool_decide].
  - eapply forthright_bind with (Q := λ _ p', p_jobID p' = p_jobID p).
    { case_match; [eapply forthright_mono; [apply tells_flushDeltas|]; intros ? p' _ ->|cbn];
        unfold appendFinalText; repeat case_match; by destruct p. }
    intros F3 p3 _ Hp3. eapply forthright_bind; [apply tells_maybeFlush|]. cbn. congruence.
  - eapply forthright_bind; [apply tells_flushDeltas|]. intros F3 p3 HF3 Hp3.
    assert (p_jobID p3 = p_jobID p) as Hp by (rewrite Hp3; by destruct p).
    eapply forthright_bind; [apply tells_finish; rewrite Hp; set_solver|]. by intros.
  - eapply forthright_bind; [apply tells_flushDeltas|]. intros F3 p3 HF3 Hp3.
    eapply forthright_bind; [apply tells_dispatch|]. intros F4 p4 HF4 Hp4.
    eapply forthright_bind; [apply tells_maybeFlush|]. intros F5 p5 HF5 Hp5. cbn.
    rewrite Hp5, Hp4, Hp3. by destruct p.
Qed.

Lemma tells_pumpRun h F fuel p : Known (p_jobID p) ∈ F → truthful_ F (pumpRun h fuel p).
Proof.
  revert F p. induction fuel as [|f IH]; intros F p HK; cbn [pumpRun]; [exact I|].
  apply forthright_plain; [done..|]. intros [ev|e] F' HF'.
  - eapply forthright_bind; [apply tells_handle; set_solver|]. intros F3 [p3 d] HF3 Hp3.
    destruct d; [exact I|]. apply IH. cbn in Hp3. rewrite Hp3. set_solver.
  - eapply forthright_bind; [apply tells_flushDeltas|]. intros. apply tells_closeUnfinished.
Qed.

(** *** The stream *)

Lemma tells_appendRunning F id at_ : truthful_ F (appendStatus id StatusRunning at_).
Proof. apply tells_appendStatus; [auto with announce|done]. Qed.
#[local] Hint Resolve tells_appendRunning : announce.

Lemma tells_assigned h F fuel s sess id j cfg :
  Known id ∈ F → truthful_ F (assigned h fuel s sess id j cfg).
Proof.
  intros HK. unfold assigned. apply forthright_plain; [done..|]. intros started F1 HF1.
  apply forthright_mild; [auto with announce|]. intros [c r] F2 HF2. case_match; [tell|].
  eapply forthright_bind; [apply tells_appendRunning|]. intros F3 _ HF3 _. unfold newPump.
  apply forthright_bind with (Q := λ F' p, p_jobID p = id ∧ F3 ⊆ F').
  { do 2 (apply forthright_plain; [done..|]; intros ???). split; [done|set_solver]. }
  intros F4 p _ [Hp HF4]. eapply forthright_bind; [|by intros].
  apply tells_pumpRun. destruct p. cbn in *. subst. set_solver.
Qed.

Lemma tells_registered h F fuel s sess id j :
  Known id ∈ F → truthful_ F (registered h fuel s sess id j).
Proof.
  intros HK. unfold registered. case_match; [|tell].
  apply forthright_plain; [done..|]. intros [[]|e] F1 HF1; [|tell].
  do 2 (apply forthright_plain; [done..|]; intros ???).
  eapply forthright_bind; [apply tells_assigned; set_solver|]. intros. tell.
Qed.

Lemma tells_runTask h F fuel s : truthful_ F (runTask h fuel s).
Proof.
  unfold runTask. apply forthright_plain; [done..|]. intros [first|e] F1 _; [|tell].
  case_match; [tell|]. destruct (ParseSession (he_Id first)) as [id token]. case_match; [tell|].
  apply forthright_get; [intros j|intros e; tell].
  case_match; [tell|]. case_match; [tell|].
  apply forthright_plain; [done..|]. intros sess F3 HF3.
  apply forthright_plain; [done..|]. intros [[]|e] F4 HF4; [|tell].
  eapply forthright_bind; [apply tells_registered; subst; set_solver|]. intros. tell.
Qed.

(** *** The API and the reaper *)

Lemma tells_transition F id from to errText :
  to ∈ statuses → truthful_ F (transition id from to errText).
Proof.
  intros Hto. unfold transition. apply forthright_bind with (Q := λ _ _, True); [tell|].
  intros F1 now _ _. apply (forthright_flagged _ _ to).
  - apply transitionUpdate_flags.
  - intros j' Ht. do 2 apply owes_bind. by apply owes_marshalled.
  - intros j' F2 _ HF. cbn [when]. apply forthright_bind with (Q := λ _ _, True); [|by intros].
    eapply forthright_bind; [apply tells_marshalled; auto|intros; tell].
  - intros [j'|e] F2 _; tell.
Qed.

Lemma tells_launch F j : truthful_ F (launch j).
Proof. unfold launch. tell; apply tells_transition; auto with announce. Qed.
#[local] Hint Resolve tells_launch : announce.

Lemma tells_queued F id : truthful_ F (appendStatusEvent id StatusQueued "").
Proof. by apply tells_marshalled; [auto with announce|]. Qed.
#[local] Hint Resolve tells_queued : announce.

Lemma tells_Submit F sv p : truthful_ F (Submit sv p).
Proof. unfold Submit, failSubmit. tell. Qed.

Lemma tells_cancelUnassigned F id : truthful_ F (cancelUnassigned id).
Proof.
  unfold cancelUnassigned. apply forthright_plain; [done..|]. intros now F1 _.
  apply (forthright_flagged _ _ StatusCancelled).
  - apply cancelUpdate_flags.
  - intros j' Ht. do 2 apply owes_bind. apply owes_marshalled; auto with announce.
  - intros j' F2 _ HF. cbn [when]. apply forthright_bind with (Q := λ _ _, True); [|by intros].
    eapply forthright_bind; [apply tells_marshalled; auto with announce|intros; tell].
  - intros [j'|e] F2 _; tell.
Qed.
#[local] Hint Resolve tells_cancelUnassigned : announce.

Lemma tells_failStuckHarness F id : truthful_ F (failStuckHarness id).
Proof.
  unfold failStuckHarness. apply forthright_plain; [done..|]. intros now F1 _.
  apply (forthright_flagged _ _ StatusFailed).
  - apply stuckUpdate_flags.
  - intros j' Ht. do 2 apply owes_bind. apply owes_marshalled; auto with announce.
  - intros j' F2 _ HF. cbn [when]. apply forthright_bind with (Q := λ _ _, True); [|by intros].
    eapply forthright_bind; [apply tells_marshalled; auto with announce|intros; tell].
  - intros [j'|e] F2 _; tell.
Qed.
#[local] Hint Resolve tells_failStuckHarness : announce.

Lemma tells_Cancel F id : truthful_ F (Cancel id).
Proof. unfold Cancel, checked, cancelLive, registrySend. tell. Qed.

Lemma tells_AnswerPermission F id req allow reason : truthful_ F (AnswerPermission id req allow reason).
Proof. unfold AnswerPermission, checked, registrySend. tell. Qed.

Lemma tells_replay F fuel id cursor : truthful_ F (replay fuel id cursor).
Proof. revert F cursor. induction fuel; intros F cursor; cbn [replay]; tell. Qed.
#[local] Hint Resolve tells_replay : announce.

Lemma tells_Watch F {Chan} (o : res Chan) fuel id a : truthful_ F (Watch o fuel id a).
Proof. unfold Watch, checked. tell. Qed.

Lemma tells_sweep r F fuel : truthful_ F (sweep r fuel).
Proof.
  unfold sweep, listAllJobs. apply forthright_bind with (Q := λ _ _, True).
  { generalize (@nil Job) "". revert F. induction fuel; intros F all tok; cbn [listPages]; tell. }
  intros F1 [jobs|] _ _; [|done]. unfold reapAwaitingHarness, reapRetention, when. tell.
  - clear -H1. revert F'. induction jobs; intros F'; cbn [reapAwaitingLoop]; tell.
  - clear -H1. revert F'0. induction jobs; intros F'; cbn [reapRetentionLoop]; tell.
Qed.

Lemma tells_Run r F fuel ticks : truthful_ F (Run r fuel ticks).
Proof.
  unfold Run. eapply forthright_bind; [apply tells_sweep|]. intros F1 _ _ _. revert F1.
  induction ticks; intros F1; cbn [RunLoop]; [done|].
  eapply forthright_bind; [apply tells_sweep|]. auto.
Qed.

Lemma tells_operation F sv p : operation sv p → truthful_ F p.
Proof.
  destruct 1; try apply tells_sweep; try apply tells_Run; unfold discard;
    (eapply forthright_bind; [|by intros]);
    eauto using tells_runTask, tells_Submit, tells_Cancel, tells_AnswerPermission, tells_Watch;
    unfold GetOp, ListPermissionsOp, List, checked; tell; exact I.
Qed.

End operations.

(** ** Announcements and records

    Over the in-memory store, in one step of one goroutine. *)

Section system.
Context `{UnicodeTables} `{HarnessEventObjects}.
Variable env : Env.
Implicit Type w : World memStore.

(** A job's timeline. *)
Definition timeline w (id : string) : list Event := slice_at (m_events (w_store w)) id.

(** The last status change of the kind is on it; or so many events have followed
    the job's creation that the store has begun to drop the oldest. *)
Definition said w (id : string) (st : Status) : Prop :=
  (∃ ev, ev ∈ timeline w id ∧ announced ev = Some st)
  ∨ m_maxLen (w_store w) ≤ length (timeline w id).

(** A fact is true, given the IDs issued so far. *)
Definition holds (seen : gset string) w (f : fact) : Prop :=
  match f with
  | Known id => id ∈ seen
  | Is id st => id ∈ seen ∧ Terminal st = true ∧ ∀ j, jobs w !! id = Some j → j_Status j = st
  | Gone id => id ∈ seen ∧ jobs w !! id = None
  end.

(** What an action does to the store. *)
Lemma act_store X (e : eff X) w :
  w_store (fst (actTick env e w)) =
  match e with
  | ECreateJob j => fst (memCreateJob j (w_store w))
  | EUpdateJob id fn c => fst (memUpdateJob id fn c (w_store w))
  | EDeleteJob id => fst (memDeleteJob id (w_store w))
  | EAppendEvent id ev => fst (memAppendEvent (env_now env (w_tick w)) id ev (w_store w))
  | EPutPermission id p => fst (memPutPermission id p (w_store w))
  | _ => w_store w
  end.
Proof.
  unfold actTick. destruct w, e; cbn; unfold onStore, receive, transmit, sessionSend, transmit, trySend,
    wgUpdate; cbn; repeat case_match; simplify_eq/=; done.
Qed.

Lemma act_wf X (e : eff X) w : lifecycle X e → wf (w_store w) → wf (w_store (fst (actTick env e w))).
Proof.
  intros He Hw. rewrite act_store.
  destruct e; try done; eapply wf_memStep; try exact Hw; auto with hairpin.
  constructor. intros c0 j c' j' E. apply He in E as [Hi _ _ _]. by injection Hi.
Qed.

Lemma timeline_missing w id : wf (w_store w) → jobs w !! id = None → timeline w id = [].
Proof.
  intros Hw Hj. unfold timeline, slice_at. destruct (m_events (w_store w) !! id) eqn:E; [|done].
  assert (is_Some (m_jobs (w_store w) !! id)) as [? Hs] by (apply wf_events_dom; [done|by eexists]).
  unfold jobs in Hj. cbn in Hj. congruence.
Qed.

(** Timelines of the jobs that are there afterwards: unchanged, or longer by one event
    with perhaps the oldest dropped. *)
Lemma act_timeline X (e : eff X) w id :
  is_Some (jobs (fst (actTick env e w)) !! id) →
  let w' := fst (actTick env e w) in
  m_maxLen (w_store w') = m_maxLen (w_store w)
  ∧ ((timeline w' id = timeline w id ∧ ∀ st, ¬ announces id st e)
     ∨ ∃ ev, timeline w' id = last_n (m_maxLen (w_store w)) (timeline w id ++ [ev])
         ∧ ∀ st, announces id st e ↔ announced ev = Some st).
Proof.
  unfold timeline, jobs. rewrite act_store. intros Hj. cbn zeta. cbn in Hj.
  destruct e; try (split; [done|by left; split; [done|intros ? []]]).
  - unfold memCreateJob in *. destruct (w_store w); cbn in *.
    case_match; (split; [done|by left; split; [|intros ? []]]).
  - unfold memUpdateJob in *. destruct (w_store w); cbn in *.
    repeat case_match; (split; [done|by left; split; [|intros ? []]]).
  - unfold memDeleteJob in *. destruct (w_store w); cbn in *.
    case_match; cbn in *; (split; [done|left; split; [|by intros ? []]]); [|done].
    rewrite slice_at_delete, decide_False; [done|]. intros ->.
    rewrite lookup_delete_eq in Hj. by destruct Hj.
  - destruct (m_jobs (w_store w) !! jobID) as [j|] eqn:E; cycle 1.
    { unfold memAppendEvent in *. rewrite E in *. cbn [fst] in *. split; [done|].
      left. split; [done|]. intros st [-> _]. rewrite E in Hj. by destruct Hj. }
    destruct (memAppendEvent_events (env_now env (w_tick w)) jobID ev (w_store w) j E)
      as (_ & Hev & Hother & _ & Hlen).
    split; [exact Hlen|]. destruct (decide (id = jobID)) as [->|Hne].
    + right. eexists. split; [exact Hev|]. intros st. rewrite announced_stamp.
      cbn [announces]. naive_solver.
    + left. split; [by unfold slice_at; rewrite Hother|]. by intros st [? _].
  - unfold memPutPermission in *. destruct (w_store w); cbn in *.
    repeat case_match; (split; [done|by left; split; [|intros ? []]]).
Qed.

Lemma last_n_said n (l : list Event) ev st :
  (∃ ev, ev ∈ l ∧ announced ev = Some st) →
  (∃ ev', ev' ∈ last_n n (l ++ [ev]) ∧ announced ev' = Some st) ∨ n ≤ length (last_n n (l ++ [ev])).
Proof.
  intros (e & He & Ha). destruct (decide (length (l ++ [ev]) ≤ n)) as [Hn|Hn].
  - left. exists e. split; [|done]. unfold last_n. rewrite (proj2 (Nat.sub_0_le _ _) Hn). set_solver.
  - right. rewrite last_n_length; lia.
Qed.

(** What was said stays said. *)
Lemma said_kept X (e : eff X) w id st :
  is_Some (jobs (fst (actTick env e w)) !! id) → said w id st → said (fst (actTick env e w)) id st.
Proof.
  intros Hj Hs. destruct (act_timeline _ e w id Hj) as [Hlen [[Ht _]|(ev & Ht & _)]];
    unfold said in *; rewrite Hlen, Ht; [done|].
  destruct Hs as [Hs|Hs]; [by apply last_n_said|right].
  rewrite last_n_length; [done|]. rewrite length_app. lia.
Qed.

Lemma announces_said X (e : eff X) w id st :
  is_Some (jobs (fst (actTick env e w)) !! id) → announces id st e →
  said (fst (actTick env e w)) id st.
Proof.
  intros Hj He. destruct (act_timeline _ e w id Hj) as [Hlen [[_ Hn]|(ev & Ht & Ha)]];
    [by destruct (Hn st)|].
  unfold said. rewrite Hlen, Ht. destruct (m_maxLen (w_store w)) as [|n] eqn:E; [right; lia|left].
  exists ev. split; [|by apply Ha]. unfold last_n. rewrite length_app. cbn [length].
  rewrite drop_app_le by lia. set_solver.
Qed.

(** What is on a timeline was there before, or is being announced. *)
Lemma heard X (e : eff X) w id st ev :
  is_Some (jobs (fst (actTick env e w)) !! id) →
  ev ∈ timeline (fst (actTick env e w)) id → announced ev = Some st →
  ev ∈ timeline w id ∨ announces id st e.
Proof.
  intros Hj Hev Ha. destruct (act_timeline _ e w id Hj) as [_ [[Ht _]|(ev' & Ht & Hn)]];
    rewrite Ht in Hev; [by left|].
  unfold last_n in Hev. assert (ev ∈ timeline w id ++ [ev']) as Hi
    by (by eapply elem_of_sublist, sublist_drop).
  apply elem_of_app in Hi as [Hi| ->%list_elem_of_singleton]; [by left|right; by apply Hn].
Qed.

(** A record that is there afterwards evolved from the one before, or is new. *)
Lemma act_record X (e : eff X) w id j' :
  lifecycle X e → jobs (fst (actTick env e w)) !! id = Some j' →
  (∃ j, jobs w !! id = Some j ∧ evolves j j')
  ∨ jobs w !! id = None ∧ Terminal (j_Status j') = false.
Proof.
  intros He Hj'. destruct (jobs w !! id) as [j|] eqn:E; [left|right].
  - exists j. split; [done|]. by eapply act_evolves.
  - split; [done|]. unfold jobs in *. rewrite act_store in Hj'. cbn in *. revert Hj'.
    destruct e; cbn in He |- *; try congruence.
    + unfold memCreateJob. destruct (w_store w); cbn in *. case_match; cbn; [congruence|].
      rewrite lookup_insert. case_decide; [intros [= <-]; by rewrite He|congruence].
    + unfold memUpdateJob. destruct (w_store w); cbn in *.
      repeat case_match; cbn; try congruence. rewrite lookup_insert. case_decide; congruence.
    + unfold memDeleteJob. destruct (w_store w); cbn in *. case_match; cbn; [|congruence].
      rewrite lookup_delete. case_decide; congruence.
    + unfold memAppendEvent. destruct (w_store w); cbn in *. repeat case_match; cbn; congruence.
    + unfold memPutPermission. destruct (w_store w); cbn in *. repeat case_match; cbn; congruence.
Qed.

(** Facts last, as long as no ID is issued twice. *)
Definition unreused (seen : gset string) w w' : Prop := ∀ id,
  is_Some (jobs w' !! id) → jobs w !! id = None → id ∉ seen.

Lemma holds_kept X (e : eff X) w seen seen' f :
  lifecycle X e → seen ⊆ seen' → unreused seen w (fst (actTick env e w)) →
  holds seen w f → holds seen' (fst (actTick env e w)) f.
Proof.
  intros He Hs Hu. destruct f as [id|id st|id]; cbn.
  - set_solver.
  - intros (Hin & Ht & Hj). split_and!; [set_solver|done|]. intros j' Hj'.
    destruct (act_record _ _ _ _ _ He Hj') as [(j & Hj0 & Hev)|[Hn _]].
    + rewrite <-(Hj _ Hj0) in Ht |- *. apply ev_final in Hev; [|done]. unfold outcomeOf in Hev. congruence.
    + exfalso. by eapply Hu.
  - intros (Hin & Hn). split; [set_solver|]. apply eq_None_not_Some. intros Hj. by eapply Hu.
Qed.

(** The answer of an action teaches what is true. *)
Lemma act_learns F X (e : eff X) w seen :
  (∀ id, is_Some (jobs w !! id) → id ∈ seen) → 
  ∃ F', learns F e (snd (actTick env e w)) F'
    ∧ (Forall (holds seen w) F → Forall (λ f, f ∈ F ∨ holds seen (fst (actTick env e w)) f) F').
Proof.
  intros Hseen. assert (Forall (holds seen w) F → Forall (λ f, f ∈ F ∨ holds seen (fst (actTick env e w)) f) F) as Hold.
  { intros _. apply Forall_forall. by left. }
  pose proof (act_store X e w) as Hst.
  destruct e; try (by exists F).
  - eexists. split; [done|]. unfold actTick in *. cbn. unfold memGetJob.
    destruct (m_jobs (w_store w) !! id) as [j|] eqn:E; [|done]. intros HF.
    constructor; [right; apply Hseen; by eexists|by apply Hold].
  - unfold actTick in *. cbn in *. unfold onStore in *. unfold jobs, memUpdateJob in *. cbn in *.
    destruct (m_jobs (w_store w) !! id) as [j|] eqn:E; cycle 1.
    { eexists. split; [right; by eexists|]. intros HF. case_bool_decide as HK; [|by apply Hold].
      constructor; [|by apply Hold]. right. split; [|by destruct w].
      by apply (proj1 (Forall_forall _ _) HF (Known id)). }
    destruct (fn c j) as [c' [j'|e]] eqn:Hf.
    + eexists. split; [left; exists j; split; [by rewrite Hf|done]|]. intros HF. cbn [snd].
      case_match; [|by apply Hold]. constructor; [|by apply Hold]. right. split_and!; [by eauto|done|].
      intros j2 Hj2. destruct w as [m]; destruct m; cbn in *. rewrite lookup_insert_eq in Hj2. congruence.
    + eexists. split; [left; exists j; split; [by rewrite Hf|done]|]. done.
Qed.

(** An update that ends a job binds the goroutine that made it. *)
Lemma act_duty X (e : eff X) w id j j' debt :
  lifecycle X e → duty e (snd (actTick env e w)) debt →
  jobs w !! id = Some j → jobs (fst (actTick env e w)) !! id = Some j' →
  Terminal (j_Status j) = false → Terminal (j_Status j') = true → debt id (j_Status j').
Proof.
  intros He. unfold jobs. rewrite act_store. unfold actTick. cbn. intros Hd Hj Hj' Hl Ht.
  destruct e; cbn in *; try congruence.
  - unfold memCreateJob in *. destruct (w_store w); cbn in *. case_match; cbn in *; [congruence|].
    rewrite lookup_insert in Hj'. case_decide; congruence.
  - unfold onStore, memUpdateJob in *.
    destruct (m_jobs (w_store w) !! id0) as [j0|] eqn:E; [|cbn in *; congruence].
    destruct (fn c j0) as [c' [j1|e]] eqn:Hf; cbn in *; [|congruence].
    destruct (w_store w); cbn in *. rewrite lookup_insert in Hj'. case_decide; [|congruence].
    simplify_eq. eapply Hd; eauto.
  - unfold memDeleteJob in *. destruct (w_store w); cbn in *. case_match; cbn in *; [|congruence].
    rewrite lookup_delete in Hj'. case_decide; congruence.
  - unfold memAppendEvent in *. destruct (w_store w); cbn in *. repeat case_match; cbn in *; congruence.
  - unfold memPutPermission in *. destruct (w_store w); cbn in *. repeat case_match; cbn in *; congruence.
Qed.

(** ** The pool *)

Implicit Type c : World memStore * list (prog unit).

(** What a goroutine has become after a step of the pool: it moved, or it is as before;
    or it is new. *)
Lemma step_pool c c' :
  step env c c' →
  ∃ i p, snd c !! i = Some p ∧
    ((∃ X (e : eff X) k, p = Act e k ∧ fst c' = fst (actTick env e (fst c))
        ∧ snd c' = <[i := k (snd (actTick env e (fst c)))]> (snd c))
     ∨ (∃ l q k, p = Go l q k ∧ fst c' = fst c ∧ snd c' = <[i := k]> (snd c) ++ [q])).
Proof.
  inversion 1 as [w ts i X e k w' x Hi Ha|w ts i l q k Hi]; subst; exists i; eexists;
    (split; [exact Hi|]); [left|right].
  - exists X, e, k. cbn [fst snd]. by rewrite Ha.
  - by exists l, q, k.
Qed.

(** Each goroutine is forthright about what it knows, and that is true. *)
Definition honest (seen : gset string) w (p : prog unit) : Prop :=
  ∃ F, Forall (holds seen w) F ∧ forthright F p (λ _ _, True).

(** No timeline announces anything but the status of the record. *)
Definition candid w : Prop := ∀ id j ev st,
  jobs w !! id = Some j → ev ∈ timeline w id → announced ev = Some st → j_Status j = st.

Lemma act_candid X (e : eff X) w seen F :
  lifecycle X e → wf (w_store w) → Forall (holds seen w) F → speaks F e →
  (∀ id, is_Some (jobs w !! id) → id ∈ seen) → candid w → candid (fst (actTick env e w)).
Proof.
  intros He Hw HF Hsp Hseen Hc id j' ev st Hj' Hev Ha.
  destruct (heard _ _ _ _ _ _ ltac:(by eexists) Hev Ha) as [Hev0|Hann].
  - destruct (act_record _ _ _ _ _ He Hj') as [(j & Hj & Hevol)|[Hn _]].
    + pose proof (Hc _ _ _ _ Hj Hev0 Ha) as Hst. apply announced_terminal in Ha. subst st.
      apply ev_final in Hevol; [|done]. unfold outcomeOf in Hevol. congruence.
    + rewrite timeline_missing in Hev0 by done. by apply elem_of_nil in Hev0.
  - destruct e; try done. destruct Hann as [-> Han]. cbn in Hsp.
    rewrite act_bookkeeping in Hj' by done.
    destruct (Hsp _ Han) as [Hf|Hf]; apply (proj1 (Forall_forall _ _) HF) in Hf; cbn in Hf.
    + destruct Hf as (_ & _ & Hf). by apply Hf.
    + destruct Hf as [_ Hf]. unfold jobs in Hj'. cbn in Hj'. congruence.
Qed.

(** Every ended job was announced, or a goroutine is about to. *)
Definition accounted c : Prop := ∀ id j,
  jobs (fst c) !! id = Some j → Terminal (j_Status j) = true →
  said (fst c) id (j_Status j) ∨ ∃ p, p ∈ snd c ∧ owes id (j_Status j) p.

(** A debt survives a step of the goroutine at [i] unless that goroutine settles it. *)
Lemma owes_insert id st i p p' (ts : list (prog unit)) :
  ts !! i = Some p → (∃ q, q ∈ ts ∧ owes id st q) →
  owes id st p ∨ ∃ q, q ∈ <[i := p']> ts ∧ owes id st q.
Proof.
  intros Hi (q & (n & Hn)%list_elem_of_lookup & Hq). destruct (decide (n = i)) as [->|Hne].
  - left. congruence.
  - right. exists q. split; [|done]. apply list_elem_of_lookup. exists n.
    by rewrite list_lookup_insert_ne.
Qed.

Lemma owes_inserted id st i p p' (ts : list (prog unit)) :
  ts !! i = Some p → owes id st p' → ∃ q, q ∈ <[i := p']> ts ∧ owes id st q.
Proof.
  intros Hi%lookup_lt_Some Ho. exists p'. split; [|done]. by apply list_elem_of_insert.
Qed.

Lemma step_keeps_accounted c c' :
  step env c c' → Forall (guarded lifecycle) (snd c) →
  Forall (λ p, ∃ F, forthright F p (λ _ _, True)) (snd c) → accounted c → accounted c'.
Proof.
  intros Hs Hg Hf Hacc id j' Hj' Ht.
  destruct (step_pool _ _ Hs) as (i & p & Hi & [(X & e & k & -> & Ew & Ets)|(l & q & k & -> & Ew & Ets)]);
    rewrite Ew in *; rewrite Ets; clear Ew Ets.
  - destruct (Forall_lookup_1 _ _ _ _ Hg Hi) as [He _].
    destruct (Forall_lookup_1 _ _ _ _ Hf Hi) as (F & _ & Hk).
    destruct (act_record _ _ _ _ _ He Hj') as [(j & Hj & Hev)|[_ Hl]]; [|congruence].
    destruct (Terminal (j_Status j)) eqn:Htj.
    + assert (j_Status j' = j_Status j) as ->.
      { apply ev_final in Hev; [|done]. unfold outcomeOf in Hev. congruence. }
      destruct (Hacc _ _ Hj Htj) as [Hsaid|Howe]; [left; apply said_kept; [by eexists|done]|].
      destruct (owes_insert _ _ _ _ (k (snd (actTick env e (fst c)))) _ Hi Howe) as [[Ha|Ho]|Ho];
        [left; by eapply announces_said|right; by eapply owes_inserted|by right].
    + right. destruct (act_learns F _ e (fst c) (dom (jobs (fst c)))) as (F' & Hl & _).
      { intros id'. by rewrite elem_of_dom. }
      destruct (Hk _ _ Hl) as [Hd _]. eapply owes_inserted; [done|].
      by eapply (act_duty _ e _ _ _ _ _ He Hd).
  - destruct (Hacc _ _ Hj' Ht) as [Hsaid|Howe]; [by left|right].
    destruct (owes_insert _ _ _ _ k _ Hi Howe) as [Ho|(q' & Hq' & Ho)].
    + cbn in Ho. destruct (owes_inserted _ _ _ _ _ _ Hi Ho) as (q' & Hq' & ?). exists q'. set_solver.
    + exists q'. set_solver.
Qed.

Lemma step_forthright c c' :
  step env c c' → Forall (λ p, ∃ F, forthright F p (λ _ _, True)) (snd c) →
  Forall (λ p, ∃ F, forthright F p (λ _ _, True)) (snd c').
Proof.
  intros Hs Hf.
  destruct (step_pool _ _ Hs) as (i & p & Hi & [(X & e & k & -> & _ & Ets)|(l & q & k & -> & _ & Ets)]);
    rewrite Ets; destruct (Forall_lookup_1 _ _ _ _ Hf Hi) as (F & Hp1 & Hp2).
  - apply Forall_insert; [done|].
    destruct (act_learns F _ e (fst c) (dom (jobs (fst c)))) as (F' & Hl & _).
    { intros id'. by rewrite elem_of_dom. }
    exists F'. by apply Hp2.
  - apply Forall_app. split; [apply Forall_insert; [done|]|constructor; [|done]]; by exists F.
Qed.

(** A step in which no ID is issued a second time; the IDs issued are kept alongside. *)
Definition issuing (x x' : gset string * (World memStore * list (prog unit))) : Prop :=
  step env (snd x) (snd x')
  ∧ unreused (fst x) (fst (snd x)) (fst (snd x'))
  ∧ fst x' = fst x ∪ dom (jobs (fst (snd x'))).

Lemma step_honest x x' :
  issuing x x' → Forall (guarded lifecycle) (snd (snd x)) → wf (w_store (fst (snd x))) →
  dom (jobs (fst (snd x))) ⊆ fst x → Forall (honest (fst x) (fst (snd x))) (snd (snd x)) →
  candid (fst (snd x)) →
  wf (w_store (fst (snd x'))) ∧ dom (jobs (fst (snd x'))) ⊆ fst x'
  ∧ Forall (honest (fst x') (fst (snd x'))) (snd (snd x')) ∧ candid (fst (snd x')).
Proof.
  destruct x as [seen c], x' as [seen' c']. unfold issuing. cbn [fst snd].
  intros (Hs & Hu & Hseen') Hg Hw Hd Hh Hc. assert (seen ⊆ seen') as Hsub by set_solver.
  assert (∀ id, is_Some (jobs (fst c) !! id) → id ∈ seen) as Hin.
  { intros id Hid. apply Hd. by apply elem_of_dom. }
  assert (dom (jobs (fst c')) ⊆ seen') as Hd' by set_solver. clear Hseen'.
  destruct (step_pool _ _ Hs) as (i & p & Hi & [(X & e & k & -> & Ew & Ets)|(l & q & k & -> & Ew & Ets)]);
    rewrite Ew in *; rewrite Ets; clear Ew Ets;
    destruct (Forall_lookup_1 _ _ _ _ Hh Hi) as (F & HF & Hp); cbn in Hp; destruct Hp as [Hp1 Hp2].
  - destruct (Forall_lookup_1 _ _ _ _ Hg Hi) as [He _].
    split_and!; [by apply act_wf|done| |by eapply act_candid].
    assert (∀ G, Forall (holds seen (fst c)) G →
      Forall (holds seen' (fst (actTick env e (fst c)))) G) as Hkeep.
    { intros G HG. eapply Forall_impl; [exact HG|]. intros f. by apply holds_kept. }
    apply Forall_insert.
    + eapply Forall_impl; [exact Hh|]. intros p (G & HG & ?). exists G. auto.
    + destruct (act_learns F _ e (fst c) seen Hin) as (F' & Hl & HF').
      exists F'. split; [|by apply Hp2]. eapply Forall_impl; [by apply HF'|].
      intros f [Hf|Hf]; [by apply (proj1 (Forall_forall _ _) (Hkeep _ HF))|].
      destruct f; cbn in *; set_solver.
  - assert (∀ p, honest seen (fst c) p → honest seen' (fst c) p) as Hkeep.
    { intros p (G & HG & ?). exists G. split; [|done]. eapply Forall_impl; [exact HG|].
      intros []; cbn; set_solver. }
    split_and!; [done|done| |done]. apply Forall_app.
    split; [apply Forall_insert|constructor; [|done]].
    + eapply Forall_impl; [exact Hh|]. apply Hkeep.
    + apply Hkeep. by exists F.
    + apply Hkeep. by exists F.
Qed.

End system.

(** ** Properties *)

(** C2. What a timeline announces is how the job ended. Start the process, over the
    in-memory store, with any harness streams, API calls and sweeps, and let job IDs never
    be issued twice: under every interleaving, a terminal [status_change] on the timeline
    of a stored job carries the status its record has, and so keeps for good. No launch
    that failed late, no harness that sends [status_change] events of its own, no
    cancellation racing a [done] and no sweep makes a watch end on another outcome. *)
Theorem announcements_are_final `{UnicodeTables} `{HarnessEventObjects} (env : Env) (sv : Service)
  (c : World memStore * list (prog unit)) (x' : gset string * (World memStore * list (prog unit)))
  (Hops : Forall (operation sv) (snd c)) (Hwf : wf (w_store (fst c))) (Hc : candid (fst c))
  (Hsteps : rtc (issuing env) (dom (jobs (fst c)), c) x')
  (id : string) (j : Job) (ev : Event)
  (Hj : jobs (fst (snd x')) !! id = Some j) (Hev : ev ∈ timeline (fst (snd x')) id)
  (Hterminal : isTerminalStatusEvent ev = true) :
  announced ev = Some (j_Status j) ∧ Terminal (j_Status j) = true.
Proof.
  assert (candid (fst (snd x'))) as Hc'.
  { remember (dom (jobs (fst c)), c) as x eqn:Ex.
    assert (Forall (guarded lifecycle) (snd (snd x))) as Hg.
    { subst. eapply Forall_impl; [exact Hops|]. apply guarded_operation. }
    assert (Forall (honest (fst x) (fst (snd x))) (snd (snd x))) as Hh.
    { subst. eapply Forall_impl; [exact Hops|]. intros p Hp. exists []. split; [done|].
      by apply (tells_operation _ sv). }
    assert (dom (jobs (fst (snd x))) ⊆ fst x) as Hd by (by subst).
    assert (candid (fst (snd x)) ∧ wf (w_store (fst (snd x)))) as [Hcx Hwx] by (by subst).
    clear -Hsteps Hg Hh Hd Hcx Hwx H1. induction Hsteps as [|x y z Hxy _ IH]; [done|].
    destruct (step_honest env x y) as (?&?&?&?); try done. apply IH; try done.
    destruct x as [? []], y as [? []], Hxy as (Hs & _). by eapply step_guarded. }
  rewrite announced_isTerminal in Hterminal. apply bool_decide_eq_true in Hterminal as [st Ha].
  rewrite (Hc' _ _ _ _ Hj Hev Ha). split; [done|]. by eapply announced_terminal.
Qed.

(** C3. A settled job is announced. In the same setting, whatever the interleaving, a job
    whose record is terminal has its status announced on its timeline (unless the
    timeline has reached the store's limit, beyond which the oldest events are dropped), or
    some goroutine is about to announce it: whatever answers it gets, that goroutine
    appends the announcement before it ends. Once all goroutines have ended, every
    terminal job has been announced. *)
Theorem settled_jobs_are_announced `{UnicodeTables} `{HarnessEventObjects} (env : Env) (sv : Service)
  (c c' : World memStore * list (prog unit))
  (Hops : Forall (operation sv) (snd c)) (Hacc : accounted c) (Hsteps : rtc (step env) c c')
  (id : string) (j : Job)
  (Hj : jobs (fst c') !! id = Some j) (Ht : Terminal (j_Status j) = true) :
  (said (fst c') id (j_Status j) ∨ ∃ p, p ∈ snd c' ∧ owes id (j_Status j) p)
  ∧ (Forall (λ p, p = mret tt) (snd c') → said (fst c') id (j_Status j)).
Proof.
  assert (accounted c') as Hacc'.
  { assert (Forall (guarded lifecycle) (snd c)) as Hg.
    { eapply Forall_impl; [exact Hops|]. apply guarded_operation. }
    assert (Forall (λ p, ∃ F, forthright F p (λ _ _, True)) (snd c)) as Hf.
    { eapply Forall_impl; [exact Hops|]. intros p Hp. exists []. by apply (tells_operation _ sv). }
    clear -Hsteps Hg Hf Hacc H1. induction Hsteps as [|x y z Hxy _ IH]; [done|].
    apply IH; [by eapply step_keeps_accounted| |by eapply step_forthright].
    destruct x, y. by eapply step_guarded. }
  split; [by apply Hacc'|]. intros Hdone.
  destruct (Hacc' _ _ Hj Ht) as [Hs|(p & Hp & Ho)]; [done|].
  by rewrite (proj1 (Forall_forall _ _) Hdone _ Hp) in Ho.
Qed.

(** ** A concrete run *)

#[local] Existing Instance sample_tables.

(** A codec that prints the type and the text of an event as an object. *)
#[local] Instance object_codec : ProtoJSON := {|
  MarshalHarnessEvent := λ ev, Ok (marshalObject [("type", he_Type ev); ("text", he_Text ev)]);
  MarshalControlEvent := λ ev, Ok (marshalObject [("type", ce_Type ev)]);
  MarshalRunConfig := @MarshalRunConfig sample_codec;
  UnmarshalRunConfig := @UnmarshalRunConfig sample_codec;
|}.

#[local] Instance object_codec_objects : HarnessEventObjects.
Proof.
  intros ev s [= <-]. eexists. split; [apply parse_marshalObject|].
  repeat constructor; vm_compute; set_solver.
Qed.

(** A harness that claims success before it is cut off, a cancellation and a sweep. *)
Definition forger : list HarnessEvent :=
  [sample_ready;
   mkHarnessEvent "status_change" (marshalStatus (mkStatusPayload StatusSucceeded "")) "" "" "" "" ""
     "" "" None "" "" "" ""].

Definition contested : World memStore * list (prog unit) :=
  (sample_world forger,
   [discard (runTask sample_handler 10 0); discard (Cancel sample_id);
    sweep (NewReaper 0 0 []) 10]).

(** The stream first, then the cancellation, then the sweep. *)
Definition contested_schedule : list nat := replicate 40 0 ++ replicate 20 1 ++ replicate 20 2.

(** A run by a schedule, if it issues no ID twice. *)
Fixpoint execIssuing (env : Env) (sched : list nat)
  (x : gset string * (World memStore * list (prog unit)))
  : option (gset string * (World memStore * list (prog unit))) :=
  match sched with
  | [] => Some x
  | i :: sched' =>
      let c' := execOne env i (snd x) in
      let new := dom (jobs (fst c')) ∖ dom (jobs (fst (snd x))) in
      if bool_decide (new ## fst x) then execIssuing env sched' (fst x ∪ dom (jobs (fst c')), c')
      else None
  end.

Lemma execIssuing_steps env sched x x' :
  dom (jobs (fst (snd x))) ⊆ fst x → execIssuing env sched x = Some x' → rtc (issuing env) x x'.
Proof.
  revert x. induction sched as [|i sched IH]; intros [seen c] Hd E; cbn in E; [by simplify_eq|].
  case_bool_decide as Hnew; [|done]. cbn [fst snd] in *.
  destruct (execOne_step env i c) as [Ei|Hs].
  - rewrite Ei in E. apply IH in E; cbn [fst snd] in *; [|set_solver].
    by rewrite (comm_L (∪)), subseteq_union_1_L in E.
  - eapply rtc_l; [|apply IH; [|exact E]; cbn; set_solver]. split_and!; [done| |done].
    intros id Hid Hno. cbn [fst snd] in *. apply elem_of_dom in Hid. apply not_elem_of_dom in Hno.
    set_solver.
Qed.

Definition contested_end : gset string * (World memStore * list (prog unit)) :=
  default (∅, contested)
    (execIssuing sample_env contested_schedule (dom (jobs (fst contested)), contested)).

Lemma contested_runs : rtc (issuing sample_env) (dom (jobs (fst contested)), contested) contested_end.
Proof.
  apply (execIssuing_steps _ contested_schedule); [done|]. unfold contested_end.
  assert (bool_decide (execIssuing sample_env contested_schedule
    (dom (jobs (fst contested)), contested) ≠ None) = true) as Hn%bool_decide_eq_true
    by (vm_compute; reflexivity).
  by destruct (execIssuing _ _ _).
Qed.

Lemma contested_silent id : timeline (fst contested) id = [].
Proof.
  unfold timeline, slice_at.
  change (m_events (w_store (fst contested))) with (∅ : gmap string (list Event)).
  by rewrite lookup_empty.
Qed.

Lemma contested_candid : candid (fst contested).
Proof. intros id j ev st _ Hev. rewrite contested_silent in Hev. by apply elem_of_nil in Hev. Qed.

Lemma contested_accounted : accounted contested.
Proof.
  intros id j Hj Ht.
  change (jobs (fst contested)) with ({[sample_id := sample_stored]} : gmap string Job) in Hj.
  by apply lookup_singleton_Some in Hj as [<- <-].
Qed.

Lemma contested_ops : Forall (operation (NewService None [])) (snd contested).
Proof. repeat constructor. Qed.

(** The job has failed; the forged claim is on the timeline, and only the failure counts. *)
Example contested_timeline :
  j_Status <$> (jobs (fst (snd contested_end)) !! sample_id) = Some StatusFailed
  ∧ ev_Type <$> timeline (fst (snd contested_end)) sample_id = replicate 3 EventStatusChange
  ∧ announced <$> timeline (fst (snd contested_end)) sample_id = [None; None; Some StatusFailed].
Proof. vm_compute. done. Qed.

Lemma announcements_are_final_witness :
  ∃ j ev, jobs (fst (snd contested_end)) !! sample_id = Some j
    ∧ ev ∈ timeline (fst (snd contested_end)) sample_id
    ∧ announced ev = Some (j_Status j) ∧ Terminal (j_Status j) = true.
Proof.
  set (j := default sample_stored (jobs (fst (snd contested_end)) !! sample_id)).
  set (ev := default (mkEvent "" "" "" 0) (last (timeline (fst (snd contested_end)) sample_id))).
  assert (jobs (fst (snd contested_end)) !! sample_id = Some j) as Hj by (vm_compute; reflexivity).
  assert (ev ∈ timeline (fst (snd contested_end)) sample_id) as Hev.
  { apply last_Some_elem_of. vm_compute. reflexivity. }
  exists j, ev. split; [done|]. split; [done|].
  apply (announcements_are_final sample_env (NewService None []) contested contested_end
    contested_ops (wf_CreateJob _ _ (wf_NewMemStore 0)) contested_candid contested_runs
    sample_id j ev Hj Hev).
  vm_compute. reflexivity.
Defined.

Lemma settled_jobs_are_announced_witness :
  said (fst (exec sample_env contested_schedule contested)) sample_id StatusFailed.
Proof.
  set (j := default sample_stored
              (jobs (fst (exec sample_env contested_schedule contested)) !! sample_id)).
  assert (jobs (fst (exec sample_env contested_schedule contested)) !! sample_id = Some j) as Hj
    by (vm_compute; reflexivity).
  assert (j_Status j = StatusFailed) as E by (vm_compute; reflexivity). rewrite <-E.
  apply (settled_jobs_are_announced sample_env (NewService None []) contested _
    contested_ops contested_accounted (exec_steps _ _ _) sample_id j Hj).
  - by rewrite E.
  - vm_compute. by repeat constructor.
Defined.
