(* ===== verification/Api.v ===== *)
(** * The JobService API ([src/internal/api/api.go], [convert.go])

    The RPC handlers: request and response mapping and error codes, every operation
    delegated to the service.  The messages are those of [hairpin.v1], by the fields
    the handlers read and set; a [nil] sub-message is [None]. *)

From stdpp Require Import base gmap list strings.
From S2P Require Import Prelude Fmt Job Proto Store Timeline Prog RunConfigs Service Watch.

(** ** Messages *)

Inductive JobStatus :=
  | JOB_STATUS_UNSPECIFIED
  | JOB_STATUS_QUEUED
  | JOB_STATUS_LAUNCHING
  | JOB_STATUS_AWAITING_HARNESS
  | JOB_STATUS_RUNNING
  | JOB_STATUS_SUCCEEDED
  | JOB_STATUS_FAILED
  | JOB_STATUS_CANCELLED.

#[export] Instance JobStatus_eq_dec : EqDecision JobStatus.
Proof. solve_decision. Defined.

(** [timestamppb.Timestamp]: Unix seconds, and nanoseconds within the second. *)
Record Timestamp := mkTimestamp {
  ts_Seconds : Z;
  ts_Nanos : Z;
}.

Record JobMsg := mkJobMsg {
  jm_Id : string;
  jm_Status : JobStatus;
  jm_Prompt : string;
  jm_Profile : string;
  jm_StopReason : string;
  jm_Error : string;
  jm_FinalText : string;
  jm_CreatedAt : option Timestamp;
  jm_StartedAt : option Timestamp;
  jm_FinishedAt : option Timestamp;
  jm_LastEventAt : option Timestamp;
}.

Record JobEvent := mkJobEvent {
  je_Id : string;
  je_Type : string;
  je_PayloadJson : string;
  je_At : option Timestamp;
}.

Record PermissionMsg := mkPermissionMsg {
  pm_RequestId : string;
  pm_ToolName : string;
  pm_InputJson : string;
  pm_State : string;
  pm_Reason : string;
  pm_RequestedAt : option Timestamp;
  pm_AnsweredAt : option Timestamp;
}.

Record SubmitJobRequest := mkSubmitJobRequest {
  sr_Prompt : string;
  sr_Profile : string;
  sr_RunConfigJson : string;
  sr_RepoScope : list string;
}.

Record SubmitJobResponse := mkSubmitJobResponse {
  sj_Job : JobMsg;
  sj_HarnessSession : string;
}.

(** ** Conversions *)

Definition statusToProto (s : Status) : JobStatus :=
  if s ==? StatusQueued then JOB_STATUS_QUEUED
  else if s ==? StatusLaunching then JOB_STATUS_LAUNCHING
  else if s ==? StatusAwaitingHarness then JOB_STATUS_AWAITING_HARNESS
  else if s ==? StatusRunning then JOB_STATUS_RUNNING
  else if s ==? StatusSucceeded then JOB_STATUS_SUCCEEDED
  else if s ==? StatusFailed then JOB_STATUS_FAILED
  else if s ==? StatusCancelled then JOB_STATUS_CANCELLED
  else JOB_STATUS_UNSPECIFIED.

Definition timestampOrNil (t : Time) : option Timestamp :=
  if IsZero t then None else Some (mkTimestamp (Unix t) ((t - unixEpoch) `mod` Second)).

Definition jobToProto (j : Job) : JobMsg :=
  mkJobMsg (j_ID j) (statusToProto (j_Status j)) (j_Prompt j) (j_Profile j) (j_StopReason j)
    (j_Error j) (j_FinalText j) (timestampOrNil (j_CreatedAt j)) (timestampOrNil (j_StartedAt j))
    (timestampOrNil (j_FinishedAt j)) (timestampOrNil (j_LastEventAt j)).

Definition eventToProto (ev : Event) : JobEvent :=
  mkJobEvent (ev_ID ev) (ev_Type ev) (ev_PayloadJSON ev) (timestampOrNil (ev_At ev)).

Definition permissionToProto (p : PermissionRequest) : PermissionMsg :=
  mkPermissionMsg (pr_RequestID p) (pr_ToolName p) (pr_InputJSON p) (pr_State p) (pr_Reason p)
    (timestampOrNil (pr_RequestedAt p)) (timestampOrNil (pr_AnsweredAt p)).

(** ** Handlers *)

Definition defaultListLimit : Z := 50.
Definition maxListLimit : Z := 100.

Definition connectError (e : error) : error :=
  if errorsIs e ErrNotFound then ConnectError CodeNotFound e
  else if errorsIs e ErrInvalidArgument then ConnectError CodeInvalidArgument e
  else if errorsIs e ErrNotConnected then ConnectError CodeFailedPrecondition e
  else ConnectError CodeInternal e.

(** The response, or the mapped error. *)
Definition respond {A B} (f : A → B) (r : res A) : res B :=
  match r with
  | Err e => Err (connectError e)
  | Ok a => Ok (f a)
  end.

(** The limit passed on for a requested one. *)
Definition listLimit (limit : Z) : Z :=
  let limit := if (limit <=? 0)%Z then defaultListLimit else limit in
  if (maxListLimit <? limit)%Z then maxListLimit else limit.

Section api.
Context `{UnicodeTables} `{ProtoJSON}.
Variable s : Service.

Definition SubmitJob (req : SubmitJobRequest) : prog (res SubmitJobResponse) :=
  r ← Submit s (mkSubmitParams (sr_Prompt req) (sr_Profile req) (sr_RunConfigJson req)
        (sr_RepoScope req));
  mret (respond (λ j, mkSubmitJobResponse (jobToProto j) (SessionString j)) r).

Definition GetJob (id : string) : prog (res JobMsg) :=
  r ← GetOp id; mret (respond jobToProto r).

Definition ListJobs (limit : Z) (pageToken : string) : prog (res (list JobMsg * string)) :=
  o ← Service.List (listLimit limit) pageToken;
  match o with
  | Panicked => Panic
  | Returned r => mret (respond (λ '((jobs, next) : list Job * string), (jobToProto <$> jobs, next)) r)
  end.

Definition CancelJob (id : string) : prog (res JobMsg) :=
  r ← Cancel id; mret (respond jobToProto r).

Definition ListPermissionRequests (jobID : string) : prog (res (list PermissionMsg)) :=
  r ← ListPermissionsOp jobID; mret (respond (fmap (M := list) permissionToProto) r).

Definition AnswerPermission (jobID requestID : string) (allow : bool) (reason : string)
  : prog (res PermissionMsg) :=
  r ← Service.AnswerPermission jobID requestID allow reason;
  mret (respond permissionToProto r).

(** The first half of [WatchJob]: open the channel. *)
Definition WatchJob {Chan : Type} (opened : res Chan) (fuel : nat) (id afterID : string)
  : prog (res (watching Chan)) :=
  r ← Watch opened fuel id afterID; mret (respond (λ w, w) r).

(** The second half: relay what the channel delivers until it closes ([None]), the
    context is found done at the [n]-th turn ([done n]), or a send fails. *)
Fixpoint relay (done sendErr : nat → option error) (n : nat) (events : list Event)
  : list JobEvent * option error :=
  match done n with
  | Some e => ([], Some e)
  | None =>
      match events with
      | [] => ([], None)
      | ev :: events' =>
          match sendErr n with
          | Some e => ([], Some e)
          | None =>
              let '(sent, e) := relay done sendErr (S n) events' in (eventToProto ev :: sent, e)
          end
      end
  end.

End api.
