(* ===== verification/ApiFacts.v ===== *)
(** * What API callers are told

    Error codes, page sizes, the mapping of statuses and times, and that no
    response but that of a submission depends on a job's bearer token. *)

From stdpp Require Import base gmap list strings.
From S2P Require Import Prelude Fmt Job Proto Store Timeline MemStore MemStoreFacts Prog.
From S2P Require Import RunConfigs Service Watch Api Handler Samples.

(** ** Codes *)

Section codes.
Context `{UnicodeTables} `{ProtoJSON} {St : Type} `{StoreLaws St} (env : Env).
Implicit Type w : World St.

Lemma CodeOf_connectError e :
  CodeOf (connectError e)
  = if errorsIs e ErrNotFound then CodeNotFound
    else if errorsIs e ErrInvalidArgument then CodeInvalidArgument
    else if errorsIs e ErrNotConnected then CodeFailedPrecondition
    else CodeInternal.
Proof. unfold connectError. repeat case_match; reflexivity. Qed.

Lemma CodeOf_invalid msg : CodeOf (connectError (invalid msg)) = CodeInvalidArgument.
Proof. rewrite CodeOf_connectError. unfold invalid. by rewrite !errorsIs_wrapf. Qed.

(** [GetJob] answers every request: a malformed ID is refused as an invalid
    argument without a store access, an unknown job is not found, and a known one
    is returned as the store holds it; and the error a caller gets carries the
    message of the service's error. *)
Theorem GetJob_codes (id : string) (w : World St) :
  runsTo env (Api.GetJob id) w (λ r w', jobs w' = jobs w ∧
    match r with
    | Ok m => ValidID id = true ∧ ∃ j, jobs w !! id = Some j ∧ m = jobToProto j
    | Err e =>
        (ValidID id = false ∧ CodeOf e = CodeInvalidArgument ∧ w' = w
         ∧ asConnectError e = Some (CodeInvalidArgument,
             ("malformed job id " +:+ Quote id) +:+ ": invalid argument"))
        ∨ (ValidID id = true ∧ jobs w !! id = None ∧ CodeOf e = CodeNotFound)
    end).
Proof.
  unfold Api.GetJob, GetOp, checked, checkID. destruct (ValidID id) eqn:Hv; cbn [negb].
  - apply runsTo_bind, runsTo_perform. unfold actTick. cbn [act fst snd].
    apply runsTo_ret. rewrite jobs_set_tick. split; [done|].
    pose proof (law_GetJob id (w_store w)) as Hl. unfold jobs. destruct (job_of _ !! id) as [j|] eqn:E.
    + rewrite Hl. cbn. eauto.
    + destruct Hl as (e & -> & He). cbn. right. rewrite CodeOf_connectError, He. done.
  - apply runsTo_bind, runsTo_ret, runsTo_ret. split; [done|]. left. rewrite CodeOf_invalid.
    split_and!; [done..|]. unfold connectError, invalid. by rewrite !errorsIs_wrapf.
Qed.

End codes.

(** ** Refused submissions *)

(** An error that blames the caller. *)
Definition callerFault (e : error) : Prop := ∃ msg, e = invalid msg.

Section submissions.
Context `{UnicodeTables} `{ProtoJSON} (s : Service).

(** Each refusal of a check is such an error. *)
Ltac caller_fault := repeat case_match; intros; simplify_eq; try done; by eexists.

Lemma resolveConfig_fault ps p e : resolveConfig ps p = Err e → callerFault e.
Proof. unfold resolveConfig. caller_fault. Qed.

Lemma validateRepoEntries_fault scope e : validateRepoEntries scope = Some e → callerFault e.
Proof.
  induction scope as [|x l IH]; cbn [validateRepoEntries]; [done|].
  repeat (case_match; [intros; simplify_eq; by eexists|]). done.
Qed.

Lemma validateRepoScope_fault scope e : validateRepoScope scope = Some e → callerFault e.
Proof.
  unfold validateRepoScope. case_match; [caller_fault|apply validateRepoEntries_fault].
Qed.

Lemma validateExecutor_fault ex e : validateExecutor ex = Some e → callerFault e.
Proof. unfold validateExecutor. cbn zeta. caller_fault. Qed.

Lemma validateRunConfig_fault cfg e : validateRunConfig cfg = Some e → callerFault e.
Proof.
  unfold validateRunConfig. repeat case_match; try apply validateExecutor_fault;
    intros; simplify_eq; by eexists.
Qed.

Lemma validateControlPlaneTools_fault tools mem e :
  validateControlPlaneTools tools mem = Some e → callerFault e.
Proof.
  induction tools as [|x l IH]; cbn [validateControlPlaneTools]; [done|].
  cbn zeta. repeat (case_match; [intros; simplify_eq; by eexists|]). done.
Qed.

(** Submit's error, if any, blames the caller unless the store was reached or the
    config could not be encoded. *)
Definition blamed (r : res Job) (hist : list obs) : Prop :=
  match r with
  | Ok _ => True
  | Err e => callerFault e
      ∨ (∃ cfg e', MarshalRunConfig cfg = Err e' ∧ e = wrapf "encode run config" e')
      ∨ (∃ j, Obs (ECreateJob j) (Err e) ∈ hist)
  end.

(** Everything is allowed. *)
Definition anyPolicy : policy := mkPolicy (λ _ _ _, True) (λ _ _ _, True).

Lemma Submit_blames p : wp anyPolicy [] (Submit s p) blamed.
Proof.
  unfold Submit, failSubmit, appendStatusEvent. wp_peel; try done.
  all: try (cbn; by eauto using resolveConfig_fault, validateRepoScope_fault,
    validateRunConfig_fault, validateControlPlaneTools_fault).
  - cbn. right; right. eexists. in_hist.
  - cbn. right; left. eauto.
Qed.

(** A refused submission is the caller's to fix, and says so: in every trace of
    [SubmitJob] that ends in an error without the store having been asked to create
    the job, the error has the code for an invalid argument, unless the effective
    config could not be encoded. *)
Theorem SubmitJob_blames_caller (req : SubmitJobRequest) (t : list obs) (e : error)
  (Ht : trace (SubmitJob s req) t (Some (Done (Err e))))
  (Hstore : ∀ j x, Obs (ECreateJob j) x ∉ t) :
  CodeOf e = CodeInvalidArgument ∨ ∃ cfg e', MarshalRunConfig cfg = Err e'.
Proof.
  assert (wp anyPolicy [] (SubmitJob s req) (λ r hist, ∀ e, r = Err e →
    CodeOf e = CodeInvalidArgument ∨ (∃ cfg e', MarshalRunConfig cfg = Err e')
    ∨ ∃ j x, Obs (ECreateJob j) x ∈ hist)) as Hwp.
  { unfold SubmitJob. apply wp_bind_intro. eapply wp_mono; [|apply Submit_blames].
    intros r hist Hb e0 He. destruct r as [j|e1]; simplify_eq/=.
    destruct Hb as [[msg ->]|[(cfg & e' & ? & _)|(j & Hj)]]; eauto using CodeOf_invalid. }
  destruct (wp_sound _ _ _ _ _ _ Hwp Ht) as [_ HQ].
  destruct (HQ _ eq_refl e eq_refl) as [?|[?|(j & x & Hin)]]; [by left|by right|].
  rewrite app_nil_r, elem_of_reverse in Hin. by apply Hstore in Hin.
Qed.

(** Whatever a caller asks for, a page of jobs is between 1 and 100 long: in
    every trace of [ListJobs] the store is asked once, for the default of 50 when
    the request names no positive size and for at most 100 otherwise, and nothing
    else happens. *)
Theorem ListJobs_page_bounded (limit : Z) (tok : string) (t : list obs)
  (r : option (result (res (list JobMsg * string))))
  (Ht : trace (Api.ListJobs limit tok) t r) :
  t = [] ∨ ∃ n x, t = [Obs (EListJobs n tok) x] ∧ (1 ≤ n ≤ 100)%Z
    ∧ ((limit ≤ 0)%Z → n = 50%Z) ∧ ((1 ≤ limit ≤ 100)%Z → n = limit).
Proof.
  unfold Api.ListJobs, Service.List, perform in Ht. simpl in Ht.
  destruct Ht as [[-> _]|(x & t' & -> & Hr)]; [by left|]. right.
  exists (listLimit limit), x. assert (t' = []) as ->.
  { destruct x as [x|]; cbn in Hr; naive_solver. }
  split; [done|]. unfold listLimit, defaultListLimit, maxListLimit.
  repeat case_match; lia.
Qed.

End submissions.

(** ** The bearer token *)

(** A job without its token. *)
Definition redact (j : Job) : Job :=
  mkJob (j_ID j) (j_Status j) (j_Prompt j) (j_Profile j) (j_RunConfigJSON j) (j_StopReason j)
    (j_Error j) (j_FinalText j) (j_CreatedAt j) (j_StartedAt j) (j_FinishedAt j) (j_LastEventAt j)
    (j_CancelRequested j) (j_TraceParent j) "" (j_RepoScope j).

Definition redactStore (m : memStore) : memStore := set_jobs (redact <$> m_jobs m) m.

Definition redactWorld (w : World memStore) : World memStore := set_store (redactStore (w_store w)) w.

(** Two answers to an action, the second of a store without tokens. *)
Definition redactRes (r : res Job) : res Job :=
  match r with Ok j => Ok (redact j) | Err e => Err e end.

Definition redactList (o : outcome (res (list Job * string))) : outcome (res (list Job * string)) :=
  match o with
  | Returned (Ok (l, next)) => Returned (Ok (redact <$> l, next))
  | o => o
  end.

Definition blindAnswer {X} (e : eff X) : X → X → Prop :=
  match e in eff X return X → X → Prop with
  | EGetJob _ => λ x x', x' = redactRes x
  | EListJobs _ _ => λ x x', x' = redactList x
  | EUpdateJob _ _ _ => λ x x', x' = (fst x, redactRes (snd x))
  | _ => eq
  end.

(** Actions that neither create nor remove a record, and whose updates neither read
    nor write the token. *)
Definition blind {X} (e : eff X) : Prop :=
  match e with
  | ECreateJob _ | EDeleteJob _ => False
  | EUpdateJob _ fn _ => ∀ c j, fn c (redact j) = (fst (fn c j), redactRes (snd (fn c j)))
  | _ => True
  end.

(** Two programs that go through the same actions whatever the tokens are, and
    return related results. *)
Inductive nonint {A} (R : A → A → Prop) : prog A → prog A → Prop :=
  | ni_ret a a' : R a a' → nonint R (Ret a) (Ret a')
  | ni_act X (e : eff X) k k' :
      blind e → (∀ x x', blindAnswer e x x' → nonint R (k x) (k' x')) →
      nonint R (Act e k) (Act e k')
  | ni_panic : nonint R Panic Panic
  | ni_fuel : nonint R OutOfFuel OutOfFuel.

Inductive sameResult {A} (R : A → A → Prop) : result A → result A → Prop :=
  | sr_done a a' : R a a' → sameResult R (Done a) (Done a')
  | sr_crashed : sameResult R Crashed Crashed
  | sr_cut : sameResult R Cut Cut.

Lemma nonint_bind {A B} (R : A → A → Prop) (S : B → B → Prop) p p' (f f' : A → prog B) :
  nonint R p p' → (∀ a a', R a a' → nonint S (f a) (f' a')) → nonint S (p ≫= f) (p' ≫= f').
Proof.
  intros Hp Hf. induction Hp as [a a' Ha|X e k k' He _ IH| |]; [by apply Hf|..|constructor|constructor].
  constructor; [done|]. intros x x' Hx. by apply IH.
Qed.

Lemma nonint_perform {X B} (S : B → B → Prop) (e : eff X) (f f' : X → prog B) :
  blind e → (∀ x x', blindAnswer e x x' → nonint S (f x) (f' x')) →
  nonint S (perform e ≫= f) (perform e ≫= f').
Proof. intros. by constructor. Qed.

Section blindness.
Context `{UnicodeTables} (env : Env).
Implicit Type w : World memStore.

Lemma listLoop_redact f m limit i out :
  listLoop f (redactStore m) limit i (redact <$> out)
  = match listLoop f m limit i out with
    | Returned (l, j) => Returned (redact <$> l, j)
    | Panicked => Panicked
    end.
Proof.
  revert i out. induction f as [|f IH]; intros i out; [done|]. cbn [listLoop].
  rewrite length_fmap. destruct (_ && _); [|done].
  assert (m_order (redactStore m) = m_order m) as -> by (by destruct m).
  destruct (m_order m !! _) as [id|]; [|done].
  assert (m_jobs (redactStore m) !! id = redact <$> m_jobs m !! id) as ->.
  { destruct m. cbn. by rewrite lookup_fmap. }
  destruct (m_jobs m !! id) as [j|]; cbn; [|apply IH].
  rewrite <-IH. by rewrite fmap_app.
Qed.

Lemma memListJobs_redact limit tok m :
  memListJobs limit tok (redactStore m) = redactList (memListJobs limit tok m).
Proof.
  unfold memListJobs. assert (m_order (redactStore m) = m_order m) as -> by (by destruct m).
  destruct (if tok ==? "" then _ else _) as [start|]; [|done].
  pose proof (listLoop_redact (Z.to_nat (start + 2)) m
    (Z.to_nat (if (limit <=? 0)%Z then 50%Z else limit)) start []) as Hl.
  change (redact <$> []) with (@nil Job) in Hl. cbn zeta. rewrite Hl.
  by destruct (listLoop (Z.to_nat (start + 2)) m _ start []) as [[l j]|].
Qed.

Lemma jobs_redact m id : m_jobs (redactStore m) !! id = redact <$> m_jobs m !! id.
Proof. destruct m. cbn. by rewrite lookup_fmap. Qed.

Lemma memGetJob_redact id m : memGetJob id (redactStore m) = redactRes (memGetJob id m).
Proof. unfold memGetJob. rewrite jobs_redact. by destruct (m_jobs m !! id). Qed.

Lemma memUpdateJob_redact {C} id (fn : updater C) c m :
  (∀ c j, fn c (redact j) = (fst (fn c j), redactRes (snd (fn c j)))) →
  memUpdateJob id fn c (redactStore m)
  = let '(m', (c', r)) := memUpdateJob id fn c m in (redactStore m', (c', redactRes r)).
Proof.
  intros Hfn. unfold memUpdateJob. rewrite jobs_redact.
  destruct (m_jobs m !! id) as [j|]; [|done]. cbn. rewrite Hfn.
  destruct (fn c j) as [c' [j'|e]]; [|done]. cbn. f_equal. destruct m. unfold redactStore. cbn.
  by rewrite fmap_insert.
Qed.

Lemma memAppendEvent_redact now id ev m :
  memAppendEvent now id ev (redactStore m)
  = let '(m', r) := memAppendEvent now id ev m in (redactStore m', r).
Proof.
  unfold memAppendEvent. rewrite jobs_redact. destruct (m_jobs m !! id); [|done]. by destruct m.
Qed.

Lemma memPutPermission_redact id q m :
  memPutPermission id q (redactStore m)
  = let '(m', r) := memPutPermission id q m in (redactStore m', r).
Proof.
  unfold memPutPermission. rewrite jobs_redact. destruct (m_jobs m !! id); [|done]. by destruct m.
Qed.

Lemma memReadEvents_redact id a limit m :
  memReadEvents id a limit (redactStore m) = memReadEvents id a limit m.
Proof.
  unfold memReadEvents. rewrite jobs_redact. destruct (m_jobs m !! id); [|done]. by destruct m.
Qed.

(** An action on a store without tokens: the same effect, and the same answer up to
    tokens. *)
Lemma act_blind X (e : eff X) w :
  blind e →
  fst (act env e (redactWorld w)) = redactWorld (fst (act env e w))
  ∧ blindAnswer e (snd (act env e w)) (snd (act env e (redactWorld w))).
Proof.
  intros He. destruct w as [m ? ? ? ? ? ? ? ?], e; cbn in *; try done;
    try (unfold onStore, receive, transmit, sessionSend, transmit, trySend, wgUpdate; cbn;
         repeat case_match; simplify_eq; by cbn).
  - by rewrite memGetJob_redact.
  - by rewrite memListJobs_redact.
  - unfold onStore; cbn. rewrite memUpdateJob_redact by done.
    by destruct (memUpdateJob _ _ _ _) as [m' [c' r]].
  - unfold onStore; cbn. rewrite memAppendEvent_redact. by destruct (memAppendEvent _ _ _ _).
  - by rewrite memReadEvents_redact.
  - unfold onStore; cbn. rewrite memPutPermission_redact. by destruct (memPutPermission _ _ _).
  - by destruct m.
  - by destruct m.
Qed.

Lemma nonint_run {A} (R : A → A → Prop) (p p' : prog A) w :
  nonint R p p' → sameResult R (snd (run env p w)) (snd (run env p' (redactWorld w))).
Proof.
  intros Hp. revert w. induction Hp as [a a' Ha|X e k k' He _ IH| |]; intros w; cbn [run];
    [by constructor| |constructor|constructor].
  destruct (act_blind X e w He) as [Hw Hx]. unfold actTick.
  destruct (act env e w) as [w1 x], (act env e (redactWorld w)) as [w2 x']. cbn [fst snd] in *.
  subst w2. specialize (IH x x' Hx (set_tick (S (w_tick w)) w1)).
  by destruct w, w1.
Qed.

Lemma nonint_response {A} (p : prog A) w :
  nonint eq p p → snd (run env p (redactWorld w)) = snd (run env p w).
Proof. intros Hp. by destruct (nonint_run eq p p w Hp) as [? ? ->| |]. Qed.

End blindness.

(** Results that differ in tokens only. *)
Definition blindRes (r r' : res Job) : Prop := r' = redactRes r.

(** Go through the actions of a handler side by side. *)
Ltac side_by_side :=
  repeat match goal with
  | |- nonint _ (mbind _ (perform _)) (mbind _ (perform _)) =>
      apply nonint_perform; [try done|intros ? ? ?; cbn [blindAnswer] in *; subst]
  | |- nonint _ (Act _ _) (Act _ _) => constructor; [try done|intros ? ? ?; cbn [blindAnswer] in *; subst]
  | |- nonint _ (perform _) (perform _) => constructor; [try done|intros ? ? ?; cbn [blindAnswer] in *; subst]
  | |- nonint _ (mret _) (mret _) => constructor
  | |- nonint _ (Ret _) (Ret _) => constructor
  | |- nonint _ Panic Panic => constructor
  | |- nonint _ OutOfFuel OutOfFuel => constructor
  | |- nonint _ (when ?b _) (when ?b _) => unfold when; destruct b
  | |- nonint _ (if ?b then _ else _) (if ?b then _ else _) => destruct b
  | |- nonint _ (match ?x with _ => _ end) (match ?x with _ => _ end) => destruct x
  end.

Section handlers.
Context `{UnicodeTables} `{ProtoJSON}.

Lemma nonint_checked {A} id (p p' : prog (res A)) (S : res A → res A → Prop) :
  (∀ e, S (Err e) (Err e)) → nonint S p p' → nonint S (checked id p) (checked id p').
Proof. intros. unfold checked. destruct (checkID id); [by constructor|done]. Qed.

Lemma nonint_registrySend id ev : nonint eq (registrySend id ev) (registrySend id ev).
Proof. unfold registrySend. side_by_side; done. Qed.

Lemma nonint_cancelUnassigned id : nonint blindRes (cancelUnassigned id) (cancelUnassigned id).
Proof.
  unfold cancelUnassigned, appendStatusEvent. side_by_side.
  { intros c []. unfold cancelUpdate. cbn. by case_match. }
  destruct x as [c [j|e]]; cbn; [|by constructor].
  apply (nonint_bind eq); [|by intros; constructor].
  side_by_side; done.
Qed.

Lemma nonint_Cancel id : nonint blindRes (Cancel id) (Cancel id).
Proof.
  unfold Cancel, cancelLive. apply nonint_checked; [done|]. side_by_side.
  destruct x as [j|e]; cbn [redactRes]; [|by constructor].
  change (j_Status (redact j)) with (j_Status j). destruct (Terminal _); [by constructor|].
  side_by_side; try done; try apply nonint_cancelUnassigned.
  { by intros c []. }
  destruct x as [c [j'|e]]; cbn [fst snd redactRes]; [|by constructor].
  apply (nonint_bind eq); [apply nonint_registrySend|]. intros r _ <-.
  side_by_side; try done. apply nonint_cancelUnassigned.
Qed.

Lemma nonint_AnswerPermission id q allow reason :
  nonint eq (Service.AnswerPermission id q allow reason) (Service.AnswerPermission id q allow reason).
Proof.
  unfold Service.AnswerPermission. apply nonint_checked; [done|]. side_by_side; try done.
  cbn zeta. side_by_side; try done. apply (nonint_bind eq); [apply nonint_registrySend|].
  intros r _ <-. side_by_side; done.
Qed.

Lemma nonint_replay fuel id cursor : nonint eq (replay fuel id cursor) (replay fuel id cursor).
Proof.
  revert cursor. induction fuel as [|f IH]; intros cursor; cbn [replay]; side_by_side; try done.
  apply (nonint_bind eq); [apply IH|]. intros ? _ <-. by constructor.
Qed.

Lemma nonint_Watch {Chan} (o : res Chan) fuel id a : nonint eq (Watch o fuel id a) (Watch o fuel id a).
Proof.
  unfold Watch. apply nonint_checked; [done|]. side_by_side.
  destruct x as [j|e]; cbn [redactRes]; [|by constructor].
  change (j_Status (redact j)) with (j_Status j).
  destruct (Terminal _); [|by destruct o; constructor].
  apply (nonint_bind eq); [apply nonint_replay|]. intros ? _ <-. by constructor.
Qed.

(** A job's message is built from the rest of the record. *)
Lemma respond_blind (r r' : res Job) : blindRes r r' → respond jobToProto r = respond jobToProto r'.
Proof. intros ->. by destruct r. Qed.

Lemma respond_list_blind (l : list Job) : jobToProto <$> (redact <$> l) = jobToProto <$> l.
Proof. rewrite <-list_fmap_compose. by apply list_fmap_ext. Qed.

(** C27. The bearer token of a job never shows in an answer of the API, [SubmitJob]'s
    apart: every other handler, run over a store and over the same store with every
    token erased, gives the same response, whatever else it does. *)
Theorem responses_blind_to_tokens (env : Env) (w : World memStore) :
  let same {A} (p : prog A) := snd (run env p (redactWorld w)) = snd (run env p w) in
  (∀ id, same (Api.GetJob id))
  ∧ (∀ limit tok, same (Api.ListJobs limit tok))
  ∧ (∀ id, same (CancelJob id))
  ∧ (∀ id, same (ListPermissionRequests id))
  ∧ (∀ id q allow reason, same (Api.AnswerPermission id q allow reason))
  ∧ (∀ Chan (o : res Chan) fuel id a, same (WatchJob o fuel id a)).
Proof.
  cbn zeta. split_and!; intros; apply nonint_response.
  - apply (nonint_bind blindRes); [|intros; constructor; by apply respond_blind].
    unfold GetOp. apply nonint_checked; [done|]. constructor; [done|]. intros. by constructor.
  - unfold Api.ListJobs, Service.List. side_by_side.
    destruct x as [[[l next]|e]|]; cbn; constructor; try done. by rewrite respond_list_blind.
  - apply (nonint_bind blindRes); [apply nonint_Cancel|intros; constructor; by apply respond_blind].
  - apply (nonint_bind eq); [|intros ? _ <-; by constructor].
    unfold ListPermissionsOp. apply nonint_checked; [done|]. constructor; [done|]. intros. by constructor.
  - apply (nonint_bind eq); [apply nonint_AnswerPermission|intros ? _ <-; by constructor].
  - apply (nonint_bind eq); [apply nonint_Watch|intros ? _ <-; by constructor].
Qed.

End handlers.

(** ** Concrete runs *)

#[local] Existing Instance sample_tables.
#[local] Existing Instance sample_codec.

(** A server with no profiles refuses a request that names none. *)
Definition bare_service : Service := NewService None [].

Definition bare_request : SubmitJobRequest := mkSubmitJobRequest "say hello" "" "" [].

Definition bare_trace : list obs * result (res SubmitJobResponse) :=
  recorded sample_env (SubmitJob bare_service bare_request) (sample_world []).

Definition bare_error : error :=
  connectError (invalid "no profile given and no default profile configured; supply run_config_json").

Lemma SubmitJob_blames_caller_witness :
  CodeOf bare_error = CodeInvalidArgument ∨ ∃ cfg e', MarshalRunConfig cfg = Err e'.
Proof.
  apply (SubmitJob_blames_caller bare_service bare_request (fst bare_trace)).
  - apply (recorded_trace sample_env (SubmitJob bare_service bare_request) (sample_world [])).
  - intros j x Hin. cbv in Hin. set_solver.
Defined.

Lemma ListJobs_page_bounded_witness :
  [Obs (EListJobs 100 "7") Panicked] = [] ∨
  ∃ n x, [Obs (EListJobs 100 "7") Panicked] = [Obs (EListJobs n "7") x] ∧ (1 ≤ n ≤ 100)%Z
    ∧ ((5000 ≤ 0)%Z → n = 50%Z) ∧ ((1 ≤ 5000 ≤ 100)%Z → n = 5000%Z).
Proof.
  apply (ListJobs_page_bounded 5000 "7" _ (Some Crashed)).
  right. exists Panicked, []. split; [reflexivity|]. right. split; reflexivity.
Defined.
