(* ===== verification/View.v ===== *)
(** * What the web UI shows ([src/internal/web/view.go])

    The view models of the pages: rows of the job list, the detail of a job and of its
    permission requests, with times, ages and prompts as text. *)

From stdpp Require Import base gmap list strings.
From Stdlib Require Import Ascii.
From S2P Require Import Prelude Utf8 Fmt Json GoTime Job Proto Store Telemetry Registry Prog.

Definition promptTruncateLen : nat := 140.

Definition statusClass (status : string) : string :=
  if (status ==? StatusQueued) || (status ==? StatusLaunching) || (status ==? StatusAwaitingHarness)
  then "pending"
  else if status ==? StatusRunning then "running"
  else if status ==? StatusSucceeded then "succeeded"
  else if status ==? StatusFailed then "failed"
  else if status ==? StatusCancelled then "cancelled"
  else "pending".

(** [string(r)] of a slice of runes. *)
Definition stringOfRunes (rs : list rune) : string := foldr (λ r s, encodeRune r +:+ s) "" rs.

Definition ellipsis : string := String "226" (String "128" (String "166" "")).

Definition truncate (s : string) (n : nat) : string :=
  if length (runes s) <=? n then s
  else stringOfRunes (take n (runes s)) +:+ ellipsis.

Section view.
Context `{TimeEnv}.

Definition formatTime (t : Time) : string := if IsZero t then "" else FormatDateTime t.

(** [now] is the reading of the clock by [time.Since], taken for a set time only. *)
Definition formatAge (t : Time) : prog string :=
  if IsZero t then mret ""
  else
    now ← perform ENow;
    mret (DurationString (RoundSecond (Sub now t)) +:+ " ago").

Record formValues := mkFormValues {
  fv_Prompt : string;
  fv_Profile : string;
  fv_RunConfigJSON : string;
}.

Record jobRow := mkJobRow {
  jr_ID : string;
  jr_Status : string;
  jr_Prompt : string;
  jr_CreatedAt : string;
  jr_FinishedAt : string;
  jr_StopReason : string;
}.

Record indexData := mkIndexData {
  ix_Title : string;
  ix_Jobs : list jobRow;
  ix_Form : formValues;
  ix_Error : string;
}.

Definition newJobRow (j : Job) : jobRow :=
  mkJobRow (j_ID j) (j_Status j) (truncate (j_Prompt j) promptTruncateLen)
    (formatTime (j_CreatedAt j)) (formatTime (j_FinishedAt j)) (j_StopReason j).

Record jobDetail := mkJobDetail {
  jd_ID : string;
  jd_Status : string;
  jd_Terminal : bool;
  jd_Prompt : string;
  jd_Profile : string;
  jd_FinalText : string;
  jd_StopReason : string;
  jd_Error : string;
  jd_CreatedAt : string;
  jd_StartedAt : string;
  jd_FinishedAt : string;
  jd_LastEventAge : string;
}.

Definition newJobDetail (j : Job) : prog jobDetail :=
  age ← formatAge (j_LastEventAt j);
  mret (mkJobDetail (j_ID j) (j_Status j) (Terminal (j_Status j)) (j_Prompt j) (j_Profile j)
    (j_FinalText j) (j_StopReason j) (j_Error j) (formatTime (j_CreatedAt j))
    (formatTime (j_StartedAt j)) (formatTime (j_FinishedAt j)) age).

Record permissionRow := mkPermissionRow {
  pw_RequestID : string;
  pw_ToolName : string;
  pw_InputJSON : string;
  pw_State : string;
  pw_Reason : string;
  pw_RequestedAt : string;
  pw_AnsweredAt : string;
}.

Definition newPermissionRow (p : PermissionRequest) : permissionRow :=
  mkPermissionRow (pr_RequestID p) (pr_ToolName p) (pr_InputJSON p) (pr_State p) (pr_Reason p)
    (formatTime (pr_RequestedAt p)) (formatTime (pr_AnsweredAt p)).

Definition newPermissionRows (perms : list PermissionRequest) : list permissionRow :=
  newPermissionRow <$> perms.

Record detailData := mkDetailData {
  dd_Title : string;
  dd_Job : jobDetail;
  dd_Permissions : list permissionRow;
}.

Record errorData := mkErrorData {
  ed_Title : string;
  ed_Status : Z;
  ed_Message : string;
}.

End view.

(** ** Truncation *)

(** The code points UTF-8 encodes. *)
Definition scalar (r : rune) : Prop := (r ≤ 1114111 ∧ (r < 55296 ∨ 57343 < r))%N.

Lemma decodeRune_scalar s r n : decodeRune s = (r, n) → scalar r.
Proof.
  unfold scalar, decodeRune, lead, byte_in. destruct s as [|c0 s]; [intros [= <- _]; unfold RuneError; lia|].
  destruct (N.ltb_spec (N_of_ascii c0) 128); [intros [= <- _]; lia|].
  repeat (case_match; simplify_eq/=; try (intros [= <- <-]; unfold RuneError in *; lia)); boolify;
    repeat match goal with
    | H : (_ <=? _)%N = true |- _ => apply N.leb_le in H
    | H : (_ <=? _)%N && _ = false |- _ => rewrite andb_false_iff, !N.leb_gt in H
    end;
    intros [= <- <-]; lia.
Qed.

Lemma byte_of_code n : (n < 256)%N → N_of_ascii (byte_of n) = n.
Proof. apply N_ascii_embedding. Qed.

Lemma byte_in_true lo hi b : (lo ≤ b ≤ hi)%N → byte_in lo hi b = true.
Proof. intros. unfold byte_in. apply andb_true_iff. rewrite !N.leb_le. lia. Qed.

Lemma byte_in_false lo hi b : (b < lo ∨ hi < b)%N → byte_in lo hi b = false.
Proof. intros. unfold byte_in. apply andb_false_iff. rewrite !N.leb_gt. lia. Qed.

(** The leading byte of a sequence determines its length and its second byte's range. *)
Lemma lead_two b : (194 ≤ b ≤ 223)%N → lead b = Some (128%N, 191%N, 2%nat).
Proof. intros. unfold lead. by rewrite byte_in_true by lia. Qed.

Lemma lead_three b c :
  (224 ≤ b ≤ 239 ∧ 128 ≤ c ≤ 191 ∧ (b = 224 → 160 ≤ c) ∧ (b = 237 → c ≤ 159))%N →
  ∃ lo hi, lead b = Some (lo, hi, 3%nat) ∧ byte_in lo hi c = true.
Proof.
  intros (Hb & Hc & H1 & H2). unfold lead. rewrite (byte_in_false 194 223) by lia.
  destruct (decide (b = 224)%N) as [->|]; [eexists _, _; split; [done|apply byte_in_true; lia]|].
  rewrite (byte_in_false 224 224) by lia.
  destruct (decide (b = 237)%N) as [->|]; [eexists _, _; split; [done|apply byte_in_true; lia]|].
  rewrite (byte_in_false 237 237), (byte_in_true 225 239) by lia.
  eexists _, _. split; [done|apply byte_in_true; lia].
Qed.

Lemma lead_four b c :
  (240 ≤ b ≤ 244 ∧ 128 ≤ c ≤ 191 ∧ (b = 240 → 144 ≤ c) ∧ (b = 244 → c ≤ 143))%N →
  ∃ lo hi, lead b = Some (lo, hi, 4%nat) ∧ byte_in lo hi c = true.
Proof.
  intros (Hb & Hc & H1 & H2). unfold lead.
  rewrite (byte_in_false 194 223), (byte_in_false 224 224), (byte_in_false 237 237),
    (byte_in_false 225 239) by lia.
  destruct (decide (b = 240)%N) as [->|]; [eexists _, _; split; [done|apply byte_in_true; lia]|].
  rewrite (byte_in_false 240 240) by lia.
  destruct (decide (b = 244)%N) as [->|]; [eexists _, _; split; [done|apply byte_in_true; lia]|].
  rewrite (byte_in_true 241 243) by lia. eexists _, _. split; [done|apply byte_in_true; lia].
Qed.

Ltac ndivlia := zify; Z.to_euclidean_division_equations; lia.

Lemma decode_encode r T : scalar r → decodeRune (encodeRune r +:+ T) = (r, len (encodeRune r)).
Proof.
  intros [Hm Hs]. unfold encodeRune.
  assert (byte_in 55296 57343 r || (1114111 <? r)%N = false) as ->.
  { apply orb_false_iff. split; [apply byte_in_false; lia|apply N.ltb_ge; lia]. }
  destruct (N.ltb_spec r 128) as [H1|H1]; [|destruct (N.ltb_spec r 2048) as [H2|H2];
    [|destruct (N.ltb_spec r 65536) as [H3|H3]]]; rewrite ?string_app_cons; unfold decodeRune;
    repeat rewrite byte_of_code by ndivlia; cbv zeta.
  - by rewrite (proj2 (N.ltb_lt r 128)) by lia.
  - rewrite (proj2 (N.ltb_ge _ 128)) by ndivlia. rewrite lead_two by ndivlia.
    rewrite byte_in_true by ndivlia. cbn [negb]. f_equal. ndivlia.
  - rewrite (proj2 (N.ltb_ge _ 128)) by ndivlia.
    destruct (lead_three (224 + r / 4096) (128 + (r / 64) `mod` 64)) as (lo & hi & -> & ->);
      [ndivlia|]. cbn [negb].
    rewrite byte_in_true by ndivlia. f_equal. ndivlia.
  - rewrite (proj2 (N.ltb_ge _ 128)) by ndivlia.
    destruct (lead_four (240 + r / 262144) (128 + (r / 4096) `mod` 64)) as (lo & hi & -> & ->);
      [ndivlia|]. cbn [negb].
    rewrite !byte_in_true by ndivlia. cbn [andb]. f_equal. ndivlia.
Qed.

Lemma runes_encode r T : scalar r → runes (encodeRune r +:+ T) = r :: runes T.
Proof.
  intros Hr. pose proof (decode_encode r T Hr) as Hd. pose proof (sdrop_app_len (encodeRune r) T) as Hdrop.
  destruct (encodeRune r +:+ T) as [|c s] eqn:E.
  { exfalso. apply (f_equal len) in E. rewrite len_app in E. revert E. unfold encodeRune.
    repeat case_match; cbn; lia. }
  pose proof (runes_cons c s) as Hc. rewrite Hd in Hc. by rewrite Hc, Hdrop.
Qed.

Lemma runes_scalar s : Forall scalar (runes s).
Proof.
  unfold runes. generalize (len s). intros n. revert s. induction n as [|n IH]; intros s; [constructor|].
  cbn [runes_fuel]. destruct s as [|c s]; [constructor|].
  destruct (decodeRune (String c s)) as [r k] eqn:E. constructor; [by eapply decodeRune_scalar|apply IH].
Qed.

Lemma runes_stringOfRunes rs T : Forall scalar rs → runes (stringOfRunes rs +:+ T) = rs ++ runes T.
Proof.
  induction 1 as [|r rs Hr _ IH]; [done|]. cbn [stringOfRunes foldr app].
  rewrite <-string_app_assoc, runes_encode by done. by rewrite <-IH.
Qed.

(** The prompt in the job list is a prefix of the job's prompt, cut between
    characters: a prompt of at most 140 characters is shown as it is, and of a longer one
    the row shows exactly the first 140 characters and an ellipsis, whatever multi-byte or
    malformed text it holds. *)
Theorem prompt_cut_between_characters `{TimeEnv} (j : Job) :
  if length (runes (j_Prompt j)) <=? 140 then jr_Prompt (newJobRow j) = j_Prompt j
  else runes (jr_Prompt (newJobRow j)) = take 140 (runes (j_Prompt j)) ++ [8230%N].
Proof.
  cbn [newJobRow jr_Prompt]. unfold truncate, promptTruncateLen.
  destruct (length (runes (j_Prompt j)) <=? 140); [done|].
  rewrite runes_stringOfRunes by apply Forall_take, runes_scalar. done.
Qed.
