(* ===== verification/Sse.v ===== *)
(** * Server-sent events ([writeSSEEvent] of [src/internal/web/sse.go])

    The frames the event feed writes, and the reader of such a stream in a browser, as
    the HTML standard defines it, to say what a client sees of the feed. *)

From stdpp Require Import base gmap list strings.
From Stdlib Require Import Ascii.
From S2P Require Import Prelude Fmt Job Store.

Definition newline : string := String "010" "".

(** [sseTypeRe]. *)
Definition sseTypeByte (c : ascii) : bool :=
  in_range "a" "z" c || in_range "0" "9" c || (c ==? "_"%char).
Definition sseTypeOk (s : string) : bool :=
  (1 <=? len s) && (len s <=? 64) && all_bytes sseTypeByte s.

(** [strings.Split(s, sep)] of a one-byte separator. *)
Fixpoint splitBy (sep : ascii) (s : string) : list string :=
  match s with
  | EmptyString => [""]
  | String c s' =>
      if c ==? sep then "" :: splitBy sep s'
      else match splitBy sep s' with
           | l :: ls => String c l :: ls
           | [] => [String c ""]
           end
  end.

Definition sseType (ev : Event) : string := if sseTypeOk (ev_Type ev) then ev_Type ev else "unknown".
Definition ssePayload (ev : Event) : string :=
  if ev_PayloadJSON ev ==? "" then "{}" else ev_PayloadJSON ev.

(** The bytes of one frame. *)
Definition writeSSEEvent (ev : Event) : string :=
  ("id: " +:+ ev_ID ev +:+ newline)
  +:+ ("event: " +:+ sseType ev +:+ newline)
  +:+ concatStrings ((λ line, "data: " +:+ line +:+ newline) <$> splitBy "010" (ssePayload ev))
  +:+ newline.

(** What the select of the feed's loop takes up. *)
Inductive turn :=
  | TEvent (ev : Event)
  | TClosed
  | THeartbeat
  | TDone.

(** The bytes of the feed, turn by turn; it ends when the channel is closed or the client
    is gone. *)
Fixpoint feed (turns : list turn) : list string :=
  match turns with
  | [] => []
  | TEvent ev :: turns' => writeSSEEvent ev :: feed turns'
  | THeartbeat :: turns' => (": heartbeat" +:+ newline +:+ newline) :: feed turns'
  | TClosed :: _ => ["event: eof" +:+ newline +:+ "data: {}" +:+ newline +:+ newline]
  | TDone :: _ => []
  end.

(** ** The reader of the stream *)

(** A message as the page's listeners get it. *)
Record message := mkMessage {
  ms_type : string;
  ms_data : string;
  ms_lastEventId : string;
}.

(** The buffers of the reader. *)
Record reader := mkReader {
  rd_type : string;
  rd_data : string;
  rd_id : string;
}.

(** The lines of a stream: a line ends with CRLF, LF or CR; what follows the last end is
    incomplete and discarded. *)
Fixpoint linesOf (s : string) : list string :=
  match s with
  | EmptyString => []
  | String c s' =>
      if c ==? "010"%char then "" :: linesOf s'
      else if c ==? "013"%char then
        "" :: match s' with
              | String "010" s'' => linesOf s''
              | _ => linesOf s'
              end
      else match linesOf s' with
           | l :: ls => String c l :: ls
           | [] => []
           end
  end.

Definition dropSpace (v : string) : string :=
  match v with String " " v' => v' | _ => v end.

Definition processField (name value : string) (r : reader) : reader :=
  if name ==? "event" then mkReader value (rd_data r) (rd_id r)
  else if name ==? "data" then mkReader (rd_type r) (rd_data r +:+ value +:+ newline) (rd_id r)
  else if name ==? "id" then
    if all_bytes (λ c, c !=? "000"%char) value then mkReader (rd_type r) (rd_data r) value else r
  else r.

(** The data without the line feed that ends it. *)
Definition chomp (s : string) : string := stake (len s - 1) s.

(** One line; a blank one dispatches the message if it has data. *)
Definition processLine (line : string) (r : reader) : reader * option message :=
  if line ==? "" then
    (mkReader "" "" (rd_id r),
     if rd_data r ==? "" then None
     else Some (mkMessage (if rd_type r ==? "" then "message" else rd_type r)
                  (chomp (rd_data r)) (rd_id r)))
  else
    match Cut line ":" with
    | ("", _, true) => (r, None)
    | (name, value, true) => (processField name (dropSpace value) r, None)
    | (_, _, false) => (processField line "" r, None)
    end.

Fixpoint processLines (lines : list string) (r : reader) : list message :=
  match lines with
  | [] => []
  | line :: lines' =>
      let '(r', m) := processLine line r in
      match m with Some x => x :: processLines lines' r' | None => processLines lines' r' end
  end.

Definition emptyReader : reader := mkReader "" "" "".

Definition readStream (s : string) : list message := processLines (linesOf s) emptyReader.

(** ** What the reader makes of the feed *)

Definition noLineEnd (s : string) : bool :=
  all_bytes (λ c, (c !=? "010"%char) && (c !=? "013"%char)) s.

Lemma linesOf_line l T : noLineEnd l = true → linesOf (l +:+ newline +:+ T) = l :: linesOf T.
Proof.
  induction l as [|c l IH]; intros Hl; [done|].
  unfold noLineEnd in Hl. cbn [all_bytes] in Hl. boolify.
  rewrite string_app_cons. cbn [linesOf].
  rewrite !bool_decide_eq_false_2 by done. by rewrite IH.
Qed.

Lemma noLineEnd_app a b : noLineEnd (a +:+ b) = noLineEnd a && noLineEnd b.
Proof. apply all_bytes_app. Qed.

Lemma splitBy_noLineEnd s :
  all_bytes (λ c, c !=? "013"%char) s = true → Forall (λ l, noLineEnd l = true) (splitBy "010" s).
Proof.
  induction s as [|c s IH]; cbn; intros Hs; [by repeat constructor|]. boolify.
  specialize (IH ltac:(done)). case_bool_decide as Hc; [by constructor|].
  destruct IH as [|l ls Hl Hls]; (constructor; [|done]); unfold noLineEnd; cbn;
    rewrite !bool_decide_eq_false_2 by done; done.
Qed.

(** The lines of a text, each ended, are the text, ended. *)
Lemma splitBy_concat s :
  concatStrings ((λ l, l +:+ newline) <$> splitBy "010" s) = s +:+ newline.
Proof.
  induction s as [|c s IH]; [done|]. cbn [splitBy]. case_bool_decide as Hc.
  - subst. cbn [fmap list_fmap concatStrings foldr] in *. unfold concatStrings in IH. rewrite IH. done.
  - destruct (splitBy "010" s) as [|l ls] eqn:E; [by destruct s as [|x s]; cbn in E; repeat case_match|].
    cbn [fmap list_fmap concatStrings foldr] in *. unfold concatStrings in IH. cbn in IH.
    rewrite !string_app_cons, <-IH. done.
Qed.

Lemma linesOf_data ls T :
  Forall (λ l, noLineEnd l = true) ls →
  linesOf (concatStrings ((λ l, "data: " +:+ l +:+ newline) <$> ls) +:+ T)
  = ((λ l, "data: " +:+ l) <$> ls) ++ linesOf T.
Proof.
  induction 1 as [|l ls Hl _ IH]; [done|]. cbn [fmap list_fmap concatStrings foldr app].
  rewrite <-IH, <-linesOf_line by (rewrite noLineEnd_app; by rewrite Hl).
  f_equal. unfold concatStrings. by rewrite <-!string_app_assoc.
Qed.

Lemma processLine_field name value r :
  name ≠ "" → all_bytes (λ c, c !=? ":"%char) name = true →
  processLine (name +:+ ": " +:+ value) r = (processField name value r, None).
Proof.
  intros Hne Hn. unfold processLine.
  rewrite bool_decide_eq_false_2 by (by destruct name).
  change (": " +:+ value) with (String ":" (String " " value)). rewrite Cut_app by done.
  by destruct name.
Qed.

Lemma processLines_field name value ls r :
  name ≠ "" → all_bytes (λ c, c !=? ":"%char) name = true →
  processLines ((name +:+ ": " +:+ value) :: ls) r = processLines ls (processField name value r).
Proof. intros. cbn [processLines]. by rewrite processLine_field. Qed.

Lemma processLines_data ls ls' t d i :
  processLines (((λ l, "data: " +:+ l) <$> ls) ++ ls') (mkReader t d i)
  = processLines ls' (mkReader t (d +:+ concatStrings ((λ l, l +:+ newline) <$> ls)) i).
Proof.
  revert d. induction ls as [|l ls IH]; intros d.
  { cbn. change (concatStrings []) with "". by rewrite string_app_nil_r. }
  cbn [fmap list_fmap app concatStrings foldr].
  change ("data: " +:+ l) with ("data" +:+ ": " +:+ l). rewrite processLines_field by done.
  change (processField "data" l (mkReader t d i)) with (mkReader t (d +:+ l +:+ newline) i).
  rewrite IH. do 2 f_equal. unfold concatStrings. by rewrite <-!string_app_assoc.
Qed.

Lemma chomp_newline s : chomp (s +:+ newline) = s.
Proof.
  unfold chomp. rewrite len_app. cbn. replace (len s + 1 - 1) with (len s) by lia.
  rewrite stake_app, stake_ge by lia. replace (len s - len s) with 0 by lia. cbn. apply string_app_nil_r.
Qed.

(** An event a feed can carry: an ID on one line without NUL, and a payload without a
    carriage return. *)
Definition carriable (ev : Event) : Prop :=
  noLineEnd (ev_ID ev) = true ∧ all_bytes (λ c, c !=? "000"%char) (ev_ID ev) = true
  ∧ all_bytes (λ c, c !=? "013"%char) (ev_PayloadJSON ev) = true.

Lemma sseType_ok ev : noLineEnd (sseType ev) = true ∧ sseType ev ≠ "".
Proof.
  unfold sseType, sseTypeOk. destruct (_ && _) eqn:E; [|done]. boolify.
  destruct (Nat.leb_spec 1 (len (ev_Type ev))); [|done]. split.
  - eapply all_bytes_impl; [|done]. intros c Hc. unfold sseTypeByte, in_range in Hc.
    apply andb_true_iff. split; apply negb_true_iff, bool_decide_eq_false_2; by intros ->.
  - intros E. rewrite E in *. cbn in *. lia.
Qed.

Lemma ssePayload_carriable ev :
  carriable ev → all_bytes (λ c, c !=? "013"%char) (ssePayload ev) = true.
Proof. intros (_ & _ & Hp). unfold ssePayload. by case_bool_decide. Qed.

(** One frame is one message, whatever follows. *)
Lemma read_frame ev T i :
  carriable ev →
  processLines (linesOf (writeSSEEvent ev +:+ T)) (mkReader "" "" i)
  = mkMessage (sseType ev) (ssePayload ev) (ev_ID ev)
    :: processLines (linesOf T) (mkReader "" "" (ev_ID ev)).
Proof.
  intros Hc. pose proof Hc as (Hid & Hnul & _). destruct (sseType_ok ev) as [Ht Hne].
  unfold writeSSEEvent. rewrite <-!string_app_assoc.
  change ("id: " +:+ ?x) with ("id" +:+ ": " +:+ x). change ("event: " +:+ ?x) with ("event" +:+ ": " +:+ x).
  rewrite !(string_app_assoc "id"), !(string_app_assoc "event"), !(string_app_assoc ("id" +:+ ": ")),
    !(string_app_assoc ("event" +:+ ": ")).
  rewrite !linesOf_line by (rewrite !noLineEnd_app; by rewrite ?Hid, ?Ht).
  rewrite <-!string_app_assoc, !processLines_field by done.
  rewrite linesOf_data by (by apply splitBy_noLineEnd, ssePayload_carriable).
  assert (processField "event" (sseType ev) (processField "id" (ev_ID ev) (mkReader "" "" i))
    = mkReader (sseType ev) "" (ev_ID ev)) as ->.
  { unfold processField at 2. cbn. rewrite Hnul. done. }
  rewrite processLines_data, splitBy_concat. cbn [string_app_nil_l].
  change (newline +:+ T) with ("" +:+ newline +:+ T). rewrite (linesOf_line "" T) by done. cbn [processLines]. unfold processLine.
  rewrite bool_decide_eq_true_2 by done. cbn [rd_data rd_type rd_id].
  rewrite !string_app_nil_l, chomp_newline.
  rewrite (bool_decide_eq_false_2 (sseType ev = "")) by done.
  rewrite bool_decide_eq_false_2; [done|]. intros E%(f_equal len). rewrite len_app in E. cbn in E. lia.
Qed.

(** The messages of a feed, of which [i] is the last ID so far. *)
Fixpoint seen (i : string) (turns : list turn) : list message :=
  match turns with
  | [] | TDone :: _ => []
  | TEvent ev :: turns' => mkMessage (sseType ev) (ssePayload ev) (ev_ID ev) :: seen (ev_ID ev) turns'
  | THeartbeat :: turns' => seen i turns'
  | TClosed :: _ => [mkMessage "eof" "{}" i]
  end.

Lemma read_feed turns i :
  Forall (λ t, match t with TEvent ev => carriable ev | _ => True end) turns →
  processLines (linesOf (concatStrings (feed turns))) (mkReader "" "" i) = seen i turns.
Proof.
  intros Ht. revert i. induction Ht as [|[ev| | |] turns Hev _ IH]; intros i; try done.
  - cbn [feed concatStrings foldr seen]. rewrite read_frame by done. f_equal. apply IH.
  - cbn [feed concatStrings foldr seen]. rewrite <-IH. done.
Qed.

(** C23. The event feed cannot be forged. A browser that reads the feed as server-sent
    events are read sees exactly one message per recorded event, in order, with the
    event's ID, its type (or [unknown] for a type that is not a plain name) and its whole
    payload, however many lines that has; heartbeats are invisible and the closing of the
    channel is one [eof] message. *)
Theorem event_feed_faithful (turns : list turn)
  (Hev : Forall (λ t, match t with TEvent ev => carriable ev | _ => True end) turns) :
  readStream (concatStrings (feed turns)) = seen "" turns.
Proof. by apply read_feed. Qed.

(** A payload of two lines, the second of which looks like a field, and a type that
    would break its line. *)
Definition sly_event : Event :=
  mkEvent "7-0" ("x" +:+ newline +:+ "data: {}") ("{" +:+ newline +:+ "event: eof}") 0.

Lemma event_feed_faithful_witness :
  readStream (concatStrings (feed [TEvent sly_event; THeartbeat; TClosed]))
  = [mkMessage "unknown" ("{" +:+ newline +:+ "event: eof}") "7-0"; mkMessage "eof" "{}" "7-0"].
Proof.
  rewrite event_feed_faithful; [reflexivity|].
  constructor; [split_and!; reflexivity|]. by repeat constructor.
Defined.
