(* ===== verification/Web.v ===== *)
(** * The web UI ([src/internal/web/])

    Responses are values: what a handler does to its [http.ResponseWriter] is a function
    on the writer's state, for any writer, since the handlers run on the error rewriter
    and the error page on the writer under it.  A page is its template with its data; the
    text of a page is not modelled. *)

From stdpp Require Import base gmap list strings.
From Stdlib Require Import Ascii.
From S2P Require Import Prelude Utf8 Fmt Json GoTime Job Proto Store Timeline Telemetry Registry Prog.
From S2P Require Import Memory RunConfigs Service Watch View Sse.

(** ** Responses *)

(** A template with its data, or text. *)
Inductive content :=
  | IndexPage (d : indexData)
  | DetailPage (d : detailData)
  | ErrorPage (d : errorData)
  | Text (s : string).

(** The methods of a response writer that the UI uses; [canFlush] is whether it is an
    [http.Flusher]. *)
Class ResponseWriter (W : Type) := {
  setHeader : string → string → W → W;
  WriteHeader : Z → W → W;
  Write : content → W → W;
  Flush : W → W;
  canFlush : bool;
}.

(** A response of [net/http]: the headers so far and, once the status is written, the
    status with the headers sent. *)
Record response := mkResponse {
  rp_header : gmap string string;
  rp_sent : option (Z * gmap string string);
  rp_body : list content;
}.

(** The first status is the one that counts. *)
Definition commit (status : Z) (w : response) : response :=
  match rp_sent w with
  | Some _ => w
  | None => mkResponse (rp_header w) (Some (status, rp_header w)) (rp_body w)
  end.

#[export] Instance response_writer : ResponseWriter response := {
  setHeader k v w := mkResponse (<[k := v]> (rp_header w)) (rp_sent w) (rp_body w);
  WriteHeader := commit;
  Write c w := let w := commit 200 w in mkResponse (rp_header w) (rp_sent w) (rp_body w ++ [c]);
  Flush := commit 200;
  canFlush := true;
}.

Definition newResponse : response := mkResponse ∅ None [].

Definition StatusOK : Z := 200.
Definition StatusMovedPermanently : Z := 301.
Definition StatusSeeOther : Z := 303.
Definition StatusBadRequest : Z := 400.
Definition StatusForbidden : Z := 403.
Definition StatusNotFound : Z := 404.
Definition StatusMethodNotAllowed : Z := 405.
Definition StatusInternalServerError : Z := 500.

Section writers.
Context {W : Type} `{ResponseWriter W}.

(** ** Pages ([render.go]) *)

Definition render (w : W) (status : Z) (page : content) : W :=
  Write page (WriteHeader status (setHeader "Content-Type" "text/html; charset=utf-8" w)).

Definition renderError (w : W) (status : Z) (message : string) : W :=
  render w status (ErrorPage (mkErrorData "Error" status message)).

(** [http.Error]. *)
Definition httpError (w : W) (msg : string) (status : Z) : W :=
  Write (Text (msg +:+ newline)) (WriteHeader status
    (setHeader "X-Content-Type-Options" "nosniff"
      (setHeader "Content-Type" "text/plain; charset=utf-8" w))).

(** [http.Redirect] after a POST, to a path that is clean: no body. *)
Definition redirect (w : W) (url : string) (status : Z) : W :=
  WriteHeader status (setHeader "Location" url w).

Fixpoint htmlEscape (s : string) : string :=
  match s with
  | EmptyString => ""
  | String c s' =>
      (if c ==? "&"%char then "&amp;" else if c ==? "<"%char then "&lt;"
       else if c ==? ">"%char then "&gt;" else if c ==? dquote then "&#34;"
       else if c ==? "'"%char then "&#39;" else String c "") +:+ htmlEscape s'
  end.

(** [http.Redirect] after a GET or HEAD, to an ASCII path: a GET has a short body. *)
Definition movedPermanently (w : W) (method url : string) : W :=
  let w := setHeader "Content-Type" "text/html; charset=utf-8" (setHeader "Location" url w) in
  let w := WriteHeader StatusMovedPermanently w in
  if method ==? "GET" then
    Write (Text ("<a href=" +:+ String dquote (htmlEscape url) +:+ String dquote ">Moved Permanently</a>."
                 +:+ newline +:+ newline)) w
  else w.

End writers.

(** ** The error rewriter ([notfound.go]) *)

Record errorRewriter := mkErrorRewriter {
  er_under : response;
  er_handled : bool;
}.

Definition erWriteHeader (status : Z) (e : errorRewriter) : errorRewriter :=
  if (status =? StatusNotFound)%Z || (status =? StatusMethodNotAllowed)%Z then
    let msg := if (status =? StatusMethodNotAllowed)%Z then "method not allowed" else "page not found" in
    mkErrorRewriter (renderError (er_under e) status msg) true
  else mkErrorRewriter (WriteHeader status (er_under e)) (er_handled e).

Definition erWrite (c : content) (e : errorRewriter) : errorRewriter :=
  if er_handled e then e else mkErrorRewriter (Write c (er_under e)) (er_handled e).

Definition erFlush (e : errorRewriter) : errorRewriter :=
  mkErrorRewriter (Flush (er_under e)) (er_handled e).

#[export] Instance errorRewriter_writer : ResponseWriter errorRewriter := {
  setHeader k v e := mkErrorRewriter (setHeader k v (er_under e)) (er_handled e);
  WriteHeader := erWriteHeader;
  Write := erWrite;
  Flush := erFlush;
  canFlush := true;
}.

(** ** Requests *)

(** A form: the error of [ParseForm], or the first value of each field of the body. *)
Record Request := mkRequest {
  rq_Method : string;
  rq_Host : string;
  rq_Segments : list string;       (** of the cleaned path, unescaped *)
  rq_Slash : bool;                 (** the path ends with a slash *)
  rq_RawQuery : string;
  rq_Origin : string;
  rq_LastEventID : string;
  rq_After : string;
  rq_Form : res (gmap string string);
}.

Definition PostFormValue (r : Request) (name : string) : string :=
  match rq_Form r with Ok f => default "" (f !! name) | Err _ => "" end.

(** [jobIDPattern], the pattern of [job.ValidID] again. *)
Definition validJobID (id : string) : bool :=
  match id with
  | String h (String p (String d rest)) =>
      (h ==? "h"%char) && (p ==? "p"%char) && (d ==? "-"%char)
      && all_bytes id_byte rest && (len rest ==? 26)
  | _ => false
  end.

(** ** Handlers ([handlers.go], [sse.go]) *)

Definition jobListLimit : Z := 50.

Section handlers.
Context `{TimeEnv} `{UnicodeTables} `{ProtoJSON} {W : Type} `{ResponseWriter W}.
Variable sv : Service.

Definition renderIndex (w : W) (status : Z) (form : formValues) (errMsg : string) : prog W :=
  o ← Service.List jobListLimit "";
  match o with
  | Panicked => Panic
  | Returned (Err _) => mret (renderError w StatusInternalServerError "failed to list jobs")
  | Returned (Ok (jobs, _)) =>
      mret (render w status (IndexPage (mkIndexData "Jobs" (newJobRow <$> jobs) form errMsg)))
  end.

Definition noForm : formValues := mkFormValues "" "" "".

Definition index (w : W) : prog W := renderIndex w StatusOK noForm "".

Definition submit (w : W) (r : Request) : prog W :=
  match rq_Form r with
  | Err _ => renderIndex w StatusBadRequest noForm "invalid form submission"
  | Ok _ =>
      let form := mkFormValues (PostFormValue r "prompt") (PostFormValue r "profile")
                    (PostFormValue r "run_config_json") in
      if blank (fv_Prompt form) && blank (fv_RunConfigJSON form) then
        renderIndex w StatusBadRequest form "prompt or run config JSON is required"
      else
        x ← Submit sv (mkSubmitParams (fv_Prompt form) (fv_Profile form) (fv_RunConfigJSON form) []);
        match x with
        | Err e => renderIndex w StatusBadRequest form (Error e)
        | Ok j => mret (redirect w ("/jobs/" +:+ j_ID j) StatusSeeOther)
        end
  end.

Definition detail (w : W) (id : string) : prog W :=
  if negb (validJobID id) then mret (renderError w StatusBadRequest "invalid job id")
  else
    x ← GetOp id;
    match x with
    | Err e =>
        mret (if errorsIs e ErrNotFound then renderError w StatusNotFound "job not found"
              else renderError w StatusInternalServerError "failed to load job")
    | Ok j =>
        y ← ListPermissionsOp id;
        match y with
        | Err _ => mret (renderError w StatusInternalServerError "failed to load permission requests")
        | Ok perms =>
            d ← newJobDetail j;
            mret (render w StatusOK (DetailPage (mkDetailData (j_ID j) d (newPermissionRows perms))))
        end
    end.

Definition cancel (w : W) (id : string) : prog W :=
  if negb (validJobID id) then mret (renderError w StatusBadRequest "invalid job id")
  else
    x ← Cancel id;
    mret match x with
         | Err e =>
             if errorsIs e ErrNotFound then renderError w StatusNotFound "job not found"
             else renderError w StatusInternalServerError "failed to cancel job"
         | Ok _ => redirect w ("/jobs/" +:+ id) StatusSeeOther
         end.

Definition answerPermission (w : W) (r : Request) (id requestID : string) : prog W :=
  if negb (validJobID id) || (requestID ==? "") then
    mret (renderError w StatusBadRequest "invalid permission request")
  else
    match rq_Form r with
    | Err _ => mret (renderError w StatusBadRequest "invalid form submission")
    | Ok _ =>
        let allow := PostFormValue r "allow" ==? "true" in
        let reason := PostFormValue r "reason" in
        x ← Service.AnswerPermission id requestID allow reason;
        mret match x with
             | Err e =>
                 if errorsIs e ErrNotFound then renderError w StatusNotFound "permission request not found"
                 else renderError w StatusInternalServerError "failed to answer permission request"
             | Ok _ => redirect w ("/jobs/" +:+ id) StatusSeeOther
             end
    end.

(** The branch that the select of the loop takes: the channel, the ticker, or the end of
    the request. *)
Inductive branch := FromChannel | FromTicker | FromContext.

(** What the loop takes up, of the events that come through the channel until it is
    closed. *)
Fixpoint turnsOf (chan : list Event) (branches : list branch) : list turn :=
  match branches with
  | [] => []
  | FromChannel :: bs =>
      match chan with ev :: chan' => TEvent ev :: turnsOf chan' bs | [] => TClosed :: turnsOf [] bs end
  | FromTicker :: bs => THeartbeat :: turnsOf chan bs
  | FromContext :: bs => TDone :: turnsOf chan bs
  end.

(** The events of a watch; the channel of a live one is what it delivers. *)
Definition channelOf (x : watching (list Event)) : list Event :=
  match x with Replayed evs => evs | Live src => forward src end.

(** The loop of [events]: each item of the feed is written and flushed. *)
Definition streamFeed (turns : list turn) (w : W) : W :=
  foldl (λ w s, Flush (Write (Text s) w)) w (feed turns).

Definition events (fuel : nat) (src : res (list Event)) (branches : list branch) (w : W) (r : Request) (id : string) : prog W :=
  if negb (validJobID id) then mret (renderError w StatusBadRequest "invalid job id")
  else if negb canFlush then mret (renderError w StatusInternalServerError "streaming unsupported")
  else
    let afterID := if rq_LastEventID r ==? "" then rq_After r else rq_LastEventID r in
    x ← Watch src fuel id afterID;
    mret match x with
         | Err e =>
             if errorsIs e ErrNotFound then renderError w StatusNotFound "job not found"
             else renderError w StatusInternalServerError "failed to watch job"
         | Ok x =>
             let w := setHeader "Content-Type" "text/event-stream" w in
             let w := setHeader "Cache-Control" "no-cache" w in
             let w := setHeader "Connection" "keep-alive" w in
             let w := setHeader "X-Accel-Buffering" "no" w in
             streamFeed (turnsOf (channelOf x) branches) (Flush (WriteHeader StatusOK w))
         end.

End handlers.

(** ** Routing ([New]) *)

(** What [http.ServeMux] makes of a request, with the patterns of [New]; the mux in front
    has cleaned the path.  A pattern for GET serves HEAD too, a wildcard takes one segment,
    and a trailing slash is part of a path. *)
Inductive route :=
  | RIndex
  | RSubmit
  | RDetail (id : string)
  | REvents (id : string)
  | RCancel (id : string)
  | RAnswer (id requestID : string)
  | RStatic
  | RAddSlash
  | RNotAllowed (allow : string)
  | RNotFound.

Definition isRead (method : string) : bool := (method ==? "GET") || (method ==? "HEAD").

Definition onGet (method : string) (r : route) : route :=
  if isRead method then r else RNotAllowed "GET, HEAD".
Definition onPost (method : string) (r : route) : route :=
  if method ==? "POST" then r else RNotAllowed "POST".

Definition routeOf (r : Request) : route :=
  let m := rq_Method r in
  match rq_Segments r, rq_Slash r with
  | [], _ => onGet m RIndex
  | a :: rest, slash =>
      if a ==? "static" then
        if slash || negb (bool_decide (length rest = 0)) then onGet m RStatic else onGet m RAddSlash
      else if negb (a ==? "jobs") || slash then RNotFound
      else
        match rest with
        | [] => onPost m RSubmit
        | [id] => onGet m (RDetail id)
        | [id; b] =>
            if b ==? "events" then onGet m (REvents id)
            else if b ==? "cancel" then onPost m (RCancel id)
            else RNotFound
        | [id; b; requestID] =>
            if b ==? "permissions" then onPost m (RAnswer id requestID) else RNotFound
        | _ => RNotFound
        end
  end.

(** The host [url.Parse] reads off an origin, if it can be parsed. *)
Class URLs := originHost : string → option string.

Section ui.
Context `{TimeEnv} `{UnicodeTables} `{ProtoJSON} `{URLs}.
Variables (sv : Service) (fuel : nat).

(** The embedded files, served by [http.FileServerFS]; the store's channel and the
    branches of a feed. *)
Variables (serveStatic : Request → errorRewriter → errorRewriter).
Variables (src : res (list Event)) (branches : list branch).

Definition serveMux (w : errorRewriter) (r : Request) : prog errorRewriter :=
  match routeOf r with
  | RIndex => index w
  | RSubmit => submit sv w r
  | RDetail id => detail w id
  | REvents id => events fuel src branches w r id
  | RCancel id => cancel w id
  | RAnswer id requestID => answerPermission w r id requestID
  | RStatic => mret (serveStatic r w)
  | RAddSlash => mret (movedPermanently w (rq_Method r)
      ("/static/" +:+ if rq_RawQuery r ==? "" then "" else "?" +:+ rq_RawQuery r))
  | RNotAllowed allow =>
      mret (httpError (setHeader "Allow" allow w) "Method Not Allowed" StatusMethodNotAllowed)
  | RNotFound => mret (httpError w "404 page not found" StatusNotFound)
  end.

(** [notFoundInterceptor.ServeHTTP]. *)
Definition intercept (w : response) (r : Request) : prog response :=
  e ← serveMux (mkErrorRewriter w false) r; mret (er_under e).

(** Whether a request that may change state comes from elsewhere. *)
Definition crossOrigin (r : Request) : bool :=
  negb (isRead (rq_Method r)) && (rq_Origin r !=? "")
  && match originHost (rq_Origin r) with
     | None => true
     | Some host => host !=? rq_Host r
     end.

(** [protectUI]. *)
Definition serveUI (w : response) (r : Request) : prog response :=
  let w := setHeader "X-Frame-Options" "DENY" w in
  let w := setHeader "X-Content-Type-Options" "nosniff" w in
  let w := setHeader "Content-Security-Policy" "default-src 'self'" w in
  if crossOrigin r then mret (httpError w "cross-origin request rejected" StatusForbidden)
  else intercept w r.

End ui.
