(* ===== verification/WebFacts.v ===== *)
(** * What the web UI promises

    Requests from elsewhere change nothing, every response is hardened, and the error
    rewriter also takes over the pages it was not meant for. *)

From stdpp Require Import base gmap list strings.
From Stdlib Require Import Ascii.
From S2P Require Import Prelude Utf8 Fmt Json GoTime Job Proto Store MemStore MemStoreFacts Timeline Telemetry Registry Prog.
From S2P Require Import Memory RunConfigs Service Watch View Sse Web Samples.

(** ** Actions *)

(** Actions that change no state. *)
Definition reading (X : Type) (e : eff X) : Prop :=
  match e with
  | EGetJob _ | EListJobs _ _ | EReadEvents _ _ _ | EGetPermission _ _ | EListPermissions _
  | EConnected _ | ENow => True
  | _ => False
  end.

Section actions.
Context `{TimeEnv} `{UnicodeTables} `{ProtoJSON}.

Lemma reading_checked {A} id (p : prog (res A)) : guarded reading p → guarded reading (checked id p).
Proof. unfold checked. by destruct (checkID id). Qed.

Lemma reading_replay fuel id cursor : guarded reading (replay fuel id cursor).
Proof.
  revert cursor. induction fuel as [|fuel IH]; intros cursor; [done|]. cbn [replay].
  apply obeys_perform_bind; [done|]. intros [evs|e]; [|done]. destruct (last evs); [|done].
  apply obeys_bind; [apply IH|done].
Qed.

Lemma reading_Watch {Chan} (o : res Chan) fuel id afterID : guarded reading (Watch o fuel id afterID).
Proof.
  apply reading_checked, obeys_perform_bind; [done|]. intros [j|e]; [|done].
  destruct (Terminal (j_Status j)); [|by destruct o]. apply obeys_bind; [apply reading_replay|done].
Qed.

Lemma reading_formatAge t : guarded reading (formatAge t).
Proof. unfold formatAge. by destruct (IsZero t). Qed.

Context {W : Type} `{ResponseWriter W}.
Implicit Types w : W.

Lemma reading_renderIndex w status form msg : guarded reading (renderIndex w status form msg).
Proof. apply obeys_perform_bind; [done|]. by intros [[[jobs next]|e]|]. Qed.

Lemma reading_detail w id : guarded reading (detail w id).
Proof.
  unfold detail. destruct (validJobID id); [|done]. cbn [negb].
  apply obeys_bind; [by apply reading_checked|]. intros [j|e]; [|done].
  apply obeys_bind; [by apply reading_checked|]. intros [perms|e]; [|done].
  apply obeys_bind; [|done]. apply obeys_bind; [apply reading_formatAge|done].
Qed.

Lemma reading_events fuel src bs w r id : guarded reading (events fuel src bs w r id).
Proof.
  unfold events. destruct (validJobID id), canFlush; try done. cbn [negb].
  apply obeys_bind; [apply reading_Watch|done].
Qed.

End actions.

(** A route that is not for POST only reads. *)
Lemma routeOf_reads r :
  rq_Method r ≠ "POST" →
  match routeOf r with RSubmit | RCancel _ | RAnswer _ _ => False | _ => True end.
Proof.
  intros Hm. unfold routeOf, onGet, onPost. rewrite (bool_decide_eq_false_2 (rq_Method r = "POST")) by done.
  repeat case_match; done.
Qed.

(** ** Hardening *)

Definition hardened (h : gmap string string) : Prop :=
  h !! "X-Frame-Options" = Some "DENY" ∧ h !! "X-Content-Type-Options" = Some "nosniff"
  ∧ h !! "Content-Security-Policy" = Some "default-src 'self'".

(** The headers so far, and those sent, are hardened. *)
Definition guardedResponse (w : response) : Prop :=
  hardened (rp_header w) ∧ match rp_sent w with Some (_, h) => hardened h | None => True end.

Definition committed (w : response) : Prop := is_Some (rp_sent w).

(** A header that is none of the three, or repeats one. *)
Definition harmless (k v : string) : Prop :=
  (k ≠ "X-Frame-Options" ∧ k ≠ "X-Content-Type-Options" ∧ k ≠ "Content-Security-Policy")
  ∨ k = "X-Content-Type-Options" ∧ v = "nosniff".

Lemma guardedResponse_setHeader k v w :
  harmless k v → guardedResponse w → guardedResponse (setHeader k v w).
Proof.
  intros Hk [(H1 & H2 & H3) Hs]. split; [|done]. unfold hardened. cbn.
  destruct Hk as [(K1 & K2 & K3)|[-> ->]].
  - by rewrite !lookup_insert_ne.
  - by rewrite lookup_insert_eq, !lookup_insert_ne.
Qed.

Lemma guardedResponse_commit st w : guardedResponse w → guardedResponse (commit st w).
Proof. intros [H1 H2]. unfold commit. destruct (rp_sent w) eqn:E; [split; [done|by rewrite E]|by split]. Qed.

Lemma committed_commit st w : committed (commit st w).
Proof. unfold commit, committed. destruct (rp_sent w) eqn:E; [by rewrite E|by eexists]. Qed.

Lemma committed_kept_commit st w : committed w → commit st w = w.
Proof. intros [x Hx]. unfold commit. by rewrite Hx. Qed.

(** A response under the rewriter that is hardened, and one that is sent as well. *)
Definition primed (e : errorRewriter) : Prop := guardedResponse (er_under e).
Definition settled (e : errorRewriter) : Prop :=
  guardedResponse (er_under e) ∧ committed (er_under e).

Lemma guardedResponse_render w st page :
  guardedResponse w → guardedResponse (render w st page) ∧ committed (render w st page).
Proof.
  intros Hw. assert (guardedResponse (setHeader "Content-Type" "text/html; charset=utf-8" w)) as Hw'
    by (apply guardedResponse_setHeader; [by left|done]).
  unfold render. cbn [WriteHeader Write response_writer].
  set (w1 := setHeader _ _ w) in *. rewrite (committed_kept_commit 200) by apply committed_commit.
  apply (guardedResponse_commit st) in Hw'. pose proof (committed_commit st w1) as Hc.
  by destruct Hw'.
Qed.

Lemma primed_setHeader k v e : harmless k v → primed e → primed (setHeader k v e).
Proof. intros Hk He. by apply guardedResponse_setHeader. Qed.

Lemma settled_WriteHeader st e : primed e → settled (WriteHeader st e).
Proof.
  intros He. cbn [WriteHeader errorRewriter_writer]. unfold erWriteHeader, settled.
  destruct (_ || _); cbn [er_under].
  - by apply guardedResponse_render.
  - split; [by apply guardedResponse_commit|apply committed_commit].
Qed.

Lemma settled_Write c e : settled e → settled (Write c e).
Proof.
  intros [[H1 H2] Hc]. cbn [Write errorRewriter_writer]. unfold erWrite.
  destruct (er_handled e); [done|]. unfold settled. cbn [er_under Write response_writer].
  rewrite committed_kept_commit by done. done.
Qed.

Lemma settled_Flush e : settled e → settled (Flush e).
Proof.
  intros [H1 Hc]. split; cbn; rewrite committed_kept_commit by done; done.
Qed.

Lemma settled_render e st page : primed e → settled (render e st page).
Proof. intros He. apply settled_Write, settled_WriteHeader, primed_setHeader; [by left|done]. Qed.

Lemma settled_httpError e msg st : primed e → settled (httpError e msg st).
Proof.
  intros He. apply settled_Write, settled_WriteHeader, primed_setHeader; [by right|].
  apply primed_setHeader; [by left|done].
Qed.

Lemma settled_redirect e url st : primed e → settled (redirect e url st).
Proof. intros He. apply settled_WriteHeader, primed_setHeader; [by left|done]. Qed.

Lemma settled_moved e m url : primed e → settled (movedPermanently e m url).
Proof.
  intros He. unfold movedPermanently. destruct (m ==? "GET"); [apply settled_Write|];
    apply settled_WriteHeader, primed_setHeader; [by left| |by left|];
    (apply primed_setHeader; [by left|done]).
Qed.

Lemma settled_streamFeed turns e : settled e → settled (streamFeed turns e).
Proof.
  unfold streamFeed. revert e. induction (feed turns) as [|s l IH]; intros e He; [done|].
  cbn. by apply IH, settled_Flush, settled_Write.
Qed.

(** Every result of the program, whatever the answers it gets. *)
Fixpoint yields {A : Type} (Q : A → Prop) (p : prog A) : Prop :=
  match p with
  | Ret a => Q a
  | Act e k => ∀ x, yields Q (k x)
  | Go _ _ k => yields Q k
  | Panic | OutOfFuel => True
  end.

Lemma yields_bind {A B} (Q : B → Prop) (p : prog A) (f : A → prog B) :
  (∀ a, yields Q (f a)) → yields Q (p ≫= f).
Proof.
  intros Hf. unfold mbind, prog_bind. induction p as [A a|A X e k IH|A l q _ k IH|A|A]; cbn; auto.
Qed.

Lemma yields_bind_ret {A B} (P : A → Prop) (Q : B → Prop) (p : prog A) (f : A → B) :
  yields P p → (∀ a, P a → Q (f a)) → yields Q (a ← p; mret (f a)).
Proof.
  unfold mbind, prog_bind. induction p as [A a|A X e k IH|A l q _ k IH|A|A]; cbn; intros Hp Hf; eauto.
Qed.

Section hardening.
Context `{TimeEnv} `{UnicodeTables} `{ProtoJSON}.
Variable sv : Service.
Implicit Types e : errorRewriter.

Lemma settled_renderIndex e st form msg : primed e → yields settled (renderIndex e st form msg).
Proof.
  intros He. apply yields_bind. intros [[[jobs next]|err]|]; [..|done]; by apply settled_render.
Qed.

Lemma settled_submit e r : primed e → yields settled (submit sv e r).
Proof.
  intros He. unfold submit. destruct (rq_Form r) as [f|err]; [|by apply settled_renderIndex].
  destruct (_ && _); [by apply settled_renderIndex|]. apply yields_bind.
  intros [j|err]; [by apply settled_redirect|by apply settled_renderIndex].
Qed.

Lemma settled_renderError e st msg : primed e → settled (renderError e st msg).
Proof. apply settled_render. Qed.

Lemma settled_detail e id : primed e → yields settled (detail e id).
Proof.
  intros He. unfold detail. destruct (negb _); [by apply settled_renderError|].
  apply yields_bind. intros [j|err]; [|cbn [yields mret prog_ret]; destruct (errorsIs _ _); by apply settled_renderError].
  apply yields_bind. intros [perms|err]; [|by apply settled_renderError].
  apply yields_bind. intros d. by apply settled_render.
Qed.

Lemma settled_cancel e id : primed e → yields settled (cancel e id).
Proof.
  intros He. unfold cancel. destruct (negb _); [by apply settled_renderError|].
  apply yields_bind. intros [j|err]; cbn [yields mret prog_ret]; [by apply settled_redirect|].
  destruct (errorsIs _ _); by apply settled_renderError.
Qed.

Lemma settled_answer e r id q : primed e → yields settled (answerPermission e r id q).
Proof.
  intros He. unfold answerPermission. destruct (_ || _); [by apply settled_renderError|].
  destruct (rq_Form r); [|by apply settled_renderError].
  apply yields_bind. intros [p|err]; cbn [yields mret prog_ret]; [by apply settled_redirect|].
  destruct (errorsIs _ _); by apply settled_renderError.
Qed.

Lemma settled_events fuel src bs e r id : primed e → yields settled (events fuel src bs e r id).
Proof.
  intros He. unfold events. destruct (negb _); [by apply settled_renderError|].
  destruct (negb _); [by apply settled_renderError|]. apply yields_bind. intros [x|err]; cbn [yields mret prog_ret].
  - apply settled_streamFeed, settled_Flush, settled_WriteHeader.
    repeat (apply primed_setHeader; [by left|]). done.
  - destruct (errorsIs _ _); by apply settled_renderError.
Qed.

End hardening.

(** ** Properties *)

Section properties.
Context `{TimeEnv} `{UnicodeTables} `{ProtoJSON} `{URLs}.

(** A request that is not a POST, or comes from elsewhere, only reads. *)
Lemma serveUI_reads (sv : Service) (fuel : nat)
  (serveStatic : Request → errorRewriter → errorRewriter) (src : res (list Event)) (bs : list branch)
  (w : response) (r : Request) :
  rq_Method r ≠ "POST" ∨ rq_Origin r ≠ "" ∧ originHost (rq_Origin r) ≠ Some (rq_Host r) →
  guarded reading (serveUI sv fuel serveStatic src bs w r).
Proof.
  intros Hfrom. unfold serveUI. destruct (crossOrigin r) eqn:Ec; [done|].
  destruct (decide (rq_Method r = "POST")) as [Hm|Hm].
  { exfalso. destruct Hfrom as [?|[Ho Hh]]; [done|]. unfold crossOrigin, isRead in Ec.
    rewrite Hm in Ec. cbn in Ec. rewrite (bool_decide_eq_false_2 (rq_Origin r = "")) in Ec by done.
    destruct (originHost (rq_Origin r)) as [host|]; [|done].
    change (negb ((_ : bool) || _) && negb false) with true in Ec. cbn [andb] in Ec. boolify. by subst. }
  apply obeys_bind; [|done]. unfold serveMux. pose proof (routeOf_reads r Hm) as Hr.
  destruct (routeOf r); try done; auto using reading_renderIndex, reading_detail, reading_events.
  apply reading_renderIndex.
Qed.

(** C20. The web UI changes state only for its own pages: a request that is not a POST, or
    whose Origin header names another host than the one it was sent to, or cannot be
    parsed, makes the UI perform reads only, in every handler and whatever the store
    answers; and of a cross-origin request that may change state nothing reaches the
    service at all, which is answered 403. *)
Theorem ui_acts_for_its_own_pages (sv : Service) (fuel : nat)
  (serveStatic : Request → errorRewriter → errorRewriter) (src : res (list Event)) (bs : list branch)
  (w : response) (r : Request)
  (Hfrom : rq_Method r ≠ "POST" ∨ rq_Origin r ≠ "" ∧ originHost (rq_Origin r) ≠ Some (rq_Host r)) :
  guarded reading (serveUI sv fuel serveStatic src bs w r)
  ∧ (crossOrigin r = true → ∃ w', serveUI sv fuel serveStatic src bs w r = Ret w'
       ∧ (rp_sent w = None → ∃ h, rp_sent w' = Some (StatusForbidden, h))).
Proof.
  split; [by apply serveUI_reads|]. unfold serveUI. intros ->. eexists. split; [done|]. intros Hw.
  destruct w as [h sent body]. cbn in *. subst. by eexists.
Qed.

(** Every response of the web UI carries the headers that forbid framing, content
    sniffing and foreign content, error pages, redirects and event feeds included, as long
    as the file server, which is part of [net/http], answers and leaves them alone. *)
Theorem ui_responses_hardened (sv : Service) (fuel : nat)
  (serveStatic : Request → errorRewriter → errorRewriter) (src : res (list Event)) (bs : list branch)
  (r : Request) (Hstatic : ∀ e, primed e → settled (serveStatic r e)) :
  yields (λ w, ∃ st h, rp_sent w = Some (st, h) ∧ hardened h)
    (serveUI sv fuel serveStatic src bs newResponse r).
Proof.
  assert (∀ e, settled e → ∃ st h, rp_sent (er_under e) = Some (st, h) ∧ hardened h) as Hdone.
  { intros e [[_ Hs] [[st h] Hc]]. rewrite Hc in Hs. eauto. }
  unfold serveUI. destruct (crossOrigin r).
  { eexists _, _. split; [done|]. unfold hardened. cbn. by rewrite !lookup_insert_eq, !lookup_insert_ne,
      ?lookup_insert_eq, ?lookup_insert_ne, ?lookup_insert_eq by done. }
  set (w := setHeader "Content-Security-Policy" _ _).
  assert (primed (mkErrorRewriter w false)) as Hp.
  { split; [|done]. unfold hardened. cbn. by rewrite ?lookup_insert_eq, ?lookup_insert_ne,
      ?lookup_insert_eq, ?lookup_insert_ne, ?lookup_insert_eq by done. }
  apply (yields_bind_ret settled); [|done]. unfold serveMux.
  destruct (routeOf r); cbn [yields mret prog_ret].
  - by apply settled_renderIndex.
  - by apply settled_submit.
  - by apply settled_detail.
  - by apply settled_events.
  - by apply settled_cancel.
  - by apply settled_answer.
  - by apply Hstatic.
  - by apply settled_moved.
  - apply settled_httpError, primed_setHeader; [by left|done].
  - by apply settled_httpError.
Qed.

End properties.

(** ** The page of an unknown job *)

(** The web UI hides its own answer for an unknown job: the detail page of a job the
    store does not hold renders "job not found" with status 404, and the error rewriter,
    meant for the 404s of the router, replaces it, so that the browser is told "page not
    found". *)
Theorem ui_masks_unknown_job {St : Type} `{StoreLaws St} `{TimeEnv} `{UnicodeTables} `{ProtoJSON} `{URLs}
  (env : Env) (sv : Service) (fuel : nat) (serveStatic : Request → errorRewriter → errorRewriter)
  (src : res (list Event)) (bs : list branch) (r : Request) (id : string) (w : World St)
  (Hr : routeOf r = RDetail id) (Hid : validJobID id = true) (Hw : jobs w !! id = None) :
  ∃ h, snd (run env (serveUI sv fuel serveStatic src bs newResponse r) w)
  = Done (mkResponse h (Some (StatusNotFound, h)) [ErrorPage (mkErrorData "Error" 404 "page not found")]).
Proof.
  assert (isRead (rq_Method r) = true) as Hm.
  { revert Hr. unfold routeOf, onGet, onPost. repeat case_match; done. }
  unfold serveUI, crossOrigin. rewrite Hm. cbn [negb andb]. unfold intercept, serveMux. rewrite Hr.
  unfold detail. rewrite Hid. cbn [negb]. unfold GetOp, checked, checkID.
  change (ValidID id) with (validJobID id). rewrite Hid. cbn [negb].
  pose proof (law_GetJob id (w_store w)) as Hg. fold (jobs w) in Hg. rewrite Hw in Hg.
  destruct Hg as (e & Hg & He). cbn [run mbind prog_bind bind perform actTick act]. unfold actTick. cbn [act].
  rewrite Hg. cbn [run mbind prog_bind bind]. rewrite He. by eexists.
Qed.

#[local] Existing Instance sample_time.
#[local] Existing Instance sample_tables.
#[local] Existing Instance sample_codec.

(** Origins without a port, after their scheme. *)
#[local] Instance sample_urls : URLs := λ o, if stake 8 o ==? "https://" then Some (sdrop 8 o) else None.

Definition ui (r : Request) : prog response :=
  serveUI (NewService None []) 10 (λ _ e, WriteHeader StatusOK e) (Ok []) [] newResponse r.

(** A form posted from another site to cancel a job, and from the UI itself. *)
Definition cancel_from (origin : string) : Request :=
  mkRequest "POST" "hairpin.example" ["jobs"; sample_id; "cancel"] false "" origin "" "" (Ok ∅).

Lemma ui_acts_for_its_own_pages_witness :
  guarded reading (ui (cancel_from "https://evil.example"))
  ∧ (crossOrigin (cancel_from "https://evil.example") = true →
     ∃ w', ui (cancel_from "https://evil.example") = Ret w'
       ∧ (rp_sent newResponse = None → ∃ h, rp_sent w' = Some (StatusForbidden, h)))
  ∧ crossOrigin (cancel_from "https://hairpin.example") = false.
Proof.
  assert (rq_Method (cancel_from "https://evil.example") ≠ "POST"
    ∨ rq_Origin (cancel_from "https://evil.example") ≠ ""
      ∧ originHost (rq_Origin (cancel_from "https://evil.example")) ≠ Some "hairpin.example") as Hf.
  { right. split; [done|]. vm_compute. congruence. }
  destruct (ui_acts_for_its_own_pages (NewService None []) 10 (λ _ e, WriteHeader StatusOK e) (Ok []) []
    newResponse (cancel_from "https://evil.example") Hf) as [H1 H2].
  split_and!; [exact H1|exact H2|vm_compute; reflexivity].
Defined.

Lemma ui_responses_hardened_witness :
  yields (λ w, ∃ st h, rp_sent w = Some (st, h) ∧ hardened h) (ui (cancel_from "")).
Proof. apply ui_responses_hardened. intros e He. by apply settled_WriteHeader. Defined.

(** The detail page of a job nobody submitted. *)
Definition detail_of (id : string) : Request :=
  mkRequest "GET" "hairpin.example" ["jobs"; id] false "" "" "" "" (Ok ∅).

Lemma ui_masks_unknown_job_witness :
  ∃ h, snd (run sample_env (ui (detail_of "hp-00000000000000000000000000")) (sample_world []))
  = Done (mkResponse h (Some (StatusNotFound, h)) [ErrorPage (mkErrorData "Error" 404 "page not found")]).
Proof. apply (ui_masks_unknown_job sample_env _ _ _ _ _ _ "hp-00000000000000000000000000"); reflexivity. Defined.
