(* ===== verification/Mux.v ===== *)
(** * The listener's routes ([src/cmd/hairpin/serve.go], [src/gen])

    Where a request on hairpin's one listener goes: the two RPC services, whose generated
    handlers pick a method by the path, the health check, the public key, and the web UI
    for everything else.  What an RPC does with its request, behind the codecs of the RPC
    library, is the parameter [serveRPC]; the handlers themselves are in [Api] and
    [ControlPlane]. *)

From stdpp Require Import base list strings gmap.
From Stdlib Require Import Ascii.
From S2P Require Import Prelude Fmt Job Proto GoTime Store Telemetry Prog Service TokenIssuer Sse Web WebFacts.

(** ** The procedures of the generated code *)

Definition JobServiceName : string := "hairpin.v1.JobService".
Definition JobServiceSubmitJobProcedure : string := "/hairpin.v1.JobService/SubmitJob".
Definition JobServiceGetJobProcedure : string := "/hairpin.v1.JobService/GetJob".
Definition JobServiceListJobsProcedure : string := "/hairpin.v1.JobService/ListJobs".
Definition JobServiceWatchJobProcedure : string := "/hairpin.v1.JobService/WatchJob".
Definition JobServiceCancelJobProcedure : string := "/hairpin.v1.JobService/CancelJob".
Definition JobServiceListPermissionRequestsProcedure : string :=
  "/hairpin.v1.JobService/ListPermissionRequests".
Definition JobServiceAnswerPermissionProcedure : string := "/hairpin.v1.JobService/AnswerPermission".

Definition HarnessServiceName : string := "stirrup.harness.v1.HarnessService".
Definition HarnessServiceRunTaskProcedure : string := "/stirrup.harness.v1.HarnessService/RunTask".

Inductive rpc :=
  | RpcSubmitJob | RpcGetJob | RpcListJobs | RpcWatchJob | RpcCancelJob
  | RpcListPermissionRequests | RpcAnswerPermission | RpcRunTask.

(** The switches of the two handlers on [r.URL.Path]; without a case, [http.NotFound]. *)
Definition NewJobServiceHandler (path : string) : option rpc :=
  if path ==? JobServiceSubmitJobProcedure then Some RpcSubmitJob
  else if path ==? JobServiceGetJobProcedure then Some RpcGetJob
  else if path ==? JobServiceListJobsProcedure then Some RpcListJobs
  else if path ==? JobServiceWatchJobProcedure then Some RpcWatchJob
  else if path ==? JobServiceCancelJobProcedure then Some RpcCancelJob
  else if path ==? JobServiceListPermissionRequestsProcedure then Some RpcListPermissionRequests
  else if path ==? JobServiceAnswerPermissionProcedure then Some RpcAnswerPermission
  else None.

Definition NewHarnessServiceHandler (path : string) : option rpc :=
  if path ==? HarnessServiceRunTaskProcedure then Some RpcRunTask else None.

(** ** The mux of [serve] *)

(** [r.URL.Path] of a cleaned path. *)
Fixpoint joinPath (segments : list string) (slash : bool) : string :=
  match segments with
  | [] => if slash then "/" else ""
  | a :: rest => "/" +:+ a +:+ joinPath rest slash
  end.

Definition pathOf (r : Request) : string :=
  match rq_Segments r with
  | [] => "/"
  | segments => joinPath segments (rq_Slash r)
  end.

Inductive endpoint :=
  | ToRPC (p : rpc)
  | NoProcedure
  | AddSlash
  | Health
  | PublicKey
  | UserInterface.

(** The patterns: a subtree for each service, whose name alone is redirected into it, two
    single paths, the second registered with an issuer only, and the rest. *)
Definition endpointOf (issuer : bool) (r : Request) : endpoint :=
  match rq_Segments r, rq_Slash r with
  | [a], false =>
      if (a ==? HarnessServiceName) || (a ==? JobServiceName) then AddSlash
      else if a ==? "healthz" then Health
      else UserInterface
  | a :: rest, slash =>
      if a ==? HarnessServiceName then from_option ToRPC NoProcedure (NewHarnessServiceHandler (pathOf r))
      else if a ==? JobServiceName then from_option ToRPC NoProcedure (NewJobServiceHandler (pathOf r))
      else if issuer && (a ==? ".well-known") && bool_decide (rest = ["jwks.json"]) && negb slash
           then PublicKey
      else UserInterface
  | [], _ => UserInterface
  end.

Section mux.
Context `{TimeEnv} `{UnicodeTables} `{ProtoJSON} `{URLs}.
Variables (sv : Service) (fuel : nat).
Variables (serveStatic : Request → errorRewriter → errorRewriter).
Variables (src : res (list Event)) (branches : list branch).

(** An RPC, from its request to its response; it may do what its handler does. *)
Variable serveRPC : rpc → response → Request → prog response.

(** The response of a handler that is a function of the method. *)
Definition respond (w : response) (h : httpResponse) : response :=
  Write (Text (hr_Body h)) (WriteHeader (hr_Status h) (map_fold setHeader w (hr_Header h))).

Definition healthz (w : response) : response := Write (Text ("ok" +:+ newline)) (WriteHeader 200 w).

(** [issuer != nil]. *)
Definition issued (issuer : option Issuer) : bool := match issuer with Some _ => true | None => false end.

(** The handler of the listener. *)
Definition serveHTTP (issuer : option Issuer) (w : response) (r : Request) : prog response :=
  match endpointOf (issued issuer) r, issuer with
  | ToRPC p, _ => serveRPC p w r
  | NoProcedure, _ => mret (httpError w "404 page not found" StatusNotFound)
  | AddSlash, _ => mret (movedPermanently w (rq_Method r)
      (pathOf r +:+ "/" +:+ if rq_RawQuery r ==? "" then "" else "?" +:+ rq_RawQuery r))
  | Health, _ => mret (healthz w)
  | PublicKey, Some i => mret (respond w (JWKSHandler i (rq_Method r)))
  | PublicKey, None | UserInterface, _ => serveUI sv fuel serveStatic src branches w r
  end.

(** ** Properties *)

Definition serviceOf (p : rpc) : string :=
  match p with RpcRunTask => HarnessServiceName | _ => JobServiceName end.

Definition methodOf (p : rpc) : string :=
  match p with
  | RpcSubmitJob => "SubmitJob" | RpcGetJob => "GetJob" | RpcListJobs => "ListJobs"
  | RpcWatchJob => "WatchJob" | RpcCancelJob => "CancelJob"
  | RpcListPermissionRequests => "ListPermissionRequests"
  | RpcAnswerPermission => "AnswerPermission" | RpcRunTask => "RunTask"
  end.

(** No slash. *)
Definition plain : string → bool := all_bytes (λ c, negb (bool_decide (c = "047"%char))).

Lemma joinPath_plain segments slash :
  plain (joinPath segments slash) = true → segments = [] ∧ slash = false.
Proof. destruct segments; [by destruct slash|]. by cbn. Qed.

Lemma joinPath_two a rest slash m :
  plain m = true → m ≠ "" → joinPath (a :: rest) slash = "/" +:+ a +:+ "/" +:+ m →
  rest = [m] ∧ slash = false.
Proof.
  intros Hm Hne. cbn [joinPath]. intros E.
  apply (inj (String.append "/")), (inj (String.append a)) in E.
  destruct rest as [|b rest]; cbn [joinPath] in E.
  { destruct slash; [|done]. injection E as E. by subst. }
  apply (inj (String.append "/")) in E. subst m. unfold plain in *. rewrite all_bytes_app in Hm.
  apply andb_prop in Hm as [_ [-> ->]%joinPath_plain]. cbn. by rewrite string_app_nil_r.
Qed.

(** The path of a procedure. *)
Definition procedurePath (p : rpc) : string := "/" +:+ serviceOf p +:+ "/" +:+ methodOf p.

Lemma switches_exact path p :
  (NewJobServiceHandler path = Some p ↔ path = procedurePath p ∧ p ≠ RpcRunTask)
  ∧ (NewHarnessServiceHandler path = Some p ↔ path = procedurePath p ∧ p = RpcRunTask).
Proof.
  split; split.
  - unfold NewJobServiceHandler. intros E. by repeat (case_bool_decide; [by simplify_eq/=|]).
  - intros [-> Hp]. by destruct p.
  - unfold NewHarnessServiceHandler. case_bool_decide; [|done]. by intros [= <-].
  - by intros [-> ->].
Qed.

(** A request reaches a procedure by its path and in no other way. *)
Lemma endpointOf_rpc issuer r p :
  endpointOf issuer r = ToRPC p ↔ rq_Segments r = [serviceOf p; methodOf p] ∧ rq_Slash r = false.
Proof.
  split.
  - unfold endpointOf, pathOf. destruct (rq_Segments r) as [|a rest]; [done|].
    assert (∀ q, a = serviceOf q → joinPath (a :: rest) (rq_Slash r) = procedurePath q →
              a :: rest = [serviceOf q; methodOf q] ∧ rq_Slash r = false) as Hq.
    { intros q -> E. apply joinPath_two in E as [-> ->]; by destruct q. }
    intros E. apply Hq; clear Hq; revert E;
      destruct rest as [|b rest], (rq_Slash r); repeat (case_bool_decide; cbn [orb]); try done;
      unfold from_option; case_match eqn:Es; try done; intros [= <-]; apply switches_exact in Es as [E Hp];
      subst; try done; by destruct r0.
  - intros [Es Eslash]. unfold endpointOf, pathOf. rewrite Es, Eslash. by destruct p.
Qed.

(** State changes only through the RPCs and hairpin's own pages: whatever the RPC library
    and the handlers do with a request, it is a request on the path of one procedure that
    they get, and every request on any other path that is not a POST, or that comes from
    another origin, makes hairpin read at most. *)
Theorem listener_acts_through_rpcs (issuer : option Issuer) (w : response) (r : Request) :
  match endpointOf (issued issuer) r with
  | ToRPC p => rq_Segments r = [serviceOf p; methodOf p] ∧ rq_Slash r = false
      ∧ serveHTTP issuer w r = serveRPC p w r
  | _ =>
      rq_Method r ≠ "POST" ∨ rq_Origin r ≠ "" ∧ originHost (rq_Origin r) ≠ Some (rq_Host r) →
      guarded reading (serveHTTP issuer w r)
  end.
Proof.
  unfold serveHTTP. destruct (endpointOf (issued issuer) r) as [p| | | | |] eqn:E; try done.
  - apply endpointOf_rpc in E as [-> ->]. done.
  - intros Hfrom. destruct issuer; [done|by apply serveUI_reads].
  - intros Hfrom. by apply serveUI_reads.
Qed.

End mux.

(** ** The generated clients and stubs

    A client of a service calls each method at the path of its procedure under the base
    URL, without the slashes the URL ends with. *)

(** [strings.TrimRight(s, "/")]. *)
Fixpoint TrimRightSlash (s : string) : string :=
  match s with
  | EmptyString => ""
  | String c s' =>
      let r := TrimRightSlash s' in
      if (r ==? "") && bool_decide (c = "047"%char) then "" else String c r
  end.

(** A [connect.Client]: the URL it posts to, and the method whose schema it has. *)
Record connectClient := mkConnectClient { cc_URL : string; cc_schema : string }.

(** How a call runs: [CallUnary], [CallServerStream], [CallBidiStream]. *)
Inductive callKind := Unary | ServerStream | BidiStream.

Record jobServiceClient := mkJobServiceClient {
  jc_submitJob : connectClient;
  jc_getJob : connectClient;
  jc_listJobs : connectClient;
  jc_watchJob : connectClient;
  jc_cancelJob : connectClient;
  jc_listPermissionRequests : connectClient;
  jc_answerPermission : connectClient;
}.

Definition NewJobServiceClient (baseURL : string) : jobServiceClient :=
  let baseURL := TrimRightSlash baseURL in
  mkJobServiceClient
    (mkConnectClient (baseURL +:+ JobServiceSubmitJobProcedure) "SubmitJob")
    (mkConnectClient (baseURL +:+ JobServiceGetJobProcedure) "GetJob")
    (mkConnectClient (baseURL +:+ JobServiceListJobsProcedure) "ListJobs")
    (mkConnectClient (baseURL +:+ JobServiceWatchJobProcedure) "WatchJob")
    (mkConnectClient (baseURL +:+ JobServiceCancelJobProcedure) "CancelJob")
    (mkConnectClient (baseURL +:+ JobServiceListPermissionRequestsProcedure) "ListPermissionRequests")
    (mkConnectClient (baseURL +:+ JobServiceAnswerPermissionProcedure) "AnswerPermission").

Record harnessServiceClient := mkHarnessServiceClient { hsc_runTask : connectClient }.

Definition NewHarnessServiceClient (baseURL : string) : harnessServiceClient :=
  let baseURL := TrimRightSlash baseURL in
  mkHarnessServiceClient (mkConnectClient (baseURL +:+ HarnessServiceRunTaskProcedure) "RunTask").

(** The methods of the clients: which call they make. *)
Definition clientSubmitJob (c : jobServiceClient) := (Unary, jc_submitJob c).
Definition clientGetJob (c : jobServiceClient) := (Unary, jc_getJob c).
Definition clientListJobs (c : jobServiceClient) := (Unary, jc_listJobs c).
Definition clientWatchJob (c : jobServiceClient) := (ServerStream, jc_watchJob c).
Definition clientCancelJob (c : jobServiceClient) := (Unary, jc_cancelJob c).
Definition clientListPermissionRequests (c : jobServiceClient) := (Unary, jc_listPermissionRequests c).
Definition clientAnswerPermission (c : jobServiceClient) := (Unary, jc_answerPermission c).
Definition clientRunTask (c : harnessServiceClient) := (BidiStream, hsc_runTask c).

(** The kind of handler each method is served by. *)
Definition handlerKind (p : rpc) : callKind :=
  match p with RpcWatchJob => ServerStream | RpcRunTask => BidiStream | _ => Unary end.

(** The stubs that answer for a service that is not there. *)
Definition unimplemented (service method : string) : error :=
  ConnectError CodeUnimplemented (ErrNew (service +:+ "." +:+ method +:+ " is not implemented")).

Definition UnimplementedJobServiceHandler (p : rpc) : option error :=
  match p with
  | RpcSubmitJob => Some (unimplemented "hairpin.v1.JobService" "SubmitJob")
  | RpcGetJob => Some (unimplemented "hairpin.v1.JobService" "GetJob")
  | RpcListJobs => Some (unimplemented "hairpin.v1.JobService" "ListJobs")
  | RpcWatchJob => Some (unimplemented "hairpin.v1.JobService" "WatchJob")
  | RpcCancelJob => Some (unimplemented "hairpin.v1.JobService" "CancelJob")
  | RpcListPermissionRequests => Some (unimplemented "hairpin.v1.JobService" "ListPermissionRequests")
  | RpcAnswerPermission => Some (unimplemented "hairpin.v1.JobService" "AnswerPermission")
  | RpcRunTask => None
  end.

Definition UnimplementedHarnessServiceHandler (p : rpc) : option error :=
  match p with
  | RpcRunTask => Some (unimplemented "stirrup.harness.v1.HarnessService" "RunTask")
  | _ => None
  end.

(** The call a client makes for a method. *)
Definition callOf (baseURL : string) (p : rpc) : callKind * connectClient :=
  let c := NewJobServiceClient baseURL in
  match p with
  | RpcSubmitJob => clientSubmitJob c
  | RpcGetJob => clientGetJob c
  | RpcListJobs => clientListJobs c
  | RpcWatchJob => clientWatchJob c
  | RpcCancelJob => clientCancelJob c
  | RpcListPermissionRequests => clientListPermissionRequests c
  | RpcAnswerPermission => clientAnswerPermission c
  | RpcRunTask => clientRunTask (NewHarnessServiceClient baseURL)
  end.

Lemma TrimRightSlash_slashes s n :
  TrimRightSlash s = s → TrimRightSlash (s +:+ concatStrings (replicate n "/")) = s.
Proof.
  assert (TrimRightSlash (concatStrings (replicate n "/")) = "") as Hn.
  { induction n as [|n IH]; [done|].
    change (concatStrings (replicate (S n) "/")) with (String "/" (concatStrings (replicate n "/"))).
    cbn [TrimRightSlash]. by rewrite IH. }
  induction s as [|c s IH]; intros Hs; [done|]. rewrite string_app_cons. cbn [TrimRightSlash] in *.
  destruct ((TrimRightSlash s ==? "") && bool_decide (c = "047"%char)) eqn:E; [done|].
  injection Hs as Hs. rewrite IH by done. rewrite Hs in E. by rewrite E.
Qed.

(** A call reaches the handler of its method. However many slashes the base URL of the
    server is written with, a client's call of a method goes to that URL followed by a path that
    the listener takes to the same method, with the schema of that method, and it is the
    kind of call the method is served by. *)
Theorem calls_reach_their_methods (base : string) (n : nat) (issuer : bool) (p : rpc)
  (Hbase : TrimRightSlash base = base) :
  let '(kind, client) := callOf (base +:+ concatStrings (replicate n "/")) p in
  cc_URL client = base +:+ procedurePath p ∧ cc_schema client = methodOf p ∧ kind = handlerKind p
  ∧ ∀ r, rq_Segments r = [serviceOf p; methodOf p] → rq_Slash r = false →
      pathOf r = procedurePath p ∧ endpointOf issuer r = ToRPC p.
Proof.
  pose proof (TrimRightSlash_slashes base n Hbase) as E. unfold callOf, NewJobServiceClient, NewHarnessServiceClient. rewrite E.
  assert (∀ r, rq_Segments r = [serviceOf p; methodOf p] → rq_Slash r = false →
    pathOf r = procedurePath p ∧ endpointOf issuer r = ToRPC p) as Hr.
  { intros r Hs Hsl. split; [|by apply endpointOf_rpc]. unfold pathOf. rewrite Hs, Hsl. by destruct p. }
  destruct p; by split_and!.
Qed.

Lemma calls_reach_their_methods_witness :
  let '(kind, client) := callOf "https://hairpin.example//" RpcWatchJob in
  cc_URL client = "https://hairpin.example/hairpin.v1.JobService/WatchJob" ∧ kind = ServerStream.
Proof.
  pose proof (calls_reach_their_methods "https://hairpin.example" 2 true RpcWatchJob eq_refl) as H.
  change ("https://hairpin.example" +:+ concatStrings (replicate 2 "/")) with "https://hairpin.example//" in H.
  destruct (callOf _ _) as [kind client]. by destruct H as (-> & _ & -> & _).
Defined.
