(* ===== verification/Pipeline.v ===== *)
(** * The telemetry pipeline ([src/internal/telemetry/telemetry.go])

    [Setup] builds exporters, wraps them in providers, installs the providers as the
    globals of the process and hands out what takes them down again.  The OpenTelemetry
    libraries answer from [libraries]; what is asked of them, in order, is a log, and what
    the log leaves alive and installed is computed from it. *)

From stdpp Require Import base list strings.
From Stdlib Require Import SpecFloat.
From S2P Require Import Prelude Float Fmt Job Telemetry Recorder Config RunConfigs.

Definition DefaultServiceName : string := "hairpin".
Definition DefaultMetricInterval : Duration := 60 * Second.
Definition shutdownTimeout : Duration := 5 * Second.

(** ** What is asked of the libraries *)

Inductive resourceOption :=
  | WithAttributes (attrs : list (string * string))
  | WithTelemetrySDK
  | WithHost
  | WithProcessPID
  | WithFromEnv.

(** Where an exporter sends to; without an endpoint of hairpin's own the exporter reads
    the [OTEL_EXPORTER_OTLP_*] variables. *)
Inductive destination :=
  | StdoutToStderr
  | OTLPHTTP (endpoint : option string)
  | OTLPGRPC (endpoint : option string).

Inductive libCall :=
  | NewResource (opts : list resourceOption)
  | NewSpanExporter (d : destination) (ok : bool)
  | NewMetricExporter (d : destination) (ok : bool)
  | ShutdownSpanExporter
  | NewTracerProvider (sampleRatio : spec_float)
  | NewMeterProvider (interval : Duration)
  | SetErrorHandler
  | SetTracerProvider
  | SetMeterProvider
  | SetTextMapPropagator (formats : list string)
  | NewInstruments (made : list instrument)
  | ShutdownTracerProvider (timeout : Duration)
  | ShutdownMeterProvider (timeout : Duration).

(** What they answer; [lib_resource] may come with an error and a resource both. *)
Record libraries (Resource : Type) := mkLibraries {
  lib_resource : list resourceOption → option Resource * option error;
  lib_isPartial : error → bool;                (** [errors.Is(err, ErrPartialResource)] *)
  lib_spanExporter : destination → option error;
  lib_metricExporter : destination → option error;
  lib_instrument : instrument → option error;
}.
Arguments lib_resource {Resource}.
Arguments lib_isPartial {Resource}.
Arguments lib_spanExporter {Resource}.
Arguments lib_metricExporter {Resource}.
Arguments lib_instrument {Resource}.

(** ** The parts of [Setup] *)

Definition protocolOrDefault (protocol : string) : string :=
  if protocol ==? "" then ProtocolGRPC else protocol.

(** [info] is the version [debug.ReadBuildInfo] reports, if it reports one. *)
Definition serviceVersion (info : option string) : string :=
  match info with
  | None => "dev"
  | Some v => if (v ==? "") || (v ==? "(devel)") then "dev" else v
  end.

(** Of [POD_NAME] and of [os.Hostname]. *)
Definition instanceID (podName : string) (hostname : res string) : string :=
  let pod := TrimSpace podName in
  if pod !=? "" then pod
  else match hostname with
       | Err _ => "unknown"
       | Ok host => if host ==? "" then "unknown" else host
       end.

(** The endpoint option, for either exporter. *)
Definition endpointOption (o : Options) : option string :=
  if to_Endpoint o !=? "" then Some (to_Endpoint o) else None.

Definition newSpanExporter (o : Options) : destination :=
  if to_Exporter o ==? ExporterStdout then StdoutToStderr
  else if to_Protocol o ==? ProtocolHTTP then OTLPHTTP (endpointOption o)
  else OTLPGRPC (endpointOption o).

Definition newMetricExporter (o : Options) : destination :=
  if to_Exporter o ==? ExporterStdout then StdoutToStderr
  else if to_Protocol o ==? ProtocolHTTP then OTLPHTTP (endpointOption o)
  else OTLPGRPC (endpointOption o).

(** What [Setup] hands out to take the pipeline down. *)
Inductive shutdownFn := noopShutdown | shutdownProviders.

(** Calling it: both providers are shut down whatever the first one answers, and the
    errors are joined. *)
Definition runShutdown (f : shutdownFn) (tracer meter : option error) : list libCall * list error :=
  match f with
  | noopShutdown => ([], [])
  | shutdownProviders =>
      ([ShutdownTracerProvider shutdownTimeout; ShutdownMeterProvider shutdownTimeout],
       omap id [tracer; meter])
  end.

Section setup.
Context `{UnicodeTables} (formatFloat : spec_float → string).
Context {Resource : Type} (lib : libraries Resource).

(** Of the process: the version of the build, the pod and the host. *)
Variables (build : option string) (podName : string) (hostname : res string).

Definition resourceOptions (serviceName : string) : list resourceOption :=
  let serviceName := if serviceName ==? "" then DefaultServiceName else serviceName in
  [WithAttributes [("service.name", serviceName); ("service.version", serviceVersion build);
                   ("service.instance.id", instanceID podName hostname)];
   WithTelemetrySDK; WithHost; WithProcessPID; WithFromEnv].

Definition newResource (serviceName : string) : res (option Resource) :=
  match lib_resource lib (resourceOptions serviceName) with
  | (Some r, Some e) =>
      if lib_isPartial lib e then Ok (Some r) else Err (wrapf "build telemetry resource" e)
  | (None, Some e) => Err (wrapf "build telemetry resource" e)
  | (r, None) => Ok r
  end.

(** The recorder, if there is one; what takes the pipeline down; the error. *)
Definition setupResult : Type := option Recorder * shutdownFn * option error.

Definition failed (log : list libCall) (e : error) : list libCall * setupResult :=
  (log, (None, noopShutdown, Some e)).

(** From the providers on. *)
Definition install (o : Options) (log : list libCall) : list libCall * setupResult :=
  let interval := if (to_MetricInterval o <=? 0)%Z then DefaultMetricInterval else to_MetricInterval o in
  let log := log ++
    [NewTracerProvider (to_SampleRatio o); NewMeterProvider interval; SetErrorHandler;
     SetTracerProvider; SetMeterProvider; SetTextMapPropagator ["tracecontext"; "baggage"];
     NewInstruments (b_made (newBuilding (lib_instrument lib)))] in
  match New (lib_instrument lib) with
  | Err e => failed (log ++ fst (runShutdown shutdownProviders None None)) e
  | Ok r => (log, (Some r, shutdownProviders, None))
  end.

Definition Setup (o : Options) : list libCall * setupResult :=
  match validateOptions formatFloat o with
  | Some e => failed [] e
  | None =>
      if negb (Enabled o) then ([], (None, noopShutdown, None))
      else
        let log := [NewResource (resourceOptions (to_ServiceName o))] in
        match newResource (to_ServiceName o) with
        | Err e => failed log e
        | Ok _ =>
            match lib_spanExporter lib (newSpanExporter o) with
            | Some e => failed (log ++ [NewSpanExporter (newSpanExporter o) false]) e
            | None =>
                let log := log ++ [NewSpanExporter (newSpanExporter o) true] in
                match lib_metricExporter lib (newMetricExporter o) with
                | Some e =>
                    failed (log ++ [NewMetricExporter (newMetricExporter o) false; ShutdownSpanExporter]) e
                | None => install o (log ++ [NewMetricExporter (newMetricExporter o) true])
                end
            end
        end
  end.

End setup.

(** ** What a log leaves behind *)

(** The exporters that are running, and the globals that are set: tracer, meter,
    propagator and error handler. *)
Record installed := mkInstalled {
  in_spans : bool;
  in_metrics : bool;
  in_tracer : bool;
  in_meter : bool;
  in_propagator : bool;
  in_errors : bool;
}.

(** Shutting a provider down shuts its exporter down. *)
Definition effect (s : installed) (c : libCall) : installed :=
  let 'mkInstalled sp me t m p e := s in
  match c with
  | NewSpanExporter _ ok => mkInstalled (sp || ok) me t m p e
  | NewMetricExporter _ ok => mkInstalled sp (me || ok) t m p e
  | ShutdownSpanExporter | ShutdownTracerProvider _ => mkInstalled false me t m p e
  | ShutdownMeterProvider _ => mkInstalled sp false t m p e
  | SetTracerProvider => mkInstalled sp me true m p e
  | SetMeterProvider => mkInstalled sp me t true p e
  | SetTextMapPropagator _ => mkInstalled sp me t m true e
  | SetErrorHandler => mkInstalled sp me t m p true
  | NewResource _ | NewTracerProvider _ | NewMeterProvider _ | NewInstruments _ => s
  end.

Definition nothing : installed := mkInstalled false false false false false false.

Definition leaves (log : list libCall) : installed := foldl effect nothing log.

(** No exporter runs. *)
Definition silent (s : installed) : Prop := in_spans s = false ∧ in_metrics s = false.

(** C22. Telemetry is opt-in and leaks nothing. Whatever the libraries answer, options
    that are refused or ask for no export touch no library, and the second give a nil
    recorder; when a later step fails no exporter stays running and the shutdown handed
    out does nothing; and when [Setup] succeeds with export on, there is a recorder with
    all its instruments, both exporters run with every global installed, and the shutdown
    handed out stops both, whatever the first provider answers. *)
Theorem Setup_leaks_nothing `{UnicodeTables} (formatFloat : spec_float → string) {Resource : Type}
  (lib : libraries Resource) (build : option string) (podName : string) (hostname : res string)
  (o : Options) :
  let '(log, (rec, shutdown, err)) := Setup formatFloat lib build podName hostname o in
  match validateOptions formatFloat o, err with
  | Some e, _ => err = Some e ∧ log = [] ∧ rec = None ∧ shutdown = noopShutdown
  | None, Some _ => Enabled o = true ∧ silent (leaves log) ∧ rec = None ∧ shutdown = noopShutdown
  | None, None =>
      if Enabled o then
        rec = Some fullRecorder ∧ leaves log = mkInstalled true true true true true true
        ∧ ∀ tracer meter, silent (leaves (log ++ fst (runShutdown shutdown tracer meter)))
            ∧ snd (runShutdown shutdown tracer meter) = omap id [tracer; meter]
      else log = [] ∧ rec = None ∧ shutdown = noopShutdown
  end.
Proof.
  unfold Setup, install, failed.
  destruct (validateOptions formatFloat o) as [e|]; [done|].
  destruct (Enabled o) eqn:Ho; cbn [negb]; [|done].
  destruct (newResource lib build podName hostname (to_ServiceName o)) as [r|e]; [|done].
  destruct (lib_spanExporter lib _); [done|]. destruct (lib_metricExporter lib _); [done|].
  pose proof (New_builds_all (lib_instrument lib)) as Hnew.
  destruct (New (lib_instrument lib)) as [rec|e]; [|done].
  destruct Hnew as (_ & -> & _). by split_and!.
Qed.

(** [tel != nil], on which the server's interceptor hangs, is that export is asked for. *)
Lemma Setup_recorder `{UnicodeTables} (formatFloat : spec_float → string) {Resource : Type}
  (lib : libraries Resource) (build : option string) (podName : string) (hostname : res string)
  (o : Options) log rec shutdown :
  Setup formatFloat lib build podName hostname o = (log, (rec, shutdown, None)) →
  is_Some rec ↔ Enabled o = true.
Proof.
  unfold Setup, install, failed. destruct (validateOptions formatFloat o); [done|].
  destruct (Enabled o); cbn [negb]; [|by intros [= _ <- _]; split; [intros []|]].
  destruct (newResource _ _ _ _ _); [|done]. destruct (lib_spanExporter lib _); [done|].
  destruct (lib_metricExporter lib _); [done|]. destruct (New _) as [r|e]; [|done].
  intros [= _ <- _]. split; [done|]. by eexists.
Qed.

(** The settings of the environment are asked for last, so they win over the names hairpin
    gives itself. *)
Lemma resource_environment_last (build : option string) (podName : string) (hostname : res string)
  (serviceName : string) :
  last (resourceOptions build podName hostname serviceName) = Some WithFromEnv.
Proof. done. Qed.
