(* ===== verification/Collector.v ===== *)
(** * Reading measurements back ([src/internal/telemetry/telemetrytest])

    The collector the tests read hairpin's measurements and spans with.  What the SDK's
    reader hands over is a list of metrics per scope; [None] is a test that fails. *)

From stdpp Require Import base list strings.
From S2P Require Import Prelude Job Telemetry Recorder.

(** An attribute set, and a data point of a series. *)
Abbreviation attrSet := (list (string * string)).

Inductive metricData :=
  | SumInt64 (points : list (attrSet * Z))
  | HistogramFloat64 (points : list (attrSet * nat))
  | OtherData.

Record metric := mkMetric { mt_name : string; mt_data : metricData }.

(** [set.Value(key)]. *)
Definition valueOf (set : attrSet) (key : string) : option string :=
  snd ∘ snd <$> list_find (λ kv, fst kv = key) set.

Definition matches (set want : attrSet) : bool :=
  forallb (λ '(k, v), bool_decide (valueOf set k = Some v)) want.

(** [c.metrics]: the metrics of the name, in every scope. *)
Definition metrics (rm : res (list (list metric))) (name : string) : option (list metric) :=
  match rm with
  | Err _ => None
  | Ok scopes => Some (filter (λ m, mt_name m = name) (concat scopes))
  end.

(** The points of a set that matches, added up. *)
Definition sumPoints (want : attrSet) (points : list (attrSet * Z)) : Z :=
  foldl (λ total '(set, v), if matches set want then (total + v)%Z else total) 0%Z points.

Definition Sum (rm : res (list (list metric))) (name : string) (want : attrSet) : option Z :=
  ms ← metrics rm name;
  foldl (λ total m,
    match total, mt_data m with
    | Some total, SumInt64 points => Some (total + sumPoints want points)%Z
    | _, _ => None
    end) (Some 0%Z) ms.

Definition countPoints (want : attrSet) (points : list (attrSet * nat)) : nat :=
  foldl (λ total '(set, n), if matches set want then total + n else total) 0 points.

Definition Count (rm : res (list (list metric))) (name : string) (want : attrSet) : option nat :=
  ms ← metrics rm name;
  foldl (λ total m,
    match total, mt_data m with
    | Some total, HistogramFloat64 points => Some (total + countPoints want points)
    | _, _ => None
    end) (Some 0) ms.

Definition Attrs (rm : res (list (list metric))) (name : string) : option (list attrSet) :=
  ms ← metrics rm name;
  foldl (λ out m,
    match out, mt_data m with
    | Some out, SumInt64 points => Some (out ++ points.*1)
    | Some out, HistogramFloat64 points => Some (out ++ points.*1)
    | _, _ => None
    end) (Some []) ms.

(** [c.Span], of the names of the finished spans: the place of the only one. *)
Definition Span (spans : res (list string)) (name : string) : option nat :=
  match spans with
  | Err _ => None
  | Ok spans =>
      match filter (λ s, snd s = name) (imap pair spans) with
      | [found] => Some (fst found)
      | _ => None
      end
  end.

(** [New]: the recorder of a test, on a meter of the SDK. *)
Definition NewCollector (create : instrument → option error) : option Recorder :=
  match New create with Err _ => None | Ok rec => Some rec end.

(** ** What the reader hands over

    The SDK keeps one point per attribute set and adds up what it is given: for any
    choice of attribute sets, the points of a counter add up to its increments, and the
    counts of a histogram to the number of its observations. *)

Definition recorded_sum (name : string) (P : attrSet → bool) (ms : list measurement) : Z :=
  foldr (λ m total, match m with
                    | Add i n attrs => if (i ==? name) && P attrs then (n + total)%Z else total
                    | Record_ _ _ _ => total
                    end) 0%Z ms.

Definition recorded_count (name : string) (P : attrSet → bool) (ms : list measurement) : nat :=
  foldr (λ m total, match m with
                    | Record_ i _ attrs => if (i ==? name) && P attrs then S total else total
                    | Add _ _ _ => total
                    end) 0 ms.

Definition points_sum (P : attrSet → bool) (points : list (attrSet * Z)) : Z :=
  foldr (λ '(set, v) total, if P set then (v + total)%Z else total) 0%Z points.

Definition points_count (P : attrSet → bool) (points : list (attrSet * nat)) : nat :=
  foldr (λ '(set, n) total, if P set then n + total else total) 0 points.

(** The points of the counters, and of the histograms, among metrics. *)
Definition sumsOf (ms : list metric) : list (attrSet * Z) :=
  ms ≫= λ m, match mt_data m with SumInt64 ps => ps | _ => [] end.

Definition histogramsOf (ms : list metric) : list (attrSet * nat) :=
  ms ≫= λ m, match mt_data m with HistogramFloat64 ps => ps | _ => [] end.

Class Reader := { collect : list measurement → list (list metric) }.

Class ReaderLaws `{Reader} := {
  (** an instrument is one or the other *)
  law_sums ms name m : m ∈ concat (collect ms) → mt_name m = name →
    (∀ i d attrs, Record_ i d attrs ∈ ms → i ≠ name) → ∃ ps, mt_data m = SumInt64 ps;
  law_histograms ms name m : m ∈ concat (collect ms) → mt_name m = name →
    (∀ i n attrs, Add i n attrs ∈ ms → i ≠ name) → ∃ ps, mt_data m = HistogramFloat64 ps;
  law_sum ms name P :
    points_sum P (sumsOf (filter (λ m, mt_name m = name) (concat (collect ms)))) = recorded_sum name P ms;
  law_count ms name P :
    points_count P (histogramsOf (filter (λ m, mt_name m = name) (concat (collect ms))))
    = recorded_count name P ms;
}.

Lemma sumPoints_sum want ps : sumPoints want ps = points_sum (λ set, matches set want) ps.
Proof.
  unfold sumPoints. enough (∀ z, foldl _ z ps = (z + points_sum (λ set, matches set want) ps)%Z) as E
    by apply E.
  induction ps as [|[set v] ps IH]; intros z; cbn; [lia|]. rewrite IH.
  fold (points_sum (λ set, matches set want) ps). case_match; lia.
Qed.

Lemma countPoints_count want ps : countPoints want ps = points_count (λ set, matches set want) ps.
Proof.
  unfold countPoints. enough (∀ n, foldl _ n ps = n + points_count (λ set, matches set want) ps) as E
    by apply E.
  induction ps as [|[set v] ps IH]; intros n; cbn; [lia|]. rewrite IH.
  fold (points_count (λ set, matches set want) ps). case_match; lia.
Qed.

Lemma points_sum_app P ps qs : points_sum P (ps ++ qs) = (points_sum P ps + points_sum P qs)%Z.
Proof.
  unfold points_sum. induction ps as [|[set v] ps IH]; cbn; [done|]. rewrite IH. case_match; lia.
Qed.

Lemma points_count_app P ps qs : points_count P (ps ++ qs) = points_count P ps + points_count P qs.
Proof.
  unfold points_count. induction ps as [|[set v] ps IH]; cbn; [done|]. rewrite IH. case_match; lia.
Qed.

(** [Sum] over metrics that are all counters. *)
Lemma Sum_counters want ms z :
  Forall (λ m, ∃ ps, mt_data m = SumInt64 ps) ms →
  foldl (λ total m,
    match total, mt_data m with
    | Some total, SumInt64 points => Some (total + sumPoints want points)%Z
    | _, _ => None
    end) (Some z) ms = Some (z + points_sum (λ set, matches set want) (sumsOf ms))%Z.
Proof.
  intros Hms. revert z. induction Hms as [|m ms [ps Hm] _ IH]; intros z; [cbn; f_equal; lia|].
  change (sumsOf (m :: ms)) with (match mt_data m with SumInt64 ps => ps | _ => [] end ++ sumsOf ms).
  cbn [foldl]. rewrite Hm, IH, points_sum_app, sumPoints_sum. f_equal. lia.
Qed.

Lemma Count_histograms want ms n :
  Forall (λ m, ∃ ps, mt_data m = HistogramFloat64 ps) ms →
  foldl (λ total m,
    match total, mt_data m with
    | Some total, HistogramFloat64 points => Some (total + countPoints want points)
    | _, _ => None
    end) (Some n) ms = Some (n + points_count (λ set, matches set want) (histogramsOf ms)).
Proof.
  intros Hms. revert n. induction Hms as [|m ms [ps Hm] _ IH]; intros n; [cbn; f_equal; lia|].
  change (histogramsOf (m :: ms))
    with (match mt_data m with HistogramFloat64 ps => ps | _ => [] end ++ histogramsOf ms).
  cbn [foldl]. rewrite Hm, IH, points_count_app, countPoints_count. f_equal. lia.
Qed.

(** A test reads what hairpin measured: a counter sums to the increments made on the
    series that carry the attributes asked for, zero when there was none, and a histogram
    counts its observations. *)
Theorem collector_reads_measurements `{ReaderLaws} (ms : list measurement) (name : string)
  (want : attrSet) :
  ((∀ i d attrs, Record_ i d attrs ∈ ms → i ≠ name) →
   Sum (Ok (collect ms)) name want = Some (recorded_sum name (λ set, matches set want) ms))
  ∧ ((∀ i n attrs, Add i n attrs ∈ ms → i ≠ name) →
     Count (Ok (collect ms)) name want = Some (recorded_count name (λ set, matches set want) ms)).
Proof.
  split; intros Hk.
  - unfold Sum. cbn. rewrite Sum_counters, law_sum; [done|].
    apply Forall_forall. intros m [Hn Hm]%list_elem_of_filter. by eapply law_sums.
  - unfold Count. cbn. rewrite Count_histograms, law_count; [done|].
    apply Forall_forall. intros m [Hn Hm]%list_elem_of_filter. by eapply law_histograms.
Qed.

(** What hairpin measures is well typed ([Labels.points_measured]), so by the kind of an
    instrument one of the two reads it: the gauge and every counter sum, every histogram
    counts. *)
Corollary collector_reads_hairpin `{ReaderLaws} (ms : list measurement) (name : string)
  (want : attrSet) (k : instrumentKind) :
  Forall typed ms → in_kind <$> named name = Some k →
  match k with
  | Float64Histogram =>
      Count (Ok (collect ms)) name want = Some (recorded_count name (λ set, matches set want) ms)
  | Int64Counter | Int64UpDownCounter =>
      Sum (Ok (collect ms)) name want = Some (recorded_sum name (λ set, matches set want) ms)
  end.
Proof.
  rewrite Forall_forall. intros Hms Hk.
  destruct (collector_reads_measurements ms name want) as [Hsum Hcount].
  destruct k; [apply Hsum|apply Hcount|apply Hsum]; intros i x attrs Hm ->;
    apply Hms in Hm as (_ & Hm); rewrite Hk in Hm; by try destruct Hm.
Qed.

(** On the SDK, which makes every instrument, a test gets a full recorder. *)
Corollary NewCollector_full (create : instrument → option error) :
  (∀ i, create i = None) → NewCollector create = Some fullRecorder.
Proof.
  intros Hc. unfold NewCollector. pose proof (New_builds_all create) as Hn.
  destruct (New create); [by destruct Hn as (_ & -> & _)|].
  destruct Hn as (? & i & ? & ? & _ & _ & E & _). by rewrite Hc in E.
Qed.

(** A reader that keeps every measurement as a series of its own keeps the contract. *)
Definition metricOf (m : measurement) : metric :=
  match m with
  | Add i n attrs => mkMetric i (SumInt64 [(attrs, n)])
  | Record_ i _ attrs => mkMetric i (HistogramFloat64 [(attrs, 1)])
  end.

#[local] Instance sample_reader : Reader := {| collect ms := [metricOf <$> ms] |}.

Lemma sample_reader_laws : @ReaderLaws sample_reader.
Proof.
  constructor; intros ms name; cbn [collect sample_reader concat]; rewrite app_nil_r.
  1,2: intros m Hm <- Hn; apply list_elem_of_fmap in Hm as ([i n attrs|i d attrs] & -> & Hm);
    (by eexists) || by destruct (Hn _ _ _ Hm).
  all: intros P; induction ms as [|m ms IH]; [done|]; rewrite fmap_cons, filter_cons;
    destruct m as [i n attrs|i d attrs]; cbn [metricOf mt_name];
    unfold recorded_sum, recorded_count in *; cbn [foldr]; rewrite <-IH;
    case_decide; try case_bool_decide; try done; cbn; by destruct (P attrs).
Qed.
