(* ===== verification/Serve.v ===== *)
(** * The command line ([src/cmd/hairpin/])

    What [serve] makes of its flags, how it assembles the server from the parts, in which
    order it starts them and takes them down, and [keygen].  Files, the network and the
    libraries are inputs. *)

From stdpp Require Import base gmap list strings.
From Stdlib Require Import Ascii SpecFloat.
From S2P Require Import Prelude Float Utf8 Fmt Net Strconv Flags Job Proto Store Telemetry Registry Prog.
From S2P Require Import Handler RunConfigs Config TokenIssuer Service Reaper Sse Pipeline.

(** ** Text *)

Definition splitComma (s : string) : list string :=
  filter (λ part, part ≠ "") (TrimSpace <$> splitBy "," s).

(** [v] is what [os.Getenv(key)] returns. *)
Definition envOr (v fallback : string) : string :=
  if TrimSpace v !=? "" then TrimSpace v else fallback.

(** [raw] is what reading the namespace file gives. *)
Definition DetectNamespace (raw : res string) : string :=
  match raw with Err _ => "" | Ok raw => TrimSpace raw end.

(** ** Flags *)

(** The values behind the flags: those bound to the configuration, and the four that are
    worked into it afterwards. *)
Record serveFlags := mkServeFlags {
  sf_cfg : Config;
  sf_secrets : string;
  sf_ttl : Z;
  sf_slack : Duration;
  sf_tokenTTL : Duration;
}.

Definition DefaultHarnessImage : string := "ghcr.io/rxbynerd/stirrup:latest".
Definition DefaultSandboxImage : string := "ghcr.io/rxbynerd/stirrup-sandbox:latest".

(** The defaults, of the namespace hairpin runs in and the exporter protocol of the
    environment. *)
Definition defaultFlags (namespace protocol : string) : serveFlags :=
  mkServeFlags
    (mkConfig ":8130" "" "" "" 0 "" "kubernetes" "" "default" 0
       (mkHarnessConfig namespace DefaultHarnessImage "" "" [] 0 0 ∅)
       (mkExecutorDefaults DefaultSandboxImage "" "" "")
       (mkOptions ExporterNone (envOr protocol ProtocolGRPC) "" (ofInt 1) "" DefaultMetricInterval)
       "" (mkSandboxTokenConfig "" "" "" 0))
    "" 3600 (10 * Minute) (15 * Minute).

(** A variable inside another. *)
Definition inside {T A B} (outer : variable T A) (inner : variable A B) : variable T B :=
  mkVariable (λ t, var_get inner (var_get outer t))
    (λ b t, var_set outer (var_set inner b (var_get outer t)) t).

(** The variables: fields of the configuration and of its parts. *)
Definition v_ListenAddr : variable Config _ := mkVariable c_ListenAddr (λ v r, let 'mkConfig _ b c d e f g h i j k l m n o := r in mkConfig v b c d e f g h i j k l m n o).
Definition v_AdvertiseAddr : variable Config _ := mkVariable c_AdvertiseAddr (λ v r, let 'mkConfig a _ c d e f g h i j k l m n o := r in mkConfig a v c d e f g h i j k l m n o).
Definition v_RedisAddr : variable Config _ := mkVariable c_RedisAddr (λ v r, let 'mkConfig a b _ d e f g h i j k l m n o := r in mkConfig a b v d e f g h i j k l m n o).
Definition v_RedisPassword : variable Config _ := mkVariable c_RedisPassword (λ v r, let 'mkConfig a b c _ e f g h i j k l m n o := r in mkConfig a b c v e f g h i j k l m n o).
Definition v_RedisDB : variable Config _ := mkVariable c_RedisDB (λ v r, let 'mkConfig a b c d _ f g h i j k l m n o := r in mkConfig a b c d v f g h i j k l m n o).
Definition v_BilletAddr : variable Config _ := mkVariable c_BilletAddr (λ v r, let 'mkConfig a b c d e _ g h i j k l m n o := r in mkConfig a b c d e v g h i j k l m n o).
Definition v_Launcher : variable Config _ := mkVariable c_Launcher (λ v r, let 'mkConfig a b c d e f _ h i j k l m n o := r in mkConfig a b c d e f v h i j k l m n o).
Definition v_ProfilesDir : variable Config _ := mkVariable c_ProfilesDir (λ v r, let 'mkConfig a b c d e f g _ i j k l m n o := r in mkConfig a b c d e f g v i j k l m n o).
Definition v_DefaultProfile : variable Config _ := mkVariable c_DefaultProfile (λ v r, let 'mkConfig a b c d e f g h _ j k l m n o := r in mkConfig a b c d e f g h v j k l m n o).
Definition v_Retention : variable Config _ := mkVariable c_Retention (λ v r, let 'mkConfig a b c d e f g h i _ k l m n o := r in mkConfig a b c d e f g h i v k l m n o).
Definition v_Harness : variable Config _ := mkVariable c_Harness (λ v r, let 'mkConfig a b c d e f g h i j _ l m n o := r in mkConfig a b c d e f g h i j v l m n o).
Definition v_Sandbox : variable Config _ := mkVariable c_Sandbox (λ v r, let 'mkConfig a b c d e f g h i j k _ m n o := r in mkConfig a b c d e f g h i j k v m n o).
Definition v_Telemetry : variable Config _ := mkVariable c_Telemetry (λ v r, let 'mkConfig a b c d e f g h i j k l _ n o := r in mkConfig a b c d e f g h i j k l v n o).
Definition v_HarnessTelemetryEndpoint : variable Config _ := mkVariable c_HarnessTelemetryEndpoint (λ v r, let 'mkConfig a b c d e f g h i j k l m _ o := r in mkConfig a b c d e f g h i j k l m v o).
Definition v_SandboxToken : variable Config _ := mkVariable c_SandboxToken (λ v r, let 'mkConfig a b c d e f g h i j k l m n _ := r in mkConfig a b c d e f g h i j k l m n v).
Definition v_HarnessNamespace : variable HarnessConfig _ := mkVariable hc_Namespace (λ v r, let 'mkHarnessConfig _ b c d e f g h := r in mkHarnessConfig v b c d e f g h).
Definition v_HarnessImage : variable HarnessConfig _ := mkVariable hc_Image (λ v r, let 'mkHarnessConfig a _ c d e f g h := r in mkHarnessConfig a v c d e f g h).
Definition v_HarnessKubeconfig : variable HarnessConfig _ := mkVariable hc_Kubeconfig (λ v r, let 'mkHarnessConfig a b _ d e f g h := r in mkHarnessConfig a b v d e f g h).
Definition v_HarnessServiceAccount : variable HarnessConfig _ := mkVariable hc_ServiceAccount (λ v r, let 'mkHarnessConfig a b c _ e f g h := r in mkHarnessConfig a b c v e f g h).
Definition v_SandboxImage : variable ExecutorDefaults _ := mkVariable ed_Image (λ v r, let 'mkExecutorDefaults _ b c d := r in mkExecutorDefaults v b c d).
Definition v_SandboxNamespace : variable ExecutorDefaults _ := mkVariable ed_Namespace (λ v r, let 'mkExecutorDefaults a _ c d := r in mkExecutorDefaults a v c d).
Definition v_SandboxServiceAccount : variable ExecutorDefaults _ := mkVariable ed_ServiceAccount (λ v r, let 'mkExecutorDefaults a b _ d := r in mkExecutorDefaults a b v d).
Definition v_SandboxRuntime : variable ExecutorDefaults _ := mkVariable ed_Runtime (λ v r, let 'mkExecutorDefaults a b c _ := r in mkExecutorDefaults a b c v).
Definition v_Exporter : variable Options _ := mkVariable to_Exporter (λ v r, let 'mkOptions _ b c d e f := r in mkOptions v b c d e f).
Definition v_Protocol : variable Options _ := mkVariable to_Protocol (λ v r, let 'mkOptions a _ c d e f := r in mkOptions a v c d e f).
Definition v_Endpoint : variable Options _ := mkVariable to_Endpoint (λ v r, let 'mkOptions a b _ d e f := r in mkOptions a b v d e f).
Definition v_SampleRatio : variable Options _ := mkVariable to_SampleRatio (λ v r, let 'mkOptions a b c _ e f := r in mkOptions a b c v e f).
Definition v_ServiceName : variable Options _ := mkVariable to_ServiceName (λ v r, let 'mkOptions a b c d _ f := r in mkOptions a b c d v f).
Definition v_MetricInterval : variable Options _ := mkVariable to_MetricInterval (λ v r, let 'mkOptions a b c d e _ := r in mkOptions a b c d e v).
Definition v_KeyPath : variable SandboxTokenConfig _ := mkVariable st_KeyPath (λ v r, let 'mkSandboxTokenConfig _ b c d := r in mkSandboxTokenConfig v b c d).
Definition v_Issuer : variable SandboxTokenConfig _ := mkVariable st_Issuer (λ v r, let 'mkSandboxTokenConfig a _ c d := r in mkSandboxTokenConfig a v c d).
Definition v_Audience : variable SandboxTokenConfig _ := mkVariable st_Audience (λ v r, let 'mkSandboxTokenConfig a b _ d := r in mkSandboxTokenConfig a b v d).
Definition v_cfg : variable serveFlags _ := mkVariable sf_cfg (λ v r, let 'mkServeFlags _ b c d e := r in mkServeFlags v b c d e).
Definition v_secrets : variable serveFlags _ := mkVariable sf_secrets (λ v r, let 'mkServeFlags a _ c d e := r in mkServeFlags a v c d e).
Definition v_ttl : variable serveFlags _ := mkVariable sf_ttl (λ v r, let 'mkServeFlags a b _ d e := r in mkServeFlags a b v d e).
Definition v_slack : variable serveFlags _ := mkVariable sf_slack (λ v r, let 'mkServeFlags a b c _ e := r in mkServeFlags a b c v e).
Definition v_tokenTTL : variable serveFlags _ := mkVariable sf_tokenTTL (λ v r, let 'mkServeFlags a b c d _ := r in mkServeFlags a b c d v).

(** [fs], as the calls on it leave it. *)
Definition serveFlagSet : list (Flag serveFlags) :=
  let cfg {A} (v : variable Config A) := inside v_cfg v in
  let harness {A} (v : variable HarnessConfig A) := inside v_cfg (inside v_Harness v) in
  let sandbox {A} (v : variable ExecutorDefaults A) := inside v_cfg (inside v_Sandbox v) in
  let telemetry {A} (v : variable Options A) := inside v_cfg (inside v_Telemetry v) in
  let token {A} (v : variable SandboxTokenConfig A) := inside v_cfg (inside v_SandboxToken v) in
  [mkFlag "listen" (stringValue (cfg v_ListenAddr));
   mkFlag "advertise" (stringValue (cfg v_AdvertiseAddr));
   mkFlag "redis" (stringValue (cfg v_RedisAddr));
   mkFlag "redis-password" (stringValue (cfg v_RedisPassword));
   mkFlag "redis-db" (intValue (cfg v_RedisDB));
   mkFlag "billet-addr" (stringValue (cfg v_BilletAddr));
   mkFlag "launcher" (stringValue (cfg v_Launcher));
   mkFlag "profiles" (stringValue (cfg v_ProfilesDir));
   mkFlag "default-profile" (stringValue (cfg v_DefaultProfile));
   mkFlag "retention" (durationValue (cfg v_Retention));
   mkFlag "namespace" (stringValue (harness v_HarnessNamespace));
   mkFlag "harness-image" (stringValue (harness v_HarnessImage));
   mkFlag "harness-service-account" (stringValue (harness v_HarnessServiceAccount));
   mkFlag "kubeconfig" (stringValue (harness v_HarnessKubeconfig));
   mkFlag "harness-secrets" (stringValue v_secrets);
   mkFlag "job-ttl" (intValue v_ttl);
   mkFlag "deadline-slack" (durationValue v_slack);
   mkFlag "sandbox-image" (stringValue (sandbox v_SandboxImage));
   mkFlag "sandbox-namespace" (stringValue (sandbox v_SandboxNamespace));
   mkFlag "sandbox-service-account" (stringValue (sandbox v_SandboxServiceAccount));
   mkFlag "sandbox-runtime" (stringValue (sandbox v_SandboxRuntime));
   mkFlag "harness-telemetry-endpoint" (stringValue (cfg v_HarnessTelemetryEndpoint));
   mkFlag "telemetry" (stringValue (telemetry v_Exporter));
   mkFlag "telemetry-protocol" (stringValue (telemetry v_Protocol));
   mkFlag "telemetry-endpoint" (stringValue (telemetry v_Endpoint));
   mkFlag "telemetry-sample-ratio" (float64Value (telemetry v_SampleRatio));
   mkFlag "telemetry-service-name" (stringValue (telemetry v_ServiceName));
   mkFlag "telemetry-metric-interval" (durationValue (telemetry v_MetricInterval));
   mkFlag "sandbox-token-key" (stringValue (token v_KeyPath));
   mkFlag "sandbox-token-issuer" (stringValue (token v_Issuer));
   mkFlag "sandbox-token-audience" (stringValue (token v_Audience));
   mkFlag "sandbox-token-ttl" (durationValue v_tokenTTL)].

Definition defaultAdvertiseAddr (namespace listenAddr : string) : string :=
  match SplitHostPort listenAddr with
  | Err _ => ""
  | Ok (_, port) => if port ==? "" then "" else "hairpin." +:+ namespace +:+ ".svc:" +:+ port
  end.

Definition maxInt32 : Z := 2 ^ 31 - 1.

(** The assignments after the parse. *)
Definition withFlags (f : serveFlags) : Config :=
  let c := sf_cfg f in
  let h := c_Harness c in
  let t := c_SandboxToken c in
  let secrets := if sf_secrets f !=? "" then splitComma (sf_secrets f) else hc_EnvFromSecrets h in
  let advertise :=
    if (c_AdvertiseAddr c ==? "") && (hc_Namespace h !=? "")
    then defaultAdvertiseAddr (hc_Namespace h) (c_ListenAddr c) else c_AdvertiseAddr c in
  mkConfig (c_ListenAddr c) advertise (c_RedisAddr c) (c_RedisPassword c) (c_RedisDB c)
    (c_BilletAddr c) (c_Launcher c) (c_ProfilesDir c) (c_DefaultProfile c) (c_Retention c)
    (mkHarnessConfig (hc_Namespace h) (hc_Image h) (hc_Kubeconfig h) (hc_ServiceAccount h) secrets
       (sf_ttl f) (sf_slack f) (hc_Labels h))
    (c_Sandbox c) (c_Telemetry c) (c_HarnessTelemetryEndpoint c)
    (mkSandboxTokenConfig (st_KeyPath t) (st_Issuer t) (st_Audience t) (sf_tokenTTL f)).

Section flags.
Context `{UnicodeTables} (formatFloat : spec_float → string).

(** Of the namespace hairpin runs in and the exporter protocol of the environment; the
    arguments after the flags are not looked at. *)
Definition parseServeFlags (namespace protocol : string) (args : list string) : res Config :=
  '(f, _) ← Parse serveFlagSet (defaultFlags namespace protocol) args;
  if (sf_ttl f <? 0)%Z || (maxInt32 <? sf_ttl f)%Z then
    Err (ErrNew "job TTL must be between 0 and 2147483647 seconds")
  else
    match Validate formatFloat (withFlags f) with
    | (_, Some e) => Err e
    | (c, None) => Ok c
    end.

End flags.

(** ** Assembly *)

Inductive storeKind := InMemory | OnRedis.

Definition buildStore (cfg : Config) (ping : option error) : res storeKind :=
  if c_RedisAddr cfg ==? "" then Ok InMemory
  else match ping with
       | Some e => Err (wrapf ("redis at " +:+ c_RedisAddr cfg) e)
       | None => Ok OnRedis
       end.

Inductive launcherKind := Kubernetes | NoLauncher.

(** [k8s] is the error of building the client, if any. *)
Definition buildLauncher (cfg : Config) (k8s : option error) : res launcherKind :=
  if c_Launcher cfg ==? "kubernetes" then
    match k8s with Some e => Err e | None => Ok Kubernetes end
  else Ok NoLauncher.

(** What the surroundings answer while the server is assembled and runs. *)
Record surroundings := mkSurroundings {
  sw_telemetry : option error;             (** of [telemetry.Setup] *)
  sw_ping : option error;
  sw_readDir : res (list dirEntry);
  sw_k8s : option error;
  sw_key : res PublicKey;                  (** of [tokenissuer.LoadKey] *)
  sw_interceptor : option error;
  sw_listen : option error;                (** the listener fails, or a signal comes first *)
  sw_live : list string;                   (** [reg.JobIDs()] when the signal comes *)
}.

(** What is served. *)
Record assembly := mkAssembly {
  as_store : storeKind;
  as_launcher : launcherKind;
  as_service : Service;
  as_handler : Handler;
  as_reaper : Reaper;
  as_issuer : option Issuer;               (** and the JWKS route with it *)
}.

(** The milestones of the process. *)
Inductive milestone :=
  | TelemetryUp | TelemetryDown
  | StoreOpened | StoreClosed
  | ReaperStarted | ReaperCancelled | ReaperStopped
  | Listening (a : assembly)
  | CancelSent (jobID : string)
  | ListenerDrained
  | LaunchesDone
  | MemoryCallsDone.

Definition life (A : Type) : Type := list milestone * res A.

(** A deferred call runs when the function returns, however it returns. *)
Definition deferring {A} (d : milestone) (l : life A) : life A := (fst l ++ [d], snd l).

Definition after {A} (ms : list milestone) (l : life A) : life A := (ms ++ fst l, snd l).

Definition orReturn {A B} (r : res A) (k : A → life B) : life B :=
  match r with Ok a => k a | Err e => ([], Err e) end.

Section serve.
Context `{UnicodeTables} `{ProtoJSON}.
Variable Sum256 : string → list N.

Definition buildTokenIssuer (cfg : Config) (key : res PublicKey) : res (option Issuer) :=
  let t := c_SandboxToken cfg in
  if st_KeyPath t ==? "" then Ok None
  else
    match key with
    | Err e => Err (wrapf "sandbox token key" e)
    | Ok pub =>
        match NewIssuer Sum256 (Some pub) (st_Issuer t) (st_Audience t) (st_TTL t) with
        | Err e => Err (wrapf "sandbox token issuer" e)
        | Ok i => Ok (Some i)
        end
    end.

(** The parts, once everything they need is there; the memory client is there when an
    address is. *)
Definition assemble (cfg : Config) (st : storeKind) (profiles : Profiles) (l : launcherKind)
  (issuer : option Issuer) : assembly :=
  let memoryClient := c_BilletAddr cfg !=? "" in
  mkAssembly st l
    (NewService (Some profiles)
       [WithExecutorDefaults (c_Sandbox cfg);
        WithHarnessTelemetryEndpoint (c_HarnessTelemetryEndpoint cfg);
        WithMemoryTools memoryClient])
    (NewHandler ((if memoryClient then [WithMemory] else [])
                 ++ match issuer with
                    | Some i => [WithSandboxTokenIssuer (Some (i_audience i))]
                    | None => []
                    end))
    (NewReaper (c_Retention cfg) (hc_ActiveDeadlineSlack (c_Harness cfg)) [])
    issuer.

(** From the signal on: live runs are cancelled, the listener drains, the reaper stops,
    launches and memory calls finish. *)
Definition shutdown (live : list string) : list milestone :=
  (CancelSent <$> live) ++ [ListenerDrained; ReaperCancelled; ReaperStopped; LaunchesDone; MemoryCallsDone].

Definition serve (cfg : Config) (w : surroundings) : life unit :=
  orReturn (match sw_telemetry w with Some e => Err e | None => Ok tt end) (λ _,
  deferring TelemetryDown (after [TelemetryUp] (
  orReturn (buildStore cfg (sw_ping w)) (λ st,
  deferring StoreClosed (after [StoreOpened] (
  orReturn (LoadProfiles (c_ProfilesDir cfg) (c_DefaultProfile cfg) (sw_readDir w)) (λ profiles,
  orReturn (buildLauncher cfg (sw_k8s w)) (λ l,
  orReturn (buildTokenIssuer cfg (sw_key w)) (λ issuer,
  orReturn (if Enabled (c_Telemetry cfg) then
              match sw_interceptor w with
              | Some e => Err (wrapf "build telemetry interceptor" e)
              | None => Ok tt
              end
            else Ok tt) (λ _,
  deferring ReaperCancelled (after [ReaperStarted; Listening (assemble cfg st profiles l issuer)] (
  match sw_listen w with
  | Some e => ([], Err e)
  | None => (shutdown (sw_live w), Ok tt)
  end)))))))))))).

End serve.

(** The loop of the shutdown over the registry's job IDs. *)
Fixpoint cancelLiveRuns (ids : list string) : prog unit :=
  match ids with
  | [] => mret tt
  | id :: ids' => _ ← registrySend id (control_of_type "cancel"); cancelLiveRuns ids'
  end.

(** ** Key generation ([keygen.go]) *)

Record file := mkFile { f_mode : Z; f_data : string }.

(** How the system calls of one [writeNew] fail, if they do: opening for another reason
    than an existing file, the write with what it wrote before, the close. *)
Record writeFaults := mkWriteFaults {
  wf_open : option error;
  wf_write : option (error * string);
  wf_close : option error;
}.

Definition errExists : error := ErrNew "file exists".

(** [writeNew]: exclusive creation, then the data. *)
Definition writeNew (path data : string) (mode : Z) (faults : writeFaults) (fs : gmap string file)
  : gmap string file * res unit :=
  match fs !! path, wf_open faults with
  | Some _, _ => (fs, Err (wrapf ("create " +:+ path) errExists))
  | None, Some e => (fs, Err (wrapf ("create " +:+ path) e))
  | None, None =>
      match wf_write faults with
      | Some (e, partial) => (<[path := mkFile mode partial]> fs, Err (wrapf ("write " +:+ path) e))
      | None =>
          (<[path := mkFile mode data]> fs,
           match wf_close faults with Some e => Err (wrapf ("write " +:+ path) e) | None => Ok tt end)
      end
  end.

Section keygen.
Variable Sum256 : string → list N.

(** The flags of [keygen]: [out] and [jwksOut]. *)
Definition keygenFlagSet : list (Flag (string * string)) :=
  [mkFlag "out" (stringValue (mkVariable fst (λ v t, (v, snd t))));
   mkFlag "jwks-out" (stringValue (mkVariable snd (λ v t, (fst t, v))))].

(** [runKeygen] past its flags, of what generating and encoding the key give; what goes to
    standard output, where a write may fail too, is the second result. *)
Definition keygen (out jwksOut : string) (key : res PublicKey) (pem : res string)
  (faults jwksFaults : writeFaults) (fs : gmap string file) : gmap string file * string * res unit :=
  if out ==? "" then (fs, "", Err (ErrNew "usage: hairpin keygen --out <path> [--jwks-out <path>]"))
  else
    match key with
    | Err e => (fs, "", Err (wrapf "generate key" e))
    | Ok pub =>
        match pem with
        | Err e => (fs, "", Err (wrapf "encode key" e))
        | Ok pemBytes =>
            match writeNew out pemBytes 384 faults fs with
            | (fs, Err e) => (fs, "", Err e)
            | (fs, Ok _) =>
                match JWKSDocument Sum256 pub with
                | Err e => (fs, "", Err (wrapf "build JWKS" e))
                | Ok jwks =>
                    let '(fs, stdout, r) :=
                      if jwksOut ==? "" then
                        match wf_write jwksFaults with
                        | Some (e, partial) => (fs, partial, Err e)
                        | None => (fs, jwks +:+ newline, Ok tt)
                        end
                      else let '(fs, r) := writeNew jwksOut (jwks +:+ newline) 420 jwksFaults fs in
                           (fs, "", r) in
                    match r with
                    | Err e => (fs, stdout, Err e)
                    | Ok _ =>
                        (fs, stdout, match KeyIDOf Sum256 pub with
                                     | Err e => Err (wrapf "compute kid" e)
                                     | Ok _ => Ok tt
                                     end)
                    end
                end
            end
        end
    end.

Definition runKeygen `{UnicodeTables} (args : list string) (key : res PublicKey) (pem : res string)
  (faults jwksFaults : writeFaults) (fs : gmap string file) : gmap string file * string * res unit :=
  match Parse keygenFlagSet ("", "") args with
  | Err e => (fs, "", Err e)
  | Ok ((out, jwksOut), _) => keygen out jwksOut key pem faults jwksFaults fs
  end.

End keygen.

(** ** The program *)

Definition usage : error := ErrNew "usage: hairpin <serve|keygen> [flags]".

Section program.
Context `{UnicodeTables} `{ProtoJSON} (formatFloat : spec_float → string) (Sum256 : string → list N).

(** [run], of the arguments after the program's name: the milestones of a server, or the
    files and the standard output of [keygen], and the error. [raw] is what reading the
    namespace file gives, [protocol] the exporter protocol of the environment. *)
Definition run (raw : res string) (protocol : string) (w : surroundings)
  (key : res PublicKey) (pem : res string) (faults jwksFaults : writeFaults)
  (fs : gmap string file) (args : list string)
  : list milestone * gmap string file * string * res unit :=
  match args with
  | [] => ([], fs, "", Err usage)
  | a :: args' =>
      if a ==? "serve" then
        match parseServeFlags formatFloat (DetectNamespace raw) protocol args' with
        | Err e => ([], fs, "", Err e)
        | Ok cfg => let '(ms, r) := serve Sum256 cfg w in (ms, fs, "", r)
        end
      else if a ==? "keygen" then
        let '(fs, stdout, r) := runKeygen Sum256 args' key pem faults jwksFaults fs in
        ([], fs, stdout, r)
      else ([], fs, "", Err usage)
  end.

End program.

(** [main]: the exit status and what it writes to standard error. *)
Definition main (r : res unit) : Z * string :=
  match r with
  | Ok _ => (0%Z, "")
  | Err e => (1%Z, "hairpin: " +:+ Error e +:+ newline)
  end.
