(* ===== verification/ServeFacts.v ===== *)
(** * What the command line promises

    Flags that are accepted describe a server that can be served, the halves of a feature
    are switched together, shutdown reaches every live run before the store closes, and
    key generation never overwrites a file. *)

From stdpp Require Import base gmap list strings.
From Stdlib Require Import Ascii SpecFloat.
From S2P Require Import Prelude Float Utf8 Fmt Net Strconv Flags Job Proto Store MemStore MemStoreFacts Telemetry Registry.
From S2P Require Import Prog Memory Handler RunConfigs RunConfigFacts Config TokenIssuer Service Reaper Sse.
From S2P Require Import TokenIssuerFacts Serve Samples.

(** ** Flags *)

(** The configuration [Validate] leaves of an acceptable one. *)
Definition withNamespace (c : Config) : Config :=
  if ed_Namespace (c_Sandbox c) ==? "" then set_SandboxNamespace (hc_Namespace (c_Harness c)) c else c.

Lemma serve_names_writable : Forall (λ f, writable (fl_name f)) serveFlagSet.
Proof. repeat constructor; vm_compute; repeat split; discriminate. Qed.

(** No two flags share a variable: what each holds after an assignment to one of them. *)
Definition holdings (fs : list (Flag serveFlags)) (t : serveFlags) : list setting :=
  (λ g, holding (fl_value g) t) <$> fs.

Lemma serve_flags_apart x t :
  Forall (λ f, fits (fl_value f) x →
    holdings serveFlagSet (assign (fl_value f) x t)
    = (λ g, if fl_name f ==? fl_name g then x else holding (fl_value g) t) <$> serveFlagSet) serveFlagSet.
Proof.
  destruct t as [[? ? ? ? ? ? ? ? ? ? [] [] [] ? []]]. unfold serveFlagSet at 3. cbn zeta.
  destruct x; repeat (apply Forall_cons; split); try apply Forall_nil_2;
    intros Hx; first [destruct Hx; fail|vm_compute; reflexivity].
Qed.

Lemma serve_flags_independent : independent serveFlagSet.
Proof.
  apply Forall_forall. intros f Hf. apply Forall_forall. intros g Hg x t Hx.
  pose proof (proj1 (Forall_forall _ _) (serve_flags_apart x t) f Hf Hx) as Ha.
  apply list_elem_of_lookup in Hg as [i Hi].
  pose proof (f_equal (λ l, l !! i) Ha) as Hai. cbn beta in Hai. unfold holdings in Hai.
  rewrite !list_lookup_fmap, Hi in Hai. by injection Hai.
Qed.

Lemma serve_flags_formal :
  Forall (λ g, formal serveFlagSet (fl_name g) = Some g) serveFlagSet.
Proof. repeat (apply Forall_cons; split; [reflexivity|]). by apply Forall_nil_2. Qed.

Lemma parse_serve_flags `{UnicodeTables} (formatFloat : spec_float → string)
  (namespace protocol : string) (args : list string) (c : Config) :
  parseServeFlags formatFloat namespace protocol args = Ok c ↔
  ∃ l tail rest f, args = concat (written <$> l) ++ tail ∧ ends tail rest
    ∧ performAll serveFlagSet (defaultFlags namespace protocol) l = Some f
    ∧ (0 ≤ sf_ttl f ≤ maxInt32)%Z ∧ servable (withFlags f)
    ∧ c = withNamespace (withFlags f).
Proof.
  pose proof (Parse_decided serveFlagSet (defaultFlags namespace protocol) args) as Hp.
  unfold parseServeFlags.
  destruct (Parse serveFlagSet (defaultFlags namespace protocol) args) as [[f rest]|e] eqn:E; cbn.
  - assert (∀ f', (∃ l tail rest', args = concat (written <$> l) ++ tail ∧ ends tail rest'
      ∧ performAll serveFlagSet (defaultFlags namespace protocol) l = Some f') ↔ f' = f) as Hf.
    { intros f'. split.
      - intros (l & tail & rest' & Hl). assert (Ok (f, rest) = Ok (f', rest')) as [=]; [|done].
        apply (Hp f' rest'); [apply serve_names_writable|by exists l, tail].
      - intros ->. destruct (proj1 (Hp f rest serve_names_writable) eq_refl) as (l & tail & Hl).
        by exists l, tail, rest. }
    destruct (Validate_decides_servable formatFloat (withFlags f)) as [Hv Hc]. unfold withNamespace.
    destruct (Validate formatFloat (withFlags f)) as [c' [e|]] eqn:Ev; cbn in Hv, Hc.
    + split; [by destruct (_ || _)|]. intros (l & tail & rest' & f' & Ha & He & Hl & _ & Hs & _).
      assert (f' = f) as -> by (apply Hf; by exists l, tail, rest'). by apply Hv in Hs.
    + rewrite Hc by done.
      destruct (Z.ltb_spec (sf_ttl f) 0), (Z.ltb_spec maxInt32 (sf_ttl f)); cbn [orb].
      all: split; [intros [= <-]; destruct (proj2 (Hf f) eq_refl) as (l & tail & rest' & ? & ? & ?);
                   exists l, tail, rest', f; split_and!; try done; try lia; by apply Hv
                  |intros (l & tail & rest' & f' & Ha & He & Hl & Ht & _ & ->);
                   assert (f' = f) as -> by (apply Hf; by exists l, tail, rest'); first [lia|done]].
  - split; [done|]. intros (l & tail & rest & f & Ha & He & Hl & _).
    assert (Err e = Ok (f, rest)) as [=]. apply Hp; [apply serve_names_writable|by exists l, tail].
Qed.

(** C37. [parseServeFlags] accepts exactly the command lines that describe a server: the
    arguments are assignments to its flags, in any of the four ways to write one, with
    values of the flags' kinds, up to a first argument that is no flag or a [--]; the job TTL
    fits 32 bits; and the configuration the assignments leave, with its advertised address
    and secrets worked out, is servable. The result is that configuration with the sandbox
    namespace defaulted. Arguments after the flags are not looked at. *)
Theorem serve_flags_decided `{UnicodeTables} (formatFloat : spec_float → string)
  (namespace protocol : string) (args : list string) (c : Config) :
  parseServeFlags formatFloat namespace protocol args = Ok c ↔
  ∃ l tail rest f, args = concat (written <$> l) ++ tail ∧ ends tail rest
    ∧ performAll serveFlagSet (defaultFlags namespace protocol) l = Some f
    ∧ (0 ≤ sf_ttl f ≤ maxInt32)%Z ∧ servable (withFlags f)
    ∧ c = withNamespace (withFlags f).
Proof. apply parse_serve_flags. Qed.

(** C38. A flag means the last value given for it. When [parseServeFlags] accepts, the
    variable of each of its 32 flags holds what the last assignment to that flag on the command
    line says, read by the flag's kind, or its default if there is none; no other flag
    touches it. The configuration is worked out of these variables alone. *)
Theorem serve_flags_last_wins `{UnicodeTables} (formatFloat : spec_float → string)
  (namespace protocol : string) (args : list string) (c : Config)
  (Hparse : parseServeFlags formatFloat namespace protocol args = Ok c) :
  ∃ l tail rest f, args = concat (written <$> l) ++ tail ∧ ends tail rest
    ∧ c = withNamespace (withFlags f)
    ∧ ∀ g, g ∈ serveFlagSet →
        Ok (holding (fl_value g) f)
        = match last (valuesOf (fl_name g) l) with
          | Some v => readSetting (fl_value g) v
          | None => Ok (holding (fl_value g) (defaultFlags namespace protocol))
          end.
Proof.
  apply parse_serve_flags in Hparse as (l & tail & rest & f & Ha & He & Hl & _ & _ & ->).
  exists l, tail, rest, f. split_and!; [done..|]. intros g Hg.
  rewrite (performAll_last _ _ _ _ _ serve_flags_independent Hl Hg).
  by rewrite (proj1 (Forall_forall _ _) serve_flags_formal g Hg).
Qed.

(** A ratio that is no number passes. *)
Lemma nan_ratio_served `{UnicodeTables} (formatFloat : spec_float → string) :
  ∃ c, parseServeFlags formatFloat "runs" "" ["-telemetry=otlp"; "-telemetry-sample-ratio=nan"] = Ok c
    ∧ to_SampleRatio (c_Telemetry c) = S754_nan.
Proof. eexists. split; [vm_compute; reflexivity|reflexivity]. Qed.

(** A flag given twice, a value that is the next argument, and arguments after the flags. *)
Lemma serve_flags_last_wins_witness :
  ∃ l tail rest f,
    ["-redis=a:6379"; "--retention"; "36h"; "-redis"; "b:6379"; "now"; "-redis=c:6379"]
      = concat (written <$> l) ++ tail
    ∧ ends tail rest
    ∧ Ok (SString (c_RedisAddr (sf_cfg f)))
      = match last (valuesOf "redis" l) with Some v => Ok (SString v) | None => Ok (SString "") end
    ∧ Ok (SDuration (c_Retention (sf_cfg f)))
      = match last (valuesOf "retention" l) with
        | Some v => match ParseDuration v with Some d => Ok (SDuration d) | None => Err errParse end
        | None => Ok (SDuration 0)
        end.
Proof.
  destruct (parseServeFlags (H := sample_tables) (λ _, "") "runs" ""
    ["-redis=a:6379"; "--retention"; "36h"; "-redis"; "b:6379"; "now"; "-redis=c:6379"])
    as [c|e] eqn:E; [|exfalso; revert E; vm_compute; discriminate].
  destruct (serve_flags_last_wins (H := sample_tables) (λ _, "") "runs" "" _ c E)
    as (l & tail & rest & f & Ha & He & _ & Hg).
  exists l, tail, rest, f. split; [exact Ha|]. split; [exact He|]. split.
  - apply (Hg (mkFlag "redis" (stringValue (inside v_cfg v_RedisAddr)))). unfold serveFlagSet.
    repeat (apply list_elem_of_here || apply list_elem_of_further).
  - apply (Hg (mkFlag "retention" (durationValue (inside v_cfg v_Retention)))). unfold serveFlagSet.
    repeat (apply list_elem_of_here || apply list_elem_of_further).
Defined.

(** ** Assembly *)

(** The halves of a feature are switched together. A server assembled from its
    configuration accepts a submission that declares control-plane tools only if its
    control plane has the memory backend that fulfils them, and then every declared tool
    is one it fulfils; and the control plane issues sandbox tokens exactly when an issuer
    was built, which is when a key is configured, for the configured audience. *)
Theorem assembled_halves_agree `{UnicodeTables} `{ProtoJSON} (Sum256 : string → list N) (cfg : Config)
  (key : res PublicKey) (st : storeKind) (profiles : Profiles) (l : launcherKind)
  (issuer : option Issuer) (tools : list ControlPlaneToolConfig)
  (Hissuer : buildTokenIssuer Sum256 cfg key = Ok issuer)
  (Hint : Forall (λ t, - 2 ^ 31 ≤ ct_TimeoutSeconds t < 2 ^ 31)%Z tools) :
  let a := assemble cfg st profiles l issuer in
  (validateControlPlaneTools tools (sv_memoryTools (as_service a)) = None →
   Forall (λ t, IsMemoryTool (ct_Name t) = true ∧ h_memory (as_handler a) = true) tools)
  ∧ h_issuer (as_handler a)
    = if st_KeyPath (c_SandboxToken cfg) ==? "" then None else Some (st_Audience (c_SandboxToken cfg)).
Proof.
  intros a. split.
  - rewrite validateControlPlaneTools_spec by done. intros Hf. eapply Forall_impl; [exact Hf|].
    intros t (Ht & Hm & _).
    split; [by apply IsMemoryTool_spec|]. revert Hm. subst a. unfold assemble. cbn.
    destruct (c_BilletAddr cfg ==? ""); [done|]. by destruct issuer.
  - subst a. unfold assemble. cbn. unfold buildTokenIssuer in Hissuer. revert Hissuer.
    case_bool_decide; [intros [= <-]; by destruct (c_BilletAddr cfg ==? "")|].
    destruct key as [pub|e]; [|done]. destruct (NewIssuer _ _ _ _ _) as [i|e] eqn:E; [|done].
    intros [= <-]. assert (i_audience i = st_Audience (c_SandboxToken cfg)) as Ha.
    { revert E. unfold NewIssuer. repeat (case_match; [done|]).
      destruct (KeyIDOf Sum256 pub); [|done]. cbn. destruct (JWKSDocument Sum256 pub); [|done].
      by intros [= <-]. }
    rewrite <-Ha. by destruct (c_BilletAddr cfg ==? "").
Qed.

(** ** Shutdown *)

Section shutdown.
Context {St : Type} `{Store St} (env : Env).
Implicit Types w : World St.

Definition cancelEvent : ControlEvent := control_of_type "cancel".

(** What has been sent on a stream. *)
Definition sentOn (st : nat) w : list ControlEvent :=
  match w_streams w !! st with Some s => st_sent s | None => [] end.

(** The registry and the sessions are as they were, and sends are only added. *)
Definition grown w w' : Prop :=
  w_reg w' = w_reg w ∧ w_sessions w' = w_sessions w
  ∧ (∀ st, is_Some (w_streams w !! st) → is_Some (w_streams w' !! st))
  ∧ ∀ st ev, ev ∈ sentOn st w → ev ∈ sentOn st w'.

#[local] Instance grown_preorder : PreOrder grown.
Proof.
  split; [by intros w; split_and!|]. intros w1 w2 w3 (A1 & A2 & A3 & A4) (B1 & B2 & B3 & B4).
  split_and!; [congruence|congruence|auto|auto].
Qed.

Lemma grown_transmit st ev w n :
  grown w (set_tick n (fst (transmit env st ev w)))
  ∧ (env_send env (w_tick w) st = None → is_Some (w_streams w !! st) →
     ev ∈ sentOn st (set_tick n (fst (transmit env st ev w)))).
Proof.
  unfold transmit. destruct w as [a b c d e f g h i]. cbn.
  destruct (env_send env i st) as [err|]; [by split|].
  destruct (c !! st) as [[q e0 sent]|] eqn:Es; [|split; [done|intros _ [? ?]; done]]. cbn. split.
  - split_and!; try done.
    + intros st'. cbn. destruct (decide (st = st')) as [<-|]; [by rewrite lookup_insert_eq; eexists|].
      by rewrite lookup_insert_ne.
    + intros st' ev'. unfold sentOn. cbn. destruct (decide (st = st')) as [<-|].
      * rewrite lookup_insert_eq, Es. cbn. rewrite elem_of_app. by left.
      * by rewrite lookup_insert_ne.
  - intros _ _. unfold sentOn. cbn. rewrite lookup_insert_eq. cbn. rewrite elem_of_app.
    right. by apply list_elem_of_singleton.
Qed.

Lemma grown_tick w n : grown w (set_tick n w).
Proof. by destruct w. Qed.

(** One send through the registry. *)
Lemma grown_registrySend id w :
  (∀ n st, env_send env n st = None) →
  let '(w', ts, r) := Prog.run env (registrySend id cancelEvent) w in
  ts = [] ∧ (∃ x, r = Done x) ∧ grown w w'
  ∧ ∀ sess st, w_reg w !! id = Some sess → w_sessions w !! sess = Some (mkSession st false) →
      is_Some (w_streams w !! st) → cancelEvent ∈ sentOn st w'.
Proof.
  intros Hsend. cbn. destruct w as [a b c d e f g h i]. unfold actTick. cbn.
  unfold sessionFor. destruct (b !! id) as [sess|]; cbn; [|by split_and!; [|eexists|..]].
  unfold actTick. cbn. unfold sessionSend. cbn.
  destruct (d !! sess) as [[st [|]]|] eqn:Ed; cbn; cycle 2.
  { split_and!; [done|by eexists|done|]. intros ? ? [= <-]. by rewrite Ed. }
  { split_and!; [done|by eexists|done|]. intros ? ? [= <-]. by rewrite Ed. }
  set (w1 := mkWorld a b c d e f g h (S i)).
  destruct (grown_transmit st cancelEvent w1 (S (S i))) as [Hg Hc].
  destruct (transmit env st cancelEvent w1) as [w2 x]. cbn in *. split_and!; [done|by eexists|done|].
  intros ? st' [= <-]. rewrite Ed. intros [= <-] Hst. by apply Hc.
Qed.

Lemma run_cancelLiveRuns ids w :
  (∀ n st, env_send env n st = None) →
  let '(w', ts, r) := Prog.run env (cancelLiveRuns ids) w in
  ts = [] ∧ r = Done tt ∧ grown w w'
  ∧ ∀ id sess st, id ∈ ids → w_reg w !! id = Some sess →
      w_sessions w !! sess = Some (mkSession st false) → is_Some (w_streams w !! st) →
      cancelEvent ∈ sentOn st w'.
Proof.
  intros Hsend. revert w. induction ids as [|id ids IH]; intros w.
  { cbn. split_and!; try done. intros ? ? ? []%elem_of_nil. }
  cbn [cancelLiveRuns]. rewrite run_bind. pose proof (grown_registrySend id w Hsend) as H1.
  destruct (Prog.run env (registrySend id cancelEvent) w) as [[w1 ts1] r1] eqn:E1.
  unfold cancelEvent in E1. rewrite E1. destruct H1 as (-> & (x & ->) & Hg1 & Hc1).
  specialize (IH w1). destruct (Prog.run env (cancelLiveRuns ids) w1) as [[w2 ts2] r2].
  destruct IH as (-> & -> & Hg2 & Hc2). split_and!; [done|done|by etrans|].
  pose proof Hg1 as (R1 & S1 & T1 & _). pose proof Hg2 as (_ & _ & _ & A2).
  intros id' sess st [->|Hin]%elem_of_cons Hr Hs Ht.
  - apply A2. by eapply Hc1.
  - eapply Hc2; [done|by rewrite R1|by rewrite S1|auto].
Qed.

(** C39. On a signal every live run is told to stop: the shutdown's loop over the registry
    completes, and afterwards the stream of every job that was registered with an open
    session has been sent a cancel, as long as the transport delivers. *)
Theorem shutdown_cancels_every_live_run w (id : string) (sess st : nat)
  (Hsend : ∀ n st, env_send env n st = None)
  (Hreg : w_reg w !! id = Some sess) (Hopen : w_sessions w !! sess = Some (mkSession st false))
  (Hstream : is_Some (w_streams w !! st)) :
  let '(w', ts, r) := Prog.run env (cancelLiveRuns (JobIDs (w_reg w))) w in
  r = Done tt ∧ ts = [] ∧ cancelEvent ∈ sentOn st w'.
Proof.
  pose proof (run_cancelLiveRuns (JobIDs (w_reg w)) w Hsend) as Hall.
  destruct (Prog.run env _ w) as [[w' ts] r]. destruct Hall as (-> & -> & _ & Hc).
  split_and!; [done|done|]. eapply Hc; [|done..].
  apply elem_of_JobIDs. unfold Connected. apply bool_decide_eq_true_2. by eexists.
Qed.

End shutdown.

#[local] Existing Instance sample_tables.

Lemma shutdown_cancels_every_live_run_witness :
  let '(w', ts, r) := Prog.run sample_env (cancelLiveRuns (JobIDs (w_reg (sample_assigned [])))) (sample_assigned []) in
  r = Done tt ∧ ts = [] ∧ cancelEvent ∈ sentOn 0 w'.
Proof.
  apply (shutdown_cancels_every_live_run sample_env (sample_assigned []) sample_id 0 0).
  - intros n st. reflexivity.
  - reflexivity.
  - reflexivity.
  - by eexists.
Defined.

(** ** The order of the process's end *)

(** Once the store is open, it is closed after everything else but the telemetry, which
    goes last; this holds of every early return, too. *)
Lemma serve_closes_store_last `{UnicodeTables} `{ProtoJSON} (Sum256 : string → list N) (cfg : Config)
  (w : surroundings) :
  let ms := fst (serve Sum256 cfg w) in
  StoreOpened ∈ ms →
  ∃ l, ms = l ++ [StoreClosed; TelemetryDown] ∧ (StoreClosed ∉ l) ∧ (TelemetryDown ∉ l).
Proof.
  unfold serve. destruct (sw_telemetry w); cbn; [by intros []%elem_of_nil|].
  destruct (buildStore _ _); cbn; [|rewrite !elem_of_cons, elem_of_nil; naive_solver].
  intros _. destruct (orReturn _ _) as [l r] eqn:E. cbn.
  exists (TelemetryUp :: StoreOpened :: l). cbn. rewrite <-!app_assoc. split; [done|].
  assert ((StoreClosed ∉ l) ∧ (TelemetryDown ∉ l)) as [H1 H2]; [|by rewrite !not_elem_of_cons].
  revert E. destruct (LoadProfiles _ _ _); cbn; [|intros [= <- _]; split; apply not_elem_of_nil].
  destruct (buildLauncher _ _); cbn; [|intros [= <- _]; split; apply not_elem_of_nil].
  destruct (buildTokenIssuer _ _ _); cbn; [|intros [= <- _]; split; apply not_elem_of_nil].
  destruct (if Enabled _ then _ else _); cbn; [|intros [= <- _]; split; apply not_elem_of_nil].
  unfold shutdown. destruct (sw_listen w); cbn; intros [= <- _];
    rewrite ?not_elem_of_cons, ?not_elem_of_app, ?not_elem_of_cons, ?not_elem_of_app, ?not_elem_of_cons;
    (split_and!; try done; try apply not_elem_of_nil);
    intros (x & ? & _)%list_elem_of_fmap; done.
Qed.

(** ** Key generation *)

Lemma writeNew_keeps path data mode faults fs p f :
  fs !! p = Some f → fst (writeNew path data mode faults fs) !! p = Some f.
Proof.
  intros Hp. unfold writeNew. destruct (fs !! path) eqn:E; [done|].
  destruct (wf_open faults); [done|].
  assert (path ≠ p) by congruence.
  destruct (wf_write faults) as [[e partial]|]; cbn; by rewrite lookup_insert_ne.
Qed.

Lemma writeNew_ok path data mode faults fs fs' :
  writeNew path data mode faults fs = (fs', Ok tt) →
  fs !! path = None ∧ fs' = <[path := mkFile mode data]> fs.
Proof.
  unfold writeNew. destruct (fs !! path); [done|]. destruct (wf_open faults); [done|].
  destruct (wf_write faults) as [[]|]; [done|]. destruct (wf_close faults); [done|]. by intros [= <-].
Qed.

(** [keygen] never touches a file that is there, and when it succeeds the key is in a file of
    its own that only the owner may read. *)
Theorem keygen_never_overwrites (Sum256 : string → list N) (out jwksOut : string) (key : res PublicKey)
  (pem : res string) (faults jwksFaults : writeFaults) (fs : gmap string file) :
  let '(fs', stdout, r) := keygen Sum256 out jwksOut key pem faults jwksFaults fs in
  (∀ p f, fs !! p = Some f → fs' !! p = Some f)
  ∧ (r = Ok tt → ∃ pemBytes, pem = Ok pemBytes ∧ fs !! out = None
       ∧ fs' !! out = Some (mkFile 384 pemBytes)).
Proof.
  unfold keygen. case_bool_decide; [done|]. destruct key as [pub|e]; [|done].
  destruct pem as [pemBytes|e]; [|done].
  pose proof (writeNew_keeps out pemBytes 384 faults fs) as Hk.
  destruct (writeNew out pemBytes 384 faults fs) as [fs1 [u|e]] eqn:E1; cbn [fst] in Hk; [|by split].
  assert (fs !! out = None ∧ fs1 !! out = Some (mkFile 384 pemBytes)) as [Hnew Hout].
  { destruct u. apply writeNew_ok in E1 as [? ->]. by rewrite lookup_insert_eq. }
  destruct (JWKSDocument Sum256 pub) as [jwks|e]; [|split; [done|done]].
  case_bool_decide.
  - destruct (wf_write jwksFaults) as [[e partial]|]; [by split|]. split; [done|]. intros _. by exists pemBytes.
  - pose proof (λ p f, writeNew_keeps jwksOut (jwks +:+ newline) 420 jwksFaults fs1 p f) as Hk2.
    destruct (writeNew jwksOut (jwks +:+ newline) 420 jwksFaults fs1) as [fs2 r2]. cbn [fst] in Hk2.
    destruct r2 as [u2|e]; (split; [by auto|]); [|done]. intros _. exists pemBytes. auto.
Qed.

(** C36. A generated key serves. When [keygen] succeeds, the key file it leaves is one that
    [serve] loads: with that file as its sandbox token key, and an issuer, an audience and
    a positive lifetime, the server has an issuer whose public document is, byte for
    byte, the one [keygen] printed or wrote for the verifier. *)
Theorem keygen_key_serves `{UnicodeTables} (Sum256 : string → list N)
  (pemDecode : string → option (string * string)) (pemEncode : string → string → string)
  (ParseEC : string → res PublicKey) (ParsePKCS8 : string → res pkcs8Key)
  (MarshalPKCS8 : PublicKey → res string)
  (Hpem : ∀ der, pemDecode (pemEncode "PRIVATE KEY" der) = Some ("PRIVATE KEY", der))
  (Hpkcs8 : ∀ key der, MarshalPKCS8 key = Ok der → ParsePKCS8 der = Ok (EcdsaKey key))
  (args : list string) (out jwksOut : string) (rest : list string)
  (generated : res PublicKey) (faults jwksFaults : writeFaults)
  (fs fs' : gmap string file) (stdout : string) (cfg : Config)
  (Hflags : Parse keygenFlagSet ("", "") args = Ok ((out, jwksOut), rest))
  (Hrun : runKeygen Sum256 args (GenerateKey generated)
            (key ← GenerateKey generated; EncodePrivateKeyPEM MarshalPKCS8 pemEncode key)
            faults jwksFaults fs = (fs', stdout, Ok tt))
  (Hcfg : st_KeyPath (c_SandboxToken cfg) = out)
  (Hok : tokenOk (c_SandboxToken cfg)) :
  ∃ f i, fs' !! out = Some f
    ∧ buildTokenIssuer Sum256 cfg (LoadKey pemDecode ParseEC ParsePKCS8 out (Ok (f_data f))) = Ok (Some i)
    ∧ if jwksOut ==? "" then stdout = i_jwks i +:+ newline
      else f_data <$> fs' !! jwksOut = Some (i_jwks i +:+ newline).
Proof.
  unfold runKeygen in Hrun. rewrite Hflags in Hrun. unfold keygen in Hrun. case_bool_decide as Hout; [done|].
  destruct (GenerateKey generated) as [pub|e] eqn:Hg; [|done]. cbn in Hrun.
  unfold EncodePrivateKeyPEM in Hrun. destruct (MarshalPKCS8 pub) as [der|e] eqn:Hm; [|done].
  destruct (writeNew out _ 384 faults fs) as [fs1 [[]|e]] eqn:E1; [|done].
  apply writeNew_ok in E1 as [Hnew ->].
  destruct (JWKSDocument Sum256 pub) as [jwks|e] eqn:Hj; [|done].
  assert (∃ kid x y, KeyIDOf Sum256 pub = Ok kid ∧ coords pub = Ok (x, y)) as (kid & x & y & Hkid & Hxy).
  { unfold JWKSDocument in Hj. destruct (KeyIDOf Sum256 pub) as [kid|]; [|done]. cbn in Hj.
    destruct (coords pub) as [[x y]|]; [|done]. eauto. }
  assert (pk_Curve pub = P256) as Hcurve.
  { unfold coords in Hxy. case_bool_decide; [done|]. by cbn in Hxy. }
  assert (LoadKey pemDecode ParseEC ParsePKCS8 out (Ok (pemEncode "PRIVATE KEY" der)) = Ok pub) as Hload.
  { unfold LoadKey, ParsePrivateKeyPEM. rewrite Hpem, bool_decide_eq_false_2 by done.
    rewrite bool_decide_eq_true_2, (Hpkcs8 _ _ Hm) by done. cbn. by rewrite bool_decide_eq_true_2. }
  set (i := mkIssuer pub kid jwks (st_Issuer (c_SandboxToken cfg)) (st_Audience (c_SandboxToken cfg))
              (st_TTL (c_SandboxToken cfg))).
  assert (buildTokenIssuer Sum256 cfg (Ok pub) = Ok (Some i)) as Hi.
  { unfold buildTokenIssuer, tokenOk, NewIssuer in *. rewrite Hcfg in Hok |- *.
    rewrite bool_decide_eq_false_2 in Hok by done. destruct Hok as (Hiss & Haud & Httl).
    rewrite bool_decide_eq_false_2, bool_decide_eq_true_2 by done. cbn [negb].
    rewrite !bool_decide_eq_false_2 by done. rewrite (proj2 (Z.leb_gt _ _)) by done. cbn. by rewrite Hkid, Hj. }
  case_bool_decide as Hjo.
  - destruct (wf_write jwksFaults) as [[e partial]|]; [done|]. injection Hrun as <- <- _.
    exists (mkFile 384 (pemEncode "PRIVATE KEY" der)), i. cbn [f_data].
    rewrite lookup_insert_eq, Hload. by split_and!.
  - destruct (writeNew jwksOut _ 420 jwksFaults _) as [fs2 [[]|e]] eqn:E2; [|done].
    injection Hrun as <- <- _. apply writeNew_ok in E2 as [Hnew2 ->].
    assert (jwksOut ≠ out) by (intros ->; by rewrite lookup_insert_eq in Hnew2).
    exists (mkFile 384 (pemEncode "PRIVATE KEY" der)), i. cbn [f_data].
    rewrite lookup_insert_ne, lookup_insert_eq, Hload by done. split_and!; [done..|].
    by rewrite lookup_insert_eq.
Qed.

(** A codec that knows one key. *)
Definition sample_marshal (key : PublicKey) : res string :=
  if bool_decide (key = sample_key) then Ok "der" else Err (ErrNew "another key").

Definition sample_parse (der : string) : res pkcs8Key := Ok (EcdsaKey sample_key).

Definition no_faults : writeFaults := mkWriteFaults None None None.

(** The default flags with a key file, an issuer and an audience. *)
Definition token_cfg : Config :=
  let f := defaultFlags "runs" "" in
  let c := sf_cfg f in
  mkConfig (c_ListenAddr c) (c_AdvertiseAddr c) (c_RedisAddr c) (c_RedisPassword c) (c_RedisDB c)
    (c_BilletAddr c) (c_Launcher c) (c_ProfilesDir c) (c_DefaultProfile c) (c_Retention c)
    (c_Harness c) (c_Sandbox c) (c_Telemetry c) (c_HarnessTelemetryEndpoint c)
    (mkSandboxTokenConfig "key.pem" "https://hairpin" "https://haybale" (15 * Minute)).

Lemma keygen_key_serves_witness :
  let '(fs', stdout, r) := runKeygen sample_hash (H := sample_tables)
    ["--out"; "key.pem"; "-jwks-out=jwks.json"] (GenerateKey (Ok sample_key))
    (key ← GenerateKey (Ok sample_key); EncodePrivateKeyPEM sample_marshal (λ _ der, der) key)
    no_faults no_faults ∅ in
  r = Ok tt ∧ ∃ f i, fs' !! "key.pem" = Some f
    ∧ buildTokenIssuer sample_hash token_cfg
        (LoadKey (λ s, Some ("PRIVATE KEY", s)) (λ _, Err EOF) sample_parse "key.pem" (Ok (f_data f)))
      = Ok (Some i)
    ∧ f_data <$> fs' !! "jwks.json" = Some (i_jwks i +:+ newline).
Proof.
  destruct (runKeygen _ _ _ _ _ _ _) as [[fs' stdout] r] eqn:Hrun.
  assert (r = Ok tt) as ->.
  { change r with (snd (fs', stdout, r)). rewrite <-Hrun. vm_compute. reflexivity. }
  split; [reflexivity|].
  apply (keygen_key_serves sample_hash (λ s, Some ("PRIVATE KEY", s)) (λ _ der, der) (λ _, Err EOF)
           sample_parse sample_marshal (λ der, eq_refl)
           ltac:(intros key der; unfold sample_marshal; case_bool_decide; [by intros _; subst|done])
           ["--out"; "key.pem"; "-jwks-out=jwks.json"] "key.pem" "jwks.json" [] (Ok sample_key) no_faults no_faults ∅ fs' stdout token_cfg eq_refl Hrun).
  - reflexivity.
  - vm_compute. repeat split; discriminate.
Defined.
